(* ===== verification/_CoqProject ===== *)
-Q . S2P
Prelude.v
PyFloat.v
FloatRound.v
FloatDiv.v
Hashing.v
CountMin.v
HyperLogLog.v
DDSketch.v
PyVal.v
PyDict.v
PyNum.v
Json.v
StreamLog.v
Windowed.v
Checkpoint.v
Facade.v
Concurrent.v
Storage.v
Registry.v
Mesh.v
Membership.v
Gossip.v
Rbac.v
RateLimit.v
AlertManager.v
SqlParser.v
SqlEngine.v
Server.v
Drift.v
Alerts.v
Compare.v
Endpoints.v
Agent.v
Client.v
Regression.v
Url.v
DbCheck.v
NamespaceAdmin.v
Regex.v
QueryBuilder.v
QueryStore.v
AtomicFile.v
Operator.v
