(* ===== verification/Prelude.v ===== *)
(** * SketchLog verification library

    A model of the Python implementation of SketchLog
    ([src/python/sketchlog]) and the theorems that make it correct.

    ** The program

    SketchLog keeps streams of latencies, unique values and named events in
    three sketches per stream.  A log ([facade.py]) owns a DDSketch, a
    HyperLogLog and a Count-Min Sketch; windows, drift detection, alerts,
    comparisons and SQL are built on logs; a server keeps many logs over a
    durable store, shares them with its peers in a mesh, and guards them with
    tokens, limits and quotas; an agent and a client feed and read it; an
    operator runs it on Kubernetes; and a few commands watch over the
    installation.

    ** Files

    Foundations.
    - [Prelude]: exceptions ([exn]) and results ([res]); the method monad [M],
      a function of an object's state that returns or raises and keeps its
      assignments in both cases; [for] loops; integers of 64 bits; strings;
      the tactics and the hints ([py]) shared by all files.
    - [PyFloat], [FloatRound], [FloatDiv]: Python's [float] as the primitive
      binary64 of Rocq, and what its operations compute, proved from the IEEE
      specification: a finite float is an integer multiple of 2^-1074, and
      sums, products and quotients are exact results rounded once.
    - [PyVal], [PyDict], [PyNum], [Json], [Url], [Regex]: dynamically typed
      values, dictionaries in insertion order, numbers of either kind, the
      text and the size of JSON, the standard library's splitting of URLs and
      the part of its regular expressions that the code uses.

    Sketches and logs.
    - [Hashing], [CountMin], [HyperLogLog], [DDSketch]: [core/*.py].
    - [StreamLog] (class [_PythonStreamLog]), [Checkpoint] ([to_dict] and
      [from_dict]), [Facade] (class [StreamLog] and its reports): [facade.py];
      [AtomicFile] ([_atomic.py], with [save] and [load] of [facade.py]).
    - [Windowed] ([windowed.py]), [Concurrent] ([concurrent.py]), [Drift]
      ([drift.py]), [Alerts] ([alerts.py]), [Compare] ([diff.py], [slo.py],
      [canary.py]).

    The server.
    - [Storage] ([storage.py]) and [Registry] (class [StreamRegistry] of
      [server.py]): logs in memory over a durable store.
    - [Mesh], [Membership], [Gossip]: the three parts of [cluster.py],
      replication, membership and anti-entropy, over one state record [mesh].
    - [Rbac] ([rbac.py]), [RateLimit] ([rate_limit.py]), [AlertManager]
      ([alert_manager.py]).
    - [SqlParser] and [SqlEngine]: [sql.py].
    - [Server] (authorisation, body limit, ingestion) and [Endpoints] (the
      handlers on streams): [server.py].

    Around it.
    - [Agent] ([agent.py]), [Client] ([async_client.py]), [Regression]
      ([ci_regression.py] and the report of [bench_lab.py]), [DbCheck]
      ([db_hardening.py]), [NamespaceAdmin] ([namespace_admin.py]),
      [QueryBuilder] and [QueryStore] ([query_builder.py]), [Operator]
      ([k8s_operator.py]).

    ** How the model reads

    A class is a Record of its attributes; a method that assigns is a term of
    the monad [M], composed as the code composes calls; a function that can
    raise returns [res].  A name of the model is the name in the code where
    Rocq allows it, and fields carry a prefix.  Integers are [Z], with the mask
    written out where the code masks, and with the guards of the code where it
    guards; floats are binary64, so that every claim about a float includes
    its rounding.  Dictionaries whose order is never observed are [gmap]s,
    the others lists of entries.  Clocks, jitter, answers of peers and of
    stores, and the enumeration order of sets are arguments: a theorem holds
    for all of them.  Concurrency is a schedule: [Concurrent] interleaves
    critical sections of several threads, [Registry] the segments of
    coroutines between two [await]s, with failing storage accesses.  A disk
    keeps what a crash may leave ([AtomicFile]), and a run every disk it goes
    through.

    The components meet through what they promise.  [slog_denotes s0 s cs]
    (in [StreamLog]) says that a log is the execution of a history of calls;
    windows, shared logs, drift, the registry and the endpoints all refine
    histories, so their theorems compose: what a shared log, a window or an
    aggregate reports is the report of one plain log.  [Endpoints] takes the
    registry as the map that [Registry] shows it to be.

    ** What the theorems show

    - Sketches: the state is a function of the ingested data, so merging is
      concatenation or union, batches are repeated additions, estimates are
      within the stated error, the float rank walk included.
    - Logs and checkpoints: [merge] is the log of both histories, or has no
      effect; whatever a checkpoint reader accepts is well-formed, and what is
      written is read back, through JSON text too, and after a crash at any
      point of the writing.
    - Windows, sharing, drift, alerts: each agrees with a function of the
      history of accepted calls, for every clock and every interleaving.
    - Registry and stores: capacities and lock discipline under every
      schedule; operations that do not overlap terminate and implement an
      unbounded map; the two stores are interchangeable.
    - Mesh: replicas converge; no payload breaks a capacity or replaces newer
      data; answers fit the limits they are counted against; every entry that
      fits is offered and sent within a bounded number of rounds.
    - Access: denied by default; the documented policy is what the handlers
      obey, but for one alias; limits, quotas and body sizes are exact.
    - SQL: the parser is total and its scanners agree with a reference;
      grouping is filtering.
    - Agent, client, commands: what is counted is what is sent; retries and
      pauses follow the policy; the regression gate is monotone; exit codes
      say exactly what they claim; passwords in their place are not printed;
      the verdict on a query is a declarative one, its copied command is read
      back by a shell, and the store of queries is what was put in it; one
      sweep of the operator brings every cluster to its specification.

    Theorems that are claims about the program are numbered C1, C2, ... in
    their comments.  A lemma named after a surprising behaviour (for example
    [one_slow_request_rolls_back]) exhibits it on the model; PROJECT.json
    lists these under findings.

    ** Bounds, fuel and parameters

    Recursion is structural wherever the code's is.  Where a loop is run with
    fuel its theorem says how much is enough: ten segments per operation and
    three per resident stream in [Registry], as many rounds as there are
    streams in [Gossip], one step per character in the scanners.  Quantiles
    are proved for up to 2^53 values (beyond that the code's own float counts
    are inexact); a quota threshold up to 2^50 bytes; retries up to 1023.

    Parameters, each a class or an argument with documented laws and a
    concrete instance in the witnesses: the C library's [log] and [pow]
    ([Libm], monotone where assumed), [float(s)] ([FloatParser]), [repr] of a
    float ([FloatRepr]), HMAC, base64 and zlib, the router of the web
    framework ([Router]), the parser of Python expressions, HTTP transports,
    the database library, the Kubernetes API server ([ApiLaws] in
    [Operator]), the outcomes of system calls ([AtomicFile]) and the
    properties of characters beyond ASCII ([Unicode] in [Regex]).

    ** Not modelled

    - The C++ core and its bindings, the Go, Rust and TypeScript clients, the
      Grafana plugin and the website: other languages.
    - [exporters], [integrations], [ebpf]: adapters that pass values to and
      from third-party APIs.
    - [doctor.py], [tls_config.py], [cost_estimate.py], [mesh_visualizer.py]
      and the measurements of [bench_lab.py]: probes of the environment,
      static tables, layout and timing.
    - Of [query_builder.py] the generated Python snippet; of
      [k8s_operator.py] the watch and the threads; of [_atomic.py] the lock.
    - [scripts], [benchmarks], [demo], [clients]: they drive a running system.
    - Of the modelled modules: argparse, the file system beyond what a reader
      gets from it, logging, metrics, background threads (their loop bodies
      are modelled), readiness and TLS of the server, and text layout.  Case
      and white space are those of ASCII unless a file says otherwise. *)

From Stdlib Require Export ZArith Lia.
From stdpp Require Export base tactics strings gmap option sorting list.

#[local] Open Scope Z_scope.

(** ** Python exceptions and results

    The exception classes the modelled code raises or catches.  The message
    is the static part of the source's message: interpolated values of
    f-strings are left out. *)

Inductive exn : Type :=
| ValueError (msg : string)
| TypeError (msg : string)
| OverflowError (msg : string)
| KeyError (msg : string)
| IndexError (msg : string)
| ZeroDivisionError (msg : string)
| RuntimeError (msg : string)
| AssertionError (msg : string)
| HTTPException (status : Z) (msg : string)
| StorageError (msg : string)
| AttributeError (msg : string)
| OSError (msg : string)
| OperatorError (status : option Z) (msg : string).

#[export] Instance exn_eq_dec : EqDecision exn.
Proof. solve_decision. Defined.

Inductive res (A : Type) : Type :=
| Ok (a : A)
| Raise (e : exn).
Arguments Ok {A} a.
Arguments Raise {A} e.

#[export] Instance res_eq_dec {A} `{EqDecision A} : EqDecision (res A).
Proof. solve_decision. Defined.

Definition is_ok {A} (r : res A) : bool :=
  match r with Ok _ => true | Raise _ => false end.

Definition res_bind {A B} (r : res A) (f : A → res B) : res B :=
  match r with Ok a => f a | Raise e => Raise e end.

Definition res_map {A B} (f : A → B) (r : res A) : res B :=
  match r with Ok a => Ok (f a) | Raise e => Raise e end.

(** ** The method monad

    A Python method is a function of the object's state which returns or
    raises, and whose assignments are kept in both cases: an exception does
    not undo the mutations made before it. *)

Definition M (S A : Type) : Type := S → res A * S.

Definition mret {S A} (a : A) : M S A := λ s, (Ok a, s).
Definition mbind {S A B} (m : M S A) (f : A → M S B) : M S B :=
  λ s, match m s with
       | (Ok a, s') => f a s'
       | (Raise e, s') => (Raise e, s')
       end.
Definition mget {S} : M S S := λ s, (Ok s, s).
Definition mgets {S A} (f : S → A) : M S A := λ s, (Ok (f s), s).
Definition mmodify {S} (f : S → S) : M S unit := λ s, (Ok (), f s).
Definition mraise {S A} (e : exn) : M S A := λ s, (Raise e, s).
Definition mlift {S A} (r : res A) : M S A := λ s, (r, s).

Declare Scope py_scope.
Delimit Scope py_scope with py.
Notation "x <- m ;; k" := (mbind m (λ x, k))
  (at level 100, m at next level, right associativity) : py_scope.
Notation "m ;;; k" := (mbind m (λ _, k))
  (at level 100, right associativity) : py_scope.
Notation "'let?' x := r 'in' k" := (res_bind r (λ x, k))
  (at level 10, x name, r at level 100, k at level 200) : py_scope.
#[local] Open Scope py_scope.

(** [if b: raise e] *)
Definition raise_if {S} (b : bool) (e : exn) : M S unit :=
  if b then mraise e else mret ().

(** The same guard in a pure function. *)
Definition fail_if (b : bool) (e : exn) : res unit :=
  if b then Raise e else Ok ().

(** [for x in xs: body] *)
Fixpoint mfor {S A} (xs : list A) (body : A → M S unit) : M S unit :=
  match xs with
  | [] => mret ()
  | x :: xs' => body x ;;; mfor xs' body
  end.

(** Calling a method of a field: [get] reads the field, [set] assigns it. *)
Definition zoom {S T A} (get : S → T) (set : T → S → S) (m : M T A) : M S A :=
  λ s, let '(r, t) := m (get s) in (r, set t s).

(** Running a method on a state and keeping only the final state. *)
Definition exec {S A} (m : M S A) (s : S) : S := snd (m s).
Definition result {S A} (m : M S A) (s : S) : res A := fst (m s).

(** ** Exception safety and invariants *)

(** A read-only method assigns nothing. *)
Definition readonly {S A} (m : M S A) : Prop := ∀ s, snd (m s) = s.

(** A method is atomic when raising leaves the object as it was. *)
Definition atomic {S A} (m : M S A) : Prop :=
  ∀ s e s', m s = (Raise e, s') → s' = s.

(** A method that cannot raise. *)
Definition noraise {S A} (m : M S A) : Prop :=
  ∀ s, is_ok (fst (m s)) = true.

(** [P] is kept by the method, whether it returns or raises. *)
Definition preserves {S A} (P : S → Prop) (m : M S A) : Prop :=
  ∀ s, P s → P (snd (m s)).

Create HintDb py.

Section monad_laws.
Context {S : Type}.

Lemma mbind_ret_l {A B} (a : A) (f : A → M S B) s :
  mbind (mret a) f s = f a s.
Proof. done. Qed.

Lemma mbind_assoc {A B C} (m : M S A) (f : A → M S B) (g : B → M S C) s :
  mbind (mbind m f) g s = mbind m (λ a, mbind (f a) g) s.
Proof. unfold mbind. by destruct (m s) as [[a|e] s']. Qed.

Lemma mbind_ok {A B} (m : M S A) (f : A → M S B) s b s'' :
  mbind m f s = (Ok b, s'') ↔
  ∃ a s', m s = (Ok a, s') ∧ f a s' = (Ok b, s'').
Proof.
  unfold mbind. destruct (m s) as [[a|e] s'] eqn:E; simpl; split.
  - eauto.
  - by intros (?&?&[= <- <-]&?).
  - done.
  - by intros (?&?&[=]&?).
Qed.

Lemma mbind_step {A B} (m : M S A) (f : A → M S B) s a s' :
  m s = (Ok a, s') → mbind m f s = f a s'.
Proof. unfold mbind. by intros ->. Qed.

Lemma mget_run (s : S) : mget s = (Ok s, s).
Proof. done. Qed.
Lemma mlift_run {A} (r : res A) a (s : S) : r = Ok a → mlift r s = (Ok a, s).
Proof. by intros ->. Qed.
Lemma mmodify_run (f : S → S) s : mmodify f s = (Ok (), f s).
Proof. done. Qed.

Lemma mbind_raise {A B} (m : M S A) (f : A → M S B) s e s'' :
  mbind m f s = (Raise e, s'') ↔
  m s = (Raise e, s'') ∨
  ∃ a s', m s = (Ok a, s') ∧ f a s' = (Raise e, s'').
Proof.
  unfold mbind. destruct (m s) as [[a|e'] s'] eqn:E; simpl; split.
  - eauto 8.
  - intros [[=]|(?&?&[= <- <-]&?)]; done.
  - intros [= -> ->]. by left.
  - intros [[= -> ->]|(?&?&?&?)]; by simplify_eq.
Qed.

Lemma raise_if_ok b e (s s' : S) u :
  raise_if b e s = (Ok u, s') ↔ b = false ∧ s' = s.
Proof.
  unfold raise_if, mraise, mret. destruct b, u; split; intros H.
  - done.
  - by destruct H.
  - by injection H as <-.
  - by destruct H as [_ ->].
Qed.

Lemma raise_if_run b e (s : S) :
  raise_if b e s = if b then (Raise e, s) else (Ok (), s).
Proof. by destruct b. Qed.

Lemma mfor_app {A} (xs ys : list A) (body : A → M S unit) s :
  mfor (xs ++ ys) body s = (mfor xs body ;;; mfor ys body) s.
Proof.
  revert s. induction xs as [|x xs IH]; intros s; [done|].
  simpl. unfold mbind. destruct (body x s) as [[[]|e] s']; [|done].
  rewrite IH. done.
Qed.

Lemma readonly_ret {A} (a : A) : readonly (S := S) (mret a).
Proof. done. Qed.
Lemma readonly_raise {A} e : readonly (S := S) (A := A) (mraise e).
Proof. done. Qed.
Lemma readonly_raise_if b e : readonly (S := S) (raise_if b e).
Proof. by destruct b. Qed.
Lemma readonly_gets {A} (f : S → A) : readonly (mgets f).
Proof. done. Qed.
Lemma readonly_get : readonly (S := S) mget.
Proof. done. Qed.
Lemma readonly_lift {A} (r : res A) : readonly (S := S) (mlift r).
Proof. done. Qed.
Lemma readonly_bind {A B} (m : M S A) (f : A → M S B) :
  readonly m → (∀ a, readonly (f a)) → readonly (mbind m f).
Proof.
  intros Hm Hf s. unfold mbind. specialize (Hm s).
  destruct (m s) as [[a|e] s']; simpl in *; subst; [apply Hf|done].
Qed.

Lemma atomic_readonly {A} (m : M S A) : readonly m → atomic m.
Proof. intros H s e s' E. specialize (H s). by rewrite E in H. Qed.
Lemma atomic_noraise {A} (m : M S A) : noraise m → atomic m.
Proof. intros H s e s' E. specialize (H s). by rewrite E in H. Qed.
Lemma atomic_bind {A B} (m : M S A) (f : A → M S B) :
  readonly m → (∀ a, atomic (f a)) → atomic (mbind m f).
Proof.
  intros Hm Hf s e s' [E|(a&s1&E&E')]%mbind_raise.
  - specialize (Hm s). by rewrite E in Hm.
  - specialize (Hm s). rewrite E in Hm. simpl in Hm. subst.
    by eapply Hf.
Qed.
(** An atomic step may be followed by steps that cannot raise. *)
Lemma atomic_bind_noraise {A B} (m : M S A) (f : A → M S B) :
  atomic m → (∀ a, noraise (f a)) → atomic (mbind m f).
Proof.
  intros Hm Hf s e s' [E|(a&s1&E&E')]%mbind_raise.
  - by eapply Hm.
  - specialize (Hf a s1). by rewrite E' in Hf.
Qed.

Lemma noraise_ret {A} (a : A) : noraise (S := S) (mret a).
Proof. done. Qed.
Lemma noraise_modify (f : S → S) : noraise (mmodify f).
Proof. done. Qed.
Lemma noraise_gets {A} (f : S → A) : noraise (mgets f).
Proof. done. Qed.
Lemma noraise_get : noraise (S := S) mget.
Proof. done. Qed.
Lemma noraise_bind {A B} (m : M S A) (f : A → M S B) :
  noraise m → (∀ a, noraise (f a)) → noraise (mbind m f).
Proof.
  intros Hm Hf s. unfold mbind. specialize (Hm s).
  destruct (m s) as [[a|e] s']; simpl in *; [apply Hf|done].
Qed.
Lemma noraise_for {A} (xs : list A) (body : A → M S unit) :
  (∀ x, noraise (body x)) → noraise (mfor xs body).
Proof.
  intros H. induction xs; simpl; [done|]. by apply noraise_bind.
Qed.

Lemma preserves_readonly {A} (P : S → Prop) (m : M S A) :
  readonly m → preserves P m.
Proof. intros H s HP. by rewrite H. Qed.
Lemma preserves_bind {A B} (P : S → Prop) (m : M S A) (f : A → M S B) :
  preserves P m → (∀ a, preserves P (f a)) → preserves P (mbind m f).
Proof.
  intros Hm Hf s HP. unfold mbind. specialize (Hm s HP).
  destruct (m s) as [[a|e] s']; simpl in *; [by apply Hf|done].
Qed.
Lemma preserves_for {A} (P : S → Prop) (xs : list A) (body : A → M S unit) :
  (∀ x, preserves P (body x)) → preserves P (mfor xs body).
Proof.
  intros H. induction xs; simpl.
  - by apply preserves_readonly.
  - by apply preserves_bind.
Qed.
End monad_laws.

(** A zoomed method inherits the properties of the method. *)
Section zoom_laws.
Context {S T : Type} (get : S → T) (set : T → S → S).
Context (set_get : ∀ s, set (get s) s = s).

Lemma zoom_atomic {A} (m : M T A) : atomic m → atomic (zoom get set m).
Proof using Type*.
  intros H s e s'. unfold zoom.
  destruct (m (get s)) as [[a|e'] t] eqn:E; intros [=]; subst.
  apply H in E. subst. apply set_get.
Qed.
Lemma zoom_readonly {A} (m : M T A) : readonly m → readonly (zoom get set m).
Proof using Type*.
  intros H s. unfold zoom. specialize (H (get s)).
  destruct (m (get s)) as [r t]. simpl in *. subst. apply set_get.
Qed.
Lemma zoom_noraise {A} (m : M T A) : noraise m → noraise (zoom get set m).
Proof using Type.
  intros H s. unfold zoom. specialize (H (get s)).
  by destruct (m (get s)) as [r t].
Qed.
End zoom_laws.

#[export] Hint Resolve readonly_ret readonly_raise readonly_raise_if
  readonly_gets readonly_get readonly_lift readonly_bind
  noraise_ret noraise_modify noraise_gets noraise_get noraise_bind
  noraise_for : py.

(** Proves [atomic] of a method written as guards followed by a commit. *)
Ltac solve_atomic :=
  repeat first
    [ progress intros
    | apply atomic_bind; [solve [eauto 6 with py]|]
    | apply atomic_readonly; solve [eauto 6 with py]
    | apply atomic_noraise; solve [eauto 6 with py]
    | match goal with |- atomic (match ?x with _ => _ end) => destruct x end ].

(** Splits the run of a monadic method in a hypothesis into its steps. *)
Ltac inv_step H :=
  lazymatch type of H with
  | mbind _ _ _ = (Ok _, _) =>
      let a := fresh "a" in let s := fresh "s" in
      let H1 := fresh H in let H2 := fresh H in
      apply mbind_ok in H; destruct H as (a & s & H1 & H2);
      inv_step H1; inv_step H2
  | raise_if _ _ _ = (Ok _, _) =>
      let Hb := fresh "G" in let Hs := fresh in
      apply raise_if_ok in H; destruct H as [Hb Hs]; try subst
  | mret _ _ = (Ok _, _) => injection H as ? ?; try subst
  | mgets _ _ = (Ok _, _) => injection H as ? ?; try subst
  | mget _ = (Ok _, _) => injection H as ? ?; try subst
  | mmodify _ _ = (Ok _, _) => injection H as ? ?; try subst
  | mraise _ _ = (Ok _, _) => discriminate H
  | _ => idtac
  end.

(** Runs the first step of a method with the equation (or lemma) given. *)
Tactic Notation "step_run" uconstr(H) :=
  erewrite mbind_step; [cbv beta|first [eapply H|refine H]].

(** ** Results *)

Lemma res_bind_ok {A B} (r : res A) (f : A → res B) b :
  res_bind r f = Ok b ↔ ∃ a, r = Ok a ∧ f a = Ok b.
Proof. destruct r; simpl; split; eauto; [by intros (? & [= <-] & ?)|done|by intros (? & [=] & ?)]. Qed.

Lemma fail_if_ok b e u : fail_if b e = Ok u ↔ b = false.
Proof. destruct b, u; simpl; by split. Qed.

(** Splits a successful chain of [let?] in a hypothesis into its steps. *)
Ltac inv_res H :=
  lazymatch type of H with
  | res_bind _ _ = Ok _ =>
      let a := fresh "a" in let H1 := fresh H in let H2 := fresh H in
      apply res_bind_ok in H; destruct H as (a & H1 & H2);
      inv_res H1; cbv beta zeta in H2; inv_res H2
  | fail_if _ _ = Ok _ => apply fail_if_ok in H
  | Ok _ = Ok _ => injection H as ?; try subst
  | Raise _ = Ok _ => discriminate H
  | (if ?b then Raise _ else _) = Ok _ =>
      let G := fresh "G" in destruct b eqn:G; [discriminate H|inv_res H]
  | _ => idtac
  end.

(** The exceptions a computation can raise. *)
Definition raises {A} (P : exn → Prop) (r : res A) : Prop :=
  match r with Ok _ => True | Raise e => P e end.

Lemma raises_bind {A B} P (r : res A) (f : A → res B) :
  raises P r → (∀ a, raises P (f a)) → raises P (res_bind r f).
Proof. destruct r; simpl; eauto. Qed.
Lemma raises_fail_if P b e : P e → raises P (fail_if b e).
Proof. by destruct b. Qed.

(** ** Machine integers *)

Definition MAX_INT64 : Z := 2 ^ 63 - 1.
Definition MAX_UINT64 : Z := 2 ^ 64 - 1.

(** [x & 0xFFFFFFFFFFFFFFFF] *)
Definition mask64 (x : Z) : Z := Z.land x MAX_UINT64.

Lemma mask64_mod x : mask64 x = x mod 2 ^ 64.
Proof.
  unfold mask64, MAX_UINT64.
  change (2 ^ 64 - 1) with (Z.pred (2 ^ 64)). rewrite <- Z.ones_equiv.
  by rewrite Z.land_ones by lia.
Qed.

Lemma mask64_range x : 0 ≤ mask64 x < 2 ^ 64.
Proof. rewrite mask64_mod. by apply Z.mod_pos_bound. Qed.

Lemma mask64_small x : 0 ≤ x < 2 ^ 64 → mask64 x = x.
Proof. intros. rewrite mask64_mod. by apply Z.mod_small. Qed.

(** ** Lists of integers *)

Definition sum_Z (l : list Z) : Z := fold_right Z.add 0 l.

Lemma sum_Z_app l k : sum_Z (l ++ k) = sum_Z l + sum_Z k.
Proof. induction l; simpl; lia. Qed.

Lemma sum_Z_nonneg l : Forall (λ x, 0 ≤ x) l → 0 ≤ sum_Z l.
Proof. induction 1; simpl; lia. Qed.

Lemma sum_Z_replicate n x : sum_Z (replicate n x) = Z.of_nat n * x.
Proof. induction n; simpl sum_Z; lia. Qed.

Lemma sum_Z_insert l i x y :
  l !! i = Some x → sum_Z (<[i := y]> l) = sum_Z l - x + y.
Proof.
  revert i. induction l as [|a l IH]; intros [|i] Hi; simplify_eq/=; [lia|].
  rewrite (IH i) by done. lia.
Qed.

Lemma sum_Z_elem_le l i x :
  Forall (λ x, 0 ≤ x) l → l !! i = Some x → x ≤ sum_Z l.
Proof.
  intros Hl. revert i. induction Hl as [|a l Ha Hl IH]; intros [|i] Hi;
    simplify_eq/=.
  - pose proof (sum_Z_nonneg l Hl). lia.
  - specialize (IH i Hi). lia.
Qed.

Lemma sum_Z_perm l k : l ≡ₚ k → sum_Z l = sum_Z k.
Proof. induction 1; simpl; lia. Qed.

(** Sum of a function over a list of items. *)
Definition sum_by {A} (f : A → Z) (l : list A) : Z := sum_Z (f <$> l).

Lemma sum_by_cons {A} (f : A → Z) a l :
  sum_by f (a :: l) = f a + sum_by f l.
Proof. done. Qed.

Lemma sum_by_app {A} (f : A → Z) l k :
  sum_by f (l ++ k) = sum_by f l + sum_by f k.
Proof. unfold sum_by. by rewrite fmap_app, sum_Z_app. Qed.

Lemma sum_by_nonneg {A} (f : A → Z) l :
  (∀ x, x ∈ l → 0 ≤ f x) → 0 ≤ sum_by f l.
Proof.
  intros H. apply sum_Z_nonneg, Forall_fmap, Forall_forall.
  done.
Qed.

Lemma sum_by_le {A} (f g : A → Z) l :
  (∀ x, x ∈ l → f x ≤ g x) → sum_by f l ≤ sum_by g l.
Proof.
  induction l as [|a l IH]; intros H; [done|]. rewrite !sum_by_cons.
  pose proof (H a (list_elem_of_here _ _)).
  specialize (IH (λ x Hx, H x (list_elem_of_further _ _ _ Hx))). lia.
Qed.

Lemma sum_by_perm {A} (f : A → Z) l k : l ≡ₚ k → sum_by f l = sum_by f k.
Proof. intros Hp. unfold sum_by. by apply sum_Z_perm, fmap_Permutation. Qed.

Lemma sum_by_zero {A} (f : A → Z) l : (∀ x, x ∈ l → f x = 0) → sum_by f l = 0.
Proof.
  induction l as [|a l IH]; intros H; [done|]. rewrite sum_by_cons, IH.
  - rewrite (H a) by left. lia.
  - intros x Hx. apply H. by right.
Qed.

Lemma sum_by_ext {A} (f g : A → Z) l :
  (∀ x, x ∈ l → f x = g x) → sum_by f l = sum_by g l.
Proof.
  intros H. apply Z.le_antisymm; apply sum_by_le; intros x Hx; by rewrite H.
Qed.

(** A non-empty list has an element of least measure. *)
Lemma argmin_exists {A} (f : A → Z) (l : list A) :
  l ≠ [] → ∃ a, a ∈ l ∧ ∀ b, b ∈ l → f a ≤ f b.
Proof.
  induction l as [|x l IH]; [done|]. intros _. destruct l as [|y l].
  - exists x. split; [by left|]. intros b ->%list_elem_of_singleton. done.
  - destruct IH as (a & Ha & Hmin); [done|].
    destruct (Z.le_gt_cases (f x) (f a)).
    + exists x. split; [by left|]. intros b [->|Hb]%elem_of_cons; [done|].
      specialize (Hmin b Hb). lia.
    + exists a. split; [by right|].
      intros b [->|Hb]%elem_of_cons; [lia|by apply Hmin].
Qed.

(** ** Strings *)

(** [len(s)]: a [str] is represented by the bytes of its UTF-8 encoding, and
    a character is counted at its first byte. *)
Definition is_continuation (a : Ascii.ascii) : bool :=
  let n := Z.of_nat (Ascii.nat_of_ascii a) in (128 <=? n) && (n <? 192).
Definition py_len (s : string) : Z :=
  Z.of_nat (length (filter (λ a, is_continuation a = false) (String.list_ascii_of_string s))).

(** [str.isspace] of an ASCII character, and [not s.strip()]. *)
Definition is_space (a : Ascii.ascii) : bool :=
  let n := Ascii.nat_of_ascii a in
  ((9 <=? n) && (n <=? 13) || (28 <=? n) && (n <=? 32))%nat.
Definition is_blank (s : string) : bool :=
  forallb is_space (String.list_ascii_of_string s).

(** [s.strip()], for the white space of ASCII *)
Fixpoint drop_spaces (l : list Ascii.ascii) : list Ascii.ascii :=
  match l with a :: l' => if is_space a then drop_spaces l' else l | [] => [] end.
Definition strip_chars (l : list Ascii.ascii) : list Ascii.ascii :=
  rev (drop_spaces (rev (drop_spaces l))).
Definition py_strip (s : string) : string :=
  String.string_of_list_ascii (strip_chars (String.list_ascii_of_string s)).

(** [s.lower()], for the letters of ASCII *)
Definition lower_char (a : Ascii.ascii) : Ascii.ascii :=
  let n := Ascii.nat_of_ascii a in
  if ((65 <=? n) && (n <=? 90))%nat
  then Ascii.ascii_of_nat (n + 32) else a.
Definition py_lower (s : string) : string :=
  String.string_of_list_ascii (map lower_char (String.list_ascii_of_string s)).

(** [s.upper()], for the letters of ASCII *)
Definition upper_char (a : Ascii.ascii) : Ascii.ascii :=
  let n := Ascii.nat_of_ascii a in
  if ((97 <=? n) && (n <=? 122))%nat
  then Ascii.ascii_of_nat (n - 32) else a.
Definition py_upper (s : string) : string :=
  String.string_of_list_ascii (map upper_char (String.list_ascii_of_string s)).

(** [s[:n]], by characters *)
Fixpoint take_chars (n : nat) (l : list Ascii.ascii) : list Ascii.ascii :=
  match l with
  | [] => []
  | a :: l' =>
      if is_continuation a then a :: take_chars n l'
      else match n with O => [] | S n' => a :: take_chars n' l' end
  end.
Definition py_take (n : nat) (s : string) : string :=
  String.string_of_list_ascii (take_chars n (String.list_ascii_of_string s)).

(** [s.startswith(p)] *)
Fixpoint starts_with (p s : list Ascii.ascii) : bool :=
  match p, s with
  | [], _ => true
  | a :: p', b :: s' => bool_decide (a = b) && starts_with p' s'
  | _ :: _, [] => false
  end.
Definition py_startswith (s p : string) : bool :=
  starts_with (String.list_ascii_of_string p) (String.list_ascii_of_string s).

(** [s.rstrip(c)] for one character [c] *)
Definition py_rstrip (c : Ascii.ascii) (s : string) : string :=
  String.string_of_list_ascii
    (rev ((fix drop l := match l with
           | a :: l' => if decide (a = c) then drop l' else l
           | [] => []
           end) (rev (String.list_ascii_of_string s)))).

(** [s[-1]] and [s[:-1]] of a non-empty string. *)
Definition py_unsnoc (s : string) : option (string * Ascii.ascii) :=
  match rev (String.list_ascii_of_string s) with
  | a :: l => Some (String.string_of_list_ascii (rev l), a)
  | [] => None
  end.

(** ** Python sequences *)

(** [l[i]]: a negative index counts from the end; out of range raises. *)
Definition py_index {A} (l : list A) (i : Z) : res A :=
  let i := if i <? 0 then i + Z.of_nat (length l) else i in
  if i <? 0 then Raise (IndexError "list index out of range")
  else match l !! Z.to_nat i with
       | Some a => Ok a
       | None => Raise (IndexError "list index out of range")
       end.

(** [l[i] = x] *)
Definition py_setitem {A} (l : list A) (i : Z) (x : A) : res (list A) :=
  let? _ := py_index l i in
  let i := if i <? 0 then i + Z.of_nat (length l) else i in
  Ok (<[Z.to_nat i := x]> l).

(** [range(n)] *)
Definition py_range (n : Z) : list Z := seqZ 0 n.

(** [enumerate(l)] *)
Definition py_enumerate {A} (l : list A) : list (Z * A) :=
  imap (λ i a, (Z.of_nat i, a)) l.

(** A comprehension whose body may raise. *)
Fixpoint res_mapM {A B} (f : A → res B) (l : list A) : res (list B) :=
  match l with
  | [] => Ok []
  | a :: l' => let? b := f a in let? bs := res_mapM f l' in Ok (b :: bs)
  end.

(** [any(f(x) for x in l)], which stops at the first true item. *)
Fixpoint res_any {A} (f : A → res bool) (l : list A) : res bool :=
  match l with
  | [] => Ok false
  | a :: l' => let? b := f a in if b then Ok true else res_any f l'
  end.

(** [for x in l: acc = f(acc, x)] with a body that may raise. *)
Fixpoint res_fold {A B} (f : B → A → res B) (l : list A) (acc : B) : res B :=
  match l with
  | [] => Ok acc
  | a :: l' => let? acc' := f acc a in res_fold f l' acc'
  end.

Lemma py_index_lookup {A} (l : list A) i x :
  0 ≤ i → l !! Z.to_nat i = Some x → py_index l i = Ok x.
Proof.
  intros Hi Hx. unfold py_index.
  rewrite (proj2 (Z.ltb_ge i 0)) by done.
  rewrite (proj2 (Z.ltb_ge i 0)) by done. by rewrite Hx.
Qed.

Lemma py_index_nat {A} (l : list A) (i : nat) x :
  l !! i = Some x → py_index l (Z.of_nat i) = Ok x.
Proof. intros. apply py_index_lookup; [lia|]. by rewrite Nat2Z.id. Qed.

Lemma py_setitem_lookup {A} (l : list A) i x y :
  0 ≤ i → l !! Z.to_nat i = Some y →
  py_setitem l i x = Ok (<[Z.to_nat i := x]> l).
Proof.
  intros Hi Hy. unfold py_setitem. rewrite (py_index_lookup l i y) by done.
  simpl. by rewrite (proj2 (Z.ltb_ge i 0)).
Qed.

Lemma res_mapM_ok {A B} (f : A → res B) (g : A → B) l :
  (∀ a, a ∈ l → f a = Ok (g a)) → res_mapM f l = Ok (g <$> l).
Proof.
  induction l as [|a l IH]; intros H; [done|]. simpl.
  rewrite (H a) by left. simpl. rewrite IH; [done|].
  intros b Hb. apply H. by right.
Qed.

Lemma res_any_ok {A} (f : A → res bool) (g : A → bool) l :
  (∀ a, a ∈ l → f a = Ok (g a)) → res_any f l = Ok (existsb g l).
Proof.
  induction l as [|a l IH]; intros H; [done|]. simpl.
  rewrite (H a) by left. simpl. destruct (g a); [done|]. simpl.
  apply IH. intros b Hb. apply H. by right.
Qed.

Lemma res_fold_app {A B} (f : B → A → res B) l k acc :
  res_fold f (l ++ k) acc = res_bind (res_fold f l acc) (res_fold f k).
Proof.
  revert acc. induction l as [|a l IH]; intros acc; [done|]. simpl.
  destruct (f acc a) as [b|e]; simpl; [apply IH|done].
Qed.

Lemma raises_mapM {A B} P (f : A → res B) l :
  (∀ a, raises P (f a)) → raises P (res_mapM f l).
Proof.
  intros Hf. induction l as [|a l IH]; [done|]. simpl.
  apply raises_bind; [done|]. intros b. by apply raises_bind.
Qed.
Lemma raises_fold {A B} P (f : B → A → res B) l acc :
  (∀ b a, raises P (f b a)) → raises P (res_fold f l acc).
Proof.
  intros Hf. revert acc. induction l as [|a l IH]; intros acc; [done|]. simpl.
  by apply raises_bind.
Qed.

Lemma res_mapM_length {A B} (f : A → res B) l bs :
  res_mapM f l = Ok bs → length bs = length l.
Proof.
  revert bs. induction l as [|a l IH]; intros bs E; simpl in E; inv_res E; [done|].
  simpl. f_equal. by apply IH.
Qed.

Lemma res_mapM_Forall {A B} (f : A → res B) (P : B → Prop) l bs :
  (∀ a b, f a = Ok b → P b) → res_mapM f l = Ok bs → Forall P bs.
Proof.
  intros Hf. revert bs. induction l as [|a l IH]; intros bs E; simpl in E; inv_res E.
  - constructor.
  - constructor; eauto.
Qed.

(** Mapping over values built from the results. *)
Lemma res_mapM_fmap {A B} (f : A → res B) (g : B → A) l :
  (∀ b, b ∈ l → f (g b) = Ok b) → res_mapM f (g <$> l) = Ok l.
Proof.
  induction l as [|b l IH]; intros H; [done|].
  rewrite fmap_cons. cbn [res_mapM]. rewrite (H b) by left. cbn [res_bind].
  rewrite IH; [done|]. intros c Hc. apply H. by right.
Qed.

Lemma res_mapM_elem {A B} (f : A → res B) l bs :
  res_mapM f l = Ok bs → ∀ b, b ∈ bs ↔ ∃ a, a ∈ l ∧ f a = Ok b.
Proof.
  revert bs. induction l as [|a l IH]; intros bs H b.
  - injection H as <-. split; [by intros ?%elem_of_nil|].
    by intros (? & ?%elem_of_nil & _).
  - simpl in H. destruct (f a) as [x|] eqn:E; [|done]. simpl in H.
    destruct (res_mapM f l) as [xs|]; [|done]. injection H as <-.
    rewrite elem_of_cons, (IH xs) by done. clear IH. split.
    + intros [->|(c & Hc & Hf)].
      * exists a. by split; [left|].
      * exists c. by split; [right|].
    + intros (c & [->|Hc]%elem_of_cons & Hf); [left; congruence|eauto].
Qed.

(** [for x in xs: if not body(x): break] *)
Fixpoint mfor_while {S A} (xs : list A) (body : A → M S bool) : M S unit :=
  match xs with
  | [] => mret ()
  | x :: xs' => go <- body x ;; if (go : bool) then mfor_while xs' body else mret ()
  end.

(** [try: m except Exception: k] *)
Definition mtry {S A} (m : M S A) (k : M S A) : M S A :=
  λ s, match m s with
       | (Ok a, s') => (Ok a, s')
       | (Raise _, s') => k s'
       end.

Section loops.
Context {S : Type}.

Lemma preserves_for_while {A} (P : S → Prop) (xs : list A) (body : A → M S bool) :
  (∀ x, x ∈ xs → preserves P (body x)) → preserves P (mfor_while xs body).
Proof.
  intros H. induction xs as [|x xs IH]; simpl; [by apply preserves_readonly|].
  apply preserves_bind; [apply H; by left|].
  intros []; [apply IH; intros y Hy; apply H; by right|by apply preserves_readonly].
Qed.
Lemma preserves_for_in {A} (P : S → Prop) (xs : list A) (body : A → M S unit) :
  (∀ x, x ∈ xs → preserves P (body x)) → preserves P (mfor xs body).
Proof.
  intros H. induction xs as [|x xs IH]; simpl; [by apply preserves_readonly|].
  apply preserves_bind; [apply H; by left|]. intros _. apply IH.
  intros y Hy. apply H. by right.
Qed.
Lemma preserves_try {A} (P : S → Prop) (m k : M S A) :
  preserves P m → preserves P k → preserves P (mtry m k).
Proof.
  intros Hm Hk s Hs. unfold mtry. specialize (Hm s Hs).
  destruct (m s) as [[a|e] s']; [done|by apply Hk].
Qed.
End loops.
