(* ===== verification/PyFloat.v ===== *)
(** * Python floats

    Python's [float] is IEEE 754 binary64 with round-to-nearest-even, which
    is the primitive [float] of Rocq.  This file gives the Python operations
    the program uses on top of it ([min], [max], [math.isfinite], [math.ceil],
    conversion from [int], exact comparison with [int]) and the order and sign
    facts the components need, proved from the IEEE specification
    [SpecFloat]. *)

From Stdlib Require Import PrimFloat SpecFloat FloatOps FloatAxioms.
From S2P Require Import Prelude.

#[local] Open Scope Z_scope.

#[export] Instance float_eq_dec : EqDecision float.
Proof.
  intros x y. destruct (PrimFloat.Leibniz.eqb x y) eqn:E.
  - left. by apply FloatAxioms.Leibniz.eqb_spec.
  - right. intros ->. pose proof (FloatAxioms.Leibniz.eqb_spec y y) as [_ H].
    by rewrite H in E.
Defined.

Definition flt (x y : float) : bool := PrimFloat.ltb x y.
Definition fle (x y : float) : bool := PrimFloat.leb x y.
Definition feq (x y : float) : bool := PrimFloat.eqb x y.

(** [max(a, b)] and [min(a, b)]: the first argument unless the second is
    strictly larger (smaller), so a NaN second argument is ignored. *)
Definition fmax (a b : float) : float := if flt a b then b else a.
Definition fmin (a b : float) : float := if flt b a then b else a.

(** [math.isfinite], [math.isnan], [math.isinf]. *)
Definition isnan (x : float) : bool := PrimFloat.is_nan x.
Definition isinf (x : float) : bool := PrimFloat.is_infinity x.
Definition isfinite (x : float) : bool := PrimFloat.is_finite x.

(** [float(n)]: round to nearest even; the conversion of an integer beyond
    the largest double raises [OverflowError]. *)
Definition float_of_Z (n : Z) : float :=
  SF2Prim (binary_normalize prec emax n 0 false).
Definition py_float_of_Z (n : Z) : res float :=
  if isinf (float_of_Z n)
  then Raise (OverflowError "int too large to convert to float")
  else Ok (float_of_Z n).

(** [a / b] of integers, correctly rounded: enough bits of the quotient, and a
    sticky bit for the rest, are rounded once. *)
Definition truediv (a b : Z) : float :=
  let k := Z.max 0 (66 + Z.log2 (Z.abs b) - Z.log2 (Z.abs a)) in
  let n := Z.abs a * 2 ^ k in
  let m := 2 * (n / Z.abs b) + (if n mod Z.abs b =? 0 then 0 else 1) in
  let neg := xorb (a <? 0) (b <? 0) in
  SF2Prim (binary_normalize prec emax (if neg then - m else m) (- k - 1) neg).
Definition py_truediv (a b : Z) : res float :=
  if b =? 0 then Raise (ZeroDivisionError "division by zero")
  else if isinf (truediv a b)
  then Raise (OverflowError "integer division result too large for a float")
  else Ok (truediv a b).

(** [n / d] for positive [d], to the nearest integer, ties to even. *)
Definition div_half_even (n d : Z) : Z :=
  let q := n / d in
  let r := 2 * (n mod d) in
  if (r <? d) || (r =? d) && Z.even q then q else q + 1.

(** [round(x, k)]: the exact value is rounded to [k] decimals, ties to even, and
    the decimal to the nearest float. *)
Definition py_round (x : float) (k : Z) : float :=
  match Prim2SF x with
  | S754_finite s m e =>
      let n := Zpos m * 10 ^ k in
      let q := if 0 <=? e then n * 2 ^ e else div_half_even n (2 ^ (- e)) in
      if s then PrimFloat.opp (truediv q (10 ^ k)) else truediv q (10 ^ k)
  | _ => x
  end.

(** [math.ceil] and [int()] (truncation) of a float. *)
Definition shiftZ (m e : Z) : Z :=
  if 0 <=? e then m * 2 ^ e else m / 2 ^ (- e).
Definition py_ceil (x : float) : res Z :=
  match Prim2SF x with
  | S754_nan => Raise (ValueError "cannot convert float NaN to integer")
  | S754_infinity _ =>
      Raise (OverflowError "cannot convert float infinity to integer")
  | S754_zero _ => Ok 0
  | S754_finite s m e =>
      Ok (- shiftZ (- cond_Zopp s (Zpos m)) e)
  end.
Definition py_int (x : float) : res Z :=
  match Prim2SF x with
  | S754_nan => Raise (ValueError "cannot convert float NaN to integer")
  | S754_infinity _ =>
      Raise (OverflowError "cannot convert float infinity to integer")
  | S754_zero _ => Ok 0
  | S754_finite s m e => Ok (cond_Zopp s (shiftZ (Zpos m) e))
  end.

(** Exact comparison of a float with an integer, as Python does it (the
    integer is not rounded); [None] for NaN. *)
Definition fcompare_Z (x : float) (n : Z) : option comparison :=
  match Prim2SF x with
  | S754_nan => None
  | S754_infinity s => Some (if s then Lt else Gt)
  | S754_zero _ => Some (0 ?= n)
  | S754_finite s m e =>
      let v := cond_Zopp s (Zpos m) in
      Some (if 0 <=? e then v * 2 ^ e ?= n else v ?= n * 2 ^ (- e))
  end.
Definition fge_Z (x : float) (n : Z) : bool :=
  match fcompare_Z x n with Some (Gt | Eq) => true | _ => false end.

(** ** The order of floats

    On non-NaN values the IEEE comparison is the lexicographic order on a
    triple (class, exponent, mantissa), so that a statement about [<] and
    [<=] of floats becomes one about integers. *)

Definition SFrank (f : spec_float) : Z * Z * Z :=
  match f with
  | S754_nan | S754_zero _ => (0, 0, 0)
  | S754_infinity s => (if s then -2 else 2, 0, 0)
  | S754_finite true m e => (-1, - e, Zneg m)
  | S754_finite false m e => (1, e, Zpos m)
  end.

#[export] Instance spec_float_eq_dec : EqDecision spec_float.
Proof. solve_decision. Defined.

Definition lex_lt (a b : Z * Z * Z) : Prop :=
  let '(a1, a2, a3) := a in let '(b1, b2, b3) := b in
  a1 < b1 ∨ (a1 = b1 ∧ (a2 < b2 ∨ (a2 = b2 ∧ a3 < b3))).

Definition rank (x : float) : Z * Z * Z := SFrank (Prim2SF x).

(** Not a NaN. *)
Definition num (x : float) : Prop := isnan x = false.

Lemma pos_compare_cont_Z m n : Pos.compare_cont Eq m n = (Zpos m ?= Zpos n).
Proof. done. Qed.

Lemma SFcompare_spec f g :
  f ≠ S754_nan → g ≠ S754_nan →
  match SFcompare f g with
  | Some Lt => lex_lt (SFrank f) (SFrank g)
  | Some Eq => SFrank f = SFrank g
  | Some Gt => lex_lt (SFrank g) (SFrank f)
  | None => False
  end.
Proof.
  intros Hf Hg.
  destruct f as [[]|[]| |[] m e], g as [[]|[]| |[] n e']; try done;
    simpl; try lia; try by left.
  - destruct (Z.compare_spec e e'); simpl; subst; try lia.
    rewrite pos_compare_cont_Z.
    destruct (Z.compare_spec (Zpos m) (Zpos n)); simpl; try lia.
    do 2 f_equal; lia.
  - destruct (Z.compare_spec e e'); simpl; subst; try lia.
    rewrite pos_compare_cont_Z.
    destruct (Z.compare_spec (Zpos m) (Zpos n)); simpl; try lia.
    do 2 f_equal; lia.
Qed.

Lemma lex_lt_irrefl a : ¬ lex_lt a a.
Proof. destruct a as [[??]?]. simpl. lia. Qed.
Lemma lex_lt_trans a b c : lex_lt a b → lex_lt b c → lex_lt a c.
Proof. destruct a as [[??]?], b as [[??]?], c as [[??]?]. simpl. lia. Qed.
Lemma lex_total a b : lex_lt a b ∨ a = b ∨ lex_lt b a.
Proof.
  destruct a as [[a1 a2] a3], b as [[b1 b2] b3]. simpl.
  destruct (Z.lt_trichotomy a1 b1) as [|[->|]],
    (Z.lt_trichotomy a2 b2) as [|[->|]],
    (Z.lt_trichotomy a3 b3) as [|[->|]]; (right; left; reflexivity) || lia.
Qed.

Lemma SFcompare_refl f : f ≠ S754_nan → SFcompare f f = Some Eq.
Proof.
  intros Hf. pose proof (SFcompare_spec f f Hf Hf) as H.
  destruct (SFcompare f f) as [[]|]; try done; by apply lex_lt_irrefl in H.
Qed.

Lemma num_spec x : num x ↔ Prim2SF x ≠ S754_nan.
Proof.
  unfold num, isnan, PrimFloat.is_nan. rewrite FloatAxioms.eqb_spec. unfold SFeqb.
  destruct (decide (Prim2SF x = S754_nan)) as [->|Hn]; [done|].
  by rewrite SFcompare_refl.
Qed.

Lemma flt_spec x y : flt x y = true ↔ num x ∧ num y ∧ lex_lt (rank x) (rank y).
Proof.
  unfold flt. rewrite !num_spec, FloatAxioms.ltb_spec. unfold SFltb, rank.
  split.
  - intros H. assert (Prim2SF x ≠ S754_nan ∧ Prim2SF y ≠ S754_nan) as [Hx Hy].
    { split; intros E; rewrite E in H; [done|]. by destruct (Prim2SF x). }
    pose proof (SFcompare_spec _ _ Hx Hy).
    by destruct (SFcompare (Prim2SF x) (Prim2SF y)) as [[]|].
  - intros (Hx & Hy & H). pose proof (SFcompare_spec _ _ Hx Hy) as S.
    destruct (SFcompare (Prim2SF x) (Prim2SF y)) as [[]|]; try done; cbv iota in S.
    + rewrite S in H. by apply lex_lt_irrefl in H.
    + destruct (lex_lt_irrefl _ (lex_lt_trans _ _ _ H S)).
Qed.

Lemma fle_spec x y :
  fle x y = true ↔ num x ∧ num y ∧ ¬ lex_lt (rank y) (rank x).
Proof.
  unfold fle. rewrite !num_spec, FloatAxioms.leb_spec. unfold SFleb, rank.
  split.
  - intros H. assert (Prim2SF x ≠ S754_nan ∧ Prim2SF y ≠ S754_nan) as [Hx Hy].
    { split; intros E; rewrite E in H; [done|]. by destruct (Prim2SF x). }
    pose proof (SFcompare_spec _ _ Hx Hy) as S.
    destruct (SFcompare (Prim2SF x) (Prim2SF y)) as [[]|]; try done;
      cbv iota in S; repeat split; try done; intros H'.
    + rewrite S in H'. by apply lex_lt_irrefl in H'.
    + destruct (lex_lt_irrefl _ (lex_lt_trans _ _ _ H' S)).
  - intros (Hx & Hy & H). pose proof (SFcompare_spec _ _ Hx Hy) as S.
    by destruct (SFcompare (Prim2SF x) (Prim2SF y)) as [[]|].
Qed.

Lemma feq_spec x y : feq x y = true ↔ num x ∧ num y ∧ rank x = rank y.
Proof.
  unfold feq. rewrite !num_spec, FloatAxioms.eqb_spec. unfold SFeqb, rank.
  split.
  - intros H. assert (Prim2SF x ≠ S754_nan ∧ Prim2SF y ≠ S754_nan) as [Hx Hy].
    { split; intros E; rewrite E in H; [done|]. by destruct (Prim2SF x). }
    pose proof (SFcompare_spec _ _ Hx Hy).
    by destruct (SFcompare (Prim2SF x) (Prim2SF y)) as [[]|].
  - intros (Hx & Hy & H). pose proof (SFcompare_spec _ _ Hx Hy) as S.
    destruct (SFcompare (Prim2SF x) (Prim2SF y)) as [[]|]; try done;
      rewrite H in S; by apply lex_lt_irrefl in S.
Qed.

(** The usual order laws; all are decided on the ranks. *)
Lemma flt_irrefl x : flt x x = false.
Proof.
  apply not_true_is_false. rewrite flt_spec. intros (_&_&H).
  by apply lex_lt_irrefl in H.
Qed.
Lemma flt_trans x y z : flt x y = true → flt y z = true → flt x z = true.
Proof.
  rewrite !flt_spec. intros (?&?&?) (?&?&?). eauto using lex_lt_trans.
Qed.
Lemma fle_refl x : num x → fle x x = true.
Proof. rewrite fle_spec. eauto using lex_lt_irrefl. Qed.
Lemma fle_trans x y z : fle x y = true → fle y z = true → fle x z = true.
Proof.
  rewrite !fle_spec. intros (?&?&Hxy) (?&?&Hyz). repeat split; try done.
  intros Hl. destruct (lex_total (rank y) (rank x)) as [?|[E|?]]; [done| |].
  - rewrite E in Hyz. done.
  - apply Hyz. eauto using lex_lt_trans.
Qed.
Lemma flt_fle_trans x y z : flt x y = true → fle y z = true → flt x z = true.
Proof.
  rewrite !flt_spec, !fle_spec. intros (?&?&Hxy) (?&?&Hyz).
  repeat split; try done.
  destruct (lex_total (rank y) (rank z)) as [?|[<-|?]]; try done.
  eauto using lex_lt_trans.
Qed.
Lemma fle_flt_trans x y z : fle x y = true → flt y z = true → flt x z = true.
Proof.
  rewrite !flt_spec, !fle_spec. intros (?&?&Hxy) (?&?&Hyz).
  repeat split; try done.
  destruct (lex_total (rank x) (rank y)) as [?|[->|?]]; try done.
  eauto using lex_lt_trans.
Qed.
Lemma flt_fle x y : flt x y = true → fle x y = true.
Proof.
  rewrite flt_spec, fle_spec. intros (?&?&?). repeat split; try done.
  intros H'. eapply lex_lt_irrefl. eauto using lex_lt_trans.
Qed.
Lemma not_flt x y : num x → num y → flt x y = false ↔ fle y x = true.
Proof.
  intros Hx Hy. rewrite <- not_true_iff_false, flt_spec, fle_spec. tauto.
Qed.
Lemma not_fle x y : num x → num y → fle x y = false ↔ flt y x = true.
Proof.
  intros Hx Hy. rewrite <- not_true_iff_false, flt_spec, fle_spec. split.
  - intros H. repeat split; try done.
    destruct (lex_total (rank y) (rank x)) as [?|[E|?]]; [done| |].
    + destruct H. repeat split; try done. rewrite E. apply lex_lt_irrefl.
    + destruct H. repeat split; try done. intros ?.
      eapply lex_lt_irrefl. eauto using lex_lt_trans.
  - tauto.
Qed.
Lemma fle_num_l x y : fle x y = true → num x.
Proof. rewrite fle_spec. tauto. Qed.
Lemma fle_num_r x y : fle x y = true → num y.
Proof. rewrite fle_spec. tauto. Qed.
Lemma flt_num_l x y : flt x y = true → num x.
Proof. rewrite flt_spec. tauto. Qed.
Lemma flt_num_r x y : flt x y = true → num y.
Proof. rewrite flt_spec. tauto. Qed.
#[export] Hint Resolve fle_num_l fle_num_r flt_num_l flt_num_r fle_refl
  flt_fle : py.

(** ** The C math library

    [math.log] and [float ** int] are the C library's [log] and [pow], whose
    last bits are platform dependent: they are a parameter of the model.  The
    laws are the documented behaviour the proofs rely on. *)

Class Libm := {
  lm_log : float → float;
  lm_pow : float → Z → float
}.

(** [math.log(x)]: a domain error outside the positive numbers. *)
Definition py_log `{Libm} (x : float) : res float :=
  if fle x 0%float then Raise (ValueError "math domain error")
  else Ok (lm_log x).

(** [x ** n]: an infinite result of finite operands is an [OverflowError]. *)
Definition py_pow `{Libm} (x : float) (n : Z) : res float :=
  if isinf (lm_pow x n)
  then Raise (OverflowError "Numerical result out of range")
  else Ok (lm_pow x n).

Class LibmLaws (L : Libm) := {
  lm_log_mono : ∀ x y, flt 0%float x = true → fle x y = true →
    fle (lm_log x) (lm_log y) = true;
  lm_log_finite : ∀ x, flt 0%float x = true → isfinite x = true →
    isfinite (lm_log x) = true
}.

(** Left-to-right float sum. *)
Definition py_fsum (l : list float) : float :=
  foldl PrimFloat.add 0%float l.
