(* ===== verification/FloatRound.v ===== *)
(** * Rounding of binary64 arithmetic

    What the proofs about float code need of IEEE rounding, proved from the
    executable specification [SpecFloat]: a finite float is an integer
    multiple of [2^-1074] ([Zval]); comparison is comparison of values;
    rounding to nearest even is monotone, exact on representable values, and
    keeps the sign. *)

From Stdlib Require Import PrimFloat SpecFloat FloatOps FloatAxioms.
From S2P Require Import Prelude PyFloat.

#[local] Open Scope Z_scope.

(** ** Digits *)

Lemma digits2_pos_bounds m :
  2 ^ (Zpos (digits2_pos m) - 1) ≤ Zpos m < 2 ^ Zpos (digits2_pos m).
Proof.
  induction m as [m IH|m IH|]; simpl digits2_pos; [| |done];
    rewrite Pos2Z.inj_succ; set (d := Zpos (digits2_pos m)) in *;
    assert (2 ^ d = 2 * 2 ^ (d - 1))
      by (rewrite <- Z.pow_succ_r by lia; f_equal; lia);
    rewrite Z.pow_succ_r by lia;
    replace (Z.succ d - 1) with d by lia; lia.
Qed.

(** [d] is the number of binary digits of [m]. *)
Lemma digits_unique m d :
  2 ^ (d - 1) ≤ Zpos m < 2 ^ d → 0 < d → Zpos (digits2_pos m) = d.
Proof.
  intros [H1 H2] Hd. pose proof (digits2_pos_bounds m) as [H3 H4].
  assert (d - 1 < Zpos (digits2_pos m)) by (apply (Z.pow_lt_mono_r_iff 2); lia).
  assert (Zpos (digits2_pos m) - 1 < d) by (apply (Z.pow_lt_mono_r_iff 2); lia).
  lia.
Qed.

Lemma digits_le m d : Zpos m < 2 ^ d → 0 ≤ d → Zpos (digits2_pos m) ≤ d.
Proof.
  intros H Hd. pose proof (digits2_pos_bounds m) as [H3 _].
  assert (Zpos (digits2_pos m) - 1 < d) by (apply (Z.pow_lt_mono_r_iff 2); lia).
  lia.
Qed.

(** ** Shifting right with a sticky bit *)

Lemma iter_pos_nat {A} (f : A → A) n x :
  SpecFloat.iter_pos f n x = Nat.iter (Pos.to_nat n) f x.
Proof.
  revert x. induction n as [n IH|n IH|]; intros x; simpl SpecFloat.iter_pos.
  - rewrite !IH, Pos2Nat.inj_xI. rewrite <- Nat.iter_add.
    replace (S (2 * Pos.to_nat n)) with (Pos.to_nat n + Pos.to_nat n + 1)%nat by lia.
    by rewrite (Nat.iter_add _ 1).
  - rewrite !IH, Pos2Nat.inj_xO, <- Nat.iter_add. f_equal. lia.
  - done.
Qed.

(** What [k] shifts leave of [m]: the quotient, and the position of the
    remainder with respect to half a unit. *)
Definition shifted (m : Z) (k : nat) (r : shr_record) : Prop :=
  shr_m r = m / 2 ^ Z.of_nat k ∧
  shr_r r = (2 ^ Z.of_nat k <=? 2 * (m mod 2 ^ Z.of_nat k)) ∧
  shr_s r = negb (2 * (m mod 2 ^ Z.of_nat k) =? 0) &&
            negb (2 * (m mod 2 ^ Z.of_nat k) =? 2 ^ Z.of_nat k).

Lemma shr_1_spec m r s :
  0 ≤ m →
  shr_1 (Build_shr_record m r s) =
  Build_shr_record (m / 2) (Z.odd m) (r || s).
Proof.
  intros Hm. destruct m as [|[p|p|]|p]; try done; simpl shr_1; f_equal.
  - rewrite Pos2Z.inj_xI. apply (Z.div_unique _ _ _ 1); lia.
  - rewrite Pos2Z.inj_xO. apply (Z.div_unique _ _ _ 0); lia.
Qed.

Lemma shifted_iter m k :
  0 ≤ m → shifted m k (Nat.iter k shr_1 (Build_shr_record m false false)).
Proof.
  intros Hm. induction k as [|k IH].
  - simpl. unfold shifted. simpl. rewrite Z.div_1_r, Z.mod_1_r. done.
  - simpl Nat.iter.
    destruct (Nat.iter k shr_1 _) as [q r s]. destruct IH as (Hq & Hr & Hs).
    simpl in Hq, Hr, Hs.
    assert (0 < 2 ^ Z.of_nat k) as Hpos by (apply Z.pow_pos_nonneg; lia).
    set (P := 2 ^ Z.of_nat k) in *.
    assert (2 ^ Z.of_nat (S k) = 2 * P) as EP.
    { unfold P. rewrite Nat2Z.inj_succ, Z.pow_succ_r by lia. done. }
    assert (0 ≤ q) by (subst q; apply Z.div_pos; lia).
    rewrite shr_1_spec by done. unfold shifted. rewrite EP. cbn [shr_m shr_r shr_s].
    pose proof (Z.div_mod m P ltac:(lia)) as Dm.
    pose proof (Z.mod_pos_bound m P ltac:(lia)) as Bm.
    rewrite <- Hq in Dm. set (ρ := m mod P) in *.
    pose proof (Zmod_odd q) as Ho. pose proof (Z.div_mod q 2 ltac:(lia)) as Dq.
    assert (m / (2 * P) = q / 2 ∧
            m mod (2 * P) = ρ + P * (if Z.odd q then 1 else 0)) as [E1 E2].
    { destruct (Z.odd q); rewrite Ho in Dq.
      - split; symmetry; [apply (Z.div_unique _ _ _ (ρ + P))|
          apply (Z.mod_unique _ _ (q / 2))]; nia.
      - split; symmetry; [apply (Z.div_unique _ _ _ ρ)|
          apply (Z.mod_unique _ _ (q / 2))]; nia. }
    rewrite E1, E2. split; [done|]. rewrite Hr, Hs.
    destruct (Z.odd q).
    + split; [symmetry; apply Z.leb_le; lia|].
      destruct (Z.leb_spec P (2 * ρ)), (Z.eqb_spec (2 * ρ) 0),
        (Z.eqb_spec (2 * ρ) P), (Z.eqb_spec (2 * (ρ + P * 1)) 0),
        (Z.eqb_spec (2 * (ρ + P * 1)) (2 * P)); simpl; try done; lia.
    + split; [symmetry; apply Z.leb_gt; lia|].
      destruct (Z.leb_spec P (2 * ρ)), (Z.eqb_spec (2 * ρ) 0),
        (Z.eqb_spec (2 * ρ) P), (Z.eqb_spec (2 * (ρ + P * 0)) 0),
        (Z.eqb_spec (2 * (ρ + P * 0)) (2 * P)); simpl; try done; lia.
Qed.

(** ** Rounding an integer to a multiple of a power of two *)

(** [m / 2^k] rounded to the nearest integer, ties to even. *)
Definition rne (m k : Z) : Z :=
  let q := m / 2 ^ k in let r := m mod 2 ^ k in
  if 2 * r <? 2 ^ k then q
  else if 2 * r =? 2 ^ k then (if Z.even q then q else q + 1)
  else q + 1.

Lemma rne_between m k : m / 2 ^ k ≤ rne m k ≤ m / 2 ^ k + 1.
Proof. unfold rne. repeat case_match; lia. Qed.

Lemma rne_mono m m' k : 0 ≤ k → m ≤ m' → rne m k ≤ rne m' k.
Proof.
  intros Hk Hm. assert (0 < 2 ^ k) as HP by (apply Z.pow_pos_nonneg; lia).
  pose proof (rne_between m k). pose proof (rne_between m' k).
  pose proof (Z.div_le_mono m m' _ HP Hm).
  destruct (Z.eq_dec (m / 2 ^ k) (m' / 2 ^ k)) as [E|]; [|lia].
  unfold rne. rewrite <- E.
  pose proof (Z.div_mod m (2 ^ k) ltac:(lia)).
  pose proof (Z.div_mod m' (2 ^ k) ltac:(lia)). rewrite <- E in *.
  destruct (Z.even _); repeat case_match; lia.
Qed.

Lemma rne_exact q k : 0 ≤ k → rne (q * 2 ^ k) k = q.
Proof.
  intros Hk. assert (0 < 2 ^ k) as HP by (apply Z.pow_pos_nonneg; lia).
  unfold rne. rewrite Z.div_mul, Z.mod_mul by lia.
  destruct (Z.ltb_spec (2 * 0) (2 ^ k)); [done|lia].
Qed.

Lemma rne_0_r m : rne m 0 = m.
Proof. replace m with (m * 2 ^ 0) at 1 by lia. by apply rne_exact. Qed.

Lemma rne_shift m k s : 0 ≤ k → 0 ≤ s → rne (m * 2 ^ s) (k + s) = rne m k.
Proof.
  intros Hk Hs. assert (0 < 2 ^ k) as HP by (apply Z.pow_pos_nonneg; lia).
  assert (0 < 2 ^ s) as HQ by (apply Z.pow_pos_nonneg; lia).
  unfold rne. rewrite Z.pow_add_r by lia.
  rewrite Z.div_mul_cancel_r by lia. rewrite Z.mul_mod_distr_r by lia.
  set (r := m mod 2 ^ k).
  destruct (Z.ltb_spec (2 * (r * 2 ^ s)) (2 ^ k * 2 ^ s)),
    (Z.ltb_spec (2 * r) (2 ^ k)); try nia; try done.
  destruct (Z.eqb_spec (2 * (r * 2 ^ s)) (2 ^ k * 2 ^ s)),
    (Z.eqb_spec (2 * r) (2 ^ k)); try nia; done.
Qed.

Lemma rne_shr m (k : positive) :
  0 ≤ m →
  round_nearest_even
    (shr_m (SpecFloat.iter_pos shr_1 k (Build_shr_record m false false)))
    (loc_of_shr_record (SpecFloat.iter_pos shr_1 k (Build_shr_record m false false)))
  = rne m (Zpos k).
Proof.
  intros Hm. rewrite iter_pos_nat.
  pose proof (shifted_iter m (Pos.to_nat k) Hm) as H.
  destruct (Nat.iter _ _ _) as [q r s]. destruct H as (Hq & Hr & Hs).
  rewrite positive_nat_Z in *. simpl shr_m in *. simpl shr_r in *. simpl shr_s in *.
  unfold rne. subst. set (ρ := m mod 2 ^ Zpos k).
  assert (0 < 2 ^ Zpos k) by (apply Z.pow_pos_nonneg; lia).
  destruct (Z.leb_spec (2 ^ Zpos k) (2 * ρ)), (Z.eqb_spec (2 * ρ) 0),
    (Z.eqb_spec (2 * ρ) (2 ^ Zpos k)), (Z.ltb_spec (2 * ρ) (2 ^ Zpos k));
    simpl; try done; lia.
Qed.

(** ** Rounding to binary64

    Exact results are integers in units of [2^-2148] (a product of two
    floats); rounded ones are integers in units of [2^-1074]. *)

Definition fmax_val : Z := 2 ^ 2098.

Definition grain (N : Z) : Z := Z.max (Z.log2 N - 52) 1074.

(** Rounding of a positive exact result, overflow left out. *)
Definition rnd (N : Z) : Z := rne N (grain N) * 2 ^ (grain N - 1074).

(** The rounding of IEEE arithmetic, saturated at the infinities. *)
Definition Rnd (N : Z) : Z :=
  if N <? 0 then - Z.min fmax_val (rnd (- N)) else Z.min fmax_val (rnd N).

Lemma grain_ge N : 1074 ≤ grain N.
Proof. unfold grain. lia. Qed.

Lemma rnd_mono N N' : 0 ≤ N → N ≤ N' → rnd N ≤ rnd N'.
Proof.
  intros H0 H. unfold rnd. pose proof (grain_ge N). pose proof (grain_ge N').
  assert (grain N ≤ grain N') as Hg.
  { pose proof (Z.log2_le_mono N N' H). unfold grain. lia. }
  destruct (Z.eq_dec (grain N) (grain N')) as [<-|Hne].
  - apply Z.mul_le_mono_nonneg_r; [apply Z.pow_nonneg; lia|].
    apply rne_mono; lia.
  - assert (grain N' = Z.log2 N' - 52) as EN' by (unfold grain in *; lia).
    set (d := Z.log2 N') in *.
    assert (0 < N') by (destruct (Z.eq_dec N' 0) as [->|]; [unfold d in *; simpl in *; lia|lia]).
    pose proof (Z.log2_spec N' ltac:(lia)) as [Hd _]. fold d in Hd.
    assert (N < 2 ^ d) as HN.
    { destruct (Z.eq_dec N 0) as [->|]; [apply Z.pow_pos_nonneg; lia|].
      pose proof (Z.log2_spec N ltac:(lia)) as [_ Hd'].
      eapply Z.lt_le_trans; [exact Hd'|]. apply Z.pow_le_mono_r; [lia|].
      unfold grain in *. lia. }
    transitivity (2 ^ (d - 1074)).
    + transitivity (rne (2 ^ d) (grain N) * 2 ^ (grain N - 1074)).
      * apply Z.mul_le_mono_nonneg_r; [apply Z.pow_nonneg; lia|].
        apply rne_mono; lia.
      * replace (2 ^ d) with (2 ^ (d - grain N) * 2 ^ grain N)
          by (rewrite <- Z.pow_add_r by lia; f_equal; lia).
        rewrite rne_exact by lia. rewrite <- Z.pow_add_r by lia.
        replace (d - grain N + (grain N - 1074)) with (d - 1074) by lia. lia.
    + transitivity (rne (2 ^ d) (grain N') * 2 ^ (grain N' - 1074)).
      * replace (2 ^ d) with (2 ^ (d - grain N') * 2 ^ grain N')
          by (rewrite <- Z.pow_add_r by lia; f_equal; lia).
        rewrite rne_exact by lia. rewrite <- Z.pow_add_r by lia.
        replace (d - grain N' + (grain N' - 1074)) with (d - 1074) by lia. lia.
      * apply Z.mul_le_mono_nonneg_r; [apply Z.pow_nonneg; lia|].
        apply rne_mono; lia.
Qed.

Lemma rnd_0 : rnd 0 = 0.
Proof. done. Qed.

Lemma rnd_nonneg N : 0 ≤ N → 0 ≤ rnd N.
Proof. intros. rewrite <- rnd_0. by apply rnd_mono. Qed.

Lemma Rnd_mono N N' : N ≤ N' → Rnd N ≤ Rnd N'.
Proof.
  intros H. unfold Rnd. destruct (Z.ltb_spec N 0), (Z.ltb_spec N' 0); try lia.
  - pose proof (rnd_mono (- N') (- N)). lia.
  - pose proof (rnd_nonneg (- N)). pose proof (rnd_nonneg N').
    assert (0 ≤ fmax_val) by done. lia.
  - pose proof (rnd_mono N N'). lia.
Qed.

Lemma Rnd_opp N : Rnd (- N) = - Rnd N.
Proof.
  unfold Rnd. destruct (Z.ltb_spec (- N) 0), (Z.ltb_spec N 0); try lia.
  - by rewrite Z.opp_involutive.
  - assert (N = 0) as -> by lia. done.
Qed.

(** A value with a 53-bit mantissa is not changed. *)
Definition representable (v : Z) : Prop :=
  ∃ m e, v = m * 2 ^ e ∧ 0 ≤ e ∧ Z.abs m ≤ 2 ^ 53 ∧ Z.abs v < fmax_val.

Lemma rnd_exact m e :
  0 ≤ m ≤ 2 ^ 53 → 0 ≤ e → rnd (m * 2 ^ e * 2 ^ 1074) = m * 2 ^ e.
Proof.
  intros Hm He. destruct (Z.eq_dec m 0) as [->|]; [done|].
  rewrite <- Z.mul_assoc, <- Z.pow_add_r by lia.
  set (N := m * 2 ^ (e + 1074)).
  assert (Z.log2 N = Z.log2 m + (e + 1074)) as HL
    by (unfold N; rewrite Z.log2_mul_pow2; lia).
  assert (Z.log2 m ≤ 53) as Hl.
  { change 53 with (Z.log2 (2 ^ 53)). apply Z.log2_le_mono. lia. }
  destruct (Z.eq_dec (Z.log2 m) 53) as [E|].
  - assert (2 ^ 53 ≤ m) by (rewrite <- E; apply Z.log2_spec; lia).
    assert (m = 2 ^ 53) as -> by lia.
    unfold rnd. assert (grain N = e + 1075) as -> by (unfold grain; lia).
    unfold N. rewrite <- Z.pow_add_r by lia.
    replace (53 + (e + 1074)) with (52 + (e + 1075)) by lia.
    rewrite (Z.pow_add_r 2 52 (e + 1075)) by lia. rewrite rne_exact by lia.
    rewrite <- !Z.pow_add_r by lia. f_equal. lia.
  - set (g := grain N).
    assert (1074 ≤ g ≤ e + 1074) as Hg by (unfold g, grain; lia).
    unfold rnd. fold g. unfold N.
    replace (e + 1074) with (e + 1074 - g + g) by lia.
    rewrite Z.pow_add_r by lia. rewrite Z.mul_assoc, rne_exact by lia.
    rewrite <- Z.mul_assoc, <- Z.pow_add_r by lia. do 2 f_equal. lia.
Qed.

Lemma Rnd_exact v : representable v → Rnd (v * 2 ^ 1074) = v.
Proof.
  intros (m & e & -> & He & Hm & Hb). unfold Rnd.
  assert (0 < 2 ^ 1074) as H74 by done.
  assert (0 < 2 ^ e) by (apply Z.pow_pos_nonneg; lia).
  destruct (Z.ltb_spec (m * 2 ^ e * 2 ^ 1074) 0) as [Hn|Hn].
  - assert (m < 0) by (apply Z.nle_gt; intros ?; assert (0 ≤ m * 2 ^ e * 2 ^ 1074) by (apply Z.mul_nonneg_nonneg; [apply Z.mul_nonneg_nonneg|]; lia); lia).
    replace (- (m * 2 ^ e * 2 ^ 1074)) with ((- m) * 2 ^ e * 2 ^ 1074) by ring.
    rewrite rnd_exact by lia. lia.
  - assert (0 ≤ m).
    { apply Z.nlt_ge. intros ?. assert (m * 2 ^ e < 0) by (apply Z.mul_neg_pos; lia).
      assert (m * 2 ^ e * 2 ^ 1074 < 0) by (apply Z.mul_neg_pos; lia). lia. }
    rewrite rnd_exact by lia. lia.
Qed.

(** ** The value of a float *)

Definition SFval (f : spec_float) : Z :=
  match f with
  | S754_nan | S754_zero _ => 0
  | S754_infinity s => cond_Zopp s fmax_val
  | S754_finite s m e => cond_Zopp s (Zpos m * 2 ^ (e + 1074))
  end.

(** The value of a float in units of [2^-1074]; [2^1024] for infinity. *)
Definition fval (x : float) : Z := SFval (Prim2SF x).

Abbreviation fexp64 := (fexp prec emax).

Lemma fexp64_eq e : fexp64 e = Z.max (e - 53) (-1074).
Proof. done. Qed.

Lemma bounded_spec m e :
  bounded prec emax m e = true →
  -1074 ≤ e ≤ 971 ∧ Zpos m < 2 ^ 53 ∧ (-1074 < e → 2 ^ 52 ≤ Zpos m).
Proof.
  unfold bounded, canonical_mantissa.
  rewrite andb_true_iff, Z.eqb_eq, Z.leb_le, fexp64_eq.
  change (emax - prec) with 971.
  intros [H1 H2]. pose proof (digits2_pos_bounds m) as [H3 H4].
  split; [lia|]. split.
  - eapply Z.lt_le_trans; [exact H4|]. apply Z.pow_le_mono_r; lia.
  - intros He. assert (Zpos (digits2_pos m) = 53) as E by lia.
    rewrite E in H3. exact H3.
Qed.

Lemma finite_value_lt m e m' e' :
  bounded prec emax m e = true → bounded prec emax m' e' = true →
  e < e' → Zpos m * 2 ^ (e + 1074) < Zpos m' * 2 ^ (e' + 1074).
Proof.
  intros (?&?&_)%bounded_spec (?&?&Hm')%bounded_spec He.
  specialize (Hm' ltac:(lia)).
  replace (e' + 1074) with (e' - e - 1 + (1 + (e + 1074))) by lia.
  rewrite (Z.pow_add_r 2 (e' - e - 1)), (Z.pow_add_r 2 1) by lia.
  assert (0 < 2 ^ (e + 1074)) by (apply Z.pow_pos_nonneg; lia).
  assert (1 ≤ 2 ^ (e' - e - 1)).
  { pose proof (Z.pow_pos_nonneg 2 (e' - e - 1)). lia. }
  set (P := 2 ^ (e + 1074)) in *. set (Q := 2 ^ (e' - e - 1)) in *.
  apply Z.lt_le_trans with (2 ^ 53 * P).
  - apply Z.mul_lt_mono_pos_r; lia.
  - transitivity (2 ^ 52 * (1 * (2 ^ 1 * P))); [lia|].
    apply Z.mul_le_mono_nonneg; [lia|lia|lia|].
    apply Z.mul_le_mono_nonneg_r; lia.
Qed.

Lemma finite_value_bound m e :
  bounded prec emax m e = true → 0 < Zpos m * 2 ^ (e + 1074) < fmax_val.
Proof.
  intros (?&?&_)%bounded_spec.
  assert (0 < 2 ^ (e + 1074)) by (apply Z.pow_pos_nonneg; lia).
  split; [lia|]. unfold fmax_val.
  apply Z.lt_le_trans with (2 ^ 53 * 2 ^ (e + 1074)).
  - apply Z.mul_lt_mono_pos_r; lia.
  - rewrite <- Z.pow_add_r by lia. apply Z.pow_le_mono_r; lia.
Qed.

Lemma finite_value_compare m e m' e' :
  bounded prec emax m e = true → bounded prec emax m' e' = true →
  match e ?= e' with
  | Lt => Lt | Gt => Gt | Eq => Zpos m ?= Zpos m'
  end = (Zpos m * 2 ^ (e + 1074) ?= Zpos m' * 2 ^ (e' + 1074)).
Proof.
  intros H H'. symmetry. destruct (Z.compare_spec e e') as [<-|Hl|Hl].
  - apply bounded_spec in H as (?&_).
    assert (0 < 2 ^ (e + 1074)) by (apply Z.pow_pos_nonneg; lia).
    destruct (Z.compare_spec (Zpos m) (Zpos m')) as [E|?|?].
    + rewrite E. apply Z.compare_refl.
    + apply Z.compare_lt_iff, Z.mul_lt_mono_pos_r; lia.
    + apply Z.compare_gt_iff, Z.mul_lt_mono_pos_r; lia.
  - apply Z.compare_lt_iff. by apply finite_value_lt.
  - apply Z.compare_gt_iff. by apply finite_value_lt.
Qed.

Lemma SFcompare_value f g :
  valid_binary f = true → valid_binary g = true →
  f ≠ S754_nan → g ≠ S754_nan →
  SFcompare f g = Some (SFval f ?= SFval g).
Proof.
  intros Vf Vg Nf Ng.
  destruct f as [sf|[]| |[] m e], g as [sg|[]| |[] m' e']; try done;
    unfold SFcompare, SFval, cond_Zopp; f_equal; symmetry;
    try (apply finite_value_bound in Vf as Bf);
    try (apply finite_value_bound in Vg as Bg);
    try (apply Z.compare_lt_iff; lia); try (apply Z.compare_gt_iff; lia).
  - rewrite Z.compare_opp, Z.compare_antisym.
    rewrite <- (finite_value_compare m e m' e') by done.
    by destruct (e ?= e').
  - by rewrite <- finite_value_compare.
Qed.

(** ** Correctness of the rounding step *)

Lemma shr_fexp_none m e :
  fexp64 (Zdigits2 m + e) ≤ e →
  shr_fexp prec emax m e loc_Exact = (Build_shr_record m false false, e).
Proof.
  intros H. unfold shr_fexp, shr. simpl.
  destruct (fexp64 (Zdigits2 m + e) - e) eqn:E; try done. lia.
Qed.

Lemma Zdigits2_log2 p : Zdigits2 (Zpos p) = Z.log2 (Zpos p) + 1.
Proof.
  simpl Zdigits2. apply digits_unique; [|pose proof (Z.log2_nonneg (Zpos p)); lia].
  replace (Z.log2 (Zpos p) + 1 - 1) with (Z.log2 (Zpos p)) by lia.
  pose proof (Z.log2_spec (Zpos p) ltac:(lia)). by rewrite Z.add_1_r.
Qed.

(** The second pass, on the rounded mantissa. *)
Definition round_finish (sx : bool) (q e : Z) : spec_float :=
  let '(mrs, e') := shr_fexp prec emax q e loc_Exact in
  match shr_m mrs with
  | Z0 => S754_zero sx
  | Zpos m => if e' <=? emax - prec then S754_finite sx m e'
              else S754_infinity sx
  | _ => S754_nan
  end.

Lemma cond_Zopp_0 s : cond_Zopp s 0 = 0.
Proof. by destruct s. Qed.

Definition pack (sx : bool) (m : positive) (e : Z) : spec_float :=
  if e <=? emax - prec then S754_finite sx m e else S754_infinity sx.

Lemma pack_spec sx m e :
  fexp64 (Zdigits2 (Zpos m) + e) = e →
  SFval (pack sx m e) = cond_Zopp sx (Z.min fmax_val (Zpos m * 2 ^ (e + 1074))) ∧
  pack sx m e ≠ S754_nan ∧ valid_binary (pack sx m e) = true.
Proof.
  intros Hc. unfold pack. change (emax - prec) with 971.
  rewrite fexp64_eq in Hc.
  destruct (Z.leb_spec e 971) as [Hle|Hgt]; simpl.
  - assert (bounded prec emax m e = true) as Hb.
    { unfold bounded, canonical_mantissa. rewrite fexp64_eq.
      rewrite andb_true_iff, Z.eqb_eq, Z.leb_le. done. }
    pose proof (finite_value_bound _ _ Hb).
    rewrite Z.min_r by lia. done.
  - pose proof (digits2_pos_bounds m) as [Hm _]. simpl Zdigits2 in Hc.
    rewrite Z.min_l; [done|].
    transitivity (2 ^ 52 * 2 ^ (e + 1074)).
    + rewrite <- Z.pow_add_r by lia. apply Z.pow_le_mono_r; lia.
    + apply Z.mul_le_mono_nonneg_r; [apply Z.pow_nonneg; lia|].
      etransitivity; [|exact Hm]. apply Z.pow_le_mono_r; lia.
Qed.

(** A mantissa in range: [q] has at most 53 bits, or is [2^53]. *)
Lemma round_finish_spec sx q e :
  0 ≤ q ≤ 2 ^ 53 → -1074 ≤ e → (-1074 < e → 2 ^ 52 ≤ q) →
  SFval (round_finish sx q e) = cond_Zopp sx (Z.min fmax_val (q * 2 ^ (e + 1074))) ∧
  round_finish sx q e ≠ S754_nan ∧
  valid_binary (round_finish sx q e) = true.
Proof.
  intros Hq He Hn. unfold round_finish.
  assert (0 < 2 ^ (e + 1074)) as HP by (apply Z.pow_pos_nonneg; lia).
  change (emax - prec) with 971.
  destruct q as [|q|q]; [| |lia].
  { rewrite shr_fexp_none by (rewrite fexp64_eq; simpl; lia). simpl.
    by rewrite cond_Zopp_0. }
  destruct (Z.eq_dec (Zpos q) (2 ^ 53)) as [E|Hne].
  - assert (q = 2 ^ 53)%positive as -> by lia.
    unfold shr_fexp. rewrite fexp64_eq. change (Zdigits2 _) with 54.
    replace (Z.max (54 + e - 53) (-1074) - e) with 1 by lia.
    change (Zpos (2 ^ 53)) with (2 * Zpos (2 ^ 52)).
    replace (2 * Zpos (2 ^ 52) * 2 ^ (e + 1074))
      with (Zpos (2 ^ 52) * 2 ^ (e + 1 + 1074)).
    2: { replace (e + 1 + 1074) with (1 + (e + 1074)) by lia.
         rewrite (Z.pow_add_r 2 1) by lia. ring. }
    apply (pack_spec sx (2 ^ 52)). rewrite fexp64_eq.
    change (Zdigits2 _) with 53. lia.
  - rewrite shr_fexp_none.
    + apply pack_spec. rewrite fexp64_eq, Zdigits2_log2.
      assert (Z.log2 (Zpos q) < 53) by (apply Z.log2_lt_pow2; lia).
      destruct (Z.eq_dec e (-1074)) as [->|]; [lia|].
      assert (52 ≤ Z.log2 (Zpos q)) by (apply Z.log2_le_pow2; lia). lia.
    + rewrite fexp64_eq, Zdigits2_log2.
      assert (Z.log2 (Zpos q) < 53) by (apply Z.log2_lt_pow2; lia). lia.
Qed.

Lemma grain_fexp p e :
  -2148 ≤ e →
  grain (Zpos p * 2 ^ (e + 2148)) = fexp64 (Zdigits2 (Zpos p) + e) + 2148.
Proof.
  intros He. unfold grain. rewrite fexp64_eq, Zdigits2_log2.
  rewrite Z.log2_mul_pow2 by lia. lia.
Qed.

Lemma rne_mantissa p k :
  0 ≤ k →
  (Z.log2 (Zpos p) + 1 - k ≤ 53 → rne (Zpos p) k ≤ 2 ^ 53) ∧
  (52 ≤ Z.log2 (Zpos p) - k → 2 ^ 52 ≤ rne (Zpos p) k) ∧
  0 ≤ rne (Zpos p) k.
Proof.
  intros Hk. pose proof (Z.log2_spec (Zpos p) ltac:(lia)) as [Hl Hu].
  set (l := Z.log2 (Zpos p)) in *. split_and!.
  - intros H. rewrite <- (rne_exact (2 ^ 53) k) by lia. apply rne_mono; [lia|].
    rewrite <- Z.pow_add_r by lia. apply Z.lt_le_incl.
    eapply Z.lt_le_trans; [exact Hu|]. apply Z.pow_le_mono_r; lia.
  - intros H. rewrite <- (rne_exact (2 ^ 52) k) by lia. apply rne_mono; [lia|].
    rewrite <- Z.pow_add_r by lia. etransitivity; [|exact Hl].
    apply Z.pow_le_mono_r; lia.
  - rewrite <- (rne_exact 0 k) by lia. apply rne_mono; lia.
Qed.

Lemma binary_round_aux_spec sx p e :
  -2148 ≤ e → e ≤ fexp64 (Zdigits2 (Zpos p) + e) →
  let f := binary_round_aux prec emax sx (Zpos p) e loc_Exact in
  SFval f = Rnd (cond_Zopp sx (Zpos p * 2 ^ (e + 2148))) ∧
  f ≠ S754_nan ∧ valid_binary f = true.
Proof.
  intros He Hf f. set (e' := fexp64 (Zdigits2 (Zpos p) + e)) in *.
  set (k := e' - e).
  assert (f = round_finish sx (rne (Zpos p) k) e') as Hrf.
  { unfold f, binary_round_aux, round_finish. unfold shr_fexp at 1.
    fold e'. fold k. cbn [shr_record_of_loc].
    destruct k as [|k'|k'] eqn:Ek; [| |lia]; unfold shr.
    - rewrite rne_0_r. replace e with e' by lia. done.
    - replace (e + Zpos k') with e' by lia. by rewrite rne_shr. }
  assert (e' = Z.max (Z.log2 (Zpos p) + 1 + e - 53) (-1074)) as Ee'.
  { unfold e'. by rewrite fexp64_eq, Zdigits2_log2. }
  destruct (rne_mantissa p k) as (H1 & H2 & H3); [lia|].
  destruct (round_finish_spec sx (rne (Zpos p) k) e') as (Hv & Hn & Hb);
    [split; [done|apply H1; lia]|lia|intros; apply H2; lia|].
  rewrite Hrf. split; [|done]. rewrite Hv.
  assert (rnd (Zpos p * 2 ^ (e + 2148)) = rne (Zpos p) k * 2 ^ (e' + 1074)) as Er.
  { unfold rnd. rewrite grain_fexp by done. fold e'.
    replace (e' + 2148) with (k + (e + 2148)) at 1 by lia.
    rewrite rne_shift by lia. do 2 f_equal. lia. }
  rewrite <- Er.
  assert (0 < 2 ^ (e + 2148)) by (apply Z.pow_pos_nonneg; lia).
  destruct sx; cbn [cond_Zopp]; [rewrite Rnd_opp; f_equal|];
    unfold Rnd; destruct (Z.ltb_spec (Zpos p * 2 ^ (e + 2148)) 0); lia.
Qed.

Lemma shl_align_spec m e e' :
  let '(m', ez) := shl_align m e e' in
  ez = Z.min e e' ∧ Zpos m' = Zpos m * 2 ^ (e - ez).
Proof.
  unfold shl_align. destruct (e' - e) eqn:E.
  - rewrite Z.min_l, Z.sub_diag by lia. lia.
  - rewrite Z.min_l, Z.sub_diag by lia. lia.
  - split; [lia|]. replace (e - e') with (Zpos p) by lia. clear.
    rewrite <- (Pos2Z.inj_pow 2 p), <- Pos2Z.inj_mul. f_equal.
    induction p using Pos.peano_ind; simpl.
    + lia.
    + rewrite Pos.iter_succ, IHp, Pos.pow_succ_r. lia.
Qed.

Lemma binary_round_spec sx p e :
  -1074 ≤ e →
  let f := binary_round prec emax sx p e in
  SFval f = Rnd (cond_Zopp sx (Zpos p * 2 ^ (e + 2148))) ∧
  f ≠ S754_nan ∧ valid_binary f = true.
Proof.
  intros He f. unfold f, binary_round.
  pose proof (shl_align_spec p e (fexp64 (Zpos (digits2_pos p) + e))) as H.
  destruct (shl_align _ _ _) as [m' ez]. destruct H as [Hez Hm'].
  change (Zpos (digits2_pos p)) with (Zdigits2 (Zpos p)) in Hez.
  rewrite fexp64_eq, Zdigits2_log2 in Hez.
  assert (Z.log2 (Zpos m') = Z.log2 (Zpos p) + (e - ez)) as HL
    by (rewrite Hm', Z.log2_mul_pow2; lia).
  assert (Zpos p * 2 ^ (e + 2148) = Zpos m' * 2 ^ (ez + 2148)) as ->.
  { rewrite Hm', <- Z.mul_assoc, <- Z.pow_add_r by lia. do 2 f_equal. lia. }
  apply binary_round_aux_spec; [lia|].
  rewrite fexp64_eq, Zdigits2_log2. lia.
Qed.

Lemma binary_normalize_spec m e sz :
  -1074 ≤ e →
  let f := binary_normalize prec emax m e sz in
  SFval f = Rnd (m * 2 ^ (e + 2148)) ∧ f ≠ S754_nan ∧ valid_binary f = true.
Proof.
  intros He. destruct m as [|p|p]; simpl.
  - done.
  - apply (binary_round_spec false p e He).
  - destruct (binary_round_spec true p e He) as (Hv & Hrest). split; [|done].
    rewrite Hv. cbn [cond_Zopp]. f_equal.
    change (Zneg p) with (- Zpos p). ring.
Qed.

(** ** Arithmetic on values *)

Lemma isnan_SF x : isnan x = true ↔ Prim2SF x = S754_nan.
Proof.
  destruct (decide (Prim2SF x = S754_nan)) as [E|E].
  - split; [done|]. intros _. destruct (isnan x) eqn:H; [done|].
    by apply num_spec in H.
  - apply num_spec in E as E'. unfold num in E'. rewrite E'. done.
Qed.

Lemma isinf_SF x : isinf x = true ↔ ∃ s, Prim2SF x = S754_infinity s.
Proof.
  unfold isinf, PrimFloat.is_infinity. rewrite FloatAxioms.eqb_spec, FloatAxioms.abs_spec.
  change (Prim2SF infinity) with (S754_infinity false).
  destruct (Prim2SF x) as [[]|[]| |[] m e] eqn:E; simpl; split;
    try done; eauto; by intros [? [=]].
Qed.

Lemma isfinite_SF x :
  isfinite x = true ↔
  (∃ s, Prim2SF x = S754_zero s) ∨ ∃ s m e, Prim2SF x = S754_finite s m e.
Proof.
  assert (isfinite x = negb (isnan x || isinf x)) as -> by done.
  rewrite negb_true_iff, orb_false_iff, <- !not_true_iff_false, isnan_SF, isinf_SF.
  split.
  - intros [Hn Hi]. destruct (Prim2SF x) as [s|s| |s m e]; [eauto| |done|eauto 6].
    exfalso. apply Hi. eauto.
  - intros [[s ->]|(s&m&e&->)]; (split; [done|]); by intros [? [=]].
Qed.

Lemma fval_bounds x : - fmax_val ≤ fval x ≤ fmax_val.
Proof.
  unfold fval. pose proof (Prim2SF_valid x) as Hv.
  assert (0 < fmax_val) by done.
  destruct (Prim2SF x) as [s|s| |s m e]; cbn [SFval]; try lia.
  - destruct s; cbn [cond_Zopp]; lia.
  - apply finite_value_bound in Hv. destruct s; cbn [cond_Zopp]; lia.
Qed.

Lemma isfinite_fval x : isfinite x = true ↔ num x ∧ Z.abs (fval x) < fmax_val.
Proof.
  rewrite isfinite_SF, num_spec. unfold fval.
  pose proof (Prim2SF_valid x) as Hv. assert (0 < fmax_val) by done. split.
  - intros [[s E]|(s&m&e&E)]; rewrite E in *; cbn [SFval]; [done|].
    split; [done|]. apply finite_value_bound in Hv.
    destruct s; cbn [cond_Zopp]; lia.
  - destruct (Prim2SF x) as [s|s| |s m e]; intros [Hn Hlt]; [eauto| |done|eauto 6].
    exfalso. cbn [SFval] in Hlt. destruct s; cbn [cond_Zopp] in Hlt; lia.
Qed.

(** Comparison of floats is comparison of values. *)
Lemma flt_val x y : num x → num y → flt x y = true ↔ fval x < fval y.
Proof.
  rewrite !num_spec. intros Hx Hy. unfold flt. rewrite FloatAxioms.ltb_spec.
  unfold SFltb. rewrite SFcompare_value by (done || apply Prim2SF_valid).
  unfold fval. destruct (Z.compare_spec (SFval (Prim2SF x)) (SFval (Prim2SF y)));
    split; try done; lia.
Qed.
Lemma fle_val x y : num x → num y → fle x y = true ↔ fval x ≤ fval y.
Proof.
  rewrite !num_spec. intros Hx Hy. unfold fle. rewrite FloatAxioms.leb_spec.
  unfold SFleb. rewrite SFcompare_value by (done || apply Prim2SF_valid).
  unfold fval. destruct (Z.compare_spec (SFval (Prim2SF x)) (SFval (Prim2SF y)));
    split; try done; lia.
Qed.
Lemma feq_val x y : num x → num y → feq x y = true ↔ fval x = fval y.
Proof.
  rewrite !num_spec. intros Hx Hy. unfold feq. rewrite FloatAxioms.eqb_spec.
  unfold SFeqb. rewrite SFcompare_value by (done || apply Prim2SF_valid).
  unfold fval. destruct (Z.compare_spec (SFval (Prim2SF x)) (SFval (Prim2SF y)));
    split; try done; lia.
Qed.

Lemma fval_opp x : fval (PrimFloat.opp x) = - fval x.
Proof.
  unfold fval. rewrite FloatAxioms.opp_spec.
  destruct (Prim2SF x) as [s|s| |s m e]; cbn [SFopp SFval]; [done| |done|];
    destruct s; simpl negb; cbn [cond_Zopp]; lia.
Qed.
Lemma num_opp x : num (PrimFloat.opp x) ↔ num x.
Proof. rewrite !num_spec, FloatAxioms.opp_spec. by destruct (Prim2SF x). Qed.
Lemma fval_abs x : fval (PrimFloat.abs x) = Z.abs (fval x).
Proof.
  unfold fval. rewrite FloatAxioms.abs_spec.
  assert (0 < fmax_val) by done.
  destruct (Prim2SF x) as [s|s| |s m e]; cbn [SFabs SFval]; [done| |done|].
  - destruct s; cbn [cond_Zopp]; lia.
  - pose proof (Z.pow_nonneg 2 (e + 1074)). destruct s; cbn [cond_Zopp]; lia.
Qed.
Lemma num_abs x : num (PrimFloat.abs x) ↔ num x.
Proof. rewrite !num_spec, FloatAxioms.abs_spec. by destruct (Prim2SF x). Qed.

Lemma isfinite_num x : isfinite x = true → num x.
Proof. rewrite isfinite_fval. tauto. Qed.

(** A finite float is representable. *)
Lemma fval_representable x : isfinite x = true → representable (fval x).
Proof.
  intros H. pose proof (isfinite_fval x) as [Hb _].
  destruct (Hb H) as [_ Hb']. apply isfinite_SF in H.
  pose proof (Prim2SF_valid x) as Hv. revert Hb'. unfold fval.
  destruct H as [[s E]|(s&m&e&E)]; rewrite E in *; cbn [SFval]; intros Hb'.
  - exists 0, 0. repeat split; lia || done.
  - apply bounded_spec in Hv. exists (cond_Zopp s (Zpos m)), (e + 1074).
    split_and!; [destruct s; cbn [cond_Zopp]; lia|lia|
      destruct s; cbn [cond_Zopp]; lia|done].
Qed.

Lemma cond_Zopp_xorb s t a b :
  cond_Zopp (xorb s t) (a * b) = cond_Zopp s a * cond_Zopp t b.
Proof. destruct s, t; simpl; lia. Qed.

(** Multiplication, addition and subtraction of finite floats round the
    exact result. *)
Lemma fval_mul x y :
  isfinite x = true → isfinite y = true →
  fval (PrimFloat.mul x y) = Rnd (fval x * fval y) ∧ num (PrimFloat.mul x y).
Proof.
  rewrite !isfinite_SF. intros Hx Hy. rewrite num_spec. unfold fval.
  rewrite FloatAxioms.mul_spec. unfold SF64mul.
  pose proof (Prim2SF_valid x) as Vx. pose proof (Prim2SF_valid y) as Vy.
  destruct Hx as [[sx Ex]|(sx&mx&ex&Ex)], Hy as [[sy Ey]|(sy&my&ey&Ey)];
    rewrite Ex, Ey in *; cbn [SFmul SFval]; rewrite ?Z.mul_0_r, ?Z.mul_0_l;
    try done.
  apply bounded_spec in Vx as (?&?&Hbx), Vy as (?&?&Hby).
  destruct (binary_round_aux_spec (xorb sx sy) (mx * my) (ex + ey))
    as (Hv & Hn & _); [lia| |].
  - rewrite fexp64_eq, Zdigits2_log2, Pos2Z.inj_mul.
    destruct (Z.lt_ge_cases (ex + ey) (-1074)); [lia|].
    assert (52 ≤ Z.log2 (Zpos mx * Zpos my)); [|lia].
    apply Z.log2_le_pow2; [lia|].
    destruct (Z.le_gt_cases ex (-1074)); [specialize (Hby ltac:(lia))|
      specialize (Hbx ltac:(lia))]; nia.
  - split; [|done]. rewrite Hv. f_equal.
    rewrite <- cond_Zopp_xorb. f_equal. rewrite Pos2Z.inj_mul.
    replace (ex + ey + 2148) with ((ex + 1074) + (ey + 1074)) by lia.
    rewrite (Z.pow_add_r 2 (ex + 1074)) by lia. ring.
Qed.

Lemma cond_Zopp_mul s a b : cond_Zopp s (a * b) = cond_Zopp s a * b.
Proof. destruct s; simpl; lia. Qed.

Lemma shl_align_value s m e e' :
  e' ≤ e → -1074 ≤ e' →
  cond_Zopp s (Zpos (fst (shl_align m e e'))) * 2 ^ (e' + 1074) =
  cond_Zopp s (Zpos m * 2 ^ (e + 1074)).
Proof.
  intros He He'. pose proof (shl_align_spec m e e') as H.
  destruct (shl_align m e e') as [m' ez]. destruct H as [-> Hm]. simpl.
  rewrite <- cond_Zopp_mul, Hm, Z.min_r, <- Z.mul_assoc, <- Z.pow_add_r by lia.
  do 3 f_equal. lia.
Qed.

Lemma fval_add x y :
  isfinite x = true → isfinite y = true →
  fval (PrimFloat.add x y) = Rnd ((fval x + fval y) * 2 ^ 1074) ∧
  num (PrimFloat.add x y).
Proof.
  intros Fx Fy. pose proof (fval_representable x Fx) as Rx.
  pose proof (fval_representable y Fy) as Ry. apply isfinite_SF in Fx, Fy.
  rewrite num_spec. revert Rx Ry. unfold fval.
  rewrite FloatAxioms.add_spec. unfold SF64add.
  pose proof (Prim2SF_valid x) as Vx. pose proof (Prim2SF_valid y) as Vy.
  destruct Fx as [[sx Ex]|(sx&mx&ex&Ex)], Fy as [[sy Ey]|(sy&my&ey&Ey)];
    rewrite Ex, Ey in *; intros Rx Ry; cbn [SFadd].
  - destruct sx, sy; done.
  - split; [|done]. cbn [SFval] in *. rewrite Z.add_0_l. by rewrite Rnd_exact.
  - split; [|done]. cbn [SFval] in *. rewrite Z.add_0_r. by rewrite Rnd_exact.
  - apply bounded_spec in Vx as (?&_), Vy as (?&_). cbn [SFval].
    match goal with |- context [binary_normalize _ _ ?m ?e ?s] =>
      destruct (binary_normalize_spec m e s) as (Hv & Hn & _); [lia|] end.
    split; [|done]. rewrite Hv. f_equal.
    rewrite <- (shl_align_value sx mx ex (Z.min ex ey)) by lia.
    rewrite <- (shl_align_value sy my ey (Z.min ex ey)) by lia.
    replace (Z.min ex ey + 2148) with ((Z.min ex ey + 1074) + 1074) by lia.
    rewrite (Z.pow_add_r 2 (Z.min ex ey + 1074)) by lia. ring.
Qed.

Lemma fval_sub x y :
  isfinite x = true → isfinite y = true →
  fval (PrimFloat.sub x y) = Rnd ((fval x - fval y) * 2 ^ 1074) ∧
  num (PrimFloat.sub x y).
Proof.
  intros Fx Fy. pose proof (fval_representable x Fx) as Rx.
  pose proof (fval_representable y Fy) as Ry. apply isfinite_SF in Fx, Fy.
  rewrite num_spec. revert Rx Ry. unfold fval.
  rewrite FloatAxioms.sub_spec. unfold SF64sub.
  pose proof (Prim2SF_valid x) as Vx. pose proof (Prim2SF_valid y) as Vy.
  destruct Fx as [[sx Ex]|(sx&mx&ex&Ex)], Fy as [[sy Ey]|(sy&my&ey&Ey)];
    rewrite Ex, Ey in *; intros Rx Ry; cbn [SFsub].
  - destruct sx, sy; done.
  - split; [|done]. cbn [SFval] in *.
    rewrite Z.sub_0_l, Z.mul_opp_l, Rnd_opp, Rnd_exact by done.
    destruct sy; simpl negb; cbn [cond_Zopp]; lia.
  - split; [|done]. cbn [SFval] in *. rewrite Z.sub_0_r. by rewrite Rnd_exact.
  - apply bounded_spec in Vx as (?&_), Vy as (?&_). cbn [SFval].
    match goal with |- context [binary_normalize _ _ ?m ?e ?s] =>
      destruct (binary_normalize_spec m e s) as (Hv & Hn & _); [lia|] end.
    split; [|done]. rewrite Hv. f_equal.
    rewrite <- (shl_align_value sx mx ex (Z.min ex ey)) by lia.
    rewrite <- (shl_align_value sy my ey (Z.min ex ey)) by lia.
    replace (Z.min ex ey + 2148) with ((Z.min ex ey + 1074) + 1074) by lia.
    rewrite (Z.pow_add_r 2 (Z.min ex ey + 1074)) by lia. ring.
Qed.

(** [float(n)]: rounds the integer; exact up to [2^53]. *)
Lemma fval_float_of_Z n : fval (float_of_Z n) = Rnd (n * 2 ^ 2148) ∧ num (float_of_Z n).
Proof.
  unfold fval, float_of_Z. rewrite num_spec.
  destruct (binary_normalize_spec n 0 false) as (Hv & Hn & Hb); [lia|].
  rewrite Prim2SF_SF2Prim by done. done.
Qed.

Lemma representable_int n : Z.abs n ≤ 2 ^ 53 → representable (n * 2 ^ 1074).
Proof.
  intros H. exists n, 1074. split_and!; [done|done|done|].
  rewrite Z.abs_mul. rewrite (Z.abs_eq (2 ^ 1074)) by done.
  apply Z.le_lt_trans with (2 ^ 53 * 2 ^ 1074); [|done].
  apply Z.mul_le_mono_nonneg_r; [done|lia].
Qed.

Lemma fval_float_of_Z_small n :
  Z.abs n ≤ 2 ^ 53 → fval (float_of_Z n) = n * 2 ^ 1074.
Proof.
  intros H. destruct (fval_float_of_Z n) as [-> _].
  replace (n * 2 ^ 2148) with (n * 2 ^ 1074 * 2 ^ 1074).
  - apply Rnd_exact. by apply representable_int.
  - rewrite <- Z.mul_assoc. f_equal.
Qed.

(** Any integer below [2^1023] converts to a finite float. *)
Lemma float_of_Z_finite n : Z.abs n ≤ 2 ^ 1023 → isfinite (float_of_Z n) = true.
Proof.
  intros H. apply isfinite_fval. destruct (fval_float_of_Z n) as [-> Hn].
  split; [done|].
  assert (representable (2 ^ 1023 * 2 ^ 1074)) as HR.
  { exists 1, 2097. split_and!; done. }
  pose proof (Rnd_mono (n * 2 ^ 2148) (2 ^ 1023 * 2 ^ 1074 * 2 ^ 1074)) as H1.
  pose proof (Rnd_mono (- (2 ^ 1023 * 2 ^ 1074 * 2 ^ 1074)) (n * 2 ^ 2148)) as H2.
  rewrite Rnd_opp in H2. rewrite Rnd_exact in H1, H2 by done.
  assert (2 ^ 1023 * 2 ^ 1074 * 2 ^ 1074 = 2 ^ 1023 * 2 ^ 2148) as E by done.
  assert (0 < 2 ^ 2148) as Hp by done.
  assert (2 ^ 1023 * 2 ^ 1074 < fmax_val) by done.
  rewrite E in *.
  specialize (H1 ltac:(apply Z.mul_le_mono_nonneg_r; lia)).
  specialize (H2 ltac:(rewrite <- Z.mul_opp_l; apply Z.mul_le_mono_nonneg_r; lia)).
  lia.
Qed.

Lemma py_float_of_Z_ok n :
  Z.abs n ≤ 2 ^ 1023 → py_float_of_Z n = Ok (float_of_Z n).
Proof.
  intros H%float_of_Z_finite. unfold py_float_of_Z.
  apply isfinite_SF in H. destruct (isinf (float_of_Z n)) eqn:E; [|done].
  apply isinf_SF in E as [s E]. rewrite E in H.
  by destruct H as [[? [=]]|(?&?&?&[=])].
Qed.

(** ** Consequences used by the components *)

Lemma shiftZ_val z e : -1074 ≤ e → shiftZ z e = z * 2 ^ (e + 1074) / 2 ^ 1074.
Proof.
  intros He. unfold shiftZ. destruct (Z.leb_spec 0 e).
  - rewrite Z.pow_add_r, Z.mul_assoc, Z.div_mul by done. done.
  - assert (2 ^ 1074 = 2 ^ (- e) * 2 ^ (e + 1074)) as ->
      by (rewrite <- Z.pow_add_r by lia; f_equal; lia).
    rewrite Z.div_mul_cancel_r; [done| |]; apply Z.pow_nonzero; lia.
Qed.

(** [math.ceil] of a finite float is the ceiling of its value. *)
Lemma py_ceil_val x :
  isfinite x = true → py_ceil x = Ok (- (- fval x / 2 ^ 1074)).
Proof.
  intros H%isfinite_SF. pose proof (Prim2SF_valid x) as Vx. unfold py_ceil, fval.
  destruct H as [[s E]|(s&m&e&E)]; rewrite E in *; cbn [SFval].
  - done.
  - apply bounded_spec in Vx as (?&_). rewrite shiftZ_val by lia.
    do 3 f_equal. destruct s; cbn [cond_Zopp]; lia.
Qed.

Lemma py_ceil_mono x y i j :
  isfinite x = true → isfinite y = true → fle x y = true →
  py_ceil x = Ok i → py_ceil y = Ok j → i ≤ j.
Proof.
  intros Hx Hy Hle. rewrite !py_ceil_val by done. intros [= <-] [= <-].
  apply fle_val in Hle; [|by apply isfinite_num..].
  apply Z.opp_le_mono. rewrite !Z.opp_involutive.
  apply Z.div_le_mono; [done|]. lia.
Qed.

Lemma fval_zero : fval 0%float = 0.
Proof. done. Qed.
Lemma num_zero : num 0%float.
Proof. done. Qed.

Lemma fmul_mono_pos c x y :
  isfinite c = true → isfinite x = true → isfinite y = true →
  fle 0%float c = true → fle x y = true →
  fle (PrimFloat.mul x c) (PrimFloat.mul y c) = true.
Proof.
  intros Fc Fx Fy Hc Hxy.
  destruct (fval_mul x c Fx Fc) as [Vx Nx], (fval_mul y c Fy Fc) as [Vy Ny].
  apply fle_val; [done..|]. rewrite Vx, Vy. apply Rnd_mono.
  apply fle_val in Hc; [|done|by apply isfinite_num]. rewrite fval_zero in Hc.
  apply fle_val in Hxy; [|by apply isfinite_num..].
  by apply Z.mul_le_mono_nonneg_r.
Qed.

Lemma Rnd_nonneg N : 0 ≤ N → 0 ≤ Rnd N.
Proof. intros H. by apply (Rnd_mono 0 N). Qed.

Lemma fmul_nonneg x y :
  isfinite x = true → isfinite y = true →
  fle 0%float x = true → fle 0%float y = true →
  fle 0%float (PrimFloat.mul x y) = true.
Proof.
  intros Fx Fy Hx Hy. destruct (fval_mul x y Fx Fy) as [V N].
  apply fle_val in Hx; [|done|by apply isfinite_num].
  apply fle_val in Hy; [|done|by apply isfinite_num].
  rewrite fval_zero in Hx, Hy.
  apply fle_val; [done..|]. rewrite fval_zero, V. apply Rnd_nonneg. nia.
Qed.

Lemma fadd_nonneg x y :
  isfinite x = true → isfinite y = true →
  fle 0%float x = true → fle 0%float y = true →
  fle 0%float (PrimFloat.add x y) = true.
Proof.
  intros Fx Fy Hx Hy. destruct (fval_add x y Fx Fy) as [V N].
  apply fle_val in Hx; [|done|by apply isfinite_num].
  apply fle_val in Hy; [|done|by apply isfinite_num].
  rewrite fval_zero in Hx, Hy.
  apply fle_val; [done..|]. rewrite fval_zero, V. apply Rnd_nonneg.
  apply Z.mul_nonneg_nonneg; [lia|done].
Qed.

Lemma fsub_nonneg x y :
  isfinite x = true → isfinite y = true → fle y x = true →
  fle 0%float (PrimFloat.sub x y) = true.
Proof.
  intros Fx Fy Hle. destruct (fval_sub x y Fx Fy) as [V N].
  apply fle_val in Hle; [|by apply isfinite_num..].
  apply fle_val; [done..|]. rewrite fval_zero, V. apply Rnd_nonneg.
  apply Z.mul_nonneg_nonneg; [lia|done].
Qed.

(** Subtracting a smaller integer from a float below [2^53] is exact, and
    subtracting a larger one keeps the sign of the exact result. *)
Lemma fsub_int_exact x n :
  isfinite x = true → 0 ≤ n → n * 2 ^ 1074 ≤ fval x ≤ 2 ^ 53 * 2 ^ 1074 →
  fval (PrimFloat.sub x (float_of_Z n)) = fval x - n * 2 ^ 1074 ∧
  isfinite (PrimFloat.sub x (float_of_Z n)) = true.
Proof.
  intros Fx Hn [Hlo Hhi]. assert (0 < 2 ^ 1074) by done.
  assert (n ≤ 2 ^ 53) as Hn53.
  { apply (Z.mul_le_mono_pos_r _ _ (2 ^ 1074)); [done|]. lia. }
  assert (isfinite (float_of_Z n) = true) as Fn.
  { apply float_of_Z_finite.
    assert (2 ^ 53 < 2 ^ 1023) by done. lia. }
  destruct (fval_sub x (float_of_Z n) Fx Fn) as [V N].
  rewrite fval_float_of_Z_small in V by lia.
  assert (representable (fval x - n * 2 ^ 1074)) as HR.
  { destruct (fval_representable x Fx) as (m & e & E & He & Hm & Hb).
    assert (fmax_val = 2 ^ 1024 * 2 ^ 1074) as Ef by done.
    assert (2 ^ 53 * 2 ^ 1074 < fmax_val) as Hf by done.
    assert (0 ≤ n * 2 ^ 1074) by (apply Z.mul_nonneg_nonneg; [lia|done]).
    destruct (Z.le_gt_cases e 1074) as [Hle|Hgt].
    - exists (m - n * 2 ^ (1074 - e)), e.
      assert (n * 2 ^ 1074 = n * 2 ^ (1074 - e) * 2 ^ e) as En.
      { rewrite <- Z.mul_assoc, <- Z.pow_add_r by lia. do 2 f_equal. lia. }
      assert (0 < 2 ^ e) by (apply Z.pow_pos_nonneg; lia).
      assert (0 ≤ n * 2 ^ (1074 - e)).
      { apply Z.mul_nonneg_nonneg; [lia|]. apply Z.pow_nonneg. lia. }
      split_and!; [rewrite E, En; ring|done| |lia].
      assert (0 ≤ m - n * 2 ^ (1074 - e)); [|lia].
      apply (Z.mul_le_mono_pos_r _ _ (2 ^ e)); [done|].
      rewrite Z.mul_sub_distr_r, <- En, <- E. lia.
    - exists (fval x / 2 ^ 1074 - n), 1074.
      assert (fval x = m * 2 ^ (e - 1074) * 2 ^ 1074) as E'.
      { rewrite E, <- Z.mul_assoc, <- Z.pow_add_r by lia. do 2 f_equal. lia. }
      rewrite E' in *. rewrite Z.div_mul by done.
      apply (Z.mul_le_mono_pos_r _ _ (2 ^ 1074)) in Hlo, Hhi; [|done..].
      split_and!; [ring|done|lia|]. lia. }
  rewrite Rnd_exact in V by done. split; [done|].
  apply isfinite_fval. split; [done|]. rewrite V.
  destruct HR as (?&?&_&_&_&?). done.
Qed.

Lemma fsub_int_le0 x n :
  isfinite x = true → 0 ≤ n ≤ 2 ^ 53 → fval x ≤ n * 2 ^ 1074 →
  fle (PrimFloat.sub x (float_of_Z n)) 0%float = true.
Proof.
  intros Fx Hn Hle.
  assert (isfinite (float_of_Z n) = true) as Fn.
  { apply float_of_Z_finite. assert (2 ^ 53 < 2 ^ 1023) by done. lia. }
  destruct (fval_sub x (float_of_Z n) Fx Fn) as [V N].
  rewrite fval_float_of_Z_small in V by lia.
  apply fle_val; [done..|]. rewrite fval_zero, V.
  apply (Rnd_mono _ 0). apply Z.mul_nonpos_nonneg; [lia|done].
Qed.

(** ** A concrete C library

    The laws asked of [log] are satisfiable: the integer part of the binary
    logarithm has them.  It instantiates the parameter on concrete inputs. *)

Definition coarse_log (x : float) : float := float_of_Z (Z.log2 (fval x) - 1074).
Definition coarse_pow (x : float) (n : Z) : float :=
  let p := Nat.iter (Z.to_nat (Z.abs n)) (PrimFloat.mul x) 1%float in
  if 0 <=? n then p else PrimFloat.div 1%float p.

Definition coarse_libm : Libm := {| lm_log := coarse_log; lm_pow := coarse_pow |}.

Lemma coarse_log_range x : isfinite x = true → Z.abs (Z.log2 (fval x) - 1074) ≤ 1100.
Proof.
  intros [_ H]%isfinite_fval. pose proof (Z.log2_nonneg (fval x)).
  destruct (Z.le_gt_cases (fval x) 0) as [Hle|Hgt].
  - rewrite Z.log2_nonpos by done. lia.
  - assert (Z.log2 (fval x) < 2098); [|lia]. apply Z.log2_lt_pow2; [lia|].
    unfold fmax_val in H. lia.
Qed.

#[export] Instance coarse_libm_laws : LibmLaws coarse_libm.
Proof.
  split; simpl; unfold coarse_log.
  - intros x y Hx Hxy. apply fle_val; [apply fval_float_of_Z..|].
    destruct (fval_float_of_Z (Z.log2 (fval x) - 1074)) as [-> _].
    destruct (fval_float_of_Z (Z.log2 (fval y) - 1074)) as [-> _].
    apply Rnd_mono. apply Z.mul_le_mono_nonneg_r; [done|].
    apply fle_val in Hxy; [|eauto with py..].
    pose proof (Z.log2_le_mono _ _ Hxy). lia.
  - intros x _ Hf. apply float_of_Z_finite. apply coarse_log_range in Hf.
    assert (1100 < 2 ^ 1023) by done. lia.
Qed.

(** A finer one, for logs of the default accuracy: the binary logarithm in
    steps of one 65536th, linear between powers of two (the scale is free: the
    sketch divides by the logarithm of its own base). *)
Definition fine_log_Z (n : Z) : Z :=
  (Z.log2 n - 1074) * 65536 + (n * 65536 / 2 ^ Z.log2 n - 65536).
Definition fine_log (x : float) : float := float_of_Z (fine_log_Z (fval x)).
Definition fine_libm : Libm := {| lm_log := fine_log; lm_pow := coarse_pow |}.

Lemma fine_log_frac n : 0 < n → 0 ≤ n * 65536 / 2 ^ Z.log2 n - 65536 < 65536.
Proof.
  intros Hn. pose proof (Z.log2_spec n Hn) as [H1 H2].
  assert (0 < 2 ^ Z.log2 n) by (apply Z.pow_pos_nonneg; [lia|apply Z.log2_nonneg]).
  rewrite Z.pow_succ_r in H2 by apply Z.log2_nonneg. split.
  - assert (65536 ≤ n * 65536 / 2 ^ Z.log2 n); [|lia]. apply Z.div_le_lower_bound; nia.
  - assert (n * 65536 / 2 ^ Z.log2 n < 131072); [|lia]. apply Z.div_lt_upper_bound; nia.
Qed.

Lemma fine_log_Z_mono n m : 0 < n → n ≤ m → fine_log_Z n ≤ fine_log_Z m.
Proof.
  intros Hn Hm. unfold fine_log_Z. pose proof (fine_log_frac n Hn). pose proof (fine_log_frac m ltac:(lia)).
  pose proof (Z.log2_le_mono n m Hm) as Hl. destruct (Z.eq_dec (Z.log2 n) (Z.log2 m)) as [E|E]; [|nia].
  rewrite E. assert (0 < 2 ^ Z.log2 m) by (apply Z.pow_pos_nonneg; [lia|apply Z.log2_nonneg]).
  assert (n * 65536 / 2 ^ Z.log2 m ≤ m * 65536 / 2 ^ Z.log2 m) by (apply Z.div_le_mono; lia). lia.
Qed.

#[export] Instance fine_libm_laws : LibmLaws fine_libm.
Proof.
  split; simpl; unfold fine_log.
  - intros x y Hx Hxy. apply fle_val; [apply fval_float_of_Z..|].
    destruct (fval_float_of_Z (fine_log_Z (fval x))) as [-> _].
    destruct (fval_float_of_Z (fine_log_Z (fval y))) as [-> _].
    apply Rnd_mono, Z.mul_le_mono_nonneg_r; [done|].
    apply fle_val in Hxy; [|eauto with py..]. apply flt_val in Hx; [|eauto with py..].
    rewrite fval_zero in Hx. by apply fine_log_Z_mono.
  - intros x Hx Hf. apply float_of_Z_finite. pose proof (coarse_log_range x Hf).
    apply flt_val in Hx; [|eauto with py..]. rewrite fval_zero in Hx.
    pose proof (fine_log_frac (fval x) Hx). unfold fine_log_Z.
    assert (1101 * 65536 + 65536 < 2 ^ 1023) by done. lia.
Qed.

(** The largest finite value is [(2^53 - 1) * 2^971]. *)
Lemma finite_fval_max x : isfinite x = true → Z.abs (fval x) ≤ (2 ^ 53 - 1) * 2 ^ 2045.
Proof.
  intros H%isfinite_SF. pose proof (Prim2SF_valid x) as Vx. unfold fval.
  destruct H as [[s E]|(s&m&e&E)]; rewrite E in *; cbn [SFval]; [done|].
  apply bounded_spec in Vx as (?&?&_).
  assert (0 < 2 ^ (e + 1074)) by (apply Z.pow_pos_nonneg; lia).
  assert (Zpos m * 2 ^ (e + 1074) ≤ (2 ^ 53 - 1) * 2 ^ 2045).
  { apply Z.mul_le_mono_nonneg; [lia|lia|lia|]. apply Z.pow_le_mono_r; lia. }
  destruct s; cbn [cond_Zopp]; lia.
Qed.

(** ** Non-negative or NaN

    The sign information that survives arithmetic on any inputs, infinities
    included. *)

Definition SFnn (f : spec_float) : Prop :=
  match f with
  | S754_nan | S754_zero _ => True
  | S754_infinity s | S754_finite s _ _ => s = false
  end.

Definition fnn (x : float) : Prop := SFnn (Prim2SF x).

Lemma fnn_num x : fnn x → num x → fle 0%float x = true.
Proof.
  intros Hx Hn. apply fle_val; [done..|]. rewrite fval_zero.
  unfold fnn in Hx. unfold fval. pose proof (Prim2SF_valid x) as Vx.
  assert (0 < fmax_val) by done.
  destruct (Prim2SF x) as [s|s| |s m e]; cbn [SFnn SFval] in *; subst; try lia.
  - cbn [cond_Zopp]. lia.
  - apply finite_value_bound in Vx. cbn [cond_Zopp]. lia.
Qed.

Lemma fle_fnn x : fle 0%float x = true → fnn x.
Proof.
  intros Hx. pose proof (fle_num_r _ _ Hx) as Hn. apply fle_val in Hx; [|done..].
  rewrite fval_zero in Hx. revert Hx. unfold fnn, fval.
  pose proof (Prim2SF_valid x) as Vx. assert (0 < fmax_val) by done.
  destruct (Prim2SF x) as [s|[]| |[] m e]; cbn [SFnn SFval cond_Zopp]; try done; try lia.
  apply finite_value_bound in Vx. lia.
Qed.

Lemma fnn_nan x : isnan x = true → fnn x.
Proof. rewrite isnan_SF. unfold fnn. by intros ->. Qed.

Lemma fnn_cases x : fnn x → isnan x = true ∨ fle 0%float x = true.
Proof.
  intros Hx. destruct (isnan x) eqn:E; [by left|]. right. by apply fnn_num.
Qed.

Lemma fnn_mul x y : fnn x → fnn y → fnn (PrimFloat.mul x y).
Proof.
  intros Hx Hy.
  destruct (decide (isfinite x = true)) as [Fx|Fx];
    [destruct (decide (isfinite y = true)) as [Fy|Fy]|].
  - apply fle_fnn, fmul_nonneg; try done; apply fnn_num; try done; by apply isfinite_num.
  - unfold fnn in *. rewrite FloatAxioms.mul_spec. unfold SF64mul.
    rewrite isfinite_SF in Fy.
    destruct (Prim2SF x) as [?|?| |? ? ?], (Prim2SF y) as [?|?| |? ? ?];
      simpl in *; subst; try done; exfalso; apply Fy; eauto 8.
  - unfold fnn in *. rewrite FloatAxioms.mul_spec. unfold SF64mul.
    rewrite isfinite_SF in Fx.
    destruct (Prim2SF x) as [?|?| |? ? ?], (Prim2SF y) as [?|?| |? ? ?];
      simpl in *; subst; try done; exfalso; apply Fx; eauto 8.
Qed.

Lemma fnn_add x y : fnn x → fnn y → fnn (PrimFloat.add x y).
Proof.
  intros Hx Hy.
  destruct (decide (isfinite x = true)) as [Fx|Fx];
    [destruct (decide (isfinite y = true)) as [Fy|Fy]|].
  - apply fle_fnn, fadd_nonneg; try done; apply fnn_num; try done; by apply isfinite_num.
  - unfold fnn in *. rewrite FloatAxioms.add_spec. unfold SF64add.
    rewrite isfinite_SF in Fy.
    destruct (Prim2SF x) as [?|?| |? ? ?], (Prim2SF y) as [?|?| |? ? ?];
      simpl in *; subst; try done; exfalso; apply Fy; eauto 8.
  - unfold fnn in *. rewrite FloatAxioms.add_spec. unfold SF64add.
    rewrite isfinite_SF in Fx.
    destruct (Prim2SF x) as [?|?| |? ? ?], (Prim2SF y) as [?|?| |? ? ?];
      simpl in *; subst; try done; exfalso; apply Fx; eauto 8.
Qed.

(** [max(0.0, x)] is never negative. *)
Lemma fmax_zero_nn x : fnn (fmax 0%float x).
Proof.
  unfold fmax. destruct (flt 0%float x) eqn:E; [by apply fle_fnn, flt_fle|done].
Qed.

(** The exact comparison with an integer. *)
Lemma fge_Z_val x n : isfinite x = true → fge_Z x n = true ↔ n * 2 ^ 1074 ≤ fval x.
Proof.
  intros F%isfinite_SF. pose proof (Prim2SF_valid x) as Vx.
  unfold fge_Z, fcompare_Z, fval. assert (0 < 2 ^ 1074) as HU by done.
  destruct F as [[s E]|(s&m&e&E)]; rewrite E in *; cbn [SFval].
  - destruct (Z.compare_spec 0 n); split; try done; intros; try nia; 
      exfalso; nia.
  - apply bounded_spec in Vx as (?&_). rewrite cond_Zopp_mul.
    set (v := cond_Zopp s (Zpos m)). destruct (Z.leb_spec 0 e).
    + rewrite Z.pow_add_r by lia. rewrite Z.mul_assoc.
      rewrite <- Z.mul_le_mono_pos_r by done.
      destruct (Z.compare_spec (v * 2 ^ e) n); split; try done; lia.
    + assert (2 ^ 1074 = 2 ^ (- e) * 2 ^ (e + 1074)) as ->
        by (rewrite <- Z.pow_add_r by lia; f_equal; lia).
      rewrite Z.mul_assoc. rewrite <- Z.mul_le_mono_pos_r by (apply Z.pow_pos_nonneg; lia).
      destruct (Z.compare_spec v (n * 2 ^ (- e))); split; try done; lia.
Qed.

Lemma py_float_of_Z_fin n c :
  py_float_of_Z n = Ok c → c = float_of_Z n ∧ isfinite c = true.
Proof.
  unfold py_float_of_Z. destruct (isinf (float_of_Z n)) eqn:E; [done|].
  intros [= <-]. split; [done|]. destruct (fval_float_of_Z n) as [_ Hn].
  unfold num in Hn. unfold isfinite, PrimFloat.is_finite, isnan, isinf in *.
  by rewrite Hn, E.
Qed.
