(* ===== verification/FloatDiv.v ===== *)
(** * Division of floats

    The quotient of two finite floats is the exact quotient of their values,
    rounded once to nearest, ties to even: the counterpart for division of the
    laws of addition, subtraction and multiplication.  Hence division is
    monotone, and exact where the exact quotient is a float. *)

From Stdlib Require Import PrimFloat SpecFloat FloatOps FloatAxioms.
From S2P Require Import Prelude PyFloat FloatRound.

#[local] Open Scope Z_scope.

(** ** Rounding a fraction *)

Lemma div_half_even_between n d : n / d ≤ div_half_even n d ≤ n / d + 1.
Proof. unfold div_half_even. case_match; lia. Qed.

Lemma div_half_even_mono n n' d : 0 < d → n ≤ n' → div_half_even n d ≤ div_half_even n' d.
Proof.
  intros Hd Hn. pose proof (div_half_even_between n d). pose proof (div_half_even_between n' d).
  pose proof (Z.div_le_mono n n' _ Hd Hn). destruct (Z.eq_dec (n / d) (n' / d)) as [E|]; [|lia].
  unfold div_half_even. rewrite <- E.
  pose proof (Z.div_mod n d ltac:(lia)). pose proof (Z.div_mod n' d ltac:(lia)). rewrite <- E in *.
  destruct (Z.even _); repeat case_match; lia.
Qed.

Lemma div_half_even_exact q d : 0 < d → div_half_even (q * d) d = q.
Proof.
  intros Hd. unfold div_half_even. rewrite Z.div_mul, Z.mod_mul by lia.
  destruct (Z.ltb_spec (2 * 0) d); [done|lia].
Qed.

Lemma div_half_even_0 d : 0 < d → div_half_even 0 d = 0.
Proof. intros Hd. exact (div_half_even_exact 0 d Hd). Qed.

(** The exponent of the last place of [n / d], and [n / d] rounded there. *)
Definition place (n d : Z) : Z := Z.max (Z.log2 (n / d) - 52) 0.
Definition rndq (n d : Z) : Z := div_half_even n (d * 2 ^ place n d) * 2 ^ place n d.

(** The quotient rounded as IEEE arithmetic does, saturated at the infinities. *)
Definition Rndq (n d : Z) : Z :=
  if n <? 0 then - Z.min fmax_val (rndq (- n) d) else Z.min fmax_val (rndq n d).

Lemma place_pos n d : 0 ≤ place n d ∧ 0 < 2 ^ place n d.
Proof. assert (0 ≤ place n d) by (unfold place; lia). split; [done|]. by apply Z.pow_pos_nonneg. Qed.

Lemma rndq_0 d : 0 < d → rndq 0 d = 0.
Proof.
  intros Hd. unfold rndq. rewrite div_half_even_0; [done|]. apply Z.mul_pos_pos; [done|]. apply place_pos.
Qed.

Lemma rndq_pow_bounds n d g p :
  0 < d → 0 ≤ g ≤ p →
  (n ≤ 2 ^ p * d → div_half_even n (d * 2 ^ g) * 2 ^ g ≤ 2 ^ p) ∧
  (2 ^ p * d ≤ n → 2 ^ p ≤ div_half_even n (d * 2 ^ g) * 2 ^ g).
Proof.
  intros Hd Hg. assert (0 < 2 ^ g) as Hp by (apply Z.pow_pos_nonneg; lia).
  assert (2 ^ p = 2 ^ (p - g) * 2 ^ g) as Ep by (rewrite <- Z.pow_add_r by lia; f_equal; lia).
  assert (2 ^ p * d = 2 ^ (p - g) * (d * 2 ^ g)) as -> by (rewrite Ep; ring). rewrite Ep.
  split; intros H; (apply Z.mul_le_mono_nonneg_r; [lia|]).
  - rewrite <- (div_half_even_exact (2 ^ (p - g)) (d * 2 ^ g)) by nia. apply div_half_even_mono; nia.
  - rewrite <- (div_half_even_exact (2 ^ (p - g)) (d * 2 ^ g)) at 1 by nia. apply div_half_even_mono; nia.
Qed.

Lemma rndq_mono n n' d : 0 < d → 0 ≤ n → n ≤ n' → rndq n d ≤ rndq n' d.
Proof.
  intros Hd H0 H. unfold rndq.
  pose proof (Z.div_le_mono n n' d Hd H) as Hq. pose proof (Z.log2_le_mono _ _ Hq) as Hl.
  assert (0 ≤ place n d ≤ place n' d) as Hg by (unfold place; lia).
  destruct (Z.eq_dec (place n d) (place n' d)) as [<-|Hne].
  { apply Z.mul_le_mono_nonneg_r; [apply Z.pow_nonneg; lia|]. apply div_half_even_mono; [|done].
    apply Z.mul_pos_pos; [done|apply Z.pow_pos_nonneg; lia]. }
  set (p := Z.log2 (n' / d)) in *.
  assert (place n' d = p - 52) as E' by (unfold place in *; lia).
  assert (0 < n' / d) as Hp by (destruct (Z.le_gt_cases (n' / d) 0) as [Hn|]; [|done]; unfold p in *; rewrite Z.log2_nonpos in * by done; lia).
  pose proof (Z.log2_spec (n' / d) Hp) as [Hb _]. fold p in Hb.
  assert (n ≤ 2 ^ p * d) as Hn.
  { assert (n / d < 2 ^ p); [|pose proof (Z.div_mod n d ltac:(lia)); pose proof (Z.mod_pos_bound n d Hd); nia].
    destruct (Z.le_gt_cases (n / d) 0) as [Hz|Hz]; [assert (0 < 2 ^ p) by (apply Z.pow_pos_nonneg; lia); lia|].
    pose proof (Z.log2_spec (n / d) Hz) as [_ Hu]. eapply Z.lt_le_trans; [exact Hu|].
    apply Z.pow_le_mono_r; [lia|]. unfold place in *. lia. }
  assert (2 ^ p * d ≤ n') as Hn' by (pose proof (Z.div_mod n' d ltac:(lia)); pose proof (Z.mod_pos_bound n' d Hd); nia).
  transitivity (2 ^ p); [apply rndq_pow_bounds; lia|apply rndq_pow_bounds; lia].
Qed.

Lemma rndq_nonneg n d : 0 < d → 0 ≤ n → 0 ≤ rndq n d.
Proof.
  intros Hd Hn. rewrite <- (rndq_0 d Hd) at 1. by apply rndq_mono.
Qed.

Lemma Rndq_mono n n' d : 0 < d → n ≤ n' → Rndq n d ≤ Rndq n' d.
Proof.
  intros Hd H. assert (0 ≤ fmax_val) by done.
  unfold Rndq. destruct (Z.ltb_spec n 0), (Z.ltb_spec n' 0); try lia.
  - pose proof (rndq_mono (- n') (- n) d). lia.
  - pose proof (rndq_nonneg (- n) d). pose proof (rndq_nonneg n' d). lia.
  - pose proof (rndq_mono n n' d). lia.
Qed.

Lemma Rndq_0 d : 0 < d → Rndq 0 d = 0.
Proof. intros Hd. unfold Rndq. change (0 <? 0) with false. cbv iota. by rewrite rndq_0. Qed.

Lemma Rndq_opp n d : 0 < d → Rndq (- n) d = - Rndq n d.
Proof.
  intros Hd. unfold Rndq. destruct (Z.ltb_spec (- n) 0), (Z.ltb_spec n 0); try lia.
  - by rewrite Z.opp_involutive.
  - assert (n = 0) as -> by lia. change (- 0) with 0. rewrite !rndq_0 by done. done.
Qed.

(** Where the quotient is a float it is not changed. *)
Lemma Rndq_exact v d : 0 < d → representable v → Rndq (v * d) d = v.
Proof.
  intros Hd R. assert (∀ w, 0 ≤ w → representable w → Z.min fmax_val (rndq (w * d) d) = w) as K.
  { clear v R. intros v Hv (m & e & -> & He & Hm & Hb).
    assert (0 < 2 ^ e) as Hpe by (apply Z.pow_pos_nonneg; lia).
    unfold rndq. assert (place (m * 2 ^ e * d) d = Z.max (Z.log2 (m * 2 ^ e) - 52) 0) as Ep
      by (unfold place; by rewrite Z.div_mul by lia).
    rewrite Ep. set (g := Z.max _ 0).
    assert (∃ k, m * 2 ^ e = k * 2 ^ g ∧ 0 ≤ g) as (k & Ek & Hg).
    { unfold g. destruct (Z.eq_dec m 0) as [->|Hm0]; [by exists 0|].
      assert (0 < m) by nia.
      rewrite Z.log2_mul_pow2 by lia. destruct (Z.eq_dec (Z.abs m) (2 ^ 53)) as [E|].
      - exists (2 ^ 52). assert (m = 2 * 2 ^ 52) as -> by lia. change (Z.log2 (2 * 2 ^ 52)) with 53.
        rewrite Z.max_l by lia. replace (e + 53 - 52) with (1 + e) by lia. rewrite Z.pow_add_r by lia. split; [ring|lia].
      - assert (Z.log2 m ≤ 52) by (assert (Z.log2 m < 53); [apply Z.log2_lt_pow2; lia|lia]).
        exists (m * 2 ^ (e - Z.max (e + Z.log2 m - 52) 0)). rewrite <- Z.mul_assoc, <- Z.pow_add_r by lia.
        split; [do 2 f_equal; lia|lia]. }
    assert (0 < 2 ^ g) by (apply Z.pow_pos_nonneg; lia).
    rewrite Ek. replace (k * 2 ^ g * d) with (k * (d * 2 ^ g)) by ring.
    rewrite div_half_even_exact by nia. lia. }
  unfold Rndq. destruct (Z.ltb_spec (v * d) 0) as [Hn|Hn].
  - rewrite <- Z.mul_opp_l. rewrite K; [lia|nia|]. destruct R as (m & e & -> & He & Hm & Hb).
    exists (- m), e. split_and!; [lia|lia|lia|]. by rewrite Z.abs_opp.
  - apply K; [nia|done].
Qed.

(** ** Shifting a fraction

    What [k] shifts leave of the quotient [n / d] and the position of its
    remainder. *)
Definition shifted_q (n d : Z) (k : nat) (r : shr_record) : Prop :=
  let p := d * 2 ^ Z.of_nat k in
  shr_m r = n / p ∧
  shr_r r = (p <=? 2 * (n mod p)) ∧
  shr_s r = negb (2 * (n mod p) =? 0) && negb (2 * (n mod p) =? p).

Lemma shifted_q_iter n d k r :
  0 ≤ n → 0 < d → shifted_q n d 0 r → shifted_q n d k (Nat.iter k shr_1 r).
Proof.
  intros Hn Hd H0. induction k as [|k IH]; [exact H0|].
  simpl Nat.iter. destruct (Nat.iter k shr_1 _) as [q ρr ρs]. destruct IH as (Hq & Hr & Hs).
  simpl in Hq, Hr, Hs. unfold shifted_q. cbv zeta.
  assert (0 < 2 ^ Z.of_nat k) as Hpos by (apply Z.pow_pos_nonneg; lia).
  assert (d * 2 ^ Z.of_nat (S k) = 2 * (d * 2 ^ Z.of_nat k)) as EP by (rewrite Nat2Z.inj_succ, Z.pow_succ_r by lia; ring).
  rewrite EP. assert (0 < d * 2 ^ Z.of_nat k) as HP by nia. set (P := d * 2 ^ Z.of_nat k) in *.
  assert (0 ≤ q) by (subst q; apply Z.div_pos; lia).
  rewrite shr_1_spec by done. cbn [shr_m shr_r shr_s].
  pose proof (Z.div_mod n P ltac:(lia)) as Dm. pose proof (Z.mod_pos_bound n P ltac:(lia)) as Bm.
  rewrite <- Hq in Dm. set (ρ := n mod P) in *.
  pose proof (Zmod_odd q) as Ho. pose proof (Z.div_mod q 2 ltac:(lia)) as Dq.
  assert (n / (2 * P) = q / 2 ∧ n mod (2 * P) = ρ + P * (if Z.odd q then 1 else 0)) as [E1 E2].
  { destruct (Z.odd q); rewrite Ho in Dq.
    - split; symmetry; [apply (Z.div_unique _ _ _ (ρ + P))|apply (Z.mod_unique _ _ (q / 2))]; nia.
    - split; symmetry; [apply (Z.div_unique _ _ _ ρ)|apply (Z.mod_unique _ _ (q / 2))]; nia. }
  rewrite E1, E2. split; [done|]. rewrite Hr, Hs. destruct (Z.odd q).
  - split; [symmetry; apply Z.leb_le; lia|].
    destruct (Z.leb_spec P (2 * ρ)), (Z.eqb_spec (2 * ρ) 0), (Z.eqb_spec (2 * ρ) P),
      (Z.eqb_spec (2 * (ρ + P * 1)) 0), (Z.eqb_spec (2 * (ρ + P * 1)) (2 * P)); simpl; try done; lia.
  - split; [symmetry; apply Z.leb_gt; lia|].
    destruct (Z.leb_spec P (2 * ρ)), (Z.eqb_spec (2 * ρ) 0), (Z.eqb_spec (2 * ρ) P),
      (Z.eqb_spec (2 * (ρ + P * 0)) 0), (Z.eqb_spec (2 * (ρ + P * 0)) (2 * P)); simpl; try done; lia.
Qed.

Lemma shifted_q_round n d k r :
  0 < d → shifted_q n d k r →
  round_nearest_even (shr_m r) (loc_of_shr_record r) = div_half_even n (d * 2 ^ Z.of_nat k).
Proof.
  intros Hd (Hm & Hr & Hs). destruct r as [q ρr ρs]. simpl in *. unfold div_half_even.
  assert (0 < 2 ^ Z.of_nat k) as Hpos by (apply Z.pow_pos_nonneg; lia).
  assert (0 < d * 2 ^ Z.of_nat k) as HP by nia. set (P := d * 2 ^ Z.of_nat k) in *.
  pose proof (Z.mod_pos_bound n P ltac:(lia)). subst. set (ρ := n mod P) in *.
  destruct (Z.leb_spec P (2 * ρ)), (Z.eqb_spec (2 * ρ) 0), (Z.eqb_spec (2 * ρ) P), (Z.ltb_spec (2 * ρ) P),
    (Z.eqb_spec (2 * ρ) P); simpl; try lia; by destruct (Z.even _).
Qed.

(** The location of a remainder. *)
Lemma new_location_spec n d :
  0 ≤ n → 0 < d → shifted_q n d 0 (shr_record_of_loc (n / d) (new_location d (n mod d))).
Proof.
  intros Hn Hd. unfold shifted_q. cbv zeta. change (2 ^ Z.of_nat 0) with 1. rewrite Z.mul_1_r.
  pose proof (Z.mod_pos_bound n d Hd). set (ρ := n mod d) in *.
  unfold new_location. pose proof (Zeven_odd_dec d).
  assert (Z.even d = true → 2 * ρ ≠ d + 1) by (intros E; apply Z.even_spec in E as [? ?]; lia).
  assert (Z.even d = false → 2 * ρ ≠ d) as Ho.
  { intros E Ed. rewrite <- Ed, Z.even_mul in E. done. }
  destruct (Z.even d); unfold new_location_even, new_location_odd;
    destruct (Z.eqb_spec ρ 0) as [->|]; cbn [shr_record_of_loc shr_m shr_r shr_s].
  - split; [done|]. split; [symmetry; apply Z.leb_gt; lia|done].
  - destruct (Z.compare_spec (2 * ρ) d); cbn [shr_record_of_loc shr_m shr_r shr_s]; (split; [done|]);
      destruct (Z.leb_spec d (2 * ρ)), (Z.eqb_spec (2 * ρ) 0), (Z.eqb_spec (2 * ρ) d); simpl; done || lia.
  - split; [done|]. split; [symmetry; apply Z.leb_gt; lia|done].
  - specialize (Ho eq_refl).
    destruct (Z.compare_spec (2 * ρ + 1) d); cbn [shr_record_of_loc shr_m shr_r shr_s]; (split; [done|]);
      destruct (Z.leb_spec d (2 * ρ)), (Z.eqb_spec (2 * ρ) 0), (Z.eqb_spec (2 * ρ) d); simpl; done || lia.
Qed.

(** ** Rounding the quotient of two mantissas *)

Lemma div_half_even_scale n d c : 0 < d → 0 < c → div_half_even (n * c) (d * c) = div_half_even n d.
Proof.
  intros Hd Hc. unfold div_half_even. rewrite Z.div_mul_cancel_r, Z.mul_mod_distr_r by lia.
  set (r := n mod d).
  destruct (Z.ltb_spec (2 * (r * c)) (d * c)), (Z.ltb_spec (2 * r) d); try nia; try done.
  destruct (Z.eqb_spec (2 * (r * c)) (d * c)), (Z.eqb_spec (2 * r) d); try nia; done.
Qed.

(** The number of digits of the integer quotient. *)
Lemma Zdigits2_quotient q :
  0 ≤ q → 0 ≤ Zdigits2 q ∧ q < 2 ^ Zdigits2 q ∧ (0 < Zdigits2 q → 2 ^ (Zdigits2 q - 1) ≤ q).
Proof.
  intros Hq. destruct q as [|p|p]; [done| |lia]. rewrite Zdigits2_log2.
  pose proof (Z.log2_nonneg (Zpos p)). pose proof (Z.log2_spec (Zpos p) ltac:(lia)) as [Hl Hu].
  split; [lia|]. split; [by rewrite Z.add_1_r|].
  intros _. by replace (Z.log2 (Zpos p) + 1 - 1) with (Z.log2 (Zpos p)) by lia.
Qed.

Lemma round_aux_finish sx N D e :
  0 ≤ N → 0 < D → e ≤ fexp64 (Zdigits2 (N / D) + e) →
  let e' := fexp64 (Zdigits2 (N / D) + e) in
  binary_round_aux prec emax sx (N / D) e (new_location D (N mod D))
  = round_finish sx (div_half_even N (D * 2 ^ (e' - e))) e'.
Proof.
  intros HN HD He e'. unfold binary_round_aux, round_finish. unfold shr_fexp at 1. fold e'.
  assert (∀ k r, (k = 0%nat → r = shr_record_of_loc (N / D) (new_location D (N mod D))) →
    r = Nat.iter k shr_1 (shr_record_of_loc (N / D) (new_location D (N mod D))) →
    round_nearest_even (shr_m r) (loc_of_shr_record r) = div_half_even N (D * 2 ^ Z.of_nat k)) as K.
  { intros k r _ ->. apply shifted_q_round; [done|]. apply shifted_q_iter; [done..|]. by apply new_location_spec. }
  destruct (e' - e) as [|k|k] eqn:Ek; [| |unfold e' in *; lia]; unfold shr.
  - rewrite (K 0%nat) by done. replace e with e' by lia. done.
  - rewrite iter_pos_nat. rewrite (K (Pos.to_nat k)); [|lia|done].
    rewrite positive_nat_Z. by replace (e + Zpos k) with e' by lia.
Qed.

Lemma place_quotient N D e a :
  0 ≤ N → 0 < D → 0 ≤ a → 0 ≤ a - (e + 1074) → 0 < N / D ∨ e ≤ -1074 →
  place (N * 2 ^ a) (D * 2 ^ (a - (e + 1074))) = fexp64 (Zdigits2 (N / D) + e) + 1074.
Proof.
  intros HN HD Ha Hb Hz. rewrite fexp64_eq. unfold place.
  set (q := N / D). set (dq := Zdigits2 q). set (x := N * 2 ^ a / _).
  assert (0 < 2 ^ a) as Hpa by (apply Z.pow_pos_nonneg; lia).
  assert (0 < D * 2 ^ (a - (e + 1074))) as Hpd by (apply Z.mul_pos_pos; [done|apply Z.pow_pos_nonneg; lia]).
  destruct (Zdigits2_quotient q) as (Hd & Hu & Hl); [by apply Z.div_pos|]. fold dq in Hd, Hu, Hl.
  assert (N < 2 ^ dq * D) as HNu.
  { pose proof (Z.div_mod N D ltac:(lia)). pose proof (Z.mod_pos_bound N D HD). fold q in H. nia. }
  assert (∀ p, 0 ≤ p → dq + e + 1074 ≤ p → x < 2 ^ p) as Ux.
  { intros p Hp Hle. apply Z.div_lt_upper_bound; [done|].
    apply Z.lt_le_trans with (2 ^ dq * D * 2 ^ a); [nia|].
    replace (D * 2 ^ (a - (e + 1074)) * 2 ^ p) with (D * 2 ^ (a - (e + 1074) + p)) by (rewrite Z.pow_add_r by lia; ring).
    replace (2 ^ dq * D * 2 ^ a) with (D * 2 ^ (dq + a)) by (rewrite Z.pow_add_r by lia; ring).
    apply Z.mul_le_mono_nonneg_l; [lia|]. apply Z.pow_le_mono_r; lia. }
  assert (0 ≤ x) as Hx by (apply Z.div_pos; [apply Z.mul_nonneg_nonneg|]; lia).
  destruct (Z.le_gt_cases (dq + e - 53) (-1074)) as [Hs|Hs].
  - rewrite (Z.max_r (dq + e - 53)) by lia. rewrite Z.max_r; [lia|].
    specialize (Ux 53 ltac:(lia) ltac:(lia)).
    destruct (Z.eq_dec x 0) as [->|]; [done|]. assert (Z.log2 x < 53) by (apply Z.log2_lt_pow2; lia). lia.
  - rewrite (Z.max_l (dq + e - 53)) by lia. assert (0 < dq) as Hdq.
    { destruct Hz as [Hz|Hz]; [|lia]. fold q in Hz. destruct (Z.eq_dec dq 0) as [E0|]; [|lia].
      rewrite E0 in Hu. change (2 ^ 0) with 1 in Hu. lia. }
    assert (Z.log2 x = dq + e + 1073) as ->; [|lia].
    apply Z.log2_unique; [lia|]. rewrite <- Z.add_1_r. split; [|apply Ux; lia].
    apply Z.div_le_lower_bound; [done|]. specialize (Hl Hdq).
    assert (2 ^ (dq - 1) * D ≤ N) as HNl.
    { pose proof (Z.div_mod N D ltac:(lia)). pose proof (Z.mod_pos_bound N D HD). fold q in H. nia. }
    replace (D * 2 ^ (a - (e + 1074)) * 2 ^ (dq + e + 1073)) with (D * 2 ^ (dq - 1) * 2 ^ a)
      by (rewrite <- !Z.mul_assoc, <- !Z.pow_add_r by lia; do 2 f_equal; lia). nia.
Qed.

Lemma round_fraction sx N D e a :
  0 ≤ N → 0 < D → 0 ≤ a → 0 ≤ a - (e + 1074) → 0 < N / D ∨ e ≤ -1074 →
  e ≤ fexp64 (Zdigits2 (N / D) + e) →
  let f := binary_round_aux prec emax sx (N / D) e (new_location D (N mod D)) in
  SFval f = cond_Zopp sx (Z.min fmax_val (rndq (N * 2 ^ a) (D * 2 ^ (a - (e + 1074))))) ∧
  f ≠ S754_nan ∧ valid_binary f = true.
Proof.
  intros HN HD Ha Hb Hz He f. unfold f. rewrite round_aux_finish by done.
  unfold rndq. rewrite place_quotient by done. rewrite fexp64_eq in *.
  set (q := N / D) in *. set (dq := Zdigits2 q) in *.
  destruct (Zdigits2_quotient q) as (Hd & Hu & Hl); [by apply Z.div_pos|]. fold dq in Hd, Hu, Hl.
  pose proof (Z.div_mod N D ltac:(lia)) as Dm. pose proof (Z.mod_pos_bound N D HD) as Bm. fold q in Dm.
  set (e' := Z.max (dq + e - 53) (-1074)) in *. set (k := e' - e).
  assert (0 < 2 ^ k) as Hk by (apply Z.pow_pos_nonneg; lia).
  assert (D * 2 ^ (a - (e + 1074)) * 2 ^ (e' + 1074) = D * 2 ^ k * 2 ^ a) as ->
    by (rewrite <- !Z.mul_assoc, <- !Z.pow_add_r by lia; do 2 f_equal; lia).
  rewrite div_half_even_scale by (try apply Z.pow_pos_nonneg; try apply Z.mul_pos_pos; lia).
  assert (∀ p, 0 ≤ p → (2 ^ (p + k) * D ≤ N → 2 ^ p ≤ div_half_even N (D * 2 ^ k)) ∧
    (N ≤ 2 ^ (p + k) * D → div_half_even N (D * 2 ^ k) ≤ 2 ^ p)) as K.
  { intros p Hp. replace (2 ^ (p + k) * D) with (2 ^ p * (D * 2 ^ k)) by (rewrite Z.pow_add_r by lia; ring).
    pose proof (div_half_even_exact (2 ^ p) (D * 2 ^ k) ltac:(nia)) as Ex.
    split; intros H; rewrite <- Ex; (apply div_half_even_mono; [nia|done]). }
  apply round_finish_spec; [|lia|].
  - split.
    + rewrite <- (div_half_even_0 (D * 2 ^ k)) by nia. apply div_half_even_mono; nia.
    + apply (K 53); [lia|]. apply Z.le_trans with (2 ^ dq * D); [nia|].
      apply Z.mul_le_mono_nonneg_r; [lia|]. apply Z.pow_le_mono_r; lia.
  - intros Hn. apply (K 52); [lia|]. replace (52 + k) with (dq - 1) by lia.
    assert (0 < dq) as Hdq by (destruct Hz as [Hz|Hz]; [|lia]; fold q in Hz; destruct (Z.eq_dec dq 0) as [E0|]; [rewrite E0 in Hu; change (2 ^ 0) with 1 in Hu; lia|lia]).
    specialize (Hl Hdq). nia.
Qed.

(** Division of finite floats rounds the exact quotient. *)
Lemma fval_div x y :
  isfinite x = true → isfinite y = true → 0 < fval y →
  fval (PrimFloat.div x y) = Rndq (fval x * 2 ^ 1074) (fval y) ∧ num (PrimFloat.div x y).
Proof.
  rewrite !isfinite_SF. intros Hx Hy. rewrite num_spec. unfold fval.
  rewrite FloatAxioms.div_spec. unfold SF64div.
  pose proof (Prim2SF_valid x) as Vx. pose proof (Prim2SF_valid y) as Vy.
  destruct Hy as [[sy Ey]|(sy&my&ey&Ey)]; rewrite Ey in *; [done|]. intros Hp.
  destruct sy; [by exfalso; cbn [SFval cond_Zopp] in Hp; pose proof (Z.pow_nonneg 2 (ey + 1074)); lia|].
  cbn [SFval cond_Zopp] in Hp |- *. apply bounded_spec in Vy as (Hey & Hmy & Hby).
  destruct Hx as [[sx Ex]|(sx&mx&ex&Ex)]; rewrite Ex in *.
  { cbn [SFdiv SFval]. split; [|done]. rewrite Z.mul_0_l. symmetry. by apply Rndq_0. }
  apply bounded_spec in Vx as (Hex & Hmx & Hbx). cbn [SFdiv SFval]. unfold SFdiv_core_binary.
  rewrite !Zdigits2_log2.
  set (dx := Z.log2 (Zpos mx)). set (dy := Z.log2 (Zpos my)).
  set (e := Z.min _ (ex - ey)).
  assert (e = Z.min (Z.max (dx + 1 + ex - (dy + 1 + ey) - 53) (-1074)) (ex - ey)) as Ee by (unfold e; by rewrite fexp64_eq).
  clearbody e. set (s := ex - ey - e). assert (0 ≤ s) as Hs by lia.
  assert (match s with Z0 => Zpos mx | Zpos _ => Z.shiftl (Zpos mx) s | Zneg _ => 0 end = Zpos mx * 2 ^ s) as ->.
  { destruct s; [lia|by rewrite Z.shiftl_mul_pow2 by lia|lia]. }
  set (N := Zpos mx * 2 ^ s).
  assert (0 < 2 ^ s) as Hps by (apply Z.pow_pos_nonneg; lia).
  rewrite (surjective_pairing (Z.div_eucl N (Zpos my))).
  change (fst (Z.div_eucl N (Zpos my))) with (N / Zpos my).
  change (snd (Z.div_eucl N (Zpos my))) with (N mod Zpos my).
  pose proof (Z.log2_spec (Zpos mx) ltac:(lia)) as [Lx Ux]. pose proof (Z.log2_spec (Zpos my) ltac:(lia)) as [Ly Uy].
  fold dx in Lx, Ux. fold dy in Ly, Uy.
  pose proof (Z.log2_nonneg (Zpos mx)). pose proof (Z.log2_nonneg (Zpos my)).
  assert (-1074 < e → 2 ^ 52 ≤ N / Zpos my) as Hq.
  { intros He. assert (dy + 53 ≤ dx + s) as Hsum by lia.
    apply Z.div_le_lower_bound; [lia|]. apply Z.le_trans with (2 ^ (dx + s)).
    - apply Z.le_trans with (2 ^ (dy + 53)); [|apply Z.pow_le_mono_r; lia].
      replace (dy + 53) with (Z.succ dy + 52) by lia. rewrite Z.pow_add_r by lia. nia.
    - unfold N. rewrite Z.pow_add_r by lia. nia. }
  destruct (round_fraction (xorb sx false) N (Zpos my) e (ey + e + 2148)) as (Hv & Hn & _);
    [unfold N; nia|lia|lia|lia| | |].
  - destruct (Z.le_gt_cases e (-1074)); [by right|left]. specialize (Hq ltac:(lia)). lia.
  - rewrite fexp64_eq. destruct (Z.le_gt_cases e (-1074)); [lia|]. specialize (Hq ltac:(lia)).
    destruct (Zdigits2_quotient (N / Zpos my)) as (Hd & Hu & _); [lia|].
    assert (52 < Zdigits2 (N / Zpos my)); [|lia]. apply (Z.pow_lt_mono_r_iff 2); lia.
  - split; [|done]. rewrite Hv. replace (ey + e + 2148 - (e + 1074)) with (ey + 1074) by lia.
    assert (N * 2 ^ (ey + e + 2148) = Zpos mx * 2 ^ (ex + 1074) * 2 ^ 1074) as ->.
    { unfold N. rewrite <- !Z.mul_assoc, <- !Z.pow_add_r by lia. do 2 f_equal. lia. }
    assert (0 < Zpos mx * 2 ^ (ex + 1074)) as Hpx by (apply Z.mul_pos_pos; [lia|apply Z.pow_pos_nonneg; lia]).
    rewrite xorb_false_r. assert (0 < 2 ^ 1074) by done. rewrite <- cond_Zopp_mul.
    assert (∀ n, 0 < n → Z.min fmax_val (rndq n (Zpos my * 2 ^ (ey + 1074))) = Rndq n (Zpos my * 2 ^ (ey + 1074))) as ->.
    { intros n Hn0. unfold Rndq. destruct (Z.ltb_spec n 0); [lia|done]. }
    2: { by apply Z.mul_pos_pos. }
    destruct sx; cbn [cond_Zopp]; [|done]. by rewrite Rndq_opp.
Qed.

(** ** Consequences *)

Lemma fdiv_mono x x' y :
  isfinite x = true → isfinite x' = true → isfinite y = true → 0 < fval y →
  fval x ≤ fval x' → fle (PrimFloat.div x y) (PrimFloat.div x' y) = true.
Proof.
  intros Fx Fx' Fy Hy H. destruct (fval_div x y Fx Fy Hy) as [V N]. destruct (fval_div x' y Fx' Fy Hy) as [V' N'].
  apply fle_val; [done..|]. rewrite V, V'. apply Rndq_mono; [done|].
  apply Z.mul_le_mono_nonneg_r; [by apply Z.pow_nonneg|done].
Qed.

(** A number over itself. *)
Lemma fdiv_self x : isfinite x = true → 0 < fval x → fval (PrimFloat.div x x) = fval 1%float.
Proof.
  intros Fx Hx. destruct (fval_div x x Fx Fx Hx) as [-> _]. rewrite Z.mul_comm.
  apply Rndq_exact; [done|]. by exists 1, 1074.
Qed.

(** The difference of two numbers that are not negative is finite. *)
Lemma fsub_finite x y :
  isfinite x = true → isfinite y = true → 0 ≤ fval x → 0 ≤ fval y →
  isfinite (PrimFloat.sub x y) = true ∧ fval (PrimFloat.sub x y) = Rnd ((fval x - fval y) * 2 ^ 1074).
Proof.
  intros Fx Fy Hx Hy. destruct (fval_sub x y Fx Fy) as [V N]. split; [|done].
  apply isfinite_fval. split; [done|]. rewrite V.
  pose proof (proj1 (isfinite_fval x) Fx) as [_ Bx]. pose proof (proj1 (isfinite_fval y) Fy) as [_ By].
  pose proof (Rnd_exact _ (fval_representable x Fx)) as Ex. pose proof (Rnd_exact _ (fval_representable y Fy)) as Ey.
  assert (0 < 2 ^ 1074) as H74 by done.
  pose proof (Rnd_mono ((fval x - fval y) * 2 ^ 1074) (fval x * 2 ^ 1074) ltac:(nia)).
  pose proof (Rnd_mono (- (fval y * 2 ^ 1074)) ((fval x - fval y) * 2 ^ 1074) ltac:(nia)) as Hl.
  rewrite Rnd_opp in Hl. lia.
Qed.

(** Beyond the largest double everything rounds to infinity. *)
Lemma Rnd_top n : fmax_val * 2 ^ 1074 ≤ n → Rnd n = fmax_val.
Proof.
  intros Hn. assert (rnd (1 * 2 ^ 2098 * 2 ^ 1074) = 1 * 2 ^ 2098) as E by (apply rnd_exact; lia).
  rewrite Z.mul_1_l in E. fold fmax_val in E. assert (0 < 2 ^ 1074) as H by done. assert (0 < fmax_val) as H' by done.
  pose proof (Z.mul_pos_pos _ _ H' H) as Hp.
  pose proof (rnd_mono (fmax_val * 2 ^ 1074) n (Z.lt_le_incl _ _ Hp) Hn) as Hm. rewrite E in Hm.
  unfold Rnd. destruct (Z.ltb_spec n 0) as [Hneg|]; [|lia].
  exfalso. apply (Z.lt_irrefl 0). eapply Z.lt_le_trans; [exact Hp|]. by apply Z.lt_le_incl, (Z.le_lt_trans _ n).
Qed.

(** Multiplication by a finite number of at least one, infinities included. *)
Lemma fval_mul_ge1 x c :
  num x → isfinite c = true → 2 ^ 1074 ≤ fval c →
  fval (PrimFloat.mul x c) = Rnd (fval x * fval c) ∧ num (PrimFloat.mul x c).
Proof.
  intros N Fc Hc. destruct (isfinite x) eqn:Fx; [by apply fval_mul|].
  assert (∃ s, Prim2SF x = S754_infinity s) as [s Es].
  { apply isinf_SF. apply num_spec in N. apply not_true_iff_false in Fx. rewrite isfinite_SF in Fx.
    apply isinf_SF. destruct (Prim2SF x) as [s|s| |s m e]; [|by eexists|done|]; exfalso; apply Fx; eauto 8. }
  apply isfinite_SF in Fc. rewrite num_spec. unfold fval in *. rewrite FloatAxioms.mul_spec. unfold SF64mul.
  rewrite Es. destruct Fc as [[sc Ec]|(sc&mc&ec&Ec)]; rewrite Ec in *; [exfalso; cbn in Hc; assert (0 < 2 ^ 1074) by done; lia|].
  assert (0 < 2 ^ 1074) as H74 by done.
  destruct sc; [exfalso; cbn [SFval cond_Zopp] in Hc; pose proof (Z.pow_nonneg 2 (ec + 1074)); lia|].
  cbn [SFmul SFval]. rewrite xorb_false_r. split; [|done].
  cbn [SFval cond_Zopp] in Hc |- *. set (w := Zpos mc * _) in *. clearbody w.
  assert (fmax_val * 2 ^ 1074 ≤ fmax_val * w) as Hw by (by apply Z.mul_le_mono_nonneg_l).
  destruct s; cbn [cond_Zopp]; [rewrite Z.mul_opp_l, Rnd_opp|]; by rewrite Rnd_top.
Qed.

(** Division of integers: an integer close to the exact quotient is rounded. *)
Lemma truediv_near a b :
  0 ≤ a → 0 < b < 2 ^ 900 →
  ∃ N, 0 ≤ N ∧ Z.abs (N * b - a * 2 ^ 2148) ≤ a * 2 ^ 2082 ∧ fval (truediv a b) = Rnd N ∧ num (truediv a b).
Proof.
  intros Ha [Hb Hb9]. unfold truediv.
  rewrite (proj2 (Z.ltb_ge a 0)), (proj2 (Z.ltb_ge b 0)), !Z.abs_eq by lia. cbn [xorb].
  assert (Z.log2 b < 900) as Hl by (apply Z.log2_lt_pow2; lia).
  pose proof (Z.log2_nonneg b). pose proof (Z.log2_nonneg a).
  set (k := Z.max 0 (66 + Z.log2 b - Z.log2 a)). assert (0 ≤ k ≤ 966) as Hk by lia.
  set (q := a * 2 ^ k / b). set (r := (a * 2 ^ k) mod b).
  pose proof (Z.div_mod (a * 2 ^ k) b ltac:(lia)) as Dm. pose proof (Z.mod_pos_bound (a * 2 ^ k) b Hb) as Br.
  fold q r in Dm. fold r in Br. assert (0 < 2 ^ k) as Hpk by (apply Z.pow_pos_nonneg; lia).
  assert (0 ≤ q) as Hq by (apply Z.div_pos; nia).
  set (s := if r =? 0 then 0 else 1).
  destruct (binary_normalize_spec (2 * q + s) (- k - 1) false) as (V & Nn & Vb); [lia|].
  set (W := 2 ^ (- k - 1 + 2148)) in V. assert (0 < W) as HW by (apply Z.pow_pos_nonneg; lia).
  assert (2 ^ k * (2 * W) = 2 ^ 2148) as EW.
  { unfold W. replace (2 * 2 ^ (- k - 1 + 2148)) with (2 ^ (Z.succ (- k - 1 + 2148))) by (rewrite Z.pow_succ_r by lia; done).
    rewrite <- Z.pow_add_r by lia. f_equal. lia. }
  exists ((2 * q + s) * W). split; [unfold s; case_match; nia|]. split.
  - assert ((2 * q + s) * W * b - a * 2 ^ 2148 = W * (s * b - 2 * r)) as ->
      by (rewrite <- EW; replace (a * (2 ^ k * (2 * W))) with (a * 2 ^ k * (2 * W)) by ring; rewrite Dm; ring).
    unfold s. destruct (Z.eqb_spec r 0) as [E|E]; [rewrite E, !Z.mul_0_l, Z.mul_0_r; cbn; assert (0 < 2 ^ 2082) by done; nia|].
    assert (0 < a) as Ha0 by (destruct (Z.eq_dec a 0) as [->|]; [rewrite Z.mul_0_l in *; unfold r in E; rewrite Z.mod_0_l in E; lia|lia]).
    assert (Z.abs (W * (1 * b - 2 * r)) ≤ W * b) as Hab by nia.
    etransitivity; [exact Hab|].
    pose proof (Z.log2_spec a Ha0) as [La _]. pose proof (Z.log2_spec b Hb) as [_ Ub].
    assert (b * W ≤ 2 ^ (Z.succ (Z.log2 b) - k - 1 + 2148)) as H1.
    { replace (Z.succ (Z.log2 b) - k - 1 + 2148) with (Z.succ (Z.log2 b) + (- k - 1 + 2148)) by lia.
      rewrite Z.pow_add_r by lia. apply Z.mul_le_mono_nonneg_r; [lia|]. unfold W in *. lia. }
    assert (2 ^ (Z.succ (Z.log2 b) - k - 1 + 2148) ≤ 2 ^ (Z.log2 a + 2082)) as H2 by (apply Z.pow_le_mono_r; lia).
    rewrite (Z.pow_add_r 2 (Z.log2 a)) in H2 by lia. nia.
  - unfold fval. rewrite num_spec, Prim2SF_SF2Prim by done. done.
Qed.
