(* ===== verification/Hashing.v ===== *)
(** * 64-bit hashing

    The hash functions shared by the Count-Min Sketch and the HyperLogLog
    ([core/cms.py], [core/hll.py]): FNV-1a over bytes, the murmur finaliser
    and the splitmix64 seed sequence.  Every arithmetic step wraps at 64 bits
    where the source masks with [0xFFFFFFFFFFFFFFFF]. *)

From Stdlib Require Import Ascii String.
From S2P Require Import Prelude.

#[local] Open Scope Z_scope.
#[local] Open Scope py_scope.

(** A [str] is represented by the bytes of its UTF-8 encoding. *)
Definition encode_utf8 (s : string) : list Z :=
  (λ a, Z.of_nat (nat_of_ascii a)) <$> list_ascii_of_string s.

(** [EventKey = Union[str, bytes, int]] *)
Inductive event_key : Type :=
| KStr (s : string)
| KBytes (b : list Z)
| KInt (z : Z).

#[export] Instance event_key_eq_dec : EqDecision event_key.
Proof. solve_decision. Defined.

(** The loop of [_key_from_bytes] and of [_hash_bytes] (FNV-1a). *)
Definition fnv1a (data : list Z) : Z :=
  foldl (λ h b, mask64 (Z.lxor h b * 0x100000001b3)) 0xcbf29ce484222325 data.

(** The murmur finaliser, after the initial mask. *)
Definition murmur_finalizer (h : Z) : Z :=
  let h := mask64 h in
  let h := Z.lxor h (Z.shiftr h 33) in
  let h := mask64 (h * 0xff51afd7ed558ccd) in
  let h := Z.lxor h (Z.shiftr h 33) in
  let h := mask64 (h * 0xc4ceb9fe1a85ec53) in
  Z.lxor h (Z.shiftr h 33).

(** One splitmix64 step: the next state and the output. *)
Definition splitmix64 (state : Z) : Z * Z :=
  let state := mask64 (state + 0x9e3779b97f4a7c15) in
  let z := state in
  let z := mask64 (Z.lxor z (Z.shiftr z 30) * 0xbf58476d1ce4e5b9) in
  let z := mask64 (Z.lxor z (Z.shiftr z 27) * 0x94d049bb133111eb) in
  (state, Z.lxor z (Z.shiftr z 31)).

Fixpoint splitmix_seq (n : nat) (state : Z) : list Z :=
  match n with
  | O => []
  | S n' => let '(state', z) := splitmix64 state in z :: splitmix_seq n' state'
  end.

(** ** Ranges *)

(** A value fits in 64 bits. *)
Definition u64 (x : Z) : Prop := 0 ≤ x < 2 ^ 64.

Lemma u64_testbit x :
  0 ≤ x → u64 x ↔ ∀ i, 64 ≤ i → Z.testbit x i = false.
Proof.
  intros Hx. split.
  - intros [_ Hlt] i Hi. destruct (decide (x = 0)) as [->|Hn].
    { apply Z.testbit_0_l. }
    apply Z.bits_above_log2; [done|].
    assert (Z.log2 x < 64) by (apply Z.log2_lt_pow2; lia). lia.
  - intros H. split; [done|].
    destruct (decide (x = 0)) as [->|Hn]; [lia|].
    apply Z.log2_lt_pow2; [lia|].
    destruct (Z.lt_ge_cases (Z.log2 x) 64) as [|Hge]; [done|].
    pose proof (H _ Hge) as Hb. rewrite Z.bit_log2 in Hb by lia. done.
Qed.

Lemma u64_mask x : u64 (mask64 x).
Proof. apply mask64_range. Qed.

Lemma u64_shiftr x n : 0 ≤ n → u64 x → u64 (Z.shiftr x n).
Proof.
  intros Hn [H1 H2]. unfold u64. rewrite Z.shiftr_div_pow2 by done.
  assert (0 < 2 ^ n) by (apply Z.pow_pos_nonneg; lia).
  split; [apply Z.div_pos; lia|].
  apply Z.le_lt_trans with x; [|done]. apply Z.div_le_upper_bound; nia.
Qed.

Lemma u64_lxor x y : u64 x → u64 y → u64 (Z.lxor x y).
Proof.
  intros Hx Hy.
  assert (0 ≤ Z.lxor x y) as Hn.
  { apply Z.lxor_nonneg. destruct Hx, Hy. tauto. }
  apply u64_testbit; [done|]. intros i Hi. rewrite Z.lxor_spec.
  rewrite (proj1 (u64_testbit x (proj1 Hx)) Hx i Hi).
  by rewrite (proj1 (u64_testbit y (proj1 Hy)) Hy i Hi).
Qed.

#[export] Hint Resolve u64_mask u64_shiftr u64_lxor : py.

Lemma murmur_finalizer_u64 h : u64 (murmur_finalizer h).
Proof. unfold murmur_finalizer. auto 10 with py lia. Qed.

Lemma fnv1a_u64 data : u64 (fnv1a data).
Proof.
  unfold fnv1a. destruct data as [|b data] using rev_ind; [done|].
  rewrite foldl_app. simpl. apply u64_mask.
Qed.

Lemma splitmix64_u64 s : u64 (snd (splitmix64 s)).
Proof. simpl. auto 10 with py lia. Qed.

Lemma splitmix_seq_length n s : length (splitmix_seq n s) = n.
Proof. revert s. induction n; intros; simpl; auto. Qed.

#[export] Hint Resolve murmur_finalizer_u64 fnv1a_u64 : py.
