(* ===== verification/CountMin.v ===== *)
(** * Count-Min Sketch

    [core/cms.py]: the table of counters, its hash columns, [add], [estimate],
    [reset], and the cell-wise merge of [facade.py].  The central result is
    that the table is a function of the ingested events: each cell is the sum
    of the counts of the events hashed to it, so an estimate is never below
    the true frequency and never above the total. *)

From S2P Require Import Prelude Hashing.

#[local] Open Scope Z_scope.
#[local] Open Scope py_scope.

(** ** State and operations *)

Record cms := Cms {
  cms_width : Z;
  cms_depth : Z;
  cms_table : list (list Z);
  cms_total : Z;
  cms_seeds : list Z
}.

Definition set_cms_table (t : list (list Z)) (c : cms) : cms :=
  Cms (cms_width c) (cms_depth c) t (cms_total c) (cms_seeds c).
Definition set_cms_total (n : Z) (c : cms) : cms :=
  Cms (cms_width c) (cms_depth c) (cms_table c) n (cms_seeds c).

Definition zero_table (width depth : Z) : list (list Z) :=
  replicate (Z.to_nat depth) (replicate (Z.to_nat width) 0).

Definition cms_init (width depth : Z) : res cms :=
  let? _ := fail_if (width <=? 0)
      (ValueError "CountMinSketch width must be > 0") in
  let? _ := fail_if (depth <=? 0)
      (ValueError "CountMinSketch depth must be > 0") in
  Ok (Cms width depth (zero_table width depth) 0
        (splitmix_seq (Z.to_nat depth) 42)).

(** [_hash] *)
Definition cms_hash (key seed : Z) : Z := murmur_finalizer (Z.lxor key seed).

(** [_key_from_bytes] *)
Definition key_from_bytes (data : list Z) : Z := fnv1a data.

(** The key of an item: an [int] is its own key. *)
Definition cms_key (item : event_key) : Z :=
  match item with
  | KInt z => z
  | KStr s => key_from_bytes (encode_utf8 s)
  | KBytes b => key_from_bytes b
  end.

(** [self._hash(key, self._seeds[i]) % self._width] *)
Definition cms_column (c : cms) (key i : Z) : res Z :=
  let? seed := py_index (cms_seeds c) i in
  Ok (cms_hash key seed mod cms_width c).

(** [self._table[i][col]] *)
Definition cms_cell (t : list (list Z)) (i col : Z) : res Z :=
  let? row := py_index t i in py_index row col.

(** [self._table[i][col] += count] *)
Definition cms_bump (count i col : Z) : M cms unit :=
  c <- mget ;;
  t <- mlift (
    let? row := py_index (cms_table c) i in
    let? v := py_index row col in
    let? row' := py_setitem row col (v + count) in
    py_setitem (cms_table c) i row') ;;
  mmodify (set_cms_table t).

Definition cms_add (item : event_key) (count : Z) : M cms unit :=
  raise_if (count <=? 0)
    (ValueError "Event count must be strictly positive") ;;;
  raise_if (MAX_INT64 <? count)
    (OverflowError "Event count exceeds int64 capacity") ;;;
  c <- mget ;;
  let key := cms_key item in
  raise_if (MAX_INT64 - count <? cms_total c)
    (OverflowError "CountMinSketch: total_count overflow") ;;;
  columns <- mlift (res_mapM (cms_column c key) (py_range (cms_depth c))) ;;
  full <- mlift (res_any
    (λ '(i, col), let? v := cms_cell (cms_table c) i col in
                  Ok (MAX_INT64 - count <? v))
    (py_enumerate columns)) ;;
  raise_if full
    (OverflowError "CountMinSketch: bucket counter overflow") ;;;
  mfor (py_enumerate columns) (λ '(i, col), cms_bump count i col) ;;;
  mmodify (λ c, set_cms_total (cms_total c + count) c).

(** [estimate]; the running minimum starts at [float('inf')], [None] here. *)
Definition cms_estimate (c : cms) (item : event_key) : res Z :=
  let key := cms_key item in
  let? result := res_fold
    (λ (acc : option Z) i,
       let? col := cms_column c key i in
       let? v := cms_cell (cms_table c) i col in
       Ok (Some (match acc with None => v | Some a => Z.min a v end)))
    (py_range (cms_depth c)) None in
  match result with
  | Some n => Ok n
  | None => Raise (OverflowError "cannot convert float infinity to integer")
  end.

Definition cms_memory_bytes (c : cms) : Z := 64 + cms_width c * cms_depth c * 8.

Definition cms_reset : M cms unit :=
  mmodify (λ c, set_cms_total 0
    (set_cms_table (zero_table (cms_width c) (cms_depth c)) c)).

(** The merge loop of [_PythonStreamLog.merge] over two tables. *)
Definition cms_merge_row (left right : list Z) : res (list Z) :=
  res_mapM (λ '(l, r),
    if MAX_INT64 - r <? l
    then Raise (OverflowError "CountMinSketch: bucket counter overflow")
    else Ok (l + r)) (zip left right).
Definition cms_merge_tables (t u : list (list Z)) : res (list (list Z)) :=
  res_mapM (λ '(a, b), cms_merge_row a b) (zip t u).

(** ** Well-formedness *)

Definition row_wf (width total : Z) (row : list Z) : Prop :=
  Z.of_nat (length row) = width ∧ Forall (λ v, 0 ≤ v) row ∧ sum_Z row = total.

Record cms_wf (c : cms) : Prop := {
  wf_width : 0 < cms_width c;
  wf_depth : 0 < cms_depth c;
  wf_rows : Z.of_nat (length (cms_table c)) = cms_depth c;
  wf_seeds : cms_seeds c = splitmix_seq (Z.to_nat (cms_depth c)) 42;
  wf_total : 0 ≤ cms_total c ≤ MAX_INT64;
  wf_table : Forall (row_wf (cms_width c) (cms_total c)) (cms_table c)
}.

(** The column of [key] in row [i] of a well-formed sketch. *)
Definition col_of (c : cms) (key : Z) (seed : Z) : nat :=
  Z.to_nat (cms_hash key seed mod cms_width c).

Lemma cms_init_wf w d c : cms_init w d = Ok c → cms_wf c.
Proof.
  unfold cms_init. destruct (w <=? 0) eqn:Hw; [done|].
  destruct (d <=? 0) eqn:Hd; [done|]. intros [= <-].
  apply Z.leb_gt in Hw, Hd. split; simpl; unfold zero_table; try lia; try done.
  - rewrite length_replicate. lia.
  - apply Forall_replicate. split; [|split].
    + rewrite length_replicate. lia.
    + by apply Forall_replicate.
    + rewrite sum_Z_replicate. lia.
Qed.

Lemma py_range_lookup n (i : nat) x :
  py_range n !! i = Some x ↔ x = Z.of_nat i ∧ Z.of_nat i < n.
Proof. unfold py_range. rewrite lookup_seqZ. lia. Qed.

Lemma elem_of_py_range n x : x ∈ py_range n ↔ 0 ≤ x < n.
Proof. unfold py_range. rewrite elem_of_seqZ. lia. Qed.

Lemma elem_of_py_enumerate {A} (l : list A) i a :
  (i, a) ∈ py_enumerate l ↔ 0 ≤ i ∧ l !! Z.to_nat i = Some a.
Proof.
  unfold py_enumerate. rewrite elem_of_lookup_imap. split.
  - intros (n & y & [= -> ->] & H). rewrite Nat2Z.id. split; [lia|done].
  - intros [Hi H]. exists (Z.to_nat i), a. rewrite Z2Nat.id by lia. done.
Qed.

Section wf_facts.
Context (c : cms) (W : cms_wf c).

Lemma col_of_lt key seed row :
  row_wf (cms_width c) (cms_total c) row →
  (col_of c key seed < length row)%nat.
Proof using W.
  intros (Hl & _ & _). unfold col_of.
  pose proof (Z.mod_pos_bound (cms_hash key seed) (cms_width c) (wf_width c W)).
  lia.
Qed.

Lemma wf_row_seed (i : nat) row :
  cms_table c !! i = Some row →
  row_wf (cms_width c) (cms_total c) row ∧
  ∃ seed, cms_seeds c !! i = Some seed.
Proof using W.
  intros Hi. split.
  - by apply (Forall_lookup_1 _ _ _ _ (wf_table c W) Hi).
  - apply lookup_lt_is_Some. rewrite (wf_seeds c W), splitmix_seq_length.
    apply lookup_lt_Some in Hi. pose proof (wf_rows c W). lia.
Qed.

Lemma cms_columns_ok key :
  res_mapM (cms_column c key) (py_range (cms_depth c)) =
  Ok ((λ seed, Z.of_nat (col_of c key seed)) <$> cms_seeds c).
Proof using W.
  rewrite (res_mapM_ok _ (λ i, Z.of_nat (col_of c key
    (default 0 (cms_seeds c !! Z.to_nat i))))).
  - f_equal. apply list_eq. intros i. rewrite !list_lookup_fmap.
    destruct (py_range (cms_depth c) !! i) as [x|] eqn:E; simpl.
    + apply py_range_lookup in E as [-> E].
      destruct (cms_seeds c !! i) as [s|] eqn:Es; simpl.
      * by rewrite Nat2Z.id, Es.
      * apply lookup_ge_None in Es.
        rewrite (wf_seeds c W), splitmix_seq_length in Es. lia.
    + apply lookup_ge_None in E. unfold py_range in E.
      rewrite length_seqZ in E. symmetry.
      rewrite (lookup_ge_None_2 (cms_seeds c)); [done|].
      rewrite (wf_seeds c W), splitmix_seq_length. lia.
  - intros i Hi%elem_of_py_range. unfold cms_column.
    destruct (lookup_lt_is_Some_2 (cms_seeds c) (Z.to_nat i)) as [s Hs].
    { rewrite (wf_seeds c W), splitmix_seq_length. lia. }
    rewrite (py_index_lookup _ i s), Hs by (lia || done). simpl.
    f_equal. unfold col_of. rewrite Z2Nat.id; [done|].
    apply Z.mod_pos_bound, W.
Qed.

Lemma cms_cell_ok key (i : nat) seed row :
  cms_table c !! i = Some row →
  ∃ v, row !! col_of c key seed = Some v ∧
       cms_cell (cms_table c) (Z.of_nat i) (Z.of_nat (col_of c key seed)) = Ok v ∧
       0 ≤ v ≤ cms_total c.
Proof using W.
  intros Hi. destruct (wf_row_seed i row Hi) as [Hr _].
  destruct (lookup_lt_is_Some_2 row _ (col_of_lt key seed row Hr)) as [v Hv].
  exists v. split; [done|]. split.
  - unfold cms_cell. rewrite (py_index_nat _ i row) by done. simpl.
    by apply py_index_nat.
  - destruct Hr as (_ & Hnn & <-). split.
    + by apply (Forall_lookup_1 _ _ _ _ Hnn Hv).
    + by eapply sum_Z_elem_le.
Qed.
End wf_facts.

(** ** The effect of [add] *)

Definition bump_row (n : Z) (row : list Z) (col : nat) : list Z :=
  <[col := default 0 (row !! col) + n]> row.

(** The state after a successful [add]. *)
Definition cms_added (c : cms) (key n : Z) : cms :=
  Cms (cms_width c) (cms_depth c)
    (zip_with (λ row seed, bump_row n row (col_of c key seed))
       (cms_table c) (cms_seeds c))
    (cms_total c + n) (cms_seeds c).

Lemma cms_bump_run n c dn row todo (col : nat) v :
  row !! col = Some v →
  cms_bump n (Z.of_nat (length dn)) (Z.of_nat col)
    (set_cms_table (dn ++ row :: todo) c) =
  (Ok (), set_cms_table (dn ++ bump_row n row col :: todo) c).
Proof.
  intros Hv. unfold cms_bump, mbind, mget, mlift, mmodify. simpl.
  assert ((dn ++ row :: todo) !! length dn = Some row) as Hr.
  { rewrite lookup_app_r, Nat.sub_diag by lia. done. }
  rewrite (py_index_nat _ _ row) by done. simpl.
  rewrite (py_index_nat _ _ v) by done. simpl.
  rewrite (py_setitem_lookup _ _ _ v) by (lia || by rewrite Nat2Z.id). simpl.
  rewrite (py_setitem_lookup _ _ _ row) by (lia || by rewrite Nat2Z.id). simpl.
  rewrite !Nat2Z.id, insert_app_r_alt, Nat.sub_diag by lia.
  unfold bump_row. by rewrite Hv.
Qed.

Lemma cms_bump_loop n c dn todo (cols : list nat) :
  Forall2 (λ row col, is_Some (row !! col)) todo cols →
  mfor (imap (λ i a, (Z.of_nat (length dn + i), a)) (Z.of_nat <$> cols))
    (λ '(i, col), cms_bump n i col) (set_cms_table (dn ++ todo) c) =
  (Ok (), set_cms_table (dn ++ zip_with (bump_row n) todo cols) c).
Proof.
  intros H. revert dn. induction H as [|row col todo cols [v Hv] _ IH];
    intros dn; [done|].
  rewrite fmap_cons, imap_cons. simpl mfor. unfold mbind at 1.
  rewrite Nat.add_0_r, (cms_bump_run n c dn row todo col v) by done.
  specialize (IH (dn ++ [bump_row n row col])).
  rewrite length_app in IH. rewrite <- !app_assoc in IH.
  refine (eq_trans _ IH). cbv beta iota. f_equal.
  apply imap_ext. intros i x _. simpl. f_equal. lia.
Qed.

Lemma row_wf_bump w t n row col v :
  0 ≤ n → row !! col = Some v → row_wf w t row → row_wf w (t + n) (bump_row n row col).
Proof.
  intros Hn Hv (Hl & Hnn & Hs). unfold bump_row. rewrite Hv. simpl.
  split; [|split].
  - by rewrite length_insert.
  - apply Forall_insert; [done|]. pose proof (Forall_lookup_1 _ _ _ _ Hnn Hv).
    simpl in *. lia.
  - rewrite (sum_Z_insert _ _ v) by done. lia.
Qed.

Section add.
Context (c : cms) (W : cms_wf c).

Lemma wf_rows_cols key :
  Forall2 (λ row col, is_Some (row !! col))
    (cms_table c) (col_of c key <$> cms_seeds c).
Proof using W.
  apply Forall2_fmap_r, Forall2_same_length_lookup. split.
  - rewrite (wf_seeds c W), splitmix_seq_length. pose proof (wf_rows c W). lia.
  - intros i row seed Hi _.
    destruct (cms_cell_ok c W key i seed row Hi) as (v & Hv & _). eauto.
Qed.

Lemma cms_full_ok key n :
  cms_total c ≤ MAX_INT64 - n →
  res_any (λ '(i, col), let? v := cms_cell (cms_table c) i col in
                        Ok (MAX_INT64 - n <? v))
    (py_enumerate ((λ seed, Z.of_nat (col_of c key seed)) <$> cms_seeds c)) =
  Ok false.
Proof using W.
  intros Hn. rewrite (res_any_ok _ (λ _, false)).
  - f_equal. by induction (py_enumerate _).
  - intros [i col] [Hi Hc]%elem_of_py_enumerate.
    rewrite list_lookup_fmap in Hc.
    destruct (cms_seeds c !! Z.to_nat i) as [seed|] eqn:Es; simplify_eq/=.
    destruct (lookup_lt_is_Some_2 (cms_table c) (Z.to_nat i)) as [row Hr].
    { apply lookup_lt_Some in Es.
      rewrite (wf_seeds c W), splitmix_seq_length in Es.
      pose proof (wf_rows c W). lia. }
    destruct (cms_cell_ok c W key _ seed row Hr) as (v & _ & Hv & Hle).
    rewrite Z2Nat.id in Hv by done. rewrite Hv. simpl.
    by rewrite (proj2 (Z.ltb_ge _ _)) by lia.
Qed.

(** The whole behaviour of [add] on a well-formed sketch. *)
Lemma cms_add_run item n :
  cms_add item n c =
  if n <=? 0 then
    (Raise (ValueError "Event count must be strictly positive"), c)
  else if MAX_INT64 <? n then
    (Raise (OverflowError "Event count exceeds int64 capacity"), c)
  else if MAX_INT64 - n <? cms_total c then
    (Raise (OverflowError "CountMinSketch: total_count overflow"), c)
  else (Ok (), cms_added c (cms_key item) n).
Proof using W.
  unfold cms_add. unfold mbind at 1. rewrite raise_if_run.
  destruct (n <=? 0); [done|].
  unfold mbind at 1. rewrite raise_if_run.
  destruct (MAX_INT64 <? n); [done|].
  unfold mbind at 1. simpl. unfold mbind at 1. rewrite raise_if_run.
  destruct (MAX_INT64 - n <? cms_total c) eqn:Ht; [done|].
  unfold mbind at 1. unfold mlift. rewrite (cms_columns_ok c W).
  unfold mbind at 1. rewrite (cms_full_ok (cms_key item) n) by lia.
  unfold mbind at 1. rewrite raise_if_run.
  pose proof (cms_bump_loop n c [] (cms_table c)
    (col_of c (cms_key item) <$> cms_seeds c) (wf_rows_cols _)) as L.
  simpl in L. rewrite <- list_fmap_compose in L.
  replace (set_cms_table (cms_table c) c) with c in L by (by destruct c).
  change (Z.of_nat ∘ col_of c (cms_key item))
    with (λ seed, Z.of_nat (col_of c (cms_key item) seed)) in L.
  unfold mbind, py_enumerate. rewrite L. simpl.
  unfold mmodify, cms_added, set_cms_total, set_cms_table. simpl.
  by rewrite zip_with_fmap_r.
Qed.

Lemma cms_added_wf key n :
  0 < n → cms_total c + n ≤ MAX_INT64 → cms_wf (cms_added c key n).
Proof using W.
  intros Hn Ht. split; simpl; try apply W.
  - rewrite length_zip_with, (wf_seeds c W), splitmix_seq_length.
    pose proof (wf_rows c W). lia.
  - pose proof (wf_total c W). lia.
  - apply Forall_lookup_2. intros i row'. rewrite lookup_zip_with_Some.
    intros (row & seed & -> & Hr & _).
    destruct (cms_cell_ok c W key i seed row Hr) as (v & Hv & _).
    eapply row_wf_bump; [lia|done|]. by eapply wf_row_seed.
Qed.
End add.

(** ** The table as a function of the ingested events *)

(** What the events hashed to cell [j] of the row of [seed] add up to. *)
Definition cell_weight (c : cms) (seed : Z) (j : nat) (ops : list (Z * Z)) : Z :=
  sum_by (λ '(k, n), if decide (col_of c k seed = j) then n else 0) ops.

Record cms_denotes (c : cms) (ops : list (Z * Z)) : Prop := {
  den_wf : cms_wf c;
  den_total : cms_total c = sum_by snd ops;
  den_counts : Forall (λ op, 0 < snd op) ops;
  den_cells : ∀ (i : nat) row seed,
    cms_table c !! i = Some row → cms_seeds c !! i = Some seed →
    ∀ j v, row !! j = Some v → v = cell_weight c seed j ops
}.

Lemma cell_weight_app c seed j ops ops' :
  cell_weight c seed j (ops ++ ops') =
  cell_weight c seed j ops + cell_weight c seed j ops'.
Proof. apply sum_by_app. Qed.

Lemma cell_weight_dims c c' seed j ops :
  cms_width c = cms_width c' → cell_weight c seed j ops = cell_weight c' seed j ops.
Proof. intros H. unfold cell_weight, col_of. by rewrite H. Qed.

Lemma cms_init_denotes w d c : cms_init w d = Ok c → cms_denotes c [].
Proof.
  intros H. pose proof (cms_init_wf _ _ _ H) as W. split; try done.
  - revert H. unfold cms_init.
    destruct (w <=? 0), (d <=? 0); try done. by intros [= <-].
  - intros i row seed Hr _ j v Hv. revert H. unfold cms_init.
    destruct (w <=? 0), (d <=? 0); try done. intros [= <-]. simpl in Hr.
    apply lookup_replicate in Hr as [-> _].
    by apply lookup_replicate in Hv as [-> _].
Qed.

Lemma cms_added_denotes c ops key n :
  0 < n → cms_total c + n ≤ MAX_INT64 → cms_denotes c ops →
  cms_denotes (cms_added c key n) (ops ++ [(key, n)]).
Proof.
  intros Hn Ht D. pose proof (den_wf _ _ D) as W. split.
  - by apply cms_added_wf.
  - simpl. rewrite sum_by_app, (den_total _ _ D). unfold sum_by. simpl. lia.
  - apply Forall_app. split; [apply D|]. by constructor.
  - intros i row' seed Hr Hs j v Hv. simpl in Hr, Hs.
    apply lookup_zip_with_Some in Hr as (row & seed' & -> & Hr & Hs').
    assert (seed' = seed) as -> by congruence.
    rewrite (cell_weight_dims _ c), cell_weight_app by done.
    unfold cell_weight at 2, sum_by. simpl.
    unfold bump_row in Hv.
    destruct (decide (col_of c key seed = j)) as [<-|Hne].
    + assert (col_of c key seed < length row)%nat.
      { apply lookup_lt_Some in Hv. by rewrite length_insert in Hv. }
      rewrite list_lookup_insert_eq in Hv by done. injection Hv as <-.
      destruct (lookup_lt_is_Some_2 row (col_of c key seed)) as [v Hv]; [done|].
      rewrite Hv. simpl. rewrite (den_cells _ _ D i row seed Hr Hs _ _ Hv). lia.
    + rewrite list_lookup_insert_ne in Hv by done.
      rewrite (den_cells _ _ D i row seed Hr Hs _ _ Hv). lia.
Qed.

(** A run of events, as the callers issue them. *)
Definition cms_ingest (evs : list (event_key * Z)) : M cms unit :=
  mfor evs (λ '(item, n), cms_add item n).

Definition as_ops (evs : list (event_key * Z)) : list (Z * Z) :=
  (λ '(item, n), (cms_key item, n)) <$> evs.

Lemma cms_ingest_denotes evs c ops c' :
  cms_denotes c ops → cms_ingest evs c = (Ok (), c') →
  cms_denotes c' (ops ++ as_ops evs) ∧
  cms_width c' = cms_width c ∧ cms_depth c' = cms_depth c ∧
  cms_seeds c' = cms_seeds c.
Proof.
  revert c ops. induction evs as [|[item n] evs IH]; intros c ops D H.
  { injection H as <-. by rewrite app_nil_r. }
  apply mbind_ok in H as ([] & c1 & H1 & H2).
  rewrite (cms_add_run c (den_wf _ _ D)) in H1.
  destruct (n <=? 0) eqn:Hn; [done|].
  destruct (MAX_INT64 <? n); [done|].
  destruct (MAX_INT64 - n <? cms_total c) eqn:Ht; [done|].
  injection H1 as <-.
  destruct (IH (cms_added c (cms_key item) n) (ops ++ [(cms_key item, n)]))
    as [D' Hdims]; [apply cms_added_denotes; [lia|lia|done]|done|].
  split; [|done]. rewrite <- app_assoc in D'. exact D'.
Qed.

(** ** Estimates *)

Definition list_min (l : list Z) : option Z :=
  foldl (λ acc v, Some (match acc with None => v | Some a => Z.min a v end))
    None l.

Lemma foldl_min_some l a :
  ∃ m, foldl (λ acc v, Some (match acc with None => v | Some a => Z.min a v end))
         (Some a) l = Some m ∧
       m ≤ a ∧ (∀ v, v ∈ l → m ≤ v) ∧ (m = a ∨ m ∈ l).
Proof.
  revert a. induction l as [|x l IH]; intros a; simpl.
  - exists a. repeat split; [lia| |by left]. intros v H. by apply elem_of_nil in H.
  - destruct (IH (Z.min a x)) as (m & -> & Ha & Hl & Hm). exists m.
    repeat split; [lia| |].
    + intros v [->|Hv]%elem_of_cons; [lia|auto].
    + destruct Hm as [->|]; [|right; by right].
      destruct (Z.min_spec a x) as [[_ ->]|[_ ->]]; [by left|right; by left].
Qed.

Lemma list_min_spec l :
  l ≠ [] → ∃ m, list_min l = Some m ∧ m ∈ l ∧ ∀ v, v ∈ l → m ≤ v.
Proof.
  destruct l as [|x l]; [done|]. intros _.
  destruct (foldl_min_some l x) as (m & Hm & Hx & Hl & Hin).
  exists m. split; [exact Hm|]. split.
  - destruct Hin as [->|]; [by left|by right].
  - intros v [->|Hv]%elem_of_cons; auto.
Qed.

Lemma res_fold_ok {A B} (f : B → A → res B) (g : B → A → B) l acc :
  (∀ b a, a ∈ l → f b a = Ok (g b a)) → res_fold f l acc = Ok (foldl g acc l).
Proof.
  revert acc. induction l as [|a l IH]; intros acc H; [done|]. simpl.
  rewrite (H acc a) by left. simpl. apply IH. intros b x Hx. apply H. by right.
Qed.

Lemma foldl_fmap' {A B C} (f : B → C → B) (g : A → C) l acc :
  foldl f acc (g <$> l) = foldl (λ b a, f b (g a)) acc l.
Proof. revert acc. induction l; intros; simpl; auto. Qed.

(** [estimate] of a sketch is the least of the cells of the item's columns,
    each of which is the weight of the events that share it. *)
Lemma cms_estimate_denotes c ops item :
  cms_denotes c ops →
  ∃ m, cms_estimate c item = Ok m ∧
    list_min ((λ seed, cell_weight c seed (col_of c (cms_key item) seed) ops)
      <$> cms_seeds c) = Some m.
Proof.
  intros D. pose proof (den_wf _ _ D) as W. unfold cms_estimate.
  set (w := λ seed, cell_weight c seed (col_of c (cms_key item) seed) ops).
  assert (cms_seeds c =
    (λ i, default 0 (cms_seeds c !! Z.to_nat i)) <$> py_range (cms_depth c)) as Hs.
  { apply list_eq. intros i. rewrite list_lookup_fmap.
    destruct (py_range (cms_depth c) !! i) as [x|] eqn:E; simpl.
    - apply py_range_lookup in E as [-> E]. rewrite Nat2Z.id.
      destruct (cms_seeds c !! i) eqn:Es; [done|].
      apply lookup_ge_None in Es. rewrite (wf_seeds c W), splitmix_seq_length in Es.
      lia.
    - apply lookup_ge_None in E. unfold py_range in E. rewrite length_seqZ in E.
      apply lookup_ge_None. rewrite (wf_seeds c W), splitmix_seq_length. lia. }
  rewrite (res_fold_ok _ (λ acc i,
    Some (match acc with
          | None => w (default 0 (cms_seeds c !! Z.to_nat i))
          | Some a => Z.min a (w (default 0 (cms_seeds c !! Z.to_nat i))) end))).
  - destruct (list_min_spec (w <$> cms_seeds c)) as (m & Hm & _).
    { rewrite Hs. intros H%fmap_nil_inv%fmap_nil_inv. pose proof (wf_depth c W).
      apply (f_equal length) in H. unfold py_range in H.
      rewrite length_seqZ in H. simpl in H. lia. }
    exists m. split; [|done]. simpl. unfold list_min in Hm.
    rewrite Hs, <- list_fmap_compose, foldl_fmap' in Hm.
    unfold compose in Hm. by rewrite Hm.
  - intros acc i Hi%elem_of_py_range.
    destruct (lookup_lt_is_Some_2 (cms_seeds c) (Z.to_nat i)) as [seed Hsd].
    { rewrite (wf_seeds c W), splitmix_seq_length. lia. }
    destruct (lookup_lt_is_Some_2 (cms_table c) (Z.to_nat i)) as [row Hr].
    { pose proof (wf_rows c W). lia. }
    unfold cms_column. rewrite (py_index_lookup _ i seed) by (lia || done). simpl.
    destruct (cms_cell_ok c W (cms_key item) _ seed row Hr) as (v & Hv & Hc & _).
    unfold col_of in Hc. rewrite !Z2Nat.id in Hc; [|apply Z.mod_pos_bound, W|lia].
    rewrite Hc, Hsd. simpl. unfold w.
    by rewrite (den_cells _ _ D _ _ _ Hr Hsd _ _ Hv).
Qed.

(** The true frequency of an item in a run of events. *)
Definition true_count (item : event_key) (evs : list (event_key * Z)) : Z :=
  sum_by (λ '(it, n), if decide (it = item) then n else 0) evs.

Lemma true_count_le_weight c seed item evs :
  Forall (λ op, 0 < snd op) (as_ops evs) →
  true_count item evs ≤
  cell_weight c seed (col_of c (cms_key item) seed) (as_ops evs).
Proof.
  intros Hpos. unfold true_count, cell_weight, as_ops.
  induction evs as [|[it n] evs IH]; [done|].
  rewrite fmap_cons, !sum_by_cons. inversion_clear Hpos as [|?? Hn Hpos'].
  specialize (IH Hpos'). simpl in *.
  destruct (decide (it = item)) as [->|].
  - rewrite decide_True by done. lia.
  - destruct (decide _); lia.
Qed.

Lemma cell_weight_le_total c seed j ops :
  Forall (λ op, 0 < snd op) ops → cell_weight c seed j ops ≤ sum_by snd ops.
Proof.
  intros H. apply sum_by_le. intros [k n] Hin.
  rewrite Forall_forall in H. specialize (H _ Hin). simpl in *.
  destruct (decide _); lia.
Qed.

(** ** Merging tables *)

Lemma cms_merge_row_ok w t u a b :
  row_wf w t a → row_wf w u b → t + u ≤ MAX_INT64 →
  cms_merge_row a b = Ok (zip_with Z.add a b).
Proof.
  intros Ha Hb Hle. unfold cms_merge_row.
  rewrite (res_mapM_ok _ (λ '(l, r), l + r)).
  - f_equal. rewrite (zip_with_zip Z.add). by apply list_fmap_ext; intros ? [??].
  - intros [l r] Hin. apply elem_of_lookup_zip_with in Hin
      as (i & x & y & [= <- <-] & Hx & Hy).
    destruct Ha as (_ & Hna & <-), Hb as (_ & Hnb & <-).
    pose proof (sum_Z_elem_le _ _ _ Hna Hx).
    pose proof (sum_Z_elem_le _ _ _ Hnb Hy).
    by rewrite (proj2 (Z.ltb_ge _ _)) by lia.
Qed.

Lemma sum_Z_zip_add a b :
  length a = length b → sum_Z (zip_with Z.add a b) = sum_Z a + sum_Z b.
Proof.
  revert b. induction a as [|x a IH]; intros [|y b] H; try done.
  injection H as H. simpl. rewrite IH by done. lia.
Qed.

Lemma row_wf_add w t u a b :
  row_wf w t a → row_wf w u b → row_wf w (t + u) (zip_with Z.add a b).
Proof.
  intros (Hla & Hna & <-) (Hlb & Hnb & <-). split; [|split].
  - rewrite length_zip_with. lia.
  - apply Forall_lookup_2. intros i v. rewrite lookup_zip_with_Some.
    intros (x & y & -> & Hx & Hy).
    pose proof (Forall_lookup_1 _ _ _ _ Hna Hx).
    pose proof (Forall_lookup_1 _ _ _ _ Hnb Hy). simpl in *. lia.
  - apply sum_Z_zip_add. lia.
Qed.

Definition cms_merged (c d : cms) : cms :=
  Cms (cms_width c) (cms_depth c)
    (zip_with (zip_with Z.add) (cms_table c) (cms_table d))
    (cms_total c + cms_total d) (cms_seeds c).

Section merge.
Context (c d : cms) (Wc : cms_wf c) (Wd : cms_wf d).
Context (Hw : cms_width c = cms_width d) (Hd : cms_depth c = cms_depth d).
Context (Ht : cms_total c + cms_total d ≤ MAX_INT64).

Lemma cms_merge_tables_ok :
  cms_merge_tables (cms_table c) (cms_table d) =
  Ok (cms_table (cms_merged c d)).
Proof using Wc Wd Hw Ht.
  unfold cms_merge_tables.
  rewrite (res_mapM_ok _ (λ '(a, b), zip_with Z.add a b)).
  - simpl. f_equal. rewrite (zip_with_zip (zip_with Z.add)). by apply list_fmap_ext; intros ? [??].
  - intros [a b] Hin. apply elem_of_lookup_zip_with in Hin
      as (i & x & y & [= <- <-] & Hx & Hy).
    apply (cms_merge_row_ok (cms_width c) (cms_total c) (cms_total d));
      [|rewrite Hw|exact Ht].
    + by apply (Forall_lookup_1 _ _ _ _ (wf_table c Wc) Hx).
    + by apply (Forall_lookup_1 _ _ _ _ (wf_table d Wd) Hy).
Qed.

Lemma cms_merged_wf : cms_wf (cms_merged c d).
Proof using Wc Wd Hw Hd Ht.
  split; simpl; try apply Wc.
  - rewrite length_zip_with. pose proof (wf_rows c Wc).
    pose proof (wf_rows d Wd). lia.
  - pose proof (wf_total c Wc). pose proof (wf_total d Wd). lia.
  - apply Forall_lookup_2. intros i row. rewrite lookup_zip_with_Some.
    intros (a & b & -> & Ha & Hb). apply row_wf_add.
    + by apply (Forall_lookup_1 _ _ _ _ (wf_table c Wc) Ha).
    + rewrite Hw. by apply (Forall_lookup_1 _ _ _ _ (wf_table d Wd) Hb).
Qed.

(** Merging is concatenating the event runs. *)
Lemma cms_merged_denotes ops ops' :
  cms_denotes c ops → cms_denotes d ops' →
  cms_denotes (cms_merged c d) (ops ++ ops').
Proof using Wc Wd Hw Hd Ht.
  intros Dc Dd. split.
  - apply cms_merged_wf.
  - simpl. by rewrite sum_by_app, (den_total _ _ Dc), (den_total _ _ Dd).
  - apply Forall_app. split; [apply Dc|apply Dd].
  - intros i row seed Hr Hs j v Hv. simpl in Hr, Hs.
    apply lookup_zip_with_Some in Hr as (a & b & -> & Ha & Hb).
    apply lookup_zip_with_Some in Hv as (x & y & -> & Hx & Hy).
    rewrite (cell_weight_dims _ c), cell_weight_app by done.
    rewrite (den_cells _ _ Dc i a seed Ha Hs j x Hx).
    assert (cms_seeds d !! i = Some seed) as Hs'.
    { by rewrite (wf_seeds d Wd), <- Hd, <- (wf_seeds c Wc). }
    rewrite (den_cells _ _ Dd i b seed Hb Hs' j y Hy).
    by rewrite (cell_weight_dims d c).
Qed.
End merge.

(** The event run determines the sketch. *)
Lemma cms_denotes_eq c d ops :
  cms_denotes c ops → cms_denotes d ops →
  cms_width c = cms_width d → cms_depth c = cms_depth d → c = d.
Proof.
  intros Dc Dd Hw Hd. pose proof (den_wf _ _ Dc) as Wc.
  pose proof (den_wf _ _ Dd) as Wd.
  assert (cms_seeds c = cms_seeds d) as Hs
    by by rewrite (wf_seeds c Wc), (wf_seeds d Wd), Hd.
  assert (cms_total c = cms_total d) as Ht
    by by rewrite (den_total _ _ Dc), (den_total _ _ Dd).
  assert (cms_table c = cms_table d) as Htab; [|destruct c, d; simpl in *; congruence].
  apply (list_eq_same_length _ _ (length (cms_table d))); [done| |].
  { pose proof (wf_rows c Wc). pose proof (wf_rows d Wd). lia. }
  intros i a b _ Ha Hb.
  pose proof (Forall_lookup_1 _ _ _ _ (wf_table c Wc) Ha) as (La & _).
  pose proof (Forall_lookup_1 _ _ _ _ (wf_table d Wd) Hb) as (Lb & _).
  destruct (wf_row_seed c Wc i a Ha) as [_ [seed Hseed]].
  apply (list_eq_same_length _ _ (length b)); [done|lia|].
  intros j x y _ Hx Hy.
  rewrite (den_cells _ _ Dc i a seed Ha Hseed j x Hx).
  rewrite Hs in Hseed. rewrite (den_cells _ _ Dd i b seed Hb Hseed j y Hy).
  by apply cell_weight_dims.
Qed.

(** ** Properties *)

(** C1. The Count-Min guarantee.  After any run of successful [add] calls on
    a fresh sketch, [estimate] returns (no [IndexError], no overflow of the
    infinite running minimum), never under-counts the item, never exceeds the
    total, and is exactly the least weight among the item's columns. *)
Theorem cms_estimate_guarantee w d evs c0 c item :
  cms_init w d = Ok c0 →
  cms_ingest evs c0 = (Ok (), c) →
  ∃ est, cms_estimate c item = Ok est ∧
    true_count item evs ≤ est ≤ cms_total c ∧
    cms_total c = sum_by snd evs ∧
    list_min ((λ seed,
      cell_weight c seed (col_of c (cms_key item) seed) (as_ops evs))
      <$> cms_seeds c) = Some est.
Proof.
  intros Hinit Hrun.
  destruct (cms_ingest_denotes evs c0 [] c (cms_init_denotes _ _ _ Hinit) Hrun)
    as [D _]. simpl in D.
  destruct (cms_estimate_denotes c _ item D) as (m & Hm & Hmin).
  pose proof (den_counts _ _ D) as Hpos.
  assert (sum_by snd (as_ops evs) = sum_by snd evs) as Hsum.
  { unfold sum_by, as_ops. rewrite <- list_fmap_compose. f_equal.
    apply list_fmap_ext. by intros ? [??]. }
  exists m. split; [done|]. split; [|by rewrite (den_total _ _ D)].
  assert (m ∈ (λ seed,
    cell_weight c seed (col_of c (cms_key item) seed) (as_ops evs))
      <$> cms_seeds c) as Hin.
  { destruct (cms_seeds c) as [|s l] eqn:Es; [done|].
    edestruct (list_min_spec ((λ seed, cell_weight c seed
      (col_of c (cms_key item) seed) (as_ops evs)) <$> s :: l))
      as (m' & Hm' & Hin & _); [done|]. congruence. }
  apply list_elem_of_fmap in Hin as (seed & -> & _).
  rewrite (den_total _ _ D). split.
  - by apply true_count_le_weight.
  - by apply cell_weight_le_total.
Qed.

Lemma cms_estimate_guarantee_witness :
  ∃ c0 c est,
    cms_init 8 2 = Ok c0 ∧
    cms_ingest [(KStr "cache_miss", 5); (KInt 7, 3)] c0 = (Ok (), c) ∧
    cms_estimate c (KInt 7) = Ok est ∧ 3 ≤ est ≤ cms_total c.
Proof.
  destruct (cms_init 8 2) as [c0|] eqn:E0; [|discriminate E0].
  destruct (cms_ingest [(KStr "cache_miss", 5); (KInt 7, 3)] c0)
    as [r c] eqn:E1.
  assert (r = Ok ()) as ->.
  { injection E0 as <-. vm_compute in E1. by injection E1 as <- _. }
  destruct (cms_estimate_guarantee 8 2 _ c0 c (KInt 7) E0 E1)
    as (est & H1 & H2 & _).
  exists c0, c, est. repeat split; try done; apply H2.
Defined.
