(* ===== verification/HyperLogLog.v ===== *)
(** * HyperLogLog

    [core/hll.py]: the registers, the hash of a value, the register index and
    rank ([rho]), [add], [estimate], [reset], and the register-wise merge of
    [facade.py].  The central result is that the registers are a function of
    the set of ingested values: order and repetitions are irrelevant, and
    merging two sketches is sketching the union. *)

From Stdlib Require Import PrimFloat FloatOps.
From S2P Require Import Prelude PyFloat Hashing.

#[local] Open Scope Z_scope.
#[local] Set Warnings "-inexact-float".
#[local] Open Scope py_scope.

(** ** State and operations *)

Record hll := Hll {
  hll_p : Z;
  hll_registers : list Z
}.

Definition hll_m (h : hll) : Z := Z.shiftl 1 (hll_p h).
Definition set_registers (r : list Z) (h : hll) : hll := Hll (hll_p h) r.

Definition hll_init (precision : Z) : res hll :=
  let? _ := fail_if (negb ((4 <=? precision) && (precision <=? 18)))
      (ValueError "precision must be in [4, 18]") in
  Ok (Hll precision (replicate (Z.to_nat (Z.shiftl 1 precision)) 0)).

(** The bias constant chosen by the constructor. *)
Definition hll_alpha (h : hll) : float :=
  let m := hll_m h in
  if m =? 16 then 0.673%float
  else if m =? 32 then 0.697%float
  else if m =? 64 then 0.709%float
  else (0.7213 / (1 + 1.079 / float_of_Z m))%float.

(** [_hash_bytes] *)
Definition hash_bytes (data : list Z) : Z := murmur_finalizer (fnv1a data).

(** [_rho]: leading zeros of the 64-bit word, plus one. *)
Definition bit_length (w : Z) : Z := if w =? 0 then 0 else Z.log2 (Z.abs w) + 1.
Definition rho (w p : Z) : Z :=
  if w =? 0 then 64 - p + 1 else 64 - bit_length w + 1.

(** [value.to_bytes(8, byteorder='little')] *)
Definition to_bytes8 (v : Z) : list Z :=
  (λ i, Z.land (Z.shiftr v (8 * i)) 255) <$> seqZ 0 8.

(** The hash of a value: by type, integers outside 64 bits are refused. *)
Definition hll_hash (value : event_key) : res Z :=
  match value with
  | KInt v =>
      if (v <? 0) || (MAX_UINT64 <? v)
      then Raise (ValueError "HyperLogLog integer out of range for 64-bit unsigned")
      else Ok (hash_bytes (to_bytes8 v))
  | KBytes b => Ok (hash_bytes b)
  | KStr s => Ok (hash_bytes (encode_utf8 s))
  end.

Definition hll_add (value : event_key) : M hll unit :=
  h <- mlift (hll_hash value) ;;
  s <- mget ;;
  let p := hll_p s in
  let idx := Z.shiftr h (64 - p) in
  let w := mask64 (Z.shiftl h p) in
  let r := rho w p in
  old <- mlift (py_index (hll_registers s) idx) ;;
  if old <? r then
    regs <- mlift (py_setitem (hll_registers s) idx (Z.min r 255)) ;;
    mmodify (set_registers regs)
  else mret ().

(** [estimate]: the harmonic mean, with linear counting for small ranges. *)
Definition hll_zeros (h : hll) : Z :=
  Z.of_nat (length (filter (λ r, r = 0) (hll_registers h))).
Definition hll_estimate `{Libm} (h : hll) : res float :=
  let m := float_of_Z (hll_m h) in
  let raw := (hll_alpha h * m * m)%float in
  let harmonic_sum :=
    py_fsum ((λ r, Z.ldexp PrimFloat.one (- r)) <$> hll_registers h) in
  let raw := (raw / harmonic_sum)%float in
  let zeros := hll_zeros h in
  if fle raw (2.5 * m)%float && (0 <? zeros)
  then let? l := py_log (m / float_of_Z zeros)%float in Ok (m * l)%float
  else Ok raw.

Definition hll_memory_bytes (h : hll) : Z := 32 + hll_m h.

Definition hll_reset : M hll unit :=
  mmodify (λ h, set_registers (replicate (Z.to_nat (hll_m h)) 0) h).

(** The register-wise maximum of [_PythonStreamLog.merge]. *)
Definition merge_registers (a b : list Z) : list Z := zip_with Z.max a b.

(** ** Ranges of the index and of the rank *)

Record hll_wf (h : hll) : Prop := {
  hwf_p : 4 ≤ hll_p h ≤ 18;
  hwf_len : Z.of_nat (length (hll_registers h)) = 2 ^ hll_p h;
  hwf_regs : Forall (λ r, 0 ≤ r ≤ 64 - hll_p h + 1) (hll_registers h)
}.

Definition reg_index (p h : Z) : nat := Z.to_nat (Z.shiftr h (64 - p)).
Definition reg_rank (p h : Z) : Z := rho (mask64 (Z.shiftl h p)) p.

Lemma hll_m_pow h : hll_wf h → hll_m h = 2 ^ hll_p h.
Proof.
  intros W. unfold hll_m. rewrite Z.shiftl_1_l. done.
Qed.

Lemma hll_init_wf p h : hll_init p = Ok h → hll_wf h ∧ hll_p h = p.
Proof.
  unfold hll_init. destruct (4 <=? p) eqn:H1, (p <=? 18) eqn:H2; try done.
  intros [= <-]. split; [|done]. apply Z.leb_le in H1, H2. split; simpl.
  - lia.
  - rewrite length_replicate, Z.shiftl_1_l.
    assert (0 < 2 ^ p) by (apply Z.pow_pos_nonneg; lia). lia.
  - apply Forall_replicate. lia.
Qed.

Lemma shiftr_index_range p h :
  0 ≤ p ≤ 64 → u64 h → 0 ≤ Z.shiftr h (64 - p) < 2 ^ p.
Proof.
  intros Hp [H1 H2]. rewrite Z.shiftr_div_pow2 by lia.
  assert (0 < 2 ^ (64 - p)) by (apply Z.pow_pos_nonneg; lia).
  split; [apply Z.div_pos; lia|].
  apply Z.div_lt_upper_bound; [done|].
  rewrite <- Z.pow_add_r by lia. by replace (64 - p + p) with 64 by lia.
Qed.

(** The rank is between 1 and [64 - p + 1]: the word holds the [64 - p]
    low bits of the hash, shifted to the top. *)
Lemma reg_rank_range p h : 0 ≤ p < 64 → 1 ≤ reg_rank p h ≤ 64 - p + 1.
Proof.
  intros Hp. unfold reg_rank, rho.
  destruct (mask64 (Z.shiftl h p) =? 0) eqn:E; [lia|].
  apply Z.eqb_neq in E. unfold bit_length.
  rewrite (proj2 (Z.eqb_neq _ _)) by done.
  pose proof (mask64_range (Z.shiftl h p)) as [H0 H64].
  rewrite Z.abs_eq by done.
  set (w := mask64 (Z.shiftl h p)) in *.
  assert (Z.log2 w < 64) by (apply Z.log2_lt_pow2; lia).
  assert (p ≤ Z.log2 w).
  { destruct (Z.le_gt_cases p (Z.log2 w)) as [|Hlt]; [done|].
    pose proof (Z.bit_log2 w ltac:(lia)) as Hb. unfold w in Hb.
    unfold mask64 in Hb at 1. rewrite Z.land_spec in Hb.
    apply andb_prop in Hb as [Hb _].
    rewrite Z.shiftl_spec_low in Hb; [done|exact Hlt]. }
  lia.
Qed.

Lemma hash_bytes_u64 data : u64 (hash_bytes data).
Proof. apply murmur_finalizer_u64. Qed.

Lemma hll_hash_u64 v h : hll_hash v = Ok h → u64 h.
Proof.
  destruct v; simpl; [|intros [= <-]; apply hash_bytes_u64|].
  - intros [= <-]; apply hash_bytes_u64.
  - destruct (_ || _); [done|]. intros [= <-]; apply hash_bytes_u64.
Qed.

(** ** The effect of [add] *)

(** The registers after [add] of a value with hash [h]. *)
Definition regs_added (p h : Z) (regs : list Z) : list Z :=
  alter (λ old, Z.max old (reg_rank p h)) (reg_index p h) regs.

Lemma reg_index_lt h v :
  hll_wf h → u64 v → (reg_index (hll_p h) v < length (hll_registers h))%nat.
Proof.
  intros W Hv. unfold reg_index.
  pose proof (hwf_p h W). pose proof (hwf_len h W).
  pose proof (shiftr_index_range (hll_p h) v ltac:(lia) Hv). lia.
Qed.

Lemma hll_add_run v h :
  hll_wf h →
  hll_add v h =
  match hll_hash v with
  | Ok x => (Ok (), set_registers (regs_added (hll_p h) x (hll_registers h)) h)
  | Raise e => (Raise e, h)
  end.
Proof.
  intros W. unfold hll_add, mbind, mlift, mget.
  destruct (hll_hash v) as [x|e] eqn:Ev; [|done].
  pose proof (hll_hash_u64 _ _ Ev) as Hx. pose proof (hwf_p h W) as Hp.
  pose proof (shiftr_index_range (hll_p h) x ltac:(lia) Hx) as [Hi _].
  destruct (lookup_lt_is_Some_2 _ _ (reg_index_lt h x W Hx)) as [old Ho].
  rewrite (py_index_lookup _ _ old) by done. fold (reg_rank (hll_p h) x).
  pose proof (reg_rank_range (hll_p h) x ltac:(lia)) as Hr.
  unfold regs_added. destruct (old <? reg_rank (hll_p h) x) eqn:E.
  - rewrite (py_setitem_lookup _ _ _ old) by done. unfold mmodify.
    do 2 f_equal. rewrite Z.min_l by lia.
    apply list_eq. intros j. unfold reg_index.
    destruct (decide (j = Z.to_nat (Z.shiftr x (64 - hll_p h)))) as [->|Hne].
    + rewrite list_lookup_insert_eq by (by apply lookup_lt_Some in Ho).
      rewrite list_lookup_alter_eq. unfold reg_index in Ho. rewrite Ho. simpl.
      f_equal. lia.
    + by rewrite list_lookup_insert_ne, list_lookup_alter_ne by done.
  - unfold mret. do 2 f_equal. destruct h as [p regs].
    unfold set_registers. simpl in *. f_equal. apply list_eq. intros j.
    destruct (decide (j = reg_index p x)) as [->|Hne].
    + rewrite list_lookup_alter_eq, Ho. simpl. f_equal. lia.
    + by rewrite list_lookup_alter_ne by done.
Qed.

Lemma regs_added_wf p h regs :
  0 ≤ p < 64 → Forall (λ r, 0 ≤ r ≤ 64 - p + 1) regs →
  Forall (λ r, 0 ≤ r ≤ 64 - p + 1) (regs_added p h regs).
Proof.
  intros Hp H. apply Forall_lookup_2. intros j r. unfold regs_added.
  pose proof (reg_rank_range p h Hp).
  destruct (decide (j = reg_index p h)) as [->|Hne].
  - rewrite list_lookup_alter_eq. intros (old & Ho & ->)%fmap_Some_1.
    pose proof (Forall_lookup_1 _ _ _ _ H Ho). simpl in *. lia.
  - rewrite list_lookup_alter_ne by done. intros Hr.
    exact (Forall_lookup_1 _ _ _ _ H Hr).
Qed.

(** ** Registers as a function of the values *)

(** The largest rank among the hashes that select register [j]. *)
Definition max_rank (p : Z) (j : nat) (hs : list Z) : Z :=
  foldr (λ h acc, if decide (reg_index p h = j) then Z.max (reg_rank p h) acc
                  else acc) 0 hs.

Record hll_denotes (h : hll) (hs : list Z) : Prop := {
  hden_wf : hll_wf h;
  hden_u64 : Forall u64 hs;
  hden_regs : ∀ j r, hll_registers h !! j = Some r → r = max_rank (hll_p h) j hs
}.

Lemma max_rank_nonneg p j hs : 0 ≤ max_rank p j hs.
Proof. induction hs; simpl; [lia|]. destruct (decide _); lia. Qed.

Lemma max_rank_app p j hs hs' :
  max_rank p j (hs ++ hs') = Z.max (max_rank p j hs) (max_rank p j hs').
Proof.
  pose proof (max_rank_nonneg p j hs').
  induction hs; simpl; [lia|]. rewrite IHhs. destruct (decide _); lia.
Qed.

Lemma max_rank_spec p j hs m :
  max_rank p j hs ≤ m ↔
  0 ≤ m ∧ ∀ h, h ∈ hs → reg_index p h = j → reg_rank p h ≤ m.
Proof.
  induction hs as [|x hs IH]; simpl.
  - split; [|tauto]. intros; split; [done|]. intros h Hh. by apply elem_of_nil in Hh.
  - setoid_rewrite elem_of_cons. destruct (decide (reg_index p x = j)).
    + rewrite Z.max_lub_iff, IH. clear IH. naive_solver.
    + rewrite IH. clear IH. naive_solver.
Qed.

(** Only the set of hashes matters. *)
Lemma max_rank_set p j hs hs' :
  (∀ h, h ∈ hs ↔ h ∈ hs') → max_rank p j hs = max_rank p j hs'.
Proof.
  intros H. apply Z.le_antisymm.
  - apply max_rank_spec. split; [apply max_rank_nonneg|]. intros h Hh <-.
    pose proof (proj1 (max_rank_spec p (reg_index p h) hs' _) (Z.le_refl _)) as [_ X].
    apply X; [by apply H|done].
  - apply max_rank_spec. split; [apply max_rank_nonneg|]. intros h Hh <-.
    pose proof (proj1 (max_rank_spec p (reg_index p h) hs _) (Z.le_refl _)) as [_ X].
    apply X; [by apply H|done].
Qed.

Lemma hll_init_denotes p h : hll_init p = Ok h → hll_denotes h [].
Proof.
  intros H. pose proof (hll_init_wf _ _ H) as [W Hp]. split; [done..|].
  intros j r Hr. revert H. unfold hll_init.
  destruct (negb _); [done|]. intros [= <-]. simpl in Hr.
  by apply lookup_replicate in Hr as [-> _].
Qed.

Lemma hll_added_denotes h hs x :
  hll_denotes h hs → u64 x →
  hll_denotes (set_registers (regs_added (hll_p h) x (hll_registers h)) h)
    (hs ++ [x]).
Proof.
  intros D Hx. pose proof (hden_wf _ _ D) as W. pose proof (hwf_p h W).
  split; [split|..]; simpl.
  - done.
  - unfold regs_added. rewrite length_alter. apply W.
  - apply regs_added_wf; [lia|apply W].
  - apply Forall_app. split; [apply D|by constructor].
  - intros j r. rewrite max_rank_app. simpl. unfold regs_added.
    pose proof (reg_rank_range (hll_p h) x ltac:(lia)).
    pose proof (max_rank_nonneg (hll_p h) j hs).
    destruct (decide (reg_index (hll_p h) x = j)) as [<-|Hne].
    + rewrite list_lookup_alter_eq. intros (old & Ho & ->)%fmap_Some_1.
      rewrite (hden_regs _ _ D _ _ Ho). lia.
    + rewrite list_lookup_alter_ne by done. intros Hr.
      rewrite (hden_regs _ _ D _ _ Hr). lia.
Qed.

Definition hll_ingest (vs : list event_key) : M hll unit := mfor vs hll_add.

Lemma hll_ingest_denotes vs h hs h' :
  hll_denotes h hs → hll_ingest vs h = (Ok (), h') →
  ∃ hs', res_mapM hll_hash vs = Ok hs' ∧ hll_denotes h' (hs ++ hs') ∧
         hll_p h' = hll_p h.
Proof.
  revert h hs. induction vs as [|v vs IH]; intros h hs D H.
  { injection H as <-. exists []. by rewrite app_nil_r. }
  apply mbind_ok in H as ([] & h1 & H1 & H2).
  rewrite (hll_add_run v h (hden_wf _ _ D)) in H1.
  destruct (hll_hash v) as [x|e] eqn:Ev; [|done]. injection H1 as <-.
  pose proof (hll_hash_u64 _ _ Ev) as Hx.
  destruct (IH _ _ (hll_added_denotes h hs x D Hx) H2) as (hs' & E & D' & Hp).
  exists (x :: hs'). simpl. rewrite Ev. simpl. rewrite E. split; [done|].
  rewrite <- app_assoc in D'. by split.
Qed.

Lemma hll_denotes_eq h h' hs hs' :
  hll_denotes h hs → hll_denotes h' hs' → hll_p h = hll_p h' →
  (∀ x, x ∈ hs ↔ x ∈ hs') → h = h'.
Proof.
  intros D D' Hp Hset. destruct h as [p r], h' as [p' r']; simpl in *; subst p'.
  f_equal. apply list_eq. intros j.
  pose proof (hwf_len _ (hden_wf _ _ D)) as L1.
  pose proof (hwf_len _ (hden_wf _ _ D')) as L2. simpl in *.
  destruct (r !! j) as [a|] eqn:Ea.
  - destruct (lookup_lt_is_Some_2 r' j) as [b Eb].
    { apply lookup_lt_Some in Ea. lia. }
    rewrite Eb. f_equal. pose proof (hden_regs _ _ D j a Ea) as ->.
    pose proof (hden_regs _ _ D' j b Eb) as ->. simpl. by apply max_rank_set.
  - apply lookup_ge_None in Ea. symmetry. apply lookup_ge_None. lia.
Qed.

(** ** Merging *)

Definition hll_merged (a b : hll) : hll :=
  set_registers (merge_registers (hll_registers a) (hll_registers b)) a.

Lemma hll_merged_denotes a b ha hb :
  hll_denotes a ha → hll_denotes b hb → hll_p a = hll_p b →
  hll_denotes (hll_merged a b) (ha ++ hb).
Proof.
  intros Da Db Hp.
  pose proof (hden_wf _ _ Da) as Wa. pose proof (hden_wf _ _ Db) as Wb.
  unfold hll_merged, merge_registers. split; [split|..]; simpl.
  - apply Wa.
  - rewrite length_zip_with. pose proof (hwf_len a Wa). pose proof (hwf_len b Wb).
    rewrite <- Hp in *. lia.
  - apply Forall_lookup_2. intros j r. rewrite lookup_zip_with_Some.
    intros (x & y & -> & Hx & Hy).
    pose proof (Forall_lookup_1 _ _ _ _ (hwf_regs a Wa) Hx).
    pose proof (Forall_lookup_1 _ _ _ _ (hwf_regs b Wb) Hy).
    rewrite <- Hp in *. simpl in *. lia.
  - apply Forall_app. split; [apply Da|apply Db].
  - intros j r. rewrite lookup_zip_with_Some. intros (x & y & -> & Hx & Hy).
    rewrite max_rank_app, (hden_regs _ _ Da j x Hx), (hden_regs _ _ Db j y Hy).
    by rewrite Hp.
Qed.

(** ** Properties *)

(** The registers depend only on the set of values: two runs of
    successful [add] calls on the same empty sketch that ingest the same
    values, in any order and with any repetitions, end in the same sketch. *)
Theorem hll_set_semantics p vs ws h0 h1 h2 :
  hll_init p = Ok h0 →
  hll_ingest vs h0 = (Ok (), h1) →
  hll_ingest ws h0 = (Ok (), h2) →
  (∀ v, v ∈ vs ↔ v ∈ ws) →
  h1 = h2.
Proof.
  intros Hi Hv Hw Hset. pose proof (hll_init_denotes _ _ Hi) as D0.
  destruct (hll_ingest_denotes _ _ _ _ D0 Hv) as (hs & Ehs & D1 & P1).
  destruct (hll_ingest_denotes _ _ _ _ D0 Hw) as (ks & Eks & D2 & P2).
  apply (hll_denotes_eq h1 h2 hs ks D1 D2); [congruence|].
  intros x. rewrite (res_mapM_elem _ _ _ Ehs), (res_mapM_elem _ _ _ Eks).
  by setoid_rewrite Hset.
Qed.

Lemma hll_set_semantics_witness :
  ∃ h1 h2,
    hll_ingest [KStr "a"; KInt 7; KStr "a"] (Hll 4 (replicate 16 0)) = (Ok (), h1) ∧
    hll_ingest [KInt 7; KStr "a"] (Hll 4 (replicate 16 0)) = (Ok (), h2) ∧
    h1 = h2.
Proof.
  destruct (hll_ingest [KStr "a"; KInt 7; KStr "a"] (Hll 4 (replicate 16 0)))
    as [r1 h1] eqn:E1.
  destruct (hll_ingest [KInt 7; KStr "a"] (Hll 4 (replicate 16 0)))
    as [r2 h2] eqn:E2.
  assert (r1 = Ok ()) as -> by (vm_compute in E1; congruence).
  assert (r2 = Ok ()) as -> by (vm_compute in E2; congruence).
  exists h1, h2. split; [done|]. split; [done|].
  refine (hll_set_semantics 4 _ _ (Hll 4 (replicate 16 0)) h1 h2 eq_refl E1 E2 _).
  intros v. rewrite !elem_of_cons. tauto.
Defined.

(** C2. Merging by register-wise maximum is sketching the union: the merge
    of two sketches is the sketch of one run followed by the other. *)
Theorem hll_merge_is_union p vs ws h0 h1 h2 h12 :
  hll_init p = Ok h0 →
  hll_ingest vs h0 = (Ok (), h1) →
  hll_ingest ws h0 = (Ok (), h2) →
  hll_ingest (vs ++ ws) h0 = (Ok (), h12) →
  hll_merged h1 h2 = h12.
Proof.
  intros Hi Hv Hw Hvw. pose proof (hll_init_denotes _ _ Hi) as D0.
  destruct (hll_ingest_denotes _ _ _ _ D0 Hv) as (hs & Ehs & D1 & P1).
  destruct (hll_ingest_denotes _ _ _ _ D0 Hw) as (ks & Eks & D2 & P2).
  destruct (hll_ingest_denotes _ _ _ _ D0 Hvw) as (ms & Ems & D3 & P3).
  pose proof (hll_merged_denotes h1 h2 _ _ D1 D2 ltac:(congruence)) as D.
  apply (hll_denotes_eq _ _ _ _ D D3); [simpl; congruence|].
  intros x. simpl. rewrite elem_of_app, (res_mapM_elem _ _ _ Ehs),
    (res_mapM_elem _ _ _ Eks), (res_mapM_elem _ _ _ Ems).
  setoid_rewrite elem_of_app. naive_solver.
Qed.

Lemma hll_merge_is_union_witness :
  ∃ h1 h2 h12,
    hll_ingest [KStr "a"] (Hll 4 (replicate 16 0)) = (Ok (), h1) ∧
    hll_ingest [KInt 7] (Hll 4 (replicate 16 0)) = (Ok (), h2) ∧
    hll_ingest [KStr "a"; KInt 7] (Hll 4 (replicate 16 0)) = (Ok (), h12) ∧
    hll_merged h1 h2 = h12.
Proof.
  destruct (hll_ingest [KStr "a"] (Hll 4 (replicate 16 0))) as [r1 h1] eqn:E1.
  destruct (hll_ingest [KInt 7] (Hll 4 (replicate 16 0))) as [r2 h2] eqn:E2.
  destruct (hll_ingest ([KStr "a"] ++ [KInt 7]) (Hll 4 (replicate 16 0)))
    as [r3 h3] eqn:E3.
  assert (r1 = Ok ()) as -> by (vm_compute in E1; congruence).
  assert (r2 = Ok ()) as -> by (vm_compute in E2; congruence).
  assert (r3 = Ok ()) as -> by (vm_compute in E3; congruence).
  exists h1, h2, h3. do 3 (split; [done|]).
  exact (hll_merge_is_union 4 _ _ (Hll 4 (replicate 16 0)) h1 h2 h3
    eq_refl E1 E2 E3).
Defined.
