(* ===== verification/DDSketch.v ===== *)
(** * DDSketch quantile sketch ([core/ddsketch.py])

    The sketch as a record of its fields (the two bucket dictionaries are
    finite maps: their order is never observed), each method as a monadic
    function, and the correctness of the sketch: the state is a function of
    the ingested values, batch ingestion equals repeated [add], a quantile is
    within [alpha] of an exact quantile of the data, and [count_greater_than]
    is an upper bound tight up to one bucket. *)

From Stdlib Require Import PrimFloat.
From S2P Require Import Prelude PyFloat FloatRound.

#[local] Open Scope Z_scope.
#[local] Open Scope py_scope.
#[local] Set Warnings "-inexact-float".

(** ** State *)

Record dds := mk_dds {
  dds_alpha : float;
  dds_gamma : float;
  dds_log_gamma : float;
  dds_multiplier : float;
  dds_positive : gmap Z Z;
  dds_negative : gmap Z Z;
  dds_zero_count : Z;
  dds_count : Z;
  dds_min : float;
  dds_max : float
}.

Definition MAX_BINS : Z := 1024.

(** [d.get(k, 0)] *)
Definition get0 (d : gmap Z Z) (k : Z) : Z := default 0 (d !! k).

(** [d[k] = d.get(k, 0) + n] *)
Definition bump (k n : Z) (d : gmap Z Z) : gmap Z Z := <[k := get0 d k + n]> d.

Definition dict_len (d : gmap Z Z) : Z := Z.of_nat (size d).

(** [sum(d.values())] *)
Definition dict_sum (d : gmap Z Z) : Z := sum_Z (map_to_list d).*2.

Section DDSketch.
Context `{Libm}.

Definition dds_init (relative_accuracy : float) : res dds :=
  if negb (fle 1e-6%float relative_accuracy && flt relative_accuracy 1.0%float)
  then Raise (ValueError "relative_accuracy must be in [1e-6, 1.0)")
  else
    let gamma := ((1.0 + relative_accuracy) / (1.0 - relative_accuracy))%float in
    let? log_gamma := py_log gamma in
    if feq log_gamma 0%float then Raise (ZeroDivisionError "float division by zero")
    else Ok (mk_dds relative_accuracy gamma log_gamma (1.0 / log_gamma)%float
               ∅ ∅ 0 0 infinity neg_infinity).

Definition dds_key (s : dds) (value : float) : res Z :=
  let? l := py_log value in py_ceil (l * dds_multiplier s)%float.

(** [float.fromhex('0x0.0000000000001p-1022')] and [sys.float_info.max]. *)
Definition float_tiny : float := 0x0.0000000000001p-1022%float.
Definition float_max : float := 0x1.fffffffffffffp+1023%float.

Definition dds_bucket_value (s : dds) (index : Z) : float :=
  match py_pow (dds_gamma s) index with
  | Ok p =>
      let val := ((2.0 / (1.0 + dds_gamma s)) * p)%float in
      if feq val 0%float then float_tiny else val
  | Raise _ => float_max
  end.

Definition dds_store_can_fit (store : gmap Z Z) (index : Z) : bool :=
  bool_decide (is_Some (store !! index)) || (dict_len store <? MAX_BINS).

(** [abs(rep - abs_v) / abs_v > self._alpha] *)
Definition dds_inaccurate (s : dds) (rep abs_v : float) : bool :=
  flt (dds_alpha s) (PrimFloat.abs (rep - abs_v) / abs_v)%float.

Definition dds_tally (value : float) (n : Z) (s : dds) : dds :=
  mk_dds (dds_alpha s) (dds_gamma s) (dds_log_gamma s) (dds_multiplier s)
    (dds_positive s) (dds_negative s) (dds_zero_count s) (dds_count s + n)
    (if flt value (dds_min s) then value else dds_min s)
    (if flt (dds_max s) value then value else dds_max s).

Definition set_positive (d : gmap Z Z) (s : dds) : dds :=
  mk_dds (dds_alpha s) (dds_gamma s) (dds_log_gamma s) (dds_multiplier s)
    d (dds_negative s) (dds_zero_count s) (dds_count s) (dds_min s) (dds_max s).
Definition set_negative (d : gmap Z Z) (s : dds) : dds :=
  mk_dds (dds_alpha s) (dds_gamma s) (dds_log_gamma s) (dds_multiplier s)
    (dds_positive s) d (dds_zero_count s) (dds_count s) (dds_min s) (dds_max s).
Definition set_zero_count (n : Z) (s : dds) : dds :=
  mk_dds (dds_alpha s) (dds_gamma s) (dds_log_gamma s) (dds_multiplier s)
    (dds_positive s) (dds_negative s) n (dds_count s) (dds_min s) (dds_max s).

Definition dds_add (value : float) (count : Z) : M dds unit :=
  if isnan value || isinf value then mret ()
  else if count <=? 0 then mret ()
  else
    raise_if (MAX_INT64 <? count)
      (OverflowError "DDSketch: count exceeds int64 capacity") ;;;
    s <- mget ;;
    raise_if (MAX_UINT64 - count <? dds_count s)
      (OverflowError "DDSketch: total count overflow") ;;;
    (if negb (feq value 0%float) then
       let abs_v := PrimFloat.abs value in
       idx <- mlift (dds_key s abs_v) ;;
       let rep := dds_bucket_value s idx in
       raise_if (dds_inaccurate s rep abs_v)
         (ValueError "Value magnitude too small to satisfy relative accuracy") ;;;
       let target_store :=
         if flt 0%float value then dds_positive s else dds_negative s in
       raise_if (negb (dds_store_can_fit target_store idx))
         (ValueError "DDSketch occupied bucket count exceeds bounded store capacity") ;;;
       raise_if (MAX_INT64 - count <? get0 target_store idx)
         (OverflowError "DDSketch: bin count overflow")
     else
       raise_if (MAX_INT64 - count <? dds_zero_count s)
         (OverflowError "DDSketch: zero count overflow")) ;;;
    mmodify (dds_tally value count) ;;;
    s <- mget ;;
    if flt 0%float value then
      idx <- mlift (dds_key s value) ;;
      mmodify (λ s, set_positive (bump idx count (dds_positive s)) s)
    else if flt value 0%float then
      idx <- mlift (dds_key s (- value)%float) ;;
      mmodify (λ s, set_negative (bump idx count (dds_negative s)) s)
    else mmodify (λ s, set_zero_count (dds_zero_count s + count) s).

(** The temporaries of [add_batch]. *)
Record dds_tmp := mk_tmp {
  tmp_pos : gmap Z Z;
  tmp_neg : gmap Z Z;
  tmp_count : Z;
  tmp_zero_count : Z;
  tmp_min : float;
  tmp_max : float
}.

Definition tmp_init : dds_tmp := mk_tmp ∅ ∅ 0 0 infinity neg_infinity.

(** One iteration of the accumulation loop. *)
Definition tmp_add (s : dds) (t : dds_tmp) (v : float) : res dds_tmp :=
  if isnan v || isinf v then Ok t
  else
    let mn := if flt v (tmp_min t) then v else tmp_min t in
    let mx := if flt (tmp_max t) v then v else tmp_max t in
    if feq v 0%float then
      Ok (mk_tmp (tmp_pos t) (tmp_neg t) (tmp_count t + 1)
            (tmp_zero_count t + 1) mn mx)
    else
      let abs_v := PrimFloat.abs v in
      let? idx := dds_key s abs_v in
      let rep := dds_bucket_value s idx in
      if dds_inaccurate s rep abs_v then
        Raise (ValueError "Value magnitude too small to satisfy relative accuracy")
      else if flt 0%float v then
        Ok (mk_tmp (bump idx 1 (tmp_pos t)) (tmp_neg t) (tmp_count t + 1)
              (tmp_zero_count t) mn mx)
      else
        Ok (mk_tmp (tmp_pos t) (bump idx 1 (tmp_neg t)) (tmp_count t + 1)
              (tmp_zero_count t) mn mx).

(** [len(set(a).union(b))] *)
Definition union_len (a b : gmap Z Z) : Z :=
  Z.of_nat (size (dom a ∪ dom b : gset Z)).

(** [any(a.get(idx, 0) > MAX_INT64 - count for idx, count in b.items())] *)
Definition bins_overflow (a b : gmap Z Z) : bool :=
  existsb (λ p, MAX_INT64 - p.2 <? get0 a p.1) (map_to_list b).

(** [for idx, count in b.items(): a[idx] = a.get(idx, 0) + count] *)
Definition bump_all (a b : gmap Z Z) : gmap Z Z :=
  foldl (λ d p, bump p.1 p.2 d) a (map_to_list b).

Definition dds_commit_batch (t : dds_tmp) (s : dds) : dds :=
  mk_dds (dds_alpha s) (dds_gamma s) (dds_log_gamma s) (dds_multiplier s)
    (bump_all (dds_positive s) (tmp_pos t))
    (bump_all (dds_negative s) (tmp_neg t))
    (dds_zero_count s + tmp_zero_count t)
    (dds_count s + tmp_count t)
    (if flt (tmp_min t) (dds_min s) then tmp_min t else dds_min s)
    (if flt (dds_max s) (tmp_max t) then tmp_max t else dds_max s).

Definition dds_add_batch (values : list float) : M dds unit :=
  s <- mget ;;
  t <- mlift (res_fold (tmp_add s) values tmp_init) ;;
  if tmp_count t =? 0 then mret ()
  else
    raise_if (MAX_BINS <? union_len (dds_positive s) (tmp_pos t))
      (ValueError "DDSketch occupied bucket count exceeds bounded store capacity") ;;;
    raise_if (MAX_BINS <? union_len (dds_negative s) (tmp_neg t))
      (ValueError "DDSketch occupied bucket count exceeds bounded store capacity") ;;;
    raise_if (MAX_UINT64 - tmp_count t <? dds_count s)
      (OverflowError "DDSketch: total count overflow") ;;;
    raise_if (MAX_INT64 - tmp_zero_count t <? dds_zero_count s)
      (OverflowError "DDSketch: zero count overflow") ;;;
    raise_if (bins_overflow (dds_positive s) (tmp_pos t))
      (OverflowError "DDSketch: bin count overflow") ;;;
    raise_if (bins_overflow (dds_negative s) (tmp_neg t))
      (OverflowError "DDSketch: bin count overflow") ;;;
    mmodify (dds_commit_batch t).

(** [sorted(d.keys())] *)
Definition sorted_keys (d : gmap Z Z) : list Z :=
  merge_sort Z.le (map_to_list d).*1.

(** [for idx in keys: rank -= store[idx]; if rank <= 0: return ...]: the key
    at which the walk stops, or the rank that is left. *)
Fixpoint dds_walk (store : gmap Z Z) (keys : list Z) (rank : float)
  : Z + float :=
  match keys with
  | [] => inr rank
  | idx :: keys' =>
      let rank := (rank - float_of_Z (get0 store idx))%float in
      if fle rank 0%float then inl idx else dds_walk store keys' rank
  end.

Definition dds_quantile (s : dds) (q : float) : res float :=
  if isnan q || isinf q then Raise (ValueError "Quantile must be in [0, 1]")
  else if dds_count s =? 0 then Ok 0%float
  else if fle q 0%float then Ok (dds_min s)
  else if fle 1%float q then Ok (dds_max s)
  else
    let rank := (q * float_of_Z (dds_count s))%float in
    match dds_walk (dds_negative s) (reverse (sorted_keys (dds_negative s))) rank with
    | inl idx => Ok (- dds_bucket_value s idx)%float
    | inr rank =>
        let rank := (rank - float_of_Z (dds_zero_count s))%float in
        if fle rank 0%float then Ok 0%float
        else
          match dds_walk (dds_positive s) (sorted_keys (dds_positive s)) rank with
          | inl idx => Ok (dds_bucket_value s idx)
          | inr _ => Ok (dds_max s)
          end
    end.

(** Counts of the buckets whose key satisfies [p]. *)
Definition count_keys (p : Z → bool) (d : gmap Z Z) : Z :=
  sum_by (λ kv, if p kv.1 then kv.2 else 0) (map_to_list d).

Definition dds_count_greater_than (s : dds) (threshold : float) : res Z :=
  if dds_count s =? 0 then Ok 0
  else if fle (dds_max s) threshold then Ok 0
  else if flt threshold (dds_min s) then Ok (dds_count s)
  else if flt threshold 0%float then
    let? idx := dds_key s (- threshold)%float in
    Ok (count_keys (λ k, k <=? idx) (dds_negative s) + dds_zero_count s
        + dict_sum (dds_positive s))
  else if feq threshold 0%float then Ok (dict_sum (dds_positive s))
  else
    let? idx := dds_key s threshold in
    Ok (count_keys (λ k, idx <=? k) (dds_positive s)).

Definition dds_get_min (s : dds) : float :=
  if 0 <? dds_count s then dds_min s else 0%float.
Definition dds_get_max (s : dds) : float :=
  if 0 <? dds_count s then dds_max s else 0%float.

Definition dds_memory_bytes (s : dds) : Z :=
  let n_buckets := dict_len (dds_positive s) + dict_len (dds_negative s) in
  64 + n_buckets * 24.

Definition dds_reset : M dds unit :=
  mmodify (λ s, mk_dds (dds_alpha s) (dds_gamma s) (dds_log_gamma s)
    (dds_multiplier s) ∅ ∅ 0 0 infinity neg_infinity).

(** ** What a value contributes

    The bucket of a value, and the state after one accepted [add], as pure
    functions: the methods are proved to compute these. *)

Inductive bucket := BNeg (k : Z) | BZero | BPos (k : Z).

Definition dds_bucket (s : dds) (v : float) : res bucket :=
  if flt 0%float v then let? k := dds_key s v in Ok (BPos k)
  else if flt v 0%float then let? k := dds_key s (- v)%float in Ok (BNeg k)
  else Ok BZero.

Definition dds_put (s : dds) (x : float * Z) : dds :=
  let s := dds_tally x.1 x.2 s in
  match dds_bucket s x.1 with
  | Ok (BPos k) => set_positive (bump k x.2 (dds_positive s)) s
  | Ok (BNeg k) => set_negative (bump k x.2 (dds_negative s)) s
  | Ok BZero => set_zero_count (dds_zero_count s + x.2) s
  | Raise _ => s
  end.

(** The items [add] does not ignore. *)
Definition counted (x : float * Z) : bool := isfinite x.1 && (0 <? x.2).
Definition kept (xs : list (float * Z)) : list (float * Z) :=
  filter (λ x, counted x = true) xs.

(** The guards of [add] that depend on the value only. *)
Definition dds_accepts (s : dds) (v : float) : Prop :=
  match dds_bucket s v with
  | Ok BZero => True
  | Ok (BPos k) => dds_inaccurate s (dds_bucket_value s k) v = false
  | Ok (BNeg k) => dds_inaccurate s (dds_bucket_value s k) (- v)%float = false
  | Raise _ => False
  end.

#[local] Instance dds_accepts_dec s v : Decision (dds_accepts s v).
Proof. unfold dds_accepts. destruct (dds_bucket s v) as [[]|]; apply _. Defined.

(** The parameters fixed by the constructor. *)
Definition same_params (s s' : dds) : Prop :=
  dds_alpha s = dds_alpha s' ∧ dds_gamma s = dds_gamma s' ∧
  dds_log_gamma s = dds_log_gamma s' ∧ dds_multiplier s = dds_multiplier s'.

#[export] Instance same_params_equiv : Equivalence same_params.
Proof.
  split; repeat intros ?; unfold same_params in *; intuition congruence.
Qed.

Lemma put_params s x : same_params (dds_put s x) s.
Proof.
  unfold dds_put. by destruct (dds_bucket _ _) as [[]|].
Qed.

Lemma puts_params xs s : same_params (foldl dds_put s xs) s.
Proof.
  revert s. induction xs as [|x xs IH]; intros s; [done|]. simpl.
  etransitivity; [apply IH|apply put_params].
Qed.

Lemma key_params s s' v : same_params s s' → dds_key s v = dds_key s' v.
Proof. unfold dds_key. by intros (_&_&_&->). Qed.
Lemma bucket_params s s' v : same_params s s' → dds_bucket s v = dds_bucket s' v.
Proof. intros H1. unfold dds_bucket. by rewrite !(key_params s s'). Qed.
Lemma bucket_value_params s s' k :
  same_params s s' → dds_bucket_value s k = dds_bucket_value s' k.
Proof. unfold dds_bucket_value. by intros (_&->&_). Qed.
Lemma inaccurate_params s s' r v :
  same_params s s' → dds_inaccurate s r v = dds_inaccurate s' r v.
Proof. unfold dds_inaccurate. by intros (->&_). Qed.
Lemma accepts_params s s' v : same_params s s' → dds_accepts s v ↔ dds_accepts s' v.
Proof.
  intros H1. unfold dds_accepts. rewrite (bucket_params s s') by done.
  destruct (dds_bucket s' v) as [[]|]; try done;
    by rewrite (inaccurate_params s s'), (bucket_value_params s s').
Qed.
Lemma tally_params v n s : same_params (dds_tally v n s) s.
Proof. done. Qed.

(** *** Signs *)

Lemma fnum_cases v :
  num v → (flt 0%float v = true ∧ flt v 0%float = false ∧ feq v 0%float = false) ∨
  (flt 0%float v = false ∧ flt v 0%float = true ∧ feq v 0%float = false) ∨
  (flt 0%float v = false ∧ flt v 0%float = false ∧ feq v 0%float = true).
Proof.
  intros Hv. rewrite <- !not_true_iff_false.
  rewrite !flt_val, !feq_val by done. rewrite fval_zero. lia.
Qed.

Lemma abs_pos v : flt 0%float v = true → PrimFloat.abs v = v.
Proof.
  intros Hv. pose proof (flt_num_r _ _ Hv) as Hn. apply flt_val in Hv; [|done..].
  rewrite fval_zero in Hv. revert Hv. unfold fval. intros Hv.
  apply FloatAxioms.Prim2SF_inj. rewrite FloatAxioms.abs_spec.
  pose proof (FloatAxioms.Prim2SF_valid v) as Vv.
  destruct (FloatOps.Prim2SF v) as [[]|[]| |[] m e]; try done.
  apply finite_value_bound in Vv. cbn [SFval SpecFloat.cond_Zopp] in Hv. lia.
Qed.

Lemma abs_neg v : flt v 0%float = true → PrimFloat.abs v = (- v)%float.
Proof.
  intros Hv. pose proof (flt_num_l _ _ Hv) as Hn. apply flt_val in Hv; [|done..].
  rewrite fval_zero in Hv. revert Hv. unfold fval. intros Hv.
  apply FloatAxioms.Prim2SF_inj. rewrite FloatAxioms.abs_spec, FloatAxioms.opp_spec.
  pose proof (FloatAxioms.Prim2SF_valid v) as Vv.
  destruct (FloatOps.Prim2SF v) as [[]|[]| |[] m e]; try done.
  apply finite_value_bound in Vv. cbn [SFval SpecFloat.cond_Zopp] in Hv. lia.
Qed.

Lemma counted_false x :
  counted x = false → isnan x.1 || isinf x.1 = true ∨ (x.2 <=? 0) = true.
Proof.
  unfold counted, isfinite, PrimFloat.is_finite, isnan, isinf.
  destruct (PrimFloat.is_nan x.1 || PrimFloat.is_infinity x.1); [by left|].
  simpl. right. lia.
Qed.
Lemma counted_true x :
  counted x = true →
  isnan x.1 || isinf x.1 = false ∧ (x.2 <=? 0) = false ∧
  isfinite x.1 = true ∧ 0 < x.2.
Proof.
  unfold counted, isfinite, PrimFloat.is_finite, isnan, isinf.
  destruct (PrimFloat.is_nan x.1 || PrimFloat.is_infinity x.1); [done|].
  simpl. lia.
Qed.

(** ** [add] on every branch *)

(** All the guards of [add]. *)
Definition dds_admits (s : dds) (x : float * Z) : bool :=
  (x.2 <=? MAX_INT64) && (dds_count s <=? MAX_UINT64 - x.2) &&
  match dds_bucket s x.1 with
  | Ok (BPos k) =>
      negb (dds_inaccurate s (dds_bucket_value s k) x.1) &&
      dds_store_can_fit (dds_positive s) k &&
      (get0 (dds_positive s) k <=? MAX_INT64 - x.2)
  | Ok (BNeg k) =>
      negb (dds_inaccurate s (dds_bucket_value s k) (- x.1)%float) &&
      dds_store_can_fit (dds_negative s) k &&
      (get0 (dds_negative s) k <=? MAX_INT64 - x.2)
  | Ok BZero => dds_zero_count s <=? MAX_INT64 - x.2
  | Raise _ => false
  end.

Lemma dds_add_run v n s :
  ∃ e, dds_add v n s =
    if counted (v, n)
    then if dds_admits s (v, n) then (Ok tt, dds_put s (v, n)) else (Raise e, s)
    else (Ok tt, s).
Proof.
  unfold dds_add. destruct (counted (v, n)) eqn:Hc.
  2: { exists (ValueError ""). apply counted_false in Hc as [Hc|Hc]; simpl in Hc.
       - by rewrite Hc.
       - rewrite Hc. by destruct (_ || _). }
  apply counted_true in Hc as (Hnf & Hle & Hfin & Hn).
  simpl in Hnf, Hle, Hfin, Hn. rewrite Hnf, Hle.
  unfold dds_admits, dds_put. simpl fst. simpl snd.
  rewrite (bucket_params (dds_tally v n s) s) by done.
  cbv [mbind mlift mget mmodify mret raise_if mraise].
  rewrite (Z.ltb_antisym n).
  destruct (n <=? MAX_INT64); [|by eexists]. cbn [negb andb].
  rewrite (Z.ltb_antisym (dds_count s)).
  destruct (dds_count s <=? MAX_UINT64 - n); [|by eexists]. cbn [negb andb].
  unfold dds_bucket.
  destruct (fnum_cases v (isfinite_num _ Hfin)) as [(E1&E2&E3)|[(E1&E2&E3)|(E1&E2&E3)]];
    rewrite ?E1, ?E2, ?E3; cbn [negb].
  - rewrite (abs_pos v) by done.
    destruct (dds_key s v) as [k|e] eqn:Ek; simpl; [|by eexists].
    destruct (dds_inaccurate _ _ _); simpl; [by eexists|].
    destruct (dds_store_can_fit _ _); simpl; [|by eexists].
    rewrite (Z.ltb_antisym (get0 _ _)).
    destruct (get0 _ _ <=? _); simpl; [|by eexists].
    rewrite (key_params (dds_tally v n s) s), Ek by done. by exists (ValueError "").
  - rewrite (abs_neg v) by done.
    destruct (dds_key s (- v)%float) as [k|e] eqn:Ek; simpl; [|by eexists].
    destruct (dds_inaccurate _ _ _); simpl; [by eexists|].
    destruct (dds_store_can_fit _ _); simpl; [|by eexists].
    rewrite (Z.ltb_antisym (get0 _ _)).
    destruct (get0 _ _ <=? _); simpl; [|by eexists].
    rewrite (key_params (dds_tally v n s) s), Ek by done. by exists (ValueError "").
  - simpl. rewrite (Z.ltb_antisym (dds_zero_count s)).
    destruct (dds_zero_count s <=? _); simpl; [by exists (ValueError "")|by eexists].
Qed.

Lemma dds_add_atomic v n : atomic (dds_add v n).
Proof.
  intros s e s' E. destruct (dds_add_run v n s) as [e' E']. rewrite E in E'.
  destruct (counted (v, n)), (dds_admits s (v, n)); by injection E'.
Qed.

(** ** Counting lemmas for the bucket dictionaries *)

Lemma get0_bump k n d k' :
  get0 (bump k n d) k' = get0 d k' + (if decide (k = k') then n else 0).
Proof.
  unfold get0 at 1, bump. destruct (decide (k = k')) as [->|].
  - by rewrite lookup_insert_eq.
  - rewrite lookup_insert_ne by done. unfold get0. lia.
Qed.

Lemma count_keys_insert p k v d :
  d !! k = None → count_keys p (<[k := v]> d) = count_keys p d + (if p k then v else 0).
Proof.
  intros Hk. unfold count_keys.
  rewrite (sum_by_perm _ _ _ (map_to_list_insert d k v Hk)), sum_by_cons. simpl.
  lia.
Qed.

Lemma count_keys_bump p k n d :
  count_keys p (bump k n d) = count_keys p d + (if p k then n else 0).
Proof.
  unfold bump, get0. destruct (d !! k) as [v|] eqn:E; simpl.
  - rewrite <- (insert_delete_id d k v) at 2 by done.
    rewrite <- (insert_delete_eq d k).
    rewrite !count_keys_insert by apply lookup_delete_eq.
    destruct (p k); lia.
  - rewrite count_keys_insert by done. destruct (p k); lia.
Qed.

Lemma count_keys_empty p : count_keys p ∅ = 0.
Proof. done. Qed.

Lemma dict_sum_count d : dict_sum d = count_keys (λ _, true) d.
Proof. done. Qed.

Lemma dict_sum_bump k n d : dict_sum (bump k n d) = dict_sum d + n.
Proof. rewrite !dict_sum_count. by rewrite count_keys_bump. Qed.

(** The same sum along any enumeration of the keys. *)
Lemma count_keys_along p d ks :
  ks ≡ₚ (map_to_list d).*1 →
  count_keys p d = sum_by (λ k, if p k then get0 d k else 0) ks.
Proof.
  intros Hp. rewrite (sum_by_perm _ _ _ Hp). unfold count_keys, sum_by.
  rewrite <- list_fmap_compose. f_equal. apply list_fmap_ext.
  intros i [k v] Hi. simpl. unfold get0.
  apply list_elem_of_lookup_2, elem_of_map_to_list in Hi. by rewrite Hi.
Qed.

Lemma sorted_keys_perm d : sorted_keys d ≡ₚ (map_to_list d).*1.
Proof. apply merge_sort_Permutation. Qed.

Lemma sorted_keys_sorted d : StronglySorted Z.lt (sorted_keys d).
Proof.
  assert (StronglySorted Z.le (sorted_keys d)) as Hs
    by apply (StronglySorted_merge_sort Z.le).
  assert (NoDup (sorted_keys d)) as Hn.
  { rewrite sorted_keys_perm. apply NoDup_fst_map_to_list. }
  induction Hs as [|k ks Hs IH Hf]; [constructor|].
  apply NoDup_cons in Hn as [Hk Hn]. constructor; [by apply IH|].
  apply Forall_forall. intros k' Hk'. rewrite Forall_forall in Hf.
  specialize (Hf k' Hk'). assert (k ≠ k') by (intros ->; done). lia.
Qed.

(** ** The state is a function of the accepted items *)

(** Total count of the items satisfying [P]. *)
Definition weight (P : float → bool) (xs : list (float * Z)) : Z :=
  sum_by (λ x, if P x.1 then x.2 else 0) xs.

Lemma weight_nil P : weight P [] = 0.
Proof. done. Qed.

Lemma weight_snoc P xs x :
  weight P (xs ++ [x]) = weight P xs + (if P x.1 then x.2 else 0).
Proof. unfold weight. rewrite sum_by_app. unfold sum_by at 2. simpl. lia. Qed.

Lemma weight_mono P Q xs :
  (∀ x, x ∈ xs → 0 < x.2) →
  (∀ x, x ∈ xs → P x.1 = true → Q x.1 = true) → weight P xs ≤ weight Q xs.
Proof.
  intros Hpos Himp. apply sum_by_le. intros x Hx.
  specialize (Hpos x Hx). specialize (Himp x Hx).
  destruct (P x.1); [by rewrite Himp|]. destruct (Q x.1); lia.
Qed.

Definition in_pos (s : dds) (p : Z → bool) (v : float) : bool :=
  match dds_bucket s v with Ok (BPos k) => p k | _ => false end.
Definition in_neg (s : dds) (p : Z → bool) (v : float) : bool :=
  match dds_bucket s v with Ok (BNeg k) => p k | _ => false end.
Definition in_zero (s : dds) (v : float) : bool :=
  match dds_bucket s v with Ok BZero => true | _ => false end.

(** A state whose counters are those of the items [xs], over the counters of
    [s0]. *)
Definition puts (s0 : dds) (xs : list (float * Z)) : dds := foldl dds_put s0 xs.

Lemma puts_snoc s0 xs x : puts s0 (xs ++ [x]) = dds_put (puts s0 xs) x.
Proof. unfold puts. by rewrite foldl_app. Qed.

Lemma puts_bucket s0 xs v : dds_bucket (puts s0 xs) v = dds_bucket s0 v.
Proof. apply bucket_params, puts_params. Qed.

Lemma puts_counts s0 xs :
  (∀ p, count_keys p (dds_positive (puts s0 xs)) =
        count_keys p (dds_positive s0) + weight (in_pos s0 p) xs) ∧
  (∀ p, count_keys p (dds_negative (puts s0 xs)) =
        count_keys p (dds_negative s0) + weight (in_neg s0 p) xs) ∧
  dds_zero_count (puts s0 xs) = dds_zero_count s0 + weight (in_zero s0) xs ∧
  dds_count (puts s0 xs) = dds_count s0 + weight (λ _, true) xs.
Proof.
  induction xs as [|x xs IH] using rev_ind.
  { split_and!; intros; rewrite weight_nil; simpl; lia. }
  rewrite !puts_snoc. destruct IH as (I1 & I2 & I3 & I4).
  assert (dds_bucket (dds_tally x.1 x.2 (puts s0 xs)) x.1 = dds_bucket s0 x.1) as Eb.
  { rewrite (bucket_params _ (puts s0 xs)) by done. apply puts_bucket. }
  unfold dds_put. rewrite Eb.
  split_and!; intros; rewrite weight_snoc;
    match goal with |- context [weight ?P xs] => remember (weight P xs) as W eqn:EW end;
    destruct (dds_bucket s0 x.1) as [[k| |k]|] eqn:E; simpl;
    rewrite ?count_keys_bump, ?I1, ?I2, ?I3, ?I4, <- ?EW;
    unfold in_pos, in_neg, in_zero; rewrite ?E; lia.
Qed.

(** ** Runs of [add] *)

Definition dds_adds (xs : list (float * Z)) : M dds unit :=
  mfor xs (λ x, dds_add x.1 x.2).

Lemma admits_accepts s x : dds_admits s x = true → dds_accepts s x.1.
Proof.
  unfold dds_admits, dds_accepts. rewrite !andb_true_iff. intros [_ Hb].
  destruct (dds_bucket s x.1) as [[k| |k]|]; try done;
    rewrite !andb_true_iff, negb_true_iff in Hb; tauto.
Qed.

Lemma dds_adds_run xs s0 s :
  dds_adds xs s0 = (Ok tt, s) →
  s = puts s0 (kept xs) ∧
  ∀ x, x ∈ kept xs → isfinite x.1 = true ∧ 0 < x.2 ∧ dds_accepts s0 x.1.
Proof.
  unfold dds_adds. revert s0. induction xs as [|[v n] xs IH]; intros s0; simpl.
  { intros [= <-]. split; [done|]. by intros x ?%elem_of_nil. }
  intros (u & s1 & Ha & Hr)%mbind_ok. destruct (dds_add_run v n s0) as [e He].
  rewrite Ha in He. unfold kept. rewrite filter_cons. fold (kept xs).
  destruct (counted (v, n)) eqn:Hc.
  - rewrite decide_True by done.
    destruct (dds_admits s0 (v, n)) eqn:Hg; [|done]. injection He as _ ->.
    destruct (IH _ Hr) as [-> Hx]. split; [done|].
    intros x [->|Hin]%elem_of_cons.
    + apply counted_true in Hc as (_ & _ & ? & ?). apply admits_accepts in Hg. done.
    + destruct (Hx x Hin) as (?&?&Ha'). split_and!; try done.
      eapply accepts_params; [|exact Ha']. symmetry. apply put_params.
  - rewrite decide_False by done. injection He as _ ->. by apply IH.
Qed.

(** ** Keys are monotone

    With a monotone logarithm and a non-negative multiplier, a larger value
    never falls into a smaller bucket, rounding included. *)

Context `{!LibmLaws H}.

(** The multiplier of a usable sketch. *)
Definition good_multiplier (s : dds) : Prop :=
  isfinite (dds_multiplier s) = true ∧ fle 0%float (dds_multiplier s) = true.

Lemma py_ceil_finite x k : py_ceil x = Ok k → isfinite x = true.
Proof.
  rewrite isfinite_SF. unfold py_ceil.
  destruct (FloatOps.Prim2SF x) as [s|s| |s m e]; try done; eauto 8.
Qed.

Lemma dds_key_mono s v w i j :
  good_multiplier s → isfinite v = true → isfinite w = true →
  flt 0%float v = true → fle v w = true →
  dds_key s v = Ok i → dds_key s w = Ok j → i ≤ j.
Proof.
  intros [Fm Pm] Fv Fw Hv Hvw. unfold dds_key, py_log.
  pose proof (flt_fle_trans _ _ _ Hv Hvw) as Hw.
  pose proof (flt_num_r _ _ Hv). pose proof (flt_num_r _ _ Hw).
  assert (fle v 0%float = false) as -> by (by apply not_fle).
  assert (fle w 0%float = false) as -> by (by apply not_fle). simpl. intros Hi Hj.
  refine (py_ceil_mono _ _ _ _ (py_ceil_finite _ _ Hi) (py_ceil_finite _ _ Hj) _ Hi Hj).
  apply fmul_mono_pos; try done; try (by apply lm_log_finite).
  by apply lm_log_mono.
Qed.

(** The order of buckets along the real line. *)
Definition bucket_le (a b : bucket) : Prop :=
  match a, b with
  | BNeg i, BNeg j => j ≤ i
  | BNeg _, _ => True
  | BZero, BNeg _ => False
  | BZero, _ => True
  | BPos i, BPos j => i ≤ j
  | BPos _, _ => False
  end.

Lemma bucket_le_total a b : bucket_le a b ∨ bucket_le b a.
Proof. destruct a, b; simpl; lia. Qed.
Lemma bucket_le_trans a b c : bucket_le a b → bucket_le b c → bucket_le a c.
Proof. destruct a, b, c; simpl; lia. Qed.
Lemma bucket_le_antisym a b : bucket_le a b → bucket_le b a → a = b.
Proof. destruct a, b; simpl; intros; try done; f_equal; lia. Qed.

#[local] Instance bucket_eq_dec : EqDecision bucket.
Proof. solve_decision. Defined.

Definition bucket_leb (a b : bucket) : bool :=
  match a, b with
  | BNeg i, BNeg j => j <=? i
  | BPos i, BPos j => i <=? j
  | BNeg _, _ | BZero, BZero | BZero, BPos _ => true
  | _, _ => false
  end.
Definition bucket_ltb (a b : bucket) : bool :=
  match a, b with
  | BNeg i, BNeg j => j <? i
  | BPos i, BPos j => i <? j
  | BNeg _, _ | BZero, BPos _ => true
  | _, _ => false
  end.
Lemma bucket_leb_spec a b : bucket_leb a b = true ↔ bucket_le a b.
Proof. destruct a, b; simpl; rewrite ?Z.leb_le; done. Qed.
Lemma bucket_ltb_spec a b : bucket_ltb a b = true ↔ bucket_le a b ∧ a ≠ b.
Proof.
  destruct a, b; simpl; rewrite ?Z.ltb_lt; split; try done; try (by intros []);
    try (intros ?; split; [lia|congruence || (intros [= ->]; lia)]).
  - intros [? Hne]. assert (k ≠ k0) by congruence. lia.
  - intros [? Hne]. assert (k ≠ k0) by congruence. lia.
Qed.

Lemma isfinite_opp v : isfinite (- v)%float = isfinite v.
Proof.
  apply eq_true_iff_eq. rewrite !isfinite_fval, num_opp, fval_opp, Z.abs_opp. done.
Qed.

Lemma dds_bucket_mono s v w a b :
  good_multiplier s → isfinite v = true → isfinite w = true →
  fle v w = true → dds_bucket s v = Ok a → dds_bucket s w = Ok b →
  bucket_le a b.
Proof.
  intros Hm Fv Fw Hle. unfold dds_bucket.
  pose proof (isfinite_num _ Fv) as Nv. pose proof (isfinite_num _ Fw) as Nw.
  pose proof (proj1 (fle_val v w Nv Nw) Hle) as Hval.
  destruct (fnum_cases v Nv) as [(E1&E2&E3)|[(E1&E2&E3)|(E1&E2&E3)]];
    destruct (fnum_cases w Nw) as [(F1&F2&F3)|[(F1&F2&F3)|(F1&F2&F3)]];
    rewrite E1, ?E2, F1, ?F2;
    try (destruct (dds_key s v) as [i|] eqn:Ki; [|done]);
    try (destruct (dds_key s (- v)%float) as [i|] eqn:Ki; [|done]);
    try (destruct (dds_key s w) as [j|] eqn:Kj; [|done]);
    try (destruct (dds_key s (- w)%float) as [j|] eqn:Kj; [|done]);
    simpl; intros [= <-] [= <-]; simpl; try done;
    try (apply flt_val in E1; [|done..]); try (apply flt_val in E2; [|done..]);
    try (apply feq_val in E3; [|done..]); try (apply flt_val in F1; [|done..]);
    try (apply flt_val in F2; [|done..]); try (apply feq_val in F3; [|done..]);
    rewrite ?fval_zero in *; try lia.
  - eapply (dds_key_mono s v w); try done. apply flt_val; [done..|].
    by rewrite fval_zero.
  - assert (num (- v)%float ∧ num (- w)%float) as [??] by by rewrite !num_opp.
    eapply (dds_key_mono s (- w)%float (- v)%float); try done.
    + by rewrite isfinite_opp.
    + by rewrite isfinite_opp.
    + apply flt_val; [done..|]. rewrite fval_opp, fval_zero. lia.
    + apply fle_val; [done..|]. rewrite !fval_opp. lia.
Qed.

(** ** The rank walk *)

Lemma dds_walk_spec store ks x :
  isfinite x = true → 0 < fval x ≤ 2 ^ 53 * 2 ^ 1074 →
  (∀ k, k ∈ ks → 0 ≤ get0 store k ≤ 2 ^ 53) →
  match dds_walk store ks x with
  | inl k => ∃ pre post, ks = pre ++ k :: post ∧
      sum_by (get0 store) pre * 2 ^ 1074 < fval x ≤
      (sum_by (get0 store) pre + get0 store k) * 2 ^ 1074
  | inr x' => isfinite x' = true ∧
      fval x' = fval x - sum_by (get0 store) ks * 2 ^ 1074 ∧
      0 < fval x' ≤ 2 ^ 53 * 2 ^ 1074
  end.
Proof.
  revert x. induction ks as [|k ks IH]; intros x Fx Hx Hks; cbn [dds_walk].
  { split_and!; try done; unfold sum_by; simpl; lia. }
  destruct (Hks k) as [Hk0 Hk1]; [by left|].
  set (n := get0 store k) in *. assert (0 < 2 ^ 1074) as HU by done.
  destruct (Z.le_gt_cases (fval x) (n * 2 ^ 1074)) as [Hle|Hgt].
  - rewrite fsub_int_le0 by done. exists [], ks. split; [done|].
    unfold sum_by. simpl. fold n. lia.
  - destruct (fsub_int_exact x n Fx Hk0) as [V F]; [lia|].
    assert (0 ≤ n * 2 ^ 1074) by (apply Z.mul_nonneg_nonneg; [done|lia]).
    assert (fle (x - float_of_Z n) 0 = false) as ->.
    { apply not_true_is_false. rewrite fle_val by (done || by apply isfinite_num).
      rewrite fval_zero, V. lia. }
    specialize (IH _ F ltac:(lia) (λ k' Hk', Hks k' (list_elem_of_further _ _ _ Hk'))).
    destruct (dds_walk store ks _) as [k'|x'].
    + destruct IH as (pre & post & -> & Hb). exists (k :: pre), post.
      split; [done|]. rewrite sum_by_cons. fold n.
      rewrite V in Hb. rewrite !Z.mul_add_distr_r in *. lia.
    + destruct IH as (F' & V' & Hb'). split; [done|]. split; [|done].
      rewrite V', V, sum_by_cons. fold n. lia.
Qed.

Lemma count_keys_delete p d k v :
  d !! k = Some v →
  count_keys p d = count_keys p (delete k d) + (if p k then v else 0).
Proof.
  intros E. rewrite <- (insert_delete_id d k v E) at 1.
  apply count_keys_insert, lookup_delete_eq.
Qed.

Lemma count_keys_eq d k : count_keys (λ j, bool_decide (j = k)) d = get0 d k.
Proof.
  unfold get0. destruct (d !! k) as [v|] eqn:E; simpl.
  - rewrite (count_keys_delete _ d k v E).
    rewrite bool_decide_eq_true_2 by done.
    unfold count_keys. rewrite sum_by_zero; [lia|].
    intros [j w] Hj%elem_of_map_to_list. simpl. apply lookup_delete_Some in Hj.
    by rewrite bool_decide_eq_false_2 by naive_solver.
  - unfold count_keys. apply sum_by_zero.
    intros [j w] Hj%elem_of_map_to_list. simpl.
    by rewrite bool_decide_eq_false_2 by naive_solver.
Qed.

Lemma StronglySorted_middle (R : Z → Z → Prop) pre k post :
  StronglySorted R (pre ++ k :: post) →
  (∀ j, j ∈ pre → R j k) ∧ (∀ j, j ∈ post → R k j).
Proof.
  induction pre as [|a pre IH]; simpl; intros Hs.
  - apply StronglySorted_inv in Hs as [_ Hf]. split; [by intros j ?%elem_of_nil|].
    by rewrite Forall_forall in Hf.
  - apply StronglySorted_inv in Hs as [Hs Hf]. destruct (IH Hs) as [I1 I2].
    split; [|done]. intros j [->|Hj]%elem_of_cons; [|by apply I1].
    rewrite Forall_forall in Hf. apply Hf. rewrite elem_of_app, elem_of_cons. auto.
Qed.

Lemma count_keys_split p d pre k post :
  (map_to_list d).*1 ≡ₚ pre ++ k :: post →
  (∀ j, j ∈ pre → p j = true) → (∀ j, j ∈ post → p j = false) →
  count_keys p d = sum_by (get0 d) pre + (if p k then get0 d k else 0).
Proof.
  intros E H1 H2. rewrite (count_keys_along p d (pre ++ k :: post)) by done.
  rewrite sum_by_app, sum_by_cons, (sum_by_zero _ post).
  - rewrite (sum_by_ext (λ j, if p j then get0 d j else 0) (get0 d) pre); [lia|].
    intros j Hj. by rewrite H1.
  - intros j Hj. by rewrite H2.
Qed.

(** Below a key of the sorted enumeration, and up to it. *)
Lemma count_below d pre k post :
  sorted_keys d = pre ++ k :: post →
  sum_by (get0 d) pre = count_keys (λ j, j <? k) d ∧
  sum_by (get0 d) pre + get0 d k = count_keys (λ j, j <=? k) d.
Proof.
  intros E. pose proof (sorted_keys_sorted d) as Hs. rewrite E in Hs.
  apply StronglySorted_middle in Hs as [H1 H2].
  assert ((map_to_list d).*1 ≡ₚ pre ++ k :: post) as Hp
    by (rewrite <- E; symmetry; apply sorted_keys_perm).
  rewrite !(count_keys_split _ d pre k post Hp).
  - rewrite Z.ltb_irrefl, Z.leb_refl. lia.
  - intros j Hj. specialize (H1 j Hj). lia.
  - intros j Hj. specialize (H2 j Hj). lia.
  - intros j Hj. specialize (H1 j Hj). lia.
  - intros j Hj. specialize (H2 j Hj). lia.
Qed.

(** The same along the descending enumeration. *)
Lemma count_above d pre k post :
  reverse (sorted_keys d) = pre ++ k :: post →
  sum_by (get0 d) pre = count_keys (λ j, k <? j) d ∧
  sum_by (get0 d) pre + get0 d k = count_keys (λ j, k <=? j) d.
Proof.
  intros E. assert (sorted_keys d = reverse post ++ k :: reverse pre) as E'.
  { apply (f_equal reverse) in E. rewrite reverse_involutive in E.
    rewrite E, reverse_app, reverse_cons, <- app_assoc. done. }
  pose proof (sorted_keys_sorted d) as Hs. rewrite E' in Hs.
  apply StronglySorted_middle in Hs as [H1 H2].
  setoid_rewrite elem_of_reverse in H1. setoid_rewrite elem_of_reverse in H2.
  assert ((map_to_list d).*1 ≡ₚ pre ++ k :: post) as Hp.
  { rewrite <- E, reverse_Permutation. symmetry. apply sorted_keys_perm. }
  rewrite !(count_keys_split _ d pre k post Hp).
  - rewrite Z.ltb_irrefl, Z.leb_refl. lia.
  - intros j Hj. specialize (H2 j Hj). lia.
  - intros j Hj. specialize (H1 j Hj). lia.
  - intros j Hj. specialize (H2 j Hj). lia.
  - intros j Hj. specialize (H1 j Hj). lia.
Qed.

Lemma sum_all_keys d ks :
  ks ≡ₚ sorted_keys d → sum_by (get0 d) ks = count_keys (λ _, true) d.
Proof.
  intros E. rewrite (count_keys_along _ d ks).
  - done.
  - rewrite E. apply sorted_keys_perm.
Qed.

(** ** Quantiles *)

(** [v] is where the cumulative weight of the data reaches the rank [r]. *)
Definition is_quantile (xs : list (float * Z)) (r v : float) : Prop :=
  weight (λ w, flt w v) xs * 2 ^ 1074 < fval r ≤
  weight (λ w, fle w v) xs * 2 ^ 1074.

(** [ans] is within the relative accuracy of [v], as the code measures it. *)
Definition dds_close (s : dds) (v ans : float) : Prop :=
  (flt 0%float v = true ∧ dds_inaccurate s ans v = false) ∨
  (flt v 0%float = true ∧
   ∃ rep, ans = (- rep)%float ∧ dds_inaccurate s rep (- v)%float = false) ∨
  (feq v 0%float = true ∧ ans = 0%float).

Definition good_items (xs : list (float * Z)) : Prop :=
  ∀ x, x ∈ xs → isfinite x.1 = true ∧ 0 < x.2.

Lemma weight_ext P Q xs :
  (∀ x, x ∈ xs → P x.1 = Q x.1) → weight P xs = weight Q xs.
Proof. intros HPQ. apply sum_by_ext. intros x Hx. by rewrite HPQ. Qed.

Lemma weight_nonneg P xs : good_items xs → 0 ≤ weight P xs.
Proof.
  intros Hg. apply sum_by_nonneg. intros x Hx. destruct (Hg x Hx).
  destruct (P x.1); lia.
Qed.

Lemma exact_quantile xs r :
  good_items xs → 0 < fval r ≤ weight (λ _, true) xs * 2 ^ 1074 →
  ∃ x, x ∈ xs ∧ is_quantile xs r x.1.
Proof.
  intros Hg Hr.
  assert (∀ x y, x ∈ xs → y ∈ xs →
    (fle x.1 y.1 = true ↔ fval x.1 ≤ fval y.1)) as Hle.
  { intros x y Hx Hy. apply fle_val; apply isfinite_num; by apply Hg. }
  assert (∀ x y, x ∈ xs → y ∈ xs →
    (flt x.1 y.1 = true ↔ fval x.1 < fval y.1)) as Hlt.
  { intros x y Hx Hy. apply flt_val; apply isfinite_num; by apply Hg. }
  assert (∀ x, x ∈ xs → 0 < x.2) as Hpos by (intros x Hx; by apply Hg).
  set (up y := weight (λ w, fle w y) xs * 2 ^ 1074).
  set (cand := filter (λ x, fval r ≤ up x.1) xs).
  destruct (argmin_exists (λ x : float * Z, - fval x.1) xs) as (m & Hm & Hmax).
  { intros ->. rewrite weight_nil in Hr. lia. }
  destruct (argmin_exists (λ x : float * Z, fval x.1) cand) as (a & Ha & Hmin).
  { assert (m ∈ cand) as Hc; [|by intros E; rewrite E in Hc; apply elem_of_nil in Hc].
    apply list_elem_of_filter. split; [|done]. unfold up.
    rewrite (weight_ext _ (λ _, true)); [lia|].
    intros x Hx. apply Hle; [done..|]. specialize (Hmax x Hx). lia. }
  apply list_elem_of_filter in Ha as [Hup Ha].
  exists a. split; [done|]. split; [|exact Hup].
  apply Z.nle_gt. intros Hbad.
  set (low := filter (λ x, flt x.1 a.1 = true) xs).
  destruct (argmin_exists (λ x : float * Z, - fval x.1) low) as (b & Hb & Hbmax).
  { intros E. assert (weight (λ w, flt w a.1) xs = 0) as E0; [|rewrite E0 in Hbad; lia].
    apply sum_by_zero. intros x Hx. destruct (flt x.1 a.1) eqn:Ex; [|done].
    assert (x ∈ low) as Hx' by by apply list_elem_of_filter.
    rewrite E in Hx'. by apply elem_of_nil in Hx'. }
  apply list_elem_of_filter in Hb as [Hba Hb].
  assert (b ∈ cand) as Hbc.
  { apply list_elem_of_filter. split; [|done]. etransitivity; [exact Hbad|].
    unfold up. apply Z.mul_le_mono_nonneg_r; [done|].
    apply weight_mono; [done|]. intros x Hx Hxa. apply Hle; [done..|].
    specialize (Hbmax x ltac:(by apply list_elem_of_filter)). lia. }
  specialize (Hmin b Hbc). apply Hlt in Hba; [|done..]. lia.
Qed.

(** Weight of the items in the buckets strictly below, or up to, a bucket. *)
Definition under (s : dds) (b : bucket) (v : float) : bool :=
  match dds_bucket s v with
  | Ok c => bucket_ltb c b | Raise _ => false end.
Definition upto (s : dds) (b : bucket) (v : float) : bool :=
  match dds_bucket s v with
  | Ok c => bucket_leb c b | Raise _ => false end.

(** If the rank falls in bucket [b], so does every exact quantile. *)
Lemma quantile_bucket s xs r b x c :
  good_multiplier s → good_items xs →
  (∀ y, y ∈ xs → is_ok (dds_bucket s y.1) = true) →
  weight (under s b) xs * 2 ^ 1074 < fval r ≤ weight (upto s b) xs * 2 ^ 1074 →
  x ∈ xs → is_quantile xs r x.1 → dds_bucket s x.1 = Ok c → c = b.
Proof.
  intros Hm Hg Hok Hr Hx [Hlo Hhi] Hc.
  assert (∀ x, x ∈ xs → 0 < x.2) as Hpos by (intros y Hy; by apply Hg).
  assert (0 < 2 ^ 1074) as HU by done.
  destruct (decide (c = b)) as [|Hne]; [done|exfalso].
  destruct (bucket_le_total c b) as [Hcb|Hbc].
  - assert (weight (λ w, fle w x.1) xs ≤ weight (under s b) xs); [|nia].
    apply weight_mono; [done|]. intros y Hy Hyx. unfold under.
    specialize (Hok y Hy). destruct (dds_bucket s y.1) as [d|] eqn:Hd; [|done].
    assert (bucket_le d c) as Hdc.
    { destruct (Hg x Hx), (Hg y Hy). by eapply (dds_bucket_mono s y.1 x.1). }
    apply bucket_ltb_spec. split; [by eapply bucket_le_trans|].
    intros ->. apply Hne. by apply bucket_le_antisym.
  - assert (weight (upto s b) xs ≤ weight (λ w, flt w x.1) xs); [|nia].
    apply weight_mono; [done|]. intros y Hy. unfold upto.
    destruct (dds_bucket s y.1) as [d|] eqn:Hd; [|done].
    intros Hdb%bucket_leb_spec. apply not_false_iff_true. intros Hlt.
    destruct (Hg x Hx) as [Fx _], (Hg y Hy) as [Fy _].
    apply not_flt in Hlt; [|by apply isfinite_num..].
    assert (bucket_le c d) as Hcd by by eapply (dds_bucket_mono s x.1 y.1).
    apply Hne. apply bucket_le_antisym; [|done]. by eapply bucket_le_trans.
Qed.

Lemma rank_bounds q n :
  isfinite q = true → flt 0%float q = true → flt q 1%float = true →
  0 < n ≤ 2 ^ 53 →
  let r := (q * float_of_Z n)%float in
  isfinite r = true ∧ 0 < fval r ≤ n * 2 ^ 1074.
Proof.
  intros Fq H0 H1 Hn r. pose proof (isfinite_num _ Fq) as Nq.
  apply flt_val in H0; [|done..]. apply flt_val in H1; [|done..].
  rewrite fval_zero in H0. assert (fval 1%float = 2 ^ 1074) as E1 by done.
  rewrite E1 in H1. assert (0 < 2 ^ 1074) as HU by done.
  assert (isfinite (float_of_Z n) = true) as Fn.
  { apply float_of_Z_finite. assert (2 ^ 53 < 2 ^ 1023) by done. lia. }
  destruct (fval_mul q (float_of_Z n) Fq Fn) as [V N]. fold r in V, N.
  rewrite fval_float_of_Z_small in V by lia.
  assert (0 < n * 2 ^ 1074) by (apply Z.mul_pos_pos; lia).
  assert (fval r ≤ n * 2 ^ 1074) as Hhi.
  { rewrite V. etransitivity; [apply (Rnd_mono _ (n * 2 ^ 1074 * 2 ^ 1074))|].
    - rewrite (Z.mul_comm (n * 2 ^ 1074)). apply Z.mul_le_mono_nonneg_r; lia.
    - rewrite Rnd_exact by (apply representable_int; lia). done. }
  assert (fval q ≤ fval r) as Hlo.
  { rewrite V, <- (Rnd_exact (fval q)) at 1 by by apply fval_representable.
    apply Rnd_mono. apply Z.mul_le_mono_nonneg_l; [lia|].
    rewrite <- (Z.mul_1_l (2 ^ 1074)) at 1. apply Z.mul_le_mono_nonneg_r; lia. }
  split; [|lia]. apply isfinite_fval. split; [done|].
  assert (2 ^ 53 * 2 ^ 1074 < fmax_val) by done.
  assert (n * 2 ^ 1074 ≤ 2 ^ 53 * 2 ^ 1074) by (apply Z.mul_le_mono_nonneg_r; lia).
  lia.
Qed.

Lemma weight_add P Q R xs :
  (∀ x, x ∈ xs → (R x.1 = P x.1 || Q x.1) ∧ P x.1 && Q x.1 = false) →
  weight R xs = weight P xs + weight Q xs.
Proof.
  unfold weight. induction xs as [|x xs IH]; intros Hd; [done|].
  rewrite !sum_by_cons, IH.
  - destruct (Hd x) as [E1 E2]; [by left|]. rewrite E1.
    destruct (P x.1), (Q x.1); simpl in *; try done; lia.
  - intros y Hy. apply Hd. by right.
Qed.

Section counts.
Context (s : dds) (xs : list (float * Z)).

Ltac by_bucket :=
  intros x Hx; unfold under, upto, in_neg, in_pos, in_zero;
  destruct (dds_bucket s x.1) as [[j| |j]|]; simpl; try done.

Lemma weight_below_neg k :
  weight (under s (BNeg k)) xs = weight (in_neg s (λ j, k <? j)) xs.
Proof. apply weight_ext. by_bucket. Qed.
Lemma weight_upto_neg k :
  weight (upto s (BNeg k)) xs = weight (in_neg s (λ j, k <=? j)) xs.
Proof. apply weight_ext. by_bucket. Qed.
Lemma weight_below_zero :
  weight (under s BZero) xs = weight (in_neg s (λ _, true)) xs.
Proof. apply weight_ext. by_bucket. Qed.
Lemma weight_upto_zero :
  weight (upto s BZero) xs = weight (in_neg s (λ _, true)) xs + weight (in_zero s) xs.
Proof. apply weight_add. by_bucket. Qed.
Lemma weight_below_pos k :
  weight (under s (BPos k)) xs =
  weight (upto s BZero) xs + weight (in_pos s (λ j, j <? k)) xs.
Proof. apply weight_add. by_bucket. Qed.
Lemma weight_upto_pos k :
  weight (upto s (BPos k)) xs =
  weight (upto s BZero) xs + weight (in_pos s (λ j, j <=? k)) xs.
Proof. apply weight_add. by_bucket. Qed.
Lemma weight_total :
  (∀ y, y ∈ xs → is_ok (dds_bucket s y.1) = true) →
  weight (λ _, true) xs =
  weight (upto s BZero) xs + weight (in_pos s (λ _, true)) xs.
Proof.
  intros Hok. apply weight_add. intros x Hx. pose proof (Hok x Hx) as Hb.
  unfold upto, in_pos. by destruct (dds_bucket s x.1) as [[]|].
Qed.
End counts.

(** A new sketch, or one that was reset. *)
Definition dds_empty (s : dds) : Prop :=
  dds_positive s = ∅ ∧ dds_negative s = ∅ ∧ dds_zero_count s = 0 ∧
  dds_count s = 0 ∧ dds_min s = infinity ∧ dds_max s = neg_infinity.

Lemma dds_init_empty a s : dds_init a = Ok s → dds_empty s.
Proof.
  unfold dds_init. destruct (negb _); [done|].
  destruct (py_log _); simpl; [|done]. destruct (feq _ _); [done|].
  by intros [= <-].
Qed.

Definition bucket_answer (s : dds) (b : bucket) : float :=
  match b with
  | BNeg k => (- dds_bucket_value s k)%float
  | BZero => 0%float
  | BPos k => dds_bucket_value s k
  end.

(** The counters of a sketch filled from empty. *)
Lemma puts_counters s0 xs :
  dds_empty s0 →
  (∀ p, count_keys p (dds_positive (puts s0 xs)) = weight (in_pos s0 p) xs) ∧
  (∀ p, count_keys p (dds_negative (puts s0 xs)) = weight (in_neg s0 p) xs) ∧
  dds_zero_count (puts s0 xs) = weight (in_zero s0) xs ∧
  dds_count (puts s0 xs) = weight (λ _, true) xs.
Proof.
  intros (Ep & En & Ez & Ec & _). destruct (puts_counts s0 xs) as (I1&I2&I3&I4).
  rewrite Ep in I1. rewrite En in I2. rewrite Ez in I3. rewrite Ec in I4.
  split_and!; intros; rewrite ?I1, ?I2, ?I3, ?I4, ?count_keys_empty; lia.
Qed.

Lemma quantile_walk s0 xs q :
  dds_empty s0 → good_items xs →
  (∀ y, y ∈ xs → is_ok (dds_bucket s0 y.1) = true) →
  isfinite q = true → flt 0%float q = true → flt q 1%float = true →
  0 < weight (λ _, true) xs ≤ 2 ^ 53 →
  let r := (q * float_of_Z (weight (λ _, true) xs))%float in
  ∃ b, dds_quantile (puts s0 xs) q = Ok (bucket_answer s0 b) ∧
       weight (under s0 b) xs * 2 ^ 1074 < fval r ≤
       weight (upto s0 b) xs * 2 ^ 1074.
Proof.
  intros He Hg Hok Fq H0 H1 Hn r.
  destruct (puts_counters s0 xs He) as (I1 & I2 & I3 & I4).
  destruct (rank_bounds q _ Fq H0 H1 Hn) as [Fr Hr]. fold r in Fr, Hr.
  assert (∀ P, 0 ≤ weight P xs ≤ 2 ^ 53) as HW.
  { intros P. split; [by apply weight_nonneg|].
    transitivity (weight (λ _, true) xs); [|lia].
    apply weight_mono; [by intros x Hx; apply Hg|done]. }
  assert (∀ k, 0 ≤ get0 (dds_negative (puts s0 xs)) k ≤ 2 ^ 53) as Hgn
    by (intros k; rewrite <- count_keys_eq, I2; done).
  assert (∀ k, 0 ≤ get0 (dds_positive (puts s0 xs)) k ≤ 2 ^ 53) as Hgp
    by (intros k; rewrite <- count_keys_eq, I1; done).
  assert (0 < 2 ^ 1074) as HU by done.
  assert (weight (λ _, true) xs * 2 ^ 1074 ≤ 2 ^ 53 * 2 ^ 1074) as Htot
    by (apply Z.mul_le_mono_nonneg_r; lia).
  unfold dds_quantile. rewrite I4. fold r.
  assert (isnan q || isinf q = false) as ->.
  { revert Fq. unfold isfinite, PrimFloat.is_finite, isnan, isinf.
    by destruct (PrimFloat.is_nan q || PrimFloat.is_infinity q). }
  rewrite (proj2 (Z.eqb_neq _ 0)) by lia.
  rewrite (proj2 (not_fle q 0%float (flt_num_l _ _ H1) num_zero)) by done.
  rewrite (proj2 (not_fle 1%float q (flt_num_r _ _ H1) (flt_num_l _ _ H1))) by done.
  pose proof (dds_walk_spec (dds_negative (puts s0 xs))
    (reverse (sorted_keys (dds_negative (puts s0 xs)))) r Fr ltac:(lia)
    (λ k _, Hgn k)) as Hw.
  destruct (dds_walk _ _ r) as [k|r1].
  { destruct Hw as (pre & post & E & Hb). apply count_above in E as [E1 E2].
    rewrite E2, E1, !I2 in Hb. exists (BNeg k). split.
    - simpl. by rewrite (bucket_value_params _ s0) by apply puts_params.
    - by rewrite weight_below_neg, weight_upto_neg. }
  destruct Hw as (F1 & V1 & B1).
  rewrite (sum_all_keys (dds_negative (puts s0 xs))), I2 in V1 by apply reverse_Permutation.
  rewrite I3. destruct (HW (in_zero s0)) as [Hz0 Hz1].
  set (z := weight (in_zero s0) xs) in *.
  destruct (Z.le_gt_cases (fval r1) (z * 2 ^ 1074)) as [Hle|Hgt].
  { rewrite fsub_int_le0 by done. exists BZero. split; [done|].
    rewrite weight_below_zero, weight_upto_zero. fold z. lia. }
  destruct (fsub_int_exact r1 z F1 Hz0) as [V2 F2]; [lia|].
  set (r2 := (r1 - float_of_Z z)%float) in *.
  assert (0 ≤ z * 2 ^ 1074) by (apply Z.mul_nonneg_nonneg; lia).
  assert (fle r2 0 = false) as ->.
  { apply not_true_is_false. rewrite fle_val by (done || by apply isfinite_num).
    rewrite fval_zero, V2. lia. }
  pose proof (dds_walk_spec (dds_positive (puts s0 xs))
    (sorted_keys (dds_positive (puts s0 xs))) r2 F2 ltac:(lia)
    (λ k _, Hgp k)) as Hw.
  pose proof (weight_total s0 xs Hok) as HT.
  destruct (dds_walk _ _ r2) as [k|r3].
  - destruct Hw as (pre & post & E & Hb). apply count_below in E as [E1 E2].
    rewrite E2, E1, !I1 in Hb. exists (BPos k). split.
    + simpl. by rewrite (bucket_value_params _ s0) by apply puts_params.
    + rewrite weight_below_pos, weight_upto_pos, weight_upto_zero. fold z. lia.
  - destruct Hw as (F3 & V3 & B3). exfalso.
    rewrite (sum_all_keys (dds_positive (puts s0 xs))), I1 in V3 by done.
    rewrite weight_upto_zero in HT. fold z in HT. nia.
Qed.

Lemma accepts_bucket s v :
  num v → dds_accepts s v → ∃ b, dds_bucket s v = Ok b ∧ dds_close s v (bucket_answer s b).
Proof.
  unfold dds_accepts, dds_close. intros Hv.
  destruct (dds_bucket s v) as [b|] eqn:E; [|done]. intros Ha. exists b. split; [done|]. revert E. unfold dds_bucket.
  destruct (flt 0%float v) eqn:E1.
  { destruct (dds_key s v); simpl; intros [= <-]. simpl in *. by left. }
  destruct (flt v 0%float) eqn:E2.
  { destruct (dds_key s (- v)%float); simpl; intros [= <-]. simpl in *.
    right. left. eauto. }
  intros [= <-]. right. right. split; [|done].
  destruct (fnum_cases v Hv) as [(?&?&?)|[(?&?&?)|(?&?&?)]]; congruence.
Qed.

Lemma quantile_accuracy s0 xs s q :
  dds_empty s0 → good_multiplier s0 → dds_adds xs s0 = (Ok tt, s) →
  isfinite q = true → flt 0%float q = true → flt q 1%float = true →
  0 < dds_count s ≤ 2 ^ 53 →
  ∃ v n ans, (v, n) ∈ kept xs ∧
    is_quantile (kept xs) (q * float_of_Z (dds_count s))%float v ∧
    dds_quantile s q = Ok ans ∧ dds_close s0 v ans.
Proof.
  intros He Hm Hr Fq H0 H1 Hn. apply dds_adds_run in Hr as [-> Hx].
  assert (good_items (kept xs)) as Hg by (intros x Hin; by destruct (Hx x Hin) as (?&?&_)).
  destruct (puts_counters s0 (kept xs) He) as (_&_&_&Ec). rewrite Ec in *.
  assert (∀ y, y ∈ kept xs → ∃ b, dds_bucket s0 y.1 = Ok b ∧
    dds_close s0 y.1 (bucket_answer s0 b)) as Hb.
  { intros y Hy. destruct (Hx y Hy) as (Fy & _ & Ha).
    apply accepts_bucket; [by apply isfinite_num|done]. }
  assert (∀ y, y ∈ kept xs → is_ok (dds_bucket s0 y.1) = true) as Hok.
  { intros y Hy. destruct (Hb y Hy) as (b & -> & _). done. }
  destruct (quantile_walk s0 (kept xs) q) as (b & Eq & Hrank); try done.
  destruct (rank_bounds q _ Fq H0 H1 Hn) as [_ Hbd].
  destruct (exact_quantile (kept xs) _ Hg Hbd) as ([v n] & Hin & Hq).
  destruct (Hb (v, n) Hin) as (c & Ec' & Hc).
  assert (c = b) as -> by by eapply (quantile_bucket s0 (kept xs)).
  exists v, n, (bucket_answer s0 b). done.
Qed.

(** ** Capacity

    The bounds the sketch promises: at most [MAX_BINS] buckets per sign,
    64-bit signed bucket counts and an unsigned 64-bit total.  The guards of
    [add] are exactly the condition that the state after the addition still
    satisfies them. *)

Definition store_fits (d : gmap Z Z) : Prop :=
  dict_len d ≤ MAX_BINS ∧ ∀ k, get0 d k ≤ MAX_INT64.
Definition store_nonneg (d : gmap Z Z) : Prop := ∀ k, 0 ≤ get0 d k.

Definition dds_fits (s : dds) : Prop :=
  store_fits (dds_positive s) ∧ store_fits (dds_negative s) ∧
  dds_zero_count s ≤ MAX_INT64 ∧ dds_count s ≤ MAX_UINT64.
Definition dds_nonneg (s : dds) : Prop :=
  store_nonneg (dds_positive s) ∧ store_nonneg (dds_negative s) ∧
  0 ≤ dds_zero_count s ∧ num (dds_min s) ∧ num (dds_max s).

Lemma dict_len_bump k n d :
  dict_len (bump k n d) =
  dict_len d + (if bool_decide (is_Some (d !! k)) then 0 else 1).
Proof.
  unfold dict_len, bump. case_bool_decide as Hk.
  - rewrite map_size_insert_Some by done. lia.
  - rewrite map_size_insert_None by by apply eq_None_not_Some. lia.
Qed.

Lemma store_nonneg_bump k n d : 0 ≤ n → store_nonneg d → store_nonneg (bump k n d).
Proof. intros Hn Hd j. rewrite get0_bump. specialize (Hd j). case_decide; lia. Qed.

Lemma store_fits_bump k n d :
  0 < n → store_nonneg d → store_fits d →
  store_fits (bump k n d) ↔
  dds_store_can_fit d k = true ∧ get0 d k ≤ MAX_INT64 - n.
Proof.
  intros Hn Hd [Hl Hb]. unfold store_fits, dds_store_can_fit.
  rewrite dict_len_bump, orb_true_iff, bool_decide_eq_true, Z.ltb_lt.
  split.
  - intros [H1 H2]. specialize (H2 k). rewrite get0_bump, decide_True in H2 by done.
    split; [|lia]. case_bool_decide; [by left|right; lia].
  - intros [H1 H2]. split.
    + case_bool_decide; [lia|]. destruct H1; [done|lia].
    + intros j. rewrite get0_bump. specialize (Hb j). case_decide; [subst; lia|lia].
Qed.

(** Dropping an addition can only free room. *)
Lemma store_fits_unbump k n d :
  0 ≤ n → store_fits (bump k n d) → store_fits d.
Proof.
  intros Hn [H1 H2]. split.
  - rewrite dict_len_bump in H1. case_bool_decide; lia.
  - intros j. specialize (H2 j). rewrite get0_bump in H2. case_decide; lia.
Qed.

Lemma put_nonneg s x : isfinite x.1 = true → 0 < x.2 → dds_nonneg s → dds_nonneg (dds_put s x).
Proof.
  intros Fx Hn (H1 & H2 & H3 & H4 & H5). pose proof (isfinite_num _ Fx).
  assert (dds_nonneg (dds_tally x.1 x.2 s)) as Ht.
  { split_and!; simpl; try done; by case_match. }
  destruct Ht as (_&_&_&?&?). unfold dds_put.
  destruct (dds_bucket _ _) as [[k| |k]|]; split_and!; simpl; try done;
    try (apply store_nonneg_bump; [lia|done]); lia.
Qed.

Lemma put_fits s x :
  isfinite x.1 = true → 0 < x.2 → dds_nonneg s → dds_fits s →
  dds_admits s x = true ↔ dds_accepts s x.1 ∧ dds_fits (dds_put s x).
Proof.
  intros Fx Hn (N1 & N2 & N3 & _) (F1 & F2 & F3 & F4).
  unfold dds_admits, dds_accepts, dds_put, dds_fits.
  rewrite (bucket_params (dds_tally x.1 x.2 s) s) by done.
  rewrite !andb_true_iff, !Z.leb_le.
  destruct (dds_bucket s x.1) as [[k| |k]|]; cbn -[MAX_INT64 MAX_UINT64].
  - pose proof (store_fits_bump k x.2 _ Hn N2 F2) as Hs.
    rewrite !andb_true_iff, negb_true_iff, Z.leb_le, Hs.
    specialize (N2 k). clear Hs.
    split; [intros ((?&?)&(?&?)&?)|intros (?&?&(?&?)&?&?)]; split_and!; done || lia.
  - rewrite Z.leb_le.
    split; [intros ((?&?)&?)|intros (_&?&?&?&?)]; split_and!; done || lia.
  - pose proof (store_fits_bump k x.2 _ Hn N1 F1) as Hs.
    rewrite !andb_true_iff, negb_true_iff, Z.leb_le, Hs.
    specialize (N1 k). clear Hs.
    split; [intros ((?&?)&(?&?)&?)|intros (?&(?&?)&?&?&?)]; split_and!; done || lia.
  - split; [by intros [_ ?]|by intros [? _]].
Qed.

Lemma put_unfits s x : 0 < x.2 → dds_fits (dds_put s x) → dds_fits s.
Proof.
  intros Hn. unfold dds_put, dds_fits.
  destruct (dds_bucket _ _) as [[k| |k]|]; cbn -[MAX_INT64 MAX_UINT64];
    intros (H1 & H2 & H3 & H4); split_and!; try done; try lia;
    (eapply store_fits_unbump; [|eassumption]; lia).
Qed.

Lemma puts_unfits s xs ys :
  (∀ x, x ∈ ys → 0 < x.2) → dds_fits (puts s (xs ++ ys)) → dds_fits (puts s xs).
Proof.
  induction ys as [|y ys IH] using rev_ind; intros Hn.
  - by rewrite app_nil_r.
  - rewrite app_assoc, puts_snoc. intros Hf%put_unfits.
    + apply IH; [|done]. intros x Hx. apply Hn, elem_of_app. by left.
    + apply Hn, elem_of_app. right. by left.
Qed.

(** Repeated [add] succeeds exactly when every value is accepted and the
    final state is within capacity. *)
Lemma dds_adds_iff xs s s' :
  dds_nonneg s → dds_fits s →
  dds_adds xs s = (Ok tt, s') ↔
  (∀ x, x ∈ kept xs → dds_accepts s x.1) ∧ dds_fits (puts s (kept xs)) ∧
  s' = puts s (kept xs).
Proof.
  unfold dds_adds. revert s. induction xs as [|[v n] xs IH]; intros s Hnn Hf.
  { simpl. split; [|by intros (_&_&->)]. intros [= <-]. split_and!; try done.
    by intros x ?%elem_of_nil. }
  simpl mfor. destruct (dds_add_run v n s) as [e He].
  unfold mbind. rewrite He. unfold kept. rewrite filter_cons. fold (kept xs).
  destruct (counted (v, n)) eqn:Hc.
  2: { rewrite decide_False by done. by apply IH. }
  rewrite decide_True by done. apply counted_true in Hc as (_&_&Fv&Hn).
  pose proof (put_fits s (v, n) Fv Hn Hnn Hf) as Hput.
  assert (∀ w, dds_accepts (dds_put s (v, n)) w ↔ dds_accepts s w) as Hacc
    by (intros w; apply accepts_params, put_params).
  change (puts s ((v, n) :: kept xs)) with (puts (dds_put s (v, n)) (kept xs)).
  destruct (dds_admits s (v, n)).
  - destruct (proj1 Hput eq_refl) as [Ha Hf'].
    rewrite IH by (done || by apply put_nonneg). setoid_rewrite Hacc.
    split; intros (Hx & ? & ?); split_and!; try done.
    + intros x [->|Hin]%elem_of_cons; [done|by apply Hx].
    + intros x Hin. apply Hx. by right.
  - split; [done|]. intros (Hx & Hfin & _). exfalso.
    assert (false = true); [|done]. apply Hput. split; [apply (Hx (v, n)); by left|].
    apply (puts_unfits (dds_put s (v, n)) [] (kept xs)); [|done].
    intros x Hin. apply list_elem_of_filter in Hin as [Hin _].
    by apply counted_true in Hin as (_&_&_&?).
Qed.

(** ** Batch ingestion *)

Lemma bump_all_lookup a b k :
  bump_all a b !! k =
  match b !! k with Some n => Some (get0 a k + n) | None => a !! k end.
Proof.
  unfold bump_all. rewrite <- (list_to_map_to_list b) at 2.
  pose proof (NoDup_fst_map_to_list b) as Hnd.
  induction (map_to_list b) as [|[j n] l IH] in a, Hnd |- *; [done|].
  simpl in *. apply NoDup_cons in Hnd as [Hj Hnd]. rewrite IH by done.
  destruct (decide (j = k)) as [->|Hne].
  - rewrite lookup_insert_eq.
    rewrite (not_elem_of_list_to_map_1 l k Hj). unfold bump.
    by rewrite lookup_insert_eq.
  - rewrite lookup_insert_ne by done. destruct (list_to_map l !! k).
    + by rewrite get0_bump, decide_False, Z.add_0_r.
    + unfold bump. by rewrite lookup_insert_ne.
Qed.

Lemma bump_all_empty a : bump_all a ∅ = a.
Proof. apply map_eq. intros k. by rewrite bump_all_lookup, lookup_empty. Qed.

Lemma bump_all_bump a b k n : bump_all a (bump k n b) = bump k n (bump_all a b).
Proof.
  apply map_eq. intros j. rewrite bump_all_lookup. unfold bump at 2.
  assert (get0 (bump_all a b) k = get0 a k + get0 b k) as Ek.
  { unfold get0. rewrite bump_all_lookup. fold (get0 a k).
    destruct (b !! k); simpl; [done|]. unfold get0. lia. }
  destruct (decide (k = j)) as [->|Hne].
  - unfold bump. rewrite !lookup_insert_eq. f_equal. rewrite Ek. lia.
  - unfold bump. rewrite !lookup_insert_ne by done. by rewrite bump_all_lookup.
Qed.

Lemma bump_all_len a b : union_len a b = dict_len (bump_all a b).
Proof.
  unfold union_len, dict_len. rewrite <- size_dom. do 2 f_equal.
  apply set_eq. intros k. rewrite elem_of_union, !elem_of_dom, bump_all_lookup.
  destruct (b !! k), (a !! k); split; intros; eauto; by (destruct H0 as [[? ?]|[? ?]]) || idtac.
Qed.

Lemma bins_overflow_spec a b :
  (∀ k, get0 a k ≤ MAX_INT64) →
  bins_overflow a b = false ↔ ∀ k, get0 (bump_all a b) k ≤ MAX_INT64.
Proof.
  intros Ha. unfold bins_overflow. rewrite <- not_true_iff_false, existsb_exists.
  assert (∀ k, get0 (bump_all a b) k =
    match b !! k with Some n => get0 a k + n | None => get0 a k end) as E.
  { intros k. unfold get0 at 1. rewrite bump_all_lookup. by destruct (b !! k). }
  split.
  - intros Hno k. rewrite E. destruct (b !! k) as [n|] eqn:Hk; [|done].
    apply Z.nlt_ge. intros ?. apply Hno. exists (k, n). simpl.
    split; [|lia]. by apply list_elem_of_In, elem_of_map_to_list.
  - intros Hall ([k n] & Hin & Hlt). apply list_elem_of_In, elem_of_map_to_list in Hin.
    specialize (Hall k). rewrite E, Hin in Hall. simpl in Hlt. lia.
Qed.

Definition tmp_num (t : dds_tmp) : Prop := num (tmp_min t) ∧ num (tmp_max t).

(** Folding a minimum through the temporary is folding it directly. *)
Lemma min_through (m t v : float) :
  num m → num t → num v →
  (if flt (if flt v t then v else t) m then (if flt v t then v else t) else m) =
  (if flt v (if flt t m then t else m) then v else if flt t m then t else m).
Proof.
  intros Hm Ht Hv. destruct (flt v t) eqn:E1, (flt t m) eqn:E2; simpl.
  - by rewrite E1, (flt_trans _ _ _ E1 E2).
  - done.
  - by rewrite E1.
  - assert (flt v m = false) as ->; [|done].
    apply not_flt in E1, E2; try done. apply not_flt; try done.
    by eapply fle_trans.
Qed.
Lemma max_through (m t v : float) :
  num m → num t → num v →
  (if flt m (if flt t v then v else t) then (if flt t v then v else t) else m) =
  (if flt (if flt m t then t else m) v then v else if flt m t then t else m).
Proof.
  intros Hm Ht Hv. destruct (flt t v) eqn:E1, (flt m t) eqn:E2; simpl.
  - by rewrite E1, (flt_trans _ _ _ E2 E1).
  - done.
  - by rewrite E1.
  - assert (flt m v = false) as ->; [|done].
    apply not_flt in E1, E2; try done. apply not_flt; try done.
    by eapply fle_trans.
Qed.

Lemma commit_params t s : same_params (dds_commit_batch t s) s.
Proof. done. Qed.

Lemma tmp_add_step s t v :
  dds_nonneg s → tmp_num t → isfinite v = true →
  (dds_accepts s v → ∃ t', tmp_add s t v = Ok t' ∧ tmp_num t' ∧
     dds_commit_batch t' s = dds_put (dds_commit_batch t s) (v, 1) ∧
     tmp_count t' = tmp_count t + 1) ∧
  (¬ dds_accepts s v → is_ok (tmp_add s t v) = false).
Proof.
  intros (_&_&_&Nm&Nx) [Tm Tx] Fv. pose proof (isfinite_num _ Fv) as Nv.
  assert (isnan v || isinf v = false) as Hfin.
  { revert Fv. unfold isfinite, PrimFloat.is_finite, isnan, isinf.
    by destruct (PrimFloat.is_nan v || PrimFloat.is_infinity v). }
  unfold dds_accepts, tmp_add, dds_put. rewrite Hfin.
  cbn [fst snd].
  rewrite (bucket_params (dds_tally v 1 (dds_commit_batch t s)) s) by done.
  unfold dds_bucket.
  pose proof (min_through (dds_min s) (tmp_min t) v Nm Tm Nv) as Emin.
  pose proof (max_through (dds_max s) (tmp_max t) v Nx Tx Nv) as Emax.
  assert (num (if flt v (tmp_min t) then v else tmp_min t)) as N1
    by by destruct (flt v (tmp_min t)).
  assert (num (if flt (tmp_max t) v then v else tmp_max t)) as N2
    by by destruct (flt (tmp_max t) v).
  destruct (fnum_cases v Nv) as [(E1&E2&E3)|[(E1&E2&E3)|(E1&E2&E3)]];
    rewrite E1, ?E2, E3.
  - rewrite (abs_pos v) by done. destruct (dds_key s v) as [k|]; simpl; [|by split].
    destruct (dds_inaccurate s _ v); [by split|]. split; [|done].
    intros _. eexists. split; [done|]. split; [done|]. split; [|done].
    unfold dds_commit_batch, set_positive, dds_tally. simpl.
    rewrite bump_all_bump, Emin, Emax. f_equal; lia.
  - rewrite (abs_neg v) by done.
    destruct (dds_key s (- v)%float) as [k|]; simpl; [|by split].
    destruct (dds_inaccurate s _ (- v)%float); [by split|]. split; [|done].
    intros _. eexists. split; [done|]. split; [done|]. split; [|done].
    unfold dds_commit_batch, set_negative, dds_tally. simpl.
    rewrite bump_all_bump, Emin, Emax. f_equal; lia.
  - split; [|done]. intros _. eexists. split; [done|]. split; [done|]. split; [|done].
    unfold dds_commit_batch, set_zero_count, dds_tally. simpl.
    rewrite Emin, Emax. f_equal; lia.
Qed.

(** The values of a batch as items of weight one. *)
Definition ones (values : list float) : list (float * Z) := (λ v, (v, 1)) <$> values.

Lemma tmp_fold_spec s values t ys :
  dds_nonneg s → tmp_num t → dds_commit_batch t s = puts s ys →
  (∀ x, x ∈ kept (ones values) → dds_accepts s x.1) ∧
  (∃ t', res_fold (tmp_add s) values t = Ok t' ∧ tmp_num t' ∧
     dds_commit_batch t' s = puts s (ys ++ kept (ones values)) ∧
     tmp_count t' = tmp_count t + Z.of_nat (length (kept (ones values)))) ∨
  ¬ (∀ x, x ∈ kept (ones values) → dds_accepts s x.1) ∧
  is_ok (res_fold (tmp_add s) values t) = false.
Proof.
  intros Hs. revert t ys. induction values as [|v values IH]; intros t ys Ht Hc.
  { left. split; [by intros x ?%elem_of_nil|]. exists t. simpl.
    split_and!; try done; [by rewrite app_nil_r|lia]. }
  simpl res_fold. simpl ones. unfold kept. rewrite filter_cons. fold (kept (ones values)).
  destruct (counted (v, 1)) eqn:Hcv.
  - rewrite decide_True by done. apply counted_true in Hcv as (_&_&Fv&_).
    destruct (tmp_add_step s t v Hs Ht Fv) as [Hyes Hno].
    destruct (decide (is_ok (tmp_add s t v) = true)) as [Hok|Hbad].
    + assert (dds_accepts s v) as Ha.
      { apply dec_stable. intros Hn. by rewrite Hno in Hok. }
      destruct (Hyes Ha) as (t' & -> & Ht' & Hc' & Hn'). simpl.
      destruct (IH t' (ys ++ [(v, 1)]) Ht') as [(Hall & t'' & E & Ht'' & Hc'' & Hn'')|[Hnot E]].
      * by rewrite puts_snoc, Hc', Hc.
      * left. split; [intros x [->|?]%elem_of_cons; [done|by apply Hall]|].
        exists t''. rewrite E, Hc'', <- app_assoc. split_and!; try done.
        rewrite Hn'', Hn'. cbn [length]. lia.
      * right. split; [|done]. intros Hall. apply Hnot. intros x Hx.
        apply Hall. by right.
    + right. destruct (tmp_add s t v) eqn:E; [done|]. split; [|done].
      intros Hall. destruct (Hyes (Hall (v, 1) ltac:(by left))) as (t' & [=] & _).
  - rewrite decide_False by done. apply counted_false in Hcv as [Hcv|]; [|done].
    unfold tmp_add at 1 3. simpl in Hcv. rewrite Hcv. simpl. by apply IH.
Qed.

Lemma commit_init s : dds_nonneg s → dds_commit_batch tmp_init s = puts s [].
Proof.
  intros (_&_&_&Nm&Nx). unfold dds_commit_batch. simpl.
  rewrite !bump_all_empty, !Z.add_0_r.
  assert (flt infinity (dds_min s) = false) as ->.
  { apply not_flt; [done..|]. apply fle_val; [done..|]. apply fval_bounds. }
  assert (flt (dds_max s) neg_infinity = false) as ->.
  { apply not_flt; [done..|]. apply fle_val; [done..|]. apply fval_bounds. }
  by destruct s.
Qed.

Lemma commit_fits t s :
  dds_fits s →
  dds_fits (dds_commit_batch t s) ↔
  union_len (dds_positive s) (tmp_pos t) ≤ MAX_BINS ∧
  union_len (dds_negative s) (tmp_neg t) ≤ MAX_BINS ∧
  dds_count s ≤ MAX_UINT64 - tmp_count t ∧
  dds_zero_count s ≤ MAX_INT64 - tmp_zero_count t ∧
  bins_overflow (dds_positive s) (tmp_pos t) = false ∧
  bins_overflow (dds_negative s) (tmp_neg t) = false.
Proof.
  intros ([_ H1] & [_ H2] & _ & _). rewrite !bump_all_len.
  rewrite !bins_overflow_spec by done. unfold dds_fits, store_fits. simpl. 
  split; [intros ((?&?)&(?&?)&?&?)|intros (?&?&?&?&?&?)]; split_and!; done || lia.
Qed.

Lemma kept_nil_puts s xs : length (kept xs) = 0%nat → puts s (kept xs) = s.
Proof. intros H0%nil_length_inv. by rewrite H0. Qed.

Lemma dds_add_batch_iff values s s' :
  dds_nonneg s → dds_fits s →
  dds_add_batch values s = (Ok tt, s') ↔
  (∀ x, x ∈ kept (ones values) → dds_accepts s x.1) ∧
  dds_fits (puts s (kept (ones values))) ∧ s' = puts s (kept (ones values)).
Proof.
  intros Hnn Hf. unfold dds_add_batch, mbind, mget, mlift.
  destruct (tmp_fold_spec s values tmp_init [] Hnn) as [(Hall & t & E & _ & Hc & Hn)|[Hnot E]].
  - by split.
  - by apply commit_init.
  - rewrite E. simpl in Hc, Hn. rewrite <- Hc.
    destruct (Z.eqb_spec (tmp_count t) 0) as [E0|E0].
    { assert (dds_commit_batch t s = s) as Es by (rewrite Hc; apply kept_nil_puts; lia).
      rewrite Es. split; [by intros [= <-]|by intros (_&_&->)]. }
    rewrite commit_fits by done. unfold raise_if, mraise, mret, mmodify.
    repeat match goal with
      |- context [if ?b then λ _, (Raise _, _) else _] =>
        destruct b eqn:?; simpl; [split; [done|intros (_&?&_); exfalso; lia || intuition congruence]|]
    end.
    split; [intros [= <-]; split_and!; done || lia|by intros (_&_&->)].
  - destruct (res_fold _ _ _) eqn:Ef; [done|]. split; [done|].
    intros (Hall&_). by destruct Hnot.
Qed.

Lemma dds_add_batch_adds values s s' :
  dds_nonneg s → dds_fits s →
  dds_add_batch values s = (Ok tt, s') ↔ dds_adds (ones values) s = (Ok tt, s').
Proof. intros Hnn Hf. by rewrite dds_add_batch_iff, dds_adds_iff. Qed.

Lemma dds_add_batch_atomic values : atomic (dds_add_batch values).
Proof.
  apply atomic_bind; [auto with py|]. intros s.
  apply atomic_bind; [auto with py|]. intros t.
  destruct (_ =? _); [by apply atomic_readonly|].
  repeat (apply atomic_bind; [auto with py|intros _]).
  apply atomic_noraise; auto with py.
Qed.

(** ** [count_greater_than] *)

Definition min_max_ok (s : dds) (xs : list (float * Z)) : Prop :=
  (∀ x, x ∈ xs → fle (dds_min s) x.1 = true ∧ fle x.1 (dds_max s) = true) ∧
  num (dds_min s) ∧ num (dds_max s) ∧
  - fmax_val < fval (dds_min s) ∧ fval (dds_max s) < fmax_val.

Lemma put_min_max s x :
  dds_min (dds_put s x) = (if flt x.1 (dds_min s) then x.1 else dds_min s) ∧
  dds_max (dds_put s x) = (if flt (dds_max s) x.1 then x.1 else dds_max s).
Proof. unfold dds_put. by destruct (dds_bucket _ _) as [[]|]. Qed.

Lemma puts_min_max s0 xs :
  dds_empty s0 → good_items xs → min_max_ok (puts s0 xs) xs.
Proof.
  intros (_&_&_&_&Emin&Emax). unfold min_max_ok.
  induction xs as [|x xs IH] using rev_ind; intros Hg.
  { simpl. rewrite Emin, Emax. split; [by intros x ?%elem_of_nil|done]. }
  destruct IH as (IH & Nm & Nx & Bm & Bx).
  { intros y Hy. apply Hg, elem_of_app. by left. }
  assert (isfinite x.1 = true) as Fx by (apply Hg, elem_of_app; right; by left).
  pose proof (isfinite_num _ Fx) as Hx. apply isfinite_fval in Fx as [_ Fx].
  rewrite puts_snoc. destruct (put_min_max (puts s0 xs) x) as [-> ->].
  set (s := puts s0 xs) in *.
  split_and!.
  - intros y [Hy| ->%list_elem_of_singleton]%elem_of_app.
    + destruct (IH y Hy) as [I1 I2].
      destruct (flt x.1 (dds_min s)) eqn:E1, (flt (dds_max s) x.1) eqn:E2;
        split; try done; eapply fle_trans; eauto with py.
    + destruct (flt x.1 (dds_min s)) eqn:E1, (flt (dds_max s) x.1) eqn:E2;
        split; try (by apply fle_refl); by apply not_flt.
  - by destruct (flt x.1 (dds_min s)).
  - by destruct (flt (dds_max s) x.1).
  - destruct (flt x.1 (dds_min s)); lia.
  - destruct (flt (dds_max s) x.1); lia.
Qed.

Definition at_least (s : dds) (b : bucket) (v : float) : bool :=
  match dds_bucket s v with Ok c => bucket_leb b c | Raise _ => false end.

(** [v] shares the bucket of the threshold. *)
Definition same_bucket (s : dds) (t v : float) : bool :=
  match dds_bucket s t, dds_bucket s v with
  | Ok b, Ok c => bool_decide (b = c) | _, _ => false end.

Lemma weight_at_least_neg s xs k :
  weight (at_least s (BNeg k)) xs =
  weight (in_neg s (λ j, j <=? k)) xs + weight (in_zero s) xs
  + weight (in_pos s (λ _, true)) xs.
Proof.
  rewrite <- (weight_add (in_neg s (λ j, j <=? k)) (in_zero s)
    (λ v, in_neg s (λ j, j <=? k) v || in_zero s v)).
  - apply weight_add. intros x Hx. unfold at_least, in_neg, in_pos, in_zero.
    destruct (dds_bucket s x.1) as [[j| |j]|]; simpl; split; try done;
      by rewrite ?orb_false_r, ?andb_false_r.
  - intros x Hx. unfold in_neg, in_zero. split; [done|].
    destruct (dds_bucket s x.1) as [[j| |j]|]; simpl; by rewrite ?andb_false_r.
Qed.

Lemma weight_at_least_pos s xs k :
  weight (at_least s (BPos k)) xs = weight (in_pos s (λ j, k <=? j)) xs.
Proof.
  apply weight_ext. intros x Hx. unfold at_least, in_pos.
  by destruct (dds_bucket s x.1) as [[]|].
Qed.

Lemma at_least_bounds s xs t b :
  good_multiplier s → good_items xs → isfinite t = true →
  (∀ y, y ∈ xs → is_ok (dds_bucket s y.1) = true) →
  dds_bucket s t = Ok b →
  weight (λ v, flt t v) xs ≤ weight (at_least s b) xs ≤
  weight (λ v, flt t v || same_bucket s t v) xs.
Proof.
  intros Hm Hg Ft Hok Hb.
  assert (∀ x, x ∈ xs → 0 < x.2) as Hpos by (intros x Hx; by apply Hg).
  split; apply weight_mono; try done; intros x Hx; specialize (Hok x Hx);
    destruct (Hg x Hx) as [Fx _]; unfold at_least, same_bucket; rewrite ?Hb;
    destruct (dds_bucket s x.1) as [c|] eqn:Hc; try done.
  - intros Ht%flt_fle. apply bucket_leb_spec. by eapply (dds_bucket_mono s t x.1).
  - intros Hbc%bucket_leb_spec. destruct (flt t x.1) eqn:E; [done|]. simpl.
    apply not_flt in E; [|by apply isfinite_num..].
    apply bool_decide_eq_true_2. apply bucket_le_antisym; [done|].
    by eapply (dds_bucket_mono s x.1 t).
Qed.

Lemma weight_zero_threshold s xs t :
  good_items xs → (∀ y, y ∈ xs → is_ok (dds_bucket s y.1) = true) →
  feq t 0%float = true → num t →
  weight (in_pos s (λ _, true)) xs = weight (λ v, flt t v) xs.
Proof.
  intros Hg Hok Ht Nt. apply weight_ext. intros x Hx. specialize (Hok x Hx).
  destruct (Hg x Hx) as [Fx _]. pose proof (isfinite_num _ Fx) as Nx.
  apply feq_val in Ht; [|done..]. rewrite fval_zero in Ht.
  assert (flt t x.1 = flt 0%float x.1) as ->.
  { apply eq_true_iff_eq. rewrite !flt_val by done. by rewrite fval_zero, Ht. }
  unfold in_pos. revert Hok. unfold dds_bucket.
  destruct (flt 0 x.1); [by destruct (dds_key s x.1)|].
  destruct (flt x.1 0); [by destruct (dds_key s (- x.1)%float)|done].
Qed.

Lemma count_greater_bounds s0 xs s t n :
  dds_empty s0 → good_multiplier s0 → dds_adds xs s0 = (Ok tt, s) → num t →
  dds_count_greater_than s t = Ok n →
  weight (λ v, flt t v) (kept xs) ≤ n ≤
  weight (λ v, flt t v || same_bucket s0 t v) (kept xs).
Proof.
  intros He Hm Hr Nt Hn. apply dds_adds_run in Hr as [-> Hx].
  set (ys := kept xs) in *.
  assert (good_items ys) as Hg by (intros x Hin; by destruct (Hx x Hin) as (?&?&_)).
  assert (∀ y, y ∈ ys → is_ok (dds_bucket s0 y.1) = true) as Hok.
  { intros y Hy. destruct (Hx y Hy) as (_ & _ & Ha). unfold dds_accepts in Ha.
    by destruct (dds_bucket s0 y.1). }
  assert (∀ x, x ∈ ys → 0 < x.2) as Hpos by (intros x Hin; by apply Hg).
  destruct (puts_counters s0 ys He) as (I1 & I2 & I3 & I4).
  destruct (puts_min_max s0 ys He Hg) as (Hmm & Nm & Nx & Bm & Bx).
  assert (weight (λ v, flt t v) ys ≤
    weight (λ v, flt t v || same_bucket s0 t v) ys) as Hmono.
  { apply weight_mono; [done|]. intros x _ E. by rewrite E. }
  pose proof (weight_nonneg (λ v, flt t v) ys Hg) as Hw0.
  unfold dds_count_greater_than in Hn. rewrite I4 in Hn.
  destruct (Z.eqb_spec (weight (λ _, true) ys) 0) as [E0|_].
  { injection Hn as <-. split; [|lia]. rewrite <- E0.
    by apply weight_mono. }
  destruct (fle (dds_max (puts s0 ys)) t) eqn:E1.
  { injection Hn as <-. split; [|lia]. unfold weight.
    rewrite sum_by_zero; [done|]. intros x Hin.
    assert (flt t x.1 = false) as ->; [|done].
    apply not_flt; [done|by apply isfinite_num, Hg|].
    eapply fle_trans; [by apply Hmm|done]. }
  destruct (flt t (dds_min (puts s0 ys))) eqn:E2.
  { injection Hn as <-.
    rewrite (weight_ext (λ v, flt t v) (λ _, true)) in Hmono |- *; [split; [lia|]|..].
    - exact Hmono.
    - intros x Hin. eapply flt_fle_trans; [done|]. by apply Hmm.
    - intros x Hin. eapply flt_fle_trans; [done|]. by apply Hmm. }
  apply not_fle in E1; [|done..]. apply not_flt in E2; [|done..].
  apply flt_val in E1; [|done..]. apply fle_val in E2; [|done..].
  assert (isfinite t = true) as Ft by (apply isfinite_fval; split; [done|lia]).
  rewrite (key_params (puts s0 ys) s0), (key_params (puts s0 ys) s0 t) in Hn
    by apply puts_params.
  rewrite !dict_sum_count, !I1, I3 in Hn.
  destruct (fnum_cases t Nt) as [(G1&G2&G3)|[(G1&G2&G3)|(G1&G2&G3)]];
    rewrite G2, ?G3 in Hn.
  - destruct (dds_key s0 t) as [k|] eqn:Ek; [|done]. injection Hn as <-.
    rewrite I1, <- weight_at_least_pos. apply at_least_bounds; try done.
    unfold dds_bucket. by rewrite G1, Ek.
  - destruct (dds_key s0 (- t)%float) as [k|] eqn:Ek; [|done]. injection Hn as <-.
    rewrite I2, <- weight_at_least_neg. apply at_least_bounds; try done.
    unfold dds_bucket. by rewrite G1, G2, Ek.
  - injection Hn as <-. rewrite (weight_zero_threshold s0 ys t) by done. lia.
Qed.

(** ** The sketch invariant *)

(** Well-formedness of a sketch: capacity, signs, and the total is the sum of
    the bucket counts. *)
Definition dds_wf (s : dds) : Prop :=
  dds_nonneg s ∧ dds_fits s ∧
  dds_count s =
    dds_zero_count s + dict_sum (dds_positive s) + dict_sum (dds_negative s).

Lemma dds_empty_wf s : dds_empty s → dds_wf s.
Proof.
  intros (E1&E2&E3&E4&E5&E6). unfold dds_wf, dds_nonneg, dds_fits.
  rewrite E1, E2, E3, E4, E5, E6. done.
Qed.

Lemma put_balance s x :
  dds_accepts s x.1 →
  dds_count s =
    dds_zero_count s + dict_sum (dds_positive s) + dict_sum (dds_negative s) →
  dds_count (dds_put s x) =
    dds_zero_count (dds_put s x) + dict_sum (dds_positive (dds_put s x))
    + dict_sum (dds_negative (dds_put s x)).
Proof.
  unfold dds_accepts, dds_put. rewrite (bucket_params (dds_tally x.1 x.2 s) s) by done.
  destruct (dds_bucket s x.1) as [[k| |k]|]; simpl; intros Ha E; try done;
    rewrite ?dict_sum_bump; lia.
Qed.

Lemma puts_wf s xs :
  (∀ x, x ∈ xs → isfinite x.1 = true ∧ 0 < x.2 ∧ dds_accepts s x.1) →
  dds_fits (puts s xs) → dds_wf s → dds_wf (puts s xs).
Proof.
  intros Hx Hfit (Hn & _ & Hb). unfold dds_wf.
  assert (dds_nonneg (puts s xs) ∧ dds_count (puts s xs) =
    dds_zero_count (puts s xs) + dict_sum (dds_positive (puts s xs))
    + dict_sum (dds_negative (puts s xs))) as [? ?]; [|done].
  clear Hfit. induction xs as [|x xs IH] using rev_ind; [done|].
  destruct IH as [IHn IHb].
  { intros y Hy. apply Hx, elem_of_app. by left. }
  destruct (Hx x) as (Fx & Px & Ax); [apply elem_of_app; right; by left|].
  rewrite puts_snoc. split; [by apply put_nonneg|].
  apply put_balance; [|done]. eapply accepts_params; [apply puts_params|done].
Qed.

Lemma kept_good xs x : x ∈ kept xs → isfinite x.1 = true ∧ 0 < x.2.
Proof. intros [Hc _]%list_elem_of_filter. by apply counted_true in Hc as (_&_&?&?). Qed.

Lemma dds_adds_wf xs s s' : dds_wf s → dds_adds xs s = (Ok tt, s') → dds_wf s'.
Proof.
  intros Hw Hr. assert (dds_wf s) as (Hn & Hf & _) by done.
  apply dds_adds_iff in Hr as (Ha & Hfit & ->); [|done..].
  apply puts_wf; [|done..]. intros x Hx. destruct (kept_good _ _ Hx).
  split_and!; try done. by apply Ha.
Qed.

Lemma dds_add_wf v n : preserves dds_wf (dds_add v n).
Proof.
  intros s Hs. destruct (dds_add v n s) as [[[]|e] s'] eqn:E; simpl.
  - apply (dds_adds_wf [(v, n)] s); [done|]. unfold dds_adds, mfor, mbind.
    simpl. by rewrite E.
  - by apply dds_add_atomic in E as ->.
Qed.

Lemma dds_add_batch_wf values : preserves dds_wf (dds_add_batch values).
Proof.
  intros s Hs. assert (dds_wf s) as (Hn & Hf & _) by done.
  destruct (dds_add_batch values s) as [[[]|e] s'] eqn:E; simpl.
  - apply dds_add_batch_adds in E; [|done..]. by eapply dds_adds_wf.
  - by apply dds_add_batch_atomic in E as ->.
Qed.

Lemma dds_reset_wf : preserves dds_wf dds_reset.
Proof. intros s _. by apply dds_empty_wf. Qed.

(** The mutating methods, as calls. *)
Inductive dds_call :=
| CallAdd (value : float) (count : Z)
| CallAddBatch (values : list float)
| CallReset.

Definition dds_do (c : dds_call) : M dds unit :=
  match c with
  | CallAdd v n => dds_add v n
  | CallAddBatch vs => dds_add_batch vs
  | CallReset => dds_reset
  end.

(** The state after any sequence of calls, failed ones included. *)
Definition dds_after (cs : list dds_call) (s : dds) : dds :=
  foldl (λ s c, exec (dds_do c) s) s cs.

Lemma dds_after_wf cs s : dds_wf s → dds_wf (dds_after cs s).
Proof.
  revert s. induction cs as [|c cs IH]; intros s Hs; [done|]. simpl.
  apply IH. destruct c; [by apply dds_add_wf|by apply dds_add_batch_wf|
    by apply dds_reset_wf].
Qed.

End DDSketch.

(** ** Properties *)

(** C3. A quantile is within the relative accuracy of an exact quantile.  For
    a sketch filled by any run of [add] that succeeds (up to [2^53] values),
    and any [0 < q < 1], [quantile(q)] returns; there is an ingested value
    [v] at which the cumulative count of the data reaches the rank
    [q * count], and the answer passes against [v] the accuracy test
    [abs(rep - v) / v <= alpha] of the code. *)
Theorem dds_quantile_within_alpha `{L : Libm, !LibmLaws L} alpha s0 xs s q :
  dds_init alpha = Ok s0 → good_multiplier s0 →
  dds_adds xs s0 = (Ok tt, s) →
  isfinite q = true → flt 0%float q = true → flt q 1%float = true →
  0 < dds_count s ≤ 2 ^ 53 →
  ∃ v n ans, (v, n) ∈ kept xs ∧
    is_quantile (kept xs) (q * float_of_Z (dds_count s))%float v ∧
    dds_quantile s q = Ok ans ∧ dds_close s0 v ans.
Proof. intros Hi%dds_init_empty. by apply quantile_accuracy. Qed.

(** [count_greater_than] never under-counts, and over-counts by at most
    the values that share the threshold's bucket, whatever was ingested. *)
Theorem dds_count_greater_than_bounds `{L : Libm, !LibmLaws L} alpha s0 xs s t n :
  dds_init alpha = Ok s0 → good_multiplier s0 →
  dds_adds xs s0 = (Ok tt, s) → num t →
  dds_count_greater_than s t = Ok n →
  weight (λ v, flt t v) (kept xs) ≤ n ≤
  weight (λ v, flt t v || same_bucket s0 t v) (kept xs).
Proof. intros Hi%dds_init_empty. by apply count_greater_bounds. Qed.

(** The fast path is the slow path: on a well-formed sketch [add_batch]
    succeeds exactly when adding the values one by one with [add] does, with
    the same final state; and when it raises nothing has changed. *)
Theorem dds_add_batch_refines_add `{Libm} values s s' :
  dds_wf s →
  (dds_add_batch values s = (Ok tt, s') ↔ dds_adds (ones values) s = (Ok tt, s')) ∧
  (∀ e, dds_add_batch values s = (Raise e, s') → s' = s).
Proof.
  intros (Hn & Hf & _). split; [by apply dds_add_batch_adds|].
  intros e. apply dds_add_batch_atomic.
Qed.

(** Capacity and balance hold after any sequence of calls, including the
    ones that raise: at most 1024 buckets per sign, 64-bit counters, and the
    total is the sum of the bucket counts. *)
Theorem dds_always_wf `{Libm} alpha s0 cs :
  dds_init alpha = Ok s0 → dds_wf (dds_after cs s0).
Proof. intros Hi%dds_init_empty. by apply dds_after_wf, dds_empty_wf. Qed.

(** *** Witnesses: a sketch of accuracy [0.5] over the coarse logarithm *)

Definition demo_init : dds :=
  Eval vm_compute in
    match dds_init (H := coarse_libm) 0.5%float with
    | Ok s => s
    | Raise _ => mk_dds 0 0 0 0 ∅ ∅ 0 0 0 0
    end.

Definition demo_items : list (float * Z) :=
  [(1%float, 2); ((-4)%float, 1); (0%float, 1); (4%float, 3); (nan, 1)].

Definition demo_state : dds := exec (dds_adds (H := coarse_libm) demo_items) demo_init.


Lemma demo_init_ok : dds_init (H := coarse_libm) 0.5%float = Ok demo_init.
Proof. vm_compute. reflexivity. Qed.
Lemma demo_good : good_multiplier demo_init.
Proof. vm_compute. split; reflexivity. Qed.
Lemma demo_run :
  dds_adds (H := coarse_libm) demo_items demo_init = (Ok tt, demo_state).
Proof. vm_compute. reflexivity. Qed.

Lemma dds_quantile_within_alpha_witness :
  ∃ v n ans, (v, n) ∈ kept demo_items ∧
    is_quantile (kept demo_items)
      (0.5 * float_of_Z (dds_count demo_state))%float v ∧
    dds_quantile (H := coarse_libm) demo_state 0.5%float = Ok ans ∧
    dds_close demo_init v ans.
Proof.
  apply (dds_quantile_within_alpha (L := coarse_libm) 0.5%float demo_init
    demo_items demo_state 0.5%float demo_init_ok demo_good demo_run).
  - reflexivity.
  - reflexivity.
  - reflexivity.
  - vm_compute. by split.
Defined.

Lemma dds_count_greater_than_bounds_witness :
  weight (λ v, flt 1%float v) (kept demo_items) ≤ 5 ≤
  weight (λ v, flt 1%float v ||
    same_bucket (H := coarse_libm) demo_init 1%float v) (kept demo_items).
Proof.
  apply (dds_count_greater_than_bounds (L := coarse_libm) 0.5%float demo_init
    demo_items demo_state 1%float 5 demo_init_ok demo_good demo_run).
  - reflexivity.
  - vm_compute. reflexivity.
Defined.

Lemma dds_add_batch_refines_add_witness :
  let s' := exec (dds_add_batch (H := coarse_libm) [1; 4; 0; (-4)]%float) demo_init in
  dds_adds (H := coarse_libm) (ones [1; 4; 0; (-4)]%float) demo_init = (Ok tt, s').
Proof.
  apply (dds_add_batch_refines_add (H := coarse_libm) [1; 4; 0; (-4)]%float demo_init).
  - apply dds_empty_wf. vm_compute. by split_and!.
  - vm_compute. reflexivity.
Defined.

Lemma dds_always_wf_witness :
  dds_wf (dds_after (H := coarse_libm)
    [CallAdd 3%float 2; CallAddBatch [1; infinity]%float; CallAdd 2%float (2 ^ 63)]
    demo_init).
Proof. apply (dds_always_wf (H := coarse_libm) 0.5%float), demo_init_ok. Defined.
