(* ===== verification/PyVal.v ===== *)
(** * Dynamically typed Python values

    The values a JSON document can hold ([None], [bool], [int], [float],
    [str], [list], [dict]), as the checkpoint code receives and inspects them:
    dictionary access, exact type tests, canonical decimal strings, and what
    [json.loads(json.dumps(v))] does to dictionary keys. *)

From Stdlib Require Import PrimFloat Ascii String.
From S2P Require Import Prelude PyFloat.

#[local] Open Scope Z_scope.
#[local] Open Scope py_scope.

Inductive pyval : Type :=
| VNone
| VBool (b : bool)
| VInt (z : Z)
| VFloat (f : float)
| VStr (s : string)
| VList (l : list pyval)
| VDict (d : list (pyval * pyval)).

(** The entries of a [dict], in insertion order. *)
Definition pydict := list (pyval * pyval).

(** [d.get(k)] for a string key. *)
Fixpoint dict_get (d : pydict) (k : string) : option pyval :=
  match d with
  | [] => None
  | (VStr k', v) :: d' => if decide (k' = k) then Some v else dict_get d' k
  | _ :: d' => dict_get d' k
  end.

(** [d[k]] *)
Definition dict_item (d : pydict) (k : string) : res pyval :=
  match dict_get d k with Some v => Ok v | None => Raise (KeyError k) end.

(** [isinstance(v, dict)] and [isinstance(v, list)] *)
Definition as_dict (v : pyval) : option pydict :=
  match v with VDict d => Some d | _ => None end.
Definition as_list (v : pyval) : option (list pyval) :=
  match v with VList l => Some l | _ => None end.
(** [type(v) is int] ([bool] is another type). *)
Definition as_int (v : pyval) : option Z :=
  match v with VInt z => Some z | _ => None end.
Definition as_bool (v : pyval) : option bool :=
  match v with VBool b => Some b | _ => None end.

(** A required field of a given shape: [ValueError msg] when it has another. *)
Definition expect {A} (o : option A) (msg : string) : res A :=
  match o with Some a => Ok a | None => Raise (ValueError msg) end.

(** ** Decimal strings *)

Definition digit_char (d : Z) : ascii := ascii_of_nat (Z.to_nat d + 48).

(** The digits of a positive integer, most significant first, in front of
    [acc]; a number has at most [log2 n + 1] digits. *)
Fixpoint digits_of (fuel : nat) (n : Z) (acc : string) : string :=
  match fuel with
  | O => acc
  | S fuel =>
      let acc := String (digit_char (n mod 10)) acc in
      if n <? 10 then acc else digits_of fuel (n / 10) acc
  end.

(** [str(n)] *)
Definition str_of_Z (n : Z) : string :=
  let s := digits_of (Z.to_nat (Z.log2 (Z.abs n)) + 1) (Z.abs n) "" in
  if n <? 0 then String "-"%char s else s.

Definition char_digit (a : ascii) : option Z :=
  let d := Z.of_nat (nat_of_ascii a) - 48 in
  if (0 <=? d) && (d <=? 9) then Some d else None.

Fixpoint parse_digits (s : string) (acc : Z) : option Z :=
  match s with
  | EmptyString => Some acc
  | String a s' =>
      match char_digit a with
      | Some d => parse_digits s' (10 * acc + d)
      | None => None
      end
  end.

(** [int(k)] followed by the test [str(ik) == k]: only canonical decimals
    pass (the other forms [int] accepts differ from their [str]). *)
Definition canonical_int (k : string) : option Z :=
  let r := match k with
           | String "-"%char s => option_map Z.opp (parse_digits s 0)
           | _ => parse_digits k 0
           end in
  match r with
  | Some z => if decide (str_of_Z z = k) then Some z else None
  | None => None
  end.

Lemma char_digit_char d : 0 ≤ d ≤ 9 → char_digit (digit_char d) = Some d.
Proof.
  intros Hd. unfold char_digit, digit_char.
  rewrite nat_ascii_embedding by lia.
  replace (Z.of_nat (Z.to_nat d + 48) - 48) with d by lia.
  destruct (Z.leb_spec 0 d), (Z.leb_spec d 9); simpl; done || lia.
Qed.

(** Parsing the digits of [n] in front of [acc] continues with the value of
    [n]. *)
Lemma parse_digits_of fuel n acc a :
  0 ≤ n < 2 ^ Z.of_nat fuel → (0 < fuel)%nat →
  ∃ k, 0 ≤ k ∧ parse_digits (digits_of fuel n acc) a =
    parse_digits acc (a * 10 ^ k + n).
Proof.
  revert n acc a. induction fuel as [|fuel IH]; intros n acc a Hn Hf; [lia|].
  cbn [digits_of]. pose proof (Z.mod_pos_bound n 10 ltac:(lia)) as Hm.
  pose proof (Z.div_mod n 10 ltac:(lia)) as Hd.
  destruct (Z.ltb_spec n 10) as [Hlt|Hge].
  - exists 1. split; [lia|]. cbn [parse_digits]. rewrite char_digit_char by lia.
    rewrite Z.mod_small by lia. f_equal. lia.
  - rewrite Nat2Z.inj_succ, Z.pow_succ_r in Hn by lia.
    destruct fuel as [|fuel']; [simpl in Hn; lia|].
    destruct (IH (n / 10) (String (digit_char (n mod 10)) acc) a) as (k & Hk & ->);
      [split; [apply Z.div_pos; lia|apply Z.div_lt_upper_bound; lia]|lia|].
    exists (k + 1). split; [lia|]. cbn [parse_digits].
    rewrite char_digit_char by lia. f_equal.
    rewrite Z.pow_add_r by lia. lia.
Qed.

Lemma parse_str_abs n :
  parse_digits (digits_of (Z.to_nat (Z.log2 (Z.abs n)) + 1) (Z.abs n) "") 0 =
  Some (Z.abs n).
Proof.
  destruct (parse_digits_of (Z.to_nat (Z.log2 (Z.abs n)) + 1) (Z.abs n) "" 0)
    as (k & _ & ->); [|lia|simpl; f_equal; lia].
  split; [lia|]. pose proof (Z.log2_nonneg (Z.abs n)).
  replace (Z.of_nat (Z.to_nat (Z.log2 (Z.abs n)) + 1)) with (Z.log2 (Z.abs n) + 1) by lia.
  destruct (Z.eq_dec n 0) as [->|]; [done|].
  pose proof (Z.log2_spec (Z.abs n) ltac:(lia)). lia.
Qed.

(** The first character of a printed natural number is a digit. *)
Lemma digits_of_head fuel n acc :
  0 ≤ n → (0 < fuel)%nat →
  ∃ d s, 0 ≤ d ≤ 9 ∧ digits_of fuel n acc = String (digit_char d) s.
Proof.
  revert n acc. induction fuel as [|fuel IH]; intros n acc Hn Hf; [lia|].
  cbn [digits_of]. pose proof (Z.mod_pos_bound n 10 ltac:(lia)).
  destruct (n <? 10); [exists (n mod 10), acc; split; [lia|done]|].
  destruct fuel as [|fuel'].
  - exists (n mod 10), acc. split; [lia|done].
  - apply IH; [apply Z.div_pos; lia|lia].
Qed.

Lemma digit_char_not_minus d : 0 ≤ d ≤ 9 → digit_char d ≠ "-"%char.
Proof.
  intros Hd E. pose proof (char_digit_char d Hd) as H. by rewrite E in H.
Qed.

(** [int(str(n)) == n], and the string is canonical. *)
Lemma canonical_int_str n : canonical_int (str_of_Z n) = Some n.
Proof.
  unfold canonical_int. 
  assert (match str_of_Z n with
          | String "-"%char s => option_map Z.opp (parse_digits s 0)
          | _ => parse_digits (str_of_Z n) 0
          end = Some n) as ->; [|by rewrite decide_True].
  pose proof (parse_str_abs n) as Hp. unfold str_of_Z.
  destruct (Z.ltb_spec n 0) as [Hn|Hn].
  - rewrite Hp. simpl. f_equal. lia.
  - destruct (digits_of_head (Z.to_nat (Z.log2 (Z.abs n)) + 1) (Z.abs n) "")
      as (d & s & Hd & E); [lia|lia|]. rewrite E in *.
    apply digit_char_not_minus in Hd.
    destruct (digit_char d) as [[] [] [] [] [] [] [] []]; 
      try (rewrite Hp; f_equal; lia). done.
Qed.

(** ** JSON *)

(** [json.dumps] writes an [int] key as its decimal string; the other values
    of a checkpoint survive the round trip through text unchanged. *)
Fixpoint json_roundtrip (v : pyval) : pyval :=
  match v with
  | VList l => VList (map json_roundtrip l)
  | VDict d =>
      VDict (map (λ kv, (match kv.1 with VInt z => VStr (str_of_Z z) | k => k end,
                         json_roundtrip kv.2)) d)
  | v => v
  end.
