(* ===== verification/PyDict.v ===== *)
(** * Ordered dictionaries

    A Python [dict] as the list of its entries in insertion order, for the
    components that iterate over their dictionaries: [d.get], [d[k] = v]
    (in place, or at the end when the key is new), [del]/[pop], and the size
    of a union of key sets.  The laws are those of finite maps, and each
    operation keeps the keys distinct. *)

From S2P Require Import Prelude.

#[local] Open Scope Z_scope.

Section odict.
Context {K A : Type} `{EqDecision K}.

Fixpoint od_get (d : list (K * A)) (k : K) : option A :=
  match d with
  | [] => None
  | (k', v) :: d' => if decide (k' = k) then Some v else od_get d' k
  end.

Fixpoint od_set (k : K) (v : A) (d : list (K * A)) : list (K * A) :=
  match d with
  | [] => [(k, v)]
  | (k', v') :: d' => if decide (k' = k) then (k', v) :: d' else (k', v') :: od_set k v d'
  end.

Definition od_del (k : K) (d : list (K * A)) : list (K * A) :=
  filter (λ kv, kv.1 ≠ k) d.

Definition od_keys (d : list (K * A)) : list K := d.*1.

(** [k in d] *)
Definition od_has (d : list (K * A)) (k : K) : bool :=
  match od_get d k with Some _ => true | None => false end.

Lemma od_get_set_eq d k v : od_get (od_set k v d) k = Some v.
Proof.
  induction d as [|[k' v'] d IH]; simpl; [by rewrite decide_True|].
  destruct (decide (k' = k)) as [E|E]; simpl; [by rewrite decide_True|].
  by rewrite decide_False.
Qed.

Lemma od_get_set_ne d k k' v : k ≠ k' → od_get (od_set k v d) k' = od_get d k'.
Proof.
  intros Hne. induction d as [|[k1 v1] d IH]; simpl; [by rewrite decide_False|].
  destruct (decide (k1 = k)) as [->|E]; simpl; [by rewrite !decide_False|].
  by rewrite IH.
Qed.

Lemma od_get_set d k k' v :
  od_get (od_set k v d) k' = if decide (k = k') then Some v else od_get d k'.
Proof.
  destruct (decide (k = k')) as [->|]; [apply od_get_set_eq|by apply od_get_set_ne].
Qed.

Lemma od_get_del_eq d k : od_get (od_del k d) k = None.
Proof.
  unfold od_del. induction d as [|[k' v'] d IH]; [done|].
  rewrite filter_cons. destruct (decide _) as [E|E]; [|done].
  simpl in *. by rewrite decide_False.
Qed.

Lemma od_get_del_ne d k k' : k ≠ k' → od_get (od_del k d) k' = od_get d k'.
Proof.
  intros Hne. unfold od_del. induction d as [|[k1 v1] d IH]; [done|].
  rewrite filter_cons. destruct (decide _) as [E|E]; simpl in *; [by rewrite IH|].
  rewrite decide_False; [done|]. intros ->. apply E. congruence.
Qed.

Lemma od_get_del d k k' :
  od_get (od_del k d) k' = if decide (k = k') then None else od_get d k'.
Proof.
  destruct (decide (k = k')) as [->|]; [apply od_get_del_eq|by apply od_get_del_ne].
Qed.

Lemma od_get_elem d k v : od_get d k = Some v → (k, v) ∈ d.
Proof.
  induction d as [|[k' v'] d IH]; simpl; [done|].
  case_decide; [intros [= <-]; subst; by left|]. intros; right; auto.
Qed.

Lemma od_get_key d k : is_Some (od_get d k) ↔ k ∈ od_keys d.
Proof.
  induction d as [|[k' v'] d IH]; simpl.
  - split; intros H; [by destruct H|by apply elem_of_nil in H].
  - rewrite elem_of_cons, <- IH. case_decide as E; [|naive_solver].
    split; [by left|]. eauto.
Qed.

Lemma od_get_none d k : od_get d k = None ↔ k ∉ od_keys d.
Proof. rewrite <- od_get_key, <- eq_None_not_Some. done. Qed.

Lemma od_elem_get d k v : NoDup (od_keys d) → (k, v) ∈ d → od_get d k = Some v.
Proof.
  induction d as [|[k' v'] d IH]; intros Hnd Hin; [by apply elem_of_nil in Hin|].
  apply NoDup_cons in Hnd as [Hk Hnd]. simpl.
  apply elem_of_cons in Hin as [[= -> ->]|Hin]; [by rewrite decide_True|].
  rewrite decide_False; [by apply IH|]. intros ->. apply Hk.
  apply list_elem_of_fmap. by exists (k, v).
Qed.

Lemma od_keys_set d k v :
  od_keys (od_set k v d) = if decide (k ∈ od_keys d) then od_keys d else od_keys d ++ [k].
Proof.
  assert (∀ d, k ∈ od_keys d → od_keys (od_set k v d) = od_keys d) as Hin.
  { clear d. induction d as [|[k' v'] d IH]; intros Hk; [by apply elem_of_nil in Hk|].
    cbn [od_set]. destruct (decide (k' = k)) as [->|E]; [done|].
    apply elem_of_cons in Hk as [Hk|Hk]; [by destruct E|].
    unfold od_keys in *. rewrite !fmap_cons. by rewrite IH. }
  assert (∀ d, k ∉ od_keys d → od_keys (od_set k v d) = od_keys d ++ [k]) as Hout.
  { clear d Hin. induction d as [|[k' v'] d IH]; intros Hk; [done|].
    unfold od_keys in *. rewrite fmap_cons in Hk. apply not_elem_of_cons in Hk as [E Hk].
    cbn [od_set]. rewrite decide_False by (intros ->; by apply E).
    rewrite !fmap_cons. by rewrite IH. }
  destruct (decide (k ∈ od_keys d)); auto.
Qed.

Lemma od_keys_del d k : od_keys (od_del k d) = filter (λ k', k' ≠ k) (od_keys d).
Proof.
  unfold od_keys, od_del. induction d as [|[k' v'] d IH]; [done|].
  rewrite fmap_cons, !filter_cons. cbn [fst].
  destruct (decide (k' ≠ k)); [|done]. by rewrite fmap_cons, IH.
Qed.

Lemma elem_of_od_keys_set d k v k' : k' ∈ od_keys (od_set k v d) ↔ k' = k ∨ k' ∈ od_keys d.
Proof. rewrite od_keys_set. case_decide; set_solver. Qed.

Lemma elem_of_od_keys_del d k k' : k' ∈ od_keys (od_del k d) ↔ k' ≠ k ∧ k' ∈ od_keys d.
Proof. by rewrite od_keys_del, list_elem_of_filter. Qed.

Lemma od_set_nodup d k v : NoDup (od_keys d) → NoDup (od_keys (od_set k v d)).
Proof.
  intros Hnd. rewrite od_keys_set. case_decide; [done|].
  apply NoDup_app. split_and!; [done|set_solver|apply NoDup_singleton].
Qed.

Lemma od_del_nodup d k : NoDup (od_keys d) → NoDup (od_keys (od_del k d)).
Proof. intros. rewrite od_keys_del. by apply NoDup_filter. Qed.

Lemma od_set_length d k v :
  length (od_set k v d) = if od_has d k then length d else S (length d).
Proof.
  unfold od_has. induction d as [|[k' v'] d IH]; simpl; [done|].
  destruct (decide (k' = k)); simpl; [done|]. rewrite IH. by destruct (od_get d k).
Qed.

Lemma od_has_key d k : od_has d k = true ↔ k ∈ od_keys d.
Proof.
  rewrite <- od_get_key. unfold od_has. destruct (od_get d k); split; try done; eauto.
Qed.

(** Deleting a key just added, or setting a key back, undoes the step. *)
Lemma od_del_set_fresh d k v : k ∉ od_keys d → od_del k (od_set k v d) = d.
Proof.
  intros Hk. unfold od_del. induction d as [|[k' v'] d IH]; simpl.
  - rewrite filter_cons, decide_False by (simpl; congruence). done.
  - assert (k' ≠ k ∧ k ∉ od_keys d) as [Hne Hk'] by (cbn in Hk; set_solver).
    rewrite decide_False by done. rewrite filter_cons, decide_True by done.
    by rewrite IH.
Qed.

Lemma od_set_set d k v w : od_set k v (od_set k w d) = od_set k v d.
Proof.
  induction d as [|[k' v'] d IH]; simpl; [by rewrite decide_True|].
  destruct (decide (k' = k)); simpl; [by rewrite decide_True|].
  rewrite decide_False by done. by rewrite IH.
Qed.

Lemma od_del_set d k v : od_del k (od_set k v d) = od_del k d.
Proof.
  unfold od_del. induction d as [|[k' v'] d IH]; cbn [od_set].
  - rewrite filter_cons, decide_False by (cbn; congruence). done.
  - case_decide; rewrite !filter_cons; cbn; case_decide; congruence.
Qed.

Lemma od_set_get d k v : od_get d k = Some v → od_set k v d = d.
Proof.
  induction d as [|[k' v'] d IH]; simpl; [done|].
  case_decide; [by intros [= ->]|]. intros. by rewrite IH.
Qed.

Lemma Forall_od_set (P : K * A → Prop) d k v :
  P (k, v) → Forall P d → Forall P (od_set k v d).
Proof.
  intros Hp Hd. induction Hd as [|[k' v'] d H Hd IH]; simpl; [by constructor|].
  case_decide; subst; by constructor.
Qed.

Lemma Forall_od_del (P : K * A → Prop) d k : Forall P d → Forall P (od_del k d).
Proof.
  rewrite !Forall_forall. intros H x. unfold od_del. rewrite list_elem_of_filter. naive_solver.
Qed.
End odict.

(** [len(d.keys() | e.keys())] *)
Definition union_size {K A B} `{EqDecision K} (d : list (K * A)) (e : list (K * B)) : Z :=
  Z.of_nat (length (remove_dups (od_keys d ++ od_keys e))).
Definition in_union {K A B} `{EqDecision K} (d : list (K * A)) (e : list (K * B)) (k : K) : bool :=
  od_has d k || od_has e k.

(** A set of keys is no larger than any list that contains it. *)
Lemma remove_dups_length_le {K} `{EqDecision K} (l k : list K) :
  (∀ x, x ∈ l → x ∈ k) → (length (remove_dups l) ≤ length (remove_dups k))%nat.
Proof.
  intros Hl. apply submseteq_length, NoDup_submseteq; [apply NoDup_remove_dups|].
  intros x. rewrite !elem_of_remove_dups. apply Hl.
Qed.

Lemma union_size_mono {K A B A' B'} `{EqDecision K}
    (d : list (K * A)) (e : list (K * B)) (d' : list (K * A')) (e' : list (K * B')) :
  (∀ k, k ∈ od_keys d' ++ od_keys e' → k ∈ od_keys d ++ od_keys e) →
  union_size d' e' ≤ union_size d e.
Proof. intros Hk. unfold union_size. apply inj_le, remove_dups_length_le, Hk. Qed.

Lemma union_size_add {K A B A' B'} `{EqDecision K} k
    (d : list (K * A)) (e : list (K * B)) (d' : list (K * A')) (e' : list (K * B')) :
  (∀ k', k' ∈ od_keys d' ++ od_keys e' → k' = k ∨ k' ∈ od_keys d ++ od_keys e) →
  union_size d' e' ≤ union_size d e + 1.
Proof.
  intros Hk. unfold union_size.
  assert (length (remove_dups (od_keys d' ++ od_keys e'))
    ≤ length (remove_dups (k :: (od_keys d ++ od_keys e))))%nat as H1
    by (apply remove_dups_length_le; intros x Hx; set_solver).
  simpl in H1. destruct (decide_rel _ k _) in H1; simpl in H1; lia.
Qed.

Lemma in_union_spec {K A B} `{EqDecision K} (d : list (K * A)) (e : list (K * B)) k :
  in_union d e k = true ↔ k ∈ od_keys d ++ od_keys e.
Proof. unfold in_union. rewrite orb_true_iff, !od_has_key. set_solver. Qed.
