(* ===== verification/PyNum.v ===== *)
(** * Python numbers

    A value that may be an [int] or a [float], as JSON documents deliver it:
    the exact comparisons Python makes between the two kinds, [max], and their
    meaning on finite numbers as an order on integers. *)

From Stdlib Require Import PrimFloat SpecFloat FloatOps FloatAxioms.
From S2P Require Import Prelude PyFloat FloatRound PyVal.

#[local] Open Scope Z_scope.
#[local] Open Scope py_scope.

Inductive pnum := PInt (z : Z) | PFlt (x : float).

#[export] Instance pnum_eq_dec : EqDecision pnum.
Proof. solve_decision. Defined.

Definition fcompare (x y : float) : option comparison :=
  if flt x y then Some Lt else if feq x y then Some Eq else if flt y x then Some Gt else None.

(** [None] when an operand is NaN. *)
Definition pn_compare (a b : pnum) : option comparison :=
  match a, b with
  | PInt m, PInt n => Some (m ?= n)
  | PFlt x, PFlt y => fcompare x y
  | PFlt x, PInt n => fcompare_Z x n
  | PInt m, PFlt y => option_map CompOpp (fcompare_Z y m)
  end.

(** [a < b], [a <= b], [max(a, b)] *)
Definition pn_lt (a b : pnum) : bool :=
  match pn_compare a b with Some Lt => true | _ => false end.
Definition pn_le (a b : pnum) : bool :=
  match pn_compare a b with Some (Lt | Eq) => true | _ => false end.
Definition pn_max (a b : pnum) : pnum := if pn_lt a b then b else a.

(** [isinstance(v, (int, float)) and not isinstance(v, bool)] *)
Definition as_number (v : pyval) : option pnum :=
  match v with VInt z => Some (PInt z) | VFloat x => Some (PFlt x) | _ => None end.

(** The truth value of a JSON value. *)
Definition truthy (v : pyval) : bool :=
  match v with
  | VNone => false
  | VBool b => b
  | VInt z => negb (z =? 0)
  | VFloat x => negb (feq x 0%float)
  | VStr s => negb (bool_decide (s = ""))
  | VList l => match l with [] => false | _ => true end
  | VDict d => match d with [] => false | _ => true end
  end.

(** [isinstance(v, (int, float))], which a [bool] satisfies, and [a == b] of
    two JSON values. *)
Definition real_number (v : pyval) : option pnum :=
  match v with VBool b => Some (PInt (if b then 1 else 0)) | _ => as_number v end.

Fixpoint py_eq (a b : pyval) : bool :=
  match a, b with
  | VNone, VNone => true
  | VStr s, VStr t => bool_decide (s = t)
  | VList l, VList m =>
      (fix go l m := match l, m with
       | [], [] => true
       | x :: l, y :: m => py_eq x y && go l m
       | _, _ => false
       end) l m
  | VDict d, VDict e =>
      (length d =? length e)%nat &&
      (fix go d := match d with
       | [] => true
       | (VStr k, v) :: d =>
           match dict_get e k with Some w => py_eq v w | None => false end && go d
       | _ => false
       end) d
  | _, _ =>
      match real_number a, real_number b with
      | Some x, Some y => match pn_compare x y with Some Eq => true | _ => false end
      | _, _ => false
      end
  end.

(** [math.isfinite(a)] and [float(a)]: an [int] is converted first. *)
Definition pn_isfinite (a : pnum) : res bool :=
  match a with
  | PInt z => let? _ := py_float_of_Z z in Ok true
  | PFlt x => Ok (isfinite x)
  end.
Definition pn_float (a : pnum) : res float :=
  match a with PInt z => py_float_of_Z z | PFlt x => Ok x end.

(** Finite numbers, and their value in units of [2^-1074]. *)
Definition pn_fin (a : pnum) : bool :=
  match a with PInt _ => true | PFlt x => isfinite x end.
Definition pn_val (a : pnum) : Z :=
  match a with PInt z => z * 2 ^ 1074 | PFlt x => fval x end.

Lemma fcompare_val x y :
  isfinite x = true → isfinite y = true → fcompare x y = Some (fval x ?= fval y).
Proof.
  intros Fx Fy. pose proof (isfinite_num _ Fx) as Nx. pose proof (isfinite_num _ Fy) as Ny.
  unfold fcompare.
  destruct (flt x y) eqn:E1.
  { apply flt_val in E1; [|done..]. f_equal. symmetry. by apply Z.compare_lt_iff. }
  destruct (feq x y) eqn:E2.
  { apply feq_val in E2; [|done..]. f_equal. symmetry. by apply Z.compare_eq_iff. }
  destruct (flt y x) eqn:E3.
  { apply flt_val in E3; [|done..]. f_equal. symmetry. by apply Z.compare_gt_iff. }
  exfalso. rewrite <- not_true_iff_false, flt_val in E1, E3 by done.
  rewrite <- not_true_iff_false, feq_val in E2 by done. lia.
Qed.

Lemma compare_scale a b p : 0 < p → (a * p ?= b * p) = (a ?= b).
Proof. intros Hp. symmetry. apply Zmult_compare_compat_r. lia. Qed.

Lemma fcompare_Z_val x n :
  isfinite x = true → fcompare_Z x n = Some (fval x ?= n * 2 ^ 1074).
Proof.
  intros F%isfinite_SF. pose proof (Prim2SF_valid x) as Vx.
  unfold fcompare_Z, fval. assert (0 < 2 ^ 1074) as HU by done.
  destruct F as [[s E]|(s&m&e&E)]; rewrite E in *; cbn [SFval]; f_equal.
  - by rewrite <- (compare_scale 0 n (2 ^ 1074) HU).
  - apply bounded_spec in Vx as (?&_). rewrite cond_Zopp_mul.
    set (v := cond_Zopp s (Zpos m)). destruct (Z.leb_spec 0 e).
    + rewrite Z.pow_add_r by lia. rewrite Z.mul_assoc.
      by rewrite compare_scale.
    + assert (2 ^ 1074 = 2 ^ (- e) * 2 ^ (e + 1074)) as E1
        by (rewrite <- Z.pow_add_r by lia; f_equal; lia).
      rewrite E1, Z.mul_assoc.
      rewrite compare_scale by (apply Z.pow_pos_nonneg; lia). done.
Qed.

Lemma pn_compare_val a b :
  pn_fin a = true → pn_fin b = true → pn_compare a b = Some (pn_val a ?= pn_val b).
Proof.
  destruct a as [m|x], b as [n|y]; cbn; intros Fa Fb.
  - f_equal. by rewrite compare_scale.
  - rewrite fcompare_Z_val by done. cbn. f_equal. by rewrite <- Z.compare_antisym.
  - by apply fcompare_Z_val.
  - by apply fcompare_val.
Qed.

Lemma pn_lt_val a b :
  pn_fin a = true → pn_fin b = true → pn_lt a b = true ↔ pn_val a < pn_val b.
Proof.
  intros Fa Fb. unfold pn_lt. rewrite pn_compare_val by done.
  destruct (Z.compare_spec (pn_val a) (pn_val b)); split; done || lia.
Qed.

Lemma pn_le_val a b :
  pn_fin a = true → pn_fin b = true → pn_le a b = true ↔ pn_val a ≤ pn_val b.
Proof.
  intros Fa Fb. unfold pn_le. rewrite pn_compare_val by done.
  destruct (Z.compare_spec (pn_val a) (pn_val b)); split; done || lia.
Qed.

Lemma pn_max_fin a b : pn_fin a = true → pn_fin b = true → pn_fin (pn_max a b) = true.
Proof. unfold pn_max. by destruct (pn_lt a b). Qed.

Lemma pn_max_val a b :
  pn_fin a = true → pn_fin b = true → pn_val (pn_max a b) = Z.max (pn_val a) (pn_val b).
Proof.
  intros Fa Fb. unfold pn_max. destruct (pn_lt a b) eqn:E.
  - apply pn_lt_val in E; [lia|done..].
  - rewrite <- not_true_iff_false, pn_lt_val in E by done. lia.
Qed.

Lemma pn_isfinite_fin a b : pn_isfinite a = Ok b → pn_fin a = b.
Proof.
  destruct a as [z|x]; cbn; [|by intros [= <-]].
  destruct (py_float_of_Z z); cbn; [by intros [= <-]|done].
Qed.
