(* ===== verification/Json.v ===== *)
(** * JSON text

    What the mesh uses of [json.dumps] and [json.loads]: the text of a string
    ([ensure_ascii]: control and non-ASCII characters are escaped), the size of
    a document written with compact separators and [allow_nan=False], and the
    canonical text of a stream key, which is the list of a namespace and a
    stream name.  [repr] of a float is a parameter. *)

From Stdlib Require Import PrimFloat Ascii String.
From S2P Require Import Prelude PyFloat PyVal.

#[local] Open Scope Z_scope.
#[local] Open Scope py_scope.

(** ** Characters *)

Definition byte (n : Z) : ascii := ascii_of_nat (Z.to_nat n).
Definition code (a : ascii) : Z := Z.of_nat (nat_of_ascii a).

(** The code points of a UTF-8 text; a byte out of place stands for itself. *)
Fixpoint utf8_decode (l : list ascii) : list Z :=
  match l with
  | [] => []
  | a :: l1 =>
      let c := code a in
      if c <? 192 then c :: utf8_decode l1
      else match l1 with
      | [] => [c]
      | b :: l2 =>
          if c <? 224 then (c - 192) * 64 + (code b - 128) :: utf8_decode l2
          else match l2 with
          | [] => [c; code b]
          | d :: l3 =>
              if c <? 240
              then (c - 224) * 4096 + (code b - 128) * 64 + (code d - 128) :: utf8_decode l3
              else match l3 with
              | [] => [c; code b; code d]
              | e :: l4 =>
                  (c - 240) * 262144 + (code b - 128) * 4096 + (code d - 128) * 64
                    + (code e - 128) :: utf8_decode l4
              end
          end
      end
  end.

Definition utf8_encode1 (c : Z) : list ascii :=
  if c <? 128 then [byte c]
  else if c <? 2048 then [byte (192 + c / 64); byte (128 + c mod 64)]
  else if c <? 65536 then
    [byte (224 + c / 4096); byte (128 + c / 64 mod 64); byte (128 + c mod 64)]
  else
    [byte (240 + c / 262144); byte (128 + c / 4096 mod 64); byte (128 + c / 64 mod 64);
     byte (128 + c mod 64)].

Definition hex_digit (d : Z) : ascii := byte (if d <? 10 then 48 + d else 87 + d).

(** [\uXXXX] *)
Definition escape_u (c : Z) : list ascii :=
  [byte 92; byte 117; hex_digit (c / 4096); hex_digit (c / 256 mod 16);
   hex_digit (c / 16 mod 16); hex_digit (c mod 16)].

(** One character inside a JSON string. *)
Definition escape_char (c : Z) : list ascii :=
  if c =? 34 then [byte 92; byte 34]
  else if c =? 92 then [byte 92; byte 92]
  else if c =? 10 then [byte 92; byte 110]
  else if c =? 13 then [byte 92; byte 114]
  else if c =? 9 then [byte 92; byte 116]
  else if c =? 12 then [byte 92; byte 102]
  else if c =? 8 then [byte 92; byte 98]
  else if (32 <=? c) && (c <=? 126) then [byte c]
  else if c <? 65536 then escape_u c
  else escape_u (55296 + (c - 65536) / 1024) ++ escape_u (56320 + (c - 65536) mod 1024).

Definition quote : ascii := byte 34.

(** [json.dumps(s)] *)
Definition json_str (s : string) : list ascii :=
  quote :: concat (map escape_char (utf8_decode (list_ascii_of_string s))) ++ [quote].

(** ** Sizes of documents *)

Class FloatRepr := float_repr : float → string.

Section sizes.
Context `{FloatRepr}.

Definition size (l : list ascii) : Z := Z.of_nat (length l).

(** [len(json.dumps(v, separators=(",", ":"), allow_nan=False))], where the
    members of a container are separated by one character. *)
Definition commas (n : nat) : Z := Z.max 0 (Z.of_nat n - 1).

Definition key_size (k : pyval) : res Z :=
  match k with
  | VStr s => Ok (size (json_str s))
  | VInt z => Ok (Z.of_nat (String.length (str_of_Z z)) + 2)
  | VBool b => Ok (if b then 6 else 7)
  | VNone => Ok 6
  | VFloat x => Ok (Z.of_nat (String.length (float_repr x)) + 2)
  | _ => Raise (TypeError "keys must be str, int, float, bool or None")
  end.

Fixpoint json_size (v : pyval) : res Z :=
  match v with
  | VNone => Ok 4
  | VBool b => Ok (if b then 4 else 5)
  | VInt z => Ok (Z.of_nat (String.length (str_of_Z z)))
  | VFloat x =>
      if isfinite x then Ok (Z.of_nat (String.length (float_repr x)))
      else Raise (ValueError "Out of range float values are not JSON compliant")
  | VStr s => Ok (size (json_str s))
  | VList l =>
      let? n := (fix go l := match l with
                 | [] => Ok 0
                 | v :: l => let? a := json_size v in let? b := go l in Ok (a + b)
                 end) l in
      Ok (2 + n + commas (length l))
  | VDict d =>
      let? n := (fix go d := match d with
                 | [] => Ok 0
                 | (k, v) :: d =>
                     let? c := key_size k in
                     let? a := json_size v in
                     let? b := go d in Ok (c + 1 + a + b)
                 end) d in
      Ok (2 + n + commas (length d))
  end.
End sizes.

(** ** Stream keys *)

(** [json.dumps([ns, sid])] *)
Definition stream_key (ns sid : string) : string :=
  string_of_list_ascii
    ((byte 91 :: json_str ns) ++ (byte 44 :: byte 32 :: json_str sid) ++ [byte 93]).

Definition hex_value (a : ascii) : option Z :=
  let c := code a in
  if (48 <=? c) && (c <=? 57) then Some (c - 48)
  else if (97 <=? c) && (c <=? 102) then Some (c - 87)
  else None.

Definition parse_u (a b c d : ascii) : option Z :=
  match hex_value a, hex_value b, hex_value c, hex_value d with
  | Some x, Some y, Some z, Some w => Some (x * 4096 + y * 256 + z * 16 + w)
  | _, _, _, _ => None
  end.

(** The value of an escape sequence whose letter is [a]. *)
Definition simple_escape (a : ascii) : option Z :=
  let c := code a in
  if (c =? 34) || (c =? 92) then Some c
  else if c =? 110 then Some 10 else if c =? 114 then Some 13
  else if c =? 116 then Some 9 else if c =? 102 then Some 12
  else if c =? 98 then Some 8 else None.

(** The characters up to the closing quote, and what follows it.  Only the
    escapes [json.dumps] writes are accepted: a text with others differs from
    the canonical one, and [_valid_stream_key] compares the two. *)
Fixpoint parse_chars (l : list ascii) : option (list Z * list ascii) :=
  match l with
  | [] => None
  | a :: l1 =>
      if code a =? 34 then Some ([], l1)
      else if code a =? 92 then
        match l1 with
        | [] => None
        | u :: l2 =>
            if code u =? 117 then
              match l2 with
              | h1 :: h2 :: h3 :: h4 :: l3 =>
                  match parse_u h1 h2 h3 h4, parse_chars l3 with
                  | Some c, Some (cs, r) => Some (c :: cs, r)
                  | _, _ => None
                  end
              | _ => None
              end
            else
              match simple_escape u, parse_chars l2 with
              | Some c, Some (cs, r) => Some (c :: cs, r)
              | _, _ => None
              end
        end
      else
        match parse_chars l1 with
        | Some (cs, r) => Some (code a :: cs, r)
        | None => None
        end
  end.

(** Surrogate pairs name the characters beyond [\uFFFF]. *)
Fixpoint join_surrogates (cs : list Z) : list Z :=
  match cs with
  | c :: ((d :: ds) as cs') =>
      if (55296 <=? c) && (c <? 56320) && (56320 <=? d) && (d <? 57344)
      then 65536 + (c - 55296) * 1024 + (d - 56320) :: join_surrogates ds
      else c :: join_surrogates cs'
  | cs => cs
  end.

Definition text_of (cs : list Z) : string :=
  string_of_list_ascii (concat (map utf8_encode1 (join_surrogates cs))).

(** [json.loads] of the canonical text of a list of two strings. *)
Definition parse_key (s : string) : option (string * string) :=
  match list_ascii_of_string s with
  | a :: q :: l =>
      if (code a =? 91) && (code q =? 34) then
        match parse_chars l with
        | Some (ns, c :: sp :: q' :: l') =>
            if (code c =? 44) && (code sp =? 32) && (code q' =? 34) then
              match parse_chars l' with
              | Some (sid, [b]) =>
                  if code b =? 93 then Some (text_of ns, text_of sid) else None
              | _ => None
              end
            else None
        | _ => None
        end
      else None
  | _ => None
  end.

Definition MAX_IDENTIFIER_LENGTH : Z := 255.

Definition identifier_ok (s : string) : bool :=
  (0 <? py_len s) && (py_len s <=? MAX_IDENTIFIER_LENGTH).

(** [_valid_stream_key] *)
Definition valid_stream_key (v : pyval) : bool :=
  match v with
  | VStr s =>
      if 1024 <? py_len s then false
      else match parse_key s with
      | Some (ns, sid) =>
          bool_decide (s = stream_key ns sid) && identifier_ok ns && identifier_ok sid
      | None => false
      end
  | _ => false
  end.

(** *** Keys of ASCII names are canonical *)

Definition ascii_text (s : string) : Prop :=
  Forall (λ a, code a < 128) (list_ascii_of_string s).

Lemma code_byte c : 0 ≤ c < 256 → code (byte c) = c.
Proof. intros Hc. unfold code, byte. rewrite nat_ascii_embedding; lia. Qed.

Lemma byte_code a : byte (code a) = a.
Proof. unfold code, byte. by rewrite Nat2Z.id, ascii_nat_embedding. Qed.

Lemma parse_escape c l :
  0 ≤ c < 128 →
  parse_chars (escape_char c ++ l) =
  match parse_chars l with Some (cs, r) => Some (c :: cs, r) | None => None end.
Proof.
  intros Hc. revert l.
  assert (Forall (λ c, ∀ l, parse_chars (escape_char c ++ l) =
    match parse_chars l with Some (cs, r) => Some (c :: cs, r) | None => None end)
    (seqZ 0 128)) as H.
  { let l := eval vm_compute in (seqZ 0 128) in change (seqZ 0 128) with l.
    repeat (constructor; [intros l; reflexivity|]). constructor. }
  rewrite Forall_forall in H. apply H, elem_of_seqZ. lia.
Qed.

Lemma parse_escapes cs l :
  Forall (λ c, 0 ≤ c < 128) cs →
  parse_chars (concat (map escape_char cs) ++ quote :: l) = Some (cs, l).
Proof.
  induction 1 as [|c cs Hc Hcs IH]; [done|].
  simpl. rewrite <- app_assoc, parse_escape, IH by done. done.
Qed.

Lemma code_nonneg a : 0 ≤ code a.
Proof. unfold code. lia. Qed.

Lemma utf8_decode_ascii l :
  Forall (λ a, code a < 128) l → utf8_decode l = map code l.
Proof.
  induction 1 as [|a l Ha Hl IH]; [done|]. simpl.
  rewrite (proj2 (Z.ltb_lt _ _)) by lia. by rewrite IH.
Qed.

Lemma join_surrogates_low c cs : c < 55296 → join_surrogates (c :: cs) = c :: join_surrogates cs.
Proof.
  intros Hc. destruct cs as [|d ds]; [done|].
  change (join_surrogates (c :: d :: ds)) with
    (if (55296 <=? c) && (c <? 56320) && (56320 <=? d) && (d <? 57344)
     then 65536 + (c - 55296) * 1024 + (d - 56320) :: join_surrogates ds
     else c :: join_surrogates (d :: ds)).
  by rewrite (proj2 (Z.leb_gt 55296 c)) by done.
Qed.

Lemma text_of_ascii s :
  ascii_text s → text_of (map code (list_ascii_of_string s)) = s.
Proof.
  unfold ascii_text, text_of. intros Hs.
  assert (∀ l, Forall (λ a, code a < 128) l → join_surrogates (map code l) = map code l) as Hj.
  { induction 1 as [|a l Ha Hl IH]; [done|]. cbn [map].
    rewrite join_surrogates_low by lia. by rewrite IH. }
  rewrite Hj by done. rewrite <- (string_of_list_ascii_of_string s) at 2. f_equal.
  induction Hs as [|a l Ha Hl IH]; [done|]. simpl.
  unfold utf8_encode1 at 1. rewrite (proj2 (Z.ltb_lt _ _)) by lia.
  simpl. by rewrite byte_code, IH.
Qed.

Lemma json_str_ascii s :
  ascii_text s →
  json_str s = quote :: concat (map escape_char (map code (list_ascii_of_string s))) ++ [quote].
Proof. intros Hs. unfold json_str. by rewrite utf8_decode_ascii. Qed.

Lemma ascii_codes s : ascii_text s → Forall (λ c, 0 ≤ c < 128) (map code (list_ascii_of_string s)).
Proof.
  unfold ascii_text. induction 1; simpl; constructor; [|done].
  pose proof (code_nonneg x). lia.
Qed.

(** Reading back a written key. *)
Lemma parse_stream_key ns sid :
  ascii_text ns → ascii_text sid → parse_key (stream_key ns sid) = Some (ns, sid).
Proof.
  intros Hn Hs. unfold parse_key, stream_key.
  rewrite list_ascii_of_string_of_list_ascii, !json_str_ascii by done.
  cbn [app]. rewrite code_byte by lia. cbn [Z.eqb Pos.eqb andb].
  change (code quote =? 34) with true. cbn [andb].
  rewrite <- app_assoc. cbn [app]. rewrite parse_escapes by by apply ascii_codes.
  rewrite !code_byte by lia. change (code quote =? 34) with true.
  cbn [Z.eqb Pos.eqb andb]. rewrite <- app_assoc. cbn [app].
  rewrite parse_escapes by by apply ascii_codes.
  rewrite code_byte by lia. cbn. by rewrite !text_of_ascii.
Qed.

Lemma valid_stream_key_ok ns sid :
  ascii_text ns → ascii_text sid → identifier_ok ns = true → identifier_ok sid = true →
  py_len (stream_key ns sid) ≤ 1024 → valid_stream_key (VStr (stream_key ns sid)) = true.
Proof.
  intros Hn Hs In Is Hl. unfold valid_stream_key.
  rewrite (proj2 (Z.ltb_ge _ _)) by done. rewrite parse_stream_key by done.
  rewrite bool_decide_true by done. by rewrite In, Is.
Qed.

(** Distinct streams never share a key. *)
Lemma stream_key_inj ns sid ns' sid' :
  ascii_text ns → ascii_text sid → ascii_text ns' → ascii_text sid' →
  stream_key ns sid = stream_key ns' sid' → ns = ns' ∧ sid = sid'.
Proof.
  intros Hn Hs Hn' Hs' E. pose proof (parse_stream_key ns sid Hn Hs) as P.
  rewrite E, (parse_stream_key ns' sid' Hn' Hs') in P. by injection P.
Qed.
