(* ===== verification/StreamLog.v ===== *)
(** * StreamLog ([facade.py], class [_PythonStreamLog])

    The facade owning the three sketches: ingestion with its overflow guards,
    the read methods, [reset] and [merge].  Proved: the aggregate invariant
    (the total is the latency count plus the event count) survives every call
    sequence, exceptions included; [merge] is atomic; merging two logs is
    ingesting both streams into one. *)

From Stdlib Require Import PrimFloat.
From S2P Require Import Prelude PyFloat FloatRound Hashing CountMin HyperLogLog DDSketch.

#[local] Open Scope Z_scope.
#[local] Open Scope py_scope.
#[local] Set Warnings "-inexact-float".

Record slog := mk_slog {
  sl_latency : dds;
  sl_events : cms;
  sl_uniques : hll;
  sl_total : Z;
  sl_deterministic : bool
}.

Definition MAX_CMS_CELLS : Z := 1000000.

Definition set_latency (d : dds) (s : slog) : slog :=
  mk_slog d (sl_events s) (sl_uniques s) (sl_total s) (sl_deterministic s).
Definition set_events (c : cms) (s : slog) : slog :=
  mk_slog (sl_latency s) c (sl_uniques s) (sl_total s) (sl_deterministic s).
Definition set_uniques (h : hll) (s : slog) : slog :=
  mk_slog (sl_latency s) (sl_events s) h (sl_total s) (sl_deterministic s).
Definition set_total (n : Z) (s : slog) : slog :=
  mk_slog (sl_latency s) (sl_events s) (sl_uniques s) n (sl_deterministic s).

Section StreamLog.
Context `{Libm}.

Definition slog_init (relative_accuracy : float)
    (hll_precision cms_width cms_depth : Z) (deterministic : bool) : res slog :=
  if (cms_width <=? 0) || (cms_depth <=? 0)
  then Raise (ValueError "CountMinSketch width and depth must be > 0")
  else if MAX_CMS_CELLS / cms_depth <? cms_width
  then Raise (ValueError "CountMinSketch dimensions exceed cells")
  else
    let? latency := dds_init relative_accuracy in
    let? events := cms_init cms_width cms_depth in
    let? uniques := hll_init hll_precision in
    Ok (mk_slog latency events uniques 0 deterministic).

(** Calls of the methods of a sketch. *)
Definition on_latency {A} : M dds A → M slog A := zoom sl_latency set_latency.
Definition on_events {A} : M cms A → M slog A := zoom sl_events set_events.
Definition on_uniques {A} : M hll A → M slog A := zoom sl_uniques set_uniques.

Definition slog_add_latency (value : float) : M slog unit :=
  s <- mget ;;
  raise_if (isfinite value && (sl_total s =? MAX_UINT64))
    (OverflowError "StreamLog: total_events overflow") ;;;
  let count_before := dds_count (sl_latency s) in
  on_latency (dds_add value 1) ;;;
  s <- mget ;;
  if count_before <? dds_count (sl_latency s)
  then mmodify (set_total (sl_total s + 1))
  else mret ().

Definition slog_add_batch (values : list float) : M slog unit :=
  let valid_count := Z.of_nat (length (filter (λ v, isfinite v = true) values)) in
  s <- mget ;;
  raise_if (MAX_UINT64 - valid_count <? sl_total s)
    (OverflowError "StreamLog: total_events overflow") ;;;
  let count_before := dds_count (sl_latency s) in
  on_latency (dds_add_batch values) ;;;
  s <- mget ;;
  mmodify (set_total (sl_total s + (dds_count (sl_latency s) - count_before))).

Definition slog_percentile (s : slog) (q : float) : res float :=
  dds_quantile (sl_latency s) q.
Definition slog_p50 (s : slog) : res float := slog_percentile s 0.50%float.
Definition slog_p95 (s : slog) : res float := slog_percentile s 0.95%float.
Definition slog_p99 (s : slog) : res float := slog_percentile s 0.99%float.
Definition slog_p999 (s : slog) : res float := slog_percentile s 0.999%float.

Definition slog_count_greater_than (s : slog) (threshold : float) : res Z :=
  dds_count_greater_than (sl_latency s) threshold.

(** [isinstance(name, int) and not (0 <= name <= 0xFFFFFFFFFFFFFFFF)] *)
Definition key_out_of_range (name : event_key) : bool :=
  match name with
  | KInt z => negb ((0 <=? z) && (z <=? MAX_UINT64))
  | _ => false
  end.

Definition slog_add_event (name : event_key) (count : Z) : M slog unit :=
  raise_if (count <=? 0) (ValueError "Event count must be strictly positive") ;;;
  raise_if (MAX_INT64 <? count)
    (OverflowError "Event count exceeds int64 capacity") ;;;
  raise_if (key_out_of_range name)
    (ValueError "Event integer key out of range for 64-bit unsigned") ;;;
  s <- mget ;;
  raise_if (MAX_UINT64 - count <? sl_total s)
    (OverflowError "StreamLog: total_events overflow") ;;;
  on_events (cms_add name count) ;;;
  mmodify (λ s, set_total (sl_total s + count) s).

Definition slog_event_count (s : slog) (name : event_key) : res Z :=
  cms_estimate (sl_events s) name.

Definition slog_add_unique (item : event_key) : M slog unit :=
  raise_if (key_out_of_range item)
    (ValueError "Unique integer out of range for 64-bit unsigned") ;;;
  on_uniques (hll_add item).

Definition slog_unique_count (s : slog) : res Z :=
  let? est := hll_estimate (sl_uniques s) in
  let? n := py_int (est + 0.5)%float in
  Ok (Z.max 0 n).

Definition slog_memory_bytes (s : slog) : Z :=
  dds_memory_bytes (sl_latency s) + cms_memory_bytes (sl_events s)
  + hll_memory_bytes (sl_uniques s).

Definition slog_reset : M slog unit :=
  on_latency dds_reset ;;; on_events cms_reset ;;; on_uniques hll_reset ;;;
  mmodify (set_total 0).

(** ** Merge *)

(** Bucket-wise addition of two stores, each with its overflow check. *)
Definition merge_bins (a b : gmap Z Z) (too_many : string) : res (gmap Z Z) :=
  let? d := res_fold (λ d p,
    if MAX_INT64 - p.2 <? get0 d p.1
    then Raise (OverflowError "DDSketch: bin count overflow")
    else Ok (bump p.1 p.2 d)) (map_to_list b) a in
  if MAX_BINS <? dict_len d then Raise (ValueError too_many) else Ok d.

Definition merge_commit (s other : slog) (positive negative : gmap Z Z)
    (table : list (list Z)) : slog :=
  let a := sl_latency s in let b := sl_latency other in
  mk_slog
    (mk_dds (dds_alpha a) (dds_gamma a) (dds_log_gamma a) (dds_multiplier a)
       positive negative (dds_zero_count a + dds_zero_count b)
       (dds_count a + dds_count b)
       (if 0 <? dds_count b then fmin (dds_min a) (dds_min b) else dds_min a)
       (if 0 <? dds_count b then fmax (dds_max a) (dds_max b) else dds_max a))
    (set_cms_total (cms_total (sl_events s) + cms_total (sl_events other))
       (set_cms_table table (sl_events s)))
    (set_registers (merge_registers (hll_registers (sl_uniques s))
       (hll_registers (sl_uniques other))) (sl_uniques s))
    (sl_total s + sl_total other)
    (sl_deterministic s).

Definition slog_merge (other : slog) : M slog unit :=
  s <- mget ;;
  raise_if (negb (feq (dds_alpha (sl_latency s)) (dds_alpha (sl_latency other))))
    (ValueError "Cannot merge: DDSketch alpha mismatch") ;;;
  raise_if (negb (hll_p (sl_uniques s) =? hll_p (sl_uniques other)))
    (ValueError "Cannot merge: HLL precision mismatch") ;;;
  raise_if (negb (cms_width (sl_events s) =? cms_width (sl_events other)) ||
            negb (cms_depth (sl_events s) =? cms_depth (sl_events other)))
    (ValueError "Cannot merge: CMS dimensions mismatch") ;;;
  raise_if (MAX_UINT64 - sl_total other <? sl_total s)
    (OverflowError "StreamLog: total_events overflow") ;;;
  raise_if (MAX_UINT64 - dds_count (sl_latency other) <? dds_count (sl_latency s))
    (OverflowError "DDSketch: total count overflow") ;;;
  raise_if (MAX_INT64 - dds_zero_count (sl_latency other)
            <? dds_zero_count (sl_latency s))
    (OverflowError "DDSketch: zero count overflow") ;;;
  raise_if (MAX_INT64 - cms_total (sl_events other) <? cms_total (sl_events s))
    (OverflowError "CountMinSketch: total_count overflow") ;;;
  positive <- mlift (merge_bins (dds_positive (sl_latency s))
    (dds_positive (sl_latency other))
    "DDSketch occupied positive bucket count exceeds bounded capacity") ;;
  negative <- mlift (merge_bins (dds_negative (sl_latency s))
    (dds_negative (sl_latency other))
    "DDSketch occupied negative bucket count exceeds bounded capacity") ;;
  table <- mlift (cms_merge_tables (cms_table (sl_events s))
    (cms_table (sl_events other))) ;;
  mmodify (λ s, merge_commit s other positive negative table).

(** ** The aggregate invariant *)

Record slog_wf (s : slog) : Prop := {
  swf_latency : dds_wf (sl_latency s);
  swf_events : cms_wf (sl_events s);
  swf_uniques : hll_wf (sl_uniques s);
  swf_total : sl_total s = dds_count (sl_latency s) + cms_total (sl_events s);
  swf_total_max : sl_total s ≤ MAX_UINT64
}.

(** The ingestion methods, as calls. *)
Inductive slog_call :=
| SLatency (value : float)
| SBatch (values : list float)
| SEvent (name : event_key) (count : Z)
| SUnique (item : event_key).

Definition slog_do (c : slog_call) : M slog unit :=
  match c with
  | SLatency v => slog_add_latency v
  | SBatch vs => slog_add_batch vs
  | SEvent name n => slog_add_event name n
  | SUnique item => slog_add_unique item
  end.

Definition slog_run (cs : list slog_call) : M slog unit := mfor cs slog_do.

(** What a call contributes to each sketch. *)
Definition call_items (c : slog_call) : list (float * Z) :=
  match c with
  | SLatency v => kept (ones [v])
  | SBatch vs => kept (ones vs)
  | _ => []
  end.
Definition call_ops (c : slog_call) : list (Z * Z) :=
  match c with SEvent name n => [(cms_key name, n)] | _ => [] end.
Definition call_hashes (c : slog_call) : list Z :=
  match c with
  | SUnique item => match hll_hash item with Ok h => [h] | Raise _ => [] end
  | _ => []
  end.

(** The state of a log is a function of the calls it accepted. *)
Record slog_denotes (s0 s : slog) (cs : list slog_call) : Prop := {
  sd_latency : sl_latency s = puts (sl_latency s0) (flat_map call_items cs);
  sd_accepts : ∀ x, x ∈ flat_map call_items cs →
    dds_accepts (sl_latency s0) x.1;
  sd_events : cms_denotes (sl_events s) (flat_map call_ops cs);
  sd_dims : cms_width (sl_events s) = cms_width (sl_events s0) ∧
            cms_depth (sl_events s) = cms_depth (sl_events s0);
  sd_uniques : hll_denotes (sl_uniques s) (flat_map call_hashes cs);
  sd_precision : hll_p (sl_uniques s) = hll_p (sl_uniques s0);
  sd_det : sl_deterministic s = sl_deterministic s0;
  sd_wf : slog_wf s
}.

Lemma slog_init_denotes a p w d det s :
  slog_init a p w d det = Ok s → slog_denotes s s [].
Proof.
  unfold slog_init. destruct (_ || _); [done|]. destruct (_ <? w); [done|].
  destruct (dds_init a) as [l|] eqn:El; [|done].
  destruct (cms_init w d) as [e|] eqn:Ee; [|done].
  destruct (hll_init p) as [u|] eqn:Eu; [|done]. simpl. intros [= <-].
  apply dds_init_empty in El. apply cms_init_denotes in Ee.
  apply hll_init_denotes in Eu. split; try done; simpl.
  - by intros x ?%elem_of_nil.
  - split; simpl; [by apply dds_empty_wf|apply Ee|apply Eu| |done].
    destruct El as (_&_&_&->&_). by rewrite (den_total _ _ Ee).
Qed.

(** *** The runs of the methods *)

Lemma zoom_run {S T A} (get : S → T) (set : T → S → S) (m : M T A) s :
  zoom get set m s = (fst (m (get s)), set (snd (m (get s))) s).
Proof. unfold zoom. by destruct (m (get s)). Qed.

Lemma weight_all_kept vs :
  weight (λ _, true) (kept (ones vs)) = Z.of_nat (length (kept (ones vs))).
Proof.
  assert (∀ x, x ∈ kept (ones vs) → x.2 = 1) as H1.
  { intros x [_ Hx]%list_elem_of_filter. apply list_elem_of_fmap in Hx as (v & -> & _).
    done. }
  induction (kept (ones vs)) as [|x xs IH]; [done|].
  unfold weight in *. rewrite sum_by_cons, IH, (H1 x) by (set_solver). simpl. lia.
Qed.

(** Both latency methods: the sketch absorbs the finite values, the total
    follows its count. *)
Definition latency_added (vs : list float) (s : slog) : slog :=
  set_total (sl_total s + Z.of_nat (length (kept (ones vs))))
    (set_latency (puts (sl_latency s) (kept (ones vs))) s).

Definition latency_ok (vs : list float) (s : slog) : Prop :=
  sl_total s + Z.of_nat (length (kept (ones vs))) ≤ MAX_UINT64 ∧
  (∀ x, x ∈ kept (ones vs) → dds_accepts (sl_latency s) x.1) ∧
  dds_fits (puts (sl_latency s) (kept (ones vs))).

Lemma kept_length vs :
  length (kept (ones vs)) = length (filter (λ v, isfinite v = true) vs).
Proof.
  induction vs as [|v vs IH]; [done|]. simpl ones. unfold kept.
  rewrite !filter_cons. fold (kept (ones vs)). unfold counted. cbn [fst snd].
  destruct (isfinite v).
  - rewrite !decide_True by done. simpl. by rewrite IH.
  - rewrite !decide_False by done. done.
Qed.

Lemma puts_count s xs :
  dds_count (puts s xs) = dds_count s + weight (λ _, true) xs.
Proof. apply puts_counts. Qed.

Lemma slog_add_batch_run vs s :
  slog_wf s →
  latency_ok vs s ∧ slog_add_batch vs s = (Ok tt, latency_added vs s) ∨
  ¬ latency_ok vs s ∧ ∃ e, slog_add_batch vs s = (Raise e, s).
Proof.
  intros W. destruct (swf_latency s W) as (Hn & Hf & _).
  unfold latency_ok, slog_add_batch. rewrite <- kept_length.
  set (n := Z.of_nat (length (kept (ones vs)))).
  unfold mbind, mget. rewrite raise_if_run.
  destruct (Z.ltb_spec (MAX_UINT64 - n) (sl_total s)); [right; split; [lia|eauto]|].
  unfold on_latency. rewrite zoom_run.
  pose proof (dds_add_batch_iff vs (sl_latency s)) as Hiff.
  destruct (dds_add_batch vs (sl_latency s)) as [[[]|e] l] eqn:E; simpl.
  - left. apply (Hiff l) in Hn as Hx; [|done].
    destruct (proj1 Hx eq_refl) as (H1 & H2 & ->).
    split; [split; [lia|done]|]. unfold mmodify, latency_added. simpl.
    do 3 f_equal. rewrite puts_count, weight_all_kept. unfold set_latency. simpl.
    fold n. lia.
  - right. apply dds_add_batch_atomic in E as El. subst l. split.
    + intros (_ & H1 & H2).
      by pose proof (proj2 (Hiff _ Hn Hf) (conj H1 (conj H2 eq_refl))).
    + exists e. by destruct s.
Qed.

(** [add_latency] is [add_batch] of one value. *)
Lemma slog_add_latency_run v s :
  slog_wf s →
  latency_ok [v] s ∧ slog_add_latency v s = (Ok tt, latency_added [v] s) ∨
  ¬ latency_ok [v] s ∧ ∃ e, slog_add_latency v s = (Raise e, s).
Proof.
  intros W. destruct (swf_latency s W) as (Hn & Hf & _).
  pose proof (swf_total_max s W) as Ht.
  unfold slog_add_latency, latency_ok, latency_added.
  unfold mbind, mget. rewrite raise_if_run. unfold on_latency.
  pose proof (dds_adds_iff (ones [v]) (sl_latency s)) as Hiff.
  unfold dds_adds in Hiff. simpl ones in Hiff. simpl mfor in Hiff.
  unfold mbind, mret in Hiff. simpl fst in Hiff. simpl snd in Hiff.
  destruct (dds_add_run v 1 (sl_latency s)) as [e0 He0].
  simpl ones. unfold kept in *. rewrite filter_cons, filter_nil in *.
  assert (isfinite v = counted (v, 1)) as -> by (unfold counted; simpl; by rewrite andb_true_r).
  destruct (counted (v, 1)) eqn:Hc.
  - rewrite decide_True in * by done. simpl length. simpl andb.
    destruct (Z.eqb_spec (sl_total s) MAX_UINT64); [right; split; [lia|eauto]|].
    rewrite zoom_run, He0. rewrite He0 in Hiff.
    destruct (dds_admits (sl_latency s) (v, 1)).
    + left. destruct (proj1 (Hiff _ Hn Hf) eq_refl) as (H1 & H2 & H3).
      split; [split; [lia|done]|]. simpl. rewrite H3, puts_count.
      assert (weight (λ _, true) [(v, 1)] = 1) as -> by done.
      rewrite (proj2 (Z.ltb_lt _ _)) by lia. done.
    + right. split; [|exists e0; by destruct s].
      intros (_ & H1 & H2).
      by pose proof (proj2 (Hiff _ Hn Hf) (conj H1 (conj H2 eq_refl))).
  - rewrite decide_False in * by done. left. cbn [andb]. cbv iota beta.
    rewrite zoom_run, He0. simpl.
    rewrite Z.ltb_irrefl, Z.add_0_r. split; [|by destruct s].
    split_and!; [lia|by intros x ?%elem_of_nil|done].
Qed.

Definition event_ok (name : event_key) (n : Z) (s : slog) : Prop :=
  0 < n ∧ n ≤ MAX_INT64 ∧ key_out_of_range name = false ∧
  sl_total s + n ≤ MAX_UINT64 ∧ cms_total (sl_events s) + n ≤ MAX_INT64.

Definition event_added (name : event_key) (n : Z) (s : slog) : slog :=
  set_total (sl_total s + n) (set_events (cms_added (sl_events s) (cms_key name) n) s).

Lemma slog_add_event_run name n s :
  slog_wf s →
  event_ok name n s ∧ slog_add_event name n s = (Ok tt, event_added name n s) ∨
  ¬ event_ok name n s ∧ ∃ e, slog_add_event name n s = (Raise e, s).
Proof.
  intros W. unfold slog_add_event, event_ok, event_added.
  unfold mbind, mget. rewrite raise_if_run.
  destruct (Z.leb_spec n 0); [right; split; [lia|eauto]|].
  rewrite raise_if_run.
  destruct (Z.ltb_spec MAX_INT64 n); [right; split; [lia|eauto]|].
  rewrite raise_if_run.
  destruct (key_out_of_range name); [right; split; [naive_solver|eauto]|].
  rewrite raise_if_run.
  destruct (Z.ltb_spec (MAX_UINT64 - n) (sl_total s)); [right; split; [lia|eauto]|].
  unfold on_events. rewrite zoom_run, (cms_add_run _ (swf_events s W)).
  rewrite (proj2 (Z.leb_gt n 0)) by lia.
  rewrite (proj2 (Z.ltb_ge MAX_INT64 n)) by lia.
  destruct (Z.ltb_spec (MAX_INT64 - n) (cms_total (sl_events s))); simpl.
  - right. split; [lia|]. eexists. by destruct s.
  - left. split; [split_and!; done || lia|done].
Qed.

Definition unique_added (x : Z) (s : slog) : slog :=
  set_uniques (set_registers
    (regs_added (hll_p (sl_uniques s)) x (hll_registers (sl_uniques s)))
    (sl_uniques s)) s.

Lemma slog_add_unique_run item s :
  slog_wf s →
  (∃ x, hll_hash item = Ok x ∧ slog_add_unique item s = (Ok tt, unique_added x s)) ∨
  (∃ e e', hll_hash item = Raise e ∧ slog_add_unique item s = (Raise e', s)).
Proof.
  intros W. unfold slog_add_unique, mbind. rewrite raise_if_run.
  unfold on_uniques. pose proof (hll_add_run item _ (swf_uniques s W)) as Hr.
  unfold key_out_of_range. destruct item as [k|b|z].
  - rewrite zoom_run, Hr. left. eauto.
  - rewrite zoom_run, Hr. left. eauto.
  - revert Hr. unfold hll_hash. rewrite negb_andb, <- !Z.ltb_antisym.
    destruct (_ || _); intros Hr; [right; eauto|].
    rewrite zoom_run, Hr. left. eauto.
Qed.

(** *** The invariant and the denotation are preserved *)

Lemma latency_added_wf vs s : slog_wf s → latency_ok vs s → slog_wf (latency_added vs s).
Proof.
  intros W (H1 & H2 & H3). split; simpl; try apply W.
  - apply puts_wf; [|done|apply W]. intros x Hx.
    destruct (kept_good _ _ Hx). split_and!; try done. by apply H2.
  - rewrite puts_count, weight_all_kept, (swf_total s W). lia.
  - done.
Qed.

Lemma event_added_wf name n s : slog_wf s → event_ok name n s → slog_wf (event_added name n s).
Proof.
  intros W (H1 & H2 & H3 & H4 & H5). split; simpl; try apply W.
  - apply cms_added_wf; [apply W|done|lia].
  - rewrite (swf_total s W). lia.
  - done.
Qed.

Lemma unique_added_wf x s : slog_wf s → slog_wf (unique_added x s).
Proof.
  intros W. pose proof (hwf_p _ (swf_uniques s W)).
  split; simpl; try apply W. split; simpl.
  - apply W.
  - unfold regs_added. rewrite length_alter. apply W.
  - apply regs_added_wf; [lia|apply W].
Qed.

(** Every call either keeps the state and raises, or has its effect. *)
Lemma slog_do_wf c s : slog_wf s → slog_wf (snd (slog_do c s)) ∧
  ∀ e, fst (slog_do c s) = Raise e → snd (slog_do c s) = s.
Proof.
  intros W. destruct c as [v|vs|name n|item]; simpl.
  - destruct (slog_add_latency_run v s W) as [[? ->]|[_ [e ->]]]; simpl; [|done].
    split; [by apply latency_added_wf|done].
  - destruct (slog_add_batch_run vs s W) as [[? ->]|[_ [e ->]]]; simpl; [|done].
    split; [by apply latency_added_wf|done].
  - destruct (slog_add_event_run name n s W) as [[? ->]|[_ [e ->]]]; simpl; [|done].
    split; [by apply event_added_wf|done].
  - destruct (slog_add_unique_run item s W) as [(x & _ & ->)|(e & e' & _ & ->)];
      simpl; [|done]. split; [by apply unique_added_wf|done].
Qed.

Lemma latency_added_denotes c vs s0 s cs :
  call_items c = kept (ones vs) → call_ops c = [] → call_hashes c = [] →
  slog_denotes s0 s cs → latency_ok vs s →
  slog_denotes s0 (latency_added vs s) (cs ++ [c]).
Proof.
  intros Ei Eo Eh D Hok. pose proof (latency_added_wf vs s (sd_wf _ _ _ D) Hok) as W'.
  destruct Hok as (H1 & H2 & H3).
  split; try done; rewrite ?flat_map_app; simpl; rewrite ?Ei, ?Eo, ?Eh, ?app_nil_r;
    try apply D.
  - unfold puts. by rewrite foldl_app, (sd_latency _ _ _ D).
  - intros x [Hx|Hx]%elem_of_app; [by apply (sd_accepts _ _ _ D)|].
    eapply accepts_params; [|by apply H2]. rewrite (sd_latency _ _ _ D).
    symmetry. apply puts_params.
Qed.

Lemma event_added_denotes name n s0 s cs :
  slog_denotes s0 s cs → event_ok name n s →
  slog_denotes s0 (event_added name n s) (cs ++ [SEvent name n]).
Proof.
  intros D Hok. pose proof (event_added_wf name n s (sd_wf _ _ _ D) Hok) as W'.
  destruct Hok as (H1 & H2 & H3 & H4 & H5).
  split; try done; rewrite ?flat_map_app; simpl; rewrite ?app_nil_r; try apply D.
  apply cms_added_denotes; [done|lia|apply D].
Qed.

Lemma unique_added_denotes item x s0 s cs :
  slog_denotes s0 s cs → hll_hash item = Ok x →
  slog_denotes s0 (unique_added x s) (cs ++ [SUnique item]).
Proof.
  intros D Hx. pose proof (unique_added_wf x s (sd_wf _ _ _ D)) as W'.
  split; try done; rewrite ?flat_map_app; simpl; rewrite ?Hx, ?app_nil_r; try apply D.
  apply hll_added_denotes; [apply D|]. by eapply hll_hash_u64.
Qed.

Lemma slog_do_denotes c s0 s cs s' :
  slog_denotes s0 s cs → slog_do c s = (Ok tt, s') → slog_denotes s0 s' (cs ++ [c]).
Proof.
  intros D. pose proof (sd_wf _ _ _ D) as W. destruct c as [v|vs|name n|item]; simpl.
  - destruct (slog_add_latency_run v s W) as [[? ->]|[_ [e ->]]]; intros [=]; subst.
    by apply latency_added_denotes.
  - destruct (slog_add_batch_run vs s W) as [[? ->]|[_ [e ->]]]; intros [=]; subst.
    by apply latency_added_denotes.
  - destruct (slog_add_event_run name n s W) as [[? ->]|[_ [e ->]]]; intros [=]; subst.
    by apply event_added_denotes.
  - destruct (slog_add_unique_run item s W) as [(x & Hx & ->)|(e & e' & _ & ->)];
      intros [=]; subst. by apply unique_added_denotes.
Qed.

Lemma slog_run_denotes cs s0 s cs0 s' :
  slog_denotes s0 s cs0 → slog_run cs s = (Ok tt, s') →
  slog_denotes s0 s' (cs0 ++ cs).
Proof.
  revert s cs0. induction cs as [|c cs IH]; intros s cs0 D Hr.
  { injection Hr as <-. by rewrite app_nil_r. }
  apply mbind_ok in Hr as ([] & s1 & H1 & H2).
  rewrite cons_middle, app_assoc. eapply IH; [|exact H2].
  by eapply slog_do_denotes.
Qed.

(** A log is determined by the configuration and the accepted calls. *)
Lemma slog_denotes_eq s0 s s' cs :
  slog_denotes s0 s cs → slog_denotes s0 s' cs → s = s'.
Proof.
  intros D D'.
  assert (sl_latency s = sl_latency s') as El
    by by rewrite (sd_latency _ _ _ D), (sd_latency _ _ _ D').
  assert (sl_events s = sl_events s') as Ee.
  { destruct (sd_dims _ _ _ D), (sd_dims _ _ _ D').
    eapply cms_denotes_eq; [apply D|apply D'|congruence|congruence]. }
  assert (sl_uniques s = sl_uniques s') as Eu.
  { eapply hll_denotes_eq; [apply D|apply D'| |done].
    by rewrite (sd_precision _ _ _ D), (sd_precision _ _ _ D'). }
  assert (sl_total s = sl_total s') as Et
    by by rewrite (swf_total _ (sd_wf _ _ _ D)), (swf_total _ (sd_wf _ _ _ D')), El, Ee.
  pose proof (sd_det _ _ _ D). pose proof (sd_det _ _ _ D').
  destruct s, s'; simpl in *; congruence.
Qed.

(** ** Merging *)

Lemma merge_fold_spec l d :
  NoDup l.*1 →
  res_fold (λ d p, if MAX_INT64 - p.2 <? get0 d p.1
    then Raise (OverflowError "DDSketch: bin count overflow")
    else Ok (bump p.1 p.2 d)) l d =
  if existsb (λ p, MAX_INT64 - p.2 <? get0 d p.1) l
  then Raise (OverflowError "DDSketch: bin count overflow")
  else Ok (foldl (λ d p, bump p.1 p.2 d) d l).
Proof.
  revert d. induction l as [|[k n] l IH]; intros d Hnd; [done|].
  simpl in *. apply NoDup_cons in Hnd as [Hk Hnd].
  destruct (MAX_INT64 - n <? get0 d k); [done|]. simpl.
  rewrite IH by done.
  assert (existsb (λ p, MAX_INT64 - p.2 <? get0 (bump k n d) p.1) l =
    existsb (λ p, MAX_INT64 - p.2 <? get0 d p.1) l) as ->; [|done].
  clear IH Hnd. induction l as [|[j m] l IH]; [done|]. simpl in *.
  apply not_elem_of_cons in Hk as [Hne Hk].
  rewrite get0_bump, decide_False, Z.add_0_r by done. by rewrite IH.
Qed.

Lemma merge_bins_spec a b msg :
  (∀ k, get0 a k ≤ MAX_INT64) →
  store_fits (bump_all a b) ∧ merge_bins a b msg = Ok (bump_all a b) ∨
  ¬ store_fits (bump_all a b) ∧ ∃ e, merge_bins a b msg = Raise e.
Proof.
  intros Ha. pose proof (bins_overflow_spec a b Ha) as Hov.
  unfold merge_bins. rewrite merge_fold_spec by apply NoDup_fst_map_to_list.
  fold (bins_overflow a b). fold (bump_all a b).
  destruct (bins_overflow a b); simpl.
  - right. split; [|eauto]. intros [_ Hb]. by apply Hov in Hb.
  - destruct (Z.ltb_spec MAX_BINS (dict_len (bump_all a b))).
    + right. split; [|eauto]. intros [Hl _]. lia.
    + left. split; [|done]. split; [done|]. by apply Hov.
Qed.

(** The latency sketch after a merge. *)
Definition dds_merged (a b : dds) : dds :=
  mk_dds (dds_alpha a) (dds_gamma a) (dds_log_gamma a) (dds_multiplier a)
    (bump_all (dds_positive a) (dds_positive b))
    (bump_all (dds_negative a) (dds_negative b))
    (dds_zero_count a + dds_zero_count b) (dds_count a + dds_count b)
    (if 0 <? dds_count b then fmin (dds_min a) (dds_min b) else dds_min a)
    (if 0 <? dds_count b then fmax (dds_max a) (dds_max b) else dds_max a).

Definition slog_merged (s other : slog) : slog :=
  mk_slog (dds_merged (sl_latency s) (sl_latency other))
    (cms_merged (sl_events s) (sl_events other))
    (hll_merged (sl_uniques s) (sl_uniques other))
    (sl_total s + sl_total other) (sl_deterministic s).

Definition merge_ok (s other : slog) : Prop :=
  feq (dds_alpha (sl_latency s)) (dds_alpha (sl_latency other)) = true ∧
  hll_p (sl_uniques s) = hll_p (sl_uniques other) ∧
  cms_width (sl_events s) = cms_width (sl_events other) ∧
  cms_depth (sl_events s) = cms_depth (sl_events other) ∧
  sl_total s + sl_total other ≤ MAX_UINT64 ∧
  cms_total (sl_events s) + cms_total (sl_events other) ≤ MAX_INT64 ∧
  dds_fits (dds_merged (sl_latency s) (sl_latency other)).

(** [merge] either has its whole effect or raises with nothing changed. *)
Lemma slog_merge_run s other :
  slog_wf s → slog_wf other →
  merge_ok s other ∧ slog_merge other s = (Ok tt, slog_merged s other) ∨
  ¬ merge_ok s other ∧ ∃ e, slog_merge other s = (Raise e, s).
Proof.
  intros W W'. destruct (swf_latency s W) as (_ & ((_&Hp)&(_&Hn)&_) & _).
  unfold merge_ok, slog_merge. unfold mbind, mget. rewrite raise_if_run.
  destruct (feq _ _); [|right; split; [naive_solver|eauto]]. cbn [negb].
  rewrite raise_if_run.
  destruct (Z.eqb_spec (hll_p (sl_uniques s)) (hll_p (sl_uniques other)));
    [|right; split; [naive_solver|eauto]]. cbn [negb].
  rewrite raise_if_run.
  destruct (Z.eqb_spec (cms_width (sl_events s)) (cms_width (sl_events other))) as [Ew|];
    [|right; split; [naive_solver|eauto]]. cbn [negb orb].
  destruct (Z.eqb_spec (cms_depth (sl_events s)) (cms_depth (sl_events other)));
    [|right; split; [naive_solver|eauto]]. cbn [negb].
  rewrite raise_if_run.
  destruct (Z.ltb_spec (MAX_UINT64 - sl_total other) (sl_total s));
    [right; split; [lia|eauto]|].
  rewrite raise_if_run. 
  destruct (Z.ltb_spec (MAX_UINT64 - dds_count (sl_latency other)) (dds_count (sl_latency s)));
    [right; split; [intros (_&_&_&_&_&_&(_&_&_&Hf)); simpl in Hf; lia|eauto]|].
  rewrite raise_if_run.
  destruct (Z.ltb_spec (MAX_INT64 - dds_zero_count (sl_latency other))
    (dds_zero_count (sl_latency s)));
    [right; split; [intros (_&_&_&_&_&_&(_&_&Hf&_)); simpl in Hf; lia|eauto]|].
  rewrite raise_if_run.
  destruct (Z.ltb_spec (MAX_INT64 - cms_total (sl_events other)) (cms_total (sl_events s)));
    [right; split; [lia|eauto]|].
  unfold mlift.
  edestruct (merge_bins_spec (dds_positive (sl_latency s))
    (dds_positive (sl_latency other))) as [[Fp ->]|[Fp [e1 ->]]]; [done| |
    right; split; [intros (_&_&_&_&_&_&(Hf&_)); by apply Fp|eauto]].
  edestruct (merge_bins_spec (dds_negative (sl_latency s))
    (dds_negative (sl_latency other))) as [[Fn ->]|[Fn [e2 ->]]]; [done| |
    right; split; [intros (_&_&_&_&_&_&(_&Hf&_)); by apply Fn|eauto]].
  rewrite cms_merge_tables_ok by (apply W || apply W' || done || lia).
  left. split; [|done]. split_and!; try done; try lia.
  split_and!; try done; simpl; lia.
Qed.

Lemma puts_num s0 xs :
  dds_empty s0 → good_items xs →
  num (dds_min (puts s0 xs)) ∧ num (dds_max (puts s0 xs)).
Proof. intros He Hg. by destruct (puts_min_max s0 xs He Hg) as (_&?&?&_). Qed.

Definition extrema_ok (b : dds) : Prop :=
  num (dds_min b) ∧ num (dds_max b) ∧ 0 ≤ dds_count b ∧
  (dds_count b = 0 → dds_min b = infinity ∧ dds_max b = neg_infinity).

Lemma puts_extrema s0 ys : dds_empty s0 → good_items ys → extrema_ok (puts s0 ys).
Proof.
  intros He Hg. destruct (puts_num s0 ys He Hg) as [Nm Nx].
  destruct (puts_counters s0 ys He) as (_&_&_&Ec). split_and!; try done.
  - rewrite Ec. by apply weight_nonneg.
  - rewrite Ec. intros E0. destruct ys as [|z ys]; [by destruct He as (_&_&_&_&?&?)|].
    exfalso. unfold weight in E0. rewrite sum_by_cons in E0.
    destruct (Hg z) as [_ Hz]; [by left|].
    assert (0 ≤ weight (λ _, true) ys); [|unfold weight in *; lia].
    apply weight_nonneg. intros x Hx. apply Hg. by right.
Qed.

(** The extrema of an empty sketch are neutral, so the test on its count does
    not matter. *)
Lemma dds_merged_extrema a b :
  num (dds_min a) → num (dds_max a) → extrema_ok b →
  dds_min (dds_merged a b) = fmin (dds_min a) (dds_min b) ∧
  dds_max (dds_merged a b) = fmax (dds_max a) (dds_max b).
Proof.
  intros Nm Nx (Nm' & Nx' & Hc & He). simpl.
  destruct (Z.ltb_spec 0 (dds_count b)); [done|].
  destruct He as [-> ->]; [lia|]. unfold fmin, fmax.
  assert (flt infinity (dds_min a) = false) as ->.
  { apply not_flt; [done..|]. apply fle_val; [done..|]. apply fval_bounds. }
  assert (flt (dds_max a) neg_infinity = false) as ->; [|done].
  apply not_flt; [done..|]. apply fle_val; [done..|]. apply fval_bounds.
Qed.

Lemma dds_eq (a b : dds) :
  same_params a b → dds_positive a = dds_positive b →
  dds_negative a = dds_negative b → dds_zero_count a = dds_zero_count b →
  dds_count a = dds_count b → dds_min a = dds_min b → dds_max a = dds_max b →
  a = b.
Proof.
  destruct a, b. unfold same_params. simpl. intros (?&?&?&?) ??????. congruence.
Qed.

Lemma dds_merged_put a b y :
  same_params a b → num (dds_min a) → num (dds_max a) → extrema_ok b →
  isfinite y.1 = true → 0 < y.2 → is_ok (dds_bucket b y.1) = true →
  dds_merged a (dds_put b y) = dds_put (dds_merged a b) y.
Proof.
  intros Hp Nm Nx Hb Fy Py Hok. pose proof (isfinite_num _ Fy) as Ny.
  destruct (dds_merged_extrema a b Nm Nx Hb) as [Em Ex].
  destruct Hb as (Nm' & Nx' & Hc & _).
  destruct (put_min_max b y) as [Ebm Ebx].
  assert (extrema_ok (dds_put b y)) as Hb'.
  { unfold extrema_ok. rewrite Ebm, Ebx.
    assert (dds_count (dds_put b y) = dds_count b + y.2) as ->.
    { unfold dds_put. by destruct (dds_bucket _ _) as [[]|]. }
    split_and!; [by destruct (flt y.1 _)|by destruct (flt _ y.1)|lia|lia]. }
  destruct (dds_merged_extrema a _ Nm Nx Hb') as [Em' Ex'].
  destruct (put_min_max (dds_merged a b) y) as [Pm Px].
  pose proof (min_through (dds_min a) (dds_min b) y.1 Nm Nm' Ny) as Tm.
  pose proof (max_through (dds_max a) (dds_max b) y.1 Nx Nx' Ny) as Tx.
  assert (dds_bucket (dds_tally y.1 y.2 (dds_merged a b)) y.1 = dds_bucket b y.1) as E1
    by (apply bucket_params; by transitivity a).
  assert (dds_bucket (dds_tally y.1 y.2 b) y.1 = dds_bucket b y.1) as E2
    by by apply bucket_params.
  apply dds_eq.
  1: { transitivity a; [done|]. transitivity (dds_merged a b); [done|].
       symmetry. apply put_params. }
  5: { rewrite Em', Pm, Em, Ebm. unfold fmin. exact Tm. }
  5: { rewrite Ex', Px, Ex, Ebx. unfold fmax. exact Tx. }
  all: unfold dds_put; rewrite E1, E2;
    destruct (dds_bucket b y.1) as [[k| |k]|]; try done; simpl;
    rewrite ?bump_all_bump; try done; lia.
Qed.

(** Merging with a sketch filled by [ys] is adding [ys]. *)
Lemma dds_merged_puts a s0 ys :
  same_params a s0 → dds_empty s0 → num (dds_min a) → num (dds_max a) →
  good_items ys → (∀ y, y ∈ ys → dds_accepts s0 y.1) →
  dds_merged a (puts s0 ys) = puts a ys.
Proof.
  intros Hp He Nm Nx. induction ys as [|y ys IH] using rev_ind; intros Hg Ha.
  { destruct He as (E1&E2&E3&E4&E5&E6). simpl. unfold dds_merged.
    rewrite E1, E2, E3, E4, !bump_all_empty, !Z.add_0_r. simpl. by destruct a. }
  assert (good_items ys) as Hg' by (intros x Hx; apply Hg, elem_of_app; by left).
  destruct (Hg y) as [Fy Py]; [apply elem_of_app; right; by left|].
  rewrite !puts_snoc, <- IH; [|done|intros x Hx; apply Ha, elem_of_app; by left].
  apply dds_merged_put; try done.
  - transitivity s0; [done|]. symmetry. apply puts_params.
  - by apply puts_extrema.
  - rewrite puts_bucket. specialize (Ha y ltac:(apply elem_of_app; right; by left)).
    unfold dds_accepts in Ha. by destruct (dds_bucket s0 y.1).
Qed.

Lemma dict_sum_bump_all a b : dict_sum (bump_all a b) = dict_sum a + dict_sum b.
Proof.
  unfold bump_all, dict_sum at 3.
  induction (map_to_list b) as [|[k n] l IH] in a |- *; cbn [foldl];
    [by rewrite Z.add_0_r|].
  rewrite IH, dict_sum_bump, fmap_cons. unfold sum_Z. simpl. lia.
Qed.

Lemma get0_bump_all a b k : get0 (bump_all a b) k = get0 a k + get0 b k.
Proof.
  unfold get0. rewrite bump_all_lookup. fold (get0 a k).
  destruct (b !! k); simpl; [done|]. unfold get0. lia.
Qed.

Lemma dds_merged_wf a b :
  dds_wf a → dds_wf b → dds_fits (dds_merged a b) → dds_wf (dds_merged a b).
Proof.
  intros ((N1&N2&N3&N4&N5) & _ & Ea) ((M1&M2&M3&M4&M5) & _ & Eb) Hf.
  split; [|split; [done|]].
  - split_and!; simpl.
    + intros k. rewrite get0_bump_all. specialize (N1 k). specialize (M1 k). lia.
    + intros k. rewrite get0_bump_all. specialize (N2 k). specialize (M2 k). lia.
    + lia.
    + unfold fmin. destruct (0 <? _); [|done]. by destruct (flt _ _).
    + unfold fmax. destruct (0 <? _); [|done]. by destruct (flt _ _).
  - simpl. rewrite !dict_sum_bump_all. lia.
Qed.

Lemma hll_merged_wf a b : hll_wf a → hll_wf b → hll_p a = hll_p b → hll_wf (hll_merged a b).
Proof.
  intros Wa Wb Hp. unfold hll_merged, merge_registers. split; simpl.
  - apply Wa.
  - rewrite length_zip_with. pose proof (hwf_len a Wa). pose proof (hwf_len b Wb).
    rewrite <- Hp in *. lia.
  - apply Forall_lookup_2. intros j r. rewrite lookup_zip_with_Some.
    intros (x & y & -> & Hx & Hy).
    pose proof (Forall_lookup_1 _ _ _ _ (hwf_regs a Wa) Hx).
    pose proof (Forall_lookup_1 _ _ _ _ (hwf_regs b Wb) Hy).
    rewrite <- Hp in *. simpl in *. lia.
Qed.

Lemma slog_merged_wf s other :
  slog_wf s → slog_wf other → merge_ok s other → slog_wf (slog_merged s other).
Proof.
  intros W W' (_ & Hp & Hw & Hd & Ht & Hc & Hf). split; simpl.
  - apply dds_merged_wf; [apply W|apply W'|done].
  - apply cms_merged_wf; (apply W || apply W' || done).
  - apply hll_merged_wf; (apply W || apply W' || done).
  - rewrite (swf_total s W), (swf_total other W'). lia.
  - done.
Qed.

Lemma slog_merge_wf other : slog_wf other → preserves slog_wf (slog_merge other).
Proof.
  intros W' s W. destruct (slog_merge_run s other W W') as [[? ->]|[_ [e ->]]]; simpl;
    [by apply slog_merged_wf|done].
Qed.

Lemma slog_reset_wf : preserves slog_wf slog_reset.
Proof.
  intros s W. pose proof (hwf_p _ (swf_uniques s W)) as Hp.
  pose proof (swf_events s W) as We.
  split; simpl; try done.
  - split; simpl; try apply We; try done.
    + unfold zero_table. rewrite length_replicate. pose proof (wf_depth _ We). lia.
    + unfold zero_table. apply Forall_replicate. pose proof (wf_width _ We).
      split; [|split].
      * rewrite length_replicate. lia.
      * by apply Forall_replicate.
      * rewrite sum_Z_replicate. lia.
  - split; simpl; [done| |].
    + rewrite length_replicate, (hll_m_pow _ (swf_uniques s W)).
      pose proof (Z.pow_nonneg 2 (hll_p (sl_uniques s))). lia.
    + apply Forall_replicate. lia.
Qed.

Section homomorphism.
Context (s0 : slog) (He : dds_empty (sl_latency s0)).

Lemma sd_good s cs : slog_denotes s0 s cs → good_items (flat_map call_items cs).
Proof using Type.
  intros D x Hx. apply list_elem_of_In, in_flat_map in Hx as (c & _ & Hx).
  apply list_elem_of_In in Hx. destruct c as [v|vs| |]; simpl in Hx;
    try (by apply elem_of_nil in Hx); by eapply kept_good.
Qed.

Lemma merged_latency s1 s2 cs1 cs2 :
  slog_denotes s0 s1 cs1 → slog_denotes s0 s2 cs2 →
  dds_merged (sl_latency s1) (sl_latency s2) =
  puts (sl_latency s0) (flat_map call_items (cs1 ++ cs2)).
Proof using He.
  intros D1 D2. rewrite (sd_latency _ _ _ D2).
  rewrite (dds_merged_puts _ (sl_latency s0)).
  - rewrite (sd_latency _ _ _ D1), flat_map_app. unfold puts. by rewrite foldl_app.
  - rewrite (sd_latency _ _ _ D1). apply puts_params.
  - done.
  - rewrite (sd_latency _ _ _ D1). apply puts_num; [done|by eapply sd_good].
  - rewrite (sd_latency _ _ _ D1). apply puts_num; [done|by eapply sd_good].
  - by eapply sd_good.
  - by apply (sd_accepts _ _ _ D2).
Qed.

Lemma merged_denotes s1 s2 cs1 cs2 :
  slog_denotes s0 s1 cs1 → slog_denotes s0 s2 cs2 → merge_ok s1 s2 →
  slog_denotes s0 (slog_merged s1 s2) (cs1 ++ cs2).
Proof using He.
  intros D1 D2 Hok.
  pose proof (slog_merged_wf s1 s2 (sd_wf _ _ _ D1) (sd_wf _ _ _ D2) Hok) as W.
  destruct Hok as (_ & Hp & Hw & Hd & Ht & Hc & Hf).
  split; simpl; try (by apply D1); try done.
  - by apply merged_latency.
  - intros x. rewrite flat_map_app. intros [Hx|Hx]%elem_of_app;
      [by apply (sd_accepts _ _ _ D1)|by apply (sd_accepts _ _ _ D2)].
  - rewrite flat_map_app. apply cms_merged_denotes; try done;
      [apply (sd_wf _ _ _ D1)|apply (sd_wf _ _ _ D2)|apply D1|apply D2].
  - rewrite flat_map_app. apply hll_merged_denotes; [apply D1|apply D2|done].
Qed.

(** The merge guards are implied by the success of the concatenated run. *)
Lemma concat_merge_ok s1 s2 s12 cs1 cs2 :
  num (dds_alpha (sl_latency s0)) →
  slog_denotes s0 s1 cs1 → slog_denotes s0 s2 cs2 →
  slog_denotes s0 s12 (cs1 ++ cs2) → merge_ok s1 s2.
Proof using He.
  intros Ha D1 D2 D12. pose proof (sd_wf _ _ _ D12) as W12.
  pose proof (swf_total_max _ W12) as Ht. rewrite (swf_total _ W12) in Ht.
  pose proof (merged_latency s1 s2 cs1 cs2 D1 D2) as El.
  rewrite <- (sd_latency _ _ _ D12) in El.
  pose proof (den_total _ _ (sd_events _ _ _ D12)) as Ec.
  rewrite flat_map_app, sum_by_app, <- (den_total _ _ (sd_events _ _ _ D1)),
    <- (den_total _ _ (sd_events _ _ _ D2)) in Ec.
  pose proof (wf_total _ (swf_events _ W12)).
  assert (dds_count (sl_latency s12) =
    dds_count (sl_latency s1) + dds_count (sl_latency s2)) as Ecount by by rewrite <- El.
  unfold merge_ok. rewrite El.
  rewrite (swf_total _ (sd_wf _ _ _ D1)), (swf_total _ (sd_wf _ _ _ D2)).
  destruct (sd_dims _ _ _ D1) as [-> ->], (sd_dims _ _ _ D2) as [-> ->].
  rewrite (sd_precision _ _ _ D1), (sd_precision _ _ _ D2).
  split_and!; try done; try lia; try apply W12.
  assert (∀ s cs, slog_denotes s0 s cs →
    dds_alpha (sl_latency s) = dds_alpha (sl_latency s0)) as Hal.
  { intros s cs D. rewrite (sd_latency _ _ _ D). apply puts_params. }
  rewrite (Hal _ _ D1), (Hal _ _ D2). by apply feq_val.
Qed.
End homomorphism.

Lemma slog_init_facts a p w d det s :
  slog_init a p w d det = Ok s →
  dds_empty (sl_latency s) ∧ num (dds_alpha (sl_latency s)).
Proof.
  unfold slog_init. destruct (_ || _); [done|]. destruct (_ <? w); [done|].
  destruct (dds_init a) as [l|] eqn:El; [|done].
  destruct (cms_init w d); [|done]. destruct (hll_init p); [|done].
  simpl. intros [= <-]. simpl. split; [by eapply dds_init_empty|].
  revert El. unfold dds_init. destruct (fle 1e-6%float a) eqn:Ea; [|done].
  destruct (negb _); [done|]. destruct (py_log _); simpl; [|done].
  destruct (feq _ _); [done|]. intros [= <-]. simpl. eauto with py.
Qed.

(** ** Replaying *)

(** What a call needs of its own arguments. *)
Definition call_valid (c : slog_call) : Prop :=
  match c with
  | SEvent name n => 0 < n ∧ n ≤ MAX_INT64 ∧ key_out_of_range name = false
  | SUnique item => is_ok (hll_hash item) = true
  | _ => True
  end.

Lemma slog_do_valid c s s' : slog_wf s → slog_do c s = (Ok tt, s') → call_valid c.
Proof.
  intros W. destruct c as [v|vs|name n|item]; simpl; try done.
  - destruct (slog_add_event_run name n s W) as [[(?&?&?&?) _]|[_ [e ->]]]; [|done].
    by intros _.
  - destruct (slog_add_unique_run item s W) as [(x & -> & _)|(e & e' & _ & ->)]; done.
Qed.

Lemma sum_ops_nonneg s0 s cs : slog_denotes s0 s cs → 0 ≤ sum_by snd (flat_map call_ops cs).
Proof.
  intros D. apply sum_by_nonneg. intros x Hx.
  pose proof (den_counts _ _ (sd_events _ _ _ D)) as Hp.
  rewrite Forall_forall in Hp. specialize (Hp x Hx). lia.
Qed.

Section replay.
Context (s0 : slog) (He : dds_empty (sl_latency s0)).

(** A call whose effect is already part of the final state cannot fail on the
    way: every bound the code tests is monotone. *)
Lemma slog_do_replay c s1 s cs1 cs2 :
  slog_denotes s0 s1 cs1 → slog_denotes s0 s (cs1 ++ c :: cs2) → call_valid c →
  ∃ s2, slog_do c s1 = (Ok tt, s2).
Proof using He.
  intros D1 D Hc. pose proof (sd_wf _ _ _ D1) as W1. pose proof (sd_wf _ _ _ D) as W.
  pose proof (sd_good s0 s _ D) as Hg.
  pose proof (den_total _ _ (sd_events _ _ _ D)) as Ht.
  pose proof (den_counts _ _ (sd_events _ _ _ D)) as Hop.
  rewrite flat_map_app, sum_by_app, <- (den_total _ _ (sd_events _ _ _ D1)) in Ht.
  rewrite flat_map_app in Hop. apply Forall_app in Hop as [_ Hop].
  pose proof (sd_latency _ _ _ D) as El. rewrite flat_map_app in El, Hg.
  unfold puts in El. rewrite foldl_app in El.
  fold (puts (sl_latency s0) (flat_map call_items cs1)) in El.
  rewrite <- (sd_latency _ _ _ D1) in El.
  cbn [flat_map] in Ht, El, Hg, Hop. rewrite sum_by_app in Ht.
  set (its := flat_map call_items cs2) in *. set (ops := flat_map call_ops cs2) in *.
  assert (0 ≤ sum_by snd ops ∧ 0 ≤ sum_by snd (call_ops c)) as [Ho1 Ho2].
  { rewrite Forall_forall in Hop. split; apply sum_by_nonneg; intros x Hx;
      (assert (x ∈ call_ops c ++ ops) as Hin by set_solver); specialize (Hop x Hin); lia. }
  assert (good_items its) as Gi by (intros x Hx; apply Hg; set_solver).
  assert (dds_count (sl_latency s) = dds_count (sl_latency s1) +
    weight (λ _, true) (call_items c) + weight (λ _, true) its) as Ec.
  { rewrite El. fold (puts (sl_latency s1) (call_items c ++ its)). rewrite puts_count.
    unfold weight. rewrite sum_by_app. lia. }
  assert (0 ≤ weight (λ _, true) its) by (apply weight_nonneg; intros x Hx; apply Gi; done).
  pose proof (swf_total _ W) as Et. pose proof (swf_total _ W1) as Et1.
  pose proof (swf_total_max _ W) as Em. pose proof (wf_total _ (swf_events _ W)) as Emc.
  assert (∀ vs, call_items c = kept (ones vs) → call_ops c = [] → latency_ok vs s1) as Hlat.
  { intros vs Ei Eo. rewrite Ei, weight_all_kept in Ec. rewrite Eo in Ht. cbn in Ht. split; [lia|]. split.
    - intros x Hx. eapply accepts_params;
        [rewrite (sd_latency _ _ _ D1); apply puts_params|].
      apply (sd_accepts _ _ _ D). rewrite flat_map_app. cbn [flat_map]. rewrite Ei.
      set_solver.
    - apply (puts_unfits _ _ its); [intros x Hx; by apply Gi|].
      rewrite <- Ei. unfold puts at 1. rewrite <- El. apply W. }
  destruct c as [v|vs|name n|item]; cbn [slog_do].
  - destruct (slog_add_latency_run v s1 W1) as [[_ ->]|[Hno _]]; [eauto|].
    destruct Hno. by apply Hlat.
  - destruct (slog_add_batch_run vs s1 W1) as [[_ ->]|[Hno _]]; [eauto|].
    destruct Hno. by apply Hlat.
  - destruct (slog_add_event_run name n s1 W1) as [[_ ->]|[Hno _]]; [eauto|].
    destruct Hno. destruct Hc as (?&?&?). cbn in Ht, Ec. unfold event_ok.
    unfold sum_by in *. cbn in *. split_and!; try done; try lia.
  - destruct (slog_add_unique_run item s1 W1) as [(x & _ & ->)|(e & e' & Eh & _)]; [eauto|].
    simpl in Hc. by rewrite Eh in Hc.
Qed.

Lemma slog_replay cs2 s1 s cs1 :
  slog_denotes s0 s1 cs1 → slog_denotes s0 s (cs1 ++ cs2) → Forall call_valid cs2 →
  slog_run cs2 s1 = (Ok tt, s).
Proof using He.
  intros D1 D Hv. revert s1 cs1 D1 D. induction Hv as [|c cs2 Hc Hv IH]; intros s1 cs1 D1 D.
  { rewrite app_nil_r in D. by rewrite (slog_denotes_eq _ _ _ _ D1 D). }
  destruct (slog_do_replay c s1 s cs1 cs2 D1 D Hc) as [s2 E].
  unfold slog_run. cbn [mfor]. step_run E.
  apply (IH s2 (cs1 ++ [c])); [by eapply slog_do_denotes|].
  by rewrite <- app_assoc.
Qed.

(** [reset] gives back the new log. *)
Lemma slog_reset_denotes s cs :
  slog_denotes s0 s cs → slog_denotes s0 s0 [] → slog_reset s = (Ok tt, s0).
Proof using He.
  intros D D0. assert (slog_denotes s0 (exec slog_reset s) []) as D'.
  { pose proof (slog_reset_wf s (sd_wf _ _ _ D)) as W.
    split; try done; try apply D.
    - cbn. pose proof (puts_params (flat_map call_items cs) (sl_latency s0)) as Hp.
      fold (puts (sl_latency s0) (flat_map call_items cs)) in Hp.
      rewrite <- (sd_latency _ _ _ D) in Hp. destruct He as (?&?&?&?&?&?).
      apply dds_eq; try done; cbn; congruence.
    - by intros x ?%elem_of_nil.
    - split; try done; [apply W|]. cbn. intros i row seed Hr _ j v Hv.
      apply lookup_replicate in Hr as [-> _]. by apply lookup_replicate in Hv as [-> _].
    - split; try done; [apply W|]. cbn. intros j r Hr.
      by apply lookup_replicate in Hr as [-> _]. }
  transitivity (Ok tt, exec slog_reset s); [done|].
  by rewrite (slog_denotes_eq _ _ _ _ D' D0).
Qed.
End replay.

(** The mutating methods of a log, for the invariant. *)
Inductive slog_op :=
| OCall (c : slog_call)
| OMerge (other : slog)
| OReset.

Definition slog_apply (o : slog_op) : M slog unit :=
  match o with
  | OCall c => slog_do c
  | OMerge other => slog_merge other
  | OReset => slog_reset
  end.

(** Merged logs are themselves well-formed. *)
Definition op_wf (o : slog_op) : Prop :=
  match o with OMerge other => slog_wf other | _ => True end.

Definition slog_after (os : list slog_op) (s : slog) : slog :=
  foldl (λ s o, exec (slog_apply o) s) s os.

Lemma slog_after_wf os s : Forall op_wf os → slog_wf s → slog_wf (slog_after os s).
Proof.
  intros Ho. revert s. induction Ho as [|o os Ho Hos IH]; intros s W; [done|].
  simpl. apply IH. destruct o; simpl in *.
  - by apply slog_do_wf.
  - by apply slog_merge_wf.
  - by apply slog_reset_wf.
Qed.

End StreamLog.

(** ** Properties *)

(** C4. Merging is concatenating: if two call sequences succeed on copies of
    the same new log, and so does one after the other, then merging the second
    log into the first succeeds and gives exactly the log of the concatenated
    sequence (quantile buckets, extrema, registers, counters and totals). *)
Theorem slog_merge_is_concatenation `{Libm} a p w d det s0 cs1 cs2 s1 s2 s12 :
  slog_init a p w d det = Ok s0 →
  slog_run cs1 s0 = (Ok tt, s1) →
  slog_run cs2 s0 = (Ok tt, s2) →
  slog_run (cs1 ++ cs2) s0 = (Ok tt, s12) →
  slog_merge s2 s1 = (Ok tt, s12).
Proof.
  intros Hi H1 H2 H12. destruct (slog_init_facts _ _ _ _ _ _ Hi) as [He Ha].
  pose proof (slog_init_denotes _ _ _ _ _ _ Hi) as D0.
  pose proof (slog_run_denotes _ _ _ _ _ D0 H1) as D1.
  pose proof (slog_run_denotes _ _ _ _ _ D0 H2) as D2.
  pose proof (slog_run_denotes _ _ _ _ _ D0 H12) as D12. simpl in D1, D2, D12.
  pose proof (concat_merge_ok s0 He s1 s2 s12 cs1 cs2 Ha D1 D2 D12) as Hok.
  destruct (slog_merge_run s1 s2 (sd_wf _ _ _ D1) (sd_wf _ _ _ D2))
    as [[_ ->]|[Hno _]]; [|done].
  f_equal. eapply slog_denotes_eq; [|exact D12]. by apply merged_denotes.
Qed.

(** [merge] of well-formed logs is all or nothing: it succeeds exactly
    when the configurations agree and every counter of the result is within
    its bounds, and otherwise raises and leaves the log as it was. *)
Theorem slog_merge_all_or_nothing s other :
  slog_wf s → slog_wf other →
  merge_ok s other ∧ slog_merge other s = (Ok tt, slog_merged s other) ∨
  ¬ merge_ok s other ∧ ∃ e, slog_merge other s = (Raise e, s).
Proof. apply slog_merge_run. Qed.

(** The aggregate invariant: after any sequence of ingestion calls, merges
    and resets, failed calls included, each sketch is well-formed and the
    total is the latency count plus the event count, within 64 bits. *)
Theorem slog_always_wf `{Libm} a p w d det s0 os :
  slog_init a p w d det = Ok s0 → Forall op_wf os → slog_wf (slog_after os s0).
Proof.
  intros Hi Ho. apply slog_after_wf; [done|].
  apply (sd_wf s0 s0 [] (slog_init_denotes _ _ _ _ _ _ Hi)).
Qed.

Definition demo_log : slog :=
  mk_slog demo_init (Cms 2 1 (zero_table 2 1) 0 (splitmix_seq 1 42))
    (Hll 4 (replicate 16 0)) 0 true.

Definition demo_calls1 : list slog_call :=
  [SLatency 1%float; SEvent (KStr "login") 2; SUnique (KInt 7)].
Definition demo_calls2 : list slog_call :=
  [SBatch [4; (-4); nan]%float; SEvent (KStr "logout") 1; SUnique (KStr "u")].

Lemma demo_log_ok : slog_init (H := coarse_libm) 0.5%float 4 2 1 true = Ok demo_log.
Proof. vm_compute. reflexivity. Qed.

Lemma slog_merge_is_concatenation_witness :
  let s1 := exec (slog_run (H := coarse_libm) demo_calls1) demo_log in
  let s2 := exec (slog_run (H := coarse_libm) demo_calls2) demo_log in
  let s12 := exec (slog_run (H := coarse_libm) (demo_calls1 ++ demo_calls2)) demo_log in
  slog_merge s2 s1 = (Ok tt, s12).
Proof.
  intros s1 s2 s12.
  apply (slog_merge_is_concatenation (H := coarse_libm) 0.5%float 4 2 1 true demo_log
    demo_calls1 demo_calls2 s1 s2 s12 demo_log_ok);
    vm_compute; reflexivity.
Defined.

Lemma slog_merge_all_or_nothing_witness :
  merge_ok demo_log demo_log ∧
    slog_merge demo_log demo_log = (Ok tt, slog_merged demo_log demo_log) ∨
  ¬ merge_ok demo_log demo_log ∧
    ∃ e, slog_merge demo_log demo_log = (Raise e, demo_log).
Proof.
  apply slog_merge_all_or_nothing;
    exact (sd_wf _ _ _ (slog_init_denotes (H := coarse_libm) _ _ _ _ _ _ demo_log_ok)).
Defined.

Lemma slog_always_wf_witness :
  slog_wf (slog_after (H := coarse_libm)
    [OCall (SLatency 4%float); OCall (SEvent (KStr "x") (-1)); OMerge demo_log;
     OReset; OCall (SUnique (KInt (-3)))] demo_log).
Proof.
  apply (slog_always_wf (H := coarse_libm) 0.5%float 4 2 1 true); [exact demo_log_ok|].
  do 2 (apply Forall_cons_2; [exact I|]). apply Forall_cons_2.
  - exact (sd_wf _ _ _ (slog_init_denotes (H := coarse_libm) _ _ _ _ _ _ demo_log_ok)).
  - do 2 (apply Forall_cons_2; [exact I|]). apply Forall_nil_2.
Defined.
