(* ===== verification/Windowed.v ===== *)
(** * Sliding windows ([windowed.py])

    [WindowedStreamLog]: a ring of [n] logs, each covering one slice of the
    window, and the running merge of the active ones.  Every method takes the
    readings of the monotonic clock it makes, the one of [_rotate] and the one
    of [_rebuild_merged].  Proved: the running merge is exactly the log of the
    calls made inside the window, at the granularity of a slice. *)

From Stdlib Require Import PrimFloat SpecFloat FloatOps Ascii String.
From S2P Require Import Prelude PyFloat FloatRound Hashing CountMin HyperLogLog DDSketch StreamLog.

#[local] Open Scope Z_scope.
#[local] Open Scope py_scope.
#[local] Set Warnings "-inexact-float".

(** [float(s)] of the language's parser; the module calls it on the text left
    of the unit. *)
Class FloatParser := py_float_str : string → res float.

Inductive window_arg :=
| WText (s : string)
| WInt (n : Z)
| WFloat (x : float).

Definition unit_seconds (c : Ascii.ascii) : option Z :=
  if decide (c = "s"%char) then Some 1
  else if decide (c = "m"%char) then Some 60
  else if decide (c = "h"%char) then Some 3600
  else if decide (c = "d"%char) then Some 86400
  else None.

Definition parse_window `{FloatParser} (window : window_arg) : res float :=
  let? result :=
    match window with
    | WInt n => py_float_of_Z n
    | WFloat x => Ok x
    | WText s =>
        let s := py_lower (py_strip s) in
        match py_unsnoc s with
        | None => Raise (ValueError "Window string cannot be empty or whitespace")
        | Some (number, c) =>
            match unit_seconds c with
            | Some k => let? x := py_float_str number in Ok (x * float_of_Z k)%float
            | None => py_float_str s
            end
        end
    end in
  if isnan result || isinf result then Raise (ValueError "Window must be finite")
  else if fle result 0%float then Raise (ValueError "Window must be positive")
  else Ok result.

Record wlog := mk_wlog {
  wl_window_seconds : float;
  wl_n : Z;
  wl_window_ns : Z;
  wl_duration : Z;
  wl_buckets : list slog;
  wl_starts : list Z;
  wl_current : Z;
  wl_merged : slog;
  wl_expires : option Z   (* [None] is [float('inf')] *)
}.

Definition set_buckets (bs : list slog) (s : wlog) : wlog :=
  mk_wlog (wl_window_seconds s) (wl_n s) (wl_window_ns s) (wl_duration s) bs
    (wl_starts s) (wl_current s) (wl_merged s) (wl_expires s).
Definition set_starts (ts : list Z) (s : wlog) : wlog :=
  mk_wlog (wl_window_seconds s) (wl_n s) (wl_window_ns s) (wl_duration s)
    (wl_buckets s) ts (wl_current s) (wl_merged s) (wl_expires s).
Definition set_current (c : Z) (s : wlog) : wlog :=
  mk_wlog (wl_window_seconds s) (wl_n s) (wl_window_ns s) (wl_duration s)
    (wl_buckets s) (wl_starts s) c (wl_merged s) (wl_expires s).
Definition set_merged (m : slog) (s : wlog) : wlog :=
  mk_wlog (wl_window_seconds s) (wl_n s) (wl_window_ns s) (wl_duration s)
    (wl_buckets s) (wl_starts s) (wl_current s) m (wl_expires s).
Definition set_expires (e : option Z) (s : wlog) : wlog :=
  mk_wlog (wl_window_seconds s) (wl_n s) (wl_window_ns s) (wl_duration s)
    (wl_buckets s) (wl_starts s) (wl_current s) (wl_merged s) e.

(** [e < expires_at] and [now > expires_at] with an infinite bound. *)
Definition earlier (e : Z) (expires : option Z) : bool :=
  match expires with None => true | Some x => e <? x end.
Definition expired (now : Z) (expires : option Z) : bool :=
  match expires with None => false | Some x => x <? now end.

Section Windowed.
Context `{Libm} `{FloatParser}.

Definition wl_init (window : window_arg) (n_buckets : Z) (relative_accuracy : float)
    (hll_precision cms_width cms_depth : Z) (now : Z) : res wlog :=
  if n_buckets <=? 0 then Raise (ValueError "n_buckets must be > 0")
  else
    let? seconds := parse_window window in
    let? window_ns := py_ceil (seconds * 1000000000)%float in
    let duration := (window_ns + n_buckets - 1) / n_buckets in
    let new_log := slog_init relative_accuracy hll_precision cms_width cms_depth false in
    let? buckets := res_mapM (λ _, new_log) (py_range n_buckets) in
    let? merged := new_log in
    Ok (mk_wlog seconds n_buckets window_ns duration buckets
          (replicate (Z.to_nat n_buckets) now) 0 merged None).

Definition on_merged {A} : M slog A → M wlog A := zoom wl_merged set_merged.

(** A method of [self._buckets[i]]. *)
Definition on_bucket_at {A} (i : Z) (m : M slog A) : M wlog A :=
  s <- mget ;;
  b <- mlift (py_index (wl_buckets s) i) ;;
  let '(r, b') := m b in
  bs <- mlift (py_setitem (wl_buckets s) i b') ;;
  mmodify (set_buckets bs) ;;;
  mlift r.

(** [self._bucket_start_times[i] = t] *)
Definition set_start (i t : Z) : M wlog unit :=
  s <- mget ;;
  ts <- mlift (py_setitem (wl_starts s) i t) ;;
  mmodify (set_starts ts).

(** [bucket.total_events > 0 or bucket.unique_count() > 0] *)
Definition has_data (b : slog) : res bool :=
  if 0 <? sl_total b then Ok true
  else let? n := slog_unique_count b in Ok (0 <? n).

Definition is_active (window_ns now start : Z) (b : slog) : res bool :=
  if now - start <=? window_ns then has_data b else Ok false.

Fixpoint rebuild_loop (idx : list Z) (now : Z) (expires : option Z) : M wlog (option Z) :=
  match idx with
  | [] => mret expires
  | i :: idx' =>
      s <- mget ;;
      start <- mlift (py_index (wl_starts s) i) ;;
      b <- mlift (py_index (wl_buckets s) i) ;;
      active <- mlift (is_active (wl_window_ns s) now start b) ;;
      if active : bool then
        on_merged (slog_merge b) ;;;
        let expiry := start + wl_window_ns s in
        rebuild_loop idx' now (if earlier expiry expires then Some expiry else expires)
      else rebuild_loop idx' now expires
  end.

Definition wl_rebuild_merged (now : Z) : M wlog unit :=
  on_merged slog_reset ;;;
  s <- mget ;;
  expires <- rebuild_loop (py_range (wl_n s)) now None ;;
  mmodify (set_expires expires).

(** The loop that steps the ring; [fuel] bounds the number of slices to step
    over, [elapsed // duration] of them. *)
Fixpoint rotate_loop (fuel : nat) (elapsed : Z) (rotated : bool) : M wlog bool :=
  s <- mget ;;
  if wl_duration s <=? elapsed then
    match fuel with
    | O => mret rotated
    | S fuel =>
        prev_start <- mlift (py_index (wl_starts s) (wl_current s)) ;;
        mmodify (set_current ((wl_current s + 1) mod wl_n s)) ;;;
        s <- mget ;;
        on_bucket_at (wl_current s) slog_reset ;;;
        set_start (wl_current s) (prev_start + wl_duration s) ;;;
        rotate_loop fuel (elapsed - wl_duration s) true
    end
  else mret rotated.

Definition wl_rotate (now now' : Z) : M wlog unit :=
  s <- mget ;;
  start <- mlift (py_index (wl_starts s) (wl_current s)) ;;
  let elapsed := now - start in
  if wl_n s * wl_duration s <=? elapsed then
    mfor (py_range (wl_n s)) (λ i, on_bucket_at i slog_reset ;;; set_start i now) ;;;
    wl_rebuild_merged now'
  else
    rotated <- rotate_loop (Z.to_nat (wl_n s)) elapsed (expired now (wl_expires s)) ;;
    if rotated : bool then wl_rebuild_merged now' else mret ().

(** The three write methods differ in the method they call twice. *)
Definition wl_write (m : M slog unit) (now now' : Z) : M wlog unit :=
  wl_rotate now now' ;;;
  s <- mget ;;
  on_bucket_at (wl_current s) m ;;;
  on_merged m.

Definition wl_add_latency (value : float) := wl_write (slog_add_latency value).
Definition wl_add_event (name : event_key) (count : Z) := wl_write (slog_add_event name count).
Definition wl_add_unique (item : event_key) := wl_write (slog_add_unique item).

(** The reads bring the merge up to date and query it. *)
Definition wl_read {A} (f : slog → res A) (now now' : Z) : M wlog A :=
  wl_rotate now now' ;;;
  s <- mget ;;
  mlift (f (wl_merged s)).

Definition wl_percentile (q : float) := wl_read (λ m, slog_percentile m q).
Definition wl_p50 := wl_percentile 0.50%float.
Definition wl_p95 := wl_percentile 0.95%float.
Definition wl_p99 := wl_percentile 0.99%float.
Definition wl_p999 := wl_percentile 0.999%float.
Definition wl_unique_count := wl_read slog_unique_count.
Definition wl_event_count (name : event_key) := wl_read (λ m, slog_event_count m name).
Definition wl_total_events := wl_read (λ m, Ok (sl_total m)).

(** [_active_buckets]: in the order of their indices. *)
Definition wl_active_buckets (s : wlog) (now : Z) : res (list slog) :=
  let? bs := res_mapM (λ i,
    let? start := py_index (wl_starts s) i in
    let? b := py_index (wl_buckets s) i in
    let? active := is_active (wl_window_ns s) now start b in
    Ok (if active : bool then [b] else [])) (py_range (wl_n s)) in
  Ok (concat bs).

Definition wl_memory_bytes (s : wlog) : Z :=
  sum_by slog_memory_bytes (wl_buckets s) + slog_memory_bytes (wl_merged s).

Definition wl_reset (now : Z) : M wlog unit :=
  s <- mget ;;
  mfor (py_range (Z.of_nat (length (wl_buckets s)))) (λ i, on_bucket_at i slog_reset) ;;;
  on_merged slog_reset ;;;
  mmodify (set_expires None) ;;;
  mmodify (λ s, set_starts (replicate (Z.to_nat (wl_n s)) now) s) ;;;
  mmodify (set_current 0).
End Windowed.

(** ** What the window holds *)

(** A recorded call: the start of its slice, when it was made, the call. *)
Record item := mk_item { it_start : Z; it_time : Z; it_call : slog_call }.

(** A call that leaves the totals of a log alone (only a unique item, or
    values that are not finite). *)
Definition weightless (c : slog_call) : Prop := call_items c = [] ∧ call_ops c = [].

(** Distance of a slice from the current one, going back around the ring. *)
Definition ring_dist (s : wlog) (i : Z) : Z := (wl_current s - i) mod wl_n s.

Definition items_at (its : list (list item)) (i : Z) : list item :=
  default [] (its !! Z.to_nat i).

Section window_invariant.
Context `{Libm} (s0 : slog) (He : dds_empty (sl_latency s0)) (D0 : slog_denotes s0 s0 []).

(** The ring: every slice holds exactly the calls made in it, and a slice
    [k] steps back started at least [k] durations before the current one. *)
Record ring_ok (s : wlog) (its : list (list item)) : Prop := {
  ro_n : 0 < wl_n s;
  ro_duration : 0 < wl_duration s;
  ro_cover : wl_window_ns s ≤ wl_n s * wl_duration s;
  ro_slice : wl_duration s ≤ wl_window_ns s;
  ro_buckets : length (wl_buckets s) = Z.to_nat (wl_n s);
  ro_starts : length (wl_starts s) = Z.to_nat (wl_n s);
  ro_items : length its = Z.to_nat (wl_n s);
  ro_current : 0 ≤ wl_current s < wl_n s;
  ro_denotes : ∀ i b, 0 ≤ i → wl_buckets s !! Z.to_nat i = Some b →
    slog_denotes s0 b (it_call <$> items_at its i) ∧
    Forall call_valid (it_call <$> items_at its i);
  ro_times : ∀ i start x, 0 ≤ i → wl_starts s !! Z.to_nat i = Some start →
    x ∈ items_at its i →
    it_start x = start ∧ start ≤ it_time x < start + wl_duration s;
  ro_ring : ∀ i start x, 0 ≤ i < wl_n s →
    wl_starts s !! Z.to_nat (wl_current s) = Some start →
    x ∈ items_at its i → it_start x ≤ start - ring_dist s i * wl_duration s
}.

Definition current_start (s : wlog) : Z :=
  default 0 (wl_starts s !! Z.to_nat (wl_current s)).

(** The merge holds the calls [kept]; the rest of the ring has expired before
    [L] or does not count. *)
Record merge_ok_at (s : wlog) (its : list (list item)) (kept : list item) (L : Z) : Prop := {
  mo_merged : slog_denotes s0 (wl_merged s) (it_call <$> kept);
  mo_valid : Forall call_valid (it_call <$> kept);
  mo_rest : ∃ rest, concat its ≡ₚ kept ++ rest ∧
    Forall (λ x, it_start x + wl_window_ns s < L ∨ weightless (it_call x)) rest;
  mo_expires : Forall (λ x, it_start x = current_start s ∨
    ∃ e, wl_expires s = Some e ∧ e ≤ it_start x + wl_window_ns s) kept
}.

(** *** Rebuilding *)

Lemma has_data_false b cs :
  slog_denotes s0 b cs → has_data b = Ok false → Forall weightless cs.
Proof.
  intros D. unfold has_data. destruct (Z.ltb_spec 0 (sl_total b)) as [|Ht]; [done|].
  intros _. pose proof (swf_total _ (sd_wf _ _ _ D)) as Et.
  pose proof (sum_ops_nonneg s0 b cs D) as Ho.
  pose proof (den_total _ _ (sd_events _ _ _ D)) as Eo.
  pose proof (sd_good s0 b cs D) as Hg.
  assert (dds_count (sl_latency b) = weight (λ _, true) (flat_map call_items cs)) as Ec.
  { rewrite (sd_latency _ _ _ D), puts_count. destruct He as (_&_&_&->&_). lia. }
  assert (0 ≤ weight (λ _, true) (flat_map call_items cs)) as Hw
    by (apply weight_nonneg; intros x Hx; by apply Hg).
  pose proof (den_counts _ _ (sd_events _ _ _ D)) as Hp.
  apply Forall_forall. intros c Hc. split.
  - destruct (call_items c) as [|y l] eqn:E; [done|exfalso].
    assert (y ∈ flat_map call_items cs) as Hy.
    { apply list_elem_of_In, in_flat_map. exists c. split; [by apply list_elem_of_In|].
      rewrite E. by left. }
    assert (y.2 ≤ weight (λ _, true) (flat_map call_items cs)); [|destruct (Hg y Hy); lia].
    apply list_elem_of_split in Hy as (l1 & l2 & El). rewrite El.
    rewrite El in Hg. unfold weight. rewrite sum_by_app, sum_by_cons. cbn.
    assert (0 ≤ sum_by (λ x : float * Z, x.2) l1 ∧ 0 ≤ sum_by (λ x : float * Z, x.2) l2); [|lia].
    split; apply sum_by_nonneg; intros x Hx; destruct (Hg x); set_solver || lia.
  - destruct (call_ops c) as [|y l] eqn:E; [done|exfalso].
    assert (y ∈ flat_map call_ops cs) as Hy.
    { apply list_elem_of_In, in_flat_map. exists c. split; [by apply list_elem_of_In|].
      rewrite E. by left. }
    rewrite Forall_forall in Hp. pose proof (Hp y Hy) as Hpos.
    apply list_elem_of_split in Hy as (l1 & l2 & El). rewrite El in Eo, Hp.
    rewrite sum_by_app, sum_by_cons in Eo.
    assert (0 ≤ sum_by snd l1 ∧ 0 ≤ sum_by snd l2); [|lia].
    split; apply sum_by_nonneg; intros x Hx; specialize (Hp x); 
      (assert (x ∈ l1 ++ y :: l2) as Hin by set_solver); specialize (Hp Hin); lia.
Qed.

Lemma old_or_active now s b its i start r :
  ring_ok s its → 0 ≤ i → wl_buckets s !! Z.to_nat i = Some b →
  wl_starts s !! Z.to_nat i = Some start →
  is_active (wl_window_ns s) now start b = Ok r → r = false →
  Forall (λ x, it_start x + wl_window_ns s < now ∨ weightless (it_call x)) (items_at its i).
Proof.
  intros R Hi Eb Es Ha ->. unfold is_active in Ha.
  destruct (ro_denotes _ _ R i b Hi Eb) as [D _].
  destruct (Z.leb_spec (now - start) (wl_window_ns s)).
  - pose proof (has_data_false b _ D Ha) as Hw. rewrite Forall_fmap in Hw.
    eapply Forall_impl; [exact Hw|]. intros x Hx. by right.
  - apply Forall_forall. intros x Hx. left.
    destruct (ro_times _ _ R i start x Hi Es Hx). lia.
Qed.

(** The part of the state a rebuild reads. *)
Definition same_ring (s s' : wlog) : Prop :=
  wl_n s' = wl_n s ∧ wl_window_ns s' = wl_window_ns s ∧ wl_duration s' = wl_duration s ∧
  wl_buckets s' = wl_buckets s ∧ wl_starts s' = wl_starts s ∧ wl_current s' = wl_current s ∧
  wl_window_seconds s' = wl_window_seconds s.

Lemma ring_ok_same s s' its : same_ring s s' → ring_ok s its → ring_ok s' its.
Proof.
  intros (E1&E2&E3&E4&E5&E6&_) [].
  constructor; unfold ring_dist in *; rewrite ?E1, ?E2, ?E3, ?E4, ?E5, ?E6; done.
Qed.

Lemma py_index_ok {A} (l : list A) i x :
  0 ≤ i → py_index l i = Ok x → l !! Z.to_nat i = Some x.
Proof.
  unfold py_index. intros Hi. rewrite (proj2 (Z.ltb_ge i 0)) by done.
  rewrite (proj2 (Z.ltb_ge i 0)) by done. destruct (l !! Z.to_nat i); congruence.
Qed.

(** One pass of the rebuilding loop over the slices [idx]. *)
Lemma rebuild_loop_run its idx now : ∀ expires s cs e' s',
  ring_ok s its → Forall (λ i, 0 ≤ i) idx →
  slog_denotes s0 (wl_merged s) cs → Forall call_valid cs →
  rebuild_loop idx now expires s = (Ok e', s') →
  ∃ kept rest, concat (items_at its <$> idx) ≡ₚ kept ++ rest ∧
    slog_denotes s0 (wl_merged s') (cs ++ (it_call <$> kept)) ∧
    Forall call_valid (it_call <$> kept) ∧
    same_ring s s' ∧
    Forall (λ x, it_start x + wl_window_ns s < now ∨ weightless (it_call x)) rest ∧
    Forall (λ x, now ≤ it_start x + wl_window_ns s ∧
      ∃ e, e' = Some e ∧ e ≤ it_start x + wl_window_ns s) kept ∧
    (∀ e, expires = Some e → ∃ e1, e' = Some e1 ∧ e1 ≤ e).
Proof.
  induction idx as [|i idx IH]; intros expires s cs e' s' R Hidx Dm Vm Hrun.
  { injection Hrun as <- <-. exists [], []. split_and!; try done.
    - by rewrite fmap_nil, app_nil_r.
    - intros e ->. by exists e. }
  apply Forall_cons in Hidx as [Hi Hidx]. cbn [rebuild_loop] in Hrun.
  apply mbind_ok in Hrun as (s1 & s1' & Hg & Hrun). injection Hg as <- <-.
  apply mbind_ok in Hrun as (start & s1' & Hst & Hrun).
  injection Hst as Hst <-. apply py_index_ok in Hst; [|done].
  apply mbind_ok in Hrun as (b & s1' & Hb & Hrun).
  injection Hb as Hb <-. apply py_index_ok in Hb; [|done].
  apply mbind_ok in Hrun as (r & s1' & Hact & Hrun).
  injection Hact as Hact <-.
  destruct (ro_denotes _ _ R i b Hi Hb) as [Db Vb].
  destruct r.
  - apply mbind_ok in Hrun as ([] & s1 & Hm & Hrun).
    unfold on_merged in Hm. rewrite zoom_run in Hm. injection Hm as Hm <-.
    destruct (slog_merge_run (wl_merged s) b (sd_wf _ _ _ Dm) (sd_wf _ _ _ Db))
      as [[Hok E]|[_ [e E]]]; rewrite E in Hm; [|done].
    rewrite E in Hrun. cbn [snd] in Hrun.
    apply (IH _ _ (cs ++ (it_call <$> items_at its i))) in Hrun as
      (kept & rest & Hp & D & V & Hs & Hold & Hexp & Hmono);
      [|by eapply ring_ok_same; [|exact R]|done|by apply merged_denotes|by apply Forall_app].
    exists (items_at its i ++ kept), rest. cbn. rewrite fmap_app, Hp.
    split_and!; try done.
    + by rewrite <- app_assoc.
    + by rewrite app_assoc.
    + by apply Forall_app.
    + apply Forall_app. split; [|done]. apply Forall_forall. intros x Hx.
      destruct (ro_times _ _ R i start x Hi Hst Hx) as [Ex _].
      unfold is_active in Hact. destruct (Z.leb_spec (now - start) (wl_window_ns s)); [|done].
      split; [lia|].
      destruct (earlier (start + wl_window_ns s) expires) eqn:Ee.
      * destruct (Hmono _ eq_refl) as (e1 & -> & He1). exists e1. split; [done|lia].
      * unfold earlier in Ee. destruct expires as [e|]; [|done].
        destruct (Hmono _ eq_refl) as (e1 & -> & He1). exists e1. split; [done|lia].
    + intros e ->. destruct (earlier (start + wl_window_ns s) (Some e)) eqn:Ee.
      * destruct (Hmono _ eq_refl) as (e1 & -> & He1). cbn in Ee. exists e1. split; [done|lia].
      * by apply Hmono.
  - apply (IH _ _ cs) in Hrun as (kept & rest & Hp & D & V & Hs & Hold & Hexp & Hmono);
      [|done..].
    exists kept, (items_at its i ++ rest). cbn. rewrite Hp.
    split_and!; try done.
    + by rewrite !app_assoc, (Permutation_app_comm kept).
    + apply Forall_app. split; [|done]. by eapply old_or_active.
Qed.

Lemma concat_items_at its n :
  length its = Z.to_nat n → concat (items_at its <$> py_range n) = concat its.
Proof.
  intros El. f_equal. apply list_eq. intros j. unfold py_range, seqZ.
  rewrite <- list_fmap_compose, list_lookup_fmap.
  destruct (decide (j < Z.to_nat n)%nat) as [Hj|Hj].
  - rewrite lookup_seq_lt by done. cbn. unfold items_at.
    replace (Z.to_nat (Z.of_nat j + 0)) with j by lia.
    destruct (its !! j) eqn:E; [done|]. apply lookup_ge_None in E. lia.
  - rewrite lookup_seq_ge by lia. symmetry. apply lookup_ge_None. lia.
Qed.

Lemma rebuild_run s its cs now s' :
  ring_ok s its → slog_denotes s0 (wl_merged s) cs →
  wl_rebuild_merged now s = (Ok tt, s') →
  same_ring s s' ∧ ∃ kept, merge_ok_at s' its kept now ∧
    Forall (λ x, now ≤ it_start x + wl_window_ns s) kept.
Proof.
  intros R Dm Hrun. unfold wl_rebuild_merged in Hrun.
  apply mbind_ok in Hrun as ([] & s1 & Hr & Hrun).
  unfold on_merged in Hr. rewrite zoom_run in Hr.
  rewrite (slog_reset_denotes s0 He _ _ Dm D0) in Hr. injection Hr as <-.
  apply mbind_ok in Hrun as (s1 & s1' & Hg & Hrun). injection Hg as <- <-.
  apply mbind_ok in Hrun as (e & s2 & Hl & Hrun). injection Hrun as <-.
  cbn [wl_n set_merged] in Hl.
  apply (rebuild_loop_run its _ _ _ _ []) in Hl as
    (kept & rest & Hp & D & V & Hs & Hold & Hexp & _); try done.
  2: by eapply ring_ok_same; [|exact R].
  2: { apply Forall_forall. intros i Hi%elem_of_seqZ. lia. }
  split; [by destruct Hs as (?&?&?&?&?&?&?)|]. exists kept.
  rewrite concat_items_at in Hp by apply R.
  assert (wl_window_ns s2 = wl_window_ns s) as Ew by (by destruct Hs as (?&?&_)).
  split; [|eapply Forall_impl; [exact Hexp|]; by intros x [? _]].
  split; cbn; try done.
  - exists rest. split; [done|]. by rewrite Ew.
  - eapply Forall_impl; [exact Hexp|]. intros x [_ Hx]. right. by rewrite Ew.
Qed.

(** *** Rotating *)

Lemma ring_dist_step c i n :
  0 < n → 0 ≤ i < n → i ≠ (c + 1) mod n → ((c + 1) mod n - i) mod n = (c - i) mod n + 1.
Proof.
  intros Hn Hi Hne. rewrite Zminus_mod_idemp_l.
  replace (c + 1 - i) with (c - i + 1) by lia.
  rewrite <- Z.add_mod_idemp_l by lia.
  pose proof (Z.mod_pos_bound (c - i) n ltac:(lia)) as Hd.
  destruct (Z.eq_dec ((c - i) mod n) (n - 1)) as [E|].
  - destruct Hne. pose proof (Z.div_mod (c - i) n ltac:(lia)) as Hm. rewrite E in Hm.
    replace (c + 1) with (i + ((c - i) / n + 1) * n) by lia.
    rewrite Z.mod_add by lia. by rewrite Z.mod_small.
  - rewrite Z.mod_small by lia. done.
Qed.

Lemma ring_dist_next c n : 0 < n → (c - (c + 1) mod n) mod n = n - 1.
Proof.
  intros Hn. rewrite Zminus_mod_idemp_r. replace (c - (c + 1)) with (-1) by lia.
  replace (-1) with (n - 1 + (-1) * n) by lia. rewrite Z.mod_add by lia.
  apply Z.mod_small. lia.
Qed.

Lemma items_at_insert its i j xs :
  0 ≤ i → 0 ≤ j → (Z.to_nat i < length its)%nat →
  items_at (<[Z.to_nat i := xs]> its) j = if decide (j = i) then xs else items_at its j.
Proof.
  intros Hi Hj Hl. unfold items_at. destruct (decide (j = i)) as [->|].
  - by rewrite list_lookup_insert_eq by lia.
  - by rewrite list_lookup_insert_ne by lia.
Qed.

(** Emptying a slice and giving it a new start, under the ring. *)
Lemma concat_clear its i :
  concat its ≡ₚ items_at its i ++ concat (<[Z.to_nat i := []]> its).
Proof.
  unfold items_at. destruct (its !! Z.to_nat i) as [xs|] eqn:E.
  - cbn. rewrite <- (take_drop_middle its _ _ E) at 1.
    rewrite (insert_take_drop its _ []) by (by apply lookup_lt_Some in E).
    rewrite !concat_app. cbn. rewrite !app_assoc. apply Permutation_app_tail.
    apply Permutation_app_comm.
  - cbn. rewrite list_insert_ge; [done|]. by apply lookup_ge_None.
Qed.

Lemma on_bucket_at_run i (m : M slog unit) s u s' :
  0 ≤ i → on_bucket_at i m s = (Ok u, s') →
  ∃ b b', wl_buckets s !! Z.to_nat i = Some b ∧ m b = (Ok u, b') ∧
    s' = set_buckets (<[Z.to_nat i := b']> (wl_buckets s)) s.
Proof.
  intros Hi Hrun. unfold on_bucket_at in Hrun.
  apply mbind_ok in Hrun as (s1 & s1' & Hg & Hrun). injection Hg as <- <-.
  apply mbind_ok in Hrun as (b & s1' & Hb & Hrun). injection Hb as Hb <-.
  pose proof (py_index_ok _ _ _ Hi Hb) as Hb'. destruct (m b) as [r b'] eqn:Em.
  apply mbind_ok in Hrun as (bs & s1' & Hbs & Hrun). injection Hbs as Hbs <-.
  rewrite (py_setitem_lookup _ _ _ _ Hi Hb') in Hbs. injection Hbs as <-.
  apply mbind_ok in Hrun as ([] & s1 & Hm & Hrun). injection Hm as <-.
  injection Hrun as -> <-. by exists b, b'.
Qed.

Lemma set_start_run i t s s' :
  0 ≤ i → set_start i t s = (Ok tt, s') →
  is_Some (wl_starts s !! Z.to_nat i) ∧ s' = set_starts (<[Z.to_nat i := t]> (wl_starts s)) s.
Proof.
  intros Hi Hrun. unfold set_start in Hrun.
  apply mbind_ok in Hrun as (s1 & s1' & Hg & Hrun). injection Hg as <- <-.
  apply mbind_ok in Hrun as (ts & s1' & Hts & Hrun). injection Hts as Hts <-.
  injection Hrun as <-. unfold py_setitem in Hts.
  destruct (py_index (wl_starts s) i) as [x|] eqn:Ex; [|done]. cbn in Hts.
  rewrite (proj2 (Z.ltb_ge i 0)) in Hts by done. injection Hts as <-.
  apply py_index_ok in Ex; [|done]. by split.
Qed.

(** The configuration of a windowed log never changes. *)
Definition same_config (s s' : wlog) : Prop :=
  wl_n s' = wl_n s ∧ wl_window_ns s' = wl_window_ns s ∧ wl_duration s' = wl_duration s.

Lemma current_start_lookup s its :
  ring_ok s its → wl_starts s !! Z.to_nat (wl_current s) = Some (current_start s).
Proof.
  intros R. unfold current_start.
  destruct (lookup_lt_is_Some_2 (wl_starts s) (Z.to_nat (wl_current s))) as [x ->]; [|done].
  rewrite (ro_starts _ _ R). pose proof (ro_current _ _ R). lia.
Qed.

(** One step of the ring: the next slice is emptied and becomes current; the
    calls it held are older than the rest of the ring. *)
Lemma rotate_step s its c' s2 s3 :
  ring_ok s its → c' = (wl_current s + 1) mod wl_n s →
  on_bucket_at c' slog_reset (set_current c' s) = (Ok tt, s2) →
  set_start c' (current_start s + wl_duration s) s2 = (Ok tt, s3) →
  ring_ok s3 (<[Z.to_nat c' := []]> its) ∧ same_config s s3 ∧
  wl_merged s3 = wl_merged s ∧ wl_expires s3 = wl_expires s ∧
  current_start s3 = current_start s + wl_duration s ∧
  Forall (λ x, it_time x < current_start s3 - (wl_n s - 1) * wl_duration s) (items_at its c').
Proof.
  intros R Ec' H2 H3. pose proof (ro_n _ _ R) as Hn. pose proof (ro_current _ _ R) as Hc.
  pose proof (Z.mod_pos_bound (wl_current s + 1) (wl_n s) Hn) as Hc'. rewrite <- Ec' in Hc'.
  apply on_bucket_at_run in H2 as (b & b' & Hb & Hr & ->); [|lia].
  cbn in Hb. destruct (ro_denotes _ _ R c' b ltac:(lia) Hb) as [Db _].
  rewrite (slog_reset_denotes s0 He _ _ Db D0) in Hr. injection Hr as <-.
  apply set_start_run in H3 as [_ ->]; [|lia].
  pose proof (current_start_lookup s its R) as Hs0.
  set (start := current_start s) in *.
  assert (current_start (set_starts (<[Z.to_nat c' := start + wl_duration s]> (wl_starts s))
    (set_buckets (<[Z.to_nat c' := s0]> (wl_buckets s)) (set_current c' s)))
    = start + wl_duration s) as Ecs.
  { unfold current_start. cbn. rewrite list_lookup_insert_eq; [done|].
    rewrite (ro_starts _ _ R). lia. }
  split; [|split_and!; try done].
  - constructor; cbn; try apply R; rewrite ?length_insert; try apply R; try done.
    + intros i b1 Hi Hb1. destruct (decide (i = c')) as [->|Hne].
      * rewrite list_lookup_insert_eq in Hb1 by (rewrite (ro_buckets _ _ R); lia).
        injection Hb1 as <-. rewrite items_at_insert, decide_True by (done || lia ||
          (rewrite (ro_items _ _ R); lia)). by split.
      * rewrite list_lookup_insert_ne in Hb1 by lia.
        rewrite items_at_insert, decide_False by (done || lia || (rewrite (ro_items _ _ R); lia)).
        by apply (ro_denotes _ _ R).
    + intros i st x Hi Hst Hx.
      rewrite items_at_insert in Hx by (done || lia || (rewrite (ro_items _ _ R); lia)).
      destruct (decide (i = c')) as [->|Hne]; [by apply elem_of_nil in Hx|].
      rewrite list_lookup_insert_ne in Hst by lia. by apply (ro_times _ _ R i).
    + intros i st x Hi Hst Hx.
      rewrite items_at_insert in Hx by (done || lia || (rewrite (ro_items _ _ R); lia)).
      destruct (decide (i = c')) as [->|Hne]; [by apply elem_of_nil in Hx|].
      rewrite list_lookup_insert_eq in Hst by (rewrite (ro_starts _ _ R); lia).
      injection Hst as <-. pose proof (ro_ring _ _ R i start x Hi Hs0 Hx) as Hb1.
      unfold ring_dist in *. cbn. rewrite Ec' in Hne |- *.
      rewrite ring_dist_step by lia. lia.
  - cbn -[current_start]. rewrite Ecs. apply Forall_forall. intros x Hx.
    pose proof (ro_ring _ _ R c' start x ltac:(lia) Hs0 Hx) as Hb1.
    unfold ring_dist in Hb1. rewrite Ec', ring_dist_next in Hb1 by lia.
    destruct (lookup_lt_is_Some_2 (wl_starts s) (Z.to_nat c')) as [st Est];
      [rewrite (ro_starts _ _ R); lia|].
    destruct (ro_times _ _ R c' st x ltac:(lia) Est Hx) as [E1 E2]. lia.
Qed.

(** The loop ends with the slice that covers the instant [now], provided the
    ring does not have to be stepped all the way round. *)
Lemma rotate_loop_run fuel : ∀ now its s rotated r s',
  ring_ok s its → current_start s ≤ now →
  now - current_start s < Z.of_nat fuel * wl_duration s →
  rotate_loop fuel (now - current_start s) rotated s = (Ok r, s') →
  ∃ its' gone, ring_ok s' its' ∧ same_config s s' ∧ wl_merged s' = wl_merged s ∧
    concat its ≡ₚ concat its' ++ gone ∧
    Forall (λ x, it_time x < now - (wl_n s - 1) * wl_duration s) gone ∧
    current_start s' ≤ now < current_start s' + wl_duration s ∧
    (r = false → rotated = false ∧ s' = s ∧ its' = its).
Proof.
  induction fuel as [|fuel IH]; intros now its s rotated r s' R Hnow Hf Hrun;
    pose proof (ro_duration _ _ R) as Hd; [lia|].
  cbn [rotate_loop] in Hrun.
  apply mbind_ok in Hrun as (s1 & s1' & Hg & Hrun). injection Hg as <- <-.
  destruct (Z.leb_spec (wl_duration s) (now - current_start s)) as [Hle|Hgt].
  2: { injection Hrun as -> <-. exists its, []. rewrite app_nil_r. split_and!; try done; lia. }
  apply mbind_ok in Hrun as (start & s1' & Hst & Hrun). injection Hst as Hst <-.
  pose proof (ro_current _ _ R) as Hc.
  apply py_index_ok in Hst; [|lia]. rewrite (current_start_lookup s its R) in Hst.
  injection Hst as <-.
  apply mbind_ok in Hrun as ([] & s1 & Hm & Hrun). injection Hm as <-.
  apply mbind_ok in Hrun as (s1 & s1' & Hg & Hrun). injection Hg as <- <-.
  cbn [wl_current set_current wl_duration] in Hrun.
  apply mbind_ok in Hrun as ([] & s2 & H2 & Hrun).
  apply mbind_ok in Hrun as ([] & s3 & H3 & Hrun).
  destruct (rotate_step s its _ s2 s3 R eq_refl H2 H3) as (R3 & C3 & M3 & _ & E3 & G3).
  destruct C3 as (En & Ew & Ed).
  replace (now - current_start s - wl_duration s) with (now - current_start s3) in Hrun by lia.
  apply (IH now _ _ _ _ _ R3) in Hrun as
    (its' & gone & R' & (En' & Ew' & Ed') & M' & P' & G' & Hcur & Hr); [|lia|lia].
  exists its', (gone ++ items_at its ((wl_current s + 1) mod wl_n s)).
  split_and!; try done; try congruence; try lia.
  - split_and!; congruence.
  - rewrite (concat_clear its ((wl_current s + 1) mod wl_n s)), P'.
    rewrite Permutation_app_comm, !app_assoc. done.
  - apply Forall_app. split; [by rewrite <- En, <- Ed|].
    eapply Forall_impl; [exact G3|]. intros x Hx. cbn in Hx |- *. nia.
  - intros Er. by destruct (Hr Er).
Qed.

(** After a full window of silence every slice is emptied. *)
Lemma clear_all_run now l : ∀ s s',
  Forall (λ i, 0 ≤ i) l →
  (∀ j b, wl_buckets s !! j = Some b → slog_reset b = (Ok tt, s0)) →
  mfor l (λ i, on_bucket_at i slog_reset ;;; set_start i now) s = (Ok tt, s') →
  same_config s s' ∧ wl_current s' = wl_current s ∧ wl_merged s' = wl_merged s ∧
  length (wl_buckets s') = length (wl_buckets s) ∧
  length (wl_starts s') = length (wl_starts s) ∧
  ∀ i, 0 ≤ i →
    i ∈ l ∨ wl_buckets s !! Z.to_nat i = Some s0 ∧ wl_starts s !! Z.to_nat i = Some now →
    wl_buckets s' !! Z.to_nat i = Some s0 ∧ wl_starts s' !! Z.to_nat i = Some now.
Proof.
  assert (slog_reset s0 = (Ok tt, s0)) as E0 by by eapply slog_reset_denotes.
  induction l as [|i l IH]; intros s s' Hl Hb Hrun.
  { injection Hrun as <-. split_and!; try done. by intros i _ [?%elem_of_nil|?]. }
  apply Forall_cons in Hl as [Hi Hl]. cbn [mfor] in Hrun.
  apply mbind_ok in Hrun as ([] & s1 & H1 & Hrun).
  apply mbind_ok in H1 as ([] & s2 & H2 & H3).
  apply on_bucket_at_run in H2 as (b & b' & Eb & Er & ->); [|done].
  rewrite (Hb _ _ Eb) in Er. injection Er as <-.
  apply set_start_run in H3 as [[st Hst] ->]; [|done]. cbn in Hst.
  apply IH in Hrun as (C1 & Ec1 & M1 & L1 & T1 & A1); [|done|].
  - cbn in *. rewrite length_insert in L1. rewrite length_insert in T1. split_and!; try done.
    intros j Hj Hcase. apply A1; [done|].
    destruct (decide (j = i)) as [->|Hne].
    + right. apply lookup_lt_Some in Eb, Hst. by rewrite !list_lookup_insert_eq by done.
    + rewrite !list_lookup_insert_ne by lia. set_solver.
  - cbn. intros j b1. destruct (decide (j = Z.to_nat i)) as [->|Hne].
    + apply lookup_lt_Some in Eb. rewrite list_lookup_insert_eq by done. by intros [= <-].
    + rewrite list_lookup_insert_ne by done. by apply Hb.
Qed.

Lemma concat_replicate_nil {A} n : concat (replicate n (@nil A)) = [].
Proof. by induction n. Qed.

Lemma items_at_nil n i : items_at (replicate n []) i = [].
Proof. unfold items_at. by destruct (replicate n [] !! _) eqn:E; [apply lookup_replicate in E as [-> _]|]. Qed.

Lemma clear_ring s its now s' :
  ring_ok s its →
  mfor (py_range (wl_n s)) (λ i, on_bucket_at i slog_reset ;;; set_start i now) s = (Ok tt, s') →
  ring_ok s' (replicate (Z.to_nat (wl_n s)) []) ∧ same_config s s' ∧
  wl_merged s' = wl_merged s ∧ current_start s' = now.
Proof.
  intros R Hrun. pose proof (ro_n _ _ R) as Hn. pose proof (ro_current _ _ R) as Hc.
  apply clear_all_run in Hrun as (C & Ec & M & Lb & Ls & A).
  - assert (∀ i, 0 ≤ i < wl_n s → wl_buckets s' !! Z.to_nat i = Some s0 ∧
      wl_starts s' !! Z.to_nat i = Some now) as A'.
    { intros i Hi. apply A; [lia|]. left. apply elem_of_seqZ. lia. }
    destruct C as (En & Ew & Ed).
    split; [|split_and!; try done].
    + constructor; rewrite ?En, ?Ew, ?Ed, ?Ec, ?Lb, ?Ls, ?length_replicate; try apply R; try done.
      * intros i b Hi Hb. rewrite items_at_nil. pose proof (lookup_lt_Some _ _ _ Hb) as Hl.
        rewrite Lb, (ro_buckets _ _ R) in Hl. destruct (A' i) as [E _]; [lia|].
        rewrite E in Hb. by injection Hb as <-.
      * intros i st x Hi _. rewrite items_at_nil. by intros ?%elem_of_nil.
      * intros i st x Hi _. rewrite items_at_nil. by intros ?%elem_of_nil.
    + unfold current_start. rewrite Ec. by destruct (A' (wl_current s)) as [_ ->].
  - apply Forall_forall. intros i Hi%elem_of_seqZ. lia.
  - intros j b Hb. destruct (ro_denotes _ _ R (Z.of_nat j) b) as [D _]; [lia|by rewrite Nat2Z.id|].
    by eapply slog_reset_denotes.
Qed.

(** Every call of the ring is older than the end of the current slice. *)
Lemma ring_old s its x :
  ring_ok s its → x ∈ concat its → it_time x < current_start s + wl_duration s.
Proof.
  intros R Hx. apply list_elem_of_In, in_concat in Hx as (xs & Hxs & Hx).
  apply list_elem_of_In, list_elem_of_lookup in Hxs as [j Hj].
  apply list_elem_of_In in Hx.
  pose proof (lookup_lt_Some _ _ _ Hj) as Hl. rewrite (ro_items _ _ R) in Hl.
  assert (x ∈ items_at its (Z.of_nat j)) as Hx'.
  { unfold items_at. by rewrite Nat2Z.id, Hj. }
  pose proof (ro_ring _ _ R (Z.of_nat j) _ x ltac:(lia) (current_start_lookup s its R) Hx').
  destruct (lookup_lt_is_Some_2 (wl_starts s) j) as [st Est]; [rewrite (ro_starts _ _ R); lia|].
  destruct (ro_times _ _ R (Z.of_nat j) st x) as [? ?]; [lia|by rewrite Nat2Z.id|done|].
  unfold ring_dist in *. pose proof (Z.mod_pos_bound (wl_current s - Z.of_nat j) (wl_n s) (ro_n _ _ R)).
  pose proof (ro_duration _ _ R). nia.
Qed.

(** A call is made within the slice it is filed under. *)
Lemma concat_slice s its x :
  ring_ok s its → x ∈ concat its → it_start x ≤ it_time x < it_start x + wl_duration s.
Proof.
  intros R Hx. apply list_elem_of_In, in_concat in Hx as (xs & Hxs & Hx).
  apply list_elem_of_In, list_elem_of_lookup in Hxs as [j Hj].
  apply list_elem_of_In in Hx.
  pose proof (lookup_lt_Some _ _ _ Hj) as Hl. rewrite (ro_items _ _ R) in Hl.
  destruct (lookup_lt_is_Some_2 (wl_starts s) j) as [st Est]; [rewrite (ro_starts _ _ R); lia|].
  destruct (ro_times _ _ R (Z.of_nat j) st x) as [? ?]; [lia|by rewrite Nat2Z.id| |lia].
  unfold items_at. by rewrite Nat2Z.id, Hj.
Qed.

(** *** Rotation as a whole *)

Lemma wl_rotate_run s its kept L now now' s' :
  ring_ok s its → merge_ok_at s its kept L → L ≤ now' → current_start s ≤ now →
  now ≤ now' ≤ now + (wl_window_ns s - wl_duration s) →
  wl_rotate now now' s = (Ok tt, s') →
  ∃ its' kept' gone, ring_ok s' its' ∧ merge_ok_at s' its' kept' now' ∧ same_config s s' ∧
    concat its ≡ₚ concat its' ++ gone ∧
    Forall (λ x, it_time x < now - wl_window_ns s + wl_duration s) gone ∧
    Forall (λ x, now ≤ it_start x + wl_window_ns s) kept' ∧
    current_start s' ≤ now < current_start s' + wl_duration s.
Proof.
  intros R Mo HL Hnow Hnow' Hrun. unfold wl_rotate in Hrun.
  pose proof (ro_n _ _ R) as Hn. pose proof (ro_duration _ _ R) as Hd.
  pose proof (ro_cover _ _ R) as Hcov. pose proof (ro_slice _ _ R) as Hsl.
  apply mbind_ok in Hrun as (s1 & s1' & Hg & Hrun). injection Hg as <- <-.
  apply mbind_ok in Hrun as (start & s1' & Hst & Hrun). injection Hst as Hst <-.
  pose proof (ro_current _ _ R) as Hc.
  apply py_index_ok in Hst; [|lia]. rewrite (current_start_lookup s its R) in Hst.
  injection Hst as <-.
  destruct (Z.leb_spec (wl_n s * wl_duration s) (now - current_start s)) as [Hidle|Hlt].
  - apply mbind_ok in Hrun as ([] & s1 & H1 & Hrun).
    apply (clear_ring s its) in H1 as (R1 & C1 & M1 & E1); [|done].
    destruct C1 as (En & Ew & Ed).
    eapply (rebuild_run s1) in Hrun as [Hs (kept' & Mo' & Hin)];
      [|exact R1|rewrite M1; apply Mo].
    pose proof Hs as (En'&Ew'&Ed'&_&Es'&Ec'&_).
    eexists _, kept', (concat its).
    split; [by eapply ring_ok_same; [|exact R1]|]. split; [done|].
    split; [split_and!; congruence|]. split_and!.
    + by rewrite concat_replicate_nil.
    + apply Forall_forall. intros x Hx. pose proof (ring_old s its x R Hx). nia.
    + eapply Forall_impl; [exact Hin|]. cbn. intros x Hx. rewrite <- Ew. lia.
    + unfold current_start in *. rewrite Es', Ec', E1. lia.
    + unfold current_start in *. rewrite Es', Ec', E1. lia.
  - apply mbind_ok in Hrun as (r & s1 & H1 & Hrun).
    apply (rotate_loop_run _ now its) in H1 as
      (its' & gone & R1 & (En & Ew & Ed) & M1 & P1 & G1 & Hcur & Hr); [|done|done|nia].
    assert (Forall (λ x, it_time x < now - wl_window_ns s + wl_duration s) gone) as G1'.
    { eapply Forall_impl; [exact G1|]. cbn. intros x Hx. nia. }
    destruct r.
    + eapply (rebuild_run s1) in Hrun as [Hs (kept' & Mo' & Hin)];
        [|exact R1|rewrite M1; apply Mo].
      pose proof Hs as (En'&Ew'&Ed'&_&Es'&Ec'&_).
      eexists its', kept', gone.
      split; [by eapply ring_ok_same; [|exact R1]|]. split; [done|].
      split; [split_and!; congruence|]. split; [done|]. split; [done|].
      split_and!; unfold current_start in *; rewrite ?Es', ?Ec', ?Ed in *; try lia.
      eapply Forall_impl; [exact Hin|]. cbn. intros x Hx. rewrite <- Ew. lia.
    + injection Hrun as <-. destruct (Hr eq_refl) as (Hx & -> & ->).
      eexists its, kept, gone.
      split_and!; try done; try lia.
      * destruct Mo as [? ? (rest & Prest & Hrest) ?]. split; try done.
        exists rest. split; [done|]. eapply Forall_impl; [exact Hrest|].
        cbn. intros x [?|?]; [left; lia|by right].
      * eapply Forall_impl; [exact (mo_expires _ _ _ _ Mo)|]. cbn.
        intros x [E|(e & Ee & He1)]; [lia|]. rewrite Ee in Hx. cbn in Hx. lia.
Qed.

Lemma concat_snoc_at its i x :
  (Z.to_nat i < length its)%nat →
  concat (<[Z.to_nat i := items_at its i ++ [x]]> its) ≡ₚ x :: concat its.
Proof.
  intros Hl. unfold items_at. destruct (its !! Z.to_nat i) as [xs|] eqn:E;
    [|by apply lookup_ge_None in E; lia].
  cbn. rewrite <- (take_drop_middle its _ _ E) at 2.
  rewrite insert_take_drop by done. rewrite !concat_app. cbn.
  rewrite <- !app_assoc. cbn. by rewrite !Permutation_middle.
Qed.

(** Recording a call in the current slice and in the merge. *)
Lemma write_run c s its kept now L s' :
  ring_ok s its → merge_ok_at s its kept L →
  current_start s ≤ now < current_start s + wl_duration s →
  (s1 <- mget ;; on_bucket_at (wl_current s1) (slog_do c) ;;; on_merged (slog_do c)) s
    = (Ok tt, s') →
  let x := mk_item (current_start s) now c in
  ∃ its', ring_ok s' its' ∧ merge_ok_at s' its' (kept ++ [x]) L ∧ same_config s s' ∧
    concat its' ≡ₚ x :: concat its ∧ current_start s' = current_start s.
Proof.
  intros R Mo Hnow Hrun x. pose proof (ro_n _ _ R) as Hn. pose proof (ro_current _ _ R) as Hc.
  apply mbind_ok in Hrun as (s1 & s1' & Hg & Hrun). injection Hg as <- <-.
  apply mbind_ok in Hrun as ([] & s1 & H1 & H2).
  apply on_bucket_at_run in H1 as (b & b' & Eb & Er & ->); [|lia].
  unfold on_merged in H2. rewrite zoom_run in H2. injection H2 as Em <-.
  cbn [wl_merged set_buckets] in *.
  destruct (ro_denotes _ _ R (wl_current s) b ltac:(lia) Eb) as [Db Vb].
  pose proof (slog_do_valid c b b' (sd_wf _ _ _ Db) Er) as Hv.
  apply (slog_do_denotes c s0 _ _ _ Db) in Er.
  assert (slog_do c (wl_merged s) = (Ok tt, snd (slog_do c (wl_merged s)))) as Em'
    by (rewrite <- Em; by destruct (slog_do c (wl_merged s))).
  apply (slog_do_denotes c s0 _ _ _ (mo_merged _ _ _ _ Mo)) in Em'.
  pose proof (current_start_lookup s its R) as Hst0. set (i := wl_current s) in *.
  exists (<[Z.to_nat i := items_at its i ++ [x]]> its).
  assert (Z.to_nat i < length its)%nat as Hl by (rewrite (ro_items _ _ R); lia).
  pose proof (concat_snoc_at its i x Hl) as Hp.
  split; [|split; [|split_and!; done]].
  - constructor; cbn; rewrite ?length_insert; try apply R.
    + intros j b1 Hj Hb1. rewrite items_at_insert by (done || lia).
      destruct (decide (j = i)) as [->|Hne].
      * rewrite list_lookup_insert_eq in Hb1 by (by apply lookup_lt_Some in Eb).
        injection Hb1 as <-. rewrite fmap_app. split; [done|].
        apply Forall_app. split; [done|by constructor].
      * rewrite list_lookup_insert_ne in Hb1 by lia. by apply (ro_denotes _ _ R).
    + intros j st y Hj Hst. rewrite items_at_insert by (done || lia).
      destruct (decide (j = i)) as [->|Hne]; [|by apply (ro_times _ _ R)].
      intros [Hy|Hy%list_elem_of_singleton]%elem_of_app; [by apply (ro_times _ _ R i)|].
      subst y. cbn. rewrite Hst0 in Hst. injection Hst as <-. lia.
    + intros j st y Hj Hst. rewrite items_at_insert by (done || lia).
      destruct (decide (j = i)) as [->|Hne]; [|by apply (ro_ring _ _ R)].
      intros [Hy|Hy%list_elem_of_singleton]%elem_of_app; [by apply (ro_ring _ _ R i)|].
      subst y. cbn. assert (st = current_start s) as -> by (cbn in Hst; unfold i in *; congruence).
      unfold ring_dist. cbn. fold i. rewrite Z.sub_diag, Z.mod_0_l by lia. lia.
  - destruct Mo as [Dm Vm (rest & Pr & Hr) Hx]. constructor; cbn.
    + by rewrite fmap_app.
    + rewrite fmap_app. apply Forall_app. split; [done|by constructor].
    + exists rest. split; [|done]. rewrite Hp, Pr, <- app_assoc. cbn.
      by rewrite Permutation_middle.
    + apply Forall_app. split; [done|]. constructor; [by left|done].
Qed.

(** *** Histories *)

Inductive wl_op := WWrite (c : slog_call) | WRead.

Record timed_op := mk_timed { to_op : wl_op; to_now : Z; to_now' : Z }.

Definition wl_do (o : timed_op) : M wlog unit :=
  match to_op o with
  | WWrite c => wl_write (slog_do c) (to_now o) (to_now' o)
  | WRead => wl_rotate (to_now o) (to_now' o)
  end.

Definition wl_run (os : list timed_op) : M wlog unit := mfor os wl_do.

(** The clock never goes back, and the two readings of one call are closer
    than the slack of the ring. *)
Fixpoint clock_ok (slack last : Z) (os : list timed_op) : Prop :=
  match os with
  | [] => True
  | o :: os' =>
      last ≤ to_now o ∧ to_now o ≤ to_now' o ≤ to_now o + slack ∧
      clock_ok slack (to_now' o) os'
  end.

Definition history (os : list timed_op) : list (Z * slog_call) :=
  flat_map (λ o, match to_op o with WWrite c => [(to_now o, c)] | WRead => [] end) os.

Definition as_history (xs : list item) : list (Z * slog_call) :=
  (λ x, (it_time x, it_call x)) <$> xs.

(** The state between calls: [h] is everything written so far. *)
Definition wl_at (s : wlog) (h : list (Z * slog_call)) (now L : Z) (kept : list item) : Prop :=
  ∃ its gone, ring_ok s its ∧ merge_ok_at s its kept L ∧
    h ≡ₚ as_history (concat its ++ gone) ∧
    Forall (λ x, it_time x < L - wl_window_ns s + wl_duration s) gone ∧
    Forall (λ x, now ≤ it_start x + wl_window_ns s) kept ∧
    current_start s ≤ now ∧ now ≤ L.

Lemma wl_do_run o s h now L kept s' :
  wl_at s h now L kept → L ≤ to_now o →
  to_now o ≤ to_now' o ≤ to_now o + (wl_window_ns s - wl_duration s) →
  wl_do o s = (Ok tt, s') →
  same_config s s' ∧
  ∃ kept', wl_at s' (h ++ history [o]) (to_now o) (to_now' o) kept'.
Proof.
  intros (its & gone & R & Mo & Ph & Hg & Hk & Hcs & HL) Hlast Hclk Hrun.
  assert (∃ s1, wl_rotate (to_now o) (to_now' o) s = (Ok tt, s1) ∧
    match to_op o with
    | WWrite c => (s2 <- mget ;; on_bucket_at (wl_current s2) (slog_do c) ;;;
                    on_merged (slog_do c)) s1 = (Ok tt, s')
    | WRead => s' = s1
    end) as (s1 & Hrot & Hw).
  { unfold wl_do in Hrun. destruct (to_op o) as [c|]; [|by exists s'].
    apply mbind_ok in Hrun as ([] & s1 & H1 & H2). by exists s1. }
  destruct (wl_rotate_run s its kept L (to_now o) (to_now' o) s1 R Mo ltac:(lia) ltac:(lia) Hclk Hrot)
    as (its1 & kept1 & gone1 & R1 & Mo1 & C1 & P1 & G1 & K1 & Hcur).
  pose proof C1 as (En & Ew & Ed).
  assert (Forall (λ x, it_time x < to_now' o - wl_window_ns s + wl_duration s) (gone1 ++ gone)) as G2.
  { apply Forall_app. split; [eapply Forall_impl; [exact G1|]|eapply Forall_impl; [exact Hg|]];
      cbn; intros; lia. }
  assert (h ≡ₚ as_history (concat its1 ++ gone1 ++ gone)) as Ph1.
  { rewrite Ph. unfold as_history. apply fmap_Permutation. by rewrite P1, <- app_assoc. }
  unfold history. cbn [flat_map]. destruct (to_op o) as [c|] eqn:Eo.
  - rewrite <- Ed in Hcur.
    destruct (write_run c s1 its1 kept1 (to_now o) (to_now' o) s' R1 Mo1 Hcur Hw)
      as (its2 & R2 & Mo2 & (En2 & Ew2 & Ed2) & P2 & E2).
    split; [split_and!; congruence|].
    exists (kept1 ++ [mk_item (current_start s1) (to_now o) c]), its2, (gone1 ++ gone).
    rewrite Ew2, Ed2, Ew, Ed, E2. split_and!; try done; try lia.
    + rewrite Ph1. unfold as_history. rewrite !fmap_app, P2, !fmap_cons. cbn.
      by rewrite <- Permutation_cons_append.
    + apply Forall_app. split; [done|]. constructor; [|done]. cbn.
      pose proof (ro_slice _ _ R). lia.
  - subst s1. split; [done|]. exists kept1, its1, (gone1 ++ gone). rewrite Ew, Ed.
    split_and!; try done; try lia. by rewrite app_nil_r.
Qed.

Lemma wl_run_at os : ∀ s h now L kept s',
  wl_at s h now L kept → clock_ok (wl_window_ns s - wl_duration s) L os →
  wl_run os s = (Ok tt, s') →
  same_config s s' ∧
  ∃ kept', wl_at s' (h ++ history os) (default now (to_now <$> last os))
    (default L (to_now' <$> last os)) kept'.
Proof.
  induction os as [|o os IH]; intros s h now L kept s' Hat Hc Hrun.
  { injection Hrun as <-. rewrite app_nil_r. split; [done|]. by exists kept. }
  destruct Hc as (H1 & H2 & H3). apply mbind_ok in Hrun as ([] & s1 & Ho & Hrun).
  destruct (wl_do_run o s h now L kept s1 Hat H1 H2 Ho) as [(En & Ew & Ed) [kept1 Hat1]].
  rewrite <- Ew, <- Ed in H3.
  destruct (IH s1 _ _ _ _ s' Hat1 H3 Hrun) as [(En' & Ew' & Ed') [kept' Hat']].
  split; [split_and!; congruence|]. exists kept'.
  assert (h ++ history (o :: os) = (h ++ history [o]) ++ history os) as ->.
  { rewrite <- app_assoc. f_equal. unfold history. cbn. by rewrite app_nil_r. }
  rewrite last_cons. by destruct (last os).
Qed.
End window_invariant.

(** ** A new windowed log *)

Lemma parse_window_pos `{FloatParser} window x :
  parse_window window = Ok x → isfinite x = true ∧ 1 ≤ fval x.
Proof.
  intros E. unfold parse_window in E. apply res_bind_ok in E as (r & _ & E).
  destruct (isnan r) eqn:En; [done|]. destruct (isinf r) eqn:Ei; [done|]. cbn [orb] in E.
  destruct (fle r 0%float) eqn:Er; [done|]. injection E as <-.
  split.
  - unfold isfinite, PrimFloat.is_finite, isnan, isinf in *. by rewrite En, Ei.
  - apply not_fle in Er; [|done..]. apply flt_val in Er; [|done..].
    rewrite fval_zero in Er. lia.
Qed.

(** A positive number of seconds is at least one nanosecond. *)
Lemma window_ns_pos x w :
  isfinite x = true → 1 ≤ fval x → py_ceil (x * 1000000000)%float = Ok w → 1 ≤ w.
Proof.
  intros Fx Hx Hw.
  assert (isfinite (x * 1000000000)%float = true) as Fm.
  { unfold py_ceil in Hw. apply isfinite_SF.
    destruct (Prim2SF (x * 1000000000)%float) as [s|s| |s m e]; try done; eauto 8. }
  assert (isfinite 1000000000%float = true) as F9 by done.
  rewrite py_ceil_val in Hw by done. injection Hw as <-.
  destruct (fval_mul x 1000000000%float Fx F9) as [V N].
  assert (fval 1000000000%float = 1000000000 * 2 ^ 1074) as E9 by done. rewrite E9 in V.
  assert (Rnd (1 * 2 ^ 1074) = 1) as E1.
  { apply Rnd_exact. exists 1, 0. by split_and!. }
  assert (1 ≤ fval (x * 1000000000)%float) as Hpos.
  { rewrite V, <- E1 at 1. apply Rnd_mono. assert (0 < 2 ^ 1074) by done. nia. }
  assert (- fval (x * 1000000000)%float / 2 ^ 1074 < 0); [|lia].
  apply Z.div_lt_upper_bound; [done|]. lia.
Qed.

Lemma wl_init_at `{Libm} `{FloatParser} window n a p w d now s0 s :
  slog_init a p w d false = Ok s0 → wl_init window n a p w d now = Ok s →
  wl_at s0 s [] now now [] ∧ 0 < wl_duration s.
Proof.
  intros E0. unfold wl_init. destruct (Z.leb_spec n 0) as [|Hn]; [done|].
  destruct (parse_window window) as [x|] eqn:Ex; [|done]. cbn [res_bind].
  destruct (parse_window_pos _ _ Ex) as [Fx Hx].
  destruct (py_ceil _) as [wn|] eqn:Ew; [|done]. cbn [res_bind].
  pose proof (window_ns_pos _ _ Fx Hx Ew) as Hw.
  rewrite E0. rewrite (res_mapM_ok _ (λ _, s0)) by done. cbn [res_bind]. intros [= <-].
  pose proof (slog_init_denotes _ _ _ _ _ _ E0) as D0.
  set (dur := (wn + n - 1) / n).
  assert (0 < dur) by (apply Z.div_str_pos; lia).
  assert (wn ≤ n * dur).
  { pose proof (Z.mod_pos_bound (wn + n - 1) n Hn).
    pose proof (Z.div_mod (wn + n - 1) n ltac:(lia)). lia. }
  assert (dur ≤ wn) by (apply Z.div_le_upper_bound; nia).
  split; [|done]. exists (replicate (Z.to_nat n) []), [].
  assert (current_start (mk_wlog x n wn dur ((λ _, s0) <$> py_range n)
    (replicate (Z.to_nat n) now) 0 s0 None) = now) as Ecs.
  { unfold current_start. cbn. destruct (Z.to_nat n) eqn:E; [lia|done]. }
  split; [|split; [|rewrite concat_replicate_nil; by split_and!; rewrite ?Ecs]].
  - constructor; cbn; try done; rewrite ?length_fmap, ?length_seqZ, ?length_replicate;
      try done; try lia.
    + unfold py_range. by rewrite length_seqZ.
    + intros i b Hi Hb. rewrite items_at_nil. split; [|constructor].
      apply list_lookup_fmap_Some in Hb as (? & -> & _). done.
    + intros i st y Hi _. rewrite items_at_nil. by intros ?%elem_of_nil.
    + intros i st y Hi _. rewrite items_at_nil. by intros ?%elem_of_nil.
  - constructor; cbn; try done. exists []. by rewrite concat_replicate_nil.
Qed.

(** ** Properties *)


Definition plain_parser : FloatParser := λ _, Raise (ValueError "could not convert string to float").

Definition demo_plain : slog :=
  mk_slog (sl_latency demo_log) (sl_events demo_log) (sl_uniques demo_log) 0 false.

Definition demo_wlog : wlog :=
  mk_wlog 1 2 1000000000 500000000 [demo_plain; demo_plain] [0; 0] 0 demo_plain None.

Definition demo_ops : list timed_op :=
  [mk_timed (WWrite (SLatency 1)) 10 20; mk_timed (WWrite (SEvent (KStr "login") 2)) 600000000 600000001;
   mk_timed (WWrite (SLatency 4)) 1100000000 1100000007; mk_timed WRead 1500000000 1500000000].

