(* ===== verification/Checkpoint.v ===== *)
(** * Checkpoints ([to_dict], [from_dict] of [facade.py])

    Serialisation of a log to a JSON-like dictionary and the validating
    reader.  Proved: whatever [from_dict] accepts is a well-formed log, every
    rejection is a [ValueError], and reading back a written checkpoint gives
    the same log, also after a trip through JSON text (which turns the integer
    bucket keys into strings). *)

From Stdlib Require Import PrimFloat.
From S2P Require Import Prelude PyFloat FloatRound Hashing CountMin HyperLogLog DDSketch PyVal StreamLog.

#[local] Open Scope Z_scope.
#[local] Open Scope py_scope.
#[local] Set Warnings "-inexact-float".

Section Checkpoint.
Context `{Libm}.

(** ** Writing *)

Definition buckets_to_val (d : gmap Z Z) : pyval :=
  VDict ((λ kv, (VInt kv.1, VInt kv.2)) <$> map_to_list d).

Definition extremum_to_val (s : dds) (x : float) : pyval :=
  if 0 <? dds_count s then VFloat x else VNone.

Definition latency_to_val (s : dds) : pyval :=
  VDict [(VStr "alpha", VFloat (dds_alpha s));
         (VStr "positive", buckets_to_val (dds_positive s));
         (VStr "negative", buckets_to_val (dds_negative s));
         (VStr "zero_count", VInt (dds_zero_count s));
         (VStr "count", VInt (dds_count s));
         (VStr "min", extremum_to_val s (dds_min s));
         (VStr "max", extremum_to_val s (dds_max s))].

Definition uniques_to_val (h : hll) : pyval :=
  VDict [(VStr "precision", VInt (hll_p h));
         (VStr "registers", VList (VInt <$> hll_registers h))].

Definition events_to_val (c : cms) : pyval :=
  VDict [(VStr "width", VInt (cms_width c));
         (VStr "depth", VInt (cms_depth c));
         (VStr "table", VList ((λ row, VList (VInt <$> row)) <$> cms_table c));
         (VStr "total", VInt (cms_total c))].

Definition slog_to_dict (s : slog) : pyval :=
  VDict [(VStr "version", VInt 1);
         (VStr "total", VInt (sl_total s));
         (VStr "deterministic", VBool (sl_deterministic s));
         (VStr "latency", latency_to_val (sl_latency s));
         (VStr "uniques", uniques_to_val (sl_uniques s));
         (VStr "events", events_to_val (sl_events s))].

(** ** Reading *)

(** [type(v) is int and lo <= v <= hi] *)
Definition int_within (lo hi : Z) (v : pyval) (msg : string) : res Z :=
  match v with
  | VInt z => if (lo <=? z) && (z <=? hi) then Ok z else Raise (ValueError msg)
  | _ => Raise (ValueError msg)
  end.

(** [0 < alpha < 1] on a value of any type: an [int] (or [bool]) is never
    strictly between; the comparison of other types is a [TypeError]. *)
Definition read_alpha (v : pyval) : res float :=
  match v with
  | VFloat a =>
      if flt 0%float a && flt a 1%float then Ok a
      else Raise (ValueError "DDSketch alpha must be in (0, 1)")
  | VInt _ | VBool _ => Raise (ValueError "DDSketch alpha must be in (0, 1)")
  | _ => Raise (TypeError "'<' not supported")
  end.

(** The multiplier recomputed from [alpha]. *)
Definition alpha_multiplier (alpha : float) : res float :=
  let gamma := ((1.0 + alpha) / (1.0 - alpha))%float in
  let? l := py_log gamma in
  if feq l 0%float then Raise (ZeroDivisionError "float division by zero")
  else Ok (1.0 / l)%float.

(** [math.ceil(math.log(x) * multiplier)] *)
Definition index_of (multiplier x : float) : res Z :=
  let? l := py_log x in py_ceil (l * multiplier)%float.

Definition bucket_key (k : pyval) : res Z :=
  match k with
  | VInt z => Ok z
  | VStr s =>
      match canonical_int s with
      | Some z => Ok z
      | None => Raise (ValueError "DDSketch bucket keys must be convertible to int")
      end
  | _ => Raise (ValueError "DDSketch bucket keys must be int or str")
  end.

(** One iteration of the loop of [validate_buckets]. *)
Definition validate_bucket (min_idx max_idx : Z) (res : gmap Z Z)
    (kv : pyval * pyval) : Prelude.res (gmap Z Z) :=
  let? ik := bucket_key kv.1 in
  if bool_decide (is_Some (res !! ik))
  then Raise (ValueError "Duplicate canonical bucket index")
  else
    let? v := int_within 1 MAX_INT64 kv.2
      "DDSketch bucket counts must be positive int64 values" in
    if (ik <? min_idx) || (max_idx <? ik)
    then Raise (ValueError "DDSketch bucket index out of valid range")
    else Ok (<[ik := v]> res).

Definition validate_buckets (min_idx max_idx : Z) (b_dict : pydict)
  : res (gmap Z Z) :=
  res_fold (validate_bucket min_idx max_idx) b_dict ∅.

(** [max(d.keys())] and [min(d.keys())] of a non-empty dictionary. *)
Definition key_max (d : gmap Z Z) : option Z := last (sorted_keys d).
Definition key_min (d : gmap Z Z) : option Z := head (sorted_keys d).

(** An extremum: a finite number.  An [int] stands for the float of the same
    value. *)
Definition read_extremum (v : pyval) : res float :=
  let? x := match v with
            | VFloat f => Ok f
            | VInt z => py_float_of_Z z
            | _ => Raise (ValueError "DDSketch min/max must be numeric")
            end in
  if isfinite x then Ok x
  else Raise (ValueError "DDSketch min/max must be finite numbers").

(** [math.ceil(math.log(x) * multiplier) != k] *)
Definition index_differs (multiplier x : float) (k : option Z) : res bool :=
  let? i := index_of multiplier x in Ok (bool_decide (Some i ≠ k)).

(** The consistency of the extrema with the buckets. *)
Definition check_positive (multiplier lat_min lat_max : float)
    (positive : gmap Z Z) : res unit :=
  if bool_decide (positive = ∅) then Ok tt
  else if fle lat_max 0%float
  then Raise (ValueError "DDSketch extrema contradict positive buckets")
  else
    let? bad := index_differs multiplier lat_max (key_max positive) in
    let? _ := fail_if bad (ValueError "DDSketch max contradicts positive buckets") in
    if flt 0%float lat_min then
      let? bad := index_differs multiplier lat_min (key_min positive) in
      fail_if bad (ValueError "DDSketch min contradicts positive buckets")
    else Ok tt.

Definition check_negative (multiplier lat_min lat_max : float)
    (negative : gmap Z Z) : res unit :=
  if bool_decide (negative = ∅) then Ok tt
  else if fle 0%float lat_min
  then Raise (ValueError "DDSketch extrema contradict negative buckets")
  else
    let? bad := index_differs multiplier (- lat_min)%float (key_max negative) in
    let? _ := fail_if bad (ValueError "DDSketch min contradicts negative buckets") in
    if flt lat_max 0%float then
      let? bad := index_differs multiplier (- lat_max)%float (key_min negative) in
      fail_if bad (ValueError "DDSketch max contradicts negative buckets")
    else Ok tt.

Definition check_zeros (lat_min lat_max : float) (positive negative : gmap Z Z)
    (zero_count : Z) : res unit :=
  let? _ := fail_if ((0 <? zero_count) && (flt 0%float lat_min || flt lat_max 0%float))
    (ValueError "DDSketch extrema contradict zero buckets") in
  let? _ := fail_if (bool_decide (positive = ∅) && flt 0%float lat_max)
    (ValueError "DDSketch max > 0 but no positive buckets") in
  let? _ := fail_if (bool_decide (negative = ∅) && flt lat_min 0%float)
    (ValueError "DDSketch min < 0 but no negative buckets") in
  let? _ := fail_if (feq lat_max 0%float && (zero_count =? 0))
    (ValueError "DDSketch max is 0 but zero_count is 0") in
  fail_if (feq lat_min 0%float && (zero_count =? 0))
    (ValueError "DDSketch min is 0 but zero_count is 0").

Definition is_none (v : option pyval) : bool :=
  match v with None | Some VNone => true | _ => false end.

(** The extrema of a checkpoint: the two floats when the sketch is not empty. *)
Definition check_extrema (multiplier : float) (count zero_count : Z)
    (positive negative : gmap Z Z) (vmin vmax : option pyval)
  : res (option (float * float)) :=
  if 0 <? count then
    let? _ := fail_if (is_none vmin || is_none vmax)
      (ValueError "DDSketch min/max cannot be None when count > 0") in
    let? lat_min := read_extremum (default VNone vmin) in
    let? lat_max := read_extremum (default VNone vmax) in
    let? _ := fail_if (flt lat_max lat_min)
      (ValueError "DDSketch min cannot be greater than max") in
    let? _ := check_positive multiplier lat_min lat_max positive in
    let? _ := check_negative multiplier lat_min lat_max negative in
    let? _ := check_zeros lat_min lat_max positive negative zero_count in
    Ok (Some (lat_min, lat_max))
  else
    let? _ := fail_if (negb (is_none vmin && is_none vmax))
      (ValueError "Empty DDSketch must have None for extrema") in
    Ok None.

Record latency_data := mk_latency_data {
  ld_alpha : float;
  ld_positive : gmap Z Z;
  ld_negative : gmap Z Z;
  ld_zero_count : Z;
  ld_count : Z;
  ld_extrema : option (float * float)
}.

Definition read_latency (latency : pydict) : res latency_data :=
  let? va := dict_item latency "alpha" in
  let? alpha := read_alpha va in
  let? vz := dict_item latency "zero_count" in
  let? vc := dict_item latency "count" in
  let? zero_count := int_within 0 MAX_INT64 vz
    "DDSketch zero_count must be a non-negative int64" in
  let? count := int_within 0 MAX_UINT64 vc
    "DDSketch count must be a non-negative integer within the uint64 range" in
  let? pos_data := expect (dict_get latency "positive" ≫= as_dict)
    "DDSketch positive/negative buckets must be dictionaries" in
  let? neg_data := expect (dict_get latency "negative" ≫= as_dict)
    "DDSketch positive/negative buckets must be dictionaries" in
  let? multiplier := alpha_multiplier alpha in
  let? max_idx := index_of multiplier float_max in
  let? min_idx := index_of multiplier float_tiny in
  let? positive := validate_buckets min_idx max_idx pos_data in
  let? negative := validate_buckets min_idx max_idx neg_data in
  let? _ := fail_if (MAX_BINS <? dict_len positive)
    (ValueError "DDSketch positive buckets exceed bounded capacity") in
  let? _ := fail_if (MAX_BINS <? dict_len negative)
    (ValueError "DDSketch negative buckets exceed bounded capacity") in
  let? _ := fail_if (negb (count =? zero_count + dict_sum positive + dict_sum negative))
    (ValueError "DDSketch bucket counts do not sum to total count") in
  let? extrema := check_extrema multiplier count zero_count positive negative
    (dict_get latency "min") (dict_get latency "max") in
  Ok (mk_latency_data alpha positive negative zero_count count extrema).

(** [precision] and [registers]. *)
Definition read_uniques (uniques : pydict) : res (Z * list Z) :=
  let? vp := dict_item uniques "precision" in
  let? precision := int_within 4 18 vp
    "HyperLogLog precision must be an integer in [4, 18]" in
  let? vr := dict_item uniques "registers" in
  let? regs := expect (as_list vr) "HyperLogLog registers must be a list" in
  let? _ := fail_if (negb (Z.of_nat (length regs) =? Z.shiftl 1 precision))
    (ValueError "HyperLogLog registers length") in
  let? registers := res_mapM (λ r, int_within 0 (64 - precision + 1) r
    "HyperLogLog register values must be integers in range") regs in
  Ok (precision, registers).

(** A row of the table: [width] cells summing to the total. *)
Definition read_row (width events_total : Z) (v : pyval) : res (list Z) :=
  let? row := expect (as_list v) "CountMinSketch table row must be a list" in
  let? _ := fail_if (negb (Z.of_nat (length row) =? width))
    (ValueError "CountMinSketch table row must be a list") in
  let? cells := res_mapM (λ c, int_within 0 MAX_INT64 c
    "CountMinSketch cell values must be non-negative int64 values") row in
  let? _ := fail_if (negb (sum_Z cells =? events_total))
    (ValueError "CountMinSketch row sum does not match events total") in
  Ok cells.

Record events_data := mk_events_data {
  ed_width : Z;
  ed_depth : Z;
  ed_total : Z;
  ed_table : list (list Z)
}.

(** [type(v) is int and v >= 1] *)
Definition read_dimension (v : pyval) (msg : string) : res Z :=
  match v with
  | VInt z => if z <? 1 then Raise (ValueError msg) else Ok z
  | _ => Raise (ValueError msg)
  end.

Definition read_events (events : pydict) : res events_data :=
  let? vw := dict_item events "width" in
  let? vd := dict_item events "depth" in
  let? width := read_dimension vw "CountMinSketch width must be >= 1" in
  let? depth := read_dimension vd "CountMinSketch depth must be >= 1" in
  let? _ := fail_if (MAX_CMS_CELLS / depth <? width)
    (ValueError "CountMinSketch dimensions exceed cells") in
  let? vt := dict_item events "total" in
  let? events_total := int_within 0 MAX_INT64 vt
    "CountMinSketch total must be a non-negative int64" in
  let? vtab := dict_item events "table" in
  let? rows := expect (as_list vtab) "CountMinSketch table must be a list" in
  let? _ := fail_if (negb (Z.of_nat (length rows) =? depth))
    (ValueError "CountMinSketch table must be a list") in
  let? table := res_mapM (read_row width events_total) rows in
  Ok (mk_events_data width depth events_total table).

(** The restored fields, over a new log of the same configuration. *)
Definition restore (log : slog) (total : Z) (l : latency_data)
    (registers : list Z) (e : events_data) : slog :=
  let d := sl_latency log in
  mk_slog
    (mk_dds (dds_alpha d) (dds_gamma d) (dds_log_gamma d) (dds_multiplier d)
       (ld_positive l) (ld_negative l) (ld_zero_count l) (ld_count l)
       (from_option fst (dds_min d) (ld_extrema l))
       (from_option snd (dds_max d) (ld_extrema l)))
    (set_cms_total (ed_total e) (set_cms_table (ed_table e) (sl_events log)))
    (set_registers registers (sl_uniques log))
    total (sl_deterministic log).

(** The body of the [try] of [from_dict]. *)
Definition from_dict_body (data : pydict) : res slog :=
  let? _ := match dict_get data "version" with
            | Some (VInt 1) => Ok tt
            | _ => Raise (ValueError "Unsupported serialization version")
            end in
  let? vt := dict_item data "total" in
  let? total := int_within 0 MAX_UINT64 vt
    "StreamLog total must be an unsigned 64-bit integer" in
  let? deterministic := expect (as_bool (default (VBool false) (dict_get data "deterministic")))
    "deterministic must be a boolean" in
  let? vl := dict_item data "latency" in
  let? latency := expect (as_dict vl) "latency data must be a dictionary" in
  let? l := read_latency latency in
  let? vu := dict_item data "uniques" in
  let? uniques := expect (as_dict vu) "uniques data must be a dictionary" in
  let? u := read_uniques uniques in
  let precision := u.1 in
  let registers := u.2 in
  let? ve := dict_item data "events" in
  let? events := expect (as_dict ve) "events data must be a dictionary" in
  let? e := read_events events in
  let? _ := fail_if (negb (total =? ld_count l + ed_total e))
    (ValueError "StreamLog total does not match latency count + events total") in
  let? log := slog_init (ld_alpha l) precision (ed_width e) (ed_depth e) deterministic in
  Ok (restore log total l registers e).

(** [except (KeyError, TypeError, ValueError, OverflowError,
    ZeroDivisionError)] *)
Definition malformed (e : exn) : exn :=
  match e with
  | KeyError _ | TypeError _ | ValueError _ | OverflowError _
  | ZeroDivisionError _ => ValueError "Malformed StreamLog state"
  | e => e
  end.

Definition slog_from_dict (data : pyval) : res slog :=
  match data with
  | VDict d =>
      match from_dict_body d with
      | Ok s => Ok s
      | Raise e => Raise (malformed e)
      end
  | _ => Raise (ValueError "StreamLog data must be a dictionary")
  end.

(** ** Whatever is accepted is well-formed *)

Lemma int_within_ok lo hi v msg z :
  int_within lo hi v msg = Ok z → v = VInt z ∧ lo ≤ z ≤ hi.
Proof.
  destruct v; simpl; try done.
  destruct (Z.leb_spec lo z0), (Z.leb_spec z0 hi); simpl; try done.
  by intros [= ->].
Qed.

Lemma expect_ok {A} (o : option A) msg a : expect o msg = Ok a → o = Some a.
Proof. destruct o; simpl; [by intros [= ->]|done]. Qed.

(** Bucket counts are positive 64-bit integers. *)
Definition store_ok (d : gmap Z Z) : Prop := ∀ k v, d !! k = Some v → 1 ≤ v ≤ MAX_INT64.

Lemma validate_buckets_ok lo hi b d :
  validate_buckets lo hi b = Ok d → store_ok d.
Proof.
  unfold validate_buckets.
  assert (store_ok ∅) as H0 by (intros k v Hk; by rewrite lookup_empty in Hk).
  revert H0. generalize (∅ : gmap Z Z). induction b as [|kv b IH]; intros acc Hacc Hr.
  { by injection Hr as <-. }
  simpl in Hr. apply res_bind_ok in Hr as (acc' & H1 & H2).
  apply (IH acc'); [|done]. unfold validate_bucket in H1. inv_res H1.
  match goal with E : int_within _ _ _ _ = Ok _ |- _ =>
    apply int_within_ok in E as [_ Hv] end. intros k v.
  destruct (decide (a = k)) as [->|Hne].
  - rewrite lookup_insert_eq. by intros [= <-].
  - rewrite lookup_insert_ne by done. apply Hacc.
Qed.

Lemma store_ok_bounds d k : store_ok d → 0 ≤ get0 d k ≤ MAX_INT64.
Proof.
  intros Hd. unfold get0. destruct (d !! k) as [v|] eqn:E; simpl; [|done].
  specialize (Hd k v E). lia.
Qed.

Lemma read_extremum_ok v x : read_extremum v = Ok x → isfinite x = true.
Proof.
  unfold read_extremum. intros E. apply res_bind_ok in E as (y & _ & E).
  destruct (isfinite y) eqn:Ef; [|done]. by injection E as <-.
Qed.

Definition extrema_num (o : option (float * float)) : Prop :=
  match o with Some (a, b) => num a ∧ num b | None => True end.

Lemma check_extrema_ok m c z p n vmin vmax o :
  check_extrema m c z p n vmin vmax = Ok o → extrema_num o.
Proof.
  unfold check_extrema. destruct (0 <? c); intros E; inv_res E; [|done].
  apply read_extremum_ok in E2, E1. split; by apply isfinite_num.
Qed.

(** Turns the passed tests of a reader into facts. *)
Ltac use_checks :=
  repeat match goal with
  | H : int_within _ _ _ _ = Ok _ |- _ => apply int_within_ok in H as [_ H]
  | H : validate_buckets _ _ _ = Ok _ |- _ => apply validate_buckets_ok in H
  | H : check_extrema _ _ _ _ _ _ _ = Ok _ |- _ => apply check_extrema_ok in H
  | H : negb _ = false |- _ => apply negb_false_iff, Z.eqb_eq in H
  | H : (_ <? _) = false |- _ => apply Z.ltb_ge in H
  end.

Record latency_ok_data (l : latency_data) : Prop := {
  lok_positive : store_ok (ld_positive l) ∧ dict_len (ld_positive l) ≤ MAX_BINS;
  lok_negative : store_ok (ld_negative l) ∧ dict_len (ld_negative l) ≤ MAX_BINS;
  lok_zero : 0 ≤ ld_zero_count l ≤ MAX_INT64;
  lok_count : 0 ≤ ld_count l ≤ MAX_UINT64;
  lok_balance : ld_count l =
    ld_zero_count l + dict_sum (ld_positive l) + dict_sum (ld_negative l);
  lok_extrema : extrema_num (ld_extrema l)
}.

Lemma read_latency_ok d l : read_latency d = Ok l → latency_ok_data l.
Proof.
  unfold read_latency. intros E. inv_res E. subst.
  use_checks.
  split; simpl; done.
Qed.

Lemma read_uniques_ok d p regs :
  read_uniques d = Ok (p, regs) →
  4 ≤ p ≤ 18 ∧ Z.of_nat (length regs) = 2 ^ p ∧
  Forall (λ r, 0 ≤ r ≤ 64 - p + 1) regs.
Proof.
  unfold read_uniques. intros E. inv_res E. use_checks.
  match goal with E : res_mapM _ _ = Ok _ |- _ => rename E into Em end.
  match goal with E : Z.of_nat _ = Z.shiftl _ _ |- _ => rename E into El end.
  rewrite Z.shiftl_1_l in El. split; [done|]. split.
  - by rewrite (res_mapM_length _ _ _ Em).
  - eapply res_mapM_Forall; [|exact Em]. intros x b Hb.
    by apply int_within_ok in Hb as [_ ?].
Qed.

Lemma read_row_ok w t v row : read_row w t v = Ok row → row_wf w t row.
Proof.
  unfold read_row. intros E. inv_res E. use_checks.
  match goal with E : res_mapM _ _ = Ok _ |- _ => rename E into Em end.
  split; [by rewrite (res_mapM_length _ _ _ Em)|]. split; [|done].
  eapply res_mapM_Forall; [|exact Em]. intros x b Hb.
  apply int_within_ok in Hb as [_ ?]. lia.
Qed.

Lemma read_events_ok d e :
  read_events d = Ok e →
  0 ≤ ed_total e ≤ MAX_INT64 ∧ Z.of_nat (length (ed_table e)) = ed_depth e ∧
  Forall (row_wf (ed_width e) (ed_total e)) (ed_table e).
Proof.
  unfold read_events. intros E. inv_res E. use_checks.
  match goal with E : res_mapM _ _ = Ok _ |- _ => rename E into Em end.
  simpl. split; [done|]. split; [by rewrite (res_mapM_length _ _ _ Em)|].
  eapply res_mapM_Forall; [|exact Em]. intros v row. apply read_row_ok.
Qed.

Lemma slog_init_ok a p w d det s :
  slog_init a p w d det = Ok s →
  dds_init a = Ok (sl_latency s) ∧ cms_init w d = Ok (sl_events s) ∧
  hll_init p = Ok (sl_uniques s) ∧ sl_total s = 0 ∧ sl_deterministic s = det.
Proof.
  unfold slog_init. destruct (_ || _); [done|]. destruct (_ <? w); [done|].
  intros E. by inv_res E.
Qed.

Lemma cms_init_dims w d c :
  cms_init w d = Ok c → cms_width c = w ∧ cms_depth c = d ∧
  cms_seeds c = splitmix_seq (Z.to_nat d) 42.
Proof. unfold cms_init. intros E. by inv_res E. Qed.

Lemma restore_wf log total l p regs e det :
  slog_init (ld_alpha l) p (ed_width e) (ed_depth e) det = Ok log →
  latency_ok_data l →
  4 ≤ p ≤ 18 ∧ Z.of_nat (length regs) = 2 ^ p ∧
    Forall (λ r, 0 ≤ r ≤ 64 - p + 1) regs →
  0 ≤ ed_total e ≤ MAX_INT64 ∧ Z.of_nat (length (ed_table e)) = ed_depth e ∧
    Forall (row_wf (ed_width e) (ed_total e)) (ed_table e) →
  total = ld_count l + ed_total e → total ≤ MAX_UINT64 →
  slog_wf (restore log total l regs e).
Proof.
  intros Hi [[P1 P2] [N1 N2] Z0 C0 B0 X0] (Hp & Hl & Hr) (Et & El & Er) Htot Hmax.
  apply slog_init_ok in Hi as (Id & Ic & Ih & _ & _).
  pose proof (dds_init_empty _ _ Id) as (_&_&_&_&Emin&Emax).
  pose proof (cms_init_wf _ _ _ Ic) as Wc.
  destruct (cms_init_dims _ _ _ Ic) as (Ew & Ed & Es).
  apply hll_init_wf in Ih as [_ Eh].
  split; simpl; [|split; simpl|split; simpl| |]; rewrite ?Ew, ?Ed, ?Eh; try done.
  - split; [|split]; [| |done].
    + split_and!; simpl; try (intros k; by apply store_ok_bounds); try lia.
      * destruct (ld_extrema l) as [[a b]|]; simpl; [apply X0|by rewrite Emin].
      * destruct (ld_extrema l) as [[a b]|]; simpl; [apply X0|by rewrite Emax].
    + split_and!; simpl; try lia; (split; [done|intros k; by apply store_ok_bounds]).
  - rewrite <- Ew. apply Wc.
  - rewrite <- Ed. apply Wc.
Qed.

Lemma from_dict_wf v s : slog_from_dict v = Ok s → slog_wf s.
Proof.
  unfold slog_from_dict. destruct v as [| | | | | |data]; try done.
  destruct (from_dict_body data) as [s'|e] eqn:E; [|done]. intros [= ->].
  unfold from_dict_body in E. inv_res E. use_checks.
  match goal with E : slog_init _ _ _ _ _ = Ok _ |- _ => rename E into Ei end.
  match goal with E : read_latency _ = Ok _ |- _ => apply read_latency_ok in E end.
  match goal with E : read_events _ = Ok _ |- _ => apply read_events_ok in E end.
  match goal with u : Z * list Z, E : read_uniques _ = Ok _ |- _ =>
    destruct u; apply read_uniques_ok in E end.
  eapply restore_wf; try done. lia.
Qed.

(** ** Every rejection is a [ValueError] *)

(** The exceptions [from_dict] turns into [ValueError]. *)
Definition handled (e : exn) : Prop :=
  match e with
  | KeyError _ | TypeError _ | ValueError _ | OverflowError _
  | ZeroDivisionError _ => True
  | _ => False
  end.

Lemma handled_item d k : raises handled (dict_item d k).
Proof. unfold dict_item. by destruct (dict_get d k). Qed.
Lemma handled_int lo hi v msg : raises handled (int_within lo hi v msg).
Proof. destruct v; simpl; try done. by destruct (_ && _). Qed.
Lemma handled_expect {A} (o : option A) msg : raises handled (expect o msg).
Proof. by destruct o. Qed.
Lemma handled_log x : raises handled (py_log x).
Proof. unfold py_log. by destruct (fle _ _). Qed.
Lemma handled_ceil x : raises handled (py_ceil x).
Proof. unfold py_ceil. by destruct (FloatOps.Prim2SF x). Qed.
Lemma handled_index m x : raises handled (index_of m x).
Proof. apply raises_bind; [apply handled_log|intros; apply handled_ceil]. Qed.
Lemma handled_fail_if b msg : raises handled (fail_if b (ValueError msg)).
Proof. by destruct b. Qed.
Lemma handled_float z : raises handled (py_float_of_Z z).
Proof. unfold py_float_of_Z. by destruct (isinf _). Qed.
Lemma handled_dds_init a : raises handled (dds_init a).
Proof.
  unfold dds_init. destruct (negb _); [done|].
  apply raises_bind; [apply handled_log|]. intros l. by destruct (feq l 0%float).
Qed.
Lemma handled_cms_init w d : raises handled (cms_init w d).
Proof. unfold cms_init. by destruct (w <=? 0), (d <=? 0). Qed.
Lemma handled_hll_init p : raises handled (hll_init p).
Proof. unfold hll_init. by destruct (negb _). Qed.

#[local] Hint Resolve handled_item handled_int handled_expect handled_log
  handled_ceil handled_index handled_fail_if handled_float handled_dds_init
  handled_cms_init handled_hll_init : py.

(** A reader built from the checks above raises handled exceptions only. *)
Ltac solve_handled :=
  repeat first
    [ done
    | solve [auto with py]
    | progress intros
    | apply raises_bind
    | apply raises_mapM
    | apply raises_fold
    | match goal with |- raises _ (match ?x with _ => _ end) => destruct x end
    | match goal with |- raises _ (if ?x then _ else _) => destruct x end ].

Lemma handled_slog_init a p w d det : raises handled (slog_init a p w d det).
Proof. unfold slog_init. solve_handled. Qed.
Lemma handled_extremum v : raises handled (read_extremum v).
Proof. unfold read_extremum. solve_handled. Qed.
#[local] Hint Resolve handled_slog_init handled_extremum : py.
Lemma handled_buckets lo hi b : raises handled (validate_buckets lo hi b).
Proof. unfold validate_buckets, validate_bucket, bucket_key. solve_handled. Qed.
Lemma handled_extrema m c z p n a b : raises handled (check_extrema m c z p n a b).
Proof.
  unfold check_extrema, check_positive, check_negative, check_zeros, index_differs.
  solve_handled.
Qed.
#[local] Hint Resolve handled_buckets handled_extrema : py.
Lemma handled_latency d : raises handled (read_latency d).
Proof. unfold read_latency, read_alpha, alpha_multiplier. solve_handled. Qed.
Lemma handled_uniques d : raises handled (read_uniques d).
Proof. unfold read_uniques. solve_handled. Qed.
Lemma handled_events d : raises handled (read_events d).
Proof. unfold read_events, read_dimension, read_row. solve_handled. Qed.
#[local] Hint Resolve handled_latency handled_uniques handled_events : py.

Lemma from_dict_value_error v e :
  slog_from_dict v = Raise e → ∃ msg, e = ValueError msg.
Proof.
  unfold slog_from_dict. destruct v as [| | | | | |data]; try (intros [= <-]; eauto).
  assert (raises handled (from_dict_body data)) as Hh
    by (unfold from_dict_body; solve_handled).
  destruct (from_dict_body data) as [s|e']; [done|]. intros [= <-].
  destruct e'; try done; simpl; eauto.
Qed.

(** ** Reading back what was written *)

Context `{!LibmLaws H}.

Section filled.
(** A latency sketch filled from empty by accepted items. *)
Context (d0 : dds) (ys : list (float * Z)).
Context (He : dds_empty d0) (Hg : good_items ys).
Context (Ha : ∀ y, y ∈ ys → dds_accepts d0 y.1).
Context (Hm : good_multiplier d0).

Let s := puts d0 ys.

Lemma accepts_has_bucket v : dds_accepts d0 v → ∃ b, dds_bucket d0 v = Ok b.
Proof using Type. unfold dds_accepts. destruct (dds_bucket d0 v); [eauto|done]. Qed.

Lemma bump_lookup k n d j v :
  bump k n d !! j = Some v → (j = k ∧ v = get0 d k + n) ∨ d !! j = Some v.
Proof using Type.
  unfold bump. destruct (decide (k = j)) as [->|].
  - rewrite lookup_insert_eq. intros [= <-]. by left.
  - rewrite lookup_insert_ne by done. by right.
Qed.
Lemma bump_is_Some k n d j : is_Some (bump k n d !! j) ↔ j = k ∨ is_Some (d !! j).
Proof using Type.
  unfold bump. destruct (decide (k = j)) as [->|].
  - rewrite lookup_insert_eq. split; eauto.
  - rewrite lookup_insert_ne by done. naive_solver.
Qed.

(** The keys present are the buckets of the items. *)
Lemma filled_keys :
  (∀ k, is_Some (dds_positive s !! k) ↔ ∃ y, y ∈ ys ∧ dds_bucket d0 y.1 = Ok (BPos k)) ∧
  (∀ k, is_Some (dds_negative s !! k) ↔ ∃ y, y ∈ ys ∧ dds_bucket d0 y.1 = Ok (BNeg k)).
Proof using He.
  subst s. clear Hg Ha. destruct He as (Ep & En & _).
  induction ys as [|y zs IH] using rev_ind.
  { simpl. rewrite Ep, En. split; intros k; rewrite lookup_empty;
      (split; [by intros ?%is_Some_None|by intros (? & ?%elem_of_nil & _)]). }
  destruct IH as [IHp IHn]. rewrite puts_snoc.
  assert (dds_bucket (dds_tally y.1 y.2 (puts d0 zs)) y.1 = dds_bucket d0 y.1) as Eb
    by (rewrite (bucket_params _ (puts d0 zs)) by done; apply puts_bucket).
  unfold dds_put. rewrite Eb. setoid_rewrite elem_of_app.
  setoid_rewrite list_elem_of_singleton.
  split; intros k; destruct (dds_bucket d0 y.1) as [[j| |j]|] eqn:E; simpl;
    rewrite ?bump_is_Some, ?IHp, ?IHn;
    (split; [intros Hk; repeat destruct Hk as [Hk|Hk]|intros (x & [Hx| ->] & Ex)]);
    subst; eauto; try congruence; try (destruct Hk as (x & Hx & Ex); eauto);
    rewrite E in Ex; simplify_eq; eauto.
Qed.

Lemma filled_store_ok : dds_fits s → store_ok (dds_positive s) ∧ store_ok (dds_negative s).
Proof using He Hg.
  intros ([_ Fp] & [_ Fn] & _).
  assert ((∀ k v, dds_positive s !! k = Some v → 0 < v) ∧
          (∀ k v, dds_negative s !! k = Some v → 0 < v)) as [Hp Hn].
  { clear Fp Fn Ha. subst s. destruct He as (Ep & En & _).
    induction ys as [|y zs IH] using rev_ind.
    { simpl. rewrite Ep, En. split; intros k v; by rewrite lookup_empty. }
    destruct IH as [IHp IHn]; [intros x Hx; apply Hg, elem_of_app; by left|].
    destruct (Hg y) as [_ Py]; [apply elem_of_app; right; by left|].
    assert (∀ d k, (∀ k v, d !! k = Some v → 0 < v) → 0 ≤ get0 d k) as H0.
    { intros d k Hd. unfold get0. destruct (d !! k) as [v|] eqn:E; simpl; [|done].
      specialize (Hd k v E). lia. }
    rewrite puts_snoc. unfold dds_put.
    destruct (dds_bucket _ _) as [[j| |j]|]; simpl; split; try done;
      intros k v [[-> ->]|Hv]%bump_lookup; eauto.
    - pose proof (H0 _ j IHn). lia.
    - pose proof (H0 _ j IHp). lia. }
  split; intros k v Hv; (split; [|]).
  - specialize (Hp k v Hv). lia.
  - specialize (Fp k). unfold get0 in Fp. by rewrite Hv in Fp.
  - specialize (Hn k v Hv). lia.
  - specialize (Fn k). unfold get0 in Fn. by rewrite Hv in Fn.
Qed.

(** The extrema are ingested values. *)
Lemma filled_extrema :
  ys ≠ [] → (∃ y, y ∈ ys ∧ dds_min s = y.1) ∧ (∃ y, y ∈ ys ∧ dds_max s = y.1).
Proof using He Hg.
  subst s. clear Ha. intros Hne.
  assert (((∃ y, y ∈ ys ∧ dds_min (puts d0 ys) = y.1) ∨ ys = [] ) ∧
          ((∃ y, y ∈ ys ∧ dds_max (puts d0 ys) = y.1) ∨ ys = [])) as [[?|?] [?|?]];
    [|done..].
  clear Hne. destruct He as (_&_&_&_&Emin&Emax).
  induction ys as [|y zs IH] using rev_ind; [by split; right|].
  assert (isfinite y.1 = true) as Fy by (apply Hg, elem_of_app; right; by left).
  destruct IH as [I1 I2]; [intros x Hx; apply Hg, elem_of_app; by left|].
  pose proof (isfinite_num _ Fy) as Ny. apply isfinite_fval in Fy as [_ Fy].
  rewrite puts_snoc. destruct (put_min_max (puts d0 zs) y) as [-> ->].
  setoid_rewrite elem_of_app. setoid_rewrite list_elem_of_singleton.
  split; left.
  - destruct I1 as [(z & Hz & E)| ->].
    + destruct (flt y.1 _); eauto.
    + exists y. split; [by right|]. simpl. rewrite Emin.
      assert (flt y.1 infinity = true) as ->; [|done].
      apply flt_val; [done..|]. assert (fval infinity = fmax_val) as -> by done. lia.
  - destruct I2 as [(z & Hz & E)| ->].
    + destruct (flt _ y.1); eauto.
    + exists y. split; [by right|]. simpl. rewrite Emax.
      assert (flt neg_infinity y.1 = true) as ->; [|done].
      apply flt_val; [done..|]. assert (fval neg_infinity = - fmax_val) as -> by done. lia.
Qed.

Lemma elem_of_sorted_keys d k : k ∈ sorted_keys d ↔ is_Some (d !! k).
Proof using Type.
  rewrite sorted_keys_perm, list_elem_of_fmap. split.
  - intros ([j v] & -> & Hj%elem_of_map_to_list). simpl. eauto.
  - intros [v Hv]. exists (k, v). by rewrite elem_of_map_to_list.
Qed.

Lemma key_max_spec d k :
  is_Some (d !! k) → (∀ j, is_Some (d !! j) → j ≤ k) → key_max d = Some k.
Proof using Type.
  intros Hk Hmax. unfold key_max. pose proof (sorted_keys_sorted d) as Hs.
  apply elem_of_sorted_keys in Hk. setoid_rewrite <- elem_of_sorted_keys in Hmax.
  destruct (sorted_keys d) as [|x ks _] using rev_ind; [by apply elem_of_nil in Hk|].
  rewrite last_snoc. f_equal. apply StronglySorted_middle in Hs as [Hlt _].
  apply elem_of_app in Hk as [Hk|Hk%list_elem_of_singleton]; [|done].
  specialize (Hlt k Hk). specialize (Hmax x ltac:(apply elem_of_app; right; by left)).
  lia.
Qed.

Lemma key_min_spec d k :
  is_Some (d !! k) → (∀ j, is_Some (d !! j) → k ≤ j) → key_min d = Some k.
Proof using Type.
  intros Hk Hmin. unfold key_min. pose proof (sorted_keys_sorted d) as Hs.
  apply elem_of_sorted_keys in Hk. setoid_rewrite <- elem_of_sorted_keys in Hmin.
  destruct (sorted_keys d) as [|x ks]; [by apply elem_of_nil in Hk|].
  simpl. f_equal. apply (StronglySorted_middle _ []) in Hs as [_ Hlt].
  apply elem_of_cons in Hk as [Hk|Hk]; [done|].
  specialize (Hlt k Hk). specialize (Hmin x ltac:(by left)). lia.
Qed.

Lemma ys_bucket y : y ∈ ys → ∃ b, dds_bucket d0 y.1 = Ok b.
Proof using Ha. intros Hy. by apply accepts_has_bucket, Ha. Qed.

Lemma filled_mono x y a b :
  x ∈ ys → y ∈ ys → fle x.1 y.1 = true →
  dds_bucket d0 x.1 = Ok a → dds_bucket d0 y.1 = Ok b → bucket_le a b.
Proof using Hg Hm LibmLaws0.
  intros Hx Hy Hle. destruct (Hg x Hx), (Hg y Hy).
  by apply (dds_bucket_mono d0 x.1 y.1).
Qed.

Lemma filled_order y :
  y ∈ ys → fle (dds_min s) y.1 = true ∧ fle y.1 (dds_max s) = true.
Proof using He Hg. intros Hy. by apply (puts_min_max d0 ys He Hg). Qed.

Lemma bucket_pos_key v k : dds_bucket d0 v = Ok (BPos k) → flt 0%float v = true ∧ dds_key d0 v = Ok k.
Proof using Type.
  unfold dds_bucket. destruct (flt 0%float v).
  - destruct (dds_key d0 v); simpl; [|done]. by intros [= ->].
  - destruct (flt v 0%float); [|done]. by destruct (dds_key d0 (- v)%float).
Qed.
Lemma bucket_neg_key v k :
  dds_bucket d0 v = Ok (BNeg k) →
  flt 0%float v = false ∧ flt v 0%float = true ∧ dds_key d0 (- v)%float = Ok k.
Proof using Type.
  unfold dds_bucket. destruct (flt 0%float v); [by destruct (dds_key d0 v)|].
  destruct (flt v 0%float); [|done].
  destruct (dds_key d0 (- v)%float); simpl; [|done]. by intros [= ->].
Qed.
Lemma bucket_of_pos v b :
  flt 0%float v = true → dds_bucket d0 v = Ok b → ∃ k, b = BPos k.
Proof using Type.
  intros Hv. unfold dds_bucket. rewrite Hv.
  destruct (dds_key d0 v); simpl; [|done]. intros [= <-]. eauto.
Qed.
Lemma bucket_of_neg v b :
  flt v 0%float = true → flt 0%float v = false → dds_bucket d0 v = Ok b → ∃ k, b = BNeg k.
Proof using Type.
  intros Hv Hv'. unfold dds_bucket. rewrite Hv, Hv'.
  destruct (dds_key d0 _); simpl; [|done]. intros [= <-]. eauto.
Qed.

Lemma flt_asym x y : flt x y = true → flt y x = false.
Proof using Type.
  intros H1. destruct (flt y x) eqn:E; [|done].
  pose proof (flt_trans _ _ _ H1 E) as H2. by rewrite flt_irrefl in H2.
Qed.

Lemma check_positive_filled :
  check_positive (dds_multiplier d0) (dds_min s) (dds_max s) (dds_positive s) = Ok tt.
Proof using All.
  unfold check_positive. case_bool_decide as Hemp; [done|].
  apply map_choose in Hemp as (k & v & Hk).
  assert (is_Some (dds_positive s !! k)) as Hin by eauto.
  apply filled_keys in Hin as (y & Hy & Ey).
  destruct filled_extrema as [(a & Ha' & Ea) (b & Hb & Eb)].
  { intros E. rewrite E in Hy. by apply elem_of_nil in Hy. }
  destruct (bucket_pos_key _ _ Ey) as [Hpos _].
  assert (flt 0%float (dds_max s) = true) as Hmax
    by (eapply flt_fle_trans; [exact Hpos|]; by apply filled_order).
  assert (fle (dds_max s) 0%float = false) as ->
    by (apply not_fle; eauto with py).
  destruct (ys_bucket b Hb) as [c Ec]. rewrite Eb in *.
  destruct (bucket_of_pos _ _ Hmax Ec) as [km ->].
  destruct (bucket_pos_key _ _ Ec) as [_ Kb].
  assert (key_max (dds_positive s) = Some km) as Hkm.
  { apply key_max_spec; [apply filled_keys; eauto|].
    intros j (x & Hx & Ex)%filled_keys.
    apply (filled_mono x b (BPos j) (BPos km)); try done. rewrite <- Eb. by apply filled_order. }
  unfold index_differs, index_of. unfold dds_key in Kb. rewrite Kb, Hkm. simpl.
  rewrite bool_decide_eq_false_2 by tauto. simpl.
  destruct (flt 0%float (dds_min s)) eqn:Hmin; [|done]. rewrite Ea in *.
  destruct (ys_bucket a Ha') as [c' Ec'].
  destruct (bucket_of_pos _ _ Hmin Ec') as [kn ->].
  destruct (bucket_pos_key _ _ Ec') as [_ Ka].
  assert (key_min (dds_positive s) = Some kn) as Hkn.
  { apply key_min_spec; [apply filled_keys; eauto|].
    intros j (x & Hx & Ex)%filled_keys.
    apply (filled_mono a x (BPos kn) (BPos j)); try done. rewrite <- Ea. by apply filled_order. }
  unfold dds_key in Ka. rewrite Ka, Hkn. simpl.
  by rewrite bool_decide_eq_false_2 by tauto.
Qed.

Lemma check_negative_filled :
  check_negative (dds_multiplier d0) (dds_min s) (dds_max s) (dds_negative s) = Ok tt.
Proof using All.
  unfold check_negative. case_bool_decide as Hemp; [done|].
  apply map_choose in Hemp as (k & v & Hk).
  assert (is_Some (dds_negative s !! k)) as Hin by eauto.
  apply filled_keys in Hin as (y & Hy & Ey).
  destruct filled_extrema as [(a & Ha' & Ea) (b & Hb & Eb)].
  { intros E. rewrite E in Hy. by apply elem_of_nil in Hy. }
  destruct (bucket_neg_key _ _ Ey) as (_ & Hneg & _).
  assert (flt (dds_min s) 0%float = true) as Hmin
    by (eapply fle_flt_trans; [|exact Hneg]; by apply filled_order).
  assert (fle 0%float (dds_min s) = false) as ->
    by (apply not_fle; eauto with py).
  destruct (ys_bucket a Ha') as [c Ec]. rewrite Ea in *.
  destruct (bucket_of_neg _ _ Hmin (flt_asym _ _ Hmin) Ec) as [km ->].
  destruct (bucket_neg_key _ _ Ec) as (_ & _ & Kb).
  assert (key_max (dds_negative s) = Some km) as Hkm.
  { apply key_max_spec; [apply filled_keys; eauto|].
    intros j (x & Hx & Ex)%filled_keys.
    apply (filled_mono a x (BNeg km) (BNeg j)); try done. rewrite <- Ea. by apply filled_order. }
  unfold index_differs, index_of. unfold dds_key in Kb. rewrite Kb, Hkm. simpl.
  rewrite bool_decide_eq_false_2 by tauto. simpl.
  destruct (flt (dds_max s) 0%float) eqn:Hmax; [|done]. rewrite Eb in *.
  destruct (ys_bucket b Hb) as [c' Ec'].
  destruct (bucket_of_neg _ _ Hmax (flt_asym _ _ Hmax) Ec') as [kn ->].
  destruct (bucket_neg_key _ _ Ec') as (_ & _ & Ka).
  assert (key_min (dds_negative s) = Some kn) as Hkn.
  { apply key_min_spec; [apply filled_keys; eauto|].
    intros j (x & Hx & Ex)%filled_keys.
    apply (filled_mono x b (BNeg j) (BNeg kn)); try done. rewrite <- Eb. by apply filled_order. }
  unfold dds_key in Ka. rewrite Ka, Hkn. simpl.
  by rewrite bool_decide_eq_false_2 by tauto.
Qed.

Lemma filled_zero_count :
  (0 < dds_zero_count s → ∃ y, y ∈ ys ∧ feq y.1 0%float = true) ∧
  ((∃ y, y ∈ ys ∧ feq y.1 0%float = true) → dds_zero_count s ≠ 0).
Proof using All.
  destruct (puts_counters d0 ys He) as (_ & _ & E & _). fold s in E. rewrite E.
  assert (∀ y, y ∈ ys → in_zero d0 y.1 = feq y.1 0%float) as Hz.
  { intros y Hy. destruct (ys_bucket y Hy) as [b Hb]. destruct (Hg y Hy) as [Fy _].
    unfold in_zero. rewrite Hb. revert Hb. unfold dds_bucket.
    destruct (fnum_cases y.1 (isfinite_num _ Fy)) as [(E1&E2&E3)|[(E1&E2&E3)|(E1&E2&E3)]];
      rewrite E1, ?E2, E3.
    - destruct (dds_key d0 y.1); simpl; [|done]. by intros [= <-].
    - destruct (dds_key d0 (- y.1)%float); simpl; [|done]. by intros [= <-].
    - by intros [= <-]. }
  rewrite (weight_ext (in_zero d0) (λ v, feq v 0%float)) by done.
  split.
  - intros Hpos. destruct (decide (Exists (λ y, feq y.1 0%float = true) ys)) as [?%Exists_exists|Hno];
      [done|]. rewrite Exists_exists in Hno.
    exfalso. assert (weight (λ v, feq v 0%float) ys = 0); [|lia].
    apply sum_by_zero. intros x Hx. destruct (feq x.1 0%float) eqn:Ex; [|done].
    exfalso. eauto.
  - intros (y & Hy & Ey). apply list_elem_of_split in Hy as (l1 & l2 & E').
    assert (good_items l1 ∧ good_items l2 ∧ 0 < y.2) as (G1 & G2 & Py).
    { split_and!; [intros x Hx|intros x Hx|]; apply Hg; rewrite E'; set_solver. }
    rewrite E'. unfold weight. rewrite sum_by_app, sum_by_cons, Ey.
    pose proof (weight_nonneg (λ v, feq v 0%float) l1 G1).
    pose proof (weight_nonneg (λ v, feq v 0%float) l2 G2).
    unfold weight in *. lia.
Qed.

Lemma check_zeros_filled :
  ys ≠ [] →
  check_zeros (dds_min s) (dds_max s) (dds_positive s) (dds_negative s)
    (dds_zero_count s) = Ok tt.
Proof using All.
  intros Hne. destruct (filled_extrema Hne) as [(a & Ha' & Ea) (b & Hb & Eb)].
  destruct filled_zero_count as [Hz1 Hz2].
  pose proof (Hg a Ha') as [Fa _]. pose proof (Hg b Hb) as [Fb _].
  rewrite <- Ea in Fa. rewrite <- Eb in Fb.
  apply isfinite_num in Fa, Fb. unfold check_zeros.
  assert ((0 <? dds_zero_count s) && (flt 0 (dds_min s) || flt (dds_max s) 0) = false) as ->.
  { destruct (Z.ltb_spec 0 (dds_zero_count s)) as [Hz|]; [|done]. simpl.
    destruct (Hz1 Hz) as (y & Hy & Ey). destruct (filled_order y Hy) as [O1 O2].
    pose proof (Hg y Hy) as [Fy _]. apply isfinite_num in Fy.
    apply feq_val in Ey; [|done..]. apply fle_val in O1, O2; [|done..].
    rewrite fval_zero in Ey. apply orb_false_iff.
    split; apply not_true_is_false; rewrite flt_val by done; rewrite fval_zero; lia. }
  simpl.
  assert (bool_decide (dds_positive s = ∅) && flt 0 (dds_max s) = false) as ->.
  { case_bool_decide as Hemp; [|done]. simpl. apply not_true_is_false. intros Hmax.
    destruct (ys_bucket b Hb) as [c Ec]. rewrite Eb in Hmax.
    destruct (bucket_of_pos _ _ Hmax Ec) as [k ->].
    assert (is_Some (dds_positive s !! k)) as [v Hv] by (apply filled_keys; eauto).
    rewrite Hemp in Hv. by rewrite lookup_empty in Hv. }
  simpl.
  assert (bool_decide (dds_negative s = ∅) && flt (dds_min s) 0 = false) as ->.
  { case_bool_decide as Hemp; [|done]. simpl. apply not_true_is_false. intros Hmin.
    destruct (ys_bucket a Ha') as [c Ec]. rewrite Ea in Hmin.
    destruct (bucket_of_neg _ _ Hmin (flt_asym _ _ Hmin) Ec) as [k ->].
    assert (is_Some (dds_negative s !! k)) as [v Hv] by (apply filled_keys; eauto).
    rewrite Hemp in Hv. by rewrite lookup_empty in Hv. }
  simpl.
  assert (∀ y, y ∈ ys → ∀ x, y.1 = x → feq x 0 && (dds_zero_count s =? 0) = false) as Hx.
  { intros y Hy x <-. destruct (feq y.1 0) eqn:E; [|done]. simpl.
    apply Z.eqb_neq, Hz2. eauto. }
  rewrite (Hx b Hb (dds_max s)) by done. simpl.
  by rewrite (Hx a Ha' (dds_min s)).
Qed.

Lemma read_extremum_float x : isfinite x = true → read_extremum (VFloat x) = Ok x.
Proof using Type. intros Hx. unfold read_extremum. simpl. by rewrite Hx. Qed.

Definition filled_extremum_data : option (float * float) :=
  if 0 <? dds_count s then Some (dds_min s, dds_max s) else None.

Lemma check_extrema_filled :
  check_extrema (dds_multiplier d0) (dds_count s) (dds_zero_count s)
    (dds_positive s) (dds_negative s)
    (Some (extremum_to_val s (dds_min s))) (Some (extremum_to_val s (dds_max s))) =
  Ok filled_extremum_data.
Proof using All.
  unfold check_extrema, filled_extremum_data, extremum_to_val.
  destruct (Z.ltb_spec 0 (dds_count s)) as [Hpos|]; [|done].
  assert (ys ≠ []) as Hne.
  { intros E. destruct (puts_counters d0 ys He) as (_ & _ & _ & Ec).
    subst s. rewrite Ec, E, weight_nil in Hpos. lia. }
  destruct (filled_extrema Hne) as [(a & Ha' & Ea) (b & Hb & Eb)].
  pose proof (Hg a Ha') as [Fa _]. pose proof (Hg b Hb) as [Fb _].
  rewrite <- Ea in Fa. rewrite <- Eb in Fb.
  simpl is_none. cbn [orb fail_if res_bind from_option id].
  rewrite !read_extremum_float by done. cbn [res_bind].
  assert (flt (dds_max s) (dds_min s) = false) as ->.
  { apply not_flt; [by apply isfinite_num..|]. rewrite Ea. by apply filled_order. }
  cbn [fail_if res_bind]. rewrite check_positive_filled, check_negative_filled. 
  cbn [res_bind]. by rewrite check_zeros_filled.
Qed.
End filled.

(** *** Bucket dictionaries *)

(** A dictionary written with the keys under [f] ([VInt], or the decimal
    string after a trip through JSON). *)
Definition buckets_with (f : Z → pyval) (d : gmap Z Z) : pydict :=
  (λ kv, (f kv.1, VInt kv.2)) <$> map_to_list d.

Lemma int_within_int lo hi z msg : lo ≤ z ≤ hi → int_within lo hi (VInt z) msg = Ok z.
Proof.
  intros Hz. simpl. by rewrite (proj2 (Z.leb_le lo z)), (proj2 (Z.leb_le z hi)) by lia.
Qed.

Lemma validate_fold f lo hi l acc :
  (∀ k, bucket_key (f k) = Ok k) →
  NoDup l.*1 → (∀ k v, (k, v) ∈ l → lo ≤ k ≤ hi ∧ 1 ≤ v ≤ MAX_INT64) →
  (∀ k, k ∈ l.*1 → acc !! k = None) →
  ∃ d, res_fold (validate_bucket lo hi) ((λ kv, (f kv.1, VInt kv.2)) <$> l) acc = Ok d ∧
    ∀ k, d !! k = match (list_to_map l : gmap Z Z) !! k with Some v => Some v | None => acc !! k end.
Proof.
  intros Hf. revert acc. induction l as [|[k v] l IH]; intros acc Hnd Hl Hacc.
  { exists acc. split; [done|]. intros k. simpl. by rewrite lookup_empty. }
  simpl in Hnd. apply NoDup_cons in Hnd as [Hk Hnd].
  destruct (Hl k v) as [Hk' Hv]; [by left|].
  rewrite fmap_cons. cbn [res_fold]. unfold validate_bucket at 1. cbn [fst snd].
  rewrite Hf. cbn [res_bind]. rewrite (Hacc k) by (by left).
  rewrite bool_decide_eq_false_2 by (by intros ?%is_Some_None).
  rewrite int_within_int by done. cbn [res_bind].
  rewrite (proj2 (Z.ltb_ge k lo)), (proj2 (Z.ltb_ge hi k)) by lia. cbn [orb res_bind].
  destruct (IH (<[k:=v]> acc) Hnd) as (d & -> & Hd).
  - intros k' v' Hin. apply Hl. by right.
  - intros k' Hin. rewrite lookup_insert_ne by (intros ->; done).
    apply Hacc. by right.
  - exists d. split; [done|]. intros j. rewrite Hd. simpl.
    destruct (decide (k = j)) as [->|Hne].
    + rewrite !lookup_insert_eq. by rewrite (not_elem_of_list_to_map_1 l j).
    + by rewrite !lookup_insert_ne.
Qed.

Lemma validate_written f lo hi d :
  (∀ k, bucket_key (f k) = Ok k) → store_ok d →
  (∀ k, is_Some (d !! k) → lo ≤ k ≤ hi) →
  validate_buckets lo hi (buckets_with f d) = Ok d.
Proof.
  intros Hf Hd Hr. unfold validate_buckets, buckets_with.
  destruct (validate_fold f lo hi (map_to_list d) ∅) as (d' & -> & Hd').
  - done.
  - apply NoDup_fst_map_to_list.
  - intros k v Hin%elem_of_map_to_list. split; [apply Hr; eauto|by apply (Hd k)].
  - intros k _. apply lookup_empty.
  - f_equal. apply map_eq. intros k. rewrite Hd', list_to_map_to_list, lookup_empty.
    by destruct (d !! k).
Qed.

(** *** The whole checkpoint *)

(** The parameters of a sketch whose index range can be computed: the largest
    and the smallest positive floats have a bucket. *)
Definition usable (d0 : dds) : Prop :=
  good_multiplier d0 ∧ is_ok (dds_key d0 float_max) = true ∧
  is_ok (dds_key d0 float_tiny) = true.

Definition latency_with (f : Z → pyval) (s : dds) : pydict :=
  [(VStr "alpha", VFloat (dds_alpha s));
   (VStr "positive", VDict (buckets_with f (dds_positive s)));
   (VStr "negative", VDict (buckets_with f (dds_negative s)));
   (VStr "zero_count", VInt (dds_zero_count s));
   (VStr "count", VInt (dds_count s));
   (VStr "min", extremum_to_val s (dds_min s));
   (VStr "max", extremum_to_val s (dds_max s))].


Lemma pos_range v :
  isfinite v = true → flt 0%float v = true →
  fle float_tiny v = true ∧ fle v float_max = true.
Proof.
  intros F Hv. pose proof (isfinite_num _ F) as N.
  apply flt_val in Hv; [|done..]. rewrite fval_zero in Hv.
  pose proof (finite_fval_max v F).
  assert (fval float_tiny = 1) as E1 by done.
  assert (fval float_max = (2 ^ 53 - 1) * 2 ^ 2045) as E2 by done.
  split; (apply fle_val; [done|done|]); [rewrite E1|rewrite E2]; lia.
Qed.

(** The keys of a filled sketch are in the range [from_dict] accepts. *)
Lemma key_range d0 v k lo hi :
  good_multiplier d0 → isfinite v = true → flt 0%float v = true →
  dds_key d0 v = Ok k → dds_key d0 float_tiny = Ok lo → dds_key d0 float_max = Ok hi →
  lo ≤ k ≤ hi.
Proof.
  intros Hm F Hv Hk Hlo Hhi. destruct (pos_range v F Hv) as [R1 R2]. split.
  - by apply (dds_key_mono d0 float_tiny v).
  - by apply (dds_key_mono d0 v float_max).
Qed.

Lemma filled_key_range d0 ys lo hi :
  dds_empty d0 → good_items ys → good_multiplier d0 →
  dds_key d0 float_tiny = Ok lo → dds_key d0 float_max = Ok hi →
  (∀ k, is_Some (dds_positive (puts d0 ys) !! k) → lo ≤ k ≤ hi) ∧
  (∀ k, is_Some (dds_negative (puts d0 ys) !! k) → lo ≤ k ≤ hi).
Proof.
  intros He Hg Hm Hlo Hhi. destruct (filled_keys d0 ys He) as [Kp Kn].
  split; intros k.
  - intros (y & Hy & Ey)%Kp. apply bucket_pos_key in Ey as [Hv Hk].
    destruct (Hg y Hy). by apply (key_range d0 y.1).
  - intros (y & Hy & Ey)%Kn. apply bucket_neg_key in Ey as (_ & Hv & Hk).
    destruct (Hg y Hy) as [F _]. apply (key_range d0 (- y.1)%float); try done.
    + by rewrite isfinite_opp.
    + apply flt_val; [done|by apply num_opp, isfinite_num|].
      apply flt_val in Hv; [|by apply isfinite_num|done].
      rewrite fval_opp. rewrite fval_zero in *. lia.
Qed.

(** What a successful constructor says about the parameters. *)
Lemma dds_init_params a d0 :
  dds_init a = Ok d0 →
  dds_alpha d0 = a ∧ flt 0%float a = true ∧ flt a 1%float = true ∧
  alpha_multiplier a = Ok (dds_multiplier d0).
Proof.
  unfold dds_init, alpha_multiplier.
  destruct (fle 1e-6%float a) eqn:E1; [|done]. destruct (flt a 1.0%float) eqn:E2; [|done].
  simpl. destruct (py_log _) as [l|]; simpl; [|done]. destruct (feq l 0); [done|].
  intros [= <-]. simpl. split_and!; try done.
  eapply flt_fle_trans; [|exact E1]. by vm_compute.
Qed.

Lemma read_latency_written f d0 ys a :
  (∀ k, bucket_key (f k) = Ok k) →
  dds_init a = Ok d0 → usable d0 → good_items ys →
  (∀ y, y ∈ ys → dds_accepts d0 y.1) → dds_wf (puts d0 ys) →
  let s := puts d0 ys in
  read_latency (latency_with f s) =
  Ok (mk_latency_data a (dds_positive s) (dds_negative s) (dds_zero_count s)
        (dds_count s) (filled_extremum_data d0 ys)).
Proof.
  intros Hf Hi (Hm & Hmax & Hmin) Hg Ha (Hnn & Hfit & Hbal) s.
  pose proof (dds_init_empty _ _ Hi) as He.
  destruct (dds_init_params _ _ Hi) as (Ea & Ha0 & Ha1 & Emul).
  destruct (dds_key d0 float_max) as [hi|] eqn:Ehi; [|done].
  destruct (dds_key d0 float_tiny) as [lo|] eqn:Elo; [|done].
  destruct (filled_store_ok d0 ys He Hg Hfit) as [Sp Sn].
  destruct (filled_key_range d0 ys lo hi He Hg Hm Elo Ehi) as [Rp Rn].
  fold s in Hnn, Hfit, Hbal, Sp, Sn, Rp, Rn.
  assert (dds_alpha s = a) as Eal by (rewrite <- Ea; apply puts_params).
  assert (0 ≤ dds_count s) as Hc.
  { unfold s. destruct (puts_counters d0 ys He) as (_&_&_&->). by apply weight_nonneg. }
  destruct Hnn as (_&_&Hz&_). destruct Hfit as ([Lp _]&[Ln _]&Fz&Fc).
  unfold read_latency, latency_with, dict_item.
  change (dict_get _ "alpha") with (Some (VFloat (dds_alpha s))).
  cbv beta iota. cbn [res_bind]. unfold read_alpha. rewrite Eal, Ha0, Ha1. cbn [andb res_bind].
  change (dict_get _ "zero_count") with (Some (VInt (dds_zero_count s))).
  change (dict_get _ "count") with (Some (VInt (dds_count s))).
  cbv beta iota. cbn [res_bind]. rewrite !int_within_int by done. cbn [res_bind].
  change (dict_get _ "positive") with (Some (VDict (buckets_with f (dds_positive s)))).
  change (dict_get _ "negative") with (Some (VDict (buckets_with f (dds_negative s)))).
  cbn [base.mbind option_bind as_dict expect res_bind].
  rewrite Emul. cbn [res_bind].
  unfold dds_key in Ehi, Elo. unfold index_of. rewrite Ehi. cbn [res_bind].
  rewrite Elo. cbn [res_bind].
  rewrite (validate_written f lo hi _ Hf Sp Rp). cbn [res_bind].
  rewrite (validate_written f lo hi _ Hf Sn Rn). cbn [res_bind].
  rewrite (proj2 (Z.ltb_ge MAX_BINS _)) by done. cbn [fail_if res_bind].
  rewrite (proj2 (Z.ltb_ge MAX_BINS _)) by done. cbn [fail_if res_bind].
  rewrite (proj2 (Z.eqb_eq _ _) Hbal). cbn [negb fail_if res_bind].
  change (dict_get _ "min") with (Some (extremum_to_val s (dds_min s))).
  change (dict_get _ "max") with (Some (extremum_to_val s (dds_max s))).
  pose proof (check_extrema_filled d0 ys He Hg Ha Hm) as Hx. fold s in Hx.
  by rewrite Hx.
Qed.

Lemma read_uniques_written h :
  hll_wf h →
  read_uniques [(VStr "precision", VInt (hll_p h));
                (VStr "registers", VList (VInt <$> hll_registers h))] =
  Ok (hll_p h, hll_registers h).
Proof.
  intros W. unfold read_uniques, dict_item.
  change (dict_get _ "precision") with (Some (VInt (hll_p h))).
  change (dict_get _ "registers") with (Some (VList (VInt <$> hll_registers h))).
  cbn [res_bind]. rewrite int_within_int by apply W. cbn [res_bind as_list expect].
  rewrite length_fmap, (hwf_len h W), Z.shiftl_1_l, Z.eqb_refl. cbn [negb fail_if res_bind].
  rewrite res_mapM_fmap; [done|]. intros r Hr. apply int_within_int.
  pose proof (hwf_regs h W) as HF. rewrite Forall_forall in HF. by apply HF.
Qed.

Lemma read_row_written w t row :
  row_wf w t row → t ≤ MAX_INT64 → read_row w t (VList (VInt <$> row)) = Ok row.
Proof.
  intros (Hl & Hn & Hs) Ht. unfold read_row. cbn [as_list expect res_bind].
  rewrite length_fmap, Hl, Z.eqb_refl. cbn [negb fail_if res_bind].
  rewrite res_mapM_fmap.
  - cbn [res_bind]. by rewrite Hs, Z.eqb_refl.
  - intros c Hc. apply int_within_int. pose proof Hn as HF. rewrite Forall_forall in HF.
    split; [by apply HF|]. apply list_elem_of_lookup in Hc as [i Hi].
    pose proof (sum_Z_elem_le row i c Hn Hi). lia.
Qed.

Lemma read_events_written c :
  cms_wf c → cms_width c ≤ MAX_CMS_CELLS / cms_depth c →
  read_events [(VStr "width", VInt (cms_width c));
               (VStr "depth", VInt (cms_depth c));
               (VStr "table", VList ((λ row, VList (VInt <$> row)) <$> cms_table c));
               (VStr "total", VInt (cms_total c))] =
  Ok (mk_events_data (cms_width c) (cms_depth c) (cms_total c) (cms_table c)).
Proof.
  intros W Hcells. unfold read_events, dict_item.
  change (dict_get _ "width") with (Some (VInt (cms_width c))).
  change (dict_get _ "depth") with (Some (VInt (cms_depth c))).
  change (dict_get _ "total") with (Some (VInt (cms_total c))).
  change (dict_get _ "table") with
    (Some (VList ((λ row, VList (VInt <$> row)) <$> cms_table c))).
  cbn [res_bind read_dimension].
  rewrite (proj2 (Z.ltb_ge (cms_width c) 1)) by (pose proof (wf_width c W); lia).
  rewrite (proj2 (Z.ltb_ge (cms_depth c) 1)) by (pose proof (wf_depth c W); lia).
  cbn [res_bind]. rewrite (proj2 (Z.ltb_ge _ _) Hcells). cbn [fail_if res_bind].
  rewrite int_within_int by apply W. cbn [res_bind as_list expect].
  rewrite length_fmap, (wf_rows c W), Z.eqb_refl. cbn [negb fail_if res_bind].
  rewrite res_mapM_fmap; [done|]. intros row Hrow. apply read_row_written.
  - pose proof (wf_table c W) as HF. rewrite Forall_forall in HF. by apply HF.
  - apply W.
Qed.

Definition slog_with (f : Z → pyval) (s : slog) : pydict :=
  [(VStr "version", VInt 1);
   (VStr "total", VInt (sl_total s));
   (VStr "deterministic", VBool (sl_deterministic s));
   (VStr "latency", VDict (latency_with f (sl_latency s)));
   (VStr "uniques", uniques_to_val (sl_uniques s));
   (VStr "events", events_to_val (sl_events s))].

Lemma restore_written a p w d det s0 s cs :
  slog_init a p w d det = Ok s0 → slog_denotes s0 s cs →
  restore s0 (sl_total s)
    (mk_latency_data a (dds_positive (sl_latency s))
       (dds_negative (sl_latency s)) (dds_zero_count (sl_latency s))
       (dds_count (sl_latency s))
       (filled_extremum_data (sl_latency s0) (flat_map call_items cs)))
    (hll_registers (sl_uniques s))
    (mk_events_data (cms_width (sl_events s)) (cms_depth (sl_events s))
       (cms_total (sl_events s)) (cms_table (sl_events s))) = s.
Proof.
  intros Hi D. destruct (slog_init_facts _ _ _ _ _ _ Hi) as [He _].
  apply slog_init_ok in Hi as (_ & Ic & _ & _ & _).
  destruct (cms_init_dims _ _ _ Ic) as (Ew & Ed & Es).
  pose proof (sd_good _ _ _ D) as Hg. pose proof (sd_wf _ _ _ D) as W.
  pose proof (sd_dims _ _ _ D) as [Ew' Ed'].
  assert (same_params (sl_latency s0) (sl_latency s)) as Hp.
  { rewrite (sd_latency _ _ _ D). symmetry. apply puts_params. }
  destruct (puts_extrema _ _ He Hg) as (_ & _ & H0 & Hemp).
  unfold filled_extremum_data. rewrite <- (sd_latency _ _ _ D) in *.
  unfold restore. cbn [ld_positive ld_negative ld_zero_count ld_count
    ld_extrema ed_total ed_table].
  destruct s as [l e u t det']. simpl in *. f_equal.
  - apply dds_eq; try done; simpl; destruct (Z.ltb_spec 0 (dds_count l)); try done;
      destruct Hemp as [E1 E2]; try lia; rewrite ?E1, ?E2;
      by destruct He as (_&_&_&_&?&?).
  - pose proof (wf_seeds _ (swf_events _ W)) as Es'. simpl in Es'.
    destruct e as [w' d' tab tot seeds]. unfold set_cms_total, set_cms_table. simpl in *.
    f_equal; congruence.
  - pose proof (sd_precision _ _ _ D) as Eu. simpl in Eu.
    destruct u as [p' regs]. unfold set_registers. simpl in *. by rewrite <- Eu.
  - by rewrite <- (sd_det _ _ _ D).
Qed.

Lemma from_dict_written f a p w d det s0 s cs :
  (∀ k, bucket_key (f k) = Ok k) →
  slog_init a p w d det = Ok s0 → usable (sl_latency s0) →
  slog_denotes s0 s cs →
  slog_from_dict (VDict (slog_with f s)) = Ok s.
Proof.
  intros Hf Hi Hu D. pose proof (slog_init_ok _ _ _ _ _ _ Hi) as (Il & Ic & Ih & _ & Edet).
  pose proof (sd_wf _ _ _ D) as W. pose proof (sd_dims _ _ _ D) as [Ew Ed].
  destruct (cms_init_dims _ _ _ Ic) as (Ew' & Ed' & _).
  pose proof (hll_init_wf _ _ Ih) as [_ Ep].
  assert (w ≤ MAX_CMS_CELLS / d) as Hcells.
  { revert Hi. unfold slog_init. destruct (_ || _); [done|].
    destruct (Z.ltb_spec (MAX_CMS_CELLS / d) w); done. }
  unfold slog_from_dict, from_dict_body, slog_with, dict_item.
  change (dict_get _ "version") with (Some (VInt 1)).
  change (dict_get _ "total") with (Some (VInt (sl_total s))).
  change (dict_get _ "deterministic") with (Some (VBool (sl_deterministic s))).
  change (dict_get _ "latency") with (Some (VDict (latency_with f (sl_latency s)))).
  change (dict_get _ "uniques") with (Some (uniques_to_val (sl_uniques s))).
  change (dict_get _ "events") with (Some (events_to_val (sl_events s))).
  cbn [res_bind]. rewrite int_within_int.
  2: { pose proof (swf_total s W). pose proof (swf_total_max s W).
       destruct (swf_events s W) as [_ _ _ _ ? _].
       pose proof (sd_latency _ _ _ D) as El.
       assert (0 ≤ dds_count (sl_latency s)); [|lia].
       rewrite El. apply puts_extrema; [by eapply dds_init_empty|by eapply sd_good]. }
  cbn [res_bind from_option id as_bool as_dict expect].
  rewrite (sd_latency _ _ _ D).
  rewrite (read_latency_written f (sl_latency s0) _ a Hf Il Hu);
    [|by eapply sd_good|apply D|rewrite <- (sd_latency _ _ _ D); apply W].
  cbn [res_bind]. unfold uniques_to_val at 1. cbn [as_dict expect res_bind].
  rewrite read_uniques_written by apply W. cbn [res_bind fst snd].
  unfold events_to_val at 1. cbn [as_dict expect res_bind].
  rewrite read_events_written by (apply W || by rewrite Ew, Ed, Ew', Ed').
  cbn [res_bind ld_count ed_total ld_alpha ed_width ed_depth].
  rewrite <- (sd_latency _ _ _ D), (swf_total s W), Z.eqb_refl. cbn [negb fail_if res_bind].
  rewrite Ew, Ed, Ew', Ed', (sd_precision _ _ _ D), Ep, (sd_det _ _ _ D), Edet, Hi.
  cbn [res_bind]. rewrite <- (swf_total s W), <- Ew', <- Ed', <- Ew, <- Ed.
  by rewrite (restore_written a p w d det s0 s cs).
Qed.

Lemma json_ints l : map json_roundtrip (VInt <$> l) = VInt <$> l.
Proof. induction l as [|z l IH]; [done|]. rewrite fmap_cons. cbn [map json_roundtrip]. by rewrite IH. Qed.

Lemma json_rows t :
  map json_roundtrip ((λ row : list Z, VList (VInt <$> row)) <$> t) =
  (λ row : list Z, VList (VInt <$> row)) <$> t.
Proof.
  induction t as [|row t IH]; [done|]. rewrite fmap_cons. cbn [map json_roundtrip].
  by rewrite json_ints, IH.
Qed.

Lemma json_buckets d :
  json_roundtrip (buckets_to_val d) = VDict (buckets_with (λ z, VStr (str_of_Z z)) d).
Proof.
  unfold buckets_to_val, buckets_with. cbn [json_roundtrip]. f_equal.
  induction (map_to_list d) as [|kv l IH]; [done|].
  rewrite !fmap_cons. cbn [map]. f_equal. exact IH.
Qed.

Lemma json_extremum s x : json_roundtrip (extremum_to_val s x) = extremum_to_val s x.
Proof. unfold extremum_to_val. by destruct (0 <? dds_count s). Qed.

Lemma json_slog s :
  json_roundtrip (slog_to_dict s) = VDict (slog_with (λ z, VStr (str_of_Z z)) s).
Proof.
  unfold slog_to_dict, slog_with, latency_to_val, uniques_to_val, events_to_val.
  cbn [json_roundtrip map fst snd].
  rewrite !json_ints, json_rows, !json_extremum.
  by rewrite !json_buckets.
Qed.

Lemma slog_to_dict_with s : slog_to_dict s = VDict (slog_with VInt s).
Proof. done. Qed.

End Checkpoint.

(** ** Properties *)

(** C5. [from_dict] is a validator: whatever it is given, it either returns a
    well-formed log (bounded buckets, registers and counters in range, rows
    and totals that add up) or raises [ValueError], never another exception. *)
Theorem checkpoint_validated `{Libm} v :
  match slog_from_dict v with
  | Ok s => slog_wf s
  | Raise e => ∃ msg, e = ValueError msg
  end.
Proof.
  destruct (slog_from_dict v) eqn:E; [by eapply from_dict_wf|by eapply from_dict_value_error].
Qed.

(** The document read back from JSON text. *)
Lemma json_reads_back `{L : Libm, !LibmLaws L} a p w d det s0 cs s :
  slog_init a p w d det = Ok s0 → usable (sl_latency s0) →
  slog_run cs s0 = (Ok tt, s) → slog_from_dict (json_roundtrip (slog_to_dict s)) = Ok s.
Proof.
  intros Hi Hu Hr. pose proof (slog_run_denotes _ _ _ _ _ (slog_init_denotes _ _ _ _ _ _ Hi) Hr) as D. simpl in D.
  rewrite json_slog. eapply (from_dict_written _ a p w d det s0 s cs); try done.
  intros k. simpl. by rewrite canonical_int_str.
Qed.

(** C6. Reading back a checkpoint restores the log: for any log obtained by
    successful calls on a new one, [from_dict] of its [to_dict] is that log,
    also after a round trip of the dictionary through JSON text. *)
Theorem checkpoint_roundtrip `{L : Libm, !LibmLaws L} a p w d det s0 cs s :
  slog_init a p w d det = Ok s0 → usable (sl_latency s0) →
  slog_run cs s0 = (Ok tt, s) →
  slog_from_dict (slog_to_dict s) = Ok s ∧
  slog_from_dict (json_roundtrip (slog_to_dict s)) = Ok s.
Proof.
  intros Hi Hu Hr. pose proof (slog_init_denotes _ _ _ _ _ _ Hi) as D0.
  pose proof (slog_run_denotes _ _ _ _ _ D0 Hr) as D. simpl in D.
  rewrite json_slog, slog_to_dict_with.
  split; eapply (from_dict_written _ a p w d det s0 s cs); try done.
  intros k. simpl. by rewrite canonical_int_str.
Qed.

Lemma checkpoint_roundtrip_witness :
  let s := exec (slog_run (H := coarse_libm) (demo_calls1 ++ demo_calls2)) demo_log in
  slog_from_dict (H := coarse_libm) (slog_to_dict s) = Ok s ∧
  slog_from_dict (H := coarse_libm) (json_roundtrip (slog_to_dict s)) = Ok s.
Proof.
  intros s.
  apply (checkpoint_roundtrip (L := coarse_libm) 0.5%float 4 2 1 true demo_log
    (demo_calls1 ++ demo_calls2) s demo_log_ok).
  - split; [exact demo_good|split; vm_compute; reflexivity].
  - vm_compute. reflexivity.
Defined.
