(* ===== verification/Facade.v ===== *)
(** * The public log ([facade.py], class [StreamLog])

    The wrapper the rest of the program holds: a configuration and a backend.
    The backend modelled is the Python one; the C++ extension, which the
    wrapper prefers when it is installed and the log need not be
    deterministic, is outside the source.  Also the reports of the Python
    backend: [memory_kb], [memory_breakdown] and [stats].  Proved here: a
    clone is empty and configured like its origin, and merging a log into its
    clone copies it. *)

From Stdlib Require Import PrimFloat.
From S2P Require Import Prelude PyFloat FloatRound Hashing CountMin HyperLogLog DDSketch PyVal StreamLog Checkpoint.

#[local] Open Scope Z_scope.
#[local] Open Scope py_scope.
#[local] Set Warnings "-inexact-float".

(** The keyword arguments of [StreamLog]. *)
Record log_config := mk_log_config {
  lc_accuracy : float;
  lc_precision : Z;
  lc_width : Z;
  lc_depth : Z;
  lc_deterministic : bool
}.

Definition default_config : log_config := mk_log_config 0.01%float 10 2048 5 false.

Record streamlog := mk_streamlog {
  st_config : log_config;
  st_backend : slog
}.

Definition set_backend (s : slog) (l : streamlog) : streamlog := mk_streamlog (st_config l) s.

Section Facade.
Context `{Libm}.

Definition new_log (config : log_config) : res slog :=
  slog_init (lc_accuracy config) (lc_precision config) (lc_width config)
    (lc_depth config) (lc_deterministic config).

Definition st_init (config : log_config) : res streamlog :=
  let? backend := new_log config in Ok (mk_streamlog config backend).

Definition st_clone_empty (l : streamlog) : res streamlog := st_init (st_config l).

Definition on_backend {A} : M slog A → M streamlog A := zoom st_backend set_backend.

Definition st_add_latency (value : float) : M streamlog unit := on_backend (slog_add_latency value).
Definition st_add_batch (values : list float) : M streamlog unit := on_backend (slog_add_batch values).

Definition st_add_event (name : event_key) (count : Z) : M streamlog unit :=
  raise_if (count <=? 0) (ValueError "Event count must be strictly positive") ;;;
  raise_if (MAX_INT64 <? count) (OverflowError "Event count exceeds int64 capacity") ;;;
  raise_if (key_out_of_range name)
    (ValueError "Event integer key out of range for 64-bit unsigned") ;;;
  on_backend (slog_add_event name count).

(** The [TypeError] the wrapper translates is one of the C++ backend. *)
Definition st_add_unique (item : event_key) : M streamlog unit := on_backend (slog_add_unique item).

Definition st_event_count (l : streamlog) (name : event_key) : res Z :=
  let? _ := fail_if (key_out_of_range name)
    (ValueError "Event integer key out of range for 64-bit unsigned") in
  slog_event_count (st_backend l) name.

Definition st_reset : M streamlog unit := on_backend slog_reset.
Definition st_merge (other : streamlog) : M streamlog unit :=
  on_backend (slog_merge (st_backend other)).

Definition st_total_events (l : streamlog) : Z := sl_total (st_backend l).
Definition st_latency_count (l : streamlog) : Z := dds_count (sl_latency (st_backend l)).

Definition st_to_dict (l : streamlog) : pyval := slog_to_dict (st_backend l).

(** The configuration of a restored log is the one of its checkpoint. *)
Definition st_from_dict (data : pyval) : res streamlog :=
  let? s := slog_from_dict data in
  let config := mk_log_config (dds_alpha (sl_latency s)) (hll_p (sl_uniques s))
    (cms_width (sl_events s)) (cms_depth (sl_events s)) (sl_deterministic s) in
  let? _ := new_log config in
  Ok (mk_streamlog config s).

(** ** Reports of the Python backend *)

Definition slog_memory_kb (s : slog) : res float :=
  let? b := py_float_of_Z (slog_memory_bytes s) in Ok (b / 1024)%float.

(** [round(n / 1024, 2)] *)
Definition kilobytes (n : Z) : res float :=
  let? x := py_truediv n 1024 in Ok (py_round x 2).

Record breakdown := mk_breakdown {
  ddsketch_bytes : Z;
  ddsketch_kb : float;
  ddsketch_buckets : Z;
  hyperloglog_bytes : Z;
  hyperloglog_kb : float;
  hyperloglog_registers : Z;
  countmin_bytes : Z;
  countmin_kb : float;
  countmin_cells : Z;
  total_bytes : Z;
  total_kb : float
}.

Definition slog_memory_breakdown (s : slog) : res breakdown :=
  let dd := dds_memory_bytes (sl_latency s) in
  let hll := hll_memory_bytes (sl_uniques s) in
  let cms := cms_memory_bytes (sl_events s) in
  let total := dd + hll + cms in
  let? dd_kb := kilobytes dd in
  let? hll_kb := kilobytes hll in
  let? cms_kb := kilobytes cms in
  let? all_kb := kilobytes total in
  Ok (mk_breakdown dd dd_kb
        (dict_len (dds_positive (sl_latency s)) + dict_len (dds_negative (sl_latency s)))
        hll hll_kb (hll_m (sl_uniques s))
        cms cms_kb (cms_width (sl_events s) * cms_depth (sl_events s)) total all_kb).

Record stats := mk_stats {
  stats_events : Z;
  stats_memory_bytes : Z;
  stats_memory_kb : float;
  latency_p50 : float;
  latency_p99 : float;
  latency_p999 : float;
  stats_unique_count : Z
}.

(** A quantile rounded for the report, zero for a log without latencies. *)
Definition stats_quantile (s : slog) (q : slog → res float) : res float :=
  if 0 <? dds_count (sl_latency s) then let? x := q s in Ok (py_round x 4) else Ok 0%float.

Definition slog_stats (s : slog) : res stats :=
  let? kb := slog_memory_kb s in
  let? p50 := stats_quantile s slog_p50 in
  let? p99 := stats_quantile s slog_p99 in
  let? p999 := stats_quantile s slog_p999 in
  let? uniques := slog_unique_count s in
  Ok (mk_stats (sl_total s) (slog_memory_bytes s) (py_round kb 2) p50 p99 p999 uniques).

(** ** Copies *)

Lemma dds_init_alpha a d : dds_init a = Ok d → dds_alpha d = a.
Proof.
  unfold dds_init. destruct (negb _); [done|].
  destruct (py_log _) as [x|]; cbn [res_bind]; [|done]. case_match; [done|]. by intros [= <-].
Qed.

(** The log is what its accepted calls make of a new log. *)
Definition log_of_calls (s0 s : slog) (cs : list slog_call) : Prop :=
  slog_denotes s0 s cs ∧ Forall call_valid cs.

Section copies.
Context (config : log_config) (s0 : slog) (Hi : new_log config = Ok s0).

Lemma new_log_denotes : log_of_calls s0 s0 [].
Proof using Hi. split; [by eapply slog_init_denotes|constructor]. Qed.

Lemma new_log_empty : dds_empty (sl_latency s0).
Proof using Hi. by apply slog_init_facts in Hi as [? _]. Qed.

Lemma log_of_calls_run s cs : log_of_calls s0 s cs → slog_run cs s0 = (Ok tt, s).
Proof using Hi.
  intros [D V]. eapply (slog_replay s0 new_log_empty cs s0 s []); [|done|done].
  apply new_log_denotes.
Qed.

Lemma log_of_calls_eq s s' cs : log_of_calls s0 s cs → log_of_calls s0 s' cs → s = s'.
Proof using Type. intros [D _] [D' _]. by eapply slog_denotes_eq. Qed.

Lemma log_of_calls_do s cs c :
  log_of_calls s0 s cs →
  (∃ s', slog_do c s = (Ok tt, s') ∧ log_of_calls s0 s' (cs ++ [c])) ∨
  (∃ e, slog_do c s = (Raise e, s)).
Proof using Type.
  intros [D V]. pose proof (slog_do_wf c s (sd_wf _ _ _ D)) as [_ Ha].
  destruct (slog_do c s) as [[[]|e] s'] eqn:E; simpl in *.
  - left. exists s'. split; [done|]. split; [by eapply slog_do_denotes|].
    apply Forall_app. split; [done|]. repeat constructor.
    eapply slog_do_valid; [apply D|exact E].
  - right. exists e. by rewrite (Ha e).
Qed.

Lemma log_of_calls_merge s s' cs cs' :
  log_of_calls s0 s cs → log_of_calls s0 s' cs' →
  (∃ t, slog_merge s' s = (Ok tt, t) ∧ log_of_calls s0 t (cs ++ cs')) ∨
  (∃ e, slog_merge s' s = (Raise e, s)).
Proof using Hi.
  intros [D V] [D' V']. pose proof new_log_empty as He.
  destruct (slog_merge_run s s' (sd_wf _ _ _ D) (sd_wf _ _ _ D')) as [[Hok ->]|[_ [e ->]]].
  - left. eexists. split; [done|]. split; [by apply merged_denotes|by apply Forall_app].
  - right. by exists e.
Qed.

(** Merging into an empty clone copies. *)
Lemma log_of_calls_copy s cs : log_of_calls s0 s cs → slog_merge s s0 = (Ok tt, s).
Proof using Hi.
  intros L. pose proof new_log_denotes as [D0 _]. destruct L as [D V].
  pose proof new_log_empty as He. apply slog_init_facts in Hi as [_ Ha].
  pose proof (concat_merge_ok s0 He s0 s s [] cs Ha D0 D D) as Hok.
  destruct (slog_merge_run s0 s (sd_wf _ _ _ D0) (sd_wf _ _ _ D)) as [[_ ->]|[Hno _]]; [|done].
  f_equal. eapply slog_denotes_eq; [|exact D]. by apply (merged_denotes s0 He s0 s [] cs).
Qed.

(** The configuration read off a log is the one it was made with. *)
Lemma config_of_calls s cs :
  slog_denotes s0 s cs →
  mk_log_config (dds_alpha (sl_latency s)) (hll_p (sl_uniques s)) (cms_width (sl_events s))
    (cms_depth (sl_events s)) (sl_deterministic s) = config.
Proof using Hi.
  intros D. pose proof (slog_init_ok _ _ _ _ _ _ Hi) as (Il & Ic & Ih & _ & Edet).
  destruct (cms_init_dims _ _ _ Ic) as (Ew & Ed & _). pose proof (hll_init_wf _ _ Ih) as [_ Ep].
  destruct (sd_dims _ _ _ D) as [-> ->]. rewrite (sd_precision _ _ _ D), (sd_det _ _ _ D).
  rewrite Ew, Ed, Ep, Edet.
  assert (dds_alpha (sl_latency s) = lc_accuracy config) as ->; [|by destruct config].
  rewrite (sd_latency _ _ _ D). transitivity (dds_alpha (sl_latency s0)); [apply puts_params|].
  by apply dds_init_alpha in Il.
Qed.

(** Merging is concatenating, when there is a log of all the calls. *)
Lemma log_of_calls_union s s' t cs cs' :
  log_of_calls s0 s cs → log_of_calls s0 s' cs' → log_of_calls s0 t (cs ++ cs') →
  slog_merge s' s = (Ok tt, t).
Proof using Hi.
  intros [D _] [D' _] [Dt _]. pose proof new_log_empty as He. apply slog_init_facts in Hi as [_ Ha].
  pose proof (concat_merge_ok s0 He s s' t cs cs' Ha D D' Dt) as Hok.
  destruct (slog_merge_run s s' (sd_wf _ _ _ D) (sd_wf _ _ _ D')) as [[_ ->]|[Hno _]]; [|done].
  f_equal. eapply slog_denotes_eq; [|exact Dt]. by apply (merged_denotes s0 He s s' cs cs').
Qed.

Lemma log_of_calls_prefix t cs cs' :
  log_of_calls s0 t (cs ++ cs') → ∃ s, log_of_calls s0 s cs.
Proof using Hi.
  intros L. pose proof (log_of_calls_run _ _ L) as R. destruct L as [_ V].
  apply Forall_app in V as [V _]. unfold slog_run in R. rewrite mfor_app in R.
  apply mbind_ok in R as ([] & s & R & _). exists s. split; [|done].
  eapply (slog_run_denotes cs s0 s0 [] s); [apply new_log_denotes|exact R].
Qed.

Lemma log_of_calls_reset s cs : log_of_calls s0 s cs → slog_reset s = (Ok tt, s0).
Proof using Hi.
  intros [D _]. eapply slog_reset_denotes; [apply new_log_empty|done|apply new_log_denotes].
Qed.
End copies.
End Facade.
