(* ===== verification/Concurrent.v ===== *)
(** * Shared logs ([concurrent.py], class [ThreadSafeStreamLog])

    Every method of the class runs while it holds the lock of its object, so
    a method is one atomic step; merging another shared log is two, the
    snapshot of the other object and then the merge, with steps of other
    threads possibly in between.  A run of several threads over several
    objects is a sequence of such steps, in any order.  Proved: whatever the
    interleaving, every log is the log of a history of accepted calls that
    steps, snapshots, merges and drains move as a whole.

    The readings of [time.time()] are arguments; saving and loading a file and
    the two locks themselves are left out. *)

From Stdlib Require Import PrimFloat.
From S2P Require Import Prelude PyFloat FloatRound Hashing CountMin HyperLogLog DDSketch PyVal StreamLog Checkpoint Facade.

#[local] Open Scope Z_scope.
#[local] Open Scope py_scope.

Record tslog := mk_tslog {
  tl_log : streamlog;
  tl_updated : float
}.

Definition set_log (l : streamlog) (s : tslog) : tslog := mk_tslog l (tl_updated s).
Definition set_updated (t : float) (s : tslog) : tslog := mk_tslog (tl_log s) t.

Section Concurrent.
Context `{Libm}.

Definition ts_init (config : log_config) (now : float) : res tslog :=
  let? l := st_init config in Ok (mk_tslog l now).

(** A method of [self._log] followed by [self.last_updated = time.time()],
    which an exception skips. *)
Definition updating (m : M streamlog unit) (now : float) : M tslog unit :=
  zoom tl_log set_log m ;;; mmodify (set_updated now).

Definition ts_add_latency (value : float) (now : float) : M tslog unit :=
  updating (st_add_latency value) now.
Definition ts_add_batch (values : list float) (now : float) : M tslog unit :=
  updating (st_add_batch values) now.
Definition ts_add_event (name : event_key) (count : Z) (now : float) : M tslog unit :=
  updating (st_add_event name count) now.
Definition ts_add_unique (item : event_key) (now : float) : M tslog unit :=
  updating (st_add_unique item) now.
Definition ts_reset (now : float) : M tslog unit := updating st_reset now.
(** The part of [merge] that holds the object's own lock. *)
Definition ts_merge (other : streamlog) (now : float) : M tslog unit :=
  updating (st_merge other) now.

(** [get_snapshot]: the log is merged into an empty clone. *)
Definition ts_get_snapshot : M tslog streamlog :=
  s <- mget ;;
  snapshot <- mlift (st_clone_empty (tl_log s)) ;;
  let '(r, snapshot) := st_merge (tl_log s) snapshot in
  _ <- mlift r ;;
  mret snapshot.

(** [drain]: the log itself is handed out and an empty one takes its place. *)
Definition ts_drain (now : float) : M tslog streamlog :=
  s <- mget ;;
  let snapshot := tl_log s in
  empty <- mlift (st_clone_empty snapshot) ;;
  mmodify (set_log empty) ;;;
  mmodify (set_updated now) ;;;
  mret snapshot.

(** The reading methods. *)
Definition reading {A} (f : streamlog → res A) : M tslog A :=
  s <- mget ;; mlift (f (tl_log s)).
Definition ts_p50 : M tslog float := reading (λ l, slog_p50 (st_backend l)).
Definition ts_p95 : M tslog float := reading (λ l, slog_p95 (st_backend l)).
Definition ts_p99 : M tslog float := reading (λ l, slog_p99 (st_backend l)).
Definition ts_p999 : M tslog float := reading (λ l, slog_p999 (st_backend l)).
Definition ts_percentile (q : float) : M tslog float :=
  reading (λ l, slog_percentile (st_backend l) q).
Definition ts_event_count (name : event_key) : M tslog Z := reading (λ l, st_event_count l name).
Definition ts_unique_count : M tslog Z := reading (λ l, slog_unique_count (st_backend l)).
Definition ts_total_events : M tslog Z := reading (λ l, Ok (st_total_events l)).
Definition ts_relative_accuracy : M tslog float :=
  reading (λ l, Ok (lc_accuracy (st_config l))).
Definition ts_memory_bytes : M tslog Z := reading (λ l, Ok (slog_memory_bytes (st_backend l))).
Definition ts_memory_kb : M tslog float := reading (λ l, slog_memory_kb (st_backend l)).
Definition ts_memory_breakdown : M tslog breakdown :=
  reading (λ l, slog_memory_breakdown (st_backend l)).
Definition ts_stats : M tslog stats := reading (λ l, slog_stats (st_backend l)).
Definition ts_to_dict : M tslog pyval := reading (λ l, Ok (st_to_dict l)).

(** [from_dict]: a new object whose log is then replaced. *)
Definition ts_from_dict (data : pyval) (now : float) : res tslog :=
  let? instance := ts_init default_config now in
  let? l := st_from_dict data in
  Ok (set_log l instance).

Lemma reading_readonly {A} (f : streamlog → res A) : readonly (reading f).
Proof. unfold reading. apply readonly_bind; [done|]. intros s. apply readonly_lift. Qed.

(** ** Threads

    The shared objects, the snapshots that threads hold between the two halves
    of a merge, and the logs handed out by [drain]. *)
Record world := mk_world {
  w_objs : list tslog;
  w_held : list (nat * streamlog);   (* target of the merge, snapshot *)
  w_drained : list streamlog
}.

Definition set_objs (o : list tslog) (w : world) : world := mk_world o (w_held w) (w_drained w).
Definition set_held (h : list (nat * streamlog)) (w : world) : world :=
  mk_world (w_objs w) h (w_drained w).
Definition set_drained (d : list streamlog) (w : world) : world :=
  mk_world (w_objs w) (w_held w) d.

(** One critical section of some thread: an ingestion call, a reset or a drain
    of object [i]; the first half of [objs[i].merge(objs[j])]; the second half
    of the [k]-th merge under way. *)
Inductive action :=
| ACall (i : nat) (c : slog_call) (now : float)
| AReset (i : nat) (now : float)
| ADrain (i : nat) (now : float)
| ASnapshot (j i : nat)
| AMerge (k : nat) (now : float).

Definition ts_call (c : slog_call) : float → M tslog unit :=
  match c with
  | SLatency v => ts_add_latency v
  | SBatch vs => ts_add_batch vs
  | SEvent name n => ts_add_event name n
  | SUnique item => ts_add_unique item
  end.

(** Running a method of object [i]. *)
Definition on_obj {A} (i : nat) (m : M tslog A) : M world A :=
  w <- mget ;;
  o <- mlift (py_index (w_objs w) (Z.of_nat i)) ;;
  let '(r, o') := m o in
  mmodify (set_objs (<[i := o']> (w_objs w))) ;;;
  mlift r.

Definition act (a : action) : M world unit :=
  match a with
  | ACall i c now => on_obj i (ts_call c now)
  | AReset i now => on_obj i (ts_reset now)
  | ADrain i now =>
      l <- on_obj i (ts_drain now) ;;
      mmodify (λ w, set_drained (w_drained w ++ [l]) w)
  | ASnapshot j i =>
      l <- on_obj j ts_get_snapshot ;;
      mmodify (λ w, set_held (w_held w ++ [(i, l)]) w)
  | AMerge k now =>
      w <- mget ;;
      t <- mlift (py_index (w_held w) (Z.of_nat k)) ;;
      mmodify (set_held (delete k (w_held w))) ;;;
      on_obj t.1 (ts_merge t.2 now)
  end.

(** A schedule, and which of its steps succeeded; the thread of a step that
    raises goes on with its next one. *)
Fixpoint run_schedule (acts : list action) (w : world) : list bool * world :=
  match acts with
  | [] => ([], w)
  | a :: acts =>
      let '(r, w) := act a w in
      let '(oks, w) := run_schedule acts w in
      (is_ok r :: oks, w)
  end.

(** ** The specification

    Each log is the list of the calls it accepted. *)
Record histories := mk_histories {
  h_objs : list (list slog_call);
  h_held : list (nat * list slog_call);
  h_drained : list (list slog_call)
}.

Definition hist_act (a : action) (h : histories) : histories :=
  match a with
  | ACall i c _ => mk_histories (alter (λ cs, cs ++ [c]) i (h_objs h)) (h_held h) (h_drained h)
  | AReset i _ => mk_histories (alter (λ _, []) i (h_objs h)) (h_held h) (h_drained h)
  | ADrain i _ =>
      mk_histories (alter (λ _, []) i (h_objs h)) (h_held h)
        (h_drained h ++ option_list (h_objs h !! i))
  | ASnapshot j i =>
      mk_histories (h_objs h)
        (h_held h ++ option_list ((λ cs, (i, cs)) <$> (h_objs h !! j))) (h_drained h)
  | AMerge k _ =>
      match h_held h !! k with
      | Some (i, cs') =>
          mk_histories (alter (λ cs, cs ++ cs') i (h_objs h)) (delete k (h_held h)) (h_drained h)
      | None => h
      end
  end.

(** A failed step changes no log; a failed merge also ends. *)
Definition hist_step (a : action) (ok : bool) (h : histories) : histories :=
  match a, ok with
  | _, true => hist_act a h
  | AMerge k _, false => mk_histories (h_objs h) (delete k (h_held h)) (h_drained h)
  | _, false => h
  end.

Fixpoint hist_run (acts : list action) (oks : list bool) (h : histories) : histories :=
  match acts, oks with
  | a :: acts, ok :: oks => hist_run acts oks (hist_step a ok h)
  | _, _ => h
  end.

(** ** Simulation *)

Lemma on_obj_some {A} i (m : M tslog A) w o :
  w_objs w !! i = Some o →
  on_obj i m w = (fst (m o), set_objs (<[i := snd (m o)]> (w_objs w)) w).
Proof.
  intros Ho. unfold on_obj, mbind, mget, mlift, mmodify.
  rewrite (py_index_nat _ _ o) by done. by destruct (m o).
Qed.

Lemma on_obj_none {A} i (m : M tslog A) w :
  w_objs w !! i = None → ∃ e, on_obj i m w = (Raise e, w).
Proof.
  intros Ho. unfold on_obj, mbind, mget, mlift, py_index.
  rewrite (proj2 (Z.ltb_ge (Z.of_nat i) 0)) by lia.
  rewrite (proj2 (Z.ltb_ge (Z.of_nat i) 0)), Nat2Z.id, Ho by lia. eauto.
Qed.

(** A method of the log, then the time stamp. *)
Lemma updating_run (m : M streamlog unit) now o :
  updating m now o =
  match m (tl_log o) with
  | (Ok _, l) => (Ok (), mk_tslog l now)
  | (Raise e, l) => (Raise e, set_log l o)
  end.
Proof. unfold updating, mbind, zoom. by destruct (m (tl_log o)) as [[[]|e] l]. Qed.

Lemma on_backend_run (m : M slog unit) l :
  on_backend m l = (fst (m (st_backend l)), set_backend (snd (m (st_backend l))) l).
Proof. apply zoom_run. Qed.

Lemma st_add_event_run name n l : st_add_event name n l = on_backend (slog_add_event name n) l.
Proof.
  unfold st_add_event. rewrite on_backend_run. unfold mbind, raise_if, slog_add_event.
  destruct (n <=? 0); [by destruct l|]. destruct (MAX_INT64 <? n); [by destruct l|].
  destruct (key_out_of_range name); [by destruct l|]. by rewrite <- on_backend_run.
Qed.

Lemma ts_call_run c now o :
  ts_call c now o = updating (on_backend (slog_do c)) now o.
Proof.
  destruct c; try done. unfold ts_call, ts_add_event. rewrite !updating_run.
  by rewrite st_add_event_run.
Qed.

Section simulation.
Context (config : log_config) (s0 : slog) (Hi : new_log config = Ok s0).

Definition holds (l : streamlog) (cs : list slog_call) : Prop :=
  st_config l = config ∧ log_of_calls s0 (st_backend l) cs.

Record simulates (w : world) (h : histories) : Prop := {
  sim_objs : Forall2 (λ o cs, holds (tl_log o) cs) (w_objs w) (h_objs h);
  sim_held : Forall2 (λ t u, t.1 = u.1 ∧ holds t.2 u.2) (w_held w) (h_held h);
  sim_drained : Forall2 holds (w_drained w) (h_drained h)
}.

Lemma holds_new : holds (mk_streamlog config s0) [].
Proof using Hi. split; [done|]. by eapply new_log_denotes. Qed.

Lemma clone_run l cs : holds l cs → st_clone_empty l = Ok (mk_streamlog config s0).
Proof using Hi. intros [E _]. unfold st_clone_empty, st_init. by rewrite E, Hi. Qed.

(** An update of the log that keeps or fails. *)
Lemma updating_sim (m : M slog unit) now o cs cs' :
  holds (tl_log o) cs →
  (∃ s', m (st_backend (tl_log o)) = (Ok tt, s') ∧ log_of_calls s0 s' cs') ∨
  (∃ e, m (st_backend (tl_log o)) = (Raise e, st_backend (tl_log o))) →
  let '(r, o') := updating (on_backend m) now o in
  holds (tl_log o') (if is_ok r then cs' else cs).
Proof using Type.
  intros [Ec L] Hm. rewrite updating_run, on_backend_run.
  destruct Hm as [(s' & -> & L')|(e & ->)]; simpl.
  - by split.
  - by destruct o as [[c b] t].
Qed.

Lemma simulates_update w h i o cs o' cs' :
  simulates w h → w_objs w !! i = Some o → h_objs h !! i = Some cs → holds (tl_log o') cs' →
  simulates (set_objs (<[i := o']> (w_objs w)) w)
    (mk_histories (<[i := cs']> (h_objs h)) (h_held h) (h_drained h)).
Proof using Type.
  intros [S1 S2 S3] Ho Hc Ho'. split; [|done|done]. by apply Forall2_insert.
Qed.

Lemma sim_lookup w h i o : simulates w h → w_objs w !! i = Some o →
  ∃ cs, h_objs h !! i = Some cs ∧ holds (tl_log o) cs.
Proof using Type.
  intros S Ho. destruct (Forall2_lookup_l _ _ _ _ _ (sim_objs _ _ S) Ho) as (cs & ? & ?). eauto.
Qed.

Lemma alter_lookup {A} (f : A → A) i (l : list A) x :
  l !! i = Some x → alter f i l = <[i := f x]> l.
Proof using Type.
  revert i. induction l as [|y l IH]; intros [|i] E; simplify_eq/=; [done|]. f_equal. by apply IH.
Qed.

Lemma histories_eta h : mk_histories (h_objs h) (h_held h) (h_drained h) = h.
Proof using Type. by destruct h. Qed.

(** A method of object [i] with outcome [f] on its history. *)
Lemma on_obj_sim w h i (m : M tslog unit) (f : list slog_call → list slog_call) :
  simulates w h →
  (∀ o cs, holds (tl_log o) cs →
    let '(r, o') := m o in holds (tl_log o') (if is_ok r then f cs else cs)) →
  let '(r, w') := on_obj i m w in
  simulates w' (if is_ok r
    then mk_histories (alter f i (h_objs h)) (h_held h) (h_drained h) else h).
Proof using Type.
  intros S Hm. destruct (w_objs w !! i) as [o|] eqn:Ho.
  - rewrite (on_obj_some _ _ _ o) by done. destruct (sim_lookup w h i o S Ho) as (cs & Hc & L).
    specialize (Hm o cs L). destruct (m o) as [r o']. simpl.
    pose proof (simulates_update w h i o cs o' _ S Ho Hc Hm) as S'.
    destruct (is_ok r); [by rewrite (alter_lookup _ _ _ cs)|].
    rewrite (list_insert_id (h_objs h) i cs Hc), histories_eta in S'. exact S'.
  - destruct (on_obj_none i m w Ho) as [e ->]. done.
Qed.

Lemma merge_sim l cs' o cs now :
  holds l cs' → holds (tl_log o) cs →
  let '(r, o') := ts_merge l now o in
  holds (tl_log o') (if is_ok r then cs ++ cs' else cs).
Proof using Hi.
  intros [_ Ll] L. apply (updating_sim (slog_merge (st_backend l))); [done|].
  destruct L as [_ L]. by apply (log_of_calls_merge config s0 Hi).
Qed.

Lemma snapshot_run o cs : holds (tl_log o) cs → ts_get_snapshot o = (Ok (tl_log o), o).
Proof using Hi.
  intros L. unfold ts_get_snapshot, mbind, mget, mlift, mret. rewrite (clone_run _ _ L).
  unfold st_merge. rewrite on_backend_run. cbn [st_backend].
  destruct L as [Ec L]. rewrite (log_of_calls_copy config s0 Hi _ _ L). cbn.
  unfold set_backend. cbn. rewrite <- Ec. by destruct (tl_log o).
Qed.

Lemma drain_run o cs now :
  holds (tl_log o) cs →
  ts_drain now o = (Ok (tl_log o), mk_tslog (mk_streamlog config s0) now).
Proof using Hi.
  intros L. unfold ts_drain, mbind, mget, mlift, mmodify, mret. by rewrite (clone_run _ _ L).
Qed.

Lemma act_simulates a w h :
  simulates w h →
  let '(r, w') := act a w in simulates w' (hist_step a (is_ok r) h).
Proof using Hi.
  intros S. destruct a as [i c now|i now|i now|j i|k now]; cbn [act hist_step hist_act].
  - opose proof (on_obj_sim w h i (ts_call c now) (λ cs, cs ++ [c]) S _) as Hx.
    { intros o cs L. rewrite ts_call_run. apply updating_sim; [done|].
      destruct L as [_ L]. by apply log_of_calls_do. }
    destruct (on_obj i (ts_call c now) w) as [r w']. by destruct (is_ok r).
  - opose proof (on_obj_sim w h i (ts_reset now) (λ _, []) S _) as Hx.
    { intros o cs L. apply (updating_sim slog_reset _ _ cs []); [done|]. left. exists s0.
      destruct L as [_ L].
      split; [by apply (log_of_calls_reset config s0 Hi _ cs)|by eapply new_log_denotes]. }
    destruct (on_obj i (ts_reset now) w) as [r w']. by destruct (is_ok r).
  - unfold mbind. destruct (w_objs w !! i) as [o|] eqn:Ho.
    + rewrite (on_obj_some _ _ _ o) by done. destruct (sim_lookup w h i o S Ho) as (cs & Hc & L).
      rewrite (drain_run o cs) by done. cbn. rewrite Hc, (alter_lookup _ _ _ cs) by done. cbn.
      destruct (simulates_update w h i o cs (mk_tslog (mk_streamlog config s0) now) [] S Ho Hc
        holds_new) as [S1 S2 S3].
      split; [done|done|]. cbn. apply Forall2_app; [apply S|]. apply Forall2_cons_2; [done|constructor].
    + destruct (on_obj_none i (ts_drain now) w Ho) as [e ->]. done.
  - unfold mbind. destruct (w_objs w !! j) as [o|] eqn:Ho.
    + rewrite (on_obj_some _ _ _ o) by done. destruct (sim_lookup w h j o S Ho) as (cs & Hc & L).
      rewrite (snapshot_run o cs) by done. cbn. rewrite Hc. cbn.
      rewrite list_insert_id by done. destruct S as [S1 S2 S3]. split; [done| |done]. cbn.
      apply Forall2_app; [done|]. apply Forall2_cons_2; [by split|constructor].
    + destruct (on_obj_none j ts_get_snapshot w Ho) as [e ->]. done.
  - destruct (w_held w !! k) as [[i l]|] eqn:Hk.
    + step_run (mget_run w). step_run (mlift_run _ _ w (py_index_nat _ _ _ Hk)).
      step_run (mmodify_run (S := world)). cbn [fst snd].
      destruct (Forall2_lookup_l _ _ _ _ _ (sim_held _ _ S) Hk) as ([i' cs'] & Hk' & Ei & L).
      cbn in Ei, L. subst i'.
      set (h' := mk_histories (h_objs h) (delete k (h_held h)) (h_drained h)).
      assert (simulates (set_held (delete k (w_held w)) w) h') as S'
        by (destruct S as [S1 S2 S3]; split; [done|by apply Forall2_delete|done]).
      opose proof (on_obj_sim _ h' i (ts_merge l now) (λ cs, cs ++ cs') S' _) as Hx;
        [intros o cs L'; by apply merge_sim|].
      destruct (on_obj i (ts_merge l now) _) as [r w']. rewrite Hk'. by destruct (is_ok r).
    + assert (h_held h !! k = None) as Hk'.
      { apply lookup_ge_None. rewrite <- (Forall2_length _ _ _ (sim_held _ _ S)).
        by apply lookup_ge_None. }
      step_run (mget_run w). unfold mbind, mlift, py_index.
      rewrite (proj2 (Z.ltb_ge (Z.of_nat k) 0)) by lia.
      rewrite (proj2 (Z.ltb_ge (Z.of_nat k) 0)), Nat2Z.id, Hk by lia. cbn.
      assert (delete k (h_held h) = h_held h) as ->; [|by rewrite histories_eta].
      clear -Hk'. revert k Hk'. generalize (h_held h).
      induction l as [|x l IH]; intros [|k] Hk; simplify_eq/=; [done..|]. f_equal. by apply IH.
Qed.

Lemma run_simulates acts w h :
  simulates w h →
  simulates (run_schedule acts w).2 (hist_run acts (run_schedule acts w).1 h).
Proof using Hi.
  revert w h. induction acts as [|a acts IH]; intros w h S; [done|].
  cbn. pose proof (act_simulates a w h S) as S'. destruct (act a w) as [r w'].
  specialize (IH w' _ S'). destruct (run_schedule acts w') as [oks w'']. exact IH.
Qed.

(** *** Conservation *)

(** Calls, drains and snapshots: the steps that neither drop nor add calls of
    their own. *)
Definition keeps_calls (a : action) : bool :=
  match a with ACall _ _ _ | ADrain _ _ | ASnapshot _ _ => true | _ => false end.

(** The calls a schedule accepted. *)
Definition accepted1 (a : action) (ok : bool) : list slog_call :=
  match a, ok with ACall _ c _, true => [c] | _, _ => [] end.
Fixpoint accepted (acts : list action) (oks : list bool) : list slog_call :=
  match acts, oks with
  | a :: acts, ok :: oks => accepted1 a ok ++ accepted acts oks
  | _, _ => []
  end.

Definition all_calls (h : histories) : list slog_call :=
  concat (h_drained h) ++ concat (h_objs h).

Lemma concat_insert (l : list (list slog_call)) i cs cs' :
  l !! i = Some cs → cs ++ concat (<[i := cs']> l) ≡ₚ cs' ++ concat l.
Proof using Type.
  revert i. induction l as [|x l IH]; intros [|i] Hi'; simplify_eq/=.
  - by rewrite !(Permutation_app_comm cs), <- !app_assoc, (Permutation_app_comm cs' (concat l ++ cs)),
      <- !app_assoc, (Permutation_app_comm cs cs'), app_assoc, (Permutation_app_comm (concat l)), <- app_assoc.
  - rewrite (Permutation_app_swap_app cs), IH by done. by rewrite Permutation_app_swap_app.
Qed.

Lemma ok_call_in_range i (m : M tslog unit) w :
  is_ok (on_obj i m w).1 = true → is_Some (w_objs w !! i).
Proof using Type.
  intros E. destruct (w_objs w !! i) eqn:Ho; [done|].
  by destruct (on_obj_none i m w Ho) as [e Ee]; rewrite Ee in E.
Qed.

Lemma act_conserves a w h :
  simulates w h → keeps_calls a = true →
  let ok := is_ok (act a w).1 in
  all_calls (hist_step a ok h) ≡ₚ all_calls h ++ accepted1 a ok.
Proof using Type.
  intros S Ha ok. unfold all_calls. destruct a as [i c now| |i now|j i|]; try done.
  - cbn [hist_step hist_act accepted1]. destruct ok eqn:Hok; [|by rewrite app_nil_r].
    destruct (ok_call_in_range i (ts_call c now) w Hok) as [o Ho].
    destruct (sim_lookup w h i o S Ho) as (cs & Hc & _).
    cbn. rewrite (alter_lookup _ _ _ cs), <- app_assoc by done. f_equiv.
    apply (Permutation_app_inv_l cs). rewrite concat_insert by done.
    rewrite <- app_assoc. f_equiv. apply Permutation_app_comm.
  - cbn [hist_step hist_act accepted1]. destruct ok; [|by rewrite app_nil_r].
    cbn. rewrite app_nil_r. destruct (h_objs h !! i) as [cs|] eqn:Hc; cbn.
    + rewrite (alter_lookup _ _ _ cs), concat_app by done. cbn. rewrite app_nil_r, <- app_assoc.
      by rewrite (concat_insert _ _ _ [] Hc).
    + rewrite app_nil_r. f_equiv. clear -Hc. revert i Hc. generalize (h_objs h).
      induction l as [|x l IH]; intros [|i] Hk; simplify_eq/=; [done..|]. by rewrite IH.
  - cbn [hist_step hist_act accepted1]. destruct ok; by rewrite app_nil_r.
Qed.

Lemma run_conserves acts w h :
  simulates w h → Forall (λ a, keeps_calls a = true) acts →
  all_calls (hist_run acts (run_schedule acts w).1 h)
    ≡ₚ all_calls h ++ accepted acts (run_schedule acts w).1.
Proof using Hi.
  intros S Ha. revert w h S. induction Ha as [|a acts Ha Has IH]; intros w h S;
    [by rewrite app_nil_r|].
  cbn. pose proof (act_simulates a w h S) as S'. pose proof (act_conserves a w h S Ha) as Hc.
  destruct (act a w) as [r w']. specialize (IH w' _ S').
  destruct (run_schedule acts w') as [oks w'']. cbn in *. by rewrite IH, Hc, app_assoc.
Qed.
End simulation.
End Concurrent.

(** ** Properties *)

(** The world of [n] new objects. *)
Definition new_world `{Libm} (config : log_config) (s0 : slog) (n : nat) (now : float) : world :=
  mk_world (replicate n (mk_tslog (mk_streamlog config s0) now)) [] [].

(** C21. Shared logs under any interleaving.  However the critical sections of
    the threads interleave, failed calls included, every shared log, every
    snapshot a merge holds and every drained log is exactly the log that
    executing its history of accepted calls one by one gives, where the
    histories follow the specification [hist_step]; and as long as nothing is
    reset or merged, the calls in the drained and the live histories together
    are the accepted calls, none lost and none twice. *)
Theorem shared_logs_refine_histories `{Libm} config s0 n now acts :
  ts_init config now = Ok (mk_tslog (mk_streamlog config s0) now) →
  let '(oks, w) := run_schedule acts (new_world config s0 n now) in
  let h := hist_run acts oks (mk_histories (replicate n []) [] []) in
  let executed l cs := st_config l = config ∧ slog_run cs s0 = (Ok tt, st_backend l) in
  Forall2 (λ o, executed (tl_log o)) (w_objs w) (h_objs h) ∧
  Forall2 (λ t u, t.1 = u.1 ∧ executed t.2 u.2) (w_held w) (h_held h) ∧
  Forall2 executed (w_drained w) (h_drained h) ∧
  (Forall (λ a, keeps_calls a = true) acts →
   concat (h_drained h) ++ concat (h_objs h) ≡ₚ accepted acts oks).
Proof.
  intros Hi. unfold ts_init, st_init in Hi.
  destruct (new_log config) as [b|] eqn:Hn; [|done]. cbn in Hi. injection Hi as ->.
  assert (simulates config s0 (new_world config s0 n now) (mk_histories (replicate n []) [] [])) as S.
  { split; cbn; [|constructor..]. apply Forall2_replicate. by apply holds_new. }
  pose proof (run_simulates config s0 Hn acts _ _ S) as [S1 S2 S3].
  pose proof (run_conserves config s0 Hn acts _ _ S) as Hc.
  destruct (run_schedule acts _) as [oks w]. cbn in *.
  assert (∀ l cs, holds config s0 l cs → st_config l = config ∧
    slog_run cs s0 = (Ok tt, st_backend l)) as He
    by (intros l cs [? L]; split; [done|by eapply log_of_calls_run]).
  split_and!.
  - eapply Forall2_impl; [exact S1|]. cbn. auto.
  - eapply Forall2_impl; [exact S2|]. cbn. naive_solver.
  - eapply Forall2_impl; [exact S3|]. auto.
  - intros Ha. specialize (Hc Ha). unfold all_calls in Hc. cbn in Hc. rewrite Hc.
    assert (concat (replicate n ([] : list slog_call)) = []) as ->; [|done].
    clear. by induction n.
Qed.

Definition shared_config : log_config := mk_log_config 0.5%float 4 2 1 true.

(** Two objects: a merge of the second into the first with a call in between,
    a call that is refused, a merge of an object that does not exist. *)
Definition shared_schedule : list action :=
  [ACall 0 (SEvent (KStr "a") 2) 1%float; ACall 1 (SLatency 4%float) 2%float;
   ASnapshot 1 0; ACall 1 (SUnique (KInt 7)) 3%float; AMerge 0 4%float;
   ACall 0 (SEvent (KStr "b") 0) 5%float; ADrain 1 6%float; ASnapshot 5 0].

Lemma shared_logs_refine_histories_witness :
  let '(oks, w) := run_schedule (H := coarse_libm) shared_schedule
    (new_world (H := coarse_libm) shared_config demo_log 2 0%float) in
  oks = [true; true; true; true; true; false; true; false] ∧
  map (λ o, sl_total (st_backend (tl_log o))) (w_objs w) = [3; 0] ∧
  Forall2 (λ l cs, st_config l = shared_config ∧
      slog_run (H := coarse_libm) cs demo_log = (Ok tt, st_backend l))
    (w_drained w) [[SLatency 4%float; SUnique (KInt 7)]].
Proof.
  pose proof (shared_logs_refine_histories (H := coarse_libm) shared_config demo_log 2 0%float
    shared_schedule) as Ht.
  destruct (run_schedule _ _) as [oks w] eqn:E.
  assert (oks = [true; true; true; true; true; false; true; false]) as ->
    by (apply (f_equal fst) in E; vm_compute in E; congruence).
  split; [reflexivity|]. split; [|by destruct Ht as (_ & _ & Hd & _)].
  apply (f_equal snd) in E. apply (f_equal (λ w, map (λ o, sl_total (st_backend (tl_log o))) (w_objs w))) in E.
  vm_compute in E. symmetry. exact E.
Defined.
