(* ===== verification/Storage.v ===== *)
(** * Durable storage ([storage.py])

    The two backends of the registry.  [SQLAlchemyStorage] keeps one row per
    stream and one per tombstone; a save is three steps between which other
    coroutines run: the log is serialised in a worker thread, its time stamp
    is read, and the row is replaced if its time stamp is older.
    [OmniKVEmbeddedStorage] keeps text values under path keys built from
    base64 parts, reads the time stamp first, and writes a tombstone before it
    deletes.  Proved: keys of different streams and tombstones never meet, and
    whatever is saved, deleted or buried, the newest version survives.

    The database, the embedded store, zlib and the text of a document are
    outside the source: a row holds the document itself, the size of its text
    and of the compressed text are parameters, and so is the outcome of every
    access.  Opening a client, health checks and closing are left out. *)

From Stdlib Require Import PrimFloat Ascii String.
From S2P Require Import Prelude PyFloat FloatRound Hashing PyVal PyDict PyNum Json CountMin HyperLogLog DDSketch StreamLog Checkpoint Facade Concurrent.

#[local] Open Scope Z_scope.
#[local] Open Scope py_scope.
#[local] Set Warnings "-inexact-float".

Definition MAX_SERIALIZED_STATE_BYTES : Z := 32 * 1024 * 1024.

(** Sizes of the text of a document and of the compressed text. *)
Class Serializer := {
  dumps_size : pyval → Z;
  zlib_size : pyval → Z
}.

(** The table of states (payload and time stamp by namespace and stream) and the
    table of tombstones (version by node and stream key). *)
Notation sql_rows := (gmap (string * string) (pyval * float)).
Notation sql_tombs := (gmap (string * string) float).

(** ** Serialisation *)

Section serialization.
Context `{Libm} `{Serializer}.

(** [_serialize_and_compress_stream]; a row holds the document whose text was
    compressed. *)
Definition serialize_stream (l : streamlog) : res pyval :=
  let doc := json_roundtrip (st_to_dict l) in
  if MAX_SERIALIZED_STATE_BYTES <? dumps_size doc
  then Raise (ValueError "Serialized state exceeds the 32 MiB limit")
  else Ok doc.

(** [_decompress_and_deserialize_stream] *)
Definition deserialize_stream (payload : pyval) : res pyval :=
  if MAX_SERIALIZED_STATE_BYTES <? zlib_size payload
  then Raise (ValueError "Compressed state exceeds the 32 MiB limit")
  else if MAX_SERIALIZED_STATE_BYTES <? dumps_size payload
  then Raise (ValueError "Decompressed state exceeds the 32 MiB limit")
  else Ok payload.

(** A [ThreadSafeStreamLog] around a log read back.  The object is created
    first, so its defaults matter only when its construction fails. *)
Definition wrap_loaded (deterministic : bool) (now : float) (data : pyval) (last_updated : float)
    : res tslog :=
  let? l := st_from_dict data in
  let? _ := ts_init (mk_log_config (lc_accuracy default_config) (lc_precision default_config)
    (lc_width default_config) (lc_depth default_config) deterministic) now in
  Ok (mk_tslog l last_updated).

(** ** Rows *)

(** The transaction of [save]: a new row, or a newer version of the old one. *)
Definition sql_commit (key : string * string) (payload : pyval) (last_updated : float)
    (r : sql_rows) : sql_rows :=
  match r !! key with
  | None => <[key := (payload, last_updated)]> r
  | Some (_, stored) =>
      if flt stored last_updated then <[key := (payload, last_updated)]> r else r
  end.

(** [load]: every failure after the row was read counts as no stream. *)
Definition sql_load (deterministic : bool) (now : float) (key : string * string) (r : sql_rows)
    : option tslog :=
  match r !! key with
  | None => None
  | Some (payload, last_updated) =>
      match (let? data := deserialize_stream payload in
             wrap_loaded deterministic now data last_updated) with
      | Ok s => Some s
      | Raise _ => None
      end
  end.

Definition sql_delete (key : string * string) (r : sql_rows) : bool * sql_rows :=
  (match r !! key with Some _ => true | None => false end, delete key r).

(** A version is only ever raised. *)
Definition sql_save_tombstone (node_id stream_key : string) (version : float) (t : sql_tombs) : sql_tombs :=
  match t !! (node_id, stream_key) with
  | None => <[(node_id, stream_key) := version]> t
  | Some stored =>
      if flt stored version then <[(node_id, stream_key) := version]> t else t
  end.

(** One transaction. *)
Definition sql_delete_with_tombstone (key : string * string) (node_id stream_key : string)
    (version : float) (s : sql_rows * sql_tombs) : bool * (sql_rows * sql_tombs) :=
  let '(deleted, r) := sql_delete key s.1 in
  (deleted, (r, sql_save_tombstone node_id stream_key version s.2)).

Definition by_node (t : sql_tombs) : gmap string (gmap string float) :=
  map_curry (M1 := gmap string) (M2 := gmap string) t.
Definition sql_load_tombstones (node_id : string) (t : sql_tombs) : gmap string float :=
  default ∅ (by_node t !! node_id).
End serialization.

(** ** Path keys of the embedded store *)

(** [base64.urlsafe_b64encode(b).rstrip("=")]: three bytes are four characters
    of six bits, and the padding is dropped. *)
Definition b64_char (n : Z) : ascii :=
  if n <? 26 then byte (65 + n)
  else if n <? 52 then byte (97 + (n - 26))
  else if n <? 62 then byte (48 + (n - 52))
  else if n =? 62 then byte 45 else byte 95.

Fixpoint b64 (l : list ascii) : list ascii :=
  match l with
  | a :: b :: c :: l' =>
      b64_char (code a / 4) :: b64_char (code a mod 4 * 16 + code b / 16)
      :: b64_char (code b mod 16 * 4 + code c / 64) :: b64_char (code c mod 64) :: b64 l'
  | [a; b] =>
      [b64_char (code a / 4); b64_char (code a mod 4 * 16 + code b / 16);
       b64_char (code b mod 16 * 4)]
  | [a] => [b64_char (code a / 4); b64_char (code a mod 4 * 16)]
  | [] => []
  end.

Definition encode_key_part (s : string) : list ascii := b64 (list_ascii_of_string s).

Definition slash : ascii := byte 47.
Definition STATE_KEY_PREFIX : list ascii := list_ascii_of_string "sketchlog/v1/streams".
Definition TOMBSTONE_KEY_PREFIX : list ascii := list_ascii_of_string "sketchlog/v1/tombstones".

Definition state_key (namespace stream_id : string) : list ascii :=
  STATE_KEY_PREFIX ++ [slash] ++ encode_key_part namespace ++ [slash] ++ encode_key_part stream_id.
Definition tombstone_prefix (node_id : string) : list ascii :=
  TOMBSTONE_KEY_PREFIX ++ [slash] ++ encode_key_part node_id ++ [slash].
Definition tombstone_key (node_id stream_key : string) : list ascii :=
  tombstone_prefix node_id ++ encode_key_part stream_key.

(** ** The embedded store *)

(** The client's keys and values; a value is the document of its text. *)
Notation kv_store := (gmap (list ascii) pyval).

Section omni.
Context `{Libm} `{Serializer}.
(** base64 of the compressed text of a document, and back. *)
Context (pack : pyval → string) (unpack : string → res pyval).
(** [float(s)] of a text. *)
Context (float_of_str : string → res float).

Definition STATE_ENVELOPE_VERSION : Z := 1.

Definition state_envelope (l : streamlog) (last_updated : float) : res pyval :=
  let? payload := serialize_stream l in
  Ok (VDict [(VStr "last_updated", VFloat last_updated);
             (VStr "payload", VStr (pack payload));
             (VStr "payload_encoding", VStr "zlib+base64");
             (VStr "schema", VInt STATE_ENVELOPE_VERSION)]).

(** [float(v)] of a member *)
Definition float_member (v : pyval) : res float :=
  match v with
  | VFloat x => Ok x
  | VInt z => py_float_of_Z z
  | VBool b => Ok (if b then 1 else 0)%float
  | VStr s => float_of_str s
  | _ => Raise (TypeError "float() argument must be a string or a real number")
  end.

(** [d.get(k) != v] *)
Definition member_differs (d : pydict) (k : string) (v : pyval) : bool :=
  negb (py_eq (default VNone (dict_get d k)) v).

Definition parse_envelope_body (envelope : pyval) : res (pyval * float) :=
  let? d := expect (as_dict envelope) "state envelope must be a JSON object" in
  let? _ := fail_if (member_differs d "schema" (VInt STATE_ENVELOPE_VERSION))
    (ValueError "unsupported state envelope schema") in
  let? _ := fail_if (member_differs d "payload_encoding" (VStr "zlib+base64"))
    (ValueError "unsupported state payload encoding") in
  let? v := dict_item d "last_updated" in
  let? last_updated := float_member v in
  let? raw := dict_item d "payload" in
  let? text := expect (match raw with VStr s => Some s | _ => None end)
    "state payload must be a string" in
  let? payload := unpack text in
  Ok (payload, last_updated).

Definition malformed_envelope (e : exn) : exn :=
  match e with
  | KeyError _ | TypeError _ | ValueError _ => ValueError "Malformed storage state envelope"
  | e => e
  end.

Definition parse_state_envelope (envelope : pyval) : res (pyval * float) :=
  match parse_envelope_body envelope with
  | Ok (payload, last_updated) =>
      let? data := deserialize_stream payload in Ok (data, last_updated)
  | Raise e => Raise (malformed_envelope e)
  end.

(** [save] after the value was built: an older or malformed value is
    replaced. *)
Definition omni_commit (namespace stream_id : string) (value : pyval) (last_updated : float)
    (s : kv_store) : res kv_store :=
  let key := state_key namespace stream_id in
  match s !! key with
  | None => Ok (<[key := value]> s)
  | Some existing =>
      match parse_state_envelope existing with
      | Ok (_, stored) =>
          if fle last_updated stored then Ok s else Ok (<[key := value]> s)
      | Raise (ValueError _) => Ok (<[key := value]> s)
      | Raise e => Raise e
      end
  end.

(** [save] without interleaving: the time stamp is read before the log is
    serialised. *)
Definition omni_save (namespace stream_id : string) (log : tslog) (s : kv_store) : res kv_store :=
  let? value := state_envelope (tl_log log) (tl_updated log) in
  omni_commit namespace stream_id value (tl_updated log) s.

Definition omni_load (deterministic : bool) (now : float) (namespace stream_id : string) (s : kv_store)
    : option tslog :=
  match s !! state_key namespace stream_id with
  | None => None
  | Some value =>
      match (let? p := parse_state_envelope value in
             wrap_loaded deterministic now p.1 p.2) with
      | Ok l => Some l
      | Raise _ => None
      end
  end.

Definition omni_delete (namespace stream_id : string) (s : kv_store) : bool * kv_store :=
  let key := state_key namespace stream_id in
  match s !! key with None => (false, s) | Some _ => (true, delete key s) end.

Definition tombstone_envelope (stream_key : string) (version : float) : pyval :=
  VDict [(VStr "schema", VInt 1); (VStr "stream_key", VStr stream_key);
         (VStr "version", VFloat version)].

(** [_tombstone_version]: a missing or malformed tombstone is older than any;
    a float overflow is not caught. *)
Definition tombstone_version (value : option pyval) : res float :=
  match value with
  | None => Ok neg_infinity
  | Some v =>
      match (let? d := match v with
                       | VDict d => Ok d
                       | _ => Raise (TypeError "indices must be integers")
                       end in
             let? x := dict_item d "version" in float_member x) with
      | Ok x => Ok x
      | Raise (KeyError _) | Raise (TypeError _) | Raise (ValueError _) => Ok neg_infinity
      | Raise e => Raise e
      end
  end.

Definition put_tombstone_if_newer (key : list ascii) (stream_key : string) (version : float)
    (s : kv_store) : res (bool * kv_store) :=
  let? current := tombstone_version (s !! key) in
  if fle version current then Ok (false, s)
  else Ok (true, <[key := tombstone_envelope stream_key version]> s).

Definition omni_save_tombstone (node_id stream_key : string) (version : float) (s : kv_store)
    : res kv_store :=
  let? r := put_tombstone_if_newer (tombstone_key node_id stream_key) stream_key version s in
  Ok r.2.

(** [scan_prefix(prefix)]: the entries whose key starts with the prefix. *)
Definition scan_prefix (prefix : list ascii) (s : kv_store) : list (list ascii * pyval) :=
  filter (λ e, starts_with prefix e.1 = true) (map_to_list s).

(** One row of [load_tombstones]; a malformed one is skipped, [str] of a member
    that is not a string is not modelled and counts as malformed. *)
Definition read_tombstone (acc : gmap string float) (e : list ascii * pyval)
    : res (gmap string float) :=
  match (let? d := match e.2 with
                   | VDict d => Ok d
                   | _ => Raise (TypeError "indices must be integers")
                   end in
         let? k := dict_item d "stream_key" in
         let? k := expect (match k with VStr k => Some k | _ => None end) "stream_key" in
         let? v := dict_item d "version" in
         let? v := float_member v in Ok (k, v)) with
  | Ok (k, v) => Ok (<[k := fmax v (default v (acc !! k))]> acc)
  | Raise (KeyError _) | Raise (TypeError _) | Raise (ValueError _) => Ok acc
  | Raise e => Raise e
  end.

Definition omni_load_tombstones (node_id : string) (s : kv_store) : res (gmap string float) :=
  res_fold read_tombstone (scan_prefix (tombstone_prefix node_id) s) ∅.

(** The tombstone is durable before the state is deleted: the states the store
    goes through, in order, and whether a state was deleted. *)
Definition omni_delete_with_tombstone (namespace stream_id node_id stream_key : string)
    (version : float) (s : kv_store) : res (bool * list kv_store) :=
  let? r := put_tombstone_if_newer (tombstone_key node_id stream_key) stream_key version s in
  let s1 := r.2 in
  match s1 !! state_key namespace stream_id with
  | None => Ok (false, [s1])
  | Some _ => Ok (true, [s1; delete (state_key namespace stream_id) s1])
  end.
End omni.

(** ** Keys *)

Definition b64_value (a : ascii) : Z :=
  let c := code a in
  if c =? 45 then 62 else if c =? 95 then 63
  else if c <? 58 then c - 48 + 52 else if c <? 91 then c - 65 else c - 97 + 26.

Lemma b64_chars :
  Forall (λ n, b64_value (b64_char n) = n ∧ b64_char n ≠ slash) (seqZ 0 64).
Proof. repeat (apply Forall_cons; split; [split; [reflexivity|discriminate]|]). constructor. Qed.

Lemma b64_char_spec n : 0 ≤ n < 64 → b64_value (b64_char n) = n ∧ b64_char n ≠ slash.
Proof.
  intros Hn. pose proof b64_chars as H. rewrite Forall_forall in H. apply H.
  apply elem_of_seqZ. lia.
Qed.

Lemma b64_char_inj n m : 0 ≤ n < 64 → 0 ≤ m < 64 → b64_char n = b64_char m → n = m.
Proof.
  intros Hn Hm E. apply b64_char_spec in Hn as [<- _], Hm as [<- _]. by rewrite E.
Qed.

Lemma code_range a : 0 ≤ code a < 256.
Proof. unfold code. pose proof (nat_ascii_bounded a). lia. Qed.

Lemma code_inj a b : code a = code b → a = b.
Proof.
  unfold code. intros E%Nat2Z.inj. rewrite <- (ascii_nat_embedding a), E.
  apply ascii_nat_embedding.
Qed.

(** The fields of the characters of a group determine its bytes. *)
Ltac b64_fields :=
  repeat match goal with
  | H : b64_char _ = b64_char _ |- _ => apply b64_char_inj in H; [|b64_range..]
  end
with b64_range :=
  repeat match goal with a : ascii |- _ => lazymatch goal with
    | _ : 0 ≤ code a < 256 |- _ => fail
    | _ => pose proof (code_range a) end end; Z.div_mod_to_equations; lia.

Lemma b64_inj : ∀ l l', b64 l = b64 l' → l = l'.
Proof.
  fix IH 1. intros [|a [|b [|c l]]] [|a' [|b' [|c' l']]] E; simpl in E; try discriminate E;
    try done; injection E; clear E; intros.
  - b64_fields. f_equal. apply code_inj. b64_range.
  - b64_fields. assert (code a = code a') as ->%code_inj by b64_range.
    assert (code b = code b') as ->%code_inj by b64_range. done.
  - apply IH in H. b64_fields. assert (code a = code a') as ->%code_inj by b64_range.
    assert (code b = code b') as ->%code_inj by b64_range.
    assert (code c = code c') as ->%code_inj by b64_range. by subst.
Qed.

Lemma b64_no_slash : ∀ l, slash ∉ b64 l.
Proof.
  fix IH 1.
  assert (∀ n l, 0 ≤ n < 64 → slash ∉ l → slash ∉ b64_char n :: l) as Hc.
  { intros n l Hn Hl [E|]%elem_of_cons; [|done]. by apply b64_char_spec in Hn as [_ []]. }
  intros [|a [|b [|c l]]]; simpl; [by apply not_elem_of_nil|..];
    repeat (apply Hc; [b64_range|]); [apply not_elem_of_nil..|apply IH].
Qed.

Lemma split_slash (l1 l2 r1 r2 : list ascii) :
  slash ∉ l1 → slash ∉ l2 → l1 ++ slash :: r1 = l2 ++ slash :: r2 → l1 = l2 ∧ r1 = r2.
Proof.
  revert l2. induction l1 as [|a l1 IH]; intros [|b l2] H1 H2 E; simpl in E.
  - by injection E.
  - injection E as <- _. set_solver.
  - injection E as -> _. set_solver.
  - injection E as -> E. apply not_elem_of_cons in H1 as [_ H1], H2 as [_ H2].
    destruct (IH l2 H1 H2 E) as [-> ->]. done.
Qed.

Lemma encode_key_part_inj s s' : encode_key_part s = encode_key_part s' → s = s'.
Proof.
  intros E%b64_inj. rewrite <- (string_of_list_ascii_of_string s), E.
  apply string_of_list_ascii_of_string.
Qed.

Lemma state_key_inj ns sid ns' sid' :
  state_key ns sid = state_key ns' sid' → ns = ns' ∧ sid = sid'.
Proof.
  unfold state_key. intros E%(inj (app STATE_KEY_PREFIX)). injection E as E.
  apply split_slash in E as [E1 E2]; [|apply b64_no_slash..].
  split; by apply encode_key_part_inj.
Qed.

Lemma tombstone_key_inj n k n' k' :
  tombstone_key n k = tombstone_key n' k' → n = n' ∧ k = k'.
Proof.
  unfold tombstone_key, tombstone_prefix. rewrite <- !app_assoc.
  intros E%(inj (app TOMBSTONE_KEY_PREFIX)). injection E as E.
  apply split_slash in E as [E1 E2]; [|apply b64_no_slash..].
  split; by apply encode_key_part_inj.
Qed.

Lemma state_not_tombstone ns sid n k : state_key ns sid ≠ tombstone_key n k.
Proof. discriminate. Qed.

Lemma starts_with_app p l : starts_with p (p ++ l) = true.
Proof. induction p as [|a p IH]; [done|]. simpl. by rewrite bool_decide_eq_true_2. Qed.
Lemma starts_with_split p l : starts_with p l = true → ∃ r, l = p ++ r.
Proof.
  revert l. induction p as [|a p IH]; intros l H; [by exists l|].
  destruct l as [|b l]; [done|]. simpl in H. apply andb_true_iff in H as [E H].
  apply bool_decide_eq_true in E as ->. destruct (IH l H) as [r ->]. by exists r.
Qed.

(** Scanning the prefix of a node meets its tombstones and no other. *)
Lemma scan_tombstone n n' k :
  starts_with (tombstone_prefix n) (tombstone_key n' k) = true ↔ n = n'.
Proof.
  split; [|intros ->; apply starts_with_app].
  intros [r E]%starts_with_split. unfold tombstone_key, tombstone_prefix in E.
  rewrite <- !app_assoc in E. apply (inj (app TOMBSTONE_KEY_PREFIX)) in E. injection E as E.
  apply split_slash in E as [E _]; [|apply b64_no_slash..]. symmetry. by apply encode_key_part_inj.
Qed.

Lemma scan_state n ns sid : starts_with (tombstone_prefix n) (state_key ns sid) = false.
Proof. reflexivity. Qed.

(** ** The two backends

    The calls of the interface, as one step each. *)
Inductive storage_op :=
| OSave (ns sid : string) (log : tslog)
| ODelete (ns sid : string)
| OTombstone (node key : string) (version : float)
| ODeleteTombstone (ns sid node key : string) (version : float).

Lemma not_lt_le x y : num x → num y → flt x y = negb (fle y x).
Proof.
  intros Hx Hy. apply eq_true_iff_eq. rewrite negb_true_iff, <- not_true_iff_false.
  rewrite flt_val, fle_val by done. lia.
Qed.

Lemma finite_above v : isfinite v = true → fle v neg_infinity = false.
Proof.
  intros F%isfinite_SF. unfold fle. rewrite FloatAxioms.leb_spec.
  by destruct F as [[? ->]|(? & ? & ? & ->)].
Qed.

#[local] Arguments state_key : simpl never.
#[local] Arguments tombstone_key : simpl never.
#[local] Arguments flt : simpl never.
#[local] Arguments fle : simpl never.

Section backends.
Context `{Libm} `{Serializer}.
Context (pack : pyval → string) (unpack : string → res pyval).
Context (float_of_str : string → res float).

Definition sql_do (o : storage_op) : M (sql_rows * sql_tombs) bool :=
  match o with
  | OSave ns sid log =>
      payload <- mlift (serialize_stream (tl_log log)) ;;
      mmodify (λ s, (sql_commit (ns, sid) payload (tl_updated log) s.1, s.2)) ;;;
      mret true
  | ODelete ns sid =>
      s <- mget ;;
      let '(b, r) := sql_delete (ns, sid) s.1 in
      mmodify (λ s, (r, s.2)) ;;; mret b
  | OTombstone node key version =>
      mmodify (λ s, (s.1, sql_save_tombstone node key version s.2)) ;;; mret true
  | ODeleteTombstone ns sid node key version =>
      s <- mget ;;
      let '(b, s') := sql_delete_with_tombstone (ns, sid) node key version s in
      mmodify (λ _, s') ;;; mret b
  end.

Definition omni_do (o : storage_op) : M kv_store bool :=
  match o with
  | OSave ns sid log =>
      s <- mget ;;
      s' <- mlift (omni_save pack unpack float_of_str ns sid log s) ;;
      mmodify (λ _, s') ;;; mret true
  | ODelete ns sid =>
      s <- mget ;;
      let '(b, s') := omni_delete ns sid s in
      mmodify (λ _, s') ;;; mret b
  | OTombstone node key version =>
      s <- mget ;;
      s' <- mlift (omni_save_tombstone float_of_str node key version s) ;;
      mmodify (λ _, s') ;;; mret true
  | ODeleteTombstone ns sid node key version =>
      s <- mget ;;
      r <- mlift (omni_delete_with_tombstone float_of_str ns sid node key version s) ;;
      mmodify (λ _, default s (last r.2)) ;;; mret r.1
  end.

(** Running calls and collecting their answers. *)
Fixpoint run_ops {S} (f : storage_op → M S bool) (os : list storage_op) (s : S)
    : list (res bool) * S :=
  match os with
  | [] => ([], s)
  | o :: os =>
      let '(r, s) := f o s in
      let '(rs, s) := run_ops f os s in (r :: rs, s)
  end.

(** base64 and zlib give the document back, and do not blow it up. *)
Definition storable (d : pyval) : Prop :=
  dumps_size d ≤ MAX_SERIALIZED_STATE_BYTES ∧
  zlib_size d ≤ MAX_SERIALIZED_STATE_BYTES ∧ unpack (pack d) = Ok d.

(** Time stamps are numbers, versions are finite, documents are storable. *)
Definition op_ok (o : storage_op) : Prop :=
  match o with
  | OSave _ _ log => num (tl_updated log) ∧ ∀ d, serialize_stream (tl_log log) = Ok d → storable d
  | ODelete _ _ => True
  | OTombstone _ _ v | ODeleteTombstone _ _ _ _ v => isfinite v = true
  end.

Definition envelope (payload : pyval) (last_updated : float) : pyval :=
  VDict [(VStr "last_updated", VFloat last_updated);
         (VStr "payload", VStr (pack payload));
         (VStr "payload_encoding", VStr "zlib+base64");
         (VStr "schema", VInt STATE_ENVELOPE_VERSION)].

Record agree (r : sql_rows) (t : sql_tombs) (s : kv_store) : Prop := {
  ag_state : ∀ ns sid,
    s !! state_key ns sid = (λ p, envelope p.1 p.2) <$> r !! (ns, sid);
  ag_row : ∀ k p l, r !! k = Some (p, l) → storable p ∧ num l;
  ag_tomb : ∀ n k, s !! tombstone_key n k = tombstone_envelope k <$> t !! (n, k);
  ag_version : ∀ k v, t !! k = Some v → num v;
  ag_keys : ∀ k, is_Some (s !! k) →
    (∃ ns sid, k = state_key ns sid) ∨ ∃ n sk, k = tombstone_key n sk
}.

Lemma parse_envelope p l :
  storable p →
  parse_state_envelope unpack float_of_str (envelope p l) = Ok (p, l).
Proof.
  intros (Hp & Hz & Hu). unfold parse_state_envelope.
  assert (parse_envelope_body unpack float_of_str (envelope p l) =
    (let? payload := unpack (pack p) in Ok (payload, l))) as -> by reflexivity.
  rewrite Hu. cbn. unfold deserialize_stream.
  by rewrite !(proj2 (Z.ltb_ge _ _)) by lia.
Qed.

Lemma put_state r t s ns sid p l :
  agree r t s → storable p → num l →
  agree (<[(ns, sid) := (p, l)]> r) t (<[state_key ns sid := envelope p l]> s).
Proof.
  intros [A1 A2 A3 A4 A5] Hp Hl. split; [..|done|].
  - intros ns' sid'. destruct (decide ((ns, sid) = (ns', sid'))) as [[= <- <-]|Hne].
    + by rewrite !lookup_insert_eq.
    + rewrite !lookup_insert_ne; [done|done|]. intros [-> ->]%state_key_inj. done.
  - intros k p' l'. rewrite lookup_insert_Some. intros [[_ [= <- <-]]|[_ Hk]]; [done|by eapply A2].
  - intros n k. rewrite lookup_insert_ne by apply state_not_tombstone. apply A3.
  - intros k [v Hk]. rewrite lookup_insert_Some in Hk.
    destruct Hk as [[<- _]|[_ Hk]]; [left; eauto|apply A5; eauto].
Qed.

Lemma put_tombstone r t s n k v :
  agree r t s → num v →
  agree r (<[(n, k) := v]> t) (<[tombstone_key n k := tombstone_envelope k v]> s).
Proof.
  intros [A1 A2 A3 A4 A5] Hv. split; [|done|..].
  - intros ns sid. rewrite lookup_insert_ne; [apply A1|]. intros E. by apply (state_not_tombstone ns sid n k).
  - intros n' k'. destruct (decide ((n, k) = (n', k'))) as [[= <- <-]|Hne].
    + by rewrite !lookup_insert_eq.
    + rewrite !lookup_insert_ne; [done|done|]. intros [-> ->]%tombstone_key_inj. done.
  - intros k' v'. rewrite lookup_insert_Some. intros [[_ [= <-]]|[_ Hk]]; [done|by eapply A4].
  - intros k' [w Hk]. rewrite lookup_insert_Some in Hk.
    destruct Hk as [[<- _]|[_ Hk]]; [right; eauto|apply A5; eauto].
Qed.

Lemma delete_state r t s ns sid :
  agree r t s → agree (delete (ns, sid) r) t (delete (state_key ns sid) s).
Proof.
  intros [A1 A2 A3 A4 A5]. split; [..|done|].
  - intros ns' sid'. destruct (decide ((ns, sid) = (ns', sid'))) as [[= <- <-]|Hne].
    + by rewrite !lookup_delete_eq.
    + rewrite !lookup_delete_ne; [done|done|]. intros [-> ->]%state_key_inj. done.
  - intros k p l. rewrite lookup_delete_Some. intros [_ Hk]. by eapply A2.
  - intros n k. rewrite lookup_delete_ne by apply state_not_tombstone. apply A3.
  - intros k [v Hk]. rewrite lookup_delete_Some in Hk. apply A5. naive_solver.
Qed.

Lemma commit_agree r t s ns sid p l :
  agree r t s → storable p → num l →
  ∃ s', omni_commit unpack float_of_str ns sid (envelope p l) l s = Ok s' ∧
    agree (sql_commit (ns, sid) p l r) t s'.
Proof.
  intros A Hp Hl. unfold omni_commit, sql_commit. rewrite (ag_state _ _ _ A).
  destruct (r !! (ns, sid)) as [[p0 l0]|] eqn:Er; cbn.
  - destruct (ag_row _ _ _ A _ _ _ Er) as [Hp0 Hl0]. rewrite parse_envelope by done.
    rewrite (not_lt_le l0 l) by done. destruct (fle l l0); cbn; eexists; (split; [done|]); [done|].
    by apply put_state.
  - eexists. split; [done|]. by apply put_state.
Qed.

Lemma tombstone_agree r t s n k v :
  agree r t s → isfinite v = true →
  ∃ b s', put_tombstone_if_newer float_of_str (tombstone_key n k) k v s = Ok (b, s') ∧
    agree r (sql_save_tombstone n k v t) s'.
Proof.
  intros A Fv. pose proof (isfinite_num _ Fv) as Hv.
  unfold put_tombstone_if_newer, sql_save_tombstone. rewrite (ag_tomb _ _ _ A).
  destruct (t !! (n, k)) as [v0|] eqn:Et; cbn [fmap option_fmap option_map].
  - pose proof (ag_version _ _ _ A _ _ Et) as Hv0.
    change (tombstone_version float_of_str (Some (tombstone_envelope k v0))) with (Ok v0). cbn.
    rewrite (not_lt_le v0 v) by done.
    destruct (fle v v0); cbn; do 2 eexists; (split; [done|]); [done|].
    by apply put_tombstone.
  - cbn. rewrite finite_above by done. do 2 eexists. split; [done|]. by apply put_tombstone.
Qed.

(** One call: the same answer, and the stores still agree. *)
Lemma do_agree o r t s :
  agree r t s → op_ok o →
  fst (sql_do o (r, t)) = fst (omni_do o s) ∧
  let '(r', t') := snd (sql_do o (r, t)) in
  agree r' t' (snd (omni_do o s)).
Proof.
  intros A Ho. destruct o as [ns sid log|ns sid|n k v|ns sid n k v];
    cbn [sql_do omni_do op_ok] in *; unfold mbind, mlift, mget, mmodify, mret.
  - unfold omni_save, state_envelope. destruct Ho as [Ht Hd].
    destruct (serialize_stream (tl_log log)) as [d|e]; cbn [res_bind fst snd]; [|done].
    destruct (commit_agree r t s ns sid d (tl_updated log) A (Hd d eq_refl) Ht) as (s' & E & A').
    unfold envelope in E. rewrite E. done.
  - unfold sql_delete, omni_delete. rewrite (ag_state _ _ _ A). cbn.
    pose proof (delete_state r t s ns sid A) as A'.
    destruct (r !! (ns, sid)) as [[p l]|] eqn:Er; cbn; [done|].
    by rewrite delete_id in A' |- * by done.
  - unfold omni_save_tombstone. destruct (tombstone_agree r t s n k v A Ho) as (b & s' & -> & A').
    done.
  - unfold omni_delete_with_tombstone, sql_delete_with_tombstone, sql_delete. cbn [fst snd].
    destruct (tombstone_agree r t s n k v A Ho) as (b & s' & -> & A'). cbn [res_bind snd].
    rewrite (ag_state _ _ _ A'). pose proof (delete_state _ _ _ ns sid A') as A''.
    destruct (r !! (ns, sid)) as [[p l]|] eqn:Er; cbn; [done|].
    by rewrite delete_id in A'' by done; rewrite delete_id by done.
Qed.

Lemma run_agree os r t s :
  agree r t s → Forall op_ok os →
  fst (run_ops sql_do os (r, t)) = fst (run_ops omni_do os s) ∧
  let '(r', t') := snd (run_ops sql_do os (r, t)) in
  agree r' t' (snd (run_ops omni_do os s)).
Proof.
  intros A Ho. revert r t s A. induction Ho as [|o os Ho Hos IH]; intros r t s A; [done|].
  cbn. pose proof (do_agree o r t s A Ho) as [E A'].
  destruct (sql_do o (r, t)) as [b [r' t']], (omni_do o s) as [b' s'].
  cbn in E, A'. subst b'. specialize (IH r' t' s' A') as [E IH].
  destruct (run_ops sql_do os (r', t')) as [bs [r'' t'']], (run_ops _ os s') as [bs' s''].
  cbn in *. by subst.
Qed.

Lemma load_agree r t s deterministic now ns sid :
  agree r t s →
  omni_load unpack float_of_str deterministic now ns sid s = sql_load deterministic now (ns, sid) r.
Proof.
  intros A. unfold omni_load, sql_load. rewrite (ag_state _ _ _ A).
  destruct (r !! (ns, sid)) as [[p l]|] eqn:Er; cbn [fmap option_fmap option_map]; [|done].
  destruct (ag_row _ _ _ A _ _ _ Er) as [Hp _]. cbn [fst snd]. rewrite parse_envelope by done.
  unfold deserialize_stream. destruct Hp as (? & ? & _).
  by rewrite !(proj2 (Z.ltb_ge _ _)) by lia.
Qed.

(** Reading the scanned rows of a node. *)
Lemma read_tombstones n l acc :
  NoDup l.*1 →
  (∀ e, e ∈ l → ∃ k v, e = (tombstone_key n k, tombstone_envelope k v) ∧ num v ∧ acc !! k = None) →
  ∃ m, res_fold (read_tombstone float_of_str) l acc = Ok m ∧
    ∀ k v, m !! k = Some v ↔ acc !! k = Some v ∨ (tombstone_key n k, tombstone_envelope k v) ∈ l.
Proof.
  revert acc. induction l as [|e l IH]; intros acc Hn Hl.
  - exists acc. split; [done|]. intros k v. split; [by left|]. by intros [|?%elem_of_nil].
  - apply NoDup_cons in Hn as [Hfresh Hn].
    destruct (Hl e) as (k & v & -> & Hv & Hk); [by left|]. cbn [res_fold].
    assert (read_tombstone float_of_str acc (tombstone_key n k, tombstone_envelope k v) =
      Ok (<[k := fmax v (default v (acc !! k))]> acc)) as -> by reflexivity.
    rewrite Hk. unfold fmax, default. rewrite flt_irrefl. cbn [res_bind].
    assert (∀ v', (tombstone_key n k, tombstone_envelope k v') ∉ l) as Hout.
    { intros v' Hin. apply Hfresh. apply list_elem_of_fmap.
      by exists (tombstone_key n k, tombstone_envelope k v'). }
    destruct (IH (<[k := v]> acc) Hn) as (m & Hm & Hspec).
    { intros e He. destruct (Hl e) as (k' & v' & -> & Hv' & Hk'); [by right|].
      exists k', v'. split_and!; [done..|]. rewrite lookup_insert_ne; [done|].
      intros <-. by apply (Hout v'). }
    exists m. split; [done|]. intros k' v'. rewrite Hspec, lookup_insert_Some, elem_of_cons.
    split.
    + intros [[[<- <-]|[_ ?]]|?]; auto.
    + intros [Ha|[E|Hin]]; [| |by right].
      2:{ pose proof (f_equal fst E) as [_ ->]%tombstone_key_inj.
          apply (f_equal snd) in E. injection E as ->. by left; left. }
      left. right. split; [|done]. intros <-. by rewrite Hk in Ha.
Qed.

Lemma load_tombstones_agree r t s n :
  agree r t s → omni_load_tombstones float_of_str n s = Ok (sql_load_tombstones n t).
Proof.
  intros A. unfold omni_load_tombstones.
  assert (∀ k x, (k, x) ∈ scan_prefix (tombstone_prefix n) s ↔
    s !! k = Some x ∧ starts_with (tombstone_prefix n) k = true) as Hscan.
  { intros k x. unfold scan_prefix. rewrite list_elem_of_filter, elem_of_map_to_list. naive_solver. }
  destruct (read_tombstones n (scan_prefix (tombstone_prefix n) s) ∅) as (m & -> & Hm).
  - unfold scan_prefix. eapply sublist_NoDup; [apply (NoDup_fst_map_to_list s)|].
    apply fmap_sublist, sublist_filter.
  - intros [k x] [Hk Hp]%Hscan.
    destruct (ag_keys _ _ _ A k) as [(ns & sid & ->)|(n' & sk & ->)]; [by eauto|done|].
    apply scan_tombstone in Hp as <-. rewrite (ag_tomb _ _ _ A) in Hk.
    apply fmap_Some in Hk as (v & Hv & ->). exists sk, v. split_and!; [done| |done].
    by eapply (ag_version _ _ _ A).
  - f_equal. apply map_eq. intros k. apply option_eq. intros v.
    rewrite Hm, Hscan, scan_tombstone, (ag_tomb _ _ _ A). unfold sql_load_tombstones.
    assert (default ∅ (by_node t !! n) !! k = t !! (n, k)) as ->.
    { rewrite <- (lookup_map_curry (M1 := gmap string) (M2 := gmap string)).
      unfold by_node. by destruct (map_curry t !! n). }
    rewrite lookup_empty. split.
    + intros [|[Hv _]]; [done|]. apply fmap_Some in Hv as (v' & -> & E). by injection E as ->.
    + intros ->. right. by split.
Qed.
End backends.

(** ** Properties *)

(** C22. The two storage backends are interchangeable.  Provided base64 and
    zlib give the documents saved back and do not grow them beyond the limit,
    the SQL tables and the key-value store give the same answers to any
    sequence of saves, deletions, tombstones and deletions with a tombstone,
    and afterwards to every load of a stream and of the tombstones of a node:
    their keys never meet, and in both the newest version wins. *)
Theorem backends_interchangeable `{Libm} `{Serializer}
    (pack : pyval → string) (unpack : string → res pyval) (float_of_str : string → res float) os :
  Forall (op_ok pack unpack) os →
  let '(answers, (r, t)) := run_ops sql_do os (∅, ∅) in
  let '(answers', s) := run_ops (omni_do pack unpack float_of_str) os ∅ in
  answers = answers' ∧
  (∀ deterministic now ns sid,
    omni_load unpack float_of_str deterministic now ns sid s =
    sql_load deterministic now (ns, sid) r) ∧
  ∀ n, omni_load_tombstones float_of_str n s = Ok (sql_load_tombstones n t).
Proof.
  intros Ho. assert (agree pack unpack ∅ ∅ ∅) as A.
  { split; try done; intros k [x Hx]; by rewrite lookup_empty in Hx. }
  pose proof (run_agree pack unpack float_of_str os _ _ _ A Ho) as [E A'].
  destruct (run_ops sql_do os _) as [bs [r t]], (run_ops _ os ∅) as [bs' s]. cbn in E, A'.
  split_and!; [done| |].
  - intros deterministic now ns sid. by apply (load_agree pack unpack float_of_str r t).
  - intros n. by apply (load_tombstones_agree pack unpack float_of_str r t).
Qed.

(** Two logs under names that differ only in where the slash is; a save that
    is too old; tombstones raised and not lowered. *)
Definition demo_serializer : Serializer := {| dumps_size := λ _, 100; zlib_size := λ _, 50 |}.
Definition demo_log2 : slog := exec (slog_run (H := coarse_libm) demo_calls1) demo_log.
Definition demo_tslog (s : slog) (t : float) : tslog := mk_tslog (mk_streamlog shared_config s) t.
Definition demo_doc (s : slog) : pyval := json_roundtrip (slog_to_dict s).
Definition demo_pack (d : pyval) : string :=
  match d with
  | VDict d => match dict_get d "total" with Some (VInt 0) => "empty" | _ => "full" end
  | _ => ""
  end.
Definition demo_unpack (s : string) : res pyval :=
  Ok (if decide (s = "empty") then demo_doc demo_log else demo_doc demo_log2).
Definition demo_ops : list storage_op :=
  [OSave "a/b" "c" (demo_tslog demo_log2 2%float); OSave "a" "b/c" (demo_tslog demo_log 1%float);
   OSave "a/b" "c" (demo_tslog demo_log 1%float); ODelete "x" "y"; OTombstone "n" "k" 5%float;
   OTombstone "n" "k" 4%float; ODeleteTombstone "a" "b/c" "n" "k2" 7%float].

Lemma backends_interchangeable_witness :
  let '(answers, (r, t)) :=
    run_ops (sql_do (H0 := demo_serializer)) demo_ops (∅, ∅) in
  let '(answers', s) :=
    run_ops (omni_do (H0 := demo_serializer) demo_pack demo_unpack
      (λ _, Raise (ValueError ""))) demo_ops ∅ in
  answers = [Ok true; Ok true; Ok true; Ok false; Ok true; Ok true; Ok true] ∧
  answers' = [Ok true; Ok true; Ok true; Ok false; Ok true; Ok true; Ok true] ∧
  omni_load (H := coarse_libm) (H0 := demo_serializer) demo_unpack (λ _, Raise (ValueError ""))
    true 0%float "a/b" "c" s =
  sql_load (H := coarse_libm) (H0 := demo_serializer) true 0%float ("a/b", "c") r.
Proof.
  pose proof (backends_interchangeable (H := coarse_libm) (H0 := demo_serializer) demo_pack
    demo_unpack (λ _, Raise (ValueError "")) demo_ops) as Ht.
  destruct (run_ops sql_do demo_ops _) as [bs [r t]] eqn:E1,
    (run_ops _ demo_ops ∅) as [bs' s] eqn:E2.
  assert (bs = [Ok true; Ok true; Ok true; Ok false; Ok true; Ok true; Ok true]) as ->.
  { apply (f_equal fst) in E1. vm_compute in E1. symmetry. exact E1. }
  destruct Ht as (E & Hl & _).
  - repeat first [apply Forall_nil_2 | apply Forall_cons_2]; cbn [op_ok]; try done;
      (split; [reflexivity|]); intros d Hd; vm_compute in Hd; injection Hd as <-;
      (split; [done|]); (split; [done|]); vm_compute; reflexivity.
  - split; [done|]. split; [by symmetry|apply Hl].
Defined.
