(* ===== verification/Registry.v ===== *)
(** * The stream registry ([server.py], class [StreamRegistry])

    The server keeps a bounded number of streams in memory, least recently used
    first, over a durable store.  Its operations are coroutines: between two
    [await]s a segment of one of them runs alone, and the operation lock keeps
    the segments of different insertions, loads, evictions and deletions
    apart, while memory hits and the periodic flush go on in between.  The
    model is a pool of tasks with program counters over the shared state; a
    schedule says which task runs its next segment, whether the storage access
    it waits for succeeds, and what the clock shows.

    Proved: the capacities and the lock discipline hold under every schedule,
    and a victim leaves memory only when the store has a row at least as new;
    taken one after the other the operations implement a map without bounds
    from stream names to everything ingested.  Also three schedules in which
    ingested data is lost or deleted data comes back.

    The store is the SQL backend; metrics counters, logging and cancellation
    are left out. *)

From Stdlib Require Import PrimFloat.
From S2P Require Import Prelude PyFloat FloatRound Hashing CountMin HyperLogLog DDSketch PyVal PyDict StreamLog Checkpoint Facade Concurrent Storage.

#[local] Open Scope Z_scope.
#[local] Open Scope py_scope.

(** The resident streams by namespace and name, each a reference into the
    heap of [ThreadSafeStreamLog] objects; both dictionaries are ordered. *)
Definition namespaces := list (string * list (string * nat)).

Record shared := mk_shared {
  sh_mem : namespaces;
  sh_heap : list tslog;
  sh_rows : gmap (string * string) (pyval * float);
  sh_lock : option nat           (* the task that holds the operation lock *)
}.

Definition set_mem (m : namespaces) (s : shared) : shared :=
  mk_shared m (sh_heap s) (sh_rows s) (sh_lock s).
Definition set_heap (h : list tslog) (s : shared) : shared :=
  mk_shared (sh_mem s) h (sh_rows s) (sh_lock s).
Definition set_rows (r : gmap (string * string) (pyval * float)) (s : shared) : shared :=
  mk_shared (sh_mem s) (sh_heap s) r (sh_lock s).
Definition set_lock (l : option nat) (s : shared) : shared :=
  mk_shared (sh_mem s) (sh_heap s) (sh_rows s) l.

(** ** Memory *)

Definition streams_of (ns : string) (m : namespaces) : list (string * nat) :=
  default [] (od_get m ns).

(** [len(namespace_streams)] *)
Definition size (ns : string) (m : namespaces) : Z := Z.of_nat (length (streams_of ns m)).

(** [peek] *)
Definition peek (ns sid : string) (m : namespaces) : option nat := od_get (streams_of ns m) sid.

(** [_count_locked] *)
Definition count_locked (m : namespaces) : Z :=
  sum_by (λ e : string * list (string * nat), Z.of_nat (length e.2)) m.

(** [d.move_to_end(k)] *)
Definition move_to_end {A} (k : string) (d : list (string * A)) : list (string * A) :=
  match od_get d k with Some v => od_del k d ++ [(k, v)] | None => d end.

Definition touch (ns sid : string) (m : namespaces) : namespaces :=
  match od_get m ns with Some l => od_set ns (move_to_end sid l) m | None => m end.

(** [self._namespaces[ns][sid] = stream] *)
Definition put (ns sid : string) (r : nat) (m : namespaces) : namespaces :=
  od_set ns (od_set sid r (streams_of ns m)) m.

(** [del streams[sid]], and the namespace with its last stream. *)
Definition remove (ns sid : string) (m : namespaces) : namespaces :=
  match od_del sid (streams_of ns m) with
  | [] => od_del ns m
  | l => od_set ns l m
  end.

Definition snapshot_items (m : namespaces) : list (string * string * nat) :=
  concat (map (λ e, map (λ x, (e.1, x.1, x.2)) e.2) m).

Definition get_namespace (ns : string) (m : namespaces) : list nat := (streams_of ns m).*2.

Section Registry.
Context `{Libm} `{Serializer}.
Context (max_streams_per_ns max_streams : Z) (storage deterministic : bool).

(** The victim [_evict_if_needed] chooses: the oldest stream of a full
    namespace, or else of the first namespace of a full registry. *)
Definition select_victim (ns : string) (m : namespaces) : option (string * string * nat) :=
  match streams_of ns m with
  | (sid, r) :: _ =>
      if max_streams_per_ns <=? size ns m then Some (ns, sid, r)
      else if max_streams <=? count_locked m then head (snapshot_items m) else None
  | [] => if max_streams <=? count_locked m then head (snapshot_items m) else None
  end.

(** ** Tasks *)

Inductive op :=
| OIngest (ns sid : string) (calls : list (slog_call * float))
    (* get_or_create, then the calls on the stream, which never suspend *)
| OGet (ns sid : string)
| ODel (ns sid : string) (delete_storage : bool)
| OFlush.                                          (* one round of flush_db_loop *)

(** What an operation returns. *)
Inductive answer :=
| AStream (r : option nat)
| AFound (found : bool)
| AFlushed.

(** Program counters: what a task waits for. *)
Inductive pc :=
| PStart (o : op)
| PWait (o : op)                                               (* the lock *)
| PLoad (o : op)                                               (* storage.load *)
| PSave (o : op) (stream : option nat) (v : string * string * nat)    (* serialisation *)
| PLabel (o : op) (stream : option nat) (v : string * string * nat) (payload : pyval)
| PCommit (o : op) (stream : option nat) (v : string * string * nat) (payload : pyval)
    (label : float)                                            (* the transaction *)
| PEvict (o : op) (stream : option nat) (v : string * string * nat)
| PDelete (ns sid : string)                                    (* storage.delete *)
| PRemove (ns sid : string) (found : bool)
| PFlush (items : list (string * string * nat))
| PFlushLabel (v : string * string * nat) (payload : pyval) (items : list (string * string * nat))
| PFlushCommit (v : string * string * nat) (payload : pyval) (label : float)
    (items : list (string * string * nat))
| PDone (r : res answer).

Definition op_key (o : op) : string * string :=
  match o with
  | OIngest ns sid _ | OGet ns sid | ODel ns sid _ => (ns, sid)
  | OFlush => ("", "")
  end.

(** Leaving the [async with] block. *)
Definition release (r : res answer) (s : shared) : pc * shared :=
  (PDone r, set_lock None s).

(** The calls of an ingestion on one object, up to the first exception. *)
Definition write_calls (calls : list (slog_call * float)) (o : tslog) : res unit * tslog :=
  mfor calls (λ c, ts_call c.1 c.2) o.

Definition write (r : nat) (calls : list (slog_call * float)) (s : shared) : res answer * shared :=
  match sh_heap s !! r with
  | None => (Ok (AStream (Some r)), s)
  | Some o =>
      let '(x, o') := write_calls calls o in
      (res_map (λ _, AStream (Some r)) x, set_heap (<[r := o']> (sh_heap s)) s)
  end.

(** A new object on the heap. *)
Definition alloc (o : tslog) (s : shared) : nat * shared :=
  (length (sh_heap s), set_heap (sh_heap s ++ [o]) s).

Definition log_defaults : log_config :=
  mk_log_config (lc_accuracy default_config) (lc_precision default_config)
    (lc_width default_config) (lc_depth default_config) deterministic.

(** The last segment of [get_or_create] and of [get]: the stream goes into
    memory unless it is there already. *)
Definition insert_stream (o : op) (stream : option nat) (now : float) (s : shared) : pc * shared :=
  let '(ns, sid) := op_key o in
  match o, peek ns sid (sh_mem s), stream with
  | OIngest _ _ calls, Some r, _ =>
      let '(x, s) := write r calls (set_mem (touch ns sid (sh_mem s)) s) in release x s
  | OIngest _ _ calls, None, Some r =>
      let '(x, s) := write r calls (set_mem (put ns sid r (sh_mem s)) s) in release x s
  | OIngest _ _ calls, None, None =>
      match ts_init log_defaults now with
      | Raise e => release (Raise e) s
      | Ok new =>
          let '(r, s) := alloc new s in
          let '(x, s) := write r calls (set_mem (put ns sid r (sh_mem s)) s) in release x s
      end
  | _, Some r, _ => release (Ok (AStream (Some r))) s
  | _, None, Some r => release (Ok (AStream (Some r))) (set_mem (put ns sid r (sh_mem s)) s)
  | _, None, None => release (Ok (AStream None)) s
  end.

(** [_evict_if_needed] up to its first [await], with what follows when there
    is none. *)
Definition enter_evict (o : op) (stream : option nat) (now : float) (s : shared) : pc * shared :=
  match select_victim (op_key o).1 (sh_mem s) with
  | None => insert_stream o stream now s
  | Some v =>
      if storage then (PSave o stream v, s)
      else insert_stream o stream now (set_mem (remove v.1.1 v.1.2 (sh_mem s)) s)
  end.

(** The first segment inside the operation lock. *)
Definition locked_entry (o : op) (now : float) (s : shared) : pc * shared :=
  match o with
  | OIngest ns sid calls =>
      match peek ns sid (sh_mem s) with
      | Some r =>
          let '(x, s) := write r calls (set_mem (touch ns sid (sh_mem s)) s) in release x s
      | None => if storage then (PLoad o, s) else enter_evict o None now s
      end
  | OGet ns sid =>
      match peek ns sid (sh_mem s) with
      | Some r => release (Ok (AStream (Some r))) (set_mem (touch ns sid (sh_mem s)) s)
      | None => (PLoad o, s)
      end
  | ODel ns sid delete_storage =>
      if storage && delete_storage then (PDelete ns sid, s) else (PRemove ns sid false, s)
  | OFlush => (PDone (Ok AFlushed), s)
  end.

Definition acquire (t : nat) (o : op) (now : float) (s : shared) : pc * shared :=
  match sh_lock s with
  | None => locked_entry o now (set_lock (Some t) s)
  | Some _ => (PWait o, s)
  end.

(** The next segment of task [t]: [ok] is whether the storage access it was
    waiting for succeeded. *)
Definition segment (t : nat) (ok : bool) (now : float) (p : pc) (s : shared) : pc * shared :=
  match p with
  | PStart (OGet ns sid as o) =>
      match peek ns sid (sh_mem s) with
      | Some r => (PDone (Ok (AStream (Some r))), set_mem (touch ns sid (sh_mem s)) s)
      | None => if storage then acquire t o now s else (PDone (Ok (AStream None)), s)
      end
  | PStart OFlush => (PFlush (snapshot_items (sh_mem s)), s)
  | PStart o | PWait o => acquire t o now s
  | PLoad o =>
      if negb ok then release (Raise (StorageError "load")) s
      else
        match sql_load deterministic now (op_key o) (sh_rows s) with
        | Some l =>
            let '(r, s) := alloc l s in enter_evict o (Some r) now s
        | None =>
            match o with
            | OGet _ _ => release (Ok (AStream None)) s
            | _ => enter_evict o None now s
            end
        end
  | PSave o stream v =>
      match sh_heap s !! v.2 with
      | Some l =>
          match serialize_stream (tl_log l) with
          | Ok payload => (PLabel o stream v payload, s)
          | Raise e => release (Raise e) s
          end
      | None => (p, s)
      end
  | PLabel o stream v payload =>
      match sh_heap s !! v.2 with
      | Some l => (PCommit o stream v payload (tl_updated l), s)
      | None => (p, s)
      end
  | PCommit o stream v payload label =>
      if ok then (PEvict o stream v, set_rows (sql_commit v.1 payload label (sh_rows s)) s)
      else release (Raise (StorageError "save")) s
  | PEvict o stream v =>
      let s := if decide (peek v.1.1 v.1.2 (sh_mem s) = Some v.2)
               then set_mem (remove v.1.1 v.1.2 (sh_mem s)) s else s in
      insert_stream o stream now s
  | PDelete ns sid =>
      if ok then
        let '(found, rows) := sql_delete (ns, sid) (sh_rows s) in
        (PRemove ns sid found, set_rows rows s)
      else release (Raise (StorageError "delete")) s
  | PRemove ns sid found =>
      match peek ns sid (sh_mem s) with
      | Some _ => release (Ok (AFound true)) (set_mem (remove ns sid (sh_mem s)) s)
      | None => release (Ok (AFound found)) s
      end
  | PFlush [] => (PDone (Ok AFlushed), s)
  | PFlush (v :: items) =>
      match sh_heap s !! v.2 with
      | Some l =>
          match serialize_stream (tl_log l) with
          | Ok payload => (PFlushLabel v payload items, s)
          | Raise _ => (PFlush items, s)
          end
      | None => (PFlush items, s)
      end
  | PFlushLabel v payload items =>
      match sh_heap s !! v.2 with
      | Some l => (PFlushCommit v payload (tl_updated l) items, s)
      | None => (PFlush items, s)
      end
  | PFlushCommit v payload label items =>
      (PFlush items, if ok then set_rows (sql_commit v.1 payload label (sh_rows s)) s else s)
  | PDone _ => (p, s)
  end.

(** A schedule: which task runs, with what outcome and at what time. *)
Record world := mk_world { w_tasks : list pc; w_shared : shared }.

Definition run_one (w : world) (a : nat * bool * float) : world :=
  let '(t, ok, now) := a in
  match w_tasks w !! t with
  | Some p =>
      let '(p', s) := segment t ok now p (w_shared w) in
      mk_world (<[t := p']> (w_tasks w)) s
  | None => w
  end.
Definition run_tasks (w : world) (sched : list (nat * bool * float)) : world :=
  foldl run_one w sched.

Definition initial (ops : list op) : world :=
  mk_world (map PStart ops) (mk_shared [] [] ∅ None).
End Registry.

(** ** Memory lemmas *)

Lemma od_del_fresh {A} k (d : list (string * A)) : k ∉ od_keys d → od_del k d = d.
Proof.
  unfold od_del, od_keys. induction d as [|[k' v] d IH]; [done|]. intros Hk.
  apply not_elem_of_cons in Hk as [Hne Hk]. rewrite filter_cons, decide_True by (simpl in *; congruence).
  by rewrite IH.
Qed.

Lemma od_del_length {A} k (d : list (string * A)) v :
  NoDup (od_keys d) → od_get d k = Some v → S (length (od_del k d)) = length d.
Proof.
  unfold od_del. induction d as [|[k' v'] d IH]; intros Hn E; [done|].
  apply NoDup_cons in Hn as [Hk Hn]. simpl in E. rewrite filter_cons. case_decide; subst.
  - rewrite decide_False by naive_solver. fold (od_del k d). by rewrite od_del_fresh.
  - rewrite decide_True by done. cbn. f_equal. by apply IH.
Qed.

Lemma move_to_end_get {A} k k' (d : list (string * A)) :
  NoDup (od_keys d) → od_get (move_to_end k d) k' = od_get d k'.
Proof.
  intros Hn. unfold move_to_end. destruct (od_get d k) as [v|] eqn:E; [|done].
  assert (∀ d : list (string * A), od_get (d ++ [(k, v)]) k' =
    match od_get d k' with Some x => Some x | None => if decide (k = k') then Some v else None end) as ->.
  { clear. induction d as [|[k1 v1] d IH]; [done|]. simpl. by destruct (decide (k1 = k')).  }
  rewrite od_get_del. case_decide; subst; [by rewrite E|]. by destruct (od_get d k').
Qed.

Lemma move_to_end_keys {A} k (d : list (string * A)) :
  NoDup (od_keys d) → NoDup (od_keys (move_to_end k d)) ∧ length (move_to_end k d) = length d.
Proof.
  intros Hn. unfold move_to_end. destruct (od_get d k) as [v|] eqn:E; [|done]. split.
  - unfold od_keys in *. rewrite fmap_app. apply NoDup_app. split_and!.
    + by apply od_del_nodup.
    + intros x Hx ->%list_elem_of_singleton. by apply elem_of_od_keys_del in Hx as [].
    + apply NoDup_singleton.
  - rewrite length_app. cbn. pose proof (od_del_length k d v Hn E). lia.
Qed.

Lemma streams_of_set ns ns' l m :
  streams_of ns' (od_set ns l m) = if decide (ns = ns') then l else streams_of ns' m.
Proof. unfold streams_of. rewrite od_get_set. by case_decide. Qed.

Lemma streams_of_del ns ns' (m : namespaces) :
  streams_of ns' (od_del ns m) = if decide (ns = ns') then [] else streams_of ns' m.
Proof. unfold streams_of. rewrite od_get_del. by case_decide. Qed.

Lemma count_set ns l m : count_locked (od_set ns l m) = count_locked m - size ns m + Z.of_nat (length l).
Proof.
  unfold count_locked, size, streams_of. induction m as [|[k l'] m IH]; [cbn; lia|].
  cbn [od_set od_get]. case_decide; rewrite !sum_by_cons; cbn [snd]; [cbn; lia|]. rewrite IH. lia.
Qed.

Lemma count_del ns (m : namespaces) :
  NoDup (od_keys m) → count_locked (od_del ns m) = count_locked m - size ns m.
Proof.
  unfold count_locked, size, streams_of. induction m as [|[k l'] m IH]; intros Hn; [done|].
  apply NoDup_cons in Hn as [Hk Hn]. unfold od_del. rewrite filter_cons. fold (od_del ns m).
  cbn [fst od_get]. destruct (decide (k = ns)) as [->|Hne].
  - rewrite decide_False by naive_solver. rewrite sum_by_cons, od_del_fresh by done. cbn. lia.
  - rewrite decide_True by done. rewrite !sum_by_cons, IH by done. lia.
Qed.

Lemma snapshot_items_peek ns sid r m :
  NoDup (od_keys m) → (∀ ns, NoDup (od_keys (streams_of ns m))) →
  (ns, sid, r) ∈ snapshot_items m → peek ns sid m = Some r.
Proof.
  intros Hn Hs. unfold snapshot_items. intros Hin.
  apply list_elem_of_In, in_concat in Hin as (x & Hx & Hin). apply in_map_iff in Hx as ([ns' l] & <- & Hx).
  apply in_map_iff in Hin as ([sid' r'] & [= <- <- <-] & Hin). apply list_elem_of_In in Hx, Hin.
  cbn in Hin. assert (od_get m ns' = Some l) as E by by apply od_elem_get.
  unfold peek. specialize (Hs ns'). unfold streams_of in *. rewrite E in *. cbn in *. by apply od_elem_get.
Qed.

Section invariant.
Context (max_ns max : Z).

(** Structure and capacities of the memory. *)
Record mem_ok (m : namespaces) : Prop := {
  mo_keys : NoDup (od_keys m);
  mo_streams : ∀ ns, NoDup (od_keys (streams_of ns m));
  mo_nonempty : ∀ ns, od_get m ns ≠ Some [];
  mo_namespace : ∀ ns, size ns m ≤ max_ns;
  mo_total : count_locked m ≤ max
}.

Lemma touch_same ns sid m :
  mem_ok m →
  mem_ok (touch ns sid m) ∧ (∀ ns' sid', peek ns' sid' (touch ns sid m) = peek ns' sid' m) ∧
  (∀ ns', size ns' (touch ns sid m) = size ns' m) ∧ count_locked (touch ns sid m) = count_locked m.
Proof.
  intros [M1 M2 M3 M4 M5]. unfold touch. destruct (od_get m ns) as [l|] eqn:E; [|done].
  assert (streams_of ns m = l) as El by (unfold streams_of; by rewrite E).
  pose proof (M2 ns) as Hn. rewrite El in Hn. destruct (move_to_end_keys sid l Hn) as [Hk Hl].
  assert (∀ ns', size ns' (od_set ns (move_to_end sid l) m) = size ns' m) as Hsize.
  { intros ns'. unfold size. rewrite streams_of_set. case_decide; subst; [by rewrite Hl|done]. }
  assert (count_locked (od_set ns (move_to_end sid l) m) = count_locked m) as Hc
    by (rewrite count_set, Hl; unfold size; rewrite El; lia).
  split_and!; try done.
  - split; try done.
    + by apply od_set_nodup.
    + intros ns'. rewrite streams_of_set. by case_decide.
    + intros ns'. rewrite od_get_set. case_decide; [|apply M3]. subst. intros [= E'].
      apply (M3 ns'). rewrite E. f_equal. apply length_zero_iff_nil. by rewrite <- Hl, E'.
    + intros ns'. by rewrite Hsize.
    + by rewrite Hc.
  - intros ns' sid'. unfold peek. rewrite streams_of_set. case_decide; subst; [|done].
    by apply move_to_end_get.
Qed.

Lemma put_ok ns sid r m :
  mem_ok m → peek ns sid m = None → size ns m < max_ns → count_locked m < max →
  mem_ok (put ns sid r m).
Proof.
  intros [M1 M2 M3 M4 M5] Hp Hs Hc. unfold put.
  assert (length (od_set sid r (streams_of ns m)) = S (length (streams_of ns m))) as El.
  { rewrite od_set_length. unfold od_has. unfold peek in Hp. by rewrite Hp. }
  split.
  - by apply od_set_nodup.
  - intros ns'. rewrite streams_of_set. case_decide; [by apply od_set_nodup|done].
  - intros ns'. rewrite od_get_set. case_decide; [|apply M3]. intros [= E]. by rewrite E in El.
  - intros ns'. unfold size. rewrite streams_of_set. case_decide; [|apply M4].
    rewrite El. unfold size in Hs. lia.
  - rewrite count_set, El. unfold size in *. lia.
Qed.

Lemma peek_put ns sid r m ns' sid' :
  peek ns' sid' (put ns sid r m) = if decide ((ns, sid) = (ns', sid')) then Some r else peek ns' sid' m.
Proof.
  unfold peek, put. rewrite streams_of_set. destruct (decide (ns = ns')) as [->|Hne].
  - rewrite od_get_set. destruct (decide (sid = sid')) as [->|]; [by rewrite decide_True|].
    by rewrite decide_False by congruence.
  - by rewrite decide_False by congruence.
Qed.

Lemma streams_of_remove ns sid ns' m :
  streams_of ns' (remove ns sid m) =
  if decide (ns = ns') then od_del sid (streams_of ns m) else streams_of ns' m.
Proof.
  unfold remove. destruct (od_del sid (streams_of ns m)) as [|x l] eqn:E.
  - rewrite streams_of_del. by case_decide.
  - rewrite streams_of_set. by case_decide.
Qed.

Lemma peek_remove ns sid m ns' sid' :
  peek ns' sid' (remove ns sid m) = if decide ((ns, sid) = (ns', sid')) then None else peek ns' sid' m.
Proof.
  unfold peek. rewrite streams_of_remove. destruct (decide (ns = ns')) as [->|Hne].
  - rewrite od_get_del. destruct (decide (sid = sid')) as [->|]; [by rewrite decide_True|].
    by rewrite decide_False by congruence.
  - by rewrite decide_False by congruence.
Qed.

Lemma remove_ok ns sid m r :
  mem_ok m → peek ns sid m = Some r →
  mem_ok (remove ns sid m) ∧ count_locked (remove ns sid m) = count_locked m - 1 ∧
  (∀ ns', size ns' (remove ns sid m) = if decide (ns = ns') then size ns m - 1 else size ns' m).
Proof.
  intros [M1 M2 M3 M4 M5] Hp. pose proof (od_del_length sid _ r (M2 ns) Hp) as El.
  assert (∀ ns', size ns' (remove ns sid m) = if decide (ns = ns') then size ns m - 1 else size ns' m)
    as Hsize.
  { intros ns'. unfold size. rewrite streams_of_remove. case_decide; [|done]. lia. }
  assert (count_locked (remove ns sid m) = count_locked m - 1) as Hc.
  { unfold remove. destruct (od_del sid (streams_of ns m)) as [|x l] eqn:E.
    - rewrite count_del by done. unfold size. cbn in El. lia.
    - rewrite count_set. unfold size. cbn in *. lia. }
  split_and!; try done. split.
  - unfold remove. destruct (od_del sid (streams_of ns m)); [by apply od_del_nodup|by apply od_set_nodup].
  - intros ns'. rewrite streams_of_remove. case_decide; [by apply od_del_nodup|done].
  - intros ns'. unfold remove. destruct (od_del sid (streams_of ns m)) eqn:E.
    + rewrite od_get_del. by case_decide.
    + rewrite od_get_set. by case_decide.
  - intros ns'. rewrite Hsize. pose proof (M4 ns). pose proof (M4 ns'). case_decide; lia.
  - lia.
Qed.
End invariant.

Section discipline.
Context `{Libm} `{Serializer}.
Context (max_streams_per_ns max_streams : Z) (storage deterministic : bool).
Context (Hns : 1 ≤ max_streams_per_ns) (Hmax : 1 ≤ max_streams).

#[local] Notation mem_ok := (mem_ok max_streams_per_ns max_streams).
#[local] Notation segment := (segment max_streams_per_ns max_streams storage deterministic).

(** The program counters inside the operation lock. *)
Definition critical (p : pc) : bool :=
  match p with
  | PLoad _ | PSave _ _ _ | PLabel _ _ _ _ | PCommit _ _ _ _ _ | PEvict _ _ _
  | PDelete _ _ | PRemove _ _ _ => true
  | _ => false
  end.

(** The victim is resident, and its removal makes room for the new stream. *)
Definition victim_ok (ns : string) (v : string * string * nat) (m : namespaces) : Prop :=
  peek v.1.1 v.1.2 m = Some v.2 ∧ (v.1.1 = ns ∨ size ns m < max_streams_per_ns).

(** The store has a row of the victim that is not older than the victim. *)
Definition saved (v : string * string * nat) (s : shared) : Prop :=
  ∀ l, sh_heap s !! v.2 = Some l →
    ∃ payload label, sh_rows s !! v.1 = Some (payload, label) ∧ flt label (tl_updated l) = false.

Definition pc_ok (t : nat) (p : pc) (s : shared) : Prop :=
  (critical p = true → sh_lock s = Some t) ∧
  match p with
  | PSave o _ v | PLabel o _ v _ => victim_ok (op_key o).1 v (sh_mem s)
  | PCommit o _ v _ label =>
      victim_ok (op_key o).1 v (sh_mem s) ∧
      ∀ l, sh_heap s !! v.2 = Some l → label = tl_updated l
  | PEvict o _ v => victim_ok (op_key o).1 v (sh_mem s) ∧ saved v s
  | _ => True
  end.

(** What a segment outside the lock may do to the others. *)
Definition rows_newer (r r' : gmap (string * string) (pyval * float)) : Prop :=
  ∀ k p l, r !! k = Some (p, l) → ∃ p' l', r' !! k = Some (p', l') ∧ (l' = l ∨ flt l l' = true).

Record quiet (s s' : shared) : Prop := {
  qu_lock : sh_lock s' = sh_lock s;
  qu_heap : sh_heap s' = sh_heap s;
  qu_peek : ∀ ns sid, peek ns sid (sh_mem s') = peek ns sid (sh_mem s);
  qu_size : ∀ ns, size ns (sh_mem s') = size ns (sh_mem s);
  qu_rows : rows_newer (sh_rows s) (sh_rows s')
}.

Lemma quiet_refl s : quiet s s.
Proof using Type. split; try done. intros k p l Hk. eauto. Qed.

Lemma sql_commit_newer k p l r : rows_newer r (sql_commit k p l r).
Proof using Type.
  intros k' p' l' Hk. unfold sql_commit. destruct (r !! k) as [[p0 l0]|] eqn:E.
  - destruct (flt l0 l) eqn:El; [|by eauto].
    destruct (decide (k = k')) as [<-|Hne]; [|rewrite lookup_insert_ne by done; by eauto].
    rewrite lookup_insert_eq. simplify_eq. eauto.
  - rewrite lookup_insert_ne by congruence. eauto.
Qed.

Lemma saved_newer v l label label' :
  flt label (tl_updated l) = false → label' = label ∨ flt label label' = true →
  flt label' (tl_updated (v : tslog)) = false ∨ v ≠ l.
Proof using Type.
  intros E Hl. destruct (flt label' (tl_updated v)) eqn:E'; [|by left]. right. intros ->.
  destruct Hl as [->|Hl]; [congruence|]. pose proof (flt_trans _ _ _ Hl E'). congruence.
Qed.

Lemma pc_ok_quiet t p s s' : pc_ok t p s → quiet s s' → pc_ok t p s'.
Proof using Type.
  intros [Hc Hp] [Q1 Q2 Q3 Q4 Q5].
  assert (∀ ns v, victim_ok ns v (sh_mem s) → victim_ok ns v (sh_mem s')) as Hv.
  { intros ns v [V1 V2]. split; [by rewrite Q3|by rewrite Q4]. }
  split; [by rewrite Q1|].
  destruct p as [| | |o st v|o st v pl|o st v pl label|o st v| | | | | |]; try done.
  - by apply Hv.
  - by apply Hv.
  - destruct Hp as [V L]. split; [by apply Hv|]. by rewrite Q2.
  - destruct Hp as [V S]. split; [by apply Hv|]. intros l Hl. rewrite Q2 in Hl.
    destruct (S l Hl) as (pl & label & Hr & Ef). destruct (Q5 _ _ _ Hr) as (pl' & label' & Hr' & Hn).
    exists pl', label'. split; [done|].
    by destruct (saved_newer l l label label' Ef Hn).
Qed.

(** A task outside the lock is not disturbed by the one that holds it. *)
Lemma pc_ok_other t t' p s s' :
  t ≠ t' → (sh_lock s = None ∨ sh_lock s = Some t) → pc_ok t' p s → pc_ok t' p s'.
Proof using Type.
  intros Hne Hl [Hc Hp].
  assert (critical p = false) as Hcf.
  { destruct (critical p); [|done]. specialize (Hc eq_refl). destruct Hl; congruence. }
  split; [by rewrite Hcf|]. by destruct p.
Qed.

Lemma write_mem r calls s : sh_mem (write r calls s).2 = sh_mem s.
Proof using Type. unfold write. destruct (sh_heap s !! r); [|done]. by destruct (write_calls _ _). Qed.

Lemma release_ok t r s : mem_ok (sh_mem s) → mem_ok (sh_mem (release r s).2) ∧ pc_ok t (release r s).1 (release r s).2.
Proof using Type. done. Qed.

(** [finished_ok]: the task is done and the memory is still in order. *)
Definition finished_ok (t : nat) (x : pc * shared) : Prop := mem_ok (sh_mem x.2) ∧ pc_ok t x.1 x.2.

Lemma write_release t r calls s :
  mem_ok (sh_mem s) → finished_ok t (let '(x, s) := write r calls s in release x s).
Proof using Type.
  intros Hm. pose proof (write_mem r calls s) as E. destruct (write r calls s) as [x s'].
  split; [|done]. cbn in *. by rewrite E.
Qed.

Lemma insert_ok t o stream now s :
  mem_ok (sh_mem s) →
  (let '(ns, sid) := op_key o in
   peek ns sid (sh_mem s) = None → size ns (sh_mem s) < max_streams_per_ns ∧ count_locked (sh_mem s) < max_streams) →
  finished_ok t (insert_stream deterministic o stream now s).
Proof using Type.
  intros Hm Hroom. unfold insert_stream. destruct (op_key o) as [ns sid].
  assert (∀ r s', sh_mem s' = sh_mem s → peek ns sid (sh_mem s) = None →
    mem_ok (sh_mem (set_mem (put ns sid r (sh_mem s')) s'))) as Hput.
  { intros r s' E Hp. cbn. rewrite E. destruct (Hroom Hp). by apply put_ok. }
  destruct (peek ns sid (sh_mem s)) as [r|] eqn:Hp.
  - destruct o; try done. apply write_release. by apply touch_same.
  - destruct o, stream as [r|]; try done; try (apply write_release; by apply Hput);
      try (by split; [apply Hput|]).
    destruct (ts_init _ now) as [new|e]; [|done]. apply write_release. by apply Hput.
Qed.

Lemma count_snapshot m : count_locked m = Z.of_nat (length (snapshot_items m)).
Proof using Type.
  unfold count_locked, snapshot_items. induction m as [|[k l] m IH]; [done|].
  rewrite sum_by_cons, IH. cbn. rewrite length_app, length_map. lia.
Qed.

Lemma select_victim_spec ns m :
  mem_ok m →
  match select_victim max_streams_per_ns max_streams ns m with
  | None => size ns m < max_streams_per_ns ∧ count_locked m < max_streams
  | Some v => victim_ok ns v m
  end.
Proof using Hns Hmax.
  intros M. assert (∀ v, head (snapshot_items m) = Some v → peek v.1.1 v.1.2 m = Some v.2) as Hh.
  { intros [[vns vid] r] E. apply snapshot_items_peek; [apply M|apply M|].
    destruct (snapshot_items m); [done|]. cbn in E. simplify_eq. by left. }
  assert (size ns m < max_streams_per_ns →
    match (if max_streams <=? count_locked m then head (snapshot_items m) else None) with
    | None => size ns m < max_streams_per_ns ∧ count_locked m < max_streams
    | Some v => victim_ok ns v m
    end) as Hrest.
  { intros Hs. destruct (Z.leb_spec max_streams (count_locked m)) as [Hc|Hc]; [|done].
    destruct (head (snapshot_items m)) as [v|] eqn:E; [by split; [apply Hh|right]|].
    rewrite count_snapshot in Hc. destruct (snapshot_items m); [cbn in Hc; lia|done]. }
  unfold select_victim. destruct (streams_of ns m) as [|[sid r] l] eqn:E.
  - apply Hrest. unfold size. rewrite E. cbn. lia.
  - destruct (Z.leb_spec max_streams_per_ns (size ns m)) as [Hl|Hl]; [|by apply Hrest].
    split; [|by left]. cbn. unfold peek. rewrite E. cbn. by rewrite decide_True.
Qed.

(** Removing the victim makes room. *)
Lemma victim_room ns v m :
  mem_ok m → victim_ok ns v m →
  mem_ok (remove v.1.1 v.1.2 m) ∧ size ns (remove v.1.1 v.1.2 m) < max_streams_per_ns ∧
  count_locked (remove v.1.1 v.1.2 m) < max_streams.
Proof using Type.
  intros M [Hp Hr]. destruct (remove_ok _ _ _ _ _ _ M Hp) as (M' & Hc & Hs).
  split; [done|]. rewrite Hs, Hc. pose proof (mo_total _ _ _ M). pose proof (mo_namespace _ _ _ M ns).
  split; [|lia]. case_decide as E; [rewrite E; lia|]. destruct Hr; [congruence|done].
Qed.

Lemma enter_evict_ok t o stream now s :
  mem_ok (sh_mem s) → sh_lock s = Some t →
  finished_ok t (enter_evict max_streams_per_ns max_streams storage deterministic o stream now s).
Proof using Hns Hmax.
  intros M Hl. unfold enter_evict. pose proof (select_victim_spec (op_key o).1 (sh_mem s) M) as Hv.
  destruct (select_victim _ _ _ _) as [v|].
  - destruct storage; [done|]. destruct (victim_room _ _ _ M Hv) as (M' & Hs & Hc).
    apply insert_ok; [done|]. by destruct (op_key o).
  - apply insert_ok; [done|]. by destruct (op_key o).
Qed.

Lemma locked_entry_ok t o now s :
  mem_ok (sh_mem s) → sh_lock s = Some t →
  finished_ok t (locked_entry max_streams_per_ns max_streams storage deterministic o now s).
Proof using Hns Hmax.
  intros M Hl. destruct o as [ns sid calls|ns sid|ns sid ds|]; cbn [locked_entry].
  - destruct (peek ns sid (sh_mem s)) as [r|].
    + apply write_release. by apply touch_same.
    + pose proof (enter_evict_ok t (OIngest ns sid calls) None now s M Hl) as He.
      destruct storage; [by split|exact He].
  - destruct (peek ns sid (sh_mem s)) as [r|]; [|by split]. split; [|done]. by apply touch_same.
  - by destruct (storage && ds).
  - done.
Qed.

Lemma segment_ok t ok now p s :
  mem_ok (sh_mem s) → pc_ok t p s → finished_ok t (segment t ok now p s).
Proof using Hns Hmax.
  intros M [Hc Hp].
  assert (∀ o, finished_ok t (acquire max_streams_per_ns max_streams storage deterministic t o now s)) as Ha.
  { intros o. unfold acquire. destruct (sh_lock s) eqn:E; [done|]. by apply locked_entry_ok. }
  destruct p as [o|o|o|o st v|o st v pl|o st v pl label|o st v|ns sid|ns sid found|items|v pl items|v pl label items|r];
    cbn [segment critical] in *.
  - destruct o as [ns sid calls|ns sid|ns sid ds|]; try apply Ha; [|done].
    destruct (peek ns sid (sh_mem s)) as [r|]; [|by destruct storage]. split; [|done]. by apply touch_same.
  - apply Ha.
  - specialize (Hc eq_refl). destruct ok; [|done]. cbn [negb].
    destruct (sql_load _ _ _ _) as [l|]; [by apply enter_evict_ok|].
    destruct o; try done; by apply enter_evict_ok.
  - destruct (sh_heap s !! v.2) as [l|]; [|by split]. by destruct (serialize_stream _).
  - destruct (sh_heap s !! v.2) as [l|] eqn:E; [|by split]. split; [done|]. split; [done|].
    split; [done|]. intros l' E'. cbn in E'. congruence.
  - destruct Hp as [V L]. destruct ok; [|done]. split; [done|]. split; [done|]. split; [done|].
    intros l Hl. cbn in Hl. specialize (L l Hl) as ->. cbn. unfold sql_commit.
    destruct (sh_rows s !! v.1) as [[p0 l0]|] eqn:E.
    + destruct (flt l0 (tl_updated l)) eqn:Ef; [|by eauto].
      rewrite lookup_insert_eq. do 2 eexists. split; [done|apply flt_irrefl].
    + rewrite lookup_insert_eq. do 2 eexists. split; [done|apply flt_irrefl].
  - destruct Hp as [V _]. destruct (victim_room _ _ _ M V) as (M' & Hs & Hcnt).
    rewrite decide_True by apply V. apply insert_ok; [done|]. by destruct (op_key o).
  - destruct ok; [|done]. by destruct (sql_delete _ _).
  - destruct (peek ns sid (sh_mem s)) as [r|] eqn:E; [|done]. split; [|done]. cbn.
    by eapply remove_ok.
  - destruct items as [|v items]; [done|]. destruct (sh_heap s !! v.2); [|done].
    by destruct (serialize_stream _).
  - by destruct (sh_heap s !! v.2).
  - by destruct ok.
  - done.
Qed.

Lemma acquire_frame t o now s :
  sh_lock s = None ∨
  quiet s (acquire max_streams_per_ns max_streams storage deterministic t o now s).2.
Proof using Type. unfold acquire. destruct (sh_lock s); [right; apply quiet_refl|by left]. Qed.

(** A segment runs inside the lock, or disturbs nobody. *)
Lemma segment_frame t ok now p s :
  mem_ok (sh_mem s) → pc_ok t p s →
  (sh_lock s = None ∨ sh_lock s = Some t) ∨ quiet s (segment t ok now p s).2.
Proof using Type.
  intros M [Hc _]. destruct (critical p) eqn:Ec; [left; right; by apply Hc|].
  assert (∀ o, (sh_lock s = None ∨ sh_lock s = Some t) ∨ quiet s
    (acquire max_streams_per_ns max_streams storage deterministic t o now s).2) as Ha
    by (intros o; destruct (acquire_frame t o now s); auto).
  destruct p as [o|o|o|o st v|o st v pl|o st v pl label|o st v|ns sid|ns sid found|items|v pl items|v pl label items|r];
    try done; cbn [segment].
  - destruct o as [ns sid calls|ns sid|ns sid ds|]; try apply Ha; [|right; apply quiet_refl].
    destruct (peek ns sid (sh_mem s)) as [r|].
    + right. destruct (touch_same _ _ ns sid (sh_mem s) M) as (_ & Hpk & Hsz & _).
      split; try done. intros k pl l Hk. eauto.
    + destruct storage; [apply Ha|right; apply quiet_refl].
  - apply Ha.
  - right. destruct items as [|v items]; [apply quiet_refl|].
    destruct (sh_heap s !! v.2); [|apply quiet_refl]. destruct (serialize_stream _); apply quiet_refl.
  - right. destruct (sh_heap s !! v.2); apply quiet_refl.
  - right. destruct ok; [|apply quiet_refl]. split; try done. apply sql_commit_newer.
  - right. apply quiet_refl.
Qed.

Definition world_ok (w : world) : Prop :=
  mem_ok (sh_mem (w_shared w)) ∧
  ∀ t p, w_tasks w !! t = Some p → pc_ok t p (w_shared w).

Lemma run_one_ok w a :
  world_ok w → world_ok (run_one max_streams_per_ns max_streams storage deterministic w a).
Proof using Hns Hmax.
  intros [M Hp]. destruct a as [[t ok] now]. unfold run_one.
  destruct (w_tasks w !! t) as [p|] eqn:Et; [|done]. pose proof (Hp t p Et) as Hpt.
  destruct (segment_ok t ok now p _ M Hpt) as [M' Hp']. pose proof (segment_frame t ok now p _ M Hpt) as Hf.
  destruct (segment t ok now p (w_shared w)) as [p' s']. cbn in *. split; [done|].
  intros t' q. cbn. destruct (decide (t = t')) as [<-|Hne].
  - rewrite list_lookup_insert_eq by by eapply lookup_lt_Some. by intros [= <-].
  - rewrite list_lookup_insert_ne by done. intros Hq. destruct Hf as [Hl|Hq'].
    + eapply pc_ok_other; [exact Hne|exact Hl|by apply Hp].
    + eapply pc_ok_quiet; [by apply Hp|done].
Qed.

Lemma run_tasks_ok w sched :
  world_ok w → world_ok (run_tasks max_streams_per_ns max_streams storage deterministic w sched).
Proof using Hns Hmax.
  revert w. induction sched as [|a sched IH]; intros w W; [done|]. apply IH. by apply run_one_ok.
Qed.

Lemma initial_ok ops : world_ok (initial ops).
Proof using Hns Hmax.
  split.
  - split; cbn [sh_mem w_shared initial].
    + constructor.
    + intros ns. constructor.
    + done.
    + intros ns. change (size ns []) with 0. lia.
    + change (count_locked []) with 0. lia.
  - intros t p Ht. cbn in Ht. apply list_lookup_fmap_Some in Ht as (o & -> & _). done.
Qed.
End discipline.

(** ** One operation after the other

    Operations that do not overlap implement a map from stream names to the
    calls accepted for them. *)

Notation hist := (gmap (string * string) (list slog_call)).

Section sequential.
Context `{L : Libm, !LibmLaws L} `{Serializer}.
Context (max_streams_per_ns max_streams : Z) (deterministic : bool).
Context (Hns : 1 ≤ max_streams_per_ns) (Hmax : 1 ≤ max_streams).
Context (Hzlib : ∀ d, dumps_size d ≤ MAX_SERIALIZED_STATE_BYTES →
  zlib_size d ≤ MAX_SERIALIZED_STATE_BYTES).
Context (s0 : slog) (Hi : new_log (log_defaults deterministic) = Ok s0) (Hu : usable (sl_latency s0)).

#[local] Notation config := (log_defaults deterministic).
#[local] Notation holds := (holds config s0).
#[local] Notation mem_ok := (mem_ok max_streams_per_ns max_streams).
#[local] Notation segment := (segment max_streams_per_ns max_streams true deterministic).

(** A stored document reads back as the log it was made of. *)
Lemma from_dict_json s cs :
  slog_denotes s0 s cs → slog_from_dict (json_roundtrip (slog_to_dict s)) = Ok s.
Proof using All.
  intros D. rewrite json_slog.
  eapply (from_dict_written _ _ _ _ _ _ s0 s cs); try done.
  intros k. simpl. by rewrite canonical_int_str.
Qed.

Lemma load_stored (l : streamlog) (cs : list slog_call) (p : pyval) (label : float) (k : string * string) (now : float) (r : sql_rows) :
  holds l cs → serialize_stream l = Ok p → r !! k = Some (p, label) →
  sql_load deterministic now k r = Some (mk_tslog l label).
Proof using All.
  intros [Ec [D V]] Hs Hr. unfold sql_load. rewrite Hr. unfold serialize_stream in Hs.
  destruct (Z.ltb_spec MAX_SERIALIZED_STATE_BYTES (dumps_size (json_roundtrip (st_to_dict l)))) as [|Hsz];
    [done|]. assert (p = json_roundtrip (st_to_dict l)) as -> by congruence. unfold deserialize_stream.
  rewrite !(proj2 (Z.ltb_ge _ _)) by auto. cbn [res_bind]. unfold wrap_loaded, st_from_dict, st_to_dict.
  rewrite (from_dict_json _ cs D). cbn [res_bind].
  rewrite (config_of_calls _ _ Hi _ cs D). unfold ts_init, st_init. cbn [res_bind].
  fold config. rewrite Hi. cbn. destruct l as [c b]. cbn in Ec. by subst c.
Qed.

(** The calls of one ingestion: a prefix is kept, all of them on success. *)
Lemma write_calls_holds calls o cs :
  holds (tl_log o) cs →
  let '(x, o') := write_calls calls o in
  ∃ n, holds (tl_log o') (cs ++ take n calls.*1) ∧
    (if is_ok x then n = length calls else (n < length calls)%nat) ∧
    (o' = o ∨ tl_updated o' ∈ calls.*2).
Proof using Type.
  unfold write_calls. revert o cs. induction calls as [|[c now] calls IH]; intros o cs Ho.
  - exists 0%nat. cbn. rewrite app_nil_r. auto.
  - cbn [mfor fst snd]. unfold mbind. rewrite ts_call_run, updating_run, on_backend_run.
    destruct Ho as [Ec Ho]. destruct (log_of_calls_do s0 _ _ c Ho) as [(s' & -> & Ho')|(e & ->)]; cbn [fst snd].
    + specialize (IH (mk_tslog (set_backend s' (tl_log o)) now) (cs ++ [c])).
      destruct (mfor calls _ _) as [x o']. destruct IH as (n & Hh & Hx & Hu'); [done|].
      exists (S n). rewrite <- app_assoc in Hh. split_and!; [done| |].
      * cbn [length]. destruct (is_ok x); lia.
      * right. cbn. destruct Hu' as [->|Hu']; [by left|by right].
    + exists 0%nat. destruct o as [[c0 b] t]. cbn in *. rewrite app_nil_r. split_and!; try done; [lia|by left].
Qed.

(** *** What memory and store together hold *)

#[local] Arguments peek : simpl never.
#[local] Arguments remove : simpl never.
#[local] Arguments put : simpl never.

(** A row, or no row, for the calls [c] of a stream. *)
Definition stored (c : option (list slog_call)) (row : option (pyval * float)) : Prop :=
  match row with
  | Some (p, _) => ∃ l cs, c = Some cs ∧ holds l cs ∧ serialize_stream l = Ok p
  | None => c = None
  end.

(** An object with the calls [c], and a row that is older or the same. *)
Definition live (past : list float) (o : tslog) (c : option (list slog_call))
    (row : option (pyval * float)) : Prop :=
  ∃ cs, c = Some cs ∧ holds (tl_log o) cs ∧ tl_updated o ∈ past ∧
    ∀ p label, row = Some (p, label) →
      flt label (tl_updated o) = true ∨ serialize_stream (tl_log o) = Ok p.

Definition key_ok (past : list float) (s : shared) (k : string * string)
    (c : option (list slog_call)) : Prop :=
  match peek k.1 k.2 (sh_mem s) with
  | Some r => ∃ o, sh_heap s !! r = Some o ∧ live past o c (sh_rows s !! k)
  | None => stored c (sh_rows s !! k)
  end.

(** The shared state holds the histories [h]; every time stamp is in [past]. *)
Record seq_ok (past : list float) (s : shared) (h : hist) : Prop := {
  so_refs : ∀ k k' r, peek k.1 k.2 (sh_mem s) = Some r → peek k'.1 k'.2 (sh_mem s) = Some r → k = k';
  so_labels : ∀ k p l, sh_rows s !! k = Some (p, l) → l ∈ past;
  so_keys : ∀ k, key_ok past s k (h !! k)
}.

Lemma live_past past past' o c row : past ⊆ past' → live past o c row → live past' o c row.
Proof using Type. intros Hp (cs & E & Ho & Ht & Hr). exists cs. auto. Qed.

Lemma seq_ok_ext past past' s s' h :
  seq_ok past s h → past ⊆ past' →
  (∀ k, peek k.1 k.2 (sh_mem s') = peek k.1 k.2 (sh_mem s)) →
  (∀ r o, sh_heap s !! r = Some o → sh_heap s' !! r = Some o) →
  sh_rows s' = sh_rows s → seq_ok past' s' h.
Proof using Type.
  intros [S1 S2 S3] Hp Hm Hh Hr. split.
  - intros k k' r. rewrite !Hm. apply S1.
  - intros k p l. rewrite Hr. intros Hk. apply Hp. by eapply S2.
  - intros k. specialize (S3 k). unfold key_ok in *. rewrite Hm, Hr.
    destruct (peek _ _ _) as [r|]; [|done]. destruct S3 as (o & Ho & Hl). exists o.
    split; [by apply Hh|by eapply live_past].
Qed.

Lemma peek_remove_key k k' m :
  peek k'.1 k'.2 (remove k.1 k.2 m) = if decide (k = k') then None else peek k'.1 k'.2 m.
Proof using Type. rewrite peek_remove. by destruct k, k'. Qed.
Lemma peek_put_key k r k' m :
  peek k'.1 k'.2 (put k.1 k.2 r m) = if decide (k = k') then Some r else peek k'.1 k'.2 m.
Proof using Type. rewrite peek_put. by destruct k, k'. Qed.

(** A key out of memory, with what is left of it. *)
Lemma seq_remove past s h k c :
  seq_ok past s h → stored c (sh_rows s !! k) →
  seq_ok past (set_mem (remove k.1 k.2 (sh_mem s)) s) (partial_alter (λ _, c) k h).
Proof using Type.
  intros [S1 S2 S3] Hc. split; [|done|].
  - intros k1 k2 r. cbn. rewrite !peek_remove_key. do 2 case_decide; try done. apply S1.
  - intros k'. specialize (S3 k'). unfold key_ok in *. cbn. rewrite peek_remove_key.
    case_decide as E; [subst; by rewrite lookup_partial_alter_eq|].
    by rewrite lookup_partial_alter_ne.
Qed.

(** The victim's save: afterwards the row alone tells the history. *)
Lemma seq_commit past s h k r l p :
  seq_ok past s h → peek k.1 k.2 (sh_mem s) = Some r → sh_heap s !! r = Some l →
  serialize_stream (tl_log l) = Ok p →
  let s' := set_rows (sql_commit k p (tl_updated l) (sh_rows s)) s in
  seq_ok past s' h ∧ stored (h !! k) (sh_rows s' !! k) ∧ ∀ k', k ≠ k' → sh_rows s' !! k' = sh_rows s !! k'.
Proof using Type.
  intros [S1 S2 S3] Hp Hl Hs. pose proof (S3 k) as Hk. unfold key_ok in Hk. rewrite Hp in Hk.
  destruct Hk as (o & Ho & cs & Ec & Hh & Ht & Hr). simplify_eq.
  assert (∃ lab, lab ∈ past ∧
    sql_commit k p (tl_updated l) (sh_rows s) = <[k := (p, lab)]> (sh_rows s)) as (lab & Hlab & E).
  { unfold sql_commit. destruct (sh_rows s !! k) as [[p0 l0]|] eqn:E; [|by eauto].
    destruct (flt l0 (tl_updated l)) eqn:El; [by eauto|]. exists l0. split; [by eapply S2|].
    destruct (Hr _ _ eq_refl) as [?|?]; [congruence|].
    assert (p0 = p) as -> by congruence. by rewrite insert_id. }
  cbn. rewrite E. split_and!.
  - split; [done| |].
    + intros k' p' l'. cbn. rewrite lookup_insert. case_decide; [|by apply S2]. by intros [= <- <-].
    + intros k'. specialize (S3 k'). unfold key_ok in *. cbn. rewrite lookup_insert.
      case_decide as Ek; [|done]. subst k'. rewrite Hp in *. destruct S3 as (o & Ho & cs' & Ec' & Hh' & Ht' & _).
      exists o. split; [done|]. exists cs'. split_and!; try done. intros p' lab' [= <- <-]. right.
      by simplify_eq.
  - rewrite lookup_insert_eq. exists (tl_log l), cs. done.
  - intros k' Hne. by rewrite lookup_insert_ne.
Qed.

(** An object of its own goes into memory under a key that is not there. *)
Lemma seq_put past s h k r o cs :
  seq_ok past s h → peek k.1 k.2 (sh_mem s) = None →
  (∀ k', peek k'.1 k'.2 (sh_mem s) ≠ Some r) → sh_heap s !! r = Some o →
  live past o (Some cs) (sh_rows s !! k) →
  seq_ok past (set_mem (put k.1 k.2 r (sh_mem s)) s) (<[k := cs]> h).
Proof using Type.
  intros [S1 S2 S3] Hp Hr Ho Hl. split; [|done|].
  - intros k1 k2 r'. cbn. rewrite !peek_put_key. do 2 case_decide; subst; try done.
    + intros [= <-] E. by destruct (Hr k2).
    + intros E [= <-]. by destruct (Hr k1).
    + apply S1.
  - intros k'. specialize (S3 k'). unfold key_ok in *. cbn. rewrite peek_put_key, lookup_insert.
    case_decide; [|done]. subst. eauto.
Qed.

(** An ingestion into a resident stream. *)
Lemma seq_write past s h k r cs calls :
  seq_ok past s h → peek k.1 k.2 (sh_mem s) = Some r → h !! k = Some cs → calls.*2 ⊆ past →
  (∀ p label t, sh_rows s !! k = Some (p, label) → t ∈ calls.*2 → flt label t = true) →
  let '(x, s') := write r calls s in
  ∃ n, seq_ok past s' (<[k := cs ++ take n calls.*1]> h) ∧ sh_lock s' = sh_lock s ∧
    (if is_ok x then n = length calls ∧ x = Ok (AStream (Some r)) else (n < length calls)%nat) ∧
    ∃ l, sh_heap s' !! r = Some l ∧ holds (tl_log l) (cs ++ take n calls.*1).
Proof using Type.
  intros [S1 S2 S3] Hp Hc Hsub Htime. pose proof (S3 k) as Hk. unfold key_ok in Hk. rewrite Hp, Hc in Hk.
  destruct Hk as (o & Ho & cs' & [= <-] & Hh & Ht & Hr). unfold write. rewrite Ho.
  pose proof (write_calls_holds calls o cs Hh) as Hw. destruct (write_calls calls o) as [x o'].
  destruct Hw as (n & Hh' & Hx & Hu'). exists n.
  assert (sh_heap s !! r = Some o) as Hlt%lookup_lt_Some by done.
  split_and!; [|done|destruct x as [[]|e]; by repeat split|].
  - split; [done|done|].
    intros k'. specialize (S3 k'). unfold key_ok in *. cbn. rewrite lookup_insert.
    case_decide as E; [subst k'|].
    + rewrite Hp in *. exists o'. rewrite list_lookup_insert_eq by done. split; [done|].
      exists (cs ++ take n calls.*1). split_and!; try done.
      * destruct Hu' as [->|Hu']; auto.
      * intros p label Hrow. destruct Hu' as [->|Hu']; [by apply (Hr p)|].
        left. by apply (Htime p).
    + destruct (peek k'.1 k'.2 (sh_mem s)) as [r'|] eqn:Hp'; [|done].
      by rewrite list_lookup_insert_ne by (intros <-; by eapply E, S1).
  - exists o'. cbn. by rewrite list_lookup_insert_eq.
Qed.

(** *** The specification: a map without bounds *)

(** What the caller of an operation sees: the log behind the reference. *)
Inductive reply := RLog (l : option streamlog) | RFound (found : bool) | RFlushed.

Definition reply_of (s : shared) (a : answer) : reply :=
  match a with
  | AStream r => RLog (r ← r; tl_log <$> sh_heap s !! r)
  | AFound found => RFound found
  | AFlushed => RFlushed
  end.

(** The log is the one that executing the calls on a new log gives. *)
Definition executed (l : streamlog) (cs : list slog_call) : Prop :=
  st_config l = config ∧ slog_run cs s0 = (Ok tt, st_backend l).

Lemma holds_executed l cs : holds l cs → executed l cs.
Proof using Hi. intros [Ec Hl]. split; [done|by eapply log_of_calls_run]. Qed.

(** [trouble]: what may make an operation fail without effect. *)
Definition trouble (choices : list (bool * float)) (h : hist) : Prop :=
  (∃ now, (false, now) ∈ choices) ∨
  ∃ k cs l e, h !! k = Some cs ∧ executed l cs ∧ serialize_stream l = Raise e.

Inductive map_step (choices : list (bool * float)) (h : hist) : op → res reply → hist → Prop :=
| map_ingest ns sid calls l :
    let cs := default [] (h !! (ns, sid)) ++ calls.*1 in
    executed l cs → map_step choices h (OIngest ns sid calls) (Ok (RLog (Some l))) (<[(ns, sid) := cs]> h)
| map_ingest_part ns sid calls n e :      (* a call that raises ends the ingestion *)
    (n < length calls)%nat →
    map_step choices h (OIngest ns sid calls) (Raise e)
      (<[(ns, sid) := default [] (h !! (ns, sid)) ++ take n calls.*1]> h)
| map_get ns sid cs l :
    h !! (ns, sid) = Some cs → executed l cs → map_step choices h (OGet ns sid) (Ok (RLog (Some l))) h
| map_get_none ns sid :
    h !! (ns, sid) = None → map_step choices h (OGet ns sid) (Ok (RLog None)) h
| map_delete ns sid :
    map_step choices h (ODel ns sid true)
      (Ok (RFound (bool_decide (is_Some (h !! (ns, sid)))))) (delete (ns, sid) h)
| map_flush : map_step choices h OFlush (Ok RFlushed) h
| map_trouble o e : o ≠ OFlush → trouble choices h → map_step choices h o (Raise e) h.

(** *** One operation from start to end *)

Definition solo (choices : list (bool * float)) (p : pc) (s : shared) : pc * shared :=
  foldl (λ x c, segment 0 c.1 c.2 x.1 x.2) (p, s) choices.

Definition op_times (o : op) : list float :=
  match o with OIngest _ _ calls => calls.*2 | _ => [] end.

Lemma op_cases (o : op) :
  (∃ ns sid calls, o = OIngest ns sid calls) ∨ (∃ ns sid, o = OGet ns sid) ∨
  (∃ ns sid ds, o = ODel ns sid ds) ∨ o = OFlush.
Proof using Type. destruct o; eauto 10. Qed.

Section one_op.
Context (choices : list (bool * float)) (o : op) (past : list float) (h : hist).
Context (Htime : ∀ x t, x ∈ past → t ∈ op_times o → flt x t = true).
Context (Hdel : ∀ ns sid ds, o = ODel ns sid ds → ds = true).

#[local] Notation past' := (past ++ op_times o ++ choices.*2).
#[local] Notation enter_evict := (enter_evict max_streams_per_ns max_streams true deterministic).
#[local] Notation insert_stream := (insert_stream deterministic).

Definition absent (s : shared) : Prop :=
  peek (op_key o).1 (op_key o).2 (sh_mem s) = None ∧
  match o with OIngest _ _ _ | OGet _ _ => True | _ => False end.

(** The stream about to be inserted: one loaded from the row, or a new one. *)
Definition pending (stream : option nat) (s : shared) : Prop :=
  match stream with
  | Some r => (∀ k, peek k.1 k.2 (sh_mem s) ≠ Some r) ∧ ∃ cs l, h !! op_key o = Some cs ∧
      sh_heap s !! r = Some l ∧ live past l (Some cs) (sh_rows s !! op_key o)
  | None => h !! op_key o = None ∧ match o with OIngest _ _ _ => True | _ => False end
  end.

Definition resident (v : string * string * nat) (s : shared) : Prop :=
  peek v.1.1 v.1.2 (sh_mem s) = Some v.2.
Definition serialises (v : string * string * nat) (payload : pyval) (s : shared) : Prop :=
  ∃ l, sh_heap s !! v.2 = Some l ∧ serialize_stream (tl_log l) = Ok payload.
Definition labelled (v : string * string * nat) (payload : pyval) (label : float) (s : shared) : Prop :=
  ∃ l, sh_heap s !! v.2 = Some l ∧ serialize_stream (tl_log l) = Ok payload ∧ label = tl_updated l.

(** The return of an operation. *)
Definition returned (r : res answer) (s : shared) : Prop :=
  ∃ h', map_step choices h o (res_map (reply_of s) r) h' ∧ seq_ok past' s h'.

Definition before (p : pc) (s : shared) : Prop :=
  match p with
  | PStart o' => o' = o
  | PWait o' => o' = o ∧ o ≠ OFlush
  | PLoad o' => o' = o ∧ absent s
  | PSave o' st v => o' = o ∧ absent s ∧ pending st s ∧ resident v s
  | PLabel o' st v pl => o' = o ∧ absent s ∧ pending st s ∧ resident v s ∧ serialises v pl s
  | PCommit o' st v pl label =>
      o' = o ∧ absent s ∧ pending st s ∧ resident v s ∧ labelled v pl label s
  | PEvict o' st v =>
      o' = o ∧ absent s ∧ pending st s ∧ resident v s ∧ stored (h !! v.1) (sh_rows s !! v.1)
  | PDelete ns sid => o = ODel ns sid true
  | PFlush items => o = OFlush ∧ ∀ v, v ∈ items → resident v s
  | PFlushLabel v pl items => o = OFlush ∧ (∀ v, v ∈ items → resident v s) ∧ resident v s ∧ serialises v pl s
  | PFlushCommit v pl label items =>
      o = OFlush ∧ (∀ v, v ∈ items → resident v s) ∧ resident v s ∧ labelled v pl label s
  | PRemove _ _ _ | PDone _ => False
  end.

Definition at_pc (p : pc) (s : shared) : Prop :=
  match p with
  | PDone r => returned r s
  | PRemove ns sid found =>
      o = ODel ns sid true ∧
      seq_ok past (set_mem (remove ns sid (sh_mem s)) s) (delete (ns, sid) h) ∧
      (is_Some (h !! (ns, sid)) ↔ found = true ∨ is_Some (peek ns sid (sh_mem s)))
  | _ => seq_ok past s h ∧ before p s
  end ∧ (critical p = false → sh_lock s = None).

(** The segments an operation still has, at most. *)
Definition rank (x : pc * shared) : nat :=
  match x.1 with
  | PStart _ => 10 + 3 * length (snapshot_items (sh_mem x.2))
  | PWait _ => 9 | PLoad _ => 8 | PSave _ _ _ => 7 | PLabel _ _ _ _ => 6
  | PCommit _ _ _ _ _ => 5 | PEvict _ _ _ => 4 | PDelete _ _ => 3 | PRemove _ _ _ => 2
  | PFlush items => 1 + 3 * length items
  | PFlushLabel _ _ items => 3 + 3 * length items
  | PFlushCommit _ _ _ items => 2 + 3 * length items
  | PDone _ => 0
  end.

Definition progress (n : nat) (x : pc * shared) : Prop := at_pc x.1 x.2 ∧ (rank x < n)%nat.

Lemma past_grows : past ⊆ past'.
Proof using Type. intros x Hx. apply elem_of_app. by left. Qed.

Lemma grow s h1 : seq_ok past s h1 → seq_ok past' s h1.
Proof using Type. intros S. by eapply seq_ok_ext; [exact S|apply past_grows|..]. Qed.

Lemma returned_same n r s :
  seq_ok past s h → (0 < n)%nat → map_step choices h o (res_map (reply_of s) r) h →
  progress n (release r s).
Proof using Type.
  intros S Hn Hm. split; [|done]. split; [|done]. exists h. split; [done|].
  by eapply seq_ok_ext; [exact S|apply past_grows|..].
Qed.

Lemma seq_release past1 s h1 r : seq_ok past1 s h1 → seq_ok past1 (release r s).2 h1.
Proof using Type. intros [S1 S2 S3]. by split. Qed.

(** The end of an ingestion whose stream is in memory. *)
Lemma write_progress n s ns sid r calls :
  o = OIngest ns sid calls →
  seq_ok past' s (<[(ns, sid) := default [] (h !! (ns, sid))]> h) →
  peek ns sid (sh_mem s) = Some r → (0 < n)%nat →
  (∀ p label, sh_rows s !! (ns, sid) = Some (p, label) → label ∈ past) →
  progress n (let '(x, s) := write r calls s in release x s).
Proof using All.
  intros Eo S Hp Hn Hlab. pose proof (seq_write _ _ _ (ns, sid) r _ calls S Hp (lookup_insert_eq _ _ _)) as Hw.
  destruct (write r calls s) as [x s']. destruct Hw as (m & S' & Hl & Hx & l & Hr & Hh).
  - intros t Ht. rewrite !elem_of_app, Eo. auto.
  - intros p label t Hrow Ht. apply Htime; [by eapply Hlab|by rewrite Eo].
  - split; [|done]. split; [|done]. rewrite insert_insert_eq in S'. eexists. split; [|exact (seq_release _ _ _ _ S')].
    destruct x as [a|e]; cbn [is_ok res_map] in *.
    + destruct Hx as [-> [= ->]]. cbn. rewrite Hr, Eo. cbn.
      rewrite firstn_all2 in Hh |- * by (by rewrite length_fmap). constructor. by apply holds_executed.
    + rewrite Eo. by constructor.
Qed.

Lemma row_label s ns sid p label :
  seq_ok past s h → sh_rows s !! (ns, sid) = Some (p, label) → label ∈ past.
Proof using Type. intros S Hr. by eapply so_labels. Qed.

Lemma alloc_ok past1 o1 s h1 : seq_ok past1 s h1 → seq_ok past1 (alloc o1 s).2 h1.
Proof using Type.
  intros S. eapply seq_ok_ext; [exact S|done|done| |done]. intros r o2 Hr. cbn.
  by apply lookup_app_l_Some.
Qed.

(** A reference that is not on the heap is nobody's. *)
Lemma fresh_ref past1 s h1 k : seq_ok past1 s h1 → peek k.1 k.2 (sh_mem s) ≠ Some (length (sh_heap s)).
Proof using Type.
  intros S E. pose proof (so_keys _ _ _ S k) as Hk. unfold key_ok in Hk. rewrite E in Hk.
  destruct Hk as (o1 & Ho & _). apply lookup_lt_Some in Ho. lia.
Qed.

Lemma new_progress n s ns sid calls now :
  o = OIngest ns sid calls → seq_ok past s h → peek ns sid (sh_mem s) = None →
  h !! (ns, sid) = None → (0 < n)%nat → now ∈ choices.*2 →
  progress n (insert_stream o None now s).
Proof using All.
  intros Eo S Hp Hh Hn Hnow. unfold insert_stream. rewrite Eo. cbn [op_key]. rewrite Hp.
  unfold ts_init, st_init. rewrite Hi. cbn [res_bind].
  assert (sh_rows s !! (ns, sid) = None) as Hrow.
  { pose proof (so_keys _ _ _ S (ns, sid)) as Hk. unfold key_ok in Hk. cbn in Hk. rewrite Hp in Hk.
    destruct (sh_rows s !! (ns, sid)) as [[p l]|]; [|done]. destruct Hk as (? & ? & ? & _). congruence. }
  set (new := mk_tslog (mk_streamlog config s0) now). cbn [alloc].
  pose proof (alloc_ok past new s h S) as S1. cbn [alloc snd] in S1.
  apply (write_progress n _ ns sid); [done| |cbn; by rewrite peek_put, decide_True|done|].
  - rewrite Hh. apply (seq_put _ _ _ (ns, sid) _ new []).
    + by apply grow.
    + done.
    + intros k. by apply (fresh_ref past s h).
    + cbn. by rewrite lookup_app_r, Nat.sub_diag by done.
    + exists []. split_and!; [done|by apply holds_new|rewrite !elem_of_app; cbn; auto|]. cbn. by rewrite Hrow.
  - cbn. by rewrite Hrow.
Qed.

Lemma absent_cases s :
  absent s → ∃ ns sid, peek ns sid (sh_mem s) = None ∧
    ((∃ calls, o = OIngest ns sid calls) ∨ o = OGet ns sid).
Proof using Type.
  unfold absent. intros [Hp Ho].
  destruct (op_cases o) as [(ns & sid & cs & Eo)|[(ns & sid & Eo)|[(ns & sid & ds & Eo)|Eo]]];
    rewrite Eo in Hp, Ho |- *; try done; cbn in Hp; eauto 10.
Qed.

Lemma insert_progress n s st now :
  seq_ok past s h → absent s → pending st s → sh_lock s = Some 0%nat → (0 < n)%nat → now ∈ choices.*2 →
  progress n (insert_stream o st now s).
Proof using All.
  intros S Ha Hst Hl Hn Hnow. destruct (absent_cases s Ha) as (ns & sid & Hp & Eo).
  assert (op_key o = (ns, sid)) as Ek by (by destruct Eo as [[calls ->]| ->]).
  destruct st as [r|].
  - destruct Hst as (Hr & cs & l & Hh & Hheap & Hlive). rewrite Ek in Hh, Hlive.
    pose proof (seq_put past s h (ns, sid) r l cs S Hp Hr Hheap Hlive) as S'.
    assert (peek ns sid (put ns sid r (sh_mem s)) = Some r) as Hp' by by rewrite peek_put, decide_True.
    unfold insert_stream. rewrite Ek, Hp. destruct Eo as [[calls Eo]|Eo]; rewrite Eo.
    + apply (write_progress n _ ns sid); try done; [rewrite Hh; by apply grow|].
      intros p label. by apply (row_label s ns sid p).
    + rewrite insert_id in S' by done. apply returned_same; try done. cbn. rewrite Hheap.
      rewrite Eo. econstructor; [exact Hh|]. apply holds_executed.
      by destruct Hlive as (? & [= <-] & ? & _).
  - destruct Hst as [Hh Ho]. rewrite Ek in Hh. destruct Eo as [[calls Eo]|Eo].
    + by eapply new_progress.
    + by rewrite Eo in Ho.
Qed.

Lemma enter_progress n s st now :
  mem_ok (sh_mem s) → seq_ok past s h → absent s → pending st s → sh_lock s = Some 0%nat →
  (7 < n)%nat → now ∈ choices.*2 → progress n (enter_evict o st now s).
Proof using All.
  intros M S Ha Hst Hl Hn Hnow. unfold enter_evict.
  pose proof (select_victim_spec max_streams_per_ns max_streams Hns Hmax (op_key o).1 _ M) as Hv.
  destruct (select_victim _ _ _ _) as [v|]; [|apply insert_progress; try done; lia].
  destruct Hv as [Hv _]. split; [|done]. split; [|done]. by repeat (split; [done|]).
Qed.

Lemma locked_progress n s now :
  mem_ok (sh_mem s) → seq_ok past s h → o ≠ OFlush → sh_lock s = Some 0%nat →
  (8 < n)%nat → now ∈ choices.*2 →
  progress n (locked_entry max_streams_per_ns max_streams true deterministic o now s).
Proof using All.
  intros M S Ho Hl Hn Hnow.
  assert (∀ ns sid, seq_ok past (set_mem (touch ns sid (sh_mem s)) s) h ∧
    ∀ ns' sid', peek ns' sid' (touch ns sid (sh_mem s)) = peek ns' sid' (sh_mem s)) as Ht.
  { intros ns sid. destruct (touch_same _ _ ns sid _ M) as (_ & Hpk & _). split; [|done].
    eapply seq_ok_ext; [exact S|done|..]; done. }
  destruct (op_cases o) as [(ns & sid & calls & Eo)|[(ns & sid & Eo)|[(ns & sid & ds & Eo)|Eo]]]; [..|done];
    rewrite Eo; cbn [locked_entry].
  - destruct (peek ns sid (sh_mem s)) as [r|] eqn:Hp.
    + destruct (Ht ns sid) as [S' Hpk]. apply (write_progress n _ ns sid); try done.
      * pose proof (so_keys _ _ _ S (ns, sid)) as Hk. unfold key_ok in Hk. cbn in Hk. rewrite Hp in Hk.
        destruct Hk as (l & _ & cs & Hh & _). rewrite Hh. cbn. rewrite insert_id by done. by apply grow.
      * cbn. by rewrite Hpk.
      * lia.
      * intros p label. by apply (row_label s ns sid p).
    + split; [|done]. split; [|done]. split; [done|]. split; [done|]. unfold absent. by rewrite Eo.
  - destruct (peek ns sid (sh_mem s)) as [r|] eqn:Hp.
    + destruct (Ht ns sid) as [S' Hpk]. apply returned_same; try done; [lia|].
      pose proof (so_keys _ _ _ S (ns, sid)) as Hk. unfold key_ok in Hk. cbn in Hk. rewrite Hp in Hk.
      destruct Hk as (l & Hheap & cs & Hh & Hl' & _). cbn. rewrite Hheap, Eo. econstructor; [exact Hh|by apply holds_executed].
    + split; [|done]. split; [|done]. split; [done|]. split; [done|]. unfold absent. by rewrite Eo.
  - assert (ds = true) as -> by by apply (Hdel ns sid). split; [|cbn; lia]. by split.
Qed.

Lemma resident_log s v :
  seq_ok past s h → resident v s →
  ∃ l cs, sh_heap s !! v.2 = Some l ∧ h !! v.1 = Some cs ∧ holds (tl_log l) cs.
Proof using Type.
  intros S Hv. pose proof (so_keys _ _ _ S v.1) as Hk. unfold key_ok in Hk. rewrite Hv in Hk.
  destruct Hk as (l & Hl & cs & Hc & Hh & _). eauto.
Qed.

Lemma fails n s e :
  seq_ok past s h → o ≠ OFlush → (0 < n)%nat → trouble choices h → progress n (release (Raise e) s).
Proof using Type. intros S Ho Hn Ht. apply returned_same; try done. by apply map_trouble. Qed.

Lemma absent_op s : absent s → o ≠ OFlush.
Proof using Type. intros Ha E. destruct Ha as [_ Ha]. by rewrite E in Ha. Qed.

Lemma victim_other s v : absent s → resident v s → v.1 ≠ op_key o.
Proof using Type. intros [Hp _] Hv E. unfold resident in Hv. rewrite E in Hv. congruence. Qed.

Lemma pending_same s s' st :
  pending st s → sh_heap s' = sh_heap s → sh_rows s' !! op_key o = sh_rows s !! op_key o →
  (∀ k r, peek k.1 k.2 (sh_mem s') = Some r → peek k.1 k.2 (sh_mem s) = Some r) → pending st s'.
Proof using Type.
  intros Hs Hh Hr Hp. destruct st as [r|]; [|done]. destruct Hs as (Hf & cs & l & Hs).
  split; [|exists cs, l; by rewrite Hh, Hr]. intros k E. by eapply Hf, Hp.
Qed.

Lemma load_progress n s ok now :
  mem_ok (sh_mem s) → seq_ok past s h → absent s → sh_lock s = Some 0%nat → (7 < n)%nat →
  (ok, now) ∈ choices → progress n (segment 0 ok now (PLoad o) s).
Proof using All.
  intros M S Ha Hl Hn Hc. pose proof (absent_op s Ha) as Ho. cbn [Registry.segment].
  assert (now ∈ choices.*2) as Hnow by by apply (list_elem_of_fmap_2' snd _ (ok, now)).
  destruct ok; cbn [negb]; [|apply fails; [done|done|lia|left; eauto]].
  pose proof (so_keys _ _ _ S (op_key o)) as Hk. unfold key_ok in Hk. pose proof Ha as [Hp _].
  rewrite Hp in Hk. destruct (sh_rows s !! op_key o) as [[p label]|] eqn:Hrow.
  - destruct Hk as (l & cs & Hh & Hl' & Hs). rewrite (load_stored l cs p label) by done. cbn [alloc].
    apply enter_progress; try done; [by apply (alloc_ok past _ s h)|].
    split; [intros k; by apply (fresh_ref past s h)|]. exists cs, (mk_tslog l label). cbn.
    rewrite lookup_app_r, Nat.sub_diag by done. split_and!; try done. exists cs. split_and!; try done.
    + by eapply so_labels.
    + intros p' label'. rewrite Hrow. intros [= <- <-]. by right.
  - unfold sql_load. rewrite Hrow. destruct (absent_cases s Ha) as (ns & sid & _ & [[calls Eo]|Eo]).
    + rewrite Eo. rewrite <- Eo. apply enter_progress; try done. split; [done|by rewrite Eo].
    + rewrite Eo. apply returned_same; [done|lia|]. rewrite Eo. apply map_get_none. by rewrite Eo in Hk.
Qed.

Lemma serialise_trouble s v l e :
  seq_ok past s h → resident v s → sh_heap s !! v.2 = Some l → serialize_stream (tl_log l) = Raise e →
  trouble choices h.
Proof using Hi.
  intros S Hv Hl He. destruct (resident_log s v S Hv) as (l' & cs & Hl' & Hh & Ho). simplify_eq.
  right. exists v.1, cs, (tl_log l), e. split_and!; try done. by apply holds_executed.
Qed.

(** The segments of the victim's save and its removal. *)
Lemma evict_progress ok now p s :
  at_pc p s → pc_ok max_streams_per_ns 0 p s → (ok, now) ∈ choices →
  match p with PSave _ _ _ | PLabel _ _ _ _ | PCommit _ _ _ _ _ | PEvict _ _ _ => True | _ => False end →
  progress (rank (p, s)) (segment 0 ok now p s).
Proof using All.
  intros [Hat _] [Hlock _] Hc Hkind. assert (now ∈ choices.*2) as Hnow
    by by apply (list_elem_of_fmap_2' snd _ (ok, now)).
  destruct p as [| | |o' st v|o' st v pl|o' st v pl label|o' st v| | | | | |]; try done;
    specialize (Hlock eq_refl); cbn [Registry.segment]; destruct Hat as [S Hat]; cbn [before] in Hat.
  - destruct Hat as (-> & Ha & Hst & Hv). destruct (resident_log s v S Hv) as (l & cs & Hl & _). rewrite Hl.
    destruct (serialize_stream (tl_log l)) as [pl|e] eqn:Es.
    + split; [|cbn; lia]. split; [|done]. split; [done|]. repeat (split; [done|]). by exists l.
    + apply fails; [done|by apply (absent_op s)|cbn; lia|by apply (serialise_trouble s v l e)].
  - destruct Hat as (-> & Ha & Hst & Hv & l & Hl & Es). rewrite Hl.
    split; [|cbn; lia]. split; [|done]. split; [done|]. repeat (split; [done|]). by exists l.
  - destruct Hat as (-> & Ha & Hst & Hv & l & Hl & Es & ->).
    destruct ok; [|apply fails; [done|by apply (absent_op s)|cbn; lia|left; eauto]].
    destruct (seq_commit past s h v.1 v.2 l pl S Hv Hl Es) as (S' & Hrow & Hother).
    split; [|cbn; lia]. split; [|done]. split; [done|]. split; [done|]. split; [done|]. split.
    + eapply pending_same; [exact Hst|done| |done]. apply Hother. by apply (victim_other s).
    + by split.
  - destruct Hat as (-> & Ha & Hst & Hv & Hrow). rewrite decide_True by done.
    pose proof (seq_remove past s h v.1 _ S Hrow) as S'. rewrite partial_alter_self in S'.
    assert (∀ k r, peek k.1 k.2 (remove v.1.1 v.1.2 (sh_mem s)) = Some r →
      peek k.1 k.2 (sh_mem s) = Some r) as Hpk.
    { intros k r. rewrite peek_remove_key. by case_decide. }
    apply insert_progress; try done.
    + destruct Ha as [Hp Ho]. split; [|done]. cbn. rewrite peek_remove_key. by case_decide.
    + by eapply pending_same; [exact Hst|..].
    + cbn. lia.
Qed.

Lemma seq_delete s k :
  seq_ok past s h →
  seq_ok past (set_mem (remove k.1 k.2 (sh_mem s)) (set_rows (delete k (sh_rows s)) s)) (delete k h).
Proof using Type.
  intros [S1 S2 S3]. split.
  - intros k1 k2 r. cbn. rewrite !peek_remove_key. do 2 case_decide; try done. apply S1.
  - intros k' p l. cbn. intros [_ Hk]%lookup_delete_Some. by eapply S2.
  - intros k'. specialize (S3 k'). unfold key_ok in *. cbn. rewrite peek_remove_key, !lookup_delete.
    by case_decide.
Qed.

Lemma delete_progress ok now p s :
  at_pc p s → pc_ok max_streams_per_ns 0 p s → (ok, now) ∈ choices →
  match p with PDelete _ _ | PRemove _ _ _ => True | _ => False end →
  progress (rank (p, s)) (segment 0 ok now p s).
Proof using All.
  intros [Hat _] [Hlock _] Hc Hkind. destruct p as [| | | | | | |ns sid|ns sid found| | | |]; try done;
    specialize (Hlock eq_refl); cbn [Registry.segment].
  - destruct Hat as [S Hat]. cbn in Hat. destruct ok; [|apply fails; [done|congruence|cbn; lia|left; eauto]].
    cbn [sql_delete]. split; [|cbn; lia]. split; [|done]. split; [done|]. split; [by apply (seq_delete s (ns, sid))|].
    pose proof (so_keys _ _ _ S (ns, sid)) as Hk. unfold key_ok in Hk. cbn in Hk |- *.
    destruct (peek ns sid (sh_mem s)) as [r|].
    + destruct Hk as (? & _ & ? & -> & _). split; [|by eauto]. intros _. right. by eexists.
    + destruct (sh_rows s !! (ns, sid)) as [[pl lab]|]; cbn in Hk.
      * destruct Hk as (? & ? & -> & _). split; [by left|by eauto].
      * rewrite Hk. split; [by intros []|by intros [|[]]].
  - destruct Hat as (Eo & S & Hf). assert (∀ b s', b = bool_decide (is_Some (h !! (ns, sid))) →
      seq_ok past s' (delete (ns, sid) h) → progress (rank (PRemove ns sid found, s)) (release (Ok (AFound b)) s'))
      as Hret.
    { intros b s' -> S'. split; [|cbn; lia]. split; [|done]. exists (delete (ns, sid) h).
      split; [rewrite Eo; constructor|]. apply grow. by apply seq_release. }
    destruct (peek ns sid (sh_mem s)) as [r|] eqn:Hp.
    + apply Hret; [|done]. symmetry. apply bool_decide_eq_true. apply Hf. by eauto.
    + apply Hret.
      * destruct found; symmetry; [apply bool_decide_eq_true, Hf; by left|].
        apply bool_decide_eq_false. rewrite Hf. by intros [|[]].
      * eapply seq_ok_ext; [exact S|done| |done|done]. intros k. cbn. rewrite (peek_remove_key (ns, sid)).
        case_decide; [subst|done]. done.
Qed.

Lemma resident_snapshot s v :
  mem_ok (sh_mem s) → v ∈ snapshot_items (sh_mem s) → resident v s.
Proof using Type.
  intros M Hv. destruct v as [[ns sid] r]. apply snapshot_items_peek; [apply M|apply M|done].
Qed.

Lemma flush_progress ok now p s :
  at_pc p s → match p with PFlush _ | PFlushLabel _ _ _ | PFlushCommit _ _ _ _ => True | _ => False end →
  progress (rank (p, s)) (segment 0 ok now p s).
Proof using Type.
  intros [Hat Hfree] Hkind. destruct p as [| | | | | | | | |items|v pl items|v pl label items|]; try done;
    specialize (Hfree eq_refl); cbn [Registry.segment]; destruct Hat as [S Hat]; cbn [before] in Hat.
  - destruct Hat as [Eo Hv]. destruct items as [|v items].
    { split; [|cbn; lia]. split; [|done]. exists h. split; [cbn; rewrite Eo; apply map_flush|by apply grow]. }
    assert (resident v s ∧ ∀ v, v ∈ items → resident v s) as [Hv1 Hv2].
    { split; [apply Hv; by left|]. intros v' Hv'. apply Hv. by right. }
    destruct (resident_log s v S Hv1) as (l & cs & Hl & _). rewrite Hl.
    destruct (serialize_stream (tl_log l)) as [pl|e] eqn:Es; (split; [|cbn; lia]); (split; [|done]).
    + split; [done|]. repeat (split; [done|]). by exists l.
    + done.
  - destruct Hat as (Eo & Hv2 & Hv & l & Hl & Es). rewrite Hl. split; [|cbn; lia]. split; [|done].
    split; [done|]. repeat (split; [done|]). by exists l.
  - destruct Hat as (Eo & Hv2 & Hv & l & Hl & Es & ->). split; [|destruct ok; cbn; lia].
    split; [|by destruct ok]. destruct ok; [|done]. split; [|done].
    by apply (seq_commit past s h v.1 v.2 l pl).
Qed.

Lemma acquire_progress n s now :
  mem_ok (sh_mem s) → seq_ok past s h → o ≠ OFlush → sh_lock s = None → (8 < n)%nat → now ∈ choices.*2 →
  progress n (acquire max_streams_per_ns max_streams true deterministic 0 o now s).
Proof using All.
  intros M S Ho Hl Hn Hnow. unfold acquire. rewrite Hl. apply locked_progress; try done.
  by eapply seq_ok_ext; [exact S|..].
Qed.

(** Every segment comes nearer to the end. *)
Lemma segment_progress ok now p s :
  mem_ok (sh_mem s) → at_pc p s → pc_ok max_streams_per_ns 0 p s → (ok, now) ∈ choices →
  progress (rank (p, s)) (segment 0 ok now p s) ∨ segment 0 ok now p s = (p, s) ∧ ∃ r, p = PDone r.
Proof using All.
  intros M Hat Hpc Hc. assert (now ∈ choices.*2) as Hnow
    by by apply (list_elem_of_fmap_2' snd _ (ok, now)).
  destruct p as [o'|o'|o'|o' st v|o' st v pl|o' st v pl label|o' st v|ns sid|ns sid found|items|v pl items
    |v pl label items|r]; try (left; by apply evict_progress); try (left; by apply delete_progress);
    try (left; by apply flush_progress); [left|left|left|right; split; [done|by eexists]].
  - destruct Hat as [[S Eo] Hfree]. specialize (Hfree eq_refl). cbn in Eo. subst o'.
    assert (o ≠ OFlush → segment 0 ok now (PStart o) s =
        acquire max_streams_per_ns max_streams true deterministic 0 o now s →
        progress (rank (PStart o, s)) (segment 0 ok now (PStart o) s)) as Ha.
    { intros Ho ->. apply acquire_progress; try done. cbn. lia. }
    destruct (op_cases o) as [(ns & sid & calls & Eo)|[(ns & sid & Eo)|[(ns & sid & ds & Eo)|Eo]]].
    + apply Ha; [congruence|by rewrite Eo].
    + destruct (peek ns sid (sh_mem s)) as [r|] eqn:Hp; [|apply Ha; [congruence|]].
      * assert (segment 0 ok now (PStart o) s =
          (PDone (Ok (AStream (Some r))), set_mem (touch ns sid (sh_mem s)) s)) as ->
          by (rewrite Eo; cbn [Registry.segment]; by rewrite Hp).
        destruct (touch_same _ _ ns sid _ M) as (_ & Hpk & _).
        split; [|cbn; lia]. split; [|done]. exists h.
        pose proof (so_keys _ _ _ S (ns, sid)) as Hk. unfold key_ok in Hk. cbn in Hk. rewrite Hp in Hk.
        destruct Hk as (l & Hheap & cs & Hh & Hl' & _). split.
        -- cbn. rewrite Hheap, Eo. econstructor; [exact Hh|by apply holds_executed].
        -- apply grow. eapply seq_ok_ext; [exact S|done|..]; done.
      * rewrite Eo. cbn [Registry.segment]. by rewrite Hp.
    + apply Ha; [congruence|by rewrite Eo].
    + assert (segment 0 ok now (PStart o) s = (PFlush (snapshot_items (sh_mem s)), s)) as -> by by rewrite Eo.
      split; [|cbn; lia]. split; [|done]. split; [done|].
      split; [done|]. intros v. by apply resident_snapshot.
  - destruct Hat as [[S [-> Ho]] Hfree]. specialize (Hfree eq_refl).
    cbn [Registry.segment]. apply acquire_progress; try done; cbn; lia.
  - destruct Hat as [[S [-> Ha]] _]. apply load_progress; try done; [by apply Hpc|cbn; lia].
Qed.

Lemma solo_progress cs p s :
  cs ⊆ choices → mem_ok (sh_mem s) → at_pc p s → pc_ok max_streams_per_ns 0 p s →
  (rank (p, s) ≤ length cs)%nat →
  let x := solo cs p s in
  mem_ok (sh_mem x.2) ∧ sh_lock x.2 = None ∧ ∃ r, x.1 = PDone r ∧ returned r x.2.
Proof using All.
  revert p s. induction cs as [|[ok now] cs IH]; intros p s Hsub M Hat Hpc Hr.
  - destruct p; cbn in Hr; try lia. cbn. destruct Hat as [Hat Hl]. split_and!; [done|by apply Hl|by eexists].
  - assert ((ok, now) ∈ choices) as Hc by (apply Hsub; by left).
    assert (cs ⊆ choices) as Hsub' by (intros c Hc'; apply Hsub; by right).
    pose proof (segment_ok max_streams_per_ns max_streams true deterministic Hns Hmax 0 ok now p s M Hpc) as Hok.
    unfold solo. cbn [foldl fst snd].
    pose proof (segment_progress ok now p s M Hat Hpc Hc) as Hp.
    destruct (segment 0 ok now p s) as [p' s']. destruct Hok as [M' Hpc']. cbn [fst snd] in *.
    apply IH; try done.
    + destruct Hp as [[Hat' _]|[[= -> ->] _]]; done.
    + destruct Hp as [[_ Hlt]|[[= -> ->] [r ->]]]; cbn in *; lia.
Qed.
End one_op.

Lemma solo_returns choices o past h s :
  (∀ x t, x ∈ past → t ∈ op_times o → flt x t = true) → (∀ ns sid ds, o = ODel ns sid ds → ds = true) →
  10 + 3 * max_streams ≤ Z.of_nat (length choices) →
  mem_ok (sh_mem s) → sh_lock s = None → seq_ok past s h →
  let x := solo choices (PStart o) s in
  mem_ok (sh_mem x.2) ∧ sh_lock x.2 = None ∧ ∃ r, x.1 = PDone r ∧ returned choices o past h r x.2.
Proof using All.
  intros Ht Hd Hlen M Hl S. apply (solo_progress choices o past h); try done.
  pose proof (mo_total _ _ _ M) as Hc. rewrite count_snapshot in Hc. cbn. lia.
Qed.

(** *** A sequence of operations *)

(** What the operations return, [None] for one that does not finish. *)
Fixpoint run_in_order (ops : list (op * list (bool * float))) (s : shared)
    : list (option (res reply)) * shared :=
  match ops with
  | [] => ([], s)
  | (o, choices) :: ops =>
      let '(p, s) := solo choices (PStart o) s in
      let r := match p with PDone r => Some (res_map (reply_of s) r) | _ => None end in
      let '(rs, s) := run_in_order ops s in (r :: rs, s)
  end.

Inductive map_run : list (op * list (bool * float)) → hist → list (res reply) → hist → Prop :=
| map_run_nil h : map_run [] h [] h
| map_run_cons o choices ops h h1 h2 r rs :
    map_step choices h o r h1 → map_run ops h1 rs h2 → map_run ((o, choices) :: ops) h (r :: rs) h2.

(** Enough segments for each operation; a clock that moves between the
    operations; deletions reach the store. *)
Fixpoint timely (past : list float) (ops : list (op * list (bool * float))) : bool :=
  match ops with
  | [] => true
  | (o, choices) :: ops =>
      (10 + 3 * max_streams <=? Z.of_nat (length choices)) &&
      forallb (λ x, forallb (flt x) (op_times o)) past &&
      match o with ODel _ _ delete_storage => delete_storage | _ => true end &&
      timely (past ++ op_times o ++ choices.*2) ops
  end.

Lemma run_in_order_map ops past h s :
  timely past ops = true → mem_ok (sh_mem s) → sh_lock s = None → seq_ok past s h →
  ∃ rs h', (run_in_order ops s).1 = map Some rs ∧ map_run ops h rs h'.
Proof using All.
  revert past h s. induction ops as [|[o choices] ops IH]; intros past h s Ht M Hl S.
  - exists [], h. split; [done|constructor].
  - cbn [timely] in Ht. apply andb_prop in Ht as [Ht Ht4]. apply andb_prop in Ht as [Ht Ht3].
    apply andb_prop in Ht as [Hlen%Z.leb_le Ht2].
    assert (∀ x t, x ∈ past → t ∈ op_times o → flt x t = true) as Htime.
    { intros x t Hx Hy. apply list_elem_of_In in Hx, Hy. rewrite forallb_forall in Ht2.
      specialize (Ht2 x Hx). rewrite forallb_forall in Ht2. by apply Ht2. }
    assert (∀ ns sid ds, o = ODel ns sid ds → ds = true) as Hdel by (by intros ns sid ds ->).
    pose proof (solo_returns choices o past h s Htime Hdel Hlen M Hl S) as Hs. cbn [run_in_order].
    destruct (solo choices (PStart o) s) as [p s']. cbn [fst snd] in Hs.
    destruct Hs as (M' & Hl' & r & -> & h1 & Hstep & S').
    destruct (IH _ h1 s' Ht4 M' Hl' S') as (rs & h2 & Hrs & Hrun).
    destruct (run_in_order ops s') as [rs' s'']. cbn [fst] in *. subst rs'.
    exists (res_map (reply_of s') r :: rs), h2. split; [done|by econstructor].
Qed.

Lemma seq_ok_initial ops : seq_ok [] (w_shared (initial ops)) ∅.
Proof using Type. by split. Qed.
End sequential.

(** ** Schedules that lose data

    Concrete runs over namespaces of one stream. *)

Definition race_serializer : Serializer := {| dumps_size := λ _, 100; zlib_size := λ _, 50 |}.

Definition race_run (ops : list op) (sched : list (nat * bool * float)) : world :=
  run_tasks (H := fine_libm) (H0 := race_serializer) 1 10 true true (initial ops) sched.

(** The total of the stream a task returned. *)
Definition returned_total (t : nat) (w : world) : option Z :=
  match w_tasks w !! t with
  | Some (PDone (Ok (AStream (Some r)))) =>
      (λ l, sl_total (st_backend (tl_log l))) <$> sh_heap (w_shared w) !! r
  | _ => None
  end.

Definition one_event (t : float) : list (slog_call * float) := [(SEvent (KStr "e") 1, t)].
(** All the segments of one task at one time. *)
Definition whole (t : nat) (now : float) : list (nat * bool * float) := replicate 8 (t, true, now).

(** The periodic save reads the time stamp after it has serialised the log: an
    event that arrives in between is in neither the row nor, by its time
    stamp, newer than the row, and the eviction drops it. *)
Lemma flush_race_loses_event :
  let w := race_run
    [OIngest "a" "s" (one_event 1%float); OFlush; OIngest "a" "s" (one_event 2%float);
     OIngest "a" "s2" []; OGet "a" "s"]
    (whole 0 1%float ++ [(1%nat, true, 1%float); (1%nat, true, 1%float)] ++ whole 2 2%float ++
     whole 1 3%float ++ whole 3 4%float ++ whole 4 5%float) in
  (returned_total 0 w, returned_total 2 w, returned_total 4 w) = (Some 2, Some 2, Some 1) ∧
  w_tasks w !! 1%nat = Some (PDone (Ok AFlushed)).
Proof. vm_compute. split; reflexivity. Qed.

(** A deletion between the snapshot of the periodic save and its write comes
    undone. *)
Lemma flush_resurrects_deleted_stream :
  let w := race_run
    [OIngest "a" "s" (one_event 1%float); OFlush; ODel "a" "s" true; OGet "a" "s"]
    (whole 0 1%float ++ [(1%nat, true, 1%float)] ++ whole 2 2%float ++ whole 1 3%float ++
     whole 3 4%float) in
  returned_total 3 w = Some 1 ∧
  w_tasks w !! 2%nat = Some (PDone (Ok (AFound true))).
Proof. vm_compute. split; reflexivity. Qed.

(** After the wall clock was set back a newer state looks older than the row:
    the save skips it without an error, and the eviction drops it. *)
Lemma clock_step_loses_events :
  let w := race_run
    [OIngest "a" "s" (one_event 10%float); OIngest "a" "s2" []; OIngest "a" "s" (one_event 5%float);
     OIngest "a" "s2" []; OGet "a" "s"]
    (whole 0 10%float ++ whole 1 11%float ++ whole 2 5%float ++ whole 3 6%float ++ whole 4 7%float) in
  (returned_total 2 w, returned_total 4 w) = (Some 2, Some 1).
Proof. vm_compute. reflexivity. Qed.

(** ** Properties *)

(** C23. Discipline of the registry under every schedule.  However the segments
    of concurrent insertions, loads, evictions, deletions and periodic saves
    interleave, whatever storage accesses fail and whatever the clock shows:
    the capacities per namespace and in total hold, no namespace is left
    empty, at most one operation is inside the operation lock, and when a
    victim is about to leave memory it is still resident and the store has a
    row of it that is not older. *)
Theorem registry_discipline `{Libm} `{Serializer} max_streams_per_ns max_streams storage deterministic
    ops sched :
  1 ≤ max_streams_per_ns → 1 ≤ max_streams →
  let w := run_tasks max_streams_per_ns max_streams storage deterministic (initial ops) sched in
  let s := w_shared w in
  mem_ok max_streams_per_ns max_streams (sh_mem s) ∧
  (∀ t t' p p', w_tasks w !! t = Some p → w_tasks w !! t' = Some p' →
    critical p = true → critical p' = true → t = t') ∧
  (∀ t o stream v l, w_tasks w !! t = Some (PEvict o stream v) → sh_heap s !! v.2 = Some l →
    peek v.1.1 v.1.2 (sh_mem s) = Some v.2 ∧
    ∃ payload label, sh_rows s !! v.1 = Some (payload, label) ∧ flt label (tl_updated l) = false).
Proof.
  intros Hns Hmax w s. pose proof (run_tasks_ok max_streams_per_ns max_streams storage deterministic Hns Hmax
    _ sched (initial_ok max_streams_per_ns max_streams Hns Hmax ops)) as [M Hp]. fold w in M, Hp. split_and!.
  - done.
  - intros t t' p p' Ht Ht' Hc Hc'. destruct (Hp t p Ht) as [Hl _], (Hp t' p' Ht') as [Hl' _].
    specialize (Hl Hc). specialize (Hl' Hc'). congruence.
  - intros t o stream v l Ht Hl. destruct (Hp t _ Ht) as [_ [[Hv _] Hs]]. split; [done|]. by apply Hs.
Qed.

(** The second ingestion, stopped before it takes its victim out of memory. *)
Definition evicting_ops : list op :=
  [OIngest "a" "s" (one_event 1%float); OIngest "a" "s2" []; OGet "a" "s"].
Definition evicting_schedule : list (nat * bool * float) :=
  whole 0 1%float ++ replicate 5 (1%nat, true, 2%float) ++ [(2%nat, true, 2%float)].

Lemma registry_discipline_witness :
  let w := run_tasks (H := fine_libm) (H0 := race_serializer) 1 10 true true (initial evicting_ops)
    evicting_schedule in
  mem_ok 1 10 (sh_mem (w_shared w)) ∧
  w_tasks w !! 1%nat = Some (PEvict (OIngest "a" "s2" []) None ("a", "s", 0%nat)) ∧
  ∀ l, sh_heap (w_shared w) !! 0%nat = Some l → peek "a" "s" (sh_mem (w_shared w)) = Some 0%nat ∧
    ∃ payload label, sh_rows (w_shared w) !! ("a", "s") = Some (payload, label) ∧
      flt label (tl_updated l) = false.
Proof.
  intros w. destruct (registry_discipline (H := fine_libm) (H0 := race_serializer) 1 10 true true
    evicting_ops evicting_schedule) as (M & _ & He); [lia|lia|].
  assert (w_tasks w !! 1%nat = Some (PEvict (OIngest "a" "s2" []) None ("a", "s", 0%nat))) as Ht
    by (vm_compute; reflexivity).
  split; [exact M|]. split; [exact Ht|]. intros l Hl. exact (He _ _ _ _ l Ht Hl).
Defined.

(** C24. The bounded memory is transparent.  Operations that do not overlap,
    with a clock that moves between them, all finish, within ten segments and
    three more for every resident stream, and answer like an unbounded map
    from stream names to everything that was ingested under them: whatever is
    evicted, saved, loaded again or kept, an ingestion or a query sees the log
    that executing the whole history gives, and a deletion removes all of it;
    failing storage accesses make an operation fail, not the map change. *)
Theorem registry_implements_map `{L : Libm, !LibmLaws L} `{Serializer} max_streams_per_ns max_streams
    deterministic s0 ops :
  1 ≤ max_streams_per_ns → 1 ≤ max_streams →
  (∀ d, dumps_size d ≤ MAX_SERIALIZED_STATE_BYTES → zlib_size d ≤ MAX_SERIALIZED_STATE_BYTES) →
  new_log (log_defaults deterministic) = Ok s0 → usable (sl_latency s0) →
  timely max_streams [] ops = true →
  ∃ replies h,
    (run_in_order max_streams_per_ns max_streams deterministic ops (w_shared (initial []))).1 =
      map Some replies ∧
    map_run deterministic s0 ops ∅ replies h.
Proof.
  intros Hns Hmax Hz Hi Hu Ht.
  destruct (initial_ok max_streams_per_ns max_streams Hns Hmax []) as [M _].
  by apply (run_in_order_map max_streams_per_ns max_streams deterministic Hns Hmax Hz s0 Hi Hu ops []).
Qed.

Definition fine_new_log : slog :=
  Eval vm_compute in
  match new_log (H := fine_libm) (log_defaults true) with Ok s => s | Raise _ => demo_log end.

(** One stream in memory at a time; the last save fails. *)
Definition demo_sequence : list (op * list (bool * float)) :=
  let go ok (t : float) := replicate 13 (ok, t) in
  [(OIngest "a" "s" (one_event 1%float), go true 1%float);
   (OIngest "a" "s2" (one_event 2%float), go true 2%float);
   (OIngest "a" "s" (one_event 3%float), go true 3%float);
   (OFlush, go true 4%float);
   (OGet "a" "s", go true 4%float);
   (ODel "a" "s2" true, go true 5%float);
   (OGet "a" "s2", go true 5%float);
   (OIngest "a" "s3" [], go false 6%float)].

(** The totals that a client sees. *)
Definition seen (r : option (res reply)) : option (option Z) :=
  match r with
  | Some (Ok (RLog l)) => Some ((λ l, sl_total (st_backend l)) <$> l)
  | _ => None
  end.

Lemma registry_implements_map_witness :
  let x := run_in_order (L := fine_libm) (H := race_serializer) 1 1 true demo_sequence
    (w_shared (initial [])) in
  map seen x.1 = [Some (Some 1); Some (Some 1); Some (Some 2); None; Some (Some 2); None; Some None; None] ∧
  ∃ replies h, x.1 = map Some replies ∧
    map_run (L := fine_libm) (H := race_serializer) true fine_new_log demo_sequence ∅ replies h.
Proof.
  split; [vm_compute; reflexivity|].
  apply (registry_implements_map (L := fine_libm) (H := race_serializer) 1 1 true fine_new_log demo_sequence);
    [lia|lia|done|vm_compute; reflexivity| |vm_compute; reflexivity].
  split; [|split; vm_compute; reflexivity]. split; vm_compute; reflexivity.
Defined.
