(* ===== verification/Mesh.v ===== *)
(** * The mesh: replicated snapshots and tombstones ([cluster.py])

    The state of [ClusterManager] and the part of it that replicates streams:
    for every stream and origin node the newest snapshot or deletion marker
    received, and the deletion markers of the node's own streams.  Proved:
    receiving is a last-writer-wins join, so replicas converge whatever the
    order and repetition of the messages; deletions are not undone by older
    data; the capacities hold on any payload; a failed deletion is undone
    exactly. *)

From Stdlib Require Import PrimFloat Ascii String.
From S2P Require Import Prelude PyFloat FloatRound Hashing CountMin HyperLogLog DDSketch.
From S2P Require Import PyVal PyNum PyDict Json StreamLog Checkpoint.

#[local] Open Scope Z_scope.
#[local] Open Scope py_scope.
#[local] Set Warnings "-inexact-float".

(** ** State *)

Inductive Status := SAlive | SSuspect | SDead.

#[export] Instance Status_eq_dec : EqDecision Status.
Proof. solve_decision. Defined.

(** The fields of a membership entry the code reads; [None] when the object
    has no address. *)
Record member := mk_member {
  mb_address : option pyval;
  mb_status : Status;
  mb_incarnation : Z;
  mb_last : float;
  mb_seed : bool
}.

Record mesh := mk_mesh {
  ms_node_id : string;
  ms_address : string;
  ms_allowed : list string;
  ms_timeout : float;
  ms_max_payload : Z;
  ms_max_tombstones : Z;
  ms_incarnation : Z;
  ms_members : list (string * member);
  ms_snapshots : list (string * list (string * (slog * pnum)));
  ms_tombstones : list (string * list (string * pnum));
  ms_local : list (string * float);
  ms_cursor : Z;
  ms_ticks : nat
}.

Definition MAX_MEMBERS : Z := 256.
Definition MAX_PEER_STREAMS : Z := 10000.
Definition MAX_ORIGINS_PER_STREAM : Z := 50.

Definition set_members (m : list (string * member)) (s : mesh) : mesh :=
  mk_mesh (ms_node_id s) (ms_address s) (ms_allowed s) (ms_timeout s) (ms_max_payload s)
    (ms_max_tombstones s) (ms_incarnation s) m (ms_snapshots s) (ms_tombstones s)
    (ms_local s) (ms_cursor s) (ms_ticks s).
Definition set_incarnation (i : Z) (s : mesh) : mesh :=
  mk_mesh (ms_node_id s) (ms_address s) (ms_allowed s) (ms_timeout s) (ms_max_payload s)
    (ms_max_tombstones s) i (ms_members s) (ms_snapshots s) (ms_tombstones s)
    (ms_local s) (ms_cursor s) (ms_ticks s).
Definition set_peers (sn : list (string * list (string * (slog * pnum))))
    (tb : list (string * list (string * pnum))) (s : mesh) : mesh :=
  mk_mesh (ms_node_id s) (ms_address s) (ms_allowed s) (ms_timeout s) (ms_max_payload s)
    (ms_max_tombstones s) (ms_incarnation s) (ms_members s) sn tb (ms_local s)
    (ms_cursor s) (ms_ticks s).
Definition set_local (l : list (string * float)) (s : mesh) : mesh :=
  mk_mesh (ms_node_id s) (ms_address s) (ms_allowed s) (ms_timeout s) (ms_max_payload s)
    (ms_max_tombstones s) (ms_incarnation s) (ms_members s) (ms_snapshots s)
    (ms_tombstones s) l (ms_cursor s) (ms_ticks s).
Definition set_cursor (c : Z) (s : mesh) : mesh :=
  mk_mesh (ms_node_id s) (ms_address s) (ms_allowed s) (ms_timeout s) (ms_max_payload s)
    (ms_max_tombstones s) (ms_incarnation s) (ms_members s) (ms_snapshots s)
    (ms_tombstones s) (ms_local s) c (ms_ticks s).
Definition tick_mesh (s : mesh) : mesh :=
  mk_mesh (ms_node_id s) (ms_address s) (ms_allowed s) (ms_timeout s) (ms_max_payload s)
    (ms_max_tombstones s) (ms_incarnation s) (ms_members s) (ms_snapshots s)
    (ms_tombstones s) (ms_local s) (ms_cursor s) (S (ms_ticks s)).

(** ** Receiving *)

(** [d.get(k, {})] of a dictionary of dictionaries. *)
Definition group {A} (d : list (string * list (string * A))) (k : string) : list (string * A) :=
  default [] (od_get d k).

(** [d.setdefault(k, {})[n] = v], and removing an entry together with a group
    left empty. *)
Definition group_set {A} (k n : string) (v : A) (d : list (string * list (string * A)))
  : list (string * list (string * A)) :=
  od_set k (od_set n v (group d k)) d.
Definition group_pop {A} (k n : string) (d : list (string * list (string * A)))
  : list (string * list (string * A)) :=
  match od_del n (group d k) with
  | [] => od_del k d
  | g => od_set k g d
  end.

(** The critical section of [receive_snapshot]: one update of one origin, a
    snapshot or (with no log) a tombstone. *)
Definition merge_update (stream_id nid : string) (version : pnum) (log : option slog)
    (s : mesh) : mesh :=
  let snaps := ms_snapshots s in
  let tombs := ms_tombstones s in
  if negb (in_union snaps tombs stream_id) && (MAX_PEER_STREAMS <=? union_size snaps tombs)
  then s
  else
    let existing_origins := group snaps stream_id in
    let tombstone_origins := group tombs stream_id in
    if negb (in_union existing_origins tombstone_origins nid)
       && (MAX_ORIGINS_PER_STREAM <=? union_size existing_origins tombstone_origins)
    then s
    else
      let existing_snapshot :=
        match od_get existing_origins nid with Some (_, v) => v | None => PInt 0 end in
      let existing_tombstone := default (PInt 0) (od_get tombstone_origins nid) in
      if pn_le version (pn_max existing_snapshot existing_tombstone) then s
      else match log with
      | None =>
          set_peers (group_pop stream_id nid snaps) (group_set stream_id nid version tombs) s
      | Some l =>
          set_peers (group_set stream_id nid (l, version) snaps)
            (group_pop stream_id nid tombs) s
      end.

(** [isinstance(nid, str) and 0 < len(nid) <= 255] *)
Definition as_identifier (v : pyval) : option string :=
  match v with VStr s => if identifier_ok s then Some s else None | _ => None end.

Section Mesh.
Context `{Libm}.

(** What an entry of the payload says: its version, and its log unless it is
    a tombstone. *)
Definition decode_update (data : pydict) (timestamp : float) : res (pnum * option slog) :=
  let? version :=
    expect (as_number (default (VFloat timestamp) (dict_get data "__version__")))
      "invalid origin version" in
  let? finite := pn_isfinite version in
  if negb finite || pn_lt version (PInt 0) then Raise (ValueError "invalid origin version")
  else
    match dict_get data "__tombstone__" with
    | Some (VBool true) => Ok (version, None)
    | _ =>
        let? log := slog_from_dict (default (VDict data) (dict_get data "state")) in
        Ok (version, Some log)
    end.

(** One entry; every exception is caught and logged. *)
Definition receive_entry (stream_id : string) (timestamp : float) (entry : pyval * pyval)
  : M mesh unit :=
  match as_identifier entry.1, as_dict entry.2 with
  | Some nid, Some data =>
      s <- mget ;;
      if decide (nid = ms_node_id s) then mret ()
      else match decode_update data timestamp with
      | Ok (version, log) => mmodify (merge_update stream_id nid version log)
      | Raise _ => mret ()
      end
  | _, _ => mret ()
  end.

Definition receive_stream (timestamp : float) (entry : pyval * pyval) : M mesh unit :=
  match entry.1, as_dict entry.2 with
  | VStr stream_id, Some node_data =>
      if valid_stream_key (VStr stream_id)
      then mfor node_data (receive_entry stream_id timestamp) else mret ()
  | _, _ => mret ()
  end.

Definition receive_snapshot (sender streams_data : pyval) (timestamp : float) : M mesh unit :=
  match as_identifier sender with
  | None => mraise (ValueError "invalid sender node ID")
  | Some _ =>
      match as_dict streams_data with
      | None => mraise (ValueError "streams must be an object")
      | Some streams => mfor streams (receive_stream timestamp)
      end
  end.

(** [handle_gossip_sync]: the two fields are required. *)
Definition handle_gossip_sync (payload : pydict) (now : float) : M mesh unit :=
  sender <- mlift (dict_item payload "node_id") ;;
  streams <- mlift (dict_item payload "streams") ;;
  receive_snapshot sender streams now.

(** ** Deletions of local streams *)

Definition begin_deletion (namespace stream_id : string) (now : float)
  : M mesh (string * float * option float) :=
  let full_id := stream_key namespace stream_id in
  s <- mget ;;
  let previous := od_get (ms_local s) full_id in
  raise_if (bool_decide (previous = None)
            && (ms_max_tombstones s <=? Z.of_nat (length (ms_local s))))
    (RuntimeError "local mesh tombstone capacity exhausted") ;;;
  let committed := fmax now (default 0%float previous + 1e-6)%float in
  mmodify (set_local (od_set full_id committed (ms_local s))) ;;;
  mret (full_id, committed, previous).

Definition rollback_deletion (stream_key : string) (version : float) (previous : option float)
  : M mesh unit :=
  s <- mget ;;
  match od_get (ms_local s) stream_key with
  | Some v =>
      if feq v version then
        match previous with
        | None => mmodify (set_local (od_del stream_key (ms_local s)))
        | Some p => mmodify (set_local (od_set stream_key p (ms_local s)))
        end
      else mret ()
  | None => mret ()
  end.

Definition record_deletion (namespace stream_id : string) (now : float)
  : M mesh (string * float) :=
  r <- begin_deletion namespace stream_id now ;;
  let '(key, version, _) := r in mret (key, version).

Definition restore_tombstone (entry : pyval * pyval) : M mesh unit :=
  match entry.1, as_number entry.2 with
  | VStr stream_id, Some version =>
      if negb (valid_stream_key (VStr stream_id)) then mret ()
      else
        finite <- mlift (pn_isfinite version) ;;
        if negb finite || pn_lt version (PInt 0) then mret ()
        else
          s <- mget ;;
          raise_if (negb (od_has (ms_local s) stream_id)
                    && (ms_max_tombstones s <=? Z.of_nat (length (ms_local s))))
            (RuntimeError "stored mesh tombstones exceed configured capacity") ;;;
          v <- mlift (pn_float version) ;;
          mmodify (set_local
            (od_set stream_id (fmax v (default 0%float (od_get (ms_local s) stream_id)))
               (ms_local s)))
  | _, _ => mret ()
  end.

Definition restore_local_tombstones (tombstones : pydict) : M mesh unit :=
  mfor tombstones restore_tombstone.

(** ** Reading *)

Definition has_peer_data (s : mesh) (namespace stream_id : string) : bool :=
  match od_get (ms_snapshots s) (stream_key namespace stream_id) with
  | Some (_ :: _) => true
  | _ => false
  end.

(** [local] is the snapshot of the local stream, or a new log. *)
Definition get_merged_stream (s : mesh) (namespace stream_id : string) (local : slog)
  : res slog :=
  res_fold (λ merged '(_, (peer_log, _)),
    match slog_merge peer_log merged with
    | (Ok _, merged') => Ok merged'
    | (Raise e, _) => Raise e
    end) (group (ms_snapshots s) (stream_key namespace stream_id)) local.
End Mesh.

(** ** Groups *)

Section groups.
Context {A : Type}.
Implicit Types d : list (string * list (string * A)).

Lemma group_set_get k n v d k' :
  group (group_set k n v d) k' = if decide (k = k') then od_set n v (group d k) else group d k'.
Proof. unfold group, group_set. rewrite od_get_set. by case_decide. Qed.

Lemma group_pop_get k n d k' :
  group (group_pop k n d) k' = if decide (k = k') then od_del n (group d k) else group d k'.
Proof.
  unfold group_pop. destruct (od_del n (group d k)) as [|x g] eqn:E; unfold group.
  - rewrite od_get_del. by case_decide.
  - rewrite od_get_set. by case_decide.
Qed.

Lemma group_set_keys k n v d k' : k' ∈ od_keys (group_set k n v d) → k' = k ∨ k' ∈ od_keys d.
Proof. unfold group_set. by rewrite elem_of_od_keys_set. Qed.

Lemma group_pop_keys k n d k' : k' ∈ od_keys (group_pop k n d) → k' ∈ od_keys d.
Proof.
  unfold group_pop. destruct (od_del n (group d k)) as [|x g] eqn:E.
  - rewrite elem_of_od_keys_del. by intros [].
  - rewrite elem_of_od_keys_set. intros [->|]; [|done]. apply od_get_key.
    unfold group in E. destruct (od_get d k); [by eexists|]. done.
Qed.
End groups.

(** ** The replicated register *)

Definition entry : Type := pnum * option slog.

(** What the node holds for an origin of a stream. *)
Definition entry_at (s : mesh) (st n : string) : option entry :=
  match od_get (group (ms_snapshots s) st) n with
  | Some (l, v) => Some (v, Some l)
  | None => option_map (λ v, (v, None)) (od_get (group (ms_tombstones s) st) n)
  end.

Definition entry_version (e : option entry) : Z :=
  match e with Some (v, _) => pn_val v | None => 0 end.

(** The join: the newer of the two, the first on a tie. *)
Definition lww (a b : option entry) : option entry :=
  if entry_version a <? entry_version b then b else a.

#[export] Instance lww_idemp : IdemP (=) lww.
Proof. intros a. unfold lww. by rewrite Z.ltb_irrefl. Qed.

#[export] Instance lww_assoc : Assoc (=) lww.
Proof.
  intros a b c. unfold lww.
  destruct (Z.ltb_spec (entry_version b) (entry_version c)),
    (Z.ltb_spec (entry_version a) (entry_version b));
    destruct (Z.ltb_spec (entry_version a) (entry_version c)); try done; try lia;
    try (rewrite (proj2 (Z.ltb_lt _ _)) by lia; done);
    rewrite (proj2 (Z.ltb_ge _ _)) by lia; done.
Qed.

Lemma lww_comm a b : (entry_version a = entry_version b → a = b) → lww a b = lww b a.
Proof.
  intros H. unfold lww.
  destruct (Z.ltb_spec (entry_version a) (entry_version b)),
    (Z.ltb_spec (entry_version b) (entry_version a)); try done; [lia|]. apply H. lia.
Qed.

(** ** The invariant of the replicated state *)

Record mesh_ok (s : mesh) : Prop := {
  mo_streams : union_size (ms_snapshots s) (ms_tombstones s) ≤ MAX_PEER_STREAMS;
  mo_origins : ∀ st, union_size (group (ms_snapshots s) st) (group (ms_tombstones s) st)
                     ≤ MAX_ORIGINS_PER_STREAM;
  mo_exclusive : ∀ st n x, od_get (group (ms_snapshots s) st) n = Some x →
    od_get (group (ms_tombstones s) st) n = None;
  mo_foreign : ∀ st, entry_at s st (ms_node_id s) = None;
  mo_entries : ∀ st n v l, entry_at s st n = Some (v, l) →
    pn_fin v = true ∧ 0 < pn_val v ∧ (∀ log, l = Some log → slog_wf log)
}.

(** An update as it comes out of a payload. *)
Record update := mk_update {
  up_stream : string; up_node : string; up_version : pnum; up_log : option slog
}.

Definition update_ok (u : update) : Prop :=
  pn_fin (up_version u) = true ∧ 0 ≤ pn_val (up_version u) ∧
  ∀ log, up_log u = Some log → slog_wf log.

Definition apply_update (u : update) (s : mesh) : mesh :=
  merge_update (up_stream u) (up_node u) (up_version u) (up_log u) s.

(** The capacity tests of the critical section. *)
Definition admitted (st n : string) (s : mesh) : bool :=
  negb (negb (in_union (ms_snapshots s) (ms_tombstones s) st)
        && (MAX_PEER_STREAMS <=? union_size (ms_snapshots s) (ms_tombstones s)))
  && negb (negb (in_union (group (ms_snapshots s) st) (group (ms_tombstones s) st) n)
           && (MAX_ORIGINS_PER_STREAM
               <=? union_size (group (ms_snapshots s) st) (group (ms_tombstones s) st))).

Lemma pn_val_zero : pn_val (PInt 0) = 0.
Proof. done. Qed.

(** The version the code compares with is the one of the entry. *)
Lemma known_version s st n v :
  mesh_ok s → pn_fin v = true →
  pn_le v (pn_max
    match od_get (group (ms_snapshots s) st) n with Some (_, v) => v | None => PInt 0 end
    (default (PInt 0) (od_get (group (ms_tombstones s) st) n)))
  = (pn_val v <=? entry_version (entry_at s st n)).
Proof.
  intros Ok Fv. pose proof (mo_entries s Ok st n) as He.
  pose proof (mo_exclusive s Ok st n) as Hx. unfold entry_at in *.
  destruct (od_get (group (ms_snapshots s) st) n) as [[l w]|];
    [rewrite (Hx (l, w)) by done|destruct (od_get (group (ms_tombstones s) st) n) as [w|]];
    cbn [option_map default entry_version] in *.
  - destruct (He w (Some l) eq_refl) as (Fw & Hw & _).
    apply Bool.eq_iff_eq_true. rewrite pn_le_val by (done || by apply pn_max_fin).
    rewrite pn_max_val by done. rewrite pn_val_zero, Z.leb_le. lia.
  - destruct (He w None eq_refl) as (Fw & Hw & _).
    apply Bool.eq_iff_eq_true. rewrite pn_le_val by (done || by apply pn_max_fin).
    rewrite pn_max_val by done. rewrite pn_val_zero, Z.leb_le. unfold id. lia.
  - apply Bool.eq_iff_eq_true. rewrite pn_le_val by done. by rewrite Z.leb_le.
Qed.

(** The effect of one update: nothing, or a strictly newer entry in its
    place. *)
Lemma merge_update_entry s st n v l st' n' :
  mesh_ok s → pn_fin v = true →
  entry_at (merge_update st n v l s) st' n' =
  if decide (st = st' ∧ n = n')
  then if admitted st n s then lww (entry_at s st n) (Some (v, l)) else entry_at s st' n'
  else entry_at s st' n'.
Proof.
  intros Ok Fv. unfold merge_update, admitted.
  destruct (negb (in_union (ms_snapshots s) _ st) && _) eqn:G1;
    cbn [negb andb]; [by case_decide|].
  destruct (negb (in_union (group (ms_snapshots s) st) _ n) && _) eqn:G2;
    cbn [negb andb]; [by case_decide|].
  rewrite known_version by done. unfold lww. cbn [entry_version].
  destruct (Z.leb_spec (pn_val v) (entry_version (entry_at s st n))) as [Hle|Hgt].
  { rewrite (proj2 (Z.ltb_ge _ _)) by done. case_decide as E; [|done].
    by destruct E as [-> ->]. }
  rewrite (proj2 (Z.ltb_lt _ _)) by done.
  destruct l as [log|]; unfold entry_at; cbn [ms_snapshots ms_tombstones set_peers];
    rewrite group_set_get, group_pop_get; case_decide as E; subst; cbn [andb].
  - rewrite od_get_set. destruct (decide (n = n')) as [->|Hn].
    + rewrite decide_True by done. done.
    + rewrite decide_False by (by intros []). by rewrite od_get_del_ne.
  - rewrite decide_False by (by intros []). done.
  - rewrite od_get_del. destruct (decide (n = n')) as [->|Hn].
    + rewrite decide_True by done. by rewrite od_get_set_eq.
    + rewrite decide_False by (by intros []). by rewrite od_get_set_ne.
  - rewrite decide_False by (by intros []). done.
Qed.

Lemma od_del_none {A} (d : list (string * A)) n n' :
  od_get d n' = None → od_get (od_del n d) n' = None.
Proof. intros H. rewrite od_get_del. by case_decide. Qed.

(** What an admitted newer update stores. *)
Definition stored (st n : string) (v : pnum) (l : option slog) (s : mesh) : mesh :=
  match l with
  | None => set_peers (group_pop st n (ms_snapshots s)) (group_set st n v (ms_tombstones s)) s
  | Some log => set_peers (group_set st n (log, v) (ms_snapshots s))
                  (group_pop st n (ms_tombstones s)) s
  end.

Lemma merge_update_cases st n v l s :
  merge_update st n v l s = s ∨
  merge_update st n v l s = stored st n v l s ∧ admitted st n s = true.
Proof.
  unfold merge_update, admitted, stored.
  destruct (negb (in_union (ms_snapshots s) _ st) && _); [by left|].
  destruct (negb (in_union (group (ms_snapshots s) st) _ n) && _); [by left|].
  destruct (pn_le _ _); [by left|]. right. by destruct l.
Qed.

(** Storing under a key keeps the key sets within one new element. *)
Lemma stored_keys st n v l s k :
  k ∈ od_keys (ms_snapshots (stored st n v l s)) ++ od_keys (ms_tombstones (stored st n v l s)) →
  k = st ∨ k ∈ od_keys (ms_snapshots s) ++ od_keys (ms_tombstones s).
Proof.
  rewrite !elem_of_app. unfold stored.
  destruct l; simpl; intros [H|H]; try apply group_set_keys in H; try apply group_pop_keys in H;
    set_solver.
Qed.

Lemma stored_origins st n v l s st' k :
  k ∈ od_keys (group (ms_snapshots (stored st n v l s)) st')
      ++ od_keys (group (ms_tombstones (stored st n v l s)) st') →
  (k = n ∧ st' = st) ∨ k ∈ od_keys (group (ms_snapshots s) st') ++ od_keys (group (ms_tombstones s) st').
Proof.
  rewrite !elem_of_app. unfold stored.
  destruct l; simpl; rewrite group_set_get, group_pop_get; destruct (decide (st = st')) as [->|];
    rewrite ?elem_of_od_keys_set, ?elem_of_od_keys_del; naive_solver.
Qed.

Lemma union_within {A B A' B'} k (d : list (string * A)) (e : list (string * B))
    (d' : list (string * A')) (e' : list (string * B')) (bound : Z) :
  negb (negb (in_union d e k) && (bound <=? union_size d e)) = true →
  (∀ k', k' ∈ od_keys d' ++ od_keys e' → k' = k ∨ k' ∈ od_keys d ++ od_keys e) →
  union_size d e ≤ bound → union_size d' e' ≤ bound.
Proof.
  intros Hg Hk Hb. destruct (in_union d e k) eqn:Ein.
  - apply in_union_spec in Ein. etransitivity; [|exact Hb].
    apply union_size_mono. intros k' [->|Hk']%Hk; done.
  - cbn in Hg. pose proof (union_size_add k d e d' e' Hk).
    destruct (Z.leb_spec bound (union_size d e)); [done|]. lia.
Qed.

Lemma merge_update_ok st n v l s :
  mesh_ok s → pn_fin v = true → 0 ≤ pn_val v → n ≠ ms_node_id s →
  (∀ log, l = Some log → slog_wf log) →
  mesh_ok (merge_update st n v l s) ∧ ms_node_id (merge_update st n v l s) = ms_node_id s.
Proof.
  intros Ok Fv Hv Hn Hl.
  pose proof (λ st' n', merge_update_entry s st n v l st' n' Ok Fv) as He.
  destruct (merge_update_cases st n v l s) as [E|[E Ha]]; rewrite E in *; [done|].
  unfold admitted in Ha. apply andb_true_iff in Ha as [Ha1 Ha2].
  split; [|by destruct l].
  constructor.
  - eapply union_within; [exact Ha1|apply stored_keys|apply Ok].
  - intros st'. destruct (decide (st' = st)) as [->|Hne].
    + eapply union_within; [exact Ha2| |apply Ok].
      intros k' [[? _]|?]%stored_origins; [by left|by right].
    + etransitivity; [|apply (mo_origins s Ok st')]. apply union_size_mono.
      intros k' [[_ ?]|?]%stored_origins; done.
  - intros st' n' x. pose proof (mo_exclusive s Ok st' n') as Hx. unfold stored.
    destruct l as [log|]; cbn [ms_snapshots ms_tombstones set_peers];
      rewrite group_set_get, group_pop_get; destruct (decide (st = st')) as [->|Hne]; try apply Hx.
    + rewrite od_get_set, od_get_del. case_decide; [done|]. apply Hx.
    + rewrite od_get_set, od_get_del. case_decide; [done|]. apply Hx.
  - intros st'. assert (ms_node_id (stored st n v l s) = ms_node_id s) as -> by by destruct l.
    rewrite He, decide_False by (by intros [_ ?]). apply Ok.
  - intros st' n' w l'. rewrite He. case_decide as Hd; [|apply Ok]. destruct Hd as [-> ->].
    destruct (admitted st' n' s); [|apply Ok]. unfold lww. cbn [entry_version].
    destruct (Z.ltb_spec (entry_version (entry_at s st' n')) (pn_val v)) as [Hlt|]; [|apply Ok].
    intros [= <- <-]. split_and!; try done.
    destruct (entry_at s st' n') as [[w l']|] eqn:Ee; cbn in Hlt; [|done].
    destruct (mo_entries s Ok _ _ _ _ Ee) as (_ & ? & _). lia.
Qed.

(** ** Payloads *)

Section payloads.
Context `{Libm}.

(** The updates a payload carries for a node: the entries that decode, in
    order, without the node's own. *)
Definition entry_updates (node stream_id : string) (timestamp : float) (e : pyval * pyval)
  : list update :=
  match as_identifier e.1, as_dict e.2 with
  | Some nid, Some data =>
      if decide (nid = node) then []
      else match decode_update data timestamp with
           | Ok (v, l) => [mk_update stream_id nid v l]
           | Raise _ => []
           end
  | _, _ => []
  end.

Definition stream_updates (node : string) (timestamp : float) (e : pyval * pyval) : list update :=
  match e.1, as_dict e.2 with
  | VStr stream_id, Some node_data =>
      if valid_stream_key (VStr stream_id)
      then flat_map (entry_updates node stream_id timestamp) node_data else []
  | _, _ => []
  end.

Definition payload_updates (node : string) (timestamp : float) (streams : pydict) : list update :=
  flat_map (stream_updates node timestamp) streams.

Definition apply_updates (us : list update) (s : mesh) : mesh :=
  foldl (λ s u, apply_update u s) s us.

Lemma apply_updates_app us vs s : apply_updates (us ++ vs) s = apply_updates vs (apply_updates us s).
Proof. apply foldl_app. Qed.

Lemma apply_update_node u s : ms_node_id (apply_update u s) = ms_node_id s.
Proof.
  unfold apply_update. destruct (merge_update_cases (up_stream u) (up_node u) (up_version u)
    (up_log u) s) as [->|[-> _]]; [done|]. unfold stored. by destruct (up_log u).
Qed.

Lemma apply_updates_node us s : ms_node_id (apply_updates us s) = ms_node_id s.
Proof.
  revert s. induction us as [|u us IH]; intros s; [done|]. cbn.
  change (ms_node_id (apply_updates us (apply_update u s)) = ms_node_id s).
  by rewrite IH, apply_update_node.
Qed.

Lemma receive_entry_run stream_id ts e s :
  receive_entry stream_id ts e s =
  (Ok (), apply_updates (entry_updates (ms_node_id s) stream_id ts e) s).
Proof.
  unfold receive_entry, entry_updates.
  destruct (as_identifier e.1) as [nid|]; [|done]. destruct (as_dict e.2) as [data|]; [|done].
  step_run mget_run. destruct (decide (nid = ms_node_id s)); [done|].
  by destruct (decode_update data ts) as [[v l]|].
Qed.

(** A loop whose body applies updates applies them all. *)
Lemma mfor_updates (f : string → pyval * pyval → list update) (body : pyval * pyval → M mesh unit) es s :
  (∀ e s, body e s = (Ok (), apply_updates (f (ms_node_id s) e) s)) →
  mfor es body s = (Ok (), apply_updates (flat_map (f (ms_node_id s)) es) s).
Proof.
  intros Hb. revert s. induction es as [|e es IH]; intros s; [done|].
  cbn [mfor flat_map]. step_run Hb. rewrite IH, apply_updates_node. by rewrite apply_updates_app.
Qed.

Lemma receive_stream_run ts e s :
  receive_stream ts e s = (Ok (), apply_updates (stream_updates (ms_node_id s) ts e) s).
Proof.
  unfold receive_stream, stream_updates. destruct e.1; try done.
  destruct (as_dict e.2) as [d|]; [|done]. destruct (valid_stream_key _); [|done].
  rewrite (mfor_updates (λ node, entry_updates node s0 ts)); [done|].
  intros e' s'. apply receive_entry_run.
Qed.

Lemma receive_snapshot_run sender streams ts s :
  is_Some (as_identifier sender) →
  receive_snapshot sender (VDict streams) ts s =
  (Ok (), apply_updates (payload_updates (ms_node_id s) ts streams) s).
Proof.
  intros [x Ex]. unfold receive_snapshot. rewrite Ex. cbn [as_dict].
  apply (mfor_updates (λ node, stream_updates node ts)). intros; apply receive_stream_run.
Qed.

Lemma decode_update_ok data ts v l :
  decode_update data ts = Ok (v, l) →
  pn_fin v = true ∧ 0 ≤ pn_val v ∧ ∀ log, l = Some log → slog_wf log.
Proof.
  unfold decode_update. intros E. apply res_bind_ok in E as (w & _ & E).
  apply res_bind_ok in E as (b & Eb & E). apply pn_isfinite_fin in Eb.
  destruct b; cbn [negb orb] in E; [|done].
  destruct (pn_lt w (PInt 0)) eqn:El; [done|].
  assert (0 ≤ pn_val w) as Hw.
  { rewrite <- not_true_iff_false, pn_lt_val in El by done. rewrite pn_val_zero in El. lia. }
  assert (∀ r, (let? log := slog_from_dict r in Ok (w, Some log)) = Ok (v, l) →
    pn_fin v = true ∧ 0 ≤ pn_val v ∧ ∀ log, l = Some log → slog_wf log) as Hlog.
  { intros r Hr. apply res_bind_ok in Hr as (log & Elog & [= <- <-]). split_and!; try done.
    intros ? [= <-]. by eapply from_dict_wf. }
  destruct (dict_get data "__tombstone__") as [[|[]| | | | |]|]; try (by eapply Hlog).
  injection E as <- <-. by split_and!.
Qed.

Lemma payload_updates_ok node ts streams :
  Forall (λ u, update_ok u ∧ up_node u ≠ node) (payload_updates node ts streams).
Proof.
  apply Forall_flat_map, Forall_forall. intros e _. unfold stream_updates.
  destruct e.1 as [| | | |st| |]; try done. destruct (as_dict e.2) as [d|]; [|done].
  destruct (valid_stream_key _); [|done]. apply Forall_flat_map, Forall_forall.
  intros e' _. unfold entry_updates.
  destruct (as_identifier e'.1) as [nid|]; [|done]. destruct (as_dict e'.2) as [data|]; [|done].
  destruct (decide (nid = node)); [done|].
  destruct (decode_update data ts) as [[v l]|] eqn:E; [|done].
  constructor; [|done]. split; [by eapply decode_update_ok|done].
Qed.

Lemma apply_updates_ok us s :
  mesh_ok s → Forall (λ u, update_ok u ∧ up_node u ≠ ms_node_id s) us →
  mesh_ok (apply_updates us s).
Proof.
  intros Ok Hus. revert s Ok Hus. induction us as [|u us IH]; intros s Ok Hus; [done|].
  apply Forall_cons in Hus as [[(Fv & Hv & Hl) Hn] Hus].
  apply IH; [by apply merge_update_ok|]. by rewrite apply_update_node.
Qed.

(** Entries only move forward: each is kept or replaced by a newer one. *)
Lemma apply_updates_mono us s st n :
  mesh_ok s → Forall (λ u, update_ok u ∧ up_node u ≠ ms_node_id s) us →
  entry_at (apply_updates us s) st n = entry_at s st n ∨
  entry_version (entry_at s st n) < entry_version (entry_at (apply_updates us s) st n).
Proof.
  intros Ok Hus. revert s Ok Hus. induction us as [|u us IH]; intros s Ok Hus; [by left|].
  apply Forall_cons in Hus as [[(Fv & Hv & Hl) Hn] Hus].
  assert (mesh_ok (apply_update u s)) as Ok' by by apply merge_update_ok.
  destruct (IH (apply_update u s) Ok') as [IH'|IH']; [by rewrite apply_update_node| |].
  all: cbn; fold (apply_updates us (apply_update u s)).
  all: assert (entry_at (apply_update u s) st n = entry_at s st n ∨
    entry_version (entry_at s st n) < entry_version (entry_at (apply_update u s) st n)) as Hs
    by (unfold apply_update; rewrite merge_update_entry by done; case_decide as Hd; [|by left];
        destruct Hd as [<- <-]; destruct (admitted _ _ s); [|by left]; unfold lww;
        destruct (Z.ltb_spec (entry_version (entry_at s (up_stream u) (up_node u)))
          (entry_version (Some (up_version u, up_log u)))); [by right|by left]).
  - rewrite IH'. done.
  - right. destruct Hs as [Hs|Hs]; [by rewrite Hs in IH'|lia].
Qed.
End payloads.

(** ** Convergence *)

Definition streams_of (us : list update) : list string := up_stream <$> us.
Definition origins_of (st : string) (us : list update) : list string :=
  up_node <$> filter (λ u, up_stream u = st) us.
Definition entries_of (st n : string) (us : list update) : list (option entry) :=
  (λ u, Some (up_version u, up_log u)) <$> filter (λ u, up_stream u = st ∧ up_node u = n) us.

(** The messages never reach a capacity: not more streams, nor origins of one
    stream, than the node keeps. *)
Definition within_capacity (us : list update) : Prop :=
  Z.of_nat (length (remove_dups (streams_of us))) ≤ MAX_PEER_STREAMS ∧
  ∀ st, Z.of_nat (length (remove_dups (origins_of st us))) ≤ MAX_ORIGINS_PER_STREAM.

(** An origin gives one content to each of its versions. *)
Definition consistent (us : list update) : Prop :=
  ∀ u v, u ∈ us → v ∈ us → up_stream u = up_stream v → up_node u = up_node v →
    pn_val (up_version u) = pn_val (up_version v) → u = v.

(** The state knows only streams and origins named by [all]. *)
Definition knows (s : mesh) (all : list update) : Prop :=
  (∀ k, k ∈ od_keys (ms_snapshots s) ++ od_keys (ms_tombstones s) → k ∈ streams_of all) ∧
  ∀ st k, k ∈ od_keys (group (ms_snapshots s) st) ++ od_keys (group (ms_tombstones s) st) →
    k ∈ origins_of st all.

Lemma room {A B} (d : list (string * A)) (e : list (string * B)) (l : list string) k bound :
  (∀ k', k' ∈ od_keys d ++ od_keys e → k' ∈ l) → k ∈ l →
  Z.of_nat (length (remove_dups l)) ≤ bound →
  negb (negb (in_union d e k) && (bound <=? union_size d e)) = true.
Proof.
  intros Hl Hk Hb. destruct (in_union d e k) eqn:E; [done|]. cbn.
  assert (k ∉ od_keys d ++ od_keys e) as Hn.
  { intros Hin. apply in_union_spec in Hin. by rewrite Hin in E. }
  assert (length (remove_dups (k :: (od_keys d ++ od_keys e))) ≤ length (remove_dups l))%nat as H1.
  { apply remove_dups_length_le. intros x [->|Hx]%elem_of_cons; auto. }
  simpl in H1. destruct (decide_rel _ k _) in H1; [done|]. simpl in H1.
  unfold union_size. rewrite (proj2 (Z.leb_gt _ _)); [done|]. lia.
Qed.

Lemma knows_admitted s all u :
  knows s all → within_capacity all → u ∈ all → admitted (up_stream u) (up_node u) s = true.
Proof.
  intros [Hs Ho] [Cs Co] Hu. unfold admitted. apply andb_true_iff. split.
  - eapply room; [exact Hs| |exact Cs]. apply list_elem_of_fmap. by exists u.
  - eapply room; [apply Ho| |apply Co]. apply list_elem_of_fmap. exists u. split; [done|].
    by apply list_elem_of_filter.
Qed.

Lemma knows_update s all u :
  knows s all → u ∈ all → knows (apply_update u s) all.
Proof.
  intros [Hs Ho] Hu. unfold apply_update.
  destruct (merge_update_cases (up_stream u) (up_node u) (up_version u) (up_log u) s)
    as [->|[-> _]]; [done|]. split.
  - intros k [->|Hk]%stored_keys; [|by apply Hs]. apply list_elem_of_fmap. by exists u.
  - intros st k [[-> ->]|Hk]%stored_origins; [|by apply Ho].
    apply list_elem_of_fmap. exists u. split; [done|]. by apply list_elem_of_filter.
Qed.

Lemma apply_updates_join all us s st n :
  mesh_ok s → Forall (λ u, update_ok u ∧ up_node u ≠ ms_node_id s) us →
  (∀ u, u ∈ us → u ∈ all) → within_capacity all → knows s all →
  entry_at (apply_updates us s) st n = foldl lww (entry_at s st n) (entries_of st n us).
Proof.
  intros Ok Hus Hall Hcap. revert s Ok Hus.
  induction us as [|u us IH]; intros s Ok Hus Hk; [done|].
  apply Forall_cons in Hus as [[(Fv & Hv & Hl) Hn] Hus].
  assert (u ∈ all) as Hu by (apply Hall; by left).
  change (apply_updates (u :: us) s) with (apply_updates us (apply_update u s)).
  rewrite IH; [|by intros; apply Hall; right|by apply merge_update_ok|
    by rewrite apply_update_node|by apply knows_update].
  unfold apply_update. rewrite merge_update_entry, (knows_admitted s all u) by done.
  unfold entries_of. rewrite filter_cons. destruct (decide _) as [Hd|Hd].
  - destruct Hd as [-> ->]. done.
  - done.
Qed.

(** The join of a list is its newest element, if any is newer than the
    start. *)
Lemma foldl_lww l e :
  (foldl lww e l = e ∨ foldl lww e l ∈ l ∧ entry_version e < entry_version (foldl lww e l)) ∧
  entry_version e ≤ entry_version (foldl lww e l) ∧
  ∀ x, x ∈ l → entry_version x ≤ entry_version (foldl lww e l).
Proof.
  revert e. induction l as [|a l IH]; intros e; cbn [foldl].
  { split_and!; [by left|done|]. intros x Hx. by apply elem_of_nil in Hx. }
  destruct (IH (lww e a)) as (H1 & H2 & H3).
  assert (entry_version e ≤ entry_version (lww e a) ∧ entry_version a ≤ entry_version (lww e a)
    ∧ (lww e a = e ∨ lww e a = a ∧ entry_version e < entry_version a)) as (Ha & Hb & Hc).
  { unfold lww. destruct (Z.ltb_spec (entry_version e) (entry_version a)); naive_solver lia. }
  split_and!; [|lia|].
  - destruct H1 as [E|[Hin Hlt]].
    + rewrite E. destruct Hc as [->|[-> Hlt]]; [by left|]. right. split; [by left|done].
    + right. split; [by right|lia].
  - intros x [->|Hx]%elem_of_cons; [lia|by apply H3].
Qed.

Lemma entries_of_elem st n us x :
  x ∈ entries_of st n us ↔
  ∃ u, u ∈ us ∧ up_stream u = st ∧ up_node u = n ∧ x = Some (up_version u, up_log u).
Proof.
  unfold entries_of. rewrite list_elem_of_fmap. setoid_rewrite list_elem_of_filter. naive_solver.
Qed.

Lemma join_set_eq st n us vs :
  (∀ u, u ∈ us ↔ u ∈ vs) → consistent us →
  foldl lww None (entries_of st n us) = foldl lww None (entries_of st n vs).
Proof.
  intros Heq Hc.
  assert (∀ x, x ∈ entries_of st n us ↔ x ∈ entries_of st n vs) as Hx.
  { intros x. rewrite !entries_of_elem. naive_solver. }
  destruct (foldl_lww (entries_of st n us) None) as (A1 & A2 & A3).
  destruct (foldl_lww (entries_of st n vs) None) as (B1 & B2 & B3).
  set (a := foldl lww None (entries_of st n us)) in *.
  set (b := foldl lww None (entries_of st n vs)) in *. cbn [entry_version] in *.
  destruct A1 as [->|[Ain Apos]], B1 as [->|[Bin Bpos]]; [done|..].
  - apply Hx, A3 in Bin. cbn in *. lia.
  - apply Hx, B3 in Ain. cbn in *. lia.
  - pose proof (B3 a (proj1 (Hx a) Ain)). pose proof (A3 b (proj2 (Hx b) Bin)).
    apply Hx in Bin. apply entries_of_elem in Ain as (u & Hu & E1 & E2 & ->).
    apply entries_of_elem in Bin as (v & Hv & E3 & E4 & ->).
    rewrite (Hc u v); [done|done|done|congruence|congruence|]. cbn in *. lia.
Qed.

(** ** Deletions *)

(** Adding a microsecond to a time before the year 2242 gives a later one. *)
Lemma later_micro p :
  isfinite p = true → 0 ≤ fval p < 2 ^ 33 * 2 ^ 1074 →
  flt p (p + 1e-6)%float = true ∧ isfinite (p + 1e-6)%float = true.
Proof.
  intros Fp [H0 Hp]. assert (isfinite 1e-6%float = true) as Fm by done.
  destruct (fval_add p 1e-6 Fp Fm) as [V N].
  set (q := fval 1e-6%float) in *.
  assert (2 ^ 1054 ≤ q ∧ q ≤ 2 ^ 1074) as [Hq1 Hq2] by (split; vm_compute; discriminate).
  set (k := fval p / 2 ^ 1054).
  pose proof (Z.div_mod (fval p) (2 ^ 1054) ltac:(done)) as Hd. fold k in Hd.
  pose proof (Z.mod_pos_bound (fval p) (2 ^ 1054) ltac:(done)) as Hm.
  assert (0 ≤ k < 2 ^ 53) as Hk.
  { split; [by apply Z.div_pos|]. by apply Z.div_lt_upper_bound. }
  assert (0 < 2 ^ 1074) as HU by done. assert (0 < 2 ^ 1054) as HS by done.
  assert (representable ((k + 1) * 2 ^ 1054)) as Hrep.
  { exists (k + 1), 1054. split_and!; [done|done|lia|].
    apply Z.lt_le_trans with (2 ^ 54 * 2 ^ 1054); [|done].
    rewrite Z.abs_eq by (apply Z.mul_nonneg_nonneg; [lia|done]).
    apply Z.mul_lt_mono_pos_r; [done|]. lia. }
  assert (representable (2 ^ 34 * 2 ^ 1074)) as Htop by (exists (2 ^ 34), 1074; done).
  pose proof (Rnd_mono ((k + 1) * 2 ^ 1054 * 2 ^ 1074) ((fval p + q) * 2 ^ 1074)) as H1.
  pose proof (Rnd_mono ((fval p + q) * 2 ^ 1074) (2 ^ 34 * 2 ^ 1074 * 2 ^ 1074)) as H2.
  rewrite (Rnd_exact _ Hrep) in H1. rewrite (Rnd_exact _ Htop) in H2.
  rewrite <- V in H1. rewrite <- V in H2.
  specialize (H1 ltac:(apply Z.mul_le_mono_nonneg_r; lia)).
  specialize (H2 ltac:(apply Z.mul_le_mono_nonneg_r; lia)).
  split; [apply flt_val; [by apply isfinite_num|done|lia]|].
  apply isfinite_fval. split; [done|].
  assert (2 ^ 34 * 2 ^ 1074 < fmax_val) by done. lia.
Qed.

Lemma fmax_later a b : num a → num b → fle a (fmax a b) = true ∧ fle b (fmax a b) = true.
Proof.
  intros Na Nb. unfold fmax. destruct (flt a b) eqn:E.
  - split; [by apply flt_fle|by apply fle_refl].
  - split; [by apply fle_refl|by apply not_flt].
Qed.

(** The version a deletion reserves is later than the clock and than the
    previous one. *)
Lemma begin_deletion_run ns sid now s :
  let key := stream_key ns sid in
  let previous := od_get (ms_local s) key in
  let committed := fmax now (default 0%float previous + 1e-6)%float in
  begin_deletion ns sid now s =
  if bool_decide (previous = None) && (ms_max_tombstones s <=? Z.of_nat (length (ms_local s)))
  then (Raise (RuntimeError "local mesh tombstone capacity exhausted"), s)
  else (Ok (key, committed, previous), set_local (od_set key committed (ms_local s)) s).
Proof.
  intros key previous committed. unfold begin_deletion. step_run mget_run.
  fold key previous. unfold mbind at 1. rewrite raise_if_run. by destruct (_ && _).
Qed.

Lemma set_local_same s : set_local (ms_local s) s = s.
Proof. by destruct s. Qed.

(** Receiving payloads one after the other. *)
Definition receive_all `{Libm} (ps : list (pyval * pydict * float)) : M mesh unit :=
  mfor ps (λ '(sender, d, ts), receive_snapshot sender (VDict d) ts).

Definition all_updates `{Libm} (node : string) (ps : list (pyval * pydict * float)) : list update :=
  flat_map (λ '(_, d, ts), payload_updates node ts d) ps.

(** Payloads from identified senders. *)
Definition senders_ok (ps : list (pyval * pydict * float)) : Prop :=
  Forall (λ '(sender, _, _), is_Some (as_identifier sender)) ps.

Lemma receive_all_run `{Libm} ps s :
  senders_ok ps → receive_all ps s = (Ok (), apply_updates (all_updates (ms_node_id s) ps) s).
Proof.
  intros Hps. revert s. induction Hps as [|[[sender d] ts] ps Hx Hps IH]; intros s; [done|].
  unfold receive_all in *. cbn [mfor]. step_run (receive_snapshot_run sender d ts s Hx).
  rewrite IH, apply_updates_node. unfold all_updates. cbn [flat_map].
  by rewrite apply_updates_app.
Qed.

Lemma all_updates_ok `{Libm} node ps : Forall (λ u, update_ok u ∧ up_node u ≠ node) (all_updates node ps).
Proof.
  apply Forall_flat_map, Forall_forall. intros [[sender d] ts] _. apply payload_updates_ok.
Qed.

Lemma fresh_ok s : ms_snapshots s = [] → ms_tombstones s = [] → mesh_ok s.
Proof.
  intros E1 E2. constructor; unfold entry_at; rewrite ?E1, ?E2; done.
Qed.

(** ** Properties *)


(** C12. Any payload is safe.  Whatever JSON value arrives, the state stays
    within the stream and origin capacities, never holds the node's own
    streams, holds at most one of snapshot and tombstone per origin, and only
    well-formed logs with finite positive versions; each entry is kept or
    replaced by a strictly newer one (so a deletion is never undone by data as
    old as it); a rejected payload changes nothing. *)
Theorem mesh_receive_safe `{Libm} sender streams ts s :
  mesh_ok s →
  mesh_ok (exec (receive_snapshot sender streams ts) s) ∧
  (∀ st n, entry_at (exec (receive_snapshot sender streams ts) s) st n = entry_at s st n ∨
     entry_version (entry_at s st n) <
       entry_version (entry_at (exec (receive_snapshot sender streams ts) s) st n)) ∧
  (result (receive_snapshot sender streams ts) s = Ok () ∨
   (∃ msg, result (receive_snapshot sender streams ts) s = Raise (ValueError msg)) ∧
     exec (receive_snapshot sender streams ts) s = s).
Proof.
  intros Ok. unfold exec, result.
  destruct (as_identifier sender) as [x|] eqn:Ex;
    [|unfold receive_snapshot; rewrite Ex; cbn; split_and!; eauto].
  destruct streams as [| | | | | |d]; try (unfold receive_snapshot; rewrite Ex; cbn; by split_and!; eauto).
  rewrite receive_snapshot_run by done. cbn [fst snd].
  split_and!; [by apply apply_updates_ok, payload_updates_ok| |by left].
  intros st n. apply apply_updates_mono; [done|apply payload_updates_ok].
Qed.

(** Deletion markers.  [begin_deletion] either reports that the capacity
    is exhausted and changes nothing, or reserves a version no earlier than
    the clock and strictly later than the stream's previous one (for times
    before 2^33 seconds); and [rollback_deletion] with what it returned
    restores the state exactly. *)
Theorem deletion_reserves_and_rolls_back ns sid now s :
  isfinite now = true →
  (∀ p, od_get (ms_local s) (stream_key ns sid) = Some p →
     isfinite p = true ∧ 0 ≤ fval p < 2 ^ 33 * 2 ^ 1074) →
  (∃ msg, begin_deletion ns sid now s = (Raise (RuntimeError msg), s)) ∨
  ∃ version previous s', begin_deletion ns sid now s =
      (Ok (stream_key ns sid, version, previous), s') ∧
    od_get (ms_local s') (stream_key ns sid) = Some version ∧
    previous = od_get (ms_local s) (stream_key ns sid) ∧
    fle now version = true ∧
    (∀ p, previous = Some p → flt p version = true) ∧
    rollback_deletion (stream_key ns sid) version previous s' = (Ok (), s).
Proof.
  intros Fn Hp. rewrite begin_deletion_run. set (key := stream_key ns sid) in *.
  set (previous := od_get (ms_local s) key) in *.
  set (base := (default 0%float previous + 1e-6)%float).
  assert (isfinite base = true ∧ ∀ p, previous = Some p → flt p base = true) as [Fb Hb].
  { subst base. destruct previous as [p|]; [|done]. destruct (Hp p eq_refl) as [Fp Vp].
    destruct (later_micro p Fp Vp) as [H1 H2]. split; [done|]. by intros ? [= <-]. }
  destruct (fmax_later now base (isfinite_num _ Fn) (isfinite_num _ Fb)) as [H1 H2].
  destruct (_ && _); [by left; eexists|]. right.
  eexists _, _, _. split; [done|]. cbn [ms_local set_local].
  split; [apply od_get_set_eq|]. split; [done|]. split; [done|]. split.
  { intros p Ep. eapply flt_fle_trans; [by apply Hb|done]. }
  unfold rollback_deletion. step_run mget_run. cbn [ms_local set_local].
  rewrite od_get_set_eq.
  assert (feq (fmax now base) (fmax now base) = true) as ->.
  { apply feq_val; [by eapply fle_num_r..|done]. }
  unfold mmodify. destruct previous as [p|] eqn:Ep.
  - rewrite od_set_set. rewrite (od_set_get _ _ _ Ep). by destruct s.
  - rewrite od_del_set_fresh; [by destruct s|]. by apply od_get_none.
Qed.

(** ** Overlapping deletions *)

Definition demo_mesh : mesh :=
  mk_mesh "node-a" "" [] 60 40000000 100000 0 [] [] [] [] 0 0.

(** Two overlapping deletions of one stream, both undone after a storage
    failure: the second restores the version reserved by the first, and the
    stream keeps a deletion marker although neither deletion happened. *)
Definition overlapping_deletions : M mesh unit :=
  r1 <- begin_deletion "ns" "s" 10 ;;
  r2 <- begin_deletion "ns" "s" 11 ;;
  let '(k1, v1, p1) := r1 in
  let '(k2, v2, p2) := r2 in
  rollback_deletion k1 v1 p1 ;;;
  rollback_deletion k2 v2 p2.

Lemma overlapping_rollback_leaves_tombstone :
  ms_local demo_mesh = [] ∧
  ms_local (exec overlapping_deletions demo_mesh) = [(stream_key "ns" "s", 10%float)].
Proof. split; vm_compute; reflexivity. Qed.

(** ** Witnesses *)

Definition tombstone_payload (n : string) (v : Z) : pydict :=
  [(VStr (stream_key "ns" "s"),
    VDict [(VStr n, VDict [(VStr "__tombstone__", VBool true); (VStr "__version__", VInt v)])])].

Definition demo_receipts1 : list (pyval * pydict * float) :=
  [(VStr "node-b", tombstone_payload "node-b" 5, 0%float);
   (VStr "node-c", tombstone_payload "node-c" 7, 0%float)].
Definition demo_receipts2 : list (pyval * pydict * float) :=
  [(VStr "node-c", tombstone_payload "node-c" 7, 0%float);
   (VStr "node-b", tombstone_payload "node-b" 5, 0%float);
   (VStr "node-b", tombstone_payload "node-c" 7, 0%float)].


Lemma mesh_receive_safe_witness :
  mesh_ok (exec (receive_snapshot (H := coarse_libm) (VStr "node-b")
    (VDict (tombstone_payload "node-b" 5)) 0) demo_mesh).
Proof.
  apply (mesh_receive_safe (H := coarse_libm) (VStr "node-b") (VDict (tombstone_payload "node-b" 5))
    0%float demo_mesh).
  by apply fresh_ok.
Defined.

Lemma deletion_reserves_and_rolls_back_witness :
  ∃ version previous s', begin_deletion "ns" "s" 10 demo_mesh =
      (Ok (stream_key "ns" "s", version, previous), s') ∧
    rollback_deletion (stream_key "ns" "s") version previous s' = (Ok (), demo_mesh).
Proof.
  destruct (deletion_reserves_and_rolls_back "ns" "s" 10 demo_mesh)
    as [[msg Hmsg]|(v & p & s' & E & _ & _ & _ & _ & R)].
  - reflexivity.
  - intros p Hp. discriminate Hp.
  - exfalso. vm_compute in Hmsg. discriminate Hmsg.
  - exists v, p, s'. split; [exact E|exact R].
Defined.
