(* ===== verification/Membership.v ===== *)
(** * Mesh membership ([cluster.py], SWIM-lite)

    Who is in the mesh and in which state: the canonical form of a peer
    address, the merge of gossiped membership, the refutation of rumours about
    the node itself, timeouts, and the ping exchange.  Proved: on any payload
    the node stays listed, alive and within the membership bound; entries only
    move forward; rumours are refuted; timeouts follow the state machine
    alive - suspect - dead - removed. *)

From Stdlib Require Import PrimFloat Ascii String.
From S2P Require Import Prelude PyFloat FloatRound Hashing CountMin HyperLogLog DDSketch.
From S2P Require Import PyVal PyNum PyDict Json StreamLog Checkpoint Mesh.

#[local] Open Scope Z_scope.
#[local] Open Scope py_scope.
#[local] Set Warnings "-inexact-float".

(** ** Addresses *)

(** The attributes of [urllib.parse.urlsplit]'s result that are read; the
    port is parsed when it is read. *)
Record url_parts := mk_url {
  url_scheme : string;
  url_hostname : option string;
  url_username : option string;
  url_password : option string;
  url_query : string;
  url_fragment : string;
  url_path : string;
  url_port : res (option Z)
}.

Class UrlSplit := urlsplit : string → res url_parts.

Definition nonempty (s : option string) : bool :=
  match s with Some (String _ _) => true | _ => false end.

Definition contains_char (c : ascii) (s : string) : bool :=
  existsb (λ a, bool_decide (a = c)) (list_ascii_of_string s).

Definition canonical_base_url `{UrlSplit} (address : pyval) : res string :=
  match address with
  | VStr a =>
      let? parsed := urlsplit (py_strip a) in
      if negb (bool_decide (url_scheme parsed = "http" ∨ url_scheme parsed = "https"))
         || negb (nonempty (url_hostname parsed))
      then Raise (ValueError "Peer address must be an absolute HTTP(S) URL")
      else if nonempty (url_username parsed) || nonempty (url_password parsed)
      then Raise (ValueError "Peer address must not contain credentials")
      else if negb (bool_decide (url_query parsed = ""))
              || negb (bool_decide (url_fragment parsed = ""))
              || negb (bool_decide (url_path parsed = "" ∨ url_path parsed = "/"))
      then Raise (ValueError "Peer address must contain only an origin")
      else
        let? port := match url_port parsed with
                     | Raise (ValueError _) => Raise (ValueError "Peer address has an invalid port")
                     | r => r
                     end in
        let host := py_lower (default "" (url_hostname parsed)) in
        let host := if contains_char ":" host then ("[" ++ host ++ "]")%string else host in
        let default_port := if decide (url_scheme parsed = "http") then 80 else 443 in
        let authority :=
          match port with
          | None => host
          | Some p => if p =? default_port then host else (host ++ ":" ++ str_of_Z p)%string
          end in
        Ok (py_lower (url_scheme parsed) ++ "://" ++ authority)%string
  | _ => Raise (ValueError "Peer address must be a string")
  end.

Definition status_of (v : pyval) : option Status :=
  match v with
  | VStr s =>
      if decide (s = "alive") then Some SAlive
      else if decide (s = "suspect") then Some SSuspect
      else if decide (s = "dead") then Some SDead else None
  | _ => None
  end.

Section Membership.
Context `{UrlSplit}.
(** The successive readings of [time.time()]. *)
Context (clock : nat → float).

Definition read_time : M mesh float :=
  s <- mget ;; mmodify tick_mesh ;;; mret (clock (ms_ticks s)).

Definition validate_peer_address (s : mesh) (address : pyval) : res string :=
  let? base_url := canonical_base_url address in
  if bool_decide (base_url ∈ ms_allowed s) then Ok base_url
  else Raise (ValueError "Peer address is not in SKETCHLOG_PEER_ALLOWLIST").

(** [self.members[nid]] with its fields assigned. *)
Definition update_member (nid : string) (f : member → member) : M mesh unit :=
  s <- mget ;;
  match od_get (ms_members s) nid with
  | Some m => mmodify (set_members (od_set nid (f m) (ms_members s)))
  | None => mraise (KeyError nid)
  end.

Definition with_status (st : Status) (m : member) : member :=
  mk_member (mb_address m) st (mb_incarnation m) (mb_last m) (mb_seed m).
Definition with_incarnation (i : Z) (m : member) : member :=
  mk_member (mb_address m) (mb_status m) i (mb_last m) (mb_seed m).
Definition with_last (t : float) (m : member) : member :=
  mk_member (mb_address m) (mb_status m) (mb_incarnation m) t (mb_seed m).

(** Someone says the node itself is suspect or dead. *)
Definition refute (st : Status) (incarnation : Z) : M mesh unit :=
  s <- mget ;;
  if bool_decide (st ≠ SAlive) && (ms_incarnation s <=? incarnation) then
    mmodify (set_incarnation (incarnation + 1)) ;;;
    update_member (ms_node_id s) (with_incarnation (incarnation + 1)) ;;;
    t <- read_time ;;
    update_member (ms_node_id s) (with_last t)
  else mret ().

(** The address of an incoming entry, canonical when one is given; [None]
    rejects the entry. *)
Definition incoming_address (s : mesh) (info : pydict) : option (option pyval) :=
  let remote := default (VStr "") (dict_get info "address") in
  if truthy remote then
    match validate_peer_address s remote with
    | Ok a => Some (Some (VStr a))
    | Raise _ => None
    end
  else Some (dict_get info "address").

Definition store_member (nid : string) (m : member) : M mesh unit :=
  mmodify (λ s, set_members (od_set nid m (ms_members s)) s) ;;;
  t <- read_time ;;
  update_member nid (with_last t).

Definition merge_member (nid : string) (info : pydict) (st : Status) (incarnation : Z)
  : M mesh unit :=
  s <- mget ;;
  match incoming_address s info with
  | None => mret ()
  | Some address =>
      let m := mk_member address st incarnation 0
                 (truthy (default VNone (dict_get info "is_seed"))) in
      match od_get (ms_members s) nid with
      | None =>
          if MAX_MEMBERS <=? Z.of_nat (length (ms_members s)) then mret ()
          else store_member nid m
      | Some loc =>
          if mb_incarnation loc <? incarnation then store_member nid m
          else if (incarnation =? mb_incarnation loc)
                  && bool_decide (mb_status loc = SAlive) && bool_decide (st ≠ SAlive)
          then
            update_member nid (with_status st) ;;;
            t <- read_time ;;
            update_member nid (with_last t)
          else mret ()
      end
  end.

Definition merge_entry (entry : pyval * pyval) : M mesh unit :=
  match as_identifier entry.1, as_dict entry.2 with
  | Some nid, Some info =>
      match status_of (default VNone (dict_get info "status")),
            as_int (default VNone (dict_get info "incarnation")) with
      | Some st, Some incarnation =>
          if incarnation <? 0 then mret ()
          else
            s <- mget ;;
            if decide (nid = ms_node_id s) then refute st incarnation
            else merge_member nid info st incarnation
      | _, _ => mret ()
      end
  | _, _ => mret ()
  end.

Definition merge_membership (incoming : pyval) : M mesh unit :=
  match as_dict incoming with
  | None => mraise (ValueError "Membership payload must be an object")
  | Some entries => mfor entries merge_entry
  end.

(** ** Timeouts *)

(** One round of the loop over a copy of the members; [now] is read once. *)
Definition check_member (now : float) (entry : string * member) : M mesh unit :=
  let nid := entry.1 in
  s <- mget ;;
  if decide (nid = ms_node_id s) then mret ()
  else
    (match od_get (ms_members s) nid with
     | Some m =>
         if bool_decide (mb_status m = SSuspect) && flt (ms_timeout s) (now - mb_last m)%float
         then update_member nid (λ m, with_last now (with_status SDead m))
         else mret ()
     | None => mret ()
     end) ;;;
    s <- mget ;;
    match od_get (ms_members s) nid with
    | Some m =>
        if bool_decide (mb_status m = SDead)
           && flt (ms_timeout s * 5)%float (now - mb_last m)%float
        then
          mmodify (λ s, set_members (od_del nid (ms_members s)) s) ;;;
          mmodify (λ s, set_peers
            ((λ kv, (kv.1, od_del nid kv.2)) <$> ms_snapshots s) (ms_tombstones s) s)
        else mret ()
    | None => mret ()
    end.

Definition check_timeouts : M mesh unit :=
  now <- read_time ;;
  s <- mget ;;
  mfor (ms_members s) (check_member now).

(** ** Gossiping membership *)

(** [sorted(..., key=last_updated, reverse=True)], which is stable. *)
Fixpoint insert_recent (x : string * member) (l : list (string * member)) :=
  match l with
  | [] => [x]
  | y :: l' => if flt (mb_last x.2) (mb_last y.2) then y :: insert_recent x l' else x :: l
  end.
Definition gossip_list (s : mesh) : list (string * member) :=
  take 10 (foldr insert_recent [] (ms_members s)).

Definition handle_ping (members : option pyval) : M mesh (list (string * member)) :=
  s <- mget ;;
  t <- read_time ;;
  update_member (ms_node_id s) (with_last t) ;;;
  (match members with Some v => merge_membership v | None => mret () end) ;;;
  mgets gossip_list.

Definition ping_candidates (s : mesh) : list (string * member) :=
  filter (λ kv, kv.1 ≠ ms_node_id s ∧ mb_status kv.2 ≠ SDead) (ms_members s).

(** One ping of the member [random.choice] picks; [post] is the outcome of the
    HTTP request.  Any exception after the address is read marks the member as
    suspect. *)
Definition ping_member (nid : string) (info : member) (post : res (option pydict)) : M mesh unit :=
  match mb_address info with
  | None => mraise (KeyError "address")
  | Some address =>
      if negb (truthy address) then mret ()
      else λ s,
        let attempt : M mesh unit :=
          resp <- mlift post ;;
          match resp with
          | Some d =>
              match dict_get d "members" with
              | Some v =>
                  merge_membership v ;;;
                  if mb_seed info
                  then mmodify (λ s, set_members (od_del nid (ms_members s)) s) else mret ()
              | None => mret ()
              end
          | None => mret ()
          end in
        match attempt s with
        | (Ok u, s') => (Ok u, s')
        | (Raise _, s') =>
            (match od_get (ms_members s') nid with
             | Some m =>
                 if decide (mb_status m = SAlive) then
                   update_member nid (with_status SSuspect) ;;;
                   t <- read_time ;;
                   update_member nid (with_last t)
                 else mret ()
             | None => mret ()
             end) s'
        end
  end.

Definition ping_random_member (choice : nat) (post : string → res (option pydict)) : M mesh unit :=
  s <- mget ;;
  match ping_candidates s !! choice with
  | None => mret ()
  | Some (nid, info) => ping_member nid info (post nid)
  end.

(** The addresses [_gossip_state] chooses from. *)
Definition gossip_candidates (s : mesh) : res (list pyval) :=
  let? l := res_mapM (λ '(nid, info),
    if negb (bool_decide (nid = ms_node_id s)) && bool_decide (mb_status info = SAlive) then
      match mb_address info with
      | None => Raise (KeyError "address")
      | Some a => Ok (if truthy a then [a] else [])
      end
    else Ok []) (ms_members s) in
  Ok (concat l).

(** ** Construction *)

(** [__init__]: the allow list is made of the canonical peers, or of the list
    given; an allowed peer becomes a seed entry until its node id is known. *)
Definition canonical_set (urls : list string) : list string :=
  flat_map (λ u, match canonical_base_url (VStr u) with Ok b => [b] | Raise _ => [] end) urls.

Definition add_seed (p : string) (s : mesh) : mesh :=
  if decide (p = ""%string) then s
  else match canonical_base_url (VStr p) with
  | Ok base =>
      if negb (bool_decide (base = ""%string)) && bool_decide (base ∈ ms_allowed s) then
        tick_mesh (set_members (od_set ("seed-" ++ p)%string
          (mk_member (Some (VStr base)) SAlive 0 (clock (ms_ticks s)) true) (ms_members s)) s)
      else s
  | Raise _ => s
  end.

Definition mesh_init (node_id : string) (peers : list string) (heartbeat_timeout : float)
    (advertised_address : option string) (peer_allowlist : option (list string))
    (max_payload_bytes max_local_tombstones : Z) : res mesh :=
  if negb ((1024 <=? max_payload_bytes) && (max_payload_bytes <=? 64 * 1024 * 1024))
  then Raise (ValueError "max_payload_bytes must be between 1024 and 67108864")
  else if negb ((1 <=? max_local_tombstones) && (max_local_tombstones <=? 1000000))
  then Raise (ValueError "max_local_tombstones must be between 1 and 1000000")
  else
    let address := default ""%string advertised_address in
    let own := mk_member (Some (VStr address)) SAlive 0 (clock 0) false in
    Ok (foldl (λ s p, add_seed p s)
          (mk_mesh node_id address (canonical_set (default peers peer_allowlist)) heartbeat_timeout
             max_payload_bytes max_local_tombstones 0 [(node_id, own)] [] [] [] 0 1)
          peers).
End Membership.

(** ** Runs of the steps *)

Section steps.
Context `{UrlSplit} (clock : nat → float).

Lemma read_time_run s : read_time clock s = (Ok (clock (ms_ticks s)), tick_mesh s).
Proof. done. Qed.

Lemma update_member_run nid f s m :
  od_get (ms_members s) nid = Some m →
  update_member nid f s = (Ok (), set_members (od_set nid (f m) (ms_members s)) s).
Proof. intros E. unfold update_member. step_run mget_run. by rewrite E. Qed.

(** Assigning fields of an entry, then its time. *)
Lemma touch_member_run nid f s m :
  od_get (ms_members s) nid = Some m →
  (update_member nid f ;;; t <- read_time clock ;; update_member nid (with_last t)) s =
  (Ok (), set_members (od_set nid (with_last (clock (ms_ticks s)) (f m)) (ms_members s))
            (tick_mesh s)).
Proof.
  intros E. step_run (update_member_run nid f s m E). step_run read_time_run.
  rewrite (update_member_run _ _ _ (f m)) by apply od_get_set_eq.
  cbn [ms_members set_members tick_mesh]. by rewrite od_set_set.
Qed.

Lemma store_member_run nid m s :
  store_member clock nid m s =
  (Ok (), set_members (od_set nid (with_last (clock (ms_ticks s)) m) (ms_members s))
            (tick_mesh s)).
Proof.
  unfold store_member. step_run mmodify_run. step_run read_time_run.
  rewrite (update_member_run _ _ _ m) by apply od_get_set_eq.
  cbn [ms_members set_members tick_mesh]. by rewrite od_set_set.
Qed.
End steps.

(** ** The invariant and the order of the entries *)

(** The node's own entry is alive at the node's incarnation; any other entry
    has an allow-listed address or none. *)
Definition trusted_address (allowed : list string) (a : option pyval) : Prop :=
  match a with
  | Some (VStr u) => u = ""%string ∨ u ∈ allowed
  | Some v => truthy v = false
  | None => True
  end.

Record members_ok (s : mesh) : Prop := {
  mk_nodup : NoDup (od_keys (ms_members s));
  mk_self : ∃ m, od_get (ms_members s) (ms_node_id s) = Some m ∧
    mb_status m = SAlive ∧ mb_incarnation m = ms_incarnation s;
  mk_bound : Z.of_nat (length (ms_members s)) ≤ MAX_MEMBERS;
  mk_trusted : ∀ nid m, od_get (ms_members s) nid = Some m → nid ≠ ms_node_id s →
    trusted_address (ms_allowed s) (mb_address m)
}.

(** A later incarnation wins; within one, only alive entries change. *)
Definition newer (m m' : member) : Prop :=
  mb_incarnation m < mb_incarnation m' ∨
  mb_incarnation m = mb_incarnation m' ∧
  (mb_status m = mb_status m' ∨ mb_status m = SAlive).

(** What merging never undoes. *)
Record advance (s s' : mesh) : Prop := {
  av_node : ms_node_id s' = ms_node_id s;
  av_allowed : ms_allowed s' = ms_allowed s;
  av_peers : ms_snapshots s' = ms_snapshots s ∧ ms_tombstones s' = ms_tombstones s
             ∧ ms_local s' = ms_local s;
  av_incarnation : ms_incarnation s ≤ ms_incarnation s';
  av_members : ∀ nid m, od_get (ms_members s) nid = Some m →
    ∃ m', od_get (ms_members s') nid = Some m' ∧ newer m m'
}.

#[export] Instance newer_refl : Reflexive newer.
Proof. intros m. right. eauto. Qed.
#[export] Instance newer_trans : Transitive newer.
Proof. intros a b c [H|[H [E|E]]] [H'|[H' [E'|E']]]; unfold newer; try (left; lia); right; split; eauto; try lia; left + right; congruence. Qed.
#[export] Instance advance_refl : Reflexive advance.
Proof. intros s. constructor; try done. intros nid m E. exists m. split; [done|reflexivity]. Qed.
#[export] Instance advance_trans : Transitive advance.
Proof.
  intros a b c [N A (P1&P2&P3) I M] [N' A' (Q1&Q2&Q3) I' M']. constructor; try congruence.
  - split_and!; congruence.
  - lia.
  - intros nid m E. destruct (M nid m E) as (m1 & E1 & H1).
    destruct (M' nid m1 E1) as (m2 & E2 & H2). exists m2. split; [done|by etransitivity].
Qed.

(** Writing one entry: the invariant and the order follow from the entry. *)
Lemma write_member s nid m t :
  members_ok s → nid ≠ ms_node_id s → trusted_address (ms_allowed s) (mb_address m) →
  (od_get (ms_members s) nid = None → Z.of_nat (length (ms_members s)) < MAX_MEMBERS) →
  (∀ m0, od_get (ms_members s) nid = Some m0 → newer m0 m) →
  let s' := set_members (od_set nid (with_last t m) (ms_members s)) (tick_mesh s) in
  members_ok s' ∧ advance s s'.
Proof.
  intros Ok Hn Ht Hfree Hnew s'. subst s'. split; constructor; cbn; try done.
  - by apply od_set_nodup, Ok.
  - rewrite od_get_set_ne by done. apply Ok.
  - pose proof (mk_bound s Ok). rewrite od_set_length. unfold od_has.
    destruct (od_get (ms_members s) nid); [done|]. specialize (Hfree eq_refl). lia.
  - intros nid' m'. rewrite od_get_set. case_decide as E; [|apply Ok].
    intros [= <-] _. done.
  - intros nid' m'. rewrite od_get_set. case_decide as E; [|intros; exists m'; split; [done|reflexivity]].
    subst nid'. intros E. eexists. split; [done|]. apply Hnew in E. exact E.
Qed.

Lemma write_self s i t :
  members_ok s → ms_incarnation s < i →
  ∀ m, od_get (ms_members s) (ms_node_id s) = Some m →
  let s' := set_members (od_set (ms_node_id s) (with_last t (with_incarnation i m)) (ms_members s))
              (tick_mesh (set_incarnation i s)) in
  members_ok s' ∧ advance s s'.
Proof.
  intros Ok Hi m Em s'. subst s'. destruct (mk_self s Ok) as (m1 & E1 & Ha & Hinc).
  rewrite Em in E1. injection E1 as <-. split; constructor; cbn; try done.
  - by apply od_set_nodup, Ok.
  - rewrite od_get_set_eq. by eexists.
  - pose proof (mk_bound s Ok). rewrite od_set_length. unfold od_has. by rewrite Em.
  - intros nid' m'. rewrite od_get_set. case_decide as E; [by subst|]. apply Ok.
  - lia.
  - intros nid' m'. rewrite od_get_set. case_decide as E; [|intros; exists m'; split; [done|reflexivity]].
    subst nid'. rewrite Em. intros [= <-]. eexists. split; [done|]. left. cbn. lia.
Qed.

(** ** Merging *)

Section merging.
Context `{UrlSplit} (clock : nat → float).

Lemma incoming_address_trusted s info a :
  incoming_address s info = Some a → trusted_address (ms_allowed s) a.
Proof.
  unfold incoming_address, validate_peer_address.
  destruct (truthy (default _ _)) eqn:T.
  - destruct (canonical_base_url _) as [u|]; [|done]. cbn [res_bind].
    case_bool_decide as Hu; [|done]. intros [= <-]. by right.
  - intros [= <-]. destruct (dict_get info "address") as [v|]; [|done].
    cbn [default] in T. unfold id in T. destruct v as [| | | |u| |]; try exact T.
    left. cbn in T. case_bool_decide; [done|discriminate].
Qed.

Lemma refute_run s st i :
  members_ok s →
  ∃ s', refute clock st i s = (Ok (), s') ∧ members_ok s' ∧ advance s s' ∧
    (st ≠ SAlive → i < ms_incarnation s').
Proof.
  intros Ok. unfold refute. step_run mget_run.
  destruct (mk_self s Ok) as (m & Em & Ha & Hi).
  case_bool_decide as Hst; cbn [andb]; [|eexists; split_and!; done].
  destruct (Z.leb_spec (ms_incarnation s) i) as [Hle|Hgt]; [|eexists; split_and!; done].
  step_run mmodify_run.
  erewrite (touch_member_run clock _ _ (set_incarnation (i + 1) s) m) by exact Em.
  eexists. split; [reflexivity|].
  destruct (write_self s (i + 1) (clock (ms_ticks s)) Ok ltac:(lia) m Em) as [H1 H2].
  split_and!; [exact H1|exact H2|]. cbn. lia.
Qed.

Lemma merge_member_run s nid info st i :
  members_ok s → nid ≠ ms_node_id s →
  ∃ s', merge_member clock nid info st i s = (Ok (), s') ∧ members_ok s' ∧ advance s s'.
Proof.
  intros Ok Hn. unfold merge_member. step_run mget_run.
  destruct (incoming_address s info) as [a|] eqn:Ea; [|by eexists].
  pose proof (incoming_address_trusted s info a Ea) as Ht.
  destruct (od_get (ms_members s) nid) as [loc|] eqn:Eloc.
  - destruct (Z.ltb_spec (mb_incarnation loc) i) as [Hlt|Hge].
    { rewrite store_member_run. eexists. split; [done|].
      apply write_member; try done; rewrite ?Eloc; try done.
      intros m0 [= <-]. by left. }
    destruct (Z.eqb_spec i (mb_incarnation loc)) as [->|]; cbn [andb]; [|by eexists].
    case_bool_decide as Hal; cbn [andb]; [|by eexists].
    case_bool_decide as Hst; [|by eexists].
    erewrite touch_member_run by exact Eloc. eexists. split; [done|].
    apply write_member; try done; rewrite ?Eloc; try done.
    + exact (mk_trusted s Ok nid loc Eloc Hn).
    + intros m0 [= <-]. right. split; [done|]. by right.
  - destruct (Z.leb_spec MAX_MEMBERS (Z.of_nat (length (ms_members s)))); [by eexists|].
    rewrite store_member_run. eexists. split; [done|].
    apply write_member; try done. by rewrite Eloc.
Qed.

(** What an entry says about a node, when it is well-formed. *)
Definition rumour (entry : pyval * pyval) : option (string * Status * Z) :=
  match as_identifier entry.1, as_dict entry.2 with
  | Some nid, Some info =>
      match status_of (default VNone (dict_get info "status")),
            as_int (default VNone (dict_get info "incarnation")) with
      | Some st, Some i => if i <? 0 then None else Some (nid, st, i)
      | _, _ => None
      end
  | _, _ => None
  end.

Lemma merge_entry_run s entry :
  members_ok s →
  ∃ s', merge_entry clock entry s = (Ok (), s') ∧ members_ok s' ∧ advance s s' ∧
    (∀ st i, rumour entry = Some (ms_node_id s, st, i) → st ≠ SAlive → i < ms_incarnation s').
Proof.
  intros Ok. unfold merge_entry, rumour.
  destruct (as_identifier entry.1) as [nid|]; [|by eexists].
  destruct (as_dict entry.2) as [info|]; [|by eexists].
  destruct (status_of _) as [st|]; [|by eexists].
  destruct (as_int _) as [i|]; [|by eexists].
  destruct (i <? 0); [by eexists|]. step_run mget_run. case_decide as E.
  - destruct (refute_run s st i Ok) as (s' & R & H1 & H2 & H3).
    exists s'. split_and!; try done. by intros ? ? [= _ <- <-].
  - destruct (merge_member_run s nid info st i Ok E) as (s' & R & H1 & H2).
    exists s'. split_and!; try done. by intros ? ? [= -> _ _].
Qed.

Lemma merge_entries_run entries s :
  members_ok s →
  ∃ s', mfor entries (merge_entry clock) s = (Ok (), s') ∧ members_ok s' ∧ advance s s' ∧
    (∀ e st i, e ∈ entries → rumour e = Some (ms_node_id s, st, i) → st ≠ SAlive →
       i < ms_incarnation s').
Proof.
  revert s. induction entries as [|e es IH]; intros s Ok.
  { exists s. split_and!; try done. intros e st i He. by apply elem_of_nil in He. }
  cbn [mfor]. destruct (merge_entry_run s e Ok) as (s1 & E1 & Ok1 & Av1 & R1).
  step_run E1. destruct (IH s1 Ok1) as (s2 & E2 & Ok2 & Av2 & R2).
  exists s2. split_and!; try done; [by etransitivity|].
  intros e' st i [->|He]%elem_of_cons Hr Hst.
  - pose proof (R1 st i Hr Hst). pose proof (av_incarnation _ _ Av2). lia.
  - apply (R2 e' st i He); [|done]. by rewrite (av_node _ _ Av1).
Qed.
End merging.

(** ** Timeouts, as a function of each entry *)

Definition mark_dead (timeout now : float) (m : member) : member :=
  if bool_decide (mb_status m = SSuspect) && flt timeout (now - mb_last m)%float
  then with_last now (with_status SDead m) else m.

(** The entry after a round at [now], [None] when it is removed. *)
Definition age_member (timeout now : float) (m : member) : option member :=
  let m' := mark_dead timeout now m in
  if bool_decide (mb_status m' = SDead) && flt (timeout * 5)%float (now - mb_last m')%float
  then None else Some m'.

Section timeouts.
Context (now : float).

(** The members a round removes. *)
Definition forgotten (nid : string) (s : mesh) : bool :=
  match od_get (ms_members s) nid with
  | Some m => negb (bool_decide (nid = ms_node_id s))
              && bool_decide (age_member (ms_timeout s) now m = None)
  | None => false
  end.

Lemma group_evict {A} (d : list (string * list (string * A))) nid st :
  group ((λ kv, (kv.1, od_del nid kv.2)) <$> d) st = od_del nid (group d st).
Proof.
  unfold group. induction d as [|[k g] d IH]; [done|].
  rewrite fmap_cons. cbn [od_get fst snd]. by case_decide.
Qed.

(** One entry of the loop. *)
Lemma check_member_run s nid m x :
  od_get (ms_members s) nid = Some m →
  check_member now (nid, x) s =
  (Ok (),
   if decide (nid = ms_node_id s) then s
   else match age_member (ms_timeout s) now m with
   | Some m' => set_members (od_set nid m' (ms_members s)) s
   | None =>
       set_peers ((λ kv, (kv.1, od_del nid kv.2)) <$> ms_snapshots s) (ms_tombstones s)
         (set_members (od_del nid (ms_members s)) s)
   end).
Proof.
  intros Em. unfold check_member. cbn [fst]. step_run mget_run. case_decide as E; [done|].
  rewrite Em. unfold age_member.
  set (s1 := set_members (od_set nid (mark_dead (ms_timeout s) now m) (ms_members s)) s).
  assert ((if bool_decide (mb_status m = SSuspect) && flt (ms_timeout s) (now - mb_last m)%float
          then update_member nid (λ m0, with_last now (with_status SDead m0)) else mret ()) s
          = (Ok (), s1)) as H1.
  { unfold s1, mark_dead. destruct (_ && _).
    - by rewrite (update_member_run _ _ _ m).
    - rewrite od_set_get by done. by destruct s. }
  step_run H1. step_run mget_run. unfold s1 at 1. cbn [ms_members set_members].
  rewrite od_get_set_eq. cbv iota. change (ms_timeout s1) with (ms_timeout s).
  set (m1 := mark_dead (ms_timeout s) now m) in *. clearbody m1.
  destruct (bool_decide (mb_status m1 = SDead) && flt (ms_timeout s * 5)%float (now - mb_last m1)%float) eqn:D; [|reflexivity].
  step_run mmodify_run. unfold mmodify. do 2 f_equal.
  unfold s1, set_members. cbn. f_equal. apply od_del_set.
Qed.

(** Two states that agree on what ageing an entry depends on. *)
Lemma age_members_run l s :
  NoDup (od_keys l) → (∀ nid m, (nid, m) ∈ l → od_get (ms_members s) nid = Some m) →
  ∃ s', mfor l (check_member now) s = (Ok (), s') ∧
    ms_node_id s' = ms_node_id s ∧ ms_allowed s' = ms_allowed s ∧
    ms_incarnation s' = ms_incarnation s ∧ ms_tombstones s' = ms_tombstones s ∧
    ms_local s' = ms_local s ∧
    (NoDup (od_keys (ms_members s)) → NoDup (od_keys (ms_members s'))) ∧
    (length (ms_members s') ≤ length (ms_members s))%nat ∧
    (∀ nid, od_get (ms_members s') nid =
       if decide (nid = ms_node_id s ∨ nid ∉ od_keys l) then od_get (ms_members s) nid
       else m ← od_get (ms_members s) nid; age_member (ms_timeout s) now m) ∧
    (∀ st nid, od_get (group (ms_snapshots s') st) nid =
       if decide (nid ∉ od_keys l) then od_get (group (ms_snapshots s) st) nid
       else if forgotten nid s then None else od_get (group (ms_snapshots s) st) nid).
Proof.
  revert s. induction l as [|[nid x] l IH]; intros s Hnd Hl.
  { exists s. split_and!; try done; intros; rewrite decide_True; try done; try right; by apply not_elem_of_nil. }
  apply NoDup_cons in Hnd as [Hnid Hnd]. cbn [fst] in Hnid.
  pose proof (Hl nid x (list_elem_of_here _ _)) as Ex.
  cbn [mfor]. step_run (check_member_run s nid x x Ex).
  set (s1 := if decide (nid = ms_node_id s) then s else _).
  assert (ms_node_id s1 = ms_node_id s ∧ ms_allowed s1 = ms_allowed s ∧ ms_timeout s1 = ms_timeout s ∧
    ms_incarnation s1 = ms_incarnation s ∧ ms_tombstones s1 = ms_tombstones s ∧
    ms_local s1 = ms_local s ∧
    (NoDup (od_keys (ms_members s)) → NoDup (od_keys (ms_members s1))) ∧
    (length (ms_members s1) ≤ length (ms_members s))%nat ∧
    (∀ n, od_get (ms_members s1) n = if decide (n = nid ∧ n ≠ ms_node_id s)
       then age_member (ms_timeout s) now x else od_get (ms_members s) n) ∧
    (∀ st n, od_get (group (ms_snapshots s1) st) n = if decide (n = nid)
       then if forgotten nid s then None else od_get (group (ms_snapshots s) st) n
       else od_get (group (ms_snapshots s) st) n)) as (Nd & Al & Ti & Inc & Tb & Lo & Nk & Le & Me & Sn).
  { unfold s1, forgotten. rewrite Ex. case_decide as E.
    - split_and!; try done; intros.
      + rewrite decide_False; [done|]. intros []. congruence.
      + rewrite (bool_decide_eq_true_2 _ E). cbn. by case_decide.
    - rewrite (bool_decide_eq_false_2 _ E). cbn [negb andb].
      destruct (age_member _ now x) as [m'|] eqn:A; cbn -[od_get od_set od_del group]; split_and!; try done.
      + intros. by apply od_set_nodup.
      + rewrite od_set_length. unfold od_has. by rewrite Ex.
      + intros n. rewrite od_get_set. case_decide; case_decide; naive_solver.
      + intros. by case_decide.
      + intros. by apply od_del_nodup.
      + unfold od_del. apply length_filter.
      + intros n. rewrite od_get_del. case_decide; case_decide; naive_solver.
      + intros st n. rewrite group_evict, od_get_del.
        case_decide; case_decide; naive_solver. }
  clearbody s1. destruct (IH s1 Hnd) as (s' & R & N' & A' & I' & T' & L' & K' & Le' & M' & S').
  { intros n m Hin. rewrite Me, decide_False; [apply Hl; by right|]. intros [-> _].
    apply Hnid. apply list_elem_of_fmap. by exists (nid, m). }
  exists s'. split; [exact R|]. split_and!; try congruence; try lia; eauto.
  - intros n. rewrite M', Nd, Ti, Me. cbn [od_keys fmap list_fmap fst].
    destruct (decide (n = nid)) as [->|Hne].
    + rewrite decide_True by (by right). case_decide as D1; case_decide as D2; try done.
      * destruct D1 as [_ D1]. destruct D2 as [D2|D2]; [done|]. exfalso. apply D2. by left.
      * by rewrite Ex.
      * exfalso. apply D1. split; [done|]. intros ->. apply D2. by left.
    + rewrite (decide_False (P := n = nid ∧ _)) by naive_solver.
      apply decide_ext. rewrite not_elem_of_cons. naive_solver.
  - intros st n. rewrite S', Sn. cbn [od_keys fmap list_fmap fst].
    destruct (decide (n = nid)) as [->|Hne].
    + rewrite decide_True by done. rewrite decide_False by (rewrite not_elem_of_cons; naive_solver). done.
    + assert (forgotten n s1 = forgotten n s) as ->.
      { unfold forgotten. rewrite Me, decide_False by naive_solver. by rewrite Nd, Ti. }
      apply decide_ext. rewrite not_elem_of_cons. naive_solver.
Qed.
End timeouts.

Lemma age_member_address timeout now m m' :
  age_member timeout now m = Some m' → mb_address m' = mb_address m.
Proof.
  unfold age_member, mark_dead. intros E. repeat case_match; by simplify_eq.
Qed.

(** ** Reachable states *)

(** The calls that change the membership: a ping received, a ping sent (the
    random choice and the outcome of the request are arbitrary), a round of
    timeouts. *)
Inductive membership_call :=
| HandlePing (members : option pyval)
| SendPing (choice : nat) (post : string → res (option pydict))
| CheckTimeouts.

Definition run_call `{UrlSplit} (clock : nat → float) (c : membership_call) : M mesh unit :=
  match c with
  | HandlePing v => handle_ping clock v ;;; mret ()
  | SendPing choice post => ping_random_member clock choice post
  | CheckTimeouts => check_timeouts clock
  end.

Section reach.
Context `{UrlSplit} (clock : nat → float).

Lemma merge_membership_ok v s : members_ok s → members_ok (exec (merge_membership clock v) s).
Proof.
  intros Ok. unfold exec, merge_membership. destruct (as_dict v) as [d|]; [|done].
  destruct (merge_entries_run clock d s Ok) as (s' & -> & H1 & _). done.
Qed.

(** Assigning fields that are not part of the invariant, or making another
    node suspect. *)
Lemma set_member_ok s nid m m' :
  members_ok s → od_get (ms_members s) nid = Some m → mb_address m' = mb_address m →
  (nid = ms_node_id s → mb_status m' = mb_status m ∧ mb_incarnation m' = mb_incarnation m) →
  members_ok (set_members (od_set nid m' (ms_members s)) s).
Proof.
  intros Ok Em Ea Hs. constructor; cbn -[od_get od_set].
  - by apply od_set_nodup, Ok.
  - destruct (mk_self s Ok) as (m0 & E0 & H1 & H2). rewrite od_get_set.
    case_decide as D; [|by exists m0]. destruct (Hs D) as [S I]. exists m'. subst nid.
    rewrite Em in E0. injection E0 as <-. by rewrite S, I.
  - rewrite od_set_length. unfold od_has. rewrite Em. apply Ok.
  - intros n m1. rewrite od_get_set. case_decide as D; [|apply Ok]. subst n. intros [= <-] Hn.
    rewrite Ea. by apply (mk_trusted s Ok nid m).
Qed.

Lemma tick_ok s : members_ok s → members_ok (tick_mesh s).
Proof. intros [H1 H2 H3 H4]. by constructor. Qed.

Lemma del_member_ok s nid :
  members_ok s → nid ≠ ms_node_id s →
  members_ok (set_members (od_del nid (ms_members s)) s).
Proof.
  intros Ok Hn. constructor; cbn -[od_get od_del].
  - by apply od_del_nodup, Ok.
  - rewrite od_get_del_ne by done. apply Ok.
  - pose proof (mk_bound s Ok). unfold od_del.
    pose proof (length_filter (λ kv : string * member, kv.1 ≠ nid) (ms_members s)). lia.
  - intros n m. rewrite od_get_del. case_decide; [done|]. apply Ok.
Qed.

Lemma run_call_node c s :
  members_ok s → ms_node_id (exec (merge_membership clock c) s) = ms_node_id s.
Proof.
  intros Ok. unfold exec, merge_membership. destruct (as_dict c) as [d|]; [|done].
  destruct (merge_entries_run clock d s Ok) as (s' & -> & _ & Av & _). apply Av.
Qed.

Lemma suspect_ok nid s :
  members_ok s → nid ≠ ms_node_id s →
  members_ok (exec (match od_get (ms_members s) nid with
    | Some m => if decide (mb_status m = SAlive) then
        update_member nid (with_status SSuspect) ;;; t <- read_time clock ;; update_member nid (with_last t)
      else mret ()
    | None => mret () end) s).
Proof.
  intros Ok Hn. destruct (od_get (ms_members s) nid) as [m|] eqn:E; [|done].
  case_decide; [|done]. unfold exec. erewrite touch_member_run by exact E. cbn [snd].
  apply (set_member_ok (tick_mesh s) nid m); [by apply tick_ok|done..].
Qed.

Lemma ping_member_ok nid info post s :
  members_ok s → nid ≠ ms_node_id s → members_ok (exec (ping_member clock nid info post) s).
Proof.
  intros Ok Hn. unfold ping_member. destruct (mb_address info) as [a|]; [|done].
  destruct (negb (truthy a)); [done|].
  set (attempt := resp <- mlift post ;; _).
  assert (members_ok (exec attempt s) ∧ ms_node_id (exec attempt s) = ms_node_id s) as [H1 H2].
  { unfold exec, attempt, mbind, mlift. destruct post as [[d|]|]; try done.
    destruct (dict_get d "members") as [v|]; [|done].
    pose proof (merge_membership_ok v s Ok) as H1. pose proof (run_call_node v s Ok) as H2.
    unfold exec in H1, H2. destruct (merge_membership clock v s) as [[|] s1]; [|done].
    cbn [snd] in *. destruct (mb_seed info); [|done]. split; [|done].
    apply del_member_ok; [done|]. by rewrite H2. }
  unfold exec at 1. unfold exec in H1, H2. destruct (attempt s) as [[|] s1]; [done|].
  cbn [snd] in *. apply (suspect_ok nid s1 H1). by rewrite H2.
Qed.

Lemma age_members_ok now l s :
  members_ok s → l = ms_members s → members_ok (exec (mfor l (check_member now)) s).
Proof.
  intros Ok ->. destruct (age_members_run now (ms_members s) s (mk_nodup s Ok))
    as (s' & E & N & A & I & _ & _ & K & Le & M & _).
  { intros n m Hin. by apply od_elem_get; [apply Ok|]. }
  unfold exec. rewrite E. cbn [snd]. constructor.
  - by apply K, Ok.
  - rewrite N, M, decide_True by (by left). rewrite I. apply Ok.
  - pose proof (mk_bound s Ok). lia.
  - intros n m. rewrite M, N, A. case_decide as D.
    + intros Em Hn. by apply (mk_trusted s Ok n).
    + destruct (od_get (ms_members s) n) as [m0|] eqn:E0; [|done]. cbn [option_bind].
      intros Hm Hn. apply age_member_address in Hm. rewrite Hm. by apply (mk_trusted s Ok n).
Qed.

Lemma run_call_ok c : preserves members_ok (run_call clock c).
Proof.
  intros s Ok. destruct c as [v|choice post|]; cbn [run_call].
  - destruct (mk_self s Ok) as (m & Em & H1 & H2). unfold handle_ping, exec.
    set (t := clock (ms_ticks s)).
    assert (members_ok (set_members (od_set (ms_node_id s) (with_last t m) (ms_members s)) (tick_mesh s))) as Ok1.
    { apply (set_member_ok (tick_mesh s) _ m); try done. by apply tick_ok. }
    rewrite mbind_assoc. step_run mget_run. rewrite mbind_assoc. step_run read_time_run. rewrite mbind_assoc.
    step_run (update_member_run (ms_node_id s) (with_last t) (tick_mesh s) m Em).
    rewrite mbind_assoc. destruct v as [v|]; [|done].
    pose proof (merge_membership_ok v _ Ok1) as H3. unfold exec in H3. unfold mbind at 1.
    destruct (merge_membership clock v _) as [[|] s1]; exact H3.
  - unfold ping_random_member. step_run mget_run.
    destruct (ping_candidates s !! choice) as [[nid info]|] eqn:E; [|done].
    apply list_elem_of_lookup_2 in E. unfold ping_candidates in E.
    apply list_elem_of_filter in E as [[Hn _] _]. by apply ping_member_ok.
  - unfold check_timeouts. step_run read_time_run. step_run mget_run.
    apply age_members_ok; [by apply tick_ok|done].
Qed.
End reach.

(** ** The initial state *)

Section init.
Context `{UrlSplit} (clock : nat → float).

Definition seeding (p : string) : string := ("seed-" ++ p)%string.

Lemma add_seed_ok p s n :
  members_ok s → seeding p ≠ ms_node_id s →
  Z.of_nat (length (ms_members s)) ≤ n → n < MAX_MEMBERS →
  members_ok (add_seed clock p s) ∧ ms_node_id (add_seed clock p s) = ms_node_id s ∧
  Z.of_nat (length (ms_members (add_seed clock p s))) ≤ n + 1.
Proof.
  intros Ok Hp Hle Hn. unfold add_seed. case_decide; [split_and!; [done|done|lia]|].
  destruct (canonical_base_url _) as [u|]; [|split_and!; [done|done|lia]].
  destruct (negb _ && _) eqn:G; [|split_and!; [done|done|lia]].
  apply andb_true_iff in G as [_ G]. apply bool_decide_eq_true in G.
  set (m := mk_member _ _ _ _ _). cbn [ms_node_id tick_mesh set_members ms_members].
  assert (Z.of_nat (length (od_set (seeding p) m (ms_members s))) ≤ n + 1).
  { rewrite od_set_length. destruct (od_has _ _); lia. }
  split_and!; try done. constructor; cbn -[od_get od_set].
  - by apply od_set_nodup, Ok.
  - rewrite od_get_set_ne by done. apply Ok.
  - change (("seed-" ++ p)%string) with (seeding p). lia.
  - intros nid m'. rewrite od_get_set. case_decide; [|apply Ok]. intros [= <-] _. by right.
Qed.

Lemma add_seeds_ok ps s n :
  members_ok s → (∀ p, p ∈ ps → seeding p ≠ ms_node_id s) →
  Z.of_nat (length (ms_members s)) ≤ n → n + Z.of_nat (length ps) ≤ MAX_MEMBERS →
  members_ok (foldl (λ s p, add_seed clock p s) s ps).
Proof.
  revert s n. induction ps as [|p ps IH]; intros s n Ok Hp Hle Hn; [done|]. cbn [foldl length] in *.
  destruct (add_seed_ok p s n Ok) as (H1 & H2 & H3); [apply Hp; by left|lia|lia|].
  apply (IH _ (n + 1)); [done| |done|lia]. intros q Hq. rewrite H2. apply Hp. by right.
Qed.

Lemma mesh_init_ok node peers timeout address allow payload tombs s :
  mesh_init clock node peers timeout address allow payload tombs = Ok s →
  (∀ p, p ∈ peers → seeding p ≠ node) → Z.of_nat (length peers) < MAX_MEMBERS →
  members_ok s.
Proof.
  intros E Hp Hn. unfold mesh_init in E.
  destruct (negb _); [done|]. destruct (negb _); [done|]. injection E as <-.
  apply (add_seeds_ok _ _ 1); cbn [ms_node_id ms_members length]; [|done|lia|lia].
  constructor; cbn -[od_get]; try done.
  - apply NoDup_singleton.
  - cbn. rewrite decide_True by done. by eexists.
  - intros nid m. cbn. case_decide; [|done]. intros _ Hne. by subst.
Qed.
End init.

(** ** Properties *)

(** C13. The membership table.  From construction (with fewer than 256 peers,
    none of whose seed names is the node's own id), after any sequence of
    pings received with any payload, pings sent with any outcome and rounds of
    timeouts, failed ones included: the node itself is listed, alive, at its
    own incarnation; there are at most 256 members; and every other member
    has an address of the allow list or none, so no payload makes the node
    contact a host it was not configured to trust. *)
Theorem membership_always_ok `{UrlSplit} clock node peers timeout address allow payload tombs s0
    (cs : list membership_call) :
  mesh_init clock node peers timeout address allow payload tombs = Ok s0 →
  (∀ p, p ∈ peers → ("seed-" ++ p)%string ≠ node) → Z.of_nat (length peers) < MAX_MEMBERS →
  members_ok (foldl (λ s c, exec (run_call clock c) s) s0 cs).
Proof.
  intros E Hp Hn. pose proof (mesh_init_ok clock _ _ _ _ _ _ _ _ E Hp Hn) as Ok. clear E Hp Hn.
  revert s0 Ok. induction cs as [|c cs IH]; intros s Ok; [done|]. apply IH. by apply run_call_ok.
Qed.

(** Merging gossip.  A payload that is not an object is refused with the
    state unchanged; any other payload is merged without an error, touches
    only the membership, never loses a member nor moves one back (a higher
    incarnation wins, and within one only an alive entry changes), and leaves
    the node with an incarnation above that of every rumour of the payload
    that calls it suspect or dead. *)
Theorem membership_merge_forward `{UrlSplit} clock incoming s :
  members_ok s →
  match as_dict incoming with
  | None => ∃ msg, merge_membership clock incoming s = (Raise (ValueError msg), s)
  | Some entries =>
      ∃ s', merge_membership clock incoming s = (Ok (), s') ∧ members_ok s' ∧ advance s s' ∧
        ∀ e st i, e ∈ entries → rumour e = Some (ms_node_id s, st, i) → st ≠ SAlive →
          i < ms_incarnation s'
  end.
Proof.
  intros Ok. unfold merge_membership. destruct (as_dict incoming) as [d|]; [|by eexists].
  by apply merge_entries_run.
Qed.

(** Timeouts.  A round of [check_timeouts] never raises and is equivalent
    to ageing every member on its own: suspects that were silent for longer
    than the timeout become dead, members dead for five times as long are
    removed, everybody else and the node itself are untouched; the snapshots
    of exactly the removed members are dropped from every stream. *)
Theorem timeouts_age_members clock s :
  members_ok s →
  let now := clock (ms_ticks s) in
  ∃ s', check_timeouts clock s = (Ok (), s') ∧ members_ok s' ∧
    (∀ nid, od_get (ms_members s') nid =
       if decide (nid = ms_node_id s) then od_get (ms_members s) nid
       else m ← od_get (ms_members s) nid; age_member (ms_timeout s) now m) ∧
    (∀ st nid, od_get (group (ms_snapshots s') st) nid =
       if forgotten now nid s then None else od_get (group (ms_snapshots s) st) nid) ∧
    ms_tombstones s' = ms_tombstones s ∧ ms_local s' = ms_local s.
Proof.
  intros Ok now. pose proof (tick_ok s Ok) as Ok'.
  assert (∀ nid m, (nid, m) ∈ ms_members s → od_get (ms_members s) nid = Some m) as Hl
    by (intros; apply od_elem_get; [apply Ok|done]).
  destruct (age_members_run now (ms_members s) (tick_mesh s) (mk_nodup s Ok) Hl)
    as (s' & E & _ & _ & _ & Tb & Lo & _ & _ & M & Sn).
  exists s'. split_and!; try done.
  - pose proof (age_members_ok now (ms_members s) (tick_mesh s) Ok' eq_refl) as H1.
    unfold exec in H1. by rewrite E in H1.
  - intros nid. rewrite M. cbn -[od_get od_keys]. case_decide as D1; case_decide as D2; try done; try naive_solver.
    destruct D1 as [|D1]; [done|]. apply od_get_none in D1. by rewrite D1.
  - intros st nid. rewrite Sn. case_decide as D; [|done].
    unfold forgotten. apply od_get_none in D. by rewrite D.
Qed.

(** ** Behaviours worth knowing *)

Definition demo_url : UrlSplit := λ a,
  if decide (a = "http://b:9000") then Ok (mk_url "http" (Some "b") None None "" "" "" (Ok (Some 9000)))
  else Ok (mk_url "" None None None "" "" a (Ok None)).

Definition demo_clock (n : nat) : float := 1000.

Definition gossip_entry (n st : string) (i : Z) : pyval * pyval :=
  (VStr n, VDict [(VStr "status", VStr st); (VStr "incarnation", VInt i);
                  (VStr "address", VStr "http://b:9000")]).

Definition demo_node : mesh :=
  match mesh_init (H := demo_url) demo_clock "node-a" ["http://b:9000"] 60 None None 4096 10 with
  | Ok s => s | Raise _ => demo_mesh
  end.

Definition demo_status (payloads : list (list (pyval * pyval))) (n : string) : option Status :=
  option_map mb_status (od_get (ms_members
    (exec (mfor payloads (λ d, merge_membership (H := demo_url) demo_clock (VDict d))) demo_node)) n).

(** A worse status at the same incarnation is only taken over by an alive
    entry: of two nodes that hear "suspect" and "dead" in different orders, one
    holds suspect and the other dead. *)
Lemma worse_status_depends_on_order :
  demo_status [[gossip_entry "c" "suspect" 1]; [gossip_entry "c" "dead" 1]] "c" = Some SSuspect ∧
  demo_status [[gossip_entry "c" "dead" 1]; [gossip_entry "c" "suspect" 1]] "c" = Some SDead.
Proof. split; vm_compute; reflexivity. Qed.

(** An entry without an address is accepted, and from then on no round of
    gossip gets past the choice of the target. *)
Lemma missing_address_stops_gossip :
  gossip_candidates demo_node = Ok [VStr "http://b:9000"] ∧
  gossip_candidates (exec (merge_membership (H := demo_url) demo_clock
    (VDict [(VStr "c", VDict [(VStr "status", VStr "alive"); (VStr "incarnation", VInt 0)])])) demo_node)
  = Raise (KeyError "address").
Proof. split; vm_compute; reflexivity. Qed.

(** Forgetting a member leaves its streams behind as empty groups, which keep
    counting towards the capacity. *)
Definition forgetful_mesh : mesh :=
  mk_mesh "node-a" "" [] 60 4096 10 0
    [("node-a", mk_member (Some (VStr "")) SAlive 0 0 false);
     ("node-b", mk_member (Some (VStr "")) SDead 0 0 false)]
    [("s", [("node-b", (demo_log, PInt 1))])] [] [] 0 0.

Lemma forgotten_streams_still_counted :
  let s' := exec (check_timeouts demo_clock) forgetful_mesh in
  od_get (ms_members s') "node-b" = None ∧ ms_snapshots s' = [("s", [])] ∧
  union_size (ms_snapshots s') (ms_tombstones s') = 1.
Proof. split_and!; vm_compute; reflexivity. Qed.

(** ** Witnesses *)

Lemma membership_always_ok_witness :
  members_ok (foldl (λ s c, exec (run_call (H := demo_url) demo_clock c) s) demo_node
    [HandlePing (Some (VDict [gossip_entry "node-a" "dead" 4])); CheckTimeouts;
     SendPing 0 (λ _, Raise (RuntimeError "timed out"))]).
Proof.
  apply (membership_always_ok (H := demo_url) demo_clock "node-a" ["http://b:9000"] 60 None None 4096 10).
  - vm_compute. reflexivity.
  - intros p Hp. apply list_elem_of_singleton in Hp as ->. discriminate.
  - reflexivity.
Defined.

Lemma demo_node_ok : members_ok demo_node.
Proof.
  apply (mesh_init_ok (H := demo_url) demo_clock "node-a" ["http://b:9000"] 60 None None 4096 10).
  - vm_compute. reflexivity.
  - intros p Hp. apply list_elem_of_singleton in Hp as ->. discriminate.
  - reflexivity.
Qed.

Lemma membership_merge_forward_witness :
  ∃ s', merge_membership (H := demo_url) demo_clock (VDict [gossip_entry "node-a" "dead" 4]) demo_node
    = (Ok (), s') ∧ 4 < ms_incarnation s'.
Proof.
  destruct (membership_merge_forward (H := demo_url) demo_clock
    (VDict [gossip_entry "node-a" "dead" 4]) demo_node demo_node_ok) as (s' & E & _ & _ & R).
  exists s'. split; [exact E|]. apply (R (gossip_entry "node-a" "dead" 4) SDead 4).
  - by apply list_elem_of_singleton.
  - vm_compute. reflexivity.
  - discriminate.
Defined.

Lemma timeouts_age_members_witness :
  ∃ s', check_timeouts demo_clock demo_node = (Ok (), s') ∧ members_ok s'.
Proof.
  destruct (timeouts_age_members demo_clock demo_node demo_node_ok) as (s' & E & Ok & _).
  by exists s'.
Defined.
