(* ===== verification/Gossip.v ===== *)
(** * Anti-entropy ([cluster.py]: version vectors and digests)

    How nodes find out what the other is missing: the version vector a node
    sends, cut to the payload limit with a rotating cursor; the answer to a
    digest, which requests newer origins and sends newer snapshots and
    deletions within the limit; and the batches in which requested data is
    sent.  Proved: the sizes the code accounts for are the exact sizes of the
    documents, so the limits hold; what is requested or sent is strictly
    newer; and the rotation offers every entry that fits. *)

From Stdlib Require Import PrimFloat Ascii String.
From S2P Require Import Prelude PyFloat FloatRound Hashing CountMin HyperLogLog DDSketch.
From S2P Require Import PyVal PyNum PyDict Json StreamLog Checkpoint Mesh Membership.

#[local] Open Scope Z_scope.
#[local] Open Scope py_scope.
#[local] Set Warnings "-inexact-float".

(** A stream of the registry, as [snapshot_items] lists it. *)
Record local_stream := mk_local {
  ls_namespace : string;
  ls_id : string;
  ls_updated : float;
  ls_log : slog
}.

(** [registry.peek(namespace, name)] *)
Definition peek (registry : list local_stream) (ns sid : string) : option local_stream :=
  head (filter (λ l, ls_namespace l = ns ∧ ls_id l = sid) registry).

(** Objects as JSON values. *)
Definition str_dict {A} (f : A → pyval) (d : list (string * A)) : pyval :=
  VDict ((λ kv, (VStr kv.1, f kv.2)) <$> d).
Definition num_val (n : pnum) : pyval :=
  match n with PInt z => VInt z | PFlt x => VFloat x end.
Definition versions_val (origins : list (string * pnum)) : pyval := str_dict num_val origins.
Definition strings_val (l : list string) : pyval := VList (VStr <$> l).
Definition updates_val (d : list (string * pyval)) : pyval := str_dict id d.

Section Gossip.
Context `{FloatRepr}.

(** ** The version vector *)

Definition vector_payload (node_id : string) (v : list (string * list (string * pnum))) : pyval :=
  VDict [(VStr "node_id", VStr node_id); (VStr "versions", str_dict versions_val v)].

Definition contribution (some : bool) (entry : string * list (string * pnum)) : res Z :=
  let? k := json_size (VStr entry.1) in
  let? o := json_size (versions_val entry.2) in
  Ok ((if some then 1 else 0) + k + 1 + o).

(** The loop over the entries from the cursor on: the entries selected and
    how many were considered.  [items] is the list rotated to start at the
    cursor. *)
Fixpoint select_entries (max_payload : Z) (items : list (string * list (string * pnum)))
    (selected : list (string * list (string * pnum))) (used considered : Z)
  : res (list (string * list (string * pnum)) * Z) :=
  match items with
  | [] => Ok (selected, considered)
  | item :: rest =>
      let? c := contribution (match selected with [] => false | _ => true end) item in
      if used + c <=? max_payload
      then select_entries max_payload rest (od_set item.1 item.2 selected) (used + c)
             (considered + 1)
      else match selected with
      | [] => select_entries max_payload rest selected used (considered + 1)
      | _ => Ok (selected, considered)
      end
  end.

Definition rotate_list {A} (n : nat) (l : list A) : list A := drop n l ++ take n l.

Definition bounded_version_vector (version_vector : list (string * list (string * pnum)))
  : M mesh (list (string * list (string * pnum))) :=
  s <- mget ;;
  whole <- mlift (json_size (vector_payload (ms_node_id s) version_vector)) ;;
  if whole <=? ms_max_payload s then mret version_vector
  else
    let n := Z.of_nat (length version_vector) in
    if n =? 0 then mret []
    else
      base <- mlift (json_size (vector_payload (ms_node_id s) [])) ;;
      let start := ms_cursor s mod n in
      r <- mlift (select_entries (ms_max_payload s)
             (rotate_list (Z.to_nat start) version_vector) [] base 0) ;;
      mmodify (set_cursor ((start + r.2) mod n)) ;;;
      mret r.1.

(** [max(version, d.get(nid, 0))] stored under [nid] in the stream's group. *)
Definition vector_max (st nid : string) (v : pnum)
    (d : list (string * list (string * pnum))) : list (string * list (string * pnum)) :=
  group_set st nid (pn_max v (default (PInt 0) (od_get (group d st) nid))) d.

Definition ensure_group {A} (st : string) (d : list (string * list (string * A))) :=
  if od_has d st then d else od_set st [] d.

(** The vector [_gossip_state] builds: local streams, their tombstones, the
    snapshots of nodes that are not dead, and their tombstones. *)
Definition version_vector (s : mesh) (registry : list local_stream)
  : list (string * list (string * pnum)) :=
  let own := ms_node_id s in
  let d1 := foldl (λ d l, od_set (stream_key (ls_namespace l) (ls_id l))
                            [(own, PFlt (ls_updated l))] d) [] registry in
  let d2 := foldl (λ d '(st, v), vector_max st own (PFlt v) d) d1 (ms_local s) in
  let d3 := foldl (λ d '(st, peers),
      foldl (λ d '(nid, (_, v)),
        if bool_decide (option_map mb_status (od_get (ms_members s) nid) = Some SDead) then d
        else group_set st nid v d) (ensure_group st d) peers) d2 (ms_snapshots s) in
  foldl (λ d '(st, tombs), foldl (λ d '(nid, v), vector_max st nid v d) d tombs)
    d3 (ms_tombstones s).

(** ** Answering a digest *)

(** The versions of one stream: identifiers with finite non-negative numbers,
    at most [MAX_ORIGINS_PER_STREAM] of them. *)
Fixpoint normalize_origins (l : pydict) (acc : list (string * float)) : res (list (string * float)) :=
  match l with
  | [] => Ok acc
  | (k, v) :: l' =>
      let? acc' :=
        match as_identifier k, as_number v with
        | Some nid, Some n =>
            let? finite := pn_isfinite n in
            if finite && pn_le (PInt 0) n
            then let? x := pn_float n in Ok (od_set nid x acc) else Ok acc
        | _, _ => Ok acc
        end in
      if MAX_ORIGINS_PER_STREAM <=? Z.of_nat (length acc') then Ok acc'
      else normalize_origins l' acc'
  end.

Fixpoint normalize_versions (l : pydict) (acc : list (string * list (string * float)))
  : res (list (string * list (string * float))) :=
  match l with
  | [] => Ok acc
  | (k, v) :: l' =>
      match k, as_dict v with
      | VStr st, Some origins =>
          if valid_stream_key (VStr st) then
            let? o := normalize_origins origins [] in
            let acc' := od_set st o acc in
            if MAX_PEER_STREAMS <=? Z.of_nat (length acc') then Ok acc'
            else normalize_versions l' acc'
          else normalize_versions l' acc
      | _, _ => normalize_versions l' acc
      end
  end.

(** The answer under construction, and its size. *)
Record answer := mk_answer {
  an_updates : list (string * list (string * pyval));
  an_requests : list (string * list string);
  an_size : Z
}.

Definition answer_val (node_id : string) (a : answer) : pyval :=
  VDict [(VStr "node_id", VStr node_id);
         (VStr "updates", str_dict updates_val (an_updates a));
         (VStr "requests", str_dict strings_val (an_requests a))].

(** What an entry of a group adds to the document: the group's growth, or the
    separator, the key, a colon and the new group. *)
Definition growth (first : bool) (st : string) (current candidate : option pyval) : res Z :=
  let? c := json_size (default VNone candidate) in
  match current with
  | Some v => let? o := json_size v in Ok (c - o)
  | None => let? k := json_size (VStr st) in Ok (c + ((if first then 0 else 1) + k + 1))
  end.

Definition add_request (max_payload : Z) (st nid : string) : M answer bool :=
  a <- mget ;;
  let current := default [] (od_get (an_requests a) st) in
  if bool_decide (nid ∈ current) then mret true
  else
    let candidate := current ++ [nid] in
    delta <- mlift (growth (match an_requests a with [] => true | _ => false end) st
      (match current with [] => None | _ => Some (strings_val current) end)
      (Some (strings_val candidate))) ;;
    if max_payload / 4 <? an_size a + delta then mret false
    else
      mmodify (λ a, mk_answer (an_updates a) (od_set st candidate (an_requests a))
        (an_size a + delta)) ;;;
      mret true.

Definition add_update (max_payload : Z) (st nid : string) (data : pyval) : M answer bool :=
  a <- mget ;;
  let current := group (an_updates a) st in
  let candidate := od_set nid data current in
  delta <- mlift (growth (match an_updates a with [] => true | _ => false end) st
    (match current with [] => None | _ => Some (updates_val current) end)
    (Some (updates_val candidate))) ;;
  if max_payload <? an_size a + delta then mret false
  else
    mmodify (λ a, mk_answer (od_set st candidate (an_updates a)) (an_requests a)
      (an_size a + delta)) ;;;
    mret true.

Definition snapshot_data (version : pnum) (log : slog) : pyval :=
  VDict [(VStr "__version__", num_val version); (VStr "state", slog_to_dict log)].
Definition tombstone_data (version : pnum) : pyval :=
  VDict [(VStr "__tombstone__", VBool true); (VStr "__version__", num_val version)].

(** *** What to request *)

Definition known_version_of (s : mesh) (st nid : string) : pnum :=
  pn_max (match od_get (group (ms_snapshots s) st) nid with Some (_, v) => v | None => PFlt 0 end)
         (default (PInt 0) (od_get (group (ms_tombstones s) st) nid)).

Definition request_origin (s : mesh) (st : string) (origin : string * float) : M answer unit :=
  if decide (origin.1 = ms_node_id s) then mret ()
  else if pn_lt (known_version_of s st origin.1) (PFlt origin.2)
  then add_request (ms_max_payload s) st origin.1 ;;; mret ()
  else mret ().

Definition request_newer (s : mesh) (versions : list (string * list (string * float)))
  : M answer unit :=
  mfor versions (λ e, mfor e.2 (request_origin s e.1)).

(** *** What to send *)

Definition remote_version (versions : list (string * list (string * float))) (st nid : string) : pnum :=
  match od_get (group versions st) nid with Some x => PFlt x | None => PInt 0 end.

(** A local stream the other side holds an older version of; an exception is
    logged and the stream skipped. *)
Definition send_local (s : mesh) (versions : list (string * list (string * float)))
    (l : local_stream) : M answer bool :=
  let st := stream_key (ls_namespace l) (ls_id l) in
  let v := PFlt (ls_updated l) in
  if pn_lt (remote_version versions st (ms_node_id s)) v
  then mtry (add_update (ms_max_payload s) st (ms_node_id s) (snapshot_data v (ls_log l)))
            (mret true)
  else mret true.

(** A local tombstone, unless the stream was written again later. *)
Definition send_local_tombstone (s : mesh) (registry : list local_stream)
    (versions : list (string * list (string * float))) (entry : string * float) : M answer bool :=
  let '(st, version) := entry in
  match parse_key st with
  | None => mret true
  | Some (ns, name) =>
      if match peek registry ns name with
         | Some l => flt version (ls_updated l)
         | None => false
         end
      then mret true
      else if pn_lt (remote_version versions st (ms_node_id s)) (PFlt version)
      then add_update (ms_max_payload s) st (ms_node_id s) (tombstone_data (PFlt version))
      else mret true
  end.

Definition send_snapshot (s : mesh) (versions : list (string * list (string * float)))
    (st : string) (entry : string * (slog * pnum)) : M answer bool :=
  let '(nid, (log, v)) := entry in
  if pn_lt (remote_version versions st nid) v
  then add_update (ms_max_payload s) st nid (snapshot_data v log) else mret true.

Definition send_tombstone (s : mesh) (versions : list (string * list (string * float)))
    (st : string) (entry : string * pnum) : M answer bool :=
  let '(nid, v) := entry in
  if pn_lt v (match od_get (group (ms_snapshots s) st) nid with Some (_, w) => w | None => PInt 0 end)
  then mret true
  else if pn_lt (remote_version versions st nid) v
  then add_update (ms_max_payload s) st nid (tombstone_data v) else mret true.

Definition send_newer (s : mesh) (registry : list local_stream)
    (versions : list (string * list (string * float))) : M answer unit :=
  mfor_while registry (send_local s versions) ;;;
  mfor_while (ms_local s) (send_local_tombstone s registry versions) ;;;
  mfor (ms_snapshots s) (λ e, mfor_while e.2 (send_snapshot s versions e.1)) ;;;
  mfor (ms_tombstones s) (λ e, mfor_while e.2 (send_tombstone s versions e.1)).

(** [handle_gossip_digest]; it changes nothing of the node. *)
Definition handle_gossip_digest (s : mesh) (registry : list local_stream) (payload : pydict)
  : res answer :=
  let? remote := expect (as_dict (default (VDict []) (dict_get payload "versions")))
                   "versions must be an object" in
  let? versions := normalize_versions remote [] in
  let? base := json_size (answer_val (ms_node_id s) (mk_answer [] [] 0)) in
  let m := request_newer s versions ;;; send_newer s registry versions in
  match m (mk_answer [] [] base) with
  | (Ok _, a) => Ok a
  | (Raise e, _) => Raise e
  end.

(** ** Sending what was requested *)

Definition sync_val (node_id : string) (streams : list (string * list (string * pyval))) : pyval :=
  VDict [(VStr "node_id", VStr node_id); (VStr "streams", str_dict updates_val streams)].

(** The batch being filled and the requests already posted, in order. *)
Record sync := mk_sync {
  sy_streams : list (string * list (string * pyval));
  sy_posted : list (list (string * list (string * pyval)))
}.

(** [post] is the outcome of a request: [None] when it went through. *)
Definition flush_sync (post : list (string * list (string * pyval)) → option exn) : M sync unit :=
  q <- mget ;;
  match sy_streams q with
  | [] => mret ()
  | streams =>
      match post streams with
      | Some e => mraise e
      | None => mmodify (λ q, mk_sync [] (sy_posted q ++ [streams]))
      end
  end.

Definition queue_sync_update (node_id : string) (max_payload : Z)
    (post : list (string * list (string * pyval)) → option exn)
    (st nid : string) (data : pyval) : M sync unit :=
  q <- mget ;;
  let candidate := group_set st nid data (sy_streams q) in
  n <- mlift (json_size (sync_val node_id candidate)) ;;
  if max_payload <? n then
    flush_sync post ;;;
    let alone := [(st, [(nid, data)])] in
    m <- mlift (json_size (sync_val node_id alone)) ;;
    if max_payload <? m then mret ()
    else mmodify (λ q, mk_sync alone (sy_posted q))
  else mmodify (λ q, mk_sync candidate (sy_posted q)).

(** What the node sends for a requested origin: the newer of tombstone and
    snapshot, for its own streams and for those of other nodes. *)
Definition local_data (s : mesh) (registry : list local_stream) (st : string) : option pyval :=
  match parse_key st with
  | None => None
  | Some (ns, name) =>
      let stream := peek registry ns name in
      let stream_version := match stream with Some l => PFlt (ls_updated l) | None => PInt 0 end in
      let tombstone_version :=
        match od_get (ms_local s) st with Some x => PFlt x | None => PInt 0 end in
      if pn_le stream_version tombstone_version
      then Some (tombstone_data tombstone_version)
      else option_map (λ l, snapshot_data stream_version (ls_log l)) stream
  end.

Definition peer_data (s : mesh) (st nid : string) : option pyval :=
  let snapshot_version :=
    match od_get (group (ms_snapshots s) st) nid with Some (_, v) => v | None => PInt 0 end in
  let tombstone_version := default (PInt 0) (od_get (group (ms_tombstones s) st) nid) in
  if pn_le snapshot_version tombstone_version
  then Some (tombstone_data tombstone_version)
  else option_map (λ e, snapshot_data snapshot_version e.1) (od_get (group (ms_snapshots s) st) nid).

(** One requested origin of a valid stream key. *)
Definition answer_request (s : mesh) (registry : list local_stream)
    (post : list (string * list (string * pyval)) → option exn) (st : string) (nid : pyval)
  : M sync unit :=
  let queue nid data := queue_sync_update (ms_node_id s) (ms_max_payload s) post st nid data in
  match as_identifier nid with
  | None => mret ()
  | Some nid =>
      if decide (nid = ms_node_id s) then
        mtry (match local_data s registry st with Some data => queue nid data | None => mret () end)
             (mret ())
      else
        match peer_data s st nid with Some data => queue nid data | None => mret () end
  end.

Definition answer_requests (s : mesh) (registry : list local_stream)
    (post : list (string * list (string * pyval)) → option exn) (requests : pydict) : M sync unit :=
  mfor requests (λ e,
    match e.1, as_list e.2 with
    | VStr st, Some nids =>
        if valid_stream_key (VStr st) then mfor nids (answer_request s registry post st)
        else mret ()
    | _, _ => mret ()
    end) ;;;
  flush_sync post.

(** ** A round of gossip

    The target is the candidate [random.choice] picks; [exchange] is the
    outcome of posting the versions to it and [post] that of sending a batch;
    what follows the exchange is inside a [try] that logs any exception.  The
    result is the batches posted. *)
Definition gossip_state `{Libm} (choice : nat) (registry : list local_stream)
    (exchange : pyval → list (string * list (string * pnum)) → res (option pydict))
    (post : list (string * list (string * pyval)) → option exn) (now : float)
  : M mesh (list (list (string * list (string * pyval)))) :=
  s <- mget ;;
  candidates <- mlift (gossip_candidates s) ;;
  match candidates !! choice with
  | None => mret []
  | Some address =>
      match version_vector s registry with
      | [] => mret []
      | vector =>
          versions <- bounded_version_vector vector ;;
          mtry
            (resp <- mlift (exchange address versions) ;;
             match resp with
             | None | Some [] => mret []
             | Some d =>
                 match dict_get d "updates" with
                 | Some u =>
                     sender <- mlift (dict_item d "node_id") ;; receive_snapshot sender u now
                 | None => mret ()
                 end ;;;
                 match dict_get d "requests" with
                 | Some (VDict (e :: r)) =>
                     s <- mget ;;
                     mret (sy_posted (snd (answer_requests s registry post (e :: r) (mk_sync [] []))))
                 | _ => mret []
                 end
             end)
            (mret [])
      end
  end.
End Gossip.

(** ** Sizes *)

Section sizes.
Context `{FloatRepr}.

Fixpoint body_size {A} (f : A → pyval) (d : list (string * A)) : res Z :=
  match d with
  | [] => Ok 0
  | (k, v) :: d =>
      let? a := json_size (f v) in
      let? b := body_size f d in Ok (size (json_str k) + 1 + a + b)
  end.

Lemma json_size_str_dict {A} (f : A → pyval) d :
  json_size (str_dict f d) =
  let? n := body_size f d in Ok (2 + n + commas (length d)).
Proof.
  unfold str_dict. cbn [json_size]. rewrite length_fmap.
  assert (∀ d, (fix go d := match d with
     | [] => Ok 0
     | (k, v) :: d =>
         let? c := key_size k in let? a := json_size v in let? b := go d in Ok (c + 1 + a + b)
     end) ((λ kv : string * A, (VStr kv.1, f kv.2)) <$> d) = body_size f d) as ->; [|done].
  clear d. intros d. induction d as [|[k v] d IH]; [done|]. rewrite fmap_cons. cbn [fst snd].
  cbn [key_size res_bind body_size]. by rewrite IH.
Qed.

(** Setting a key changes the size by the growth the code computes. *)
Lemma body_size_set {A} (f : A → pyval) k v d n c :
  body_size f d = Ok n → json_size (f v) = Ok c →
  ∃ m, body_size f (od_set k v d) = Ok m ∧
  match od_get d k with
  | Some w => ∃ o, json_size (f w) = Ok o ∧ m = n + c - o ∧ length (od_set k v d) = length d
  | None => m = n + size (json_str k) + 1 + c ∧ length (od_set k v d) = S (length d)
  end.
Proof.
  intros Hn Hc. revert n Hn. induction d as [|[k' w] d IH]; intros n Hn; cbn [body_size] in Hn.
  - injection Hn as <-. cbn. rewrite Hc. cbn. eexists. split; [done|]. split; [lia|done].
  - inv_res Hn. cbn [od_set od_get]. case_decide as E.
    + subst k'. cbn [body_size]. rewrite Hc, Hn2. cbn. eexists. split; [done|].
      exists a. split_and!; [done|lia|done].
    + destruct (IH a0 Hn2) as (m & Em & H1). cbn [body_size]. rewrite Hn0, Em. cbn [res_bind].
      eexists. split; [done|]. destruct (od_get d k) as [w'|].
      * destruct H1 as (o & Ho & -> & Hl). exists o. split_and!; [done|lia|cbn; lia].
      * destruct H1 as [-> Hl]. split; [lia|cbn; lia].
Qed.

Lemma size_set {A} (f : A → pyval) k v d n c :
  json_size (str_dict f d) = Ok n → json_size (f v) = Ok c →
  ∃ m, json_size (str_dict f (od_set k v d)) = Ok m ∧
  match od_get d k with
  | Some w => ∃ o, json_size (f w) = Ok o ∧ m = n + (c - o)
  | None => m = n + (c + ((match d with [] => 0 | _ => 1 end) + size (json_str k) + 1))
  end.
Proof.
  rewrite !json_size_str_dict. intros Hn Hc. inv_res Hn.
  destruct (body_size_set f k v d a c Hn0 Hc) as (m & -> & H1). cbn [res_bind].
  eexists. split; [done|]. destruct (od_get d k) as [w|].
  - destruct H1 as (o & Ho & -> & ->). exists o. split; [done|]. lia.
  - destruct H1 as [-> ->]. destruct d; unfold commas; cbn [length]; lia.
Qed.

Lemma json_size_str s : json_size (VStr s) = Ok (size (json_str s)).
Proof. done. Qed.

(** The document around the versions. *)
Definition vector_overhead (node : string) : Z :=
  3 + (size (json_str "node_id") + 1 + size (json_str node)) + (size (json_str "versions") + 1).

Lemma vector_payload_size node v :
  json_size (vector_payload node v) =
  let? n := json_size (str_dict versions_val v) in Ok (vector_overhead node + n).
Proof.
  unfold vector_payload. cbn [json_size key_size res_bind].
  change (json_size (str_dict versions_val v)) with (json_size (str_dict versions_val v)).
  destruct (json_size (str_dict versions_val v)) as [n|]; [|done].
  cbn [res_bind length]. f_equal. unfold vector_overhead, commas. lia.
Qed.

Lemma body_size_entries {A} (f : A → pyval) d n :
  body_size f d = Ok n → Forall (λ e, is_ok (json_size (f e.2)) = true) d.
Proof.
  revert n. induction d as [|[k v] d IH]; intros n E; cbn [body_size] in E; [constructor|].
  destruct (json_size (f v)) eqn:Ev; [|done]. cbn [res_bind] in E.
  destruct (body_size f d) eqn:Ed; [|done]. constructor; [cbn; by rewrite Ev|by eapply IH].
Qed.
End sizes.

(** ** The invariant of an answer *)

Section answers.
Context `{FloatRepr}.

Lemma growth_spec {A} (f : A → pyval) st cand d n delta first :
  json_size (str_dict f d) = Ok n → first = match d with [] => true | _ => false end →
  growth first st (f <$> od_get d st) (Some (f cand)) = Ok delta →
  json_size (str_dict f (od_set st cand d)) = Ok (n + delta).
Proof.
  intros Hn -> Hg. unfold growth in Hg. cbn [default] in Hg. unfold id in Hg. inv_res Hg.
  destruct (size_set f st cand d n a Hn Hg0) as (m & Em & H1).
  destruct (od_get d st) as [w|]; cbn [fmap option_fmap option_map] in Hg1.
  - destruct H1 as (o & Ho & ->). rewrite Ho in Hg1. injection Hg1 as <-. done.
  - rewrite json_size_str in Hg1. cbn [res_bind] in Hg1. injection Hg1 as <-. rewrite Em, H1.
    by destruct d.
Qed.

(** The part of the document around the updates and the requests. *)
Definition answer_overhead (node : string) : Z :=
  4 + size (json_str "node_id") + 1 + size (json_str node)
    + (size (json_str "updates") + 1) + (size (json_str "requests") + 1).

Lemma answer_val_size node a u r :
  json_size (str_dict updates_val (an_updates a)) = Ok u →
  json_size (str_dict strings_val (an_requests a)) = Ok r →
  json_size (answer_val node a) = Ok (answer_overhead node + u + r).
Proof.
  intros Hu Hr. unfold answer_val. cbn [json_size key_size res_bind].
  change (json_size (str_dict updates_val (an_updates a))) with (json_size (str_dict updates_val (an_updates a))).
  rewrite Hu, Hr. cbn [res_bind length]. f_equal. unfold answer_overhead, commas. lia.
Qed.

Context (s : mesh) (registry : list local_stream) (versions : list (string * list (string * float))).

(** What the node has to offer for an origin: the version and the data. *)
Inductive offered : string → string → pnum → pyval → Prop :=
| offered_stream l : l ∈ registry →
    offered (stream_key (ls_namespace l) (ls_id l)) (ms_node_id s) (PFlt (ls_updated l))
      (snapshot_data (PFlt (ls_updated l)) (ls_log l))
| offered_deletion st x : (st, x) ∈ ms_local s →
    offered st (ms_node_id s) (PFlt x) (tombstone_data (PFlt x))
| offered_snapshot st peers nid log v : (st, peers) ∈ ms_snapshots s → (nid, (log, v)) ∈ peers →
    offered st nid v (snapshot_data v log)
| offered_tombstone st tombs nid v : (st, tombs) ∈ ms_tombstones s → (nid, v) ∈ tombs →
    offered st nid v (tombstone_data v).

Definition wanted (st nid : string) : Prop :=
  nid ≠ ms_node_id s ∧ ∃ origins x, (st, origins) ∈ versions ∧ (nid, x) ∈ origins ∧
    pn_lt (known_version_of s st nid) (PFlt x) = true.

Record answer_ok (a : answer) : Prop := {
  ao_size : ∃ u r, json_size (str_dict updates_val (an_updates a)) = Ok u ∧
    json_size (str_dict strings_val (an_requests a)) = Ok r ∧
    an_size a = answer_overhead (ms_node_id s) + u + r;
  ao_bound : an_size a ≤ ms_max_payload s ∨ an_updates a = [] ∧ an_requests a = [];
  ao_groups : (∀ st, od_get (an_updates a) st ≠ Some []) ∧ (∀ st, od_get (an_requests a) st ≠ Some []);
  ao_requests : ∀ st nid, nid ∈ default [] (od_get (an_requests a) st) → wanted st nid;
  ao_updates : ∀ st nid data, od_get (group (an_updates a) st) nid = Some data →
    ∃ v, pn_lt (remote_version versions st nid) v = true ∧ offered st nid v data
}.

Lemma od_get_nonempty {A} (f : list A → pyval) (d : list (string * list A)) st :
  (∀ st, od_get d st ≠ Some []) →
  match default [] (od_get d st) with [] => None | _ => Some (f (default [] (od_get d st))) end
  = f <$> od_get d st.
Proof. intros Hd. specialize (Hd st). destruct (od_get d st) as [[|x l]|]; done. Qed.

Lemma add_request_ok st nid :
  0 ≤ ms_max_payload s → wanted st nid → preserves answer_ok (add_request (ms_max_payload s) st nid).
Proof.
  intros Hpos Hw a Ok. unfold add_request. step_run mget_run. case_bool_decide as Hin; [done|].
  destruct (ao_groups a Ok) as [_ Hg]. rewrite (od_get_nonempty strings_val _ st Hg).
  set (cand := default [] (od_get (an_requests a) st) ++ [nid]).
  destruct (growth _ st _ _) as [delta|e] eqn:Eg; [|done].
  step_run (mlift_run (Prelude.Ok delta)); [|done].
  destruct (Z.ltb_spec (ms_max_payload s / 4) (an_size a + delta)) as [|Hle]; [done|].
  destruct (ao_size a Ok) as (u & r & Hu & Hr & Hs).
  pose proof (growth_spec strings_val st cand _ r delta _ Hr eq_refl Eg) as Hr'.
  constructor; cbn [an_updates an_requests an_size snd mbind mmodify mret].
  - exists u, (r + delta). split_and!; [done|done|lia].
  - left. assert (ms_max_payload s / 4 ≤ ms_max_payload s) by (apply Z.div_le_upper_bound; lia). lia.
  - split; [apply Ok|]. intros st'. rewrite od_get_set. case_decide; [|apply Hg].
    unfold cand. by destruct (default [] _).
  - intros st' nid'. rewrite od_get_set. case_decide as E; [|apply Ok]. subst st'.
    cbn [default]. unfold id, cand. rewrite elem_of_app, list_elem_of_singleton.
    intros [Hn| ->]; [by apply (ao_requests a Ok)|done].
  - apply Ok.
Qed.

Lemma add_update_ok st nid v data :
  pn_lt (remote_version versions st nid) v = true → offered st nid v data →
  preserves answer_ok (add_update (ms_max_payload s) st nid data).
Proof.
  intros Hlt Hoff a Ok. unfold add_update. step_run mget_run. unfold group.
  destruct (ao_groups a Ok) as [Hg _]. rewrite (od_get_nonempty updates_val _ st Hg).
  set (cand := od_set nid data (default [] (od_get (an_updates a) st))).
  destruct (growth _ st _ _) as [delta|e] eqn:Eg; [|done].
  step_run (mlift_run (Prelude.Ok delta)); [|done].
  destruct (Z.ltb_spec (ms_max_payload s) (an_size a + delta)) as [|Hle]; [done|].
  destruct (ao_size a Ok) as (u & r & Hu & Hr & Hs).
  pose proof (growth_spec updates_val st cand _ u delta _ Hu eq_refl Eg) as Hu'.
  constructor; cbn [an_updates an_requests an_size snd mbind mmodify mret].
  - exists (u + delta), r. split_and!; [done|done|lia].
  - by left.
  - split; [|apply Ok]. intros st'. rewrite od_get_set. case_decide; [|apply Hg].
    intros E; injection E as E. apply (f_equal (λ l, od_get l nid)) in E. unfold cand in E.
    by rewrite od_get_set_eq in E.
  - apply Ok.
  - intros st' nid' data'. unfold group. rewrite od_get_set. case_decide as E; [|apply Ok]. subst st'.
    cbn [default]. unfold id, cand. rewrite od_get_set. case_decide as E.
    + intros [= <-]. subst nid'. by exists v.
    + intros Hd. by apply (ao_updates a Ok).
Qed.
End answers.

(** *** The handler keeps it *)

Section handler.
Context `{FloatRepr} (s : mesh) (registry : list local_stream).
Context (versions : list (string * list (string * float))).
Context (Hpos : 0 ≤ ms_max_payload s).

Let inv := answer_ok s registry versions.

Lemma keep_ret {A} (a : A) : preserves inv (mret a).
Proof. by apply preserves_readonly. Qed.

Lemma request_newer_ok : preserves inv (request_newer s versions).
Proof using Hpos.
  unfold request_newer. apply preserves_for_in. intros [st origins] He.
  apply preserves_for_in. intros [nid x] Ho. unfold request_origin. cbn [fst snd] in *.
  case_decide as D; [apply keep_ret|].
  destruct (pn_lt _ _) eqn:L; [|apply keep_ret].
  apply preserves_bind; [|intros _; apply keep_ret].
  apply add_request_ok; [done|]. split; [done|]. by exists origins, x.
Qed.

Lemma send_newer_ok : preserves inv (send_newer s registry versions).
Proof using Hpos.
  unfold send_newer. apply preserves_bind; [|intros _; apply preserves_bind; [|intros _; apply preserves_bind; [|intros _]]].
  - apply preserves_for_while. intros l Hl. unfold send_local.
    destruct (pn_lt _ _) eqn:L; [|apply keep_ret]. apply preserves_try; [|apply keep_ret].
    eapply add_update_ok; [exact L|by constructor].
  - apply preserves_for_while. intros [st x] Hx. unfold send_local_tombstone.
    destruct (parse_key st) as [[ns name]|]; [|apply keep_ret].
    destruct (match peek registry ns name with Some _ => _ | None => _ end); [apply keep_ret|].
    destruct (pn_lt _ _) eqn:L; [|apply keep_ret].
    eapply add_update_ok; [exact L|by constructor].
  - apply preserves_for_in. intros [st peers] Hp. apply preserves_for_while.
    intros [nid [log v]] Hn. unfold send_snapshot. cbn [fst snd] in *.
    destruct (pn_lt _ _) eqn:L; [|apply keep_ret].
    eapply add_update_ok; [exact L|by eapply offered_snapshot].
  - apply preserves_for_in. intros [st tombs] Hp. apply preserves_for_while.
    intros [nid v] Hn. unfold send_tombstone. cbn [fst snd] in *.
    destruct (pn_lt v _); [apply keep_ret|].
    destruct (pn_lt (remote_version _ _ _) _) eqn:L; [|apply keep_ret].
    eapply add_update_ok; [exact L|by eapply offered_tombstone].
Qed.

Lemma empty_answer_ok base :
  json_size (answer_val (ms_node_id s) (mk_answer [] [] 0)) = Ok base → inv (mk_answer [] [] base).
Proof.
  rewrite (answer_val_size _ _ 2 2) by done. intros [= <-].
  constructor; cbn [an_updates an_requests an_size]; try done.
  - exists 2, 2. done.
  - by right.
  - intros st nid Hn. by apply elem_of_nil in Hn.
Qed.
End handler.

Lemma handle_gossip_digest_ok `{FloatRepr} s registry payload a :
  0 ≤ ms_max_payload s → handle_gossip_digest s registry payload = Ok a →
  ∃ remote versions, as_dict (default (VDict []) (dict_get payload "versions")) = Some remote ∧
    normalize_versions remote [] = Ok versions ∧ answer_ok s registry versions a.
Proof.
  intros Hpos E. unfold handle_gossip_digest in E. inv_res E.
  destruct (as_dict _) as [remote|] eqn:Er; [|done]. cbn in E0. injection E0 as <-.
  exists remote, a1. split; [done|]. split; [done|].
  assert (preserves (answer_ok s registry a1)
    (request_newer s a1 ;;; send_newer s registry a1)) as Hp.
  { apply preserves_bind; [by apply request_newer_ok|]. intros _. by apply send_newer_ok. }
  specialize (Hp _ (empty_answer_ok s registry a1 a2 E1)).
  destruct ((request_newer s a1 ;;; send_newer s registry a1) _) as [[u|e] b]; [|done].
  injection E4 as <-. exact Hp.
Qed.

Lemma normalize_origins_bound l acc r :
  Z.of_nat (length acc) < MAX_ORIGINS_PER_STREAM → normalize_origins l acc = Ok r →
  Z.of_nat (length r) ≤ MAX_ORIGINS_PER_STREAM.
Proof.
  revert acc. induction l as [|[k v] l IH]; intros acc Hacc E; cbn [normalize_origins] in E.
  { injection E as <-. lia. }
  inv_res E. assert (length a ≤ S (length acc))%nat as Ha.
  { destruct (as_identifier k); [|injection E0 as <-; lia].
    destruct (as_number v) as [n|]; [|injection E0 as <-; lia].
    destruct (pn_isfinite n) as [fin|]; [|done]. cbn [res_bind] in E0.
    destruct (_ && _); [|injection E0 as <-; lia].
    destruct (pn_float n) as [x|]; [|done]. injection E0 as <-.
    rewrite od_set_length. destruct (od_has _ _); lia. }
  destruct (Z.leb_spec MAX_ORIGINS_PER_STREAM (Z.of_nat (length a))); [injection E1 as <-; lia|].
  by apply (IH a).
Qed.

Lemma normalize_versions_bound l acc r :
  Z.of_nat (length acc) < MAX_PEER_STREAMS →
  (∀ e, e ∈ acc → Z.of_nat (length e.2) ≤ MAX_ORIGINS_PER_STREAM) →
  normalize_versions l acc = Ok r →
  Z.of_nat (length r) ≤ MAX_PEER_STREAMS ∧
  ∀ e, e ∈ r → Z.of_nat (length e.2) ≤ MAX_ORIGINS_PER_STREAM.
Proof.
  revert acc. induction l as [|[k v] l IH]; intros acc Hacc Hg E; cbn [normalize_versions] in E.
  { injection E as <-. split; [lia|done]. }
  destruct k; try by apply (IH acc). destruct (as_dict v) as [o|]; [|by apply (IH acc)].
  destruct (valid_stream_key _); [|by apply (IH acc)]. inv_res E.
  apply normalize_origins_bound in E0; [|done].
  assert (length (od_set s a acc) ≤ S (length acc))%nat
    by (rewrite od_set_length; destruct (od_has _ _); lia).
  assert (∀ e, e ∈ od_set s a acc → Z.of_nat (length e.2) ≤ MAX_ORIGINS_PER_STREAM) as Hg'.
  { rewrite <- Forall_forall. apply Forall_od_set; [done|]. by apply Forall_forall. }
  destruct (Z.leb_spec MAX_PEER_STREAMS (Z.of_nat (length (od_set s a acc)))).
  - injection E1 as <-. split; [lia|done].
  - by apply (IH (od_set s a acc)).
Qed.

(** ** The rotation of the version vector *)

Section rotation.
Context `{FloatRepr}.
Implicit Types items selected : list (string * list (string * pnum)).

Lemma rotate_lookup {A} (l : list A) (c j : nat) :
  (c ≤ length l)%nat → (j < length l)%nat →
  rotate_list c l !! (if decide (c ≤ j) then j - c else length l - c + j)%nat = l !! j.
Proof.
  intros Hc Hj. unfold rotate_list. case_decide as D.
  - rewrite lookup_app_l by (rewrite length_drop; lia). rewrite lookup_drop. f_equal. lia.
  - rewrite lookup_app_r by (rewrite length_drop; lia). rewrite length_drop.
    rewrite lookup_take_lt by lia. f_equal. lia.
Qed.

Lemma rotate_perm {A} (l : list A) c : rotate_list c l ≡ₚ l.
Proof. unfold rotate_list. rewrite Permutation_app_comm. by rewrite take_drop. Qed.

(** The space left for an entry of its own. *)
Definition fits_alone (node : string) (max : Z) (item : string * list (string * pnum)) : Prop :=
  ∃ base c, json_size (vector_payload node []) = Ok base ∧ contribution false item = Ok c ∧
    base + c ≤ max.

Lemma contribution_size some item :
  contribution some item =
  let? o := json_size (versions_val item.2) in
  Ok ((if some then 1 else 0) + size (json_str item.1) + 1 + o).
Proof. unfold contribution. by rewrite json_size_str. Qed.

(** What the loop over the rotated entries returns. *)
Lemma select_entries_spec max k items selected n used considered :
  NoDup (od_keys selected ++ od_keys items) →
  Forall (λ e, is_ok (json_size (versions_val e.2)) = true) items →
  json_size (str_dict versions_val selected) = Ok n → used = k + n →
  (selected ≠ [] → used ≤ max) →
  ∃ selected' taken rest n',
    select_entries max items selected used considered
      = Ok (selected', considered + Z.of_nat (length taken)) ∧
    items = taken ++ rest ∧ (selected = [] → items ≠ [] → taken ≠ []) ∧
    json_size (str_dict versions_val selected') = Ok n' ∧ (selected' ≠ [] → k + n' ≤ max) ∧
    (∀ e, e ∈ selected → e ∈ selected') ∧ (∀ e, e ∈ selected' → e ∈ selected ∨ e ∈ items) ∧
    (∀ e c, e ∈ taken → contribution false e = Ok c → k + 2 + c ≤ max → e ∈ selected').
Proof.
  revert selected n used considered.
  induction items as [|[st o] items IH]; intros selected n used considered Hnd Hok Hn -> Hmax.
  { exists selected, [], [], n. cbn. split_and!; try done; [do 2 f_equal; lia|eauto|].
    intros e c He. by apply elem_of_nil in He. }
  apply Forall_cons in Hok as [Hst Hok]. cbn [snd] in Hst.
  destruct (json_size (versions_val o)) as [so|] eqn:Eo; [|done].
  assert (od_get selected st = None) as Hfresh.
  { apply od_get_none. apply NoDup_app in Hnd as (_ & Hd & _). intros Hin.
    apply (Hd st Hin). cbn. by left. }
  cbn [select_entries]. rewrite contribution_size. cbn [fst snd]. rewrite Eo. cbn [res_bind].
  destruct (size_set versions_val st o selected n so Hn Eo) as (m & Hm & Em).
  rewrite Hfresh in Em.
  set (c := (if match selected with [] => false | _ => true end then 1 else 0) + _ + 1 + so).
  assert (k + n + c = k + m) as Ec.
  { unfold c. rewrite Em. destruct selected; lia. }
  destruct (Z.leb_spec (k + n + c) max) as [Hfit|Hfit].
  - destruct (IH (od_set st o selected) m (k + n + c) (considered + 1))
      as (sel' & taken & rest & n' & E & -> & _ & Hn' & Hb & Hin & Hfrom & Halone).
    + rewrite od_keys_set, decide_False by by apply od_get_none.
      rewrite <- app_assoc. exact Hnd.
    + done.
    + done.
    + done.
    + done.
    + assert (∀ e, e ∈ selected → e ∈ od_set st o selected) as Hsub.
      { intros [k' v'] He. apply od_get_elem. rewrite od_get_set_ne; [|intros ->].
        - apply od_elem_get; [|done]. by apply NoDup_app in Hnd as [Hnd _].
        - apply od_get_none in Hfresh. apply Hfresh. apply list_elem_of_fmap. by exists (k', v'). }
      exists sel', ((st, o) :: taken), rest, n'. split_and!; try done.
      * rewrite E. do 2 f_equal. cbn [length]. lia.
      * eauto.
      * intros e He. destruct (Hfrom e He) as [He'|]; [|right; by right].
        assert (Forall (λ e, e ∈ selected ∨ e ∈ (st, o) :: taken ++ rest) (od_set st o selected)) as HF.
        { apply Forall_od_set; [right; by left|]. apply Forall_forall. eauto. }
        rewrite Forall_forall in HF. by apply HF.
      * intros e c' He Hc Hle. apply elem_of_cons in He as [->|He]; [|by apply (Halone e c')].
        apply Hin, od_get_elem, od_get_set_eq.
  - destruct selected as [|x sel] eqn:Es.
    + destruct (IH [] n (k + n) (considered + 1))
        as (sel' & taken & rest & n' & E & -> & _ & Hn' & Hb & Hin & Hfrom & Halone); try done.
      { apply NoDup_app in Hnd as (_ & _ & Hnd). apply NoDup_cons in Hnd as [_ Hnd]. exact Hnd. }
      exists sel', ((st, o) :: taken), rest, n'. split_and!; try done.
      * rewrite E. do 2 f_equal. cbn [length]. lia.
      * intros e He. destruct (Hfrom e He) as [He'|]; [by left|right; by right].
      * intros e c' He Hc Hle. apply elem_of_cons in He as [->|He]; [|by apply (Halone e c')].
        rewrite contribution_size in Hc. cbn [fst snd] in Hc. rewrite Eo in Hc.
        injection Hc as <-. assert (n = 2) as -> by (by injection Hn as <-).
        exfalso. unfold c in Hfit. lia.
    + exists (x :: sel), [], ((st, o) :: items), n. cbn [length app]. split_and!; try done.
      * do 2 f_equal. lia.
      * eauto.
      * intros e c' He. by apply elem_of_nil in He.
Qed.

(** One call when the whole vector is too large. *)
Lemma bounded_round s vv whole :
  NoDup (od_keys vv) → vv ≠ [] →
  json_size (vector_payload (ms_node_id s) vv) = Ok whole → ms_max_payload s < whole →
  let n := length vv in
  let start := Z.to_nat (ms_cursor s mod Z.of_nat n) in
  ∃ v taken rest,
    bounded_version_vector vv s =
      (Ok v, set_cursor ((Z.of_nat start + Z.of_nat (length taken)) mod Z.of_nat n) s) ∧
    rotate_list start vv = taken ++ rest ∧ taken ≠ [] ∧ (∀ e, e ∈ v → e ∈ vv) ∧
    (v = [] ∨ ∃ m, json_size (vector_payload (ms_node_id s) v) = Ok m ∧ m ≤ ms_max_payload s) ∧
    (∀ e, e ∈ taken → fits_alone (ms_node_id s) (ms_max_payload s) e → e ∈ v).
Proof.
  intros Hnd Hne Hw Hlt n start. set (ov := vector_overhead (ms_node_id s)).
  assert (json_size (vector_payload (ms_node_id s) []) = Ok (ov + 2)) as Hbase
    by (by rewrite vector_payload_size).
  pose proof Hw as Hw'. rewrite vector_payload_size, json_size_str_dict in Hw'.
  destruct (body_size versions_val vv) as [b|] eqn:Eb; [|done].
  pose proof (rotate_perm vv start) as Hp.
  destruct (select_entries_spec (ms_max_payload s) ov (rotate_list start vv) [] 2 (ov + 2) 0)
    as (v & taken & rest & m & E & Er & Ht & Hm & Hb & _ & Hfrom & Halone); try done.
  { cbn [od_keys fmap list_fmap app]. unfold od_keys. by rewrite Hp. }
  { rewrite Hp. by eapply body_size_entries. }
  exists v, taken, rest. split_and!; try done.
  - unfold bounded_version_vector. step_run mget_run.
    step_run (mlift_run _ _ s Hw). rewrite (proj2 (Z.leb_gt _ _)) by done.
    fold n. destruct (Z.eqb_spec (Z.of_nat n) 0) as [E0|E0].
    { destruct vv; [done|]. cbn in E0. lia. }
    step_run (mlift_run _ _ s Hbase). fold start. step_run (mlift_run _ _ s E). step_run mmodify_run.
    cbn [fst snd]. unfold mret. do 3 f_equal. unfold start.
    rewrite Z2Nat.id by (apply Z.mod_pos_bound; lia). lia.
  - apply Ht; [done|]. intros E0. rewrite E0 in Hp. symmetry in Hp. by apply Permutation_nil_r in Hp.
  - intros e He. destruct (Hfrom e He) as [He'|He']; [by apply elem_of_nil in He'|].
    by rewrite Hp in He'.
  - destruct v as [|x v']; [by left|]. right. exists (ov + m). split; [|by apply Hb].
    rewrite vector_payload_size, Hm. done.
  - intros e He (base & c & Hbase' & Hc & Hle). apply (Halone e c); try done.
    rewrite Hbase in Hbase'. injection Hbase' as <-. done.
Qed.

(** Successive calls with the same vector. *)
Fixpoint vector_rounds (n : nat) (vv : list (string * list (string * pnum)))
  : M mesh (list (list (string * list (string * pnum)))) :=
  match n with
  | O => mret []
  | S n => v <- bounded_version_vector vv ;; vs <- vector_rounds n vv ;; mret (v :: vs)
  end.

(** How far the cursor is from an index. *)
Definition distance (s : mesh) (n j : nat) : Z :=
  (Z.of_nat j - ms_cursor s mod Z.of_nat n) mod Z.of_nat n.

Lemma rotate_distance {A} s (l : list A) j x :
  l !! j = Some x →
  rotate_list (Z.to_nat (ms_cursor s mod Z.of_nat (length l))) l
    !! Z.to_nat (distance s (length l) j) = Some x.
Proof.
  intros Hj. pose proof (lookup_lt_Some _ _ _ Hj) as Hlt. set (n := length l) in *.
  pose proof (Z.mod_pos_bound (ms_cursor s) (Z.of_nat n) ltac:(lia)) as Hc.
  unfold distance. set (c := ms_cursor s mod Z.of_nat n) in *.
  rewrite <- Hj. rewrite <- (rotate_lookup l (Z.to_nat c) j) by (fold n; lia). fold n. f_equal.
  case_decide as D.
  - rewrite Z.mod_small by lia. lia.
  - replace (Z.of_nat j - c) with (Z.of_nat j - c + Z.of_nat n + -1 * Z.of_nat n) by lia.
    rewrite Z.mod_add by lia. rewrite Z.mod_small by lia. lia.
Qed.

Definition sound_round (node : string) (max : Z) (vv v : list (string * list (string * pnum))) : Prop :=
  (∀ e, e ∈ v → e ∈ vv) ∧
  (v = [] ∨ ∃ m, json_size (vector_payload node v) = Ok m ∧ m ≤ max).

Lemma vector_rounds_reach k vv s whole :
  NoDup (od_keys vv) → vv ≠ [] → json_size (vector_payload (ms_node_id s) vv) = Ok whole →
  ∃ vs s', vector_rounds k vv s = (Ok vs, s') ∧
    Forall (sound_round (ms_node_id s) (ms_max_payload s) vv) vs ∧
    ∀ j item, vv !! j = Some item → fits_alone (ms_node_id s) (ms_max_payload s) item →
      distance s (length vv) j < Z.of_nat k → ∃ v, v ∈ vs ∧ item ∈ v.
Proof.
  intros Hnd Hne Hw. revert s Hw. induction k as [|k IH]; intros s Hw.
  { exists [], s. split_and!; [done|constructor|]. intros j item Hj _ Hd.
    pose proof (lookup_lt_Some _ _ _ Hj). unfold distance in Hd.
    pose proof (Z.mod_pos_bound (Z.of_nat j - ms_cursor s mod Z.of_nat (length vv))
                  (Z.of_nat (length vv)) ltac:(lia)). lia. }
  cbn [vector_rounds]. destruct (Z.le_gt_cases whole (ms_max_payload s)) as [Hle|Hgt].
  - assert (bounded_version_vector vv s = (Ok vv, s)) as E.
    { unfold bounded_version_vector. step_run mget_run. step_run (mlift_run _ _ s Hw).
      by rewrite (proj2 (Z.leb_le _ _)). }
    step_run E. destruct (IH s Hw) as (vs & s' & Er & Hs & _). step_run Er.
    exists (vv :: vs), s'. split; [done|]. split.
    + constructor; [|done]. split; [done|]. right. by exists whole.
    + intros j item Hj _ _. exists vv. split; [by left|]. by eapply list_elem_of_lookup_2.
  - destruct (bounded_round s vv whole Hnd Hne Hw Hgt) as (v & taken & rest & E & Er & Ht & Hv & Hb & Ha).
    step_run E. set (c := (_ + _) mod _). destruct (IH (set_cursor c s) Hw) as (vs & s' & E' & Hs & Hreach).
    step_run E'. exists (v :: vs), s'. split; [done|]. split; [by constructor|].
    intros j item Hj Hf Hd. pose proof (rotate_distance s vv j item Hj) as Hr.
    pose proof (lookup_lt_Some _ _ _ Hj) as Hlt. set (n := length vv) in *.
    assert (0 ≤ distance s n j < Z.of_nat n) as Hdist by (unfold distance; apply Z.mod_pos_bound; lia).
    destruct (Z.lt_ge_cases (distance s n j) (Z.of_nat (length taken))) as [Hin|Hout].
    + exists v. split; [by left|]. apply Ha; [|done]. rewrite Er in Hr.
      rewrite lookup_app_l in Hr by lia. by eapply list_elem_of_lookup_2.
    + destruct (Hreach j item Hj Hf) as (v' & Hv' & Hi); [|exists v'; split; [by right|done]].
      assert (0 < length taken)%nat by (destruct taken; [done|cbn; lia]).
      enough (distance (set_cursor c s) n j = distance s n j - Z.of_nat (length taken)) by lia.
      unfold distance at 1. cbn [ms_cursor set_cursor]. unfold c.
      pose proof (Z.mod_pos_bound (ms_cursor s) (Z.of_nat n) ltac:(lia)).
      rewrite Z2Nat.id by lia. unfold distance in *. rewrite Z.mod_mod by lia.
      rewrite Zminus_mod_idemp_r. rewrite Z.sub_add_distr.
      rewrite <- Zminus_mod_idemp_l. by rewrite Z.mod_small by lia.
Qed.
End rotation.

(** ** Batches *)

Section batches.
Context `{FloatRepr} (s : mesh) (registry : list local_stream).
Context (post : list (string * list (string * pyval)) → option exn).

Definition batch : Type := list (string * list (string * pyval)).

Definition batch_fits (b : batch) : Prop :=
  ∃ n, json_size (sync_val (ms_node_id s) b) = Ok n ∧ n ≤ ms_max_payload s.

(** What the node holds for a requested origin. *)
Definition request_data (st nid : string) : option pyval :=
  if decide (nid = ms_node_id s) then local_data s registry st else peer_data s st nid.

Definition batch_held (b : batch) : Prop :=
  ∀ st nid data, od_get (group b st) nid = Some data → request_data st nid = Some data.

Record sync_ok (q : sync) : Prop := {
  so_posted : Forall (λ b, batch_fits b ∧ batch_held b) (sy_posted q);
  so_filling : sy_streams q = [] ∨ batch_fits (sy_streams q) ∧ batch_held (sy_streams q)
}.

Lemma batch_held_nil : batch_held [].
Proof. intros st nid data. done. Qed.

Lemma so_held q : sync_ok q → batch_held (sy_streams q).
Proof. intros [_ [->|[_ ?]]]; [apply batch_held_nil|done]. Qed.

Lemma batch_held_set st nid data b :
  request_data st nid = Some data → batch_held b → batch_held (group_set st nid data b).
Proof.
  intros Hd Hb st' nid' data'. rewrite group_set_get. case_decide as E; [|apply Hb]. subst st'.
  rewrite od_get_set. case_decide as E; [|apply Hb]. subst nid'. by intros [= <-].
Qed.

(** Sent: in a batch that was posted, or in the one being filled. *)
Definition sent (st nid : string) (data : pyval) (q : sync) : Prop :=
  ∃ b, (b ∈ sy_posted q ∨ b = sy_streams q) ∧ od_get (group b st) nid = Some data.

Lemma flush_sync_ok : preserves sync_ok (flush_sync post).
Proof.
  intros q Ok. unfold flush_sync. step_run mget_run.
  destruct (sy_streams q) as [|e b] eqn:Eb; [done|].
  destruct (post (e :: b)); [done|]. unfold mmodify. cbn [snd].
  destruct (so_filling q Ok) as [E|E]; [by rewrite Eb in E|]. rewrite Eb in E.
  constructor; cbn; [|by left]. apply Forall_app. split; [apply Ok|]. by constructor.
Qed.

Lemma flush_sync_sent st nid data :
  preserves (sent st nid data) (flush_sync post).
Proof.
  intros q (b & Hb & Hd). unfold flush_sync. step_run mget_run.
  destruct (sy_streams q) as [|e b'] eqn:Eb; [exists b; split; [cbn; by rewrite Eb|exact Hd]|].
  destruct (post (e :: b')); [exists b; split; [cbn; by rewrite Eb|exact Hd]|]. unfold mmodify. cbn [snd].
  exists b. split; [|done]. left. cbn. apply elem_of_app.
  destruct Hb as [Hb| ->]; [by left|right]. by apply list_elem_of_singleton.
Qed.

Lemma queue_ok st nid data :
  request_data st nid = Some data →
  preserves sync_ok (queue_sync_update (ms_node_id s) (ms_max_payload s) post st nid data).
Proof.
  intros Hd q Ok. unfold queue_sync_update. step_run mget_run. unfold mbind at 1, mlift at 1.
  destruct (json_size _) as [n|] eqn:En; [|done].
  destruct (Z.ltb_spec (ms_max_payload s) n) as [Hlt|Hle].
  - pose proof (flush_sync_ok q Ok) as Ok1. unfold mbind at 1.
    destruct (flush_sync post q) as [[u|e] q1]; [|done]. cbn [snd] in Ok1.
    unfold mbind, mlift. destruct (json_size (sync_val _ [_])) as [m|] eqn:Em; [|done].
    destruct (Z.ltb_spec (ms_max_payload s) m); [done|]. cbn [snd mmodify].
    constructor; cbn [sy_posted sy_streams]; [apply Ok1|]. right. split; [by exists m|].
    apply (batch_held_set st nid data []); [done|apply batch_held_nil].
  - cbn [snd mmodify]. constructor; cbn [sy_posted sy_streams]; [apply Ok|].
    right. split; [by exists n|]. apply batch_held_set; [done|by apply so_held].
Qed.

Lemma queue_sent st nid data st' nid' data' :
  request_data st nid = Some data → request_data st' nid' = Some data' →
  preserves (λ q, sync_ok q ∧ sent st' nid' data' q)
    (queue_sync_update (ms_node_id s) (ms_max_payload s) post st nid data).
Proof.
  intros Hd Hd' q [Ok Hs]. split; [by apply queue_ok|].
  unfold queue_sync_update. step_run mget_run. unfold mbind at 1, mlift at 1.
  destruct (json_size _) as [n|] eqn:En; [|done].
  destruct (Z.ltb_spec (ms_max_payload s) n) as [Hlt|Hle].
  - pose proof (flush_sync_sent st' nid' data' q Hs) as Hs1. unfold mbind at 1.
    unfold flush_sync in *. unfold mbind, mget in *.
    destruct (sy_streams q) as [|e b] eqn:Eb.
    + cbn [fst snd mret] in *. unfold mlift. destruct (json_size (sync_val _ [_])) as [m|]; [|done].
      destruct (ms_max_payload s <? m); [done|]. cbn [snd mmodify].
      destruct Hs1 as (b & [Hb| ->] & Hb'); [exists b; split; [by left|done]|].
      rewrite Eb in Hb'. done.
    + destruct (post (e :: b)); [done|]. cbn [snd mmodify] in *. unfold mlift.
      destruct (json_size (sync_val _ [_])) as [m|]; [|done].
      destruct (ms_max_payload s <? m); [done|]. cbn [snd mmodify].
      destruct Hs1 as (b1 & [Hb| ->] & Hb'); [exists b1; split; [by left|done]|]. done.
  - cbn [snd mmodify]. destruct Hs as (b & [Hb| ->] & Hb'); [exists b; split; [by left|done]|].
    exists (group_set st nid data (sy_streams q)). split; [by right|].
    rewrite group_set_get. case_decide as E; [|done]. subst st'. rewrite od_get_set.
    case_decide as E; [|done]. subst nid'. congruence.
Qed.

Lemma answer_requests_ok requests : preserves sync_ok (answer_requests s registry post requests).
Proof.
  unfold answer_requests. apply preserves_bind; [|intros _; apply flush_sync_ok].
  assert (∀ x, preserves sync_ok (mret (S := sync) (x : unit))) as Hret
    by (intros x; by apply preserves_readonly).
  apply preserves_for. intros [k v]. cbn [fst snd]. destruct k; try apply Hret.
  destruct (as_list v) as [nids|]; [|apply Hret]. destruct (valid_stream_key _); [|apply Hret].
  apply preserves_for. intros nid. unfold answer_request.
  destruct (as_identifier nid) as [n|]; [|apply Hret].
  pose proof (λ data, queue_ok s0 n data) as Hq. unfold request_data in Hq. case_decide.
  - apply preserves_try; [|apply Hret]. destruct (local_data _ _ _); [by apply Hq|apply Hret].
  - destruct (peer_data _ _ _); [by apply Hq|apply Hret].
Qed.

(** *** Nothing is left behind when no request fails *)

Context (Hpost : ∀ b, post b = None).
Context (Hsized : ∀ st nid data, request_data st nid = Some data → is_ok (json_size data) = true).

Definition sized (b : batch) : Prop := is_ok (json_size (str_dict updates_val b)) = true.

Lemma sync_val_size b :
  sized b → ∃ n, json_size (sync_val (ms_node_id s) b) = Ok n.
Proof.
  unfold sized, sync_val. cbn [json_size key_size res_bind].
  change (json_size (str_dict updates_val b)) with (json_size (str_dict updates_val b)).
  destruct (json_size (str_dict updates_val b)) as [n|]; [|done]. intros _. cbn. eauto.
Qed.

Lemma sized_group b st : sized b → ∃ n, json_size (updates_val (group b st)) = Ok n.
Proof.
  unfold sized, group. rewrite json_size_str_dict.
  destruct (body_size updates_val b) as [n|] eqn:Eb; [|done]. intros _.
  apply body_size_entries in Eb. destruct (od_get b st) as [g|] eqn:Eg; [|by exists 2].
  apply od_get_elem in Eg. rewrite Forall_forall in Eb. apply Eb in Eg. cbn [snd] in Eg.
  cbn [default]. unfold id. destruct (json_size (updates_val g)); [eauto|done].
Qed.

Lemma sized_set b st nid data :
  sized b → is_ok (json_size data) = true → sized (group_set st nid data b).
Proof.
  intros Hb Hd. destruct (json_size data) as [c|] eqn:Ec; [|done].
  destruct (sized_group b st Hb) as [n Hn].
  destruct (size_set id nid data (group b st) n c Hn Ec) as (m & Hm & _).
  unfold sized in *. destruct (json_size (str_dict updates_val b)) as [k|] eqn:Ek; [|done].
  destruct (size_set updates_val st _ b k m Ek Hm) as (m' & Hm' & _).
  unfold group_set. by rewrite Hm'.
Qed.

Lemma flush_run q :
  ∃ q', flush_sync post q = (Ok (), q') ∧ sy_streams q' = [] ∧
    ∀ st nid data, sent st nid data q → sent st nid data q'.
Proof using Hpost.
  assert (∀ st nid data, sent st nid data q → sent st nid data (snd (flush_sync post q))) as Hs
    by (intros st nid data; apply flush_sync_sent).
  unfold flush_sync in *. unfold mbind, mget in *. destruct (sy_streams q) as [|e b] eqn:E.
  - eexists. split; [done|]. done.
  - rewrite Hpost in *. eexists. split; [done|]. done.
Qed.

Lemma queue_run q st nid data :
  request_data st nid = Some data → sized (sy_streams q) →
  ∃ q', queue_sync_update (ms_node_id s) (ms_max_payload s) post st nid data q = (Ok (), q') ∧
    sized (sy_streams q') ∧ (batch_fits [(st, [(nid, data)])] → sent st nid data q').
Proof using Hpost Hsized.
  intros Hd Hq. apply Hsized in Hd. unfold queue_sync_update. step_run mget_run.
  pose proof (sized_set _ st nid data Hq Hd) as Hc. destruct (sync_val_size _ Hc) as [n Hn].
  step_run (mlift_run _ _ q Hn).
  assert (sent st nid data (mk_sync (group_set st nid data (sy_streams q)) (sy_posted q))) as Hsent.
  { eexists. split; [by right|]. cbn [sy_streams]. rewrite group_set_get, decide_True by done. by rewrite od_get_set_eq. }
  destruct (Z.ltb_spec (ms_max_payload s) n) as [Hlt|Hle]; [|by eexists].
  destruct (flush_run q) as (q1 & E1 & Hempty & _). step_run E1.
  pose proof (sized_set [] st nid data eq_refl Hd) as Ha. destruct (sync_val_size _ Ha) as [m Hm].
  change (group_set st nid data []) with [(st, [(nid, data)])] in *.
  step_run (mlift_run _ _ q1 Hm). destruct (Z.ltb_spec (ms_max_payload s) m) as [Hlt'|Hle'].
  - eexists. split; [done|]. rewrite Hempty. split; [done|]. intros (k & Hk & Hfit).
    rewrite Hm in Hk. injection Hk as <-. lia.
  - eexists. split; [done|]. split; [done|]. intros _. exists [(st, [(nid, data)])].
    split; [by right|]. unfold group. cbn. rewrite decide_True by done. cbn. by rewrite decide_True.
Qed.

Lemma answer_request_run q st nid :
  sync_ok q → sized (sy_streams q) →
  ∃ q', answer_request s registry post st nid q = (Ok (), q') ∧ sync_ok q' ∧ sized (sy_streams q') ∧
    (∀ st' nid' data', request_data st' nid' = Some data' → sent st' nid' data' q → sent st' nid' data' q') ∧
    (∀ n data, as_identifier nid = Some n → request_data st n = Some data →
       batch_fits [(st, [(n, data)])] → sent st n data q').
Proof using Hpost Hsized.
  intros Ok Hq. unfold answer_request. destruct (as_identifier nid) as [n|]; [|by exists q; split_and!].
  assert (∀ data, request_data st n = Some data → ∃ q',
    queue_sync_update (ms_node_id s) (ms_max_payload s) post st n data q = (Prelude.Ok (), q') ∧
    sync_ok q' ∧ sized (sy_streams q') ∧
    (∀ st' nid' data', request_data st' nid' = Some data' → sent st' nid' data' q → sent st' nid' data' q') ∧
    (∀ n' data', Some n = Some n' → request_data st n' = Some data' →
       batch_fits [(st, [(n', data')])] → sent st n' data' q')) as Hrun.
  { intros data Hd. destruct (queue_run q st n data Hd Hq) as (q' & E & Hs & Hf).
    exists q'. pose proof (queue_ok st n data Hd q Ok) as Ok'. rewrite E in Ok'. split_and!; try done.
    - intros st' nid' data' Hd' Hsent.
      pose proof (queue_sent st n data st' nid' data' Hd Hd' q (conj Ok Hsent)) as [_ H1].
      by rewrite E in H1.
    - intros n' data' [= <-] Hd'. rewrite Hd in Hd'. by injection Hd' as <-. }
  unfold request_data in Hrun. unfold request_data at 2.
  case_decide as D.
  - destruct (local_data s registry st) as [data|].
    + destruct (Hrun data eq_refl) as (q' & E & H1 & H2 & H3 & H4). exists q'. split_and!; try done.
      unfold mtry. by rewrite E.
    + exists q. split_and!; try done. intros n' data' [= <-]. by rewrite decide_True.
  - destruct (peer_data s st n) as [data|] eqn:Ep.
    + destruct (Hrun data eq_refl) as (q' & E & H1 & H2 & H3 & H4). exists q'. split_and!; try done.
    + exists q. split_and!; try done. intros n' data' [= <-]. rewrite decide_False by done. congruence.
Qed.

(** Handling a list of requests, one by one. *)
Definition asked (requests : pydict) (st : string) (n : string) : Prop :=
  ∃ nids nid, (VStr st, VList nids) ∈ requests ∧ valid_stream_key (VStr st) = true ∧
    nid ∈ nids ∧ as_identifier nid = Some n.

Definition progress (q q' : sync) : Prop :=
  sync_ok q' ∧ sized (sy_streams q') ∧
  ∀ st nid data, request_data st nid = Some data → sent st nid data q → sent st nid data q'.

Lemma for_run {A} (xs : list A) (body : A → M sync unit) (want : A → string → string → Prop) q :
  (∀ x q, sync_ok q → sized (sy_streams q) → ∃ q', body x q = (Ok (), q') ∧ progress q q' ∧
     ∀ st n data, want x st n → request_data st n = Some data → batch_fits [(st, [(n, data)])] →
       sent st n data q') →
  sync_ok q → sized (sy_streams q) →
  ∃ q', mfor xs body q = (Ok (), q') ∧ progress q q' ∧
    ∀ x st n data, x ∈ xs → want x st n → request_data st n = Some data →
      batch_fits [(st, [(n, data)])] → sent st n data q'.
Proof using Type.
  intros Hb. revert q. induction xs as [|x xs IH]; intros q Ok Hq.
  { exists q. split_and!; try done. intros x st n data Hx. by apply elem_of_nil in Hx. }
  cbn [mfor]. destruct (Hb x q Ok Hq) as (q1 & E1 & (Ok1 & Hq1 & Hs1) & Hw1). step_run E1.
  destruct (IH q1 Ok1 Hq1) as (q2 & E2 & (Ok2 & Hq2 & Hs2) & Hw2). exists q2.
  split; [done|]. split; [split_and!; try done; eauto|].
  intros y st n data [->|Hy]%elem_of_cons Hw Hd Hf; [|by eapply Hw2].
  apply Hs2; [done|]. by apply Hw1.
Qed.

Lemma answer_requests_run requests q :
  sync_ok q → sized (sy_streams q) →
  ∃ q', answer_requests s registry post requests q = (Ok (), q') ∧ sync_ok q' ∧
    ∀ st n data, asked requests st n → request_data st n = Some data →
      batch_fits [(st, [(n, data)])] →
      ∃ b, b ∈ sy_posted q' ∧ od_get (group b st) n = Some data.
Proof using Hpost Hsized.
  intros Ok Hq. unfold answer_requests.
  set (body := λ e : pyval * pyval, _ : M sync unit).
  destruct (for_run requests body (λ e st n, asked [e] st n) q) as (q1 & E1 & (Ok1 & Hq1 & _) & Hw1); [|done|done|].
  { clear q Ok Hq. intros [k v] q Ok Hq. unfold body. cbn [fst snd].
    assert (∀ e : pyval * pyval, (∀ st n, ¬ asked [e] st n) →
      ∃ q', mret (S := sync) () q = (Prelude.Ok (), q') ∧ progress q q' ∧
      ∀ st n data, asked [e] st n → request_data st n = Some data →
        batch_fits [(st, [(n, data)])] → sent st n data q') as Hskip.
    { intros e Hno. exists q. split_and!; try done. intros st n data Ha. by destruct (Hno st n). }
    destruct k; try (apply Hskip; intros st n (l0 & x & Hin & _); apply list_elem_of_singleton in Hin; by simplify_eq).
    destruct v; try (apply Hskip; intros st n (l0 & x & Hin & _); apply list_elem_of_singleton in Hin; by simplify_eq).
    cbn [as_list]. destruct (valid_stream_key (VStr s0)) eqn:Ek.
    2:{ apply Hskip. intros st n (l' & x & Hin & Hk & _). apply list_elem_of_singleton in Hin. simplify_eq. congruence. }
    destruct (for_run l (answer_request s registry post s0)
      (λ x st n, st = s0 ∧ as_identifier x = Some n) q) as (q' & E & Hp & Hw); try done.
    - intros x q1 Ok1 Hq1. destruct (answer_request_run q1 s0 x Ok1 Hq1) as (q2 & E2 & H1 & H2 & H3 & H4).
      exists q2. split_and!; try done. intros st n data [-> Hn]. by apply H4.
    - exists q'. split_and!; try done. intros st n data (l' & x & Hin & _ & Hx & Hn).
      apply list_elem_of_singleton in Hin. simplify_eq. intros Hd Hf. apply (Hw x); done. }
  step_run E1. destruct (flush_run q1) as (q2 & E2 & Hempty & Hkeep).
  exists q2. split; [done|]. pose proof (flush_sync_ok q1 Ok1) as Ok2. rewrite E2 in Ok2.
  split; [done|]. intros st n data (nids & nid & Hin & Hk & Hx & Hn) Hd Hf.
  destruct (Hkeep st n data) as (b & [Hb| ->] & Hb').
  - apply (Hw1 (VStr st, VList nids)); try done. exists nids, nid. split_and!; try done.
    by apply list_elem_of_singleton.
  - by exists b.
  - rewrite Hempty in Hb'. done.
Qed.
End batches.

(** ** Properties *)

(** C14. Answers to digests.  For any payload and any state the answer of
    [handle_gossip_digest] has exactly the size the code accounted for while
    building it, so it fits the payload limit (or is the empty answer). *)
Theorem digest_answer_fits `{FloatRepr} s registry payload a :
  0 ≤ ms_max_payload s → handle_gossip_digest s registry payload = Ok a →
  json_size (answer_val (ms_node_id s) a) = Ok (an_size a) ∧
  (an_size a ≤ ms_max_payload s ∨ an_updates a = [] ∧ an_requests a = []).
Proof.
  intros Hpos E. destruct (handle_gossip_digest_ok s registry payload a Hpos E)
    as (remote & versions & _ & _ & Ok).
  split; [|apply Ok]. destruct (ao_size _ _ _ _ Ok) as (u & r & Hu & Hr & ->).
  by apply answer_val_size.
Qed.

(** What a digest exchanges.  The versions of the payload are read within
    the capacities; every origin the answer requests belongs to another node
    and is newer there than both the snapshot and the tombstone held here; and
    every update sent is something the node holds, strictly newer than the
    version the payload reports. *)
Theorem digest_answer_newer `{FloatRepr} s registry payload a :
  0 ≤ ms_max_payload s → handle_gossip_digest s registry payload = Ok a →
  ∃ remote versions,
    as_dict (default (VDict []) (dict_get payload "versions")) = Some remote ∧
    normalize_versions remote [] = Ok versions ∧
    (Z.of_nat (length versions) ≤ MAX_PEER_STREAMS ∧
     ∀ e, e ∈ versions → Z.of_nat (length e.2) ≤ MAX_ORIGINS_PER_STREAM) ∧
    (∀ st nid, nid ∈ default [] (od_get (an_requests a) st) → wanted s versions st nid) ∧
    (∀ st nid data, od_get (group (an_updates a) st) nid = Some data →
       ∃ v, pn_lt (remote_version versions st nid) v = true ∧ offered s registry st nid v data).
Proof.
  intros Hpos E. destruct (handle_gossip_digest_ok s registry payload a Hpos E)
    as (remote & versions & Er & Ev & Ok).
  exists remote, versions. split_and!; try done; try apply Ok;
    eapply (normalize_versions_bound remote []); try done; intros e He; by apply elem_of_nil in He.
Qed.

(** C15. Rotation.  Whatever the cursor, as many rounds of
    [_bounded_version_vector] as the vector has streams all succeed, each
    within the payload limit and with entries of the vector only, and together
    they offer every stream whose entry fits the limit on its own: no stream
    starves behind larger ones. *)
Theorem version_vector_rotation `{FloatRepr} vv s whole :
  NoDup (od_keys vv) → vv ≠ [] → json_size (vector_payload (ms_node_id s) vv) = Ok whole →
  ∃ vs s', vector_rounds (length vv) vv s = (Ok vs, s') ∧
    Forall (sound_round (ms_node_id s) (ms_max_payload s) vv) vs ∧
    ∀ item, item ∈ vv → fits_alone (ms_node_id s) (ms_max_payload s) item →
      ∃ v, v ∈ vs ∧ item ∈ v.
Proof.
  intros Hnd Hne Hw. destruct (vector_rounds_reach (length vv) vv s whole Hnd Hne Hw)
    as (vs & s' & E & Hs & Hr).
  exists vs, s'. split_and!; try done. intros item Hi Hf.
  apply list_elem_of_lookup in Hi as [j Hj]. apply (Hr j); try done.
  pose proof (lookup_lt_Some _ _ _ Hj). unfold distance. apply Z.mod_pos_bound. lia.
Qed.

(** Answering requests.  Whatever the outcomes of the posts, every batch
    posted by a gossip round fits the payload limit and carries only what the
    node holds for the origins asked for; and when the posts go through and
    the data can be written as JSON, every requested origin whose data fits a
    message of its own is in one of the batches. *)
Theorem requested_data_sent `{FloatRepr} s registry post requests :
  Forall (λ b, batch_fits s b ∧ batch_held s registry b)
    (sy_posted (exec (answer_requests s registry post requests) (mk_sync [] []))) ∧
  ((∀ b, post b = None) →
   (∀ st nid data, request_data s registry st nid = Some data → is_ok (json_size data) = true) →
   result (answer_requests s registry post requests) (mk_sync [] []) = Ok () ∧
   ∀ st n data, asked requests st n → request_data s registry st n = Some data →
     batch_fits s [(st, [(n, data)])] →
     ∃ b, b ∈ sy_posted (exec (answer_requests s registry post requests) (mk_sync [] [])) ∧
       od_get (group b st) n = Some data).
Proof.
  assert (sync_ok s registry (mk_sync [] [])) as Ok by (split; [constructor|by left]). split.
  - apply (answer_requests_ok s registry post requests _ Ok).
  - intros Hpost Hsized.
    destruct (answer_requests_run s registry post Hpost Hsized requests (mk_sync [] []) Ok eq_refl)
      as (q & E & _ & Hq).
    unfold result, exec. rewrite E. by split.
Qed.

(** ** Witnesses *)

Definition demo_repr : FloatRepr := λ _, "1700000000.5".

Definition gossip_node : mesh :=
  mk_mesh "node-a" "" [] 60 1024 10 0 [("node-a", mk_member (Some (VStr "")) SAlive 0 0 false)]
    [] [(stream_key "ns" "s", [("node-b", PInt 7); ("node-c", PInt 9)])]
    [(stream_key "ns" "t", 5%float)] 3 0.

Definition digest_payload : pydict :=
  [(VStr "node_id", VStr "node-d");
   (VStr "versions", VDict [(VStr (stream_key "ns" "s"),
      VDict [(VStr "node-b", VInt 8); (VStr "node-c", VInt 2)])])].

Definition gossip_answer : answer :=
  mk_answer [(stream_key "ns" "t", [("node-a", tombstone_data (PFlt 5))]);
             (stream_key "ns" "s", [("node-c", tombstone_data (PInt 9))])]
    [(stream_key "ns" "s", ["node-b"])] 221.

Lemma gossip_answer_run :
  handle_gossip_digest (H := demo_repr) gossip_node [] digest_payload = Ok gossip_answer.
Proof. vm_compute. reflexivity. Qed.

Lemma digest_answer_fits_witness :
  json_size (H := demo_repr) (answer_val "node-a" gossip_answer) = Ok 221.
Proof.
  apply (digest_answer_fits (H := demo_repr) gossip_node [] digest_payload gossip_answer);
    [vm_compute; discriminate|apply gossip_answer_run].
Defined.

Lemma digest_answer_newer_witness :
  ∃ versions v, pn_lt (remote_version versions (stream_key "ns" "s") "node-c") v = true ∧
    offered gossip_node [] (stream_key "ns" "s") "node-c" v (tombstone_data (PInt 9)).
Proof.
  destruct (digest_answer_newer (H := demo_repr) gossip_node [] digest_payload gossip_answer)
    as (remote & versions & _ & _ & _ & _ & Hu);
    [vm_compute; discriminate|apply gossip_answer_run|].
  destruct (Hu (stream_key "ns" "s") "node-c" (tombstone_data (PInt 9))) as (v & Hv & Ho).
  - vm_compute. reflexivity.
  - exists versions, v. split; [exact Hv|exact Ho].
Defined.

(** Thirty streams, of which the limit admits a part at a time. *)
Definition many_streams : list (string * list (string * pnum)) :=
  (λ n, (stream_key "namespace" (str_of_Z (Z.of_nat n)), [("node-b", PInt 1)])) <$> seq 0 30.

Lemma version_vector_rotation_witness :
  ∃ vs s', vector_rounds (H := demo_repr) (length many_streams) many_streams gossip_node = (Ok vs, s') ∧
    ∃ v, v ∈ vs ∧ (stream_key "namespace" "29", [("node-b", PInt 1)]) ∈ v.
Proof.
  assert (json_size (H := demo_repr) (vector_payload (ms_node_id gossip_node) many_streams) = Ok 1193)
    as Hw by (vm_compute; reflexivity).
  destruct (version_vector_rotation (H := demo_repr) many_streams gossip_node 1193)
    as (vs & s' & E & _ & Hr); [|done|exact Hw|].
  - apply (bool_decide_unpack _). vm_compute. exact I.
  - exists vs, s'. split; [exact E|]. apply Hr.
    + apply (list_elem_of_lookup_2 _ 29). vm_compute. reflexivity.
    + eexists _, _. split; [vm_compute; reflexivity|]. split; [vm_compute; reflexivity|].
      vm_compute. discriminate.
Defined.

Lemma gossip_node_data st nid data :
  request_data gossip_node [] st nid = Some data → is_ok (json_size (H := demo_repr) data) = true.
Proof.
  unfold request_data, local_data, peer_data, group.
  cbn [ms_node_id ms_local ms_snapshots ms_tombstones gossip_node od_get default].
  destruct (decide (nid = _)).
  - destruct (parse_key st) as [[ns name]|]; [|done].
    destruct (decide (stream_key "ns" "t" = st)); by intros [= <-].
  - destruct (decide (stream_key "ns" "s" = st)); unfold default, id, od_get;
      [|by intros [= <-]].
    destruct (decide ("node-b" = nid)); [by intros [= <-]|].
    destruct (decide ("node-c" = nid)); by intros [= <-].
Qed.

Lemma requested_data_sent_witness :
  ∃ b, b ∈ sy_posted (exec (answer_requests (H := demo_repr) gossip_node [] (λ _, None)
      [(VStr (stream_key "ns" "s"), VList [VStr "node-b"])]) (mk_sync [] [])) ∧
    od_get (group b (stream_key "ns" "s")) "node-b" = Some (tombstone_data (PInt 7)).
Proof.
  destruct (requested_data_sent (H := demo_repr) gossip_node [] (λ _, None)
    [(VStr (stream_key "ns" "s"), VList [VStr "node-b"])]) as [_ Hc].
  destruct (Hc (λ _, eq_refl)) as [_ Ha].
  - exact gossip_node_data.
  - apply Ha.
    + eexists _, _. split; [by left|]. split; [vm_compute; reflexivity|]. split; [by left|].
      vm_compute. reflexivity.
    + vm_compute. reflexivity.
    + eexists. split; [vm_compute; reflexivity|]. vm_compute. discriminate.
Defined.
