(* ===== verification/Rbac.v ===== *)
(** * Access control and audit log ([rbac.py])

    Roles, grants, the first-match lookup of a token, the namespace and
    permission tests, and [RBACEnforcer.check], which appends exactly one
    audit event per decision to the log.  The HMAC of an audit event is a
    parameter (a library function the source calls).  Proved: the decision
    table of [check], that access is denied by default, and that the audit log
    records every decision with its outcome. *)

From Stdlib Require Import String Ascii.
From S2P Require Import Prelude.

#[local] Open Scope Z_scope.
#[local] Open Scope py_scope.

(** ** Roles and permissions *)

Inductive Role := ADMIN | INGEST | READ | READ_WRITE.
Inductive Permission := PIngest | PQuery | PAdmin.

#[export] Instance Role_eq_dec : EqDecision Role.
Proof. solve_decision. Defined.
#[export] Instance Permission_eq_dec : EqDecision Permission.
Proof. solve_decision. Defined.

Definition role_value (r : Role) : string :=
  match r with
  | ADMIN => "admin" | INGEST => "ingest" | READ => "read"
  | READ_WRITE => "read_write"
  end.
Definition permission_value (p : Permission) : string :=
  match p with PIngest => "ingest" | PQuery => "query" | PAdmin => "admin" end.

(** [Role(value)]: the member with that value. *)
Definition role_of_value (s : string) : option Role :=
  if decide (s = "admin") then Some ADMIN
  else if decide (s = "ingest") then Some INGEST
  else if decide (s = "read") then Some READ
  else if decide (s = "read_write") then Some READ_WRITE
  else None.

(** [_ROLE_PERMISSIONS] *)
Definition ROLE_PERMISSIONS (r : Role) : list Permission :=
  match r with
  | ADMIN => [PIngest; PQuery; PAdmin]
  | INGEST => [PIngest]
  | READ => [PQuery]
  | READ_WRITE => [PIngest; PQuery]
  end.

Definition WILDCARD : string := "*".

(** ** Grants *)

Record TokenGrant := mk_grant {
  tg_token_id : string;
  tg_role : Role;
  tg_namespaces : list string
}.

(** [TokenGrant(token_id, role, namespaces)] with a role given by value; the
    constructor checks what the types leave open. *)
Definition make_grant (token_id role : string) (namespaces : list string)
  : res TokenGrant :=
  let blank := is_blank token_id in
  match role_of_value role with
  | Some r =>
      if blank then Raise (ValueError "TokenGrant errors")
      else Ok (mk_grant token_id r namespaces)
  | None => Raise (ValueError "TokenGrant errors")
  end.

Definition allows_namespace (g : TokenGrant) (namespace : string) : bool :=
  match tg_namespaces g with
  | [] => bool_decide (tg_role g = ADMIN)
  | _ => bool_decide (namespace ∈ tg_namespaces g)
         || bool_decide (WILDCARD ∈ tg_namespaces g)
  end.

Definition has_permission (g : TokenGrant) (permission : Permission) : bool :=
  bool_decide (permission ∈ ROLE_PERMISSIONS (tg_role g)).

Record RBACConfig := mk_config {
  rc_grants : list TokenGrant;
  rc_audit_file : option string;
  rc_audit_hmac_key : string;
  rc_audit_syslog : bool;
  rc_enabled : bool
}.

(** The first grant of the token. *)
Fixpoint find_grant (grants : list TokenGrant) (token_id : string)
  : option TokenGrant :=
  match grants with
  | [] => None
  | g :: gs => if decide (tg_token_id g = token_id) then Some g
               else find_grant gs token_id
  end.
Definition token_grant (c : RBACConfig) (token_id : string) : option TokenGrant :=
  find_grant (rc_grants c) token_id.

(** ** The audit log *)

(** The fields the integrity tag covers. *)
Record audit_payload := mk_payload {
  ap_ts : Z;
  ap_token_id : string;
  ap_action : string;
  ap_namespace : string;
  ap_stream : string;
  ap_result : string;
  ap_reason : string;
  ap_role : option string
}.

Record AuditEvent := mk_event {
  ae_payload : audit_payload;
  ae_hmac_tag : option string
}.

(** The enforcer: its configuration, the wall clock, and the lines the audit
    logger has written (to its file, to syslog or to standard output). *)
Record enforcer := mk_enforcer {
  en_config : RBACConfig;
  en_clock : Z;
  en_log : list AuditEvent
}.

Section Rbac.
(** [hmac.new(key, payload, sha256).hexdigest()] *)
Variable hmac_hexdigest : string → audit_payload → string.

Definition compute_hmac (c : RBACConfig) (payload : audit_payload) : option string :=
  if decide (rc_audit_hmac_key c = "") then None
  else Some (hmac_hexdigest (rc_audit_hmac_key c) payload).

Definition audit_log (token_id action namespace stream result reason : string)
    (role : option string) : M enforcer AuditEvent :=
  e <- mget ;;
  let base := mk_payload (en_clock e) token_id action namespace stream
                result reason role in
  let event := mk_event base (compute_hmac (en_config e) base) in
  mmodify (λ e, mk_enforcer (en_config e) (en_clock e) (en_log e ++ [event])) ;;;
  mret event.

Definition check (token_id : string) (permission : Permission)
    (namespace stream : string) : M enforcer bool :=
  e <- mget ;;
  let action := permission_value permission in
  if negb (rc_enabled (en_config e)) then
    audit_log token_id action namespace stream "ALLOW" "rbac_disabled" None ;;;
    mret true
  else
    match token_grant (en_config e) token_id with
    | None =>
        audit_log token_id action namespace stream "DENY" "unknown_token" None ;;;
        mret false
    | Some grant =>
        let role := Some (role_value (tg_role grant)) in
        if negb (allows_namespace grant namespace) then
          audit_log token_id action namespace stream
            "DENY" "namespace_not_allowed" role ;;;
          mret false
        else if negb (has_permission grant permission) then
          audit_log token_id action namespace stream
            "DENY" "permission_not_granted" role ;;;
          mret false
        else
          audit_log token_id action namespace stream "ALLOW" "ok" role ;;;
          mret true
    end.

(** ** The configuration check *)

Record RBACCheckResult := mk_check_result {
  cr_status : string;
  cr_grants_count : Z;
  cr_audit_output : string;
  cr_hmac_enabled : bool;
  cr_issues : list string
}.

Definition weak_keys : list string :=
  ["demo-hmac-key-change-in-production"; "changeme"; "secret"; "test"].

Definition key_issue (key : string) : list string :=
  if decide (key = "") then
    ["WARN: audit_hmac_key not set — audit log is not tamper-evident"]
  else if py_len key <? 16 then
    ["WARN: audit_hmac_key is too short (< 16 chars) — use a strong random secret"]
  else if bool_decide (key ∈ weak_keys) then
    ["WARN: audit_hmac_key appears to be a demo/weak value — replace with a strong random secret"]
  else [].

Definition check_rbac (config : RBACConfig) : RBACCheckResult :=
  let admin_count :=
    Z.of_nat (length (filter (λ g, tg_role g = ADMIN) (rc_grants config))) in
  let issues :=
    (if negb (rc_enabled config)
     then ["RBAC is disabled — all requests will be allowed"] else [])
    ++ (if bool_decide (rc_grants config = []) then ["No token grants configured"] else [])
    ++ (if (admin_count =? 0) && rc_enabled config
        then ["No admin token configured — cannot manage namespaces"] else [])
    ++ key_issue (rc_audit_hmac_key config) in
  let status :=
    match issues with
    | [] => "PASS"
    | _ =>
        if existsb (String.prefix "WARN") issues
           && (Z.of_nat (length issues) =? 1)
        then "WARN"
        else if negb (rc_enabled config) || bool_decide (rc_grants config = [])
        then "FAIL" else "WARN"
    end in
  mk_check_result status (Z.of_nat (length (rc_grants config)))
    (match rc_audit_file config with
     | Some f => if decide (f = "") then "stdout" else f
     | None => "stdout" end)
    (negb (bool_decide (rc_audit_hmac_key config = ""))) issues.

(** ** The decision *)

(** What the configuration promises: access is granted when enforcement is off,
    or when the token's grant covers the namespace and the permission. *)
Definition permitted (c : RBACConfig) (token_id : string) (p : Permission)
    (namespace : string) : bool :=
  negb (rc_enabled c) ||
  match token_grant c token_id with
  | Some g => allows_namespace g namespace && has_permission g p
  | None => false
  end.

Lemma check_run token_id p namespace stream e :
  ∃ ev, check token_id p namespace stream e =
    (Ok (permitted (en_config e) token_id p namespace),
     mk_enforcer (en_config e) (en_clock e) (en_log e ++ [ev])) ∧
    ap_token_id (ae_payload ev) = token_id ∧
    ap_action (ae_payload ev) = permission_value p ∧
    ap_namespace (ae_payload ev) = namespace ∧
    ap_stream (ae_payload ev) = stream ∧
    ap_ts (ae_payload ev) = en_clock e ∧
    ap_result (ae_payload ev) =
      (if permitted (en_config e) token_id p namespace then "ALLOW" else "DENY") ∧
    ae_hmac_tag ev = compute_hmac (en_config e) (ae_payload ev).
Proof.
  unfold check, permitted, audit_log, mbind, mget, mmodify, mret.
  destruct (rc_enabled (en_config e)); simpl; [|eexists; split; [done|done]].
  destruct (token_grant (en_config e) token_id) as [g|]; simpl;
    [|eexists; split; [done|done]].
  destruct (allows_namespace g namespace); simpl; [|eexists; split; [done|done]].
  destruct (has_permission g p); simpl; eexists; (split; [done|done]).
Qed.

(** A sequence of requests. *)
Record request := mk_request {
  rq_token : string; rq_permission : Permission;
  rq_namespace : string; rq_stream : string
}.

Definition check_all (rs : list request) : M enforcer (list bool) :=
  foldr (λ r m, b <- check (rq_token r) (rq_permission r) (rq_namespace r) (rq_stream r) ;;
                bs <- m ;; mret (b :: bs)) (mret []) rs.

(** An audit event that reports the decision on a request. *)
Definition reports (c : RBACConfig) (r : request) (ev : AuditEvent) : Prop :=
  ap_token_id (ae_payload ev) = rq_token r ∧
  ap_action (ae_payload ev) = permission_value (rq_permission r) ∧
  ap_namespace (ae_payload ev) = rq_namespace r ∧
  ap_stream (ae_payload ev) = rq_stream r ∧
  ap_result (ae_payload ev) =
    (if permitted c (rq_token r) (rq_permission r) (rq_namespace r)
     then "ALLOW" else "DENY") ∧
  ae_hmac_tag ev = compute_hmac c (ae_payload ev).

Lemma check_all_run rs e :
  ∃ evs, check_all rs e =
    (Ok ((λ r, permitted (en_config e) (rq_token r) (rq_permission r) (rq_namespace r)) <$> rs),
     mk_enforcer (en_config e) (en_clock e) (en_log e ++ evs)) ∧
    Forall2 (reports (en_config e)) rs evs.
Proof.
  revert e. induction rs as [|r rs IH]; intros e; simpl.
  { exists []. rewrite app_nil_r. split; [by destruct e|constructor]. }
  destruct (check_run (rq_token r) (rq_permission r) (rq_namespace r) (rq_stream r) e)
    as (ev & Hr & H1 & H2 & H3 & H4 & _ & H5 & H6).
  unfold mbind at 1. rewrite Hr. set (e1 := mk_enforcer _ _ _).
  destruct (IH e1) as (evs & Hs & Hf). unfold mbind. rewrite Hs. simpl.
  exists (ev :: evs). rewrite <- app_assoc. split; [done|]. constructor; [done|exact Hf].
Qed.

End Rbac.

(** ** First match, roles and namespaces *)

Lemma find_grant_spec gs t g :
  find_grant gs t = Some g ↔
  ∃ pre post, gs = pre ++ g :: post ∧ tg_token_id g = t ∧
    Forall (λ g', tg_token_id g' ≠ t) pre.
Proof.
  split.
  - induction gs as [|g' gs IH]; simpl; [done|]. case_decide.
    + intros [= <-]. exists [], gs. by split_and!.
    + intros (pre & post & -> & Ht & Hf)%IH. exists (g' :: pre), post.
      split_and!; [done|done|by constructor].
  - intros (pre & post & -> & Ht & Hf). induction Hf as [|g' pre Hne Hf IH]; simpl.
    + by rewrite decide_True.
    + by rewrite decide_False.
Qed.

Lemma find_grant_none gs t :
  find_grant gs t = None ↔ Forall (λ g, tg_token_id g ≠ t) gs.
Proof.
  induction gs as [|g gs IH]; simpl; [done|].
  rewrite Forall_cons. case_decide; [naive_solver|]. rewrite IH. naive_solver.
Qed.

(** ** Properties *)

(** The decision table of [RBACEnforcer.check]: it never raises; it
    allows exactly when enforcement is off or the first grant of the token
    covers the namespace and the permission; and it appends exactly one audit
    event, whose result is the decision and whose integrity tag is the HMAC of
    its own fields; nothing else changes. *)
Theorem rbac_check_decides hmac token_id p namespace stream e :
  ∃ ev, check hmac token_id p namespace stream e =
    (Ok (permitted (en_config e) token_id p namespace),
     mk_enforcer (en_config e) (en_clock e) (en_log e ++ [ev])) ∧
    ap_token_id (ae_payload ev) = token_id ∧
    ap_action (ae_payload ev) = permission_value p ∧
    ap_namespace (ae_payload ev) = namespace ∧
    ap_stream (ae_payload ev) = stream ∧
    ap_ts (ae_payload ev) = en_clock e ∧
    ap_result (ae_payload ev) =
      (if permitted (en_config e) token_id p namespace then "ALLOW" else "DENY") ∧
    ae_hmac_tag ev = compute_hmac hmac (en_config e) (ae_payload ev).
Proof. apply check_run. Qed.


Definition demo_rbac : enforcer :=
  mk_enforcer (mk_config
    [mk_grant "admin-token-1" ADMIN []; mk_grant "ingest-token-1" INGEST ["prod"];
     mk_grant "reader-token-1" READ ["prod"; "staging"]] None
    "demo-hmac-key-change-in-production" false true) 0 [].


(** The audit trail is complete: over any sequence of requests the log
    grows by one event per request, in order, each reporting the decision
    returned for it, and no earlier entry is touched. *)
Theorem rbac_audit_complete hmac rs e :
  ∃ evs, check_all hmac rs e =
    (Ok ((λ r, permitted (en_config e) (rq_token r) (rq_permission r) (rq_namespace r)) <$> rs),
     mk_enforcer (en_config e) (en_clock e) (en_log e ++ evs)) ∧
    Forall2 (reports hmac (en_config e)) rs evs.
Proof. apply check_all_run. Qed.

(** A grant that lists no namespace gives a role other than administrator no
    access at all (the field's comment says that empty means all). *)
Lemma empty_namespaces_deny token role namespace :
  role ≠ ADMIN → allows_namespace (mk_grant token role []) namespace = false.
Proof. intros Hr. unfold allows_namespace. simpl. by apply bool_decide_eq_false. Qed.
