(* ===== verification/RateLimit.v ===== *)
(** * Rate limiting and quotas ([rate_limit.py])

    Quota configuration with its validation and precedence, the token bucket
    over IEEE floats, the rolling quota counters, and the enforcer's [check],
    which reads the clock at the same places as the code.  Proved: the bucket
    never leaves [0, burst] whatever the clock does, admits exactly [burst]
    requests while the clock stands still; the counters never exceed the
    quotas; the decision table of [check]; and what interleaved checks can
    break. *)

From Stdlib Require Import PrimFloat SpecFloat FloatOps FloatAxioms.
From S2P Require Import Prelude PyFloat FloatRound.

#[local] Open Scope Z_scope.
#[local] Open Scope py_scope.
#[local] Set Warnings "-inexact-float".

(** ** Configuration *)

Inductive LimitResult := ALLOWED | RATE_LIMITED | QUOTA_EXCEEDED.

#[export] Instance LimitResult_eq_dec : EqDecision LimitResult.
Proof. solve_decision. Defined.

Definition RL_WILDCARD : string := "*".

Record NamespaceQuota := mk_quota {
  nq_namespace : string;
  nq_rate_per_second : float;
  nq_burst : Z;
  nq_hourly_quota : Z;
  nq_daily_quota : Z
}.

(** [__post_init__]: the object is created when no check fails. *)
Definition quota_errors (q : NamespaceQuota) : list string :=
  (if is_blank (nq_namespace q) then ["namespace must be a non-empty string"] else [])
  ++ (if fle (nq_rate_per_second q) 0%float then ["rate_per_second must be > 0"] else [])
  ++ (if nq_burst q <? 1 then ["burst must be >= 1"] else [])
  ++ (if nq_hourly_quota q <? 0 then ["hourly_quota must be >= 0"] else [])
  ++ (if nq_daily_quota q <? 0 then ["daily_quota must be >= 0"] else [])
  ++ (if (0 <? nq_hourly_quota q) && (0 <? nq_daily_quota q)
         && (nq_daily_quota q <? nq_hourly_quota q)
      then ["hourly_quota cannot exceed daily_quota"] else []).

Definition make_quota (namespace : string) (rate : float) (burst hourly daily : Z)
  : res NamespaceQuota :=
  let q := mk_quota namespace rate burst hourly daily in
  match quota_errors q with
  | [] => Ok q
  | _ => Raise (ValueError "NamespaceQuota errors")
  end.

Record RateLimitConfig := mk_rlconfig {
  rlc_quotas : list NamespaceQuota;
  rlc_default_rate_per_second : float;
  rlc_default_burst : Z;
  rlc_default_hourly_quota : Z;
  rlc_default_daily_quota : Z
}.

Definition config_errors (c : RateLimitConfig) : list string :=
  (if fle (rlc_default_rate_per_second c) 0%float
   then ["default_rate_per_second must be > 0"] else [])
  ++ (if rlc_default_burst c <? 1 then ["default_burst must be >= 1"] else [])
  ++ (if rlc_default_hourly_quota c <? 0 then ["default_hourly_quota must be >= 0"] else [])
  ++ (if rlc_default_daily_quota c <? 0 then ["default_daily_quota must be >= 0"] else []).

Definition make_config (c : RateLimitConfig) : res RateLimitConfig :=
  match config_errors c with
  | [] => Ok c
  | _ => Raise (ValueError "RateLimitConfig errors")
  end.

(** The loop of [get_quota]: stops at the first exact match, remembers the
    last wildcard seen. *)
Fixpoint find_quota (quotas : list NamespaceQuota) (namespace : string)
    (wildcard : option NamespaceQuota)
  : option NamespaceQuota * option NamespaceQuota :=
  match quotas with
  | [] => (None, wildcard)
  | q :: qs =>
      if decide (nq_namespace q = namespace) then (Some q, wildcard)
      else find_quota qs namespace
             (if decide (nq_namespace q = RL_WILDCARD) then Some q else wildcard)
  end.

Definition get_quota (c : RateLimitConfig) (namespace : string) : res NamespaceQuota :=
  match find_quota (rlc_quotas c) namespace None with
  | (Some exact, _) => Ok exact
  | (None, Some wildcard) => Ok wildcard
  | (None, None) =>
      make_quota namespace (rlc_default_rate_per_second c) (rlc_default_burst c)
        (rlc_default_hourly_quota c) (rlc_default_daily_quota c)
  end.

(** ** Token bucket *)

Record TokenBucket := mk_bucket {
  tb_rate : float;
  tb_burst : Z;
  tb_tokens : float;
  tb_last : float
}.

(** The methods take the reading of the clock they make. *)
Definition tb_init (rate : float) (burst : Z) (now : float) : res TokenBucket :=
  let? tokens := py_float_of_Z burst in Ok (mk_bucket rate burst tokens now).

Definition tb_refill (now : float) : M TokenBucket unit :=
  b <- mget ;;
  let elapsed := fmax 0%float (now - tb_last b)%float in
  cap <- mlift (py_float_of_Z (tb_burst b)) ;;
  mmodify (λ b, mk_bucket (tb_rate b) (tb_burst b)
    (fmin cap (tb_tokens b + elapsed * tb_rate b)%float) now).

Definition tb_consume (tokens : Z) (now : float) : M TokenBucket bool :=
  tb_refill now ;;;
  b <- mget ;;
  if fge_Z (tb_tokens b) tokens then
    n <- mlift (py_float_of_Z tokens) ;;
    mmodify (λ b, mk_bucket (tb_rate b) (tb_burst b)
      (tb_tokens b - n)%float (tb_last b)) ;;;
    mret true
  else mret false.

Definition tb_available (now : float) : M TokenBucket float :=
  tb_refill now ;;; mgets tb_tokens.

(** ** Quota counter *)

Record QuotaCounter := mk_counter {
  qc_hourly_count : Z;
  qc_daily_count : Z;
  qc_hour_start : float;
  qc_day_start : float
}.

Definition HOUR : float := 3600%float.
Definition DAY : float := 86400%float.

(** The constructor reads the clock twice. *)
Definition qc_init (now1 now2 : float) : QuotaCounter := mk_counter 0 0 now1 now2.

Definition qc_reset_if_needed (now : float) (c : QuotaCounter) : QuotaCounter :=
  let c := if fle HOUR (now - qc_hour_start c)%float
           then mk_counter 0 (qc_daily_count c) now (qc_day_start c) else c in
  if fle DAY (now - qc_day_start c)%float
  then mk_counter (qc_hourly_count c) 0 (qc_hour_start c) now else c.

Definition qc_hourly (now : float) : M QuotaCounter Z :=
  mmodify (qc_reset_if_needed now) ;;; mgets qc_hourly_count.
Definition qc_daily (now : float) : M QuotaCounter Z :=
  mmodify (qc_reset_if_needed now) ;;; mgets qc_daily_count.

(** [None] when allowed, else the reason. *)
Definition qc_check_and_increment (hourly_quota daily_quota : Z) (now : float)
  : M QuotaCounter (option string) :=
  mmodify (qc_reset_if_needed now) ;;;
  c <- mget ;;
  if (0 <? hourly_quota) && (hourly_quota <=? qc_hourly_count c)
  then mret (Some "hourly quota exceeded")
  else if (0 <? daily_quota) && (daily_quota <=? qc_daily_count c)
  then mret (Some "daily quota exceeded")
  else
    mmodify (λ c, mk_counter (qc_hourly_count c + 1) (qc_daily_count c + 1)
      (qc_hour_start c) (qc_day_start c)) ;;;
    mret None.

Definition qc_decrement : M QuotaCounter unit :=
  mmodify (λ c, mk_counter
    (if 0 <? qc_hourly_count c then qc_hourly_count c - 1 else qc_hourly_count c)
    (if 0 <? qc_daily_count c then qc_daily_count c - 1 else qc_daily_count c)
    (qc_hour_start c) (qc_day_start c)).

(** ** Enforcer *)

Record RateLimitDecision := mk_decision {
  rd_namespace : string;
  rd_result : LimitResult;
  rd_reason : string;
  rd_tokens_remaining : float;
  rd_hourly_used : Z;
  rd_daily_used : Z
}.

(** The enforcer's dictionaries, and how many times the clock was read. *)
Record Enforcer := mk_rl {
  rl_config : RateLimitConfig;
  rl_buckets : gmap string TokenBucket;
  rl_counters : gmap string QuotaCounter;
  rl_ticks : nat
}.

Section Enforcer.
(** The successive readings of the injected clock. *)
Variable clock : nat → float.

Definition read_clock : M Enforcer float :=
  s <- mget ;;
  mmodify (λ s, mk_rl (rl_config s) (rl_buckets s) (rl_counters s) (S (rl_ticks s))) ;;;
  mret (clock (rl_ticks s)).

Definition set_bucket (ns : string) (b : TokenBucket) (s : Enforcer) : Enforcer :=
  mk_rl (rl_config s) (<[ns := b]> (rl_buckets s)) (rl_counters s) (rl_ticks s).
Definition set_counter (ns : string) (c : QuotaCounter) (s : Enforcer) : Enforcer :=
  mk_rl (rl_config s) (rl_buckets s) (<[ns := c]> (rl_counters s)) (rl_ticks s).

(** Calling a method of the object stored under [ns]. *)
Definition on_bucket {A} (ns : string) (m : M TokenBucket A) : M Enforcer A :=
  λ s, match rl_buckets s !! ns with
       | Some b => let '(r, b') := m b in (r, set_bucket ns b' s)
       | None => (Raise (KeyError ns), s)
       end.
Definition on_counter {A} (ns : string) (m : M QuotaCounter A) : M Enforcer A :=
  λ s, match rl_counters s !! ns with
       | Some c => let '(r, c') := m c in (r, set_counter ns c' s)
       | None => (Raise (KeyError ns), s)
       end.

Definition rl_get_bucket (ns : string) (quota : NamespaceQuota) : M Enforcer unit :=
  s <- mget ;;
  if bool_decide (is_Some (rl_buckets s !! ns)) then mret ()
  else
    now <- read_clock ;;
    b <- mlift (tb_init (nq_rate_per_second quota) (nq_burst quota) now) ;;
    mmodify (set_bucket ns b).

Definition rl_get_counter (ns : string) : M Enforcer unit :=
  s <- mget ;;
  if bool_decide (is_Some (rl_counters s !! ns)) then mret ()
  else
    now1 <- read_clock ;;
    now2 <- read_clock ;;
    mmodify (set_counter ns (qc_init now1 now2)).

(** The fields of a decision are evaluated in the order of the call. *)
Definition decision (ns : string) (result : LimitResult) (reason : string)
  : M Enforcer RateLimitDecision :=
  t1 <- read_clock ;;
  tokens <- on_bucket ns (tb_available t1) ;;
  t2 <- read_clock ;;
  hourly <- on_counter ns (qc_hourly t2) ;;
  t3 <- read_clock ;;
  daily <- on_counter ns (qc_daily t3) ;;
  mret (mk_decision ns result reason tokens hourly daily).

Definition rl_check (ns : string) (tokens : Z) : M Enforcer RateLimitDecision :=
  s <- mget ;;
  quota <- mlift (get_quota (rl_config s) ns) ;;
  rl_get_bucket ns quota ;;;
  rl_get_counter ns ;;;
  t <- read_clock ;;
  quota_err <- on_counter ns
    (qc_check_and_increment (nq_hourly_quota quota) (nq_daily_quota quota) t) ;;
  match quota_err with
  | Some reason => decision ns QUOTA_EXCEEDED reason
  | None =>
      t <- read_clock ;;
      served <- on_bucket ns (tb_consume tokens t) ;;
      if served : bool then decision ns ALLOWED "ok"
      else
        on_counter ns qc_decrement ;;;
        decision ns RATE_LIMITED "rate limited"
  end.
End Enforcer.

(** ** The configuration report *)

Definition rate_issue (rate : float) (fail warn : string) : list string :=
  if fle rate 0%float then [fail] else if flt rate 1%float then [warn] else [].

(** [burst < rate_per_second], an exact comparison of an int with a float. *)
Definition burst_below_rate (burst : Z) (rate : float) : bool :=
  match fcompare_Z rate burst with Some Gt => true | _ => false end.

Definition quota_issues (q : NamespaceQuota) : list string :=
  rate_issue (nq_rate_per_second q) "FAIL: rate_per_second must be > 0"
    "WARN: rate_per_second < 1"
  ++ (if burst_below_rate (nq_burst q) (nq_rate_per_second q)
      then ["WARN: burst exhausted in < 1 second"] else [])
  ++ (if (0 <? nq_hourly_quota q) && (0 <? nq_daily_quota q)
         && (nq_hourly_quota q * 24 <? nq_daily_quota q)
      then ["WARN: daily_quota unreachable"] else []).

Definition rl_issues (c : RateLimitConfig) : list string :=
  rate_issue (rlc_default_rate_per_second c)
    "FAIL: default_rate_per_second must be > 0" "WARN: default_rate_per_second < 1"
  ++ (if rlc_default_burst c <? 1 then ["FAIL: default_burst must be >= 1"] else [])
  ++ (if rlc_default_hourly_quota c <? 0 then ["FAIL: default_hourly_quota must be >= 0"] else [])
  ++ (if rlc_default_daily_quota c <? 0 then ["FAIL: default_daily_quota must be >= 0"] else [])
  ++ concat (quota_issues <$> rlc_quotas c).

Definition check_rate_limit_config (c : RateLimitConfig) : string * Z * list string :=
  let issues := rl_issues c in
  let fails := filter (λ i, String.prefix "FAIL" i = true) issues in
  let warns := filter (λ i, String.prefix "WARN" i = true) issues in
  (match fails, warns with _ :: _, _ => "FAIL" | [], _ :: _ => "WARN" | [], [] => "PASS" end,
   Z.of_nat (length (rlc_quotas c)), issues).

(** ** The bucket stays between empty and full *)

Definition bucket_ok (b : TokenBucket) : Prop :=
  fnn (tb_rate b) ∧ isfinite (tb_tokens b) = true ∧
  fle 0%float (tb_tokens b) = true ∧
  ∃ cap, py_float_of_Z (tb_burst b) = Ok cap ∧ fle (tb_tokens b) cap = true.

Lemma not_le0_fnn r : fle r 0%float = false → fnn r.
Proof.
  intros Hr. destruct (isnan r) eqn:E; [by apply fnn_nan|].
  apply not_fle in Hr; [|done..]. by apply fle_fnn, flt_fle.
Qed.

Lemma tb_init_ok rate burst now b :
  fle rate 0%float = false → 1 ≤ burst → tb_init rate burst now = Ok b →
  bucket_ok b ∧ tb_burst b = burst.
Proof.
  unfold tb_init. intros Hr Hb E. apply res_bind_ok in E as (cap & Ec & E).
  injection E as <-. destruct (py_float_of_Z_fin _ _ Ec) as [Ecap Fc].
  destruct (fval_float_of_Z burst) as [V N].
  assert (fle 0%float cap = true).
  { rewrite Ecap. apply fle_val; [done..|]. rewrite fval_zero, V.
    apply Rnd_nonneg. apply Z.mul_nonneg_nonneg; [lia|done]. }
  split; [|done]. split; [by apply not_le0_fnn|]. split; [done|]. split; [done|].
  exists cap. split; [done|]. apply fle_refl. by apply isfinite_num.
Qed.

(** Whatever the clock reads (even backwards, infinite or NaN), a refill
    returns and leaves the bucket between empty and full. *)
Lemma tb_refill_run now b :
  bucket_ok b →
  ∃ b', tb_refill now b = (Ok tt, b') ∧ bucket_ok b' ∧
    tb_rate b' = tb_rate b ∧ tb_burst b' = tb_burst b ∧ tb_last b' = now.
Proof.
  intros (Hr & Ft & H0 & cap & Ec & Hle). unfold tb_refill, mbind, mget, mlift, mmodify.
  rewrite Ec. eexists. split; [done|]. split; [|done].
  destruct (py_float_of_Z_fin _ _ Ec) as [_ Fc]. pose proof (isfinite_num _ Fc) as Nc.
  set (x := (tb_tokens b + fmax 0 (now - tb_last b) * tb_rate b)%float).
  assert (fnn x) as Hx.
  { apply fnn_add; [by apply fle_fnn|]. apply fnn_mul; [apply fmax_zero_nn|done]. }
  split; [done|]. simpl. fold x. unfold fmin. destruct (flt x cap) eqn:E.
  - pose proof (flt_num_l _ _ E) as Nx. pose proof (fnn_num x Hx Nx) as Hx0.
    split; [|split; [done|]].
    + apply isfinite_fval. split; [done|]. apply isfinite_fval in Fc as [_ Fc].
      apply flt_val in E; [|done..]. apply fle_val in Hx0; [|done..].
      rewrite fval_zero in Hx0. lia.
    + exists cap. split; [done|]. by apply flt_fle.
  - split; [done|]. split; [by eapply fle_trans|]. exists cap. split; [done|].
    by apply fle_refl.
Qed.

(** Consuming [n] tokens takes them when there are that many. *)
Lemma tb_take n b :
  bucket_ok b → 0 ≤ n → fge_Z (tb_tokens b) n = true →
  py_float_of_Z n = Ok (float_of_Z n) ∧
  bucket_ok (mk_bucket (tb_rate b) (tb_burst b) (tb_tokens b - float_of_Z n)%float (tb_last b)).
Proof.
  intros (Hr & Ft & H0 & cap & Ec & Hle) Hn Hge.
  apply fge_Z_val in Hge; [|done].
  pose proof (isfinite_num _ Ft) as Nt.
  pose proof (proj1 (isfinite_fval _) Ft) as [_ Bt].
  destruct (fval_float_of_Z n) as [Vn Nn].
  assert (0 ≤ fval (float_of_Z n)) as Hpos
    by (rewrite Vn; apply Rnd_nonneg; apply Z.mul_nonneg_nonneg; [lia|done]).
  assert (fval (float_of_Z n) ≤ fval (tb_tokens b)) as Hcmp.
  { rewrite Vn, <- (Rnd_exact (fval (tb_tokens b))) by by apply fval_representable.
    apply Rnd_mono. replace (n * 2 ^ 2148) with (n * 2 ^ 1074 * 2 ^ 1074)
      by (rewrite <- Z.mul_assoc; f_equal).
    by apply Z.mul_le_mono_nonneg_r. }
  assert (isfinite (float_of_Z n) = true) as Fn.
  { apply isfinite_fval. split; [done|]. lia. }
  split.
  { unfold py_float_of_Z. destruct (isinf (float_of_Z n)) eqn:E; [|done].
    apply isinf_SF in E as [s E]. apply isfinite_SF in Fn.
    rewrite E in Fn. by destruct Fn as [[? [=]]|(?&?&?&[=])]. }
  destruct (fval_sub _ _ Ft Fn) as [V N].
  assert (fval (tb_tokens b - float_of_Z n)%float ≤ fval (tb_tokens b)) as Hup.
  { rewrite V. transitivity (Rnd (fval (tb_tokens b) * 2 ^ 1074)).
    - apply Rnd_mono, Z.mul_le_mono_nonneg_r; [done|lia].
    - rewrite Rnd_exact by (by apply fval_representable). done. }
  assert (fle 0%float (tb_tokens b - float_of_Z n)%float = true) as Hlo.
  { apply fsub_nonneg; try done. by apply fle_val. }
  pose proof (fle_val _ _ num_zero N) as [Hlo' _]. specialize (Hlo' Hlo).
  rewrite fval_zero in Hlo'.
  split; [done|]. simpl. split_and!; try done.
  - apply isfinite_fval. split; [done|]. lia.
  - exists cap. split; [done|]. eapply fle_trans; [|exact Hle]. by apply fle_val.
Qed.

Lemma tb_consume_run n now b :
  bucket_ok b → 0 ≤ n →
  ∃ r b', tb_consume n now b = (Ok r, b') ∧ bucket_ok b' ∧
    tb_rate b' = tb_rate b ∧ tb_burst b' = tb_burst b ∧ tb_last b' = now.
Proof.
  intros Hb Hn. destruct (tb_refill_run now b Hb) as (b1 & Hr & Hb1 & E1 & E2 & E3).
  unfold tb_consume, mbind, mget. rewrite Hr.
  destruct (fge_Z (tb_tokens b1) n) eqn:Hge; [|by exists false, b1].
  destruct (tb_take n b1 Hb1 Hn Hge) as [Ep Hb2]. unfold mlift, mmodify, mret.
  rewrite Ep. eexists _, _. split; [done|]. by split.
Qed.

Inductive bucket_call := BConsume (n : Z) (now : float) | BAvailable (now : float).

Definition run_bucket_call (c : bucket_call) : M TokenBucket unit :=
  match c with
  | BConsume n now => tb_consume n now ;;; mret ()
  | BAvailable now => tb_available now ;;; mret ()
  end.

Definition call_ok (c : bucket_call) : Prop :=
  match c with BConsume n _ => 0 ≤ n | BAvailable _ => True end.

Lemma run_bucket_calls cs b :
  bucket_ok b → Forall call_ok cs →
  ∃ b', mfor cs run_bucket_call b = (Ok (), b') ∧ bucket_ok b' ∧
    tb_rate b' = tb_rate b ∧ tb_burst b' = tb_burst b.
Proof.
  intros Hb Hcs. revert b Hb. induction Hcs as [|c cs Hc Hcs IH]; intros b Hb.
  { by exists b. }
  assert (∃ b1, run_bucket_call c b = (Ok (), b1) ∧ bucket_ok b1 ∧
    tb_rate b1 = tb_rate b ∧ tb_burst b1 = tb_burst b) as (b1 & E & Hb1 & E1 & E2).
  { destruct c as [n now|now]; simpl in *.
    - destruct (tb_consume_run n now b Hb Hc) as (r & b1 & E & ? & ? & ? & _).
      exists b1. split; [|done]. unfold mbind. by rewrite E.
    - destruct (tb_refill_run now b Hb) as (b1 & E & ? & ? & ? & _).
      exists b1. split; [|done]. unfold tb_available, mbind. by rewrite E. }
  destruct (IH b1 Hb1) as (b' & E' & Hb' & ? & ?).
  exists b'. simpl. unfold mbind. rewrite E. rewrite E'. split_and!; congruence.
Qed.

(** ** A clock that stands still *)

(** With no time passing the limiter is the integer machine below: [t] whole
    tokens, [h] and [d] requests counted. *)
Definition spec_state : Type := Z * Z * Z.

Definition over_quota (quota count : Z) : bool := (0 <? quota) && (quota <=? count).

Definition spec_check (hq dq n : Z) (s : spec_state) : LimitResult * spec_state :=
  let '(t, h, d) := s in
  if over_quota hq h || over_quota dq d then (QUOTA_EXCEEDED, s)
  else if n <=? t then (ALLOWED, (t - n, h + 1, d + 1))
  else (RATE_LIMITED, s).

Fixpoint spec_checks (hq dq : Z) (ns : list Z) (s : spec_state)
  : list LimitResult * spec_state :=
  match ns with
  | [] => ([], s)
  | n :: ns' =>
      let '(r, s1) := spec_check hq dq n s in
      let '(rs, s2) := spec_checks hq dq ns' s1 in (r :: rs, s2)
  end.

(** The requests of one namespace, in order. *)
Fixpoint check_many (clock : nat → float) (ns : string) (tokens : list Z)
  : M Enforcer (list LimitResult) :=
  match tokens with
  | [] => mret []
  | n :: ns' =>
      d <- rl_check clock ns n ;;
      rs <- check_many clock ns ns' ;;
      mret (rd_result d :: rs)
  end.

Definition still (c : float) : nat → float := λ _, c.

Definition bucket_at (c : float) (burst t : Z) (b : TokenBucket) : Prop :=
  tb_last b = c ∧ tb_burst b = burst ∧ isfinite (tb_rate b) = true ∧
  isfinite (tb_tokens b) = true ∧ fval (tb_tokens b) = t * 2 ^ 1074 ∧
  0 ≤ t ≤ burst ∧ burst ≤ 2 ^ 53.

Definition counter_at (c : float) (h d : Z) (q : QuotaCounter) : Prop :=
  q = mk_counter h d c c ∧ 0 ≤ h ∧ 0 ≤ d.

Lemma fsub_self c : isfinite c = true → fval (c - c)%float = 0 ∧ isfinite (c - c)%float = true.
Proof.
  intros F. destruct (fval_sub c c F F) as [V N]. rewrite Z.sub_diag in V.
  split; [by rewrite V|]. apply isfinite_fval. split; [done|]. by rewrite V.
Qed.

Lemma refill_still c burst t b :
  isfinite c = true → bucket_at c burst t b →
  ∃ b', tb_refill c b = (Ok (), b') ∧ bucket_at c burst t b'.
Proof.
  intros Fc (El & Eb & Fr & Ft & Vt & Ht & Hb).
  unfold tb_refill, mbind, mget, mlift, mmodify.
  assert (2 ^ 53 ≤ 2 ^ 1023) by done.
  rewrite Eb, py_float_of_Z_ok by lia. eexists. split; [done|].
  destruct (fsub_self c Fc) as [V0 F0]. rewrite El.
  assert (fmax 0 (c - c) = 0)%float as ->.
  { unfold fmax. destruct (flt 0 (c - c)) eqn:E; [|done].
    apply flt_val in E; [|done|by apply isfinite_num]. rewrite fval_zero, V0 in E. lia. }
  assert (isfinite 0%float = true) as Fz by done.
  destruct (fval_mul _ _ Fz Fr) as [Vm Nm]. rewrite fval_zero in Vm.
  change (Rnd (0 * fval (tb_rate b))) with 0 in Vm.
  assert (isfinite (0 * tb_rate b)%float = true) as Fm.
  { apply isfinite_fval. split; [done|]. by rewrite Vm. }
  destruct (fval_add _ _ Ft Fm) as [Va Na]. rewrite Vm, Z.add_0_r in Va.
  rewrite Rnd_exact in Va by (by apply fval_representable).
  assert (0 ≤ burst) by lia.
  pose proof (float_of_Z_finite burst ltac:(lia)) as Fb.
  pose proof (fval_float_of_Z_small burst ltac:(lia)) as Vb.
  unfold bucket_at. simpl. unfold fmin.
  destruct (flt (tb_tokens b + 0 * tb_rate b) (float_of_Z burst)) eqn:E;
    split_and!; try done; try lia.
  - apply isfinite_fval. split; [done|]. rewrite Va.
    by apply isfinite_fval in Ft as [_ ?].
  - apply not_flt in E; [|done|by apply isfinite_num].
    apply fle_val in E; [|by apply isfinite_num|done].
    rewrite Va, Vb, Vt in *. apply Z.mul_le_mono_pos_r in E; [|done].
    f_equal. lia.
Qed.

Lemma consume_still c burst t n b :
  isfinite c = true → bucket_at c burst t b → 0 ≤ n →
  ∃ b', tb_consume n c b = (Ok (n <=? t), b') ∧
    bucket_at c burst (if n <=? t then t - n else t) b'.
Proof.
  intros Fc Hb Hn. destruct (refill_still c burst t b Fc Hb) as (b1 & E & Hb1).
  unfold tb_consume, mbind, mget. rewrite E.
  destruct Hb1 as (El & Eb & Fr & Ft & Vt & Ht & Hbu).
  assert (fge_Z (tb_tokens b1) n = (n <=? t)) as ->.
  { apply Bool.eq_iff_eq_true. rewrite fge_Z_val by done.
    rewrite Vt, <- Z.mul_le_mono_pos_r by done. by rewrite Z.leb_le. }
  destruct (Z.leb_spec n t) as [Hle|Hgt]; [|by exists b1].
  assert (2 ^ 53 ≤ 2 ^ 1023) by done.
  unfold mlift, mmodify, mret. rewrite py_float_of_Z_ok by lia.
  eexists. split; [done|].
  assert (0 < 2 ^ 1074) as HU by done.
  destruct (fsub_int_exact (tb_tokens b1) n Ft Hn) as [V F].
  { rewrite Vt. split; apply Z.mul_le_mono_nonneg_r; lia. }
  split_and!; simpl; try done; try lia.
Qed.

Lemma reset_still c h d q :
  isfinite c = true → counter_at c h d q → qc_reset_if_needed c q = q.
Proof.
  intros Fc (-> & _). unfold qc_reset_if_needed. simpl.
  destruct (fsub_self c Fc) as [V F].
  assert (∀ w, isfinite w = true → 0 < fval w → fle w (c - c)%float = false) as Hw.
  { intros w Fw Hw. apply not_fle; try by apply isfinite_num.
    apply flt_val; try by apply isfinite_num. by rewrite V. }
  rewrite !Hw by done. done.
Qed.

(** The bucket and the counter of [ns], as seen at the instant [c]. *)
Definition at_state (c : float) (burst : Z) (ns : string) (st : spec_state) (s : Enforcer)
  : Prop :=
  let '(t, h, d) := st in
  (∃ b, rl_buckets s !! ns = Some b ∧ bucket_at c burst t b) ∧
  (∃ q, rl_counters s !! ns = Some q ∧ counter_at c h d q).

Definition tick (s : Enforcer) : Enforcer :=
  mk_rl (rl_config s) (rl_buckets s) (rl_counters s) (S (rl_ticks s)).

Lemma read_clock_run clock s : read_clock clock s = (Ok (clock (rl_ticks s)), tick s).
Proof. done. Qed.

Lemma on_bucket_run {A} ns (m : M TokenBucket A) b r b' s :
  rl_buckets s !! ns = Some b → m b = (r, b') →
  on_bucket ns m s = (r, set_bucket ns b' s).
Proof. intros E Em. unfold on_bucket. by rewrite E, Em. Qed.

Lemma on_counter_run {A} ns (m : M QuotaCounter A) q r q' s :
  rl_counters s !! ns = Some q → m q = (r, q') →
  on_counter ns m s = (r, set_counter ns q' s).
Proof. intros E Em. unfold on_counter. by rewrite E, Em. Qed.

Lemma get_bucket_present clock ns quota b s :
  rl_buckets s !! ns = Some b → rl_get_bucket clock ns quota s = (Ok (), s).
Proof.
  intros E. unfold rl_get_bucket, mbind, mget. by rewrite bool_decide_eq_true_2 by (by rewrite E).
Qed.

Lemma get_counter_present clock ns q s :
  rl_counters s !! ns = Some q → rl_get_counter clock ns s = (Ok (), s).
Proof.
  intros E. unfold rl_get_counter, mbind, mget. by rewrite bool_decide_eq_true_2 by (by rewrite E).
Qed.

Lemma at_state_tick c burst ns st s : at_state c burst ns st s → at_state c burst ns st (tick s).
Proof. by destruct st as [[??]?]. Qed.

Lemma at_state_bucket c burst ns t h d t' b s :
  at_state c burst ns (t, h, d) s → bucket_at c burst t' b →
  at_state c burst ns (t', h, d) (set_bucket ns b s).
Proof.
  intros [_ Hc] Hb. split; [|done]. exists b. split; [|done]. cbn. by rewrite lookup_insert_eq.
Qed.

Lemma at_state_counter c burst ns t h d h' d' q s :
  at_state c burst ns (t, h, d) s → counter_at c h' d' q →
  at_state c burst ns (t, h', d') (set_counter ns q s).
Proof.
  intros [Hb _] Hc. split; [done|]. exists q. split; [|done]. cbn. by rewrite lookup_insert_eq.
Qed.

Lemma available_still c burst ns t h d s :
  isfinite c = true → at_state c burst ns (t, h, d) s →
  ∃ x s', on_bucket ns (tb_available c) s = (Ok x, s') ∧ rl_config s' = rl_config s ∧
    at_state c burst ns (t, h, d) s'.
Proof.
  intros Fc Hat. pose proof Hat as [(b & Eb & Hb) _].
  destruct (refill_still c burst t b Fc Hb) as (b1 & E1 & Hb1).
  eexists _, _. split; [|split; [|by eapply at_state_bucket]]; [|done].
  eapply on_bucket_run; [done|]. unfold tb_available, mbind. by rewrite E1.
Qed.

Lemma count_still c burst ns t h d f s :
  isfinite c = true → at_state c burst ns (t, h, d) s →
  ∃ x s', on_counter ns (mmodify (qc_reset_if_needed c) ;;; mgets f) s = (Ok (x : Z), s') ∧
    rl_config s' = rl_config s ∧ at_state c burst ns (t, h, d) s'.
Proof.
  intros Fc Hat. pose proof Hat as [_ (q & Eq & Hq)].
  eexists _, _. split; [|split; [|by eapply at_state_counter]]; [|done].
  eapply on_counter_run; [done|]. unfold mbind, mmodify, mgets.
  by rewrite (reset_still c h d q Fc Hq).
Qed.

Lemma decision_still c burst ns st result reason s :
  isfinite c = true → at_state c burst ns st s →
  ∃ dn s', decision (still c) ns result reason s = (Ok dn, s') ∧
    rd_result dn = result ∧ rl_config s' = rl_config s ∧ at_state c burst ns st s'.
Proof.
  intros Fc. destruct st as [[t h] d]. intros Hat. unfold decision.
  step_run read_clock_run. apply at_state_tick in Hat.
  destruct (available_still c burst ns t h d _ Fc Hat) as (x & s1 & E1 & C1 & Hat1).
  step_run E1. step_run read_clock_run. apply at_state_tick in Hat1.
  destruct (count_still c burst ns t h d qc_hourly_count _ Fc Hat1) as (y & s2 & E2 & C2 & Hat2).
  step_run E2. step_run read_clock_run. apply at_state_tick in Hat2.
  destruct (count_still c burst ns t h d qc_daily_count _ Fc Hat2) as (z & s3 & E3 & C3 & Hat3).
  step_run E3. eexists _, _. split; [done|]. split; [done|]. split; [|done].
  cbn in *. congruence.
Qed.

Lemma check_still c h d q hq dq :
  isfinite c = true → counter_at c h d q →
  ∃ q', qc_check_and_increment hq dq c q =
      (Ok (if over_quota hq h then Some "hourly quota exceeded"
           else if over_quota dq d then Some "daily quota exceeded" else None), q') ∧
    counter_at c (if over_quota hq h || over_quota dq d then h else h + 1)
      (if over_quota hq h || over_quota dq d then d else d + 1) q'.
Proof.
  intros Fc Hq. unfold qc_check_and_increment. step_run mmodify_run.
  rewrite (reset_still c h d q Fc Hq). step_run mget_run.
  destruct Hq as (-> & Hh & Hd). cbn [qc_hourly_count qc_daily_count].
  fold (over_quota hq h) (over_quota dq d).
  destruct (over_quota hq h), (over_quota dq d); eexists; (split; [done|]); simpl;
    unfold counter_at; split_and!; try done; lia.
Qed.

Lemma decrement_still c h d q :
  counter_at c (h + 1) (d + 1) q → 0 ≤ h → 0 ≤ d →
  ∃ q', qc_decrement q = (Ok (), q') ∧ counter_at c h d q'.
Proof.
  intros (-> & _) Hh Hd. eexists. split; [done|]. unfold counter_at. cbn.
  rewrite !(proj2 (Z.ltb_lt 0 _)) by lia. by rewrite !Z.add_simpl_r.
Qed.

Lemma rl_check_still c burst quota ns st n s :
  isfinite c = true → 0 ≤ n → at_state c burst ns st s →
  get_quota (rl_config s) ns = Ok quota →
  ∃ dn s', rl_check (still c) ns n s = (Ok dn, s') ∧
    rd_result dn = (spec_check (nq_hourly_quota quota) (nq_daily_quota quota) n st).1 ∧
    rl_config s' = rl_config s ∧
    at_state c burst ns
      (spec_check (nq_hourly_quota quota) (nq_daily_quota quota) n st).2 s'.
Proof.
  intros Fc Hn Hat Eq. destruct st as [[t h] d].
  pose proof Hat as [(b & Eb & Hb) (q & Ec & Hq)].
  unfold rl_check. step_run mget_run. step_run (mlift_run _ _ s Eq).
  step_run get_bucket_present; [|done]. step_run get_counter_present; [|done].
  step_run read_clock_run. apply at_state_tick in Hat. unfold still at 1.
  set (hq := nq_hourly_quota quota). set (dq := nq_daily_quota quota).
  destruct (check_still c h d q hq dq Fc Hq) as (q1 & E1 & Hq1).
  pose proof (at_state_counter c burst ns t h d _ _ q1 _ Hat Hq1) as Hat1.
  step_run (on_counter_run ns _ q _ q1 (tick s) Ec E1). unfold spec_check.
  destruct (over_quota hq h) eqn:G1; [|destruct (over_quota dq d) eqn:G2];
    cbn [orb] in *; cbv iota.
  1-2: edestruct (decision_still c burst ns (t, h, d) QUOTA_EXCEEDED)
    as (dn & s' & Ed & ? & ? & ?); [done|exact Hat1|]; by exists dn, s'.
  step_run read_clock_run. apply at_state_tick in Hat1. unfold still at 1.
  destruct (consume_still c burst t n b Fc Hb Hn) as (b1 & Eb1 & Hb1).
  pose proof (at_state_bucket c burst ns t _ _ _ b1 _ Hat1 Hb1) as Hat2.
  step_run (on_bucket_run ns _ b _ b1 (tick (set_counter ns q1 (tick s))) Eb Eb1).
  destruct (n <=? t) eqn:Gt.
  { destruct (decision_still c burst ns (t - n, h + 1, d + 1) ALLOWED "ok" _ Fc Hat2)
      as (dn & s' & Ed & ? & ? & ?). by exists dn, s'. }
  destruct Hq as (_ & Hh & Hd).
  destruct (decrement_still c h d q1 Hq1 Hh Hd) as (q2 & Eq2 & Hq2).
  pose proof (at_state_counter c burst ns t _ _ _ _ q2 _ Hat2 Hq2) as Hat3.
  step_run (on_counter_run ns qc_decrement q1 (Ok ()) q2); [|cbn; by rewrite lookup_insert_eq|done].
  destruct (decision_still c burst ns (t, h, d) RATE_LIMITED "rate limited" _ Fc Hat3)
    as (dn & s' & Ed & ? & ? & ?). by exists dn, s'.
Qed.

(** The first request of a namespace creates a full bucket and a counter at
    zero; after that the two lookups find them. *)
Lemma first_check_still c quota ns n s :
  isfinite c = true → isfinite (nq_rate_per_second quota) = true →
  1 ≤ nq_burst quota ≤ 2 ^ 53 →
  rl_buckets s !! ns = None → rl_counters s !! ns = None →
  get_quota (rl_config s) ns = Ok quota →
  ∃ s0, rl_check (still c) ns n s = rl_check (still c) ns n s0 ∧
    rl_config s0 = rl_config s ∧ at_state c (nq_burst quota) ns (nq_burst quota, 0, 0) s0.
Proof.
  intros Fc Fr Hb Eb Ec Eq.
  assert (2 ^ 53 ≤ 2 ^ 1023) by done.
  set (b0 := mk_bucket (nq_rate_per_second quota) (nq_burst quota)
               (float_of_Z (nq_burst quota)) c).
  set (s1 := set_bucket ns b0 (tick s)).
  set (s0 := set_counter ns (qc_init c c) (tick (tick s1))).
  assert (rl_get_bucket (still c) ns quota s = (Ok (), s1)) as E1.
  { unfold rl_get_bucket. step_run mget_run. rewrite Eb, bool_decide_eq_false_2
      by (by intros [? [=]]).
    step_run read_clock_run. unfold tb_init. rewrite py_float_of_Z_ok by lia. done. }
  assert (rl_get_counter (still c) ns s1 = (Ok (), s0)) as E2.
  { unfold rl_get_counter. step_run mget_run. subst s1. cbn [set_bucket rl_counters tick].
    rewrite Ec, bool_decide_eq_false_2 by (by intros [? [=]]). done. }
  exists s0. split; [|split; [done|]].
  - unfold rl_check at 1. step_run mget_run. step_run (mlift_run _ _ s Eq).
    step_run E1. step_run E2. symmetry.
    unfold rl_check at 1. step_run mget_run. step_run (mlift_run _ _ s0 Eq).
    step_run get_bucket_present; [|subst s0 s1; cbn; apply lookup_insert_eq].
    step_run get_counter_present; [|subst s0 s1; cbn; apply lookup_insert_eq]. done.
  - split.
    + exists b0. split; [subst s0 s1; cbn; apply lookup_insert_eq|].
      subst b0. unfold bucket_at. cbn. split_and!; try done; try lia.
      * apply float_of_Z_finite. lia.
      * apply fval_float_of_Z_small. lia.
    + exists (qc_init c c). split; [subst s0; cbn; apply lookup_insert_eq|]. by split.
Qed.

Lemma check_many_still c quota ns tokens st s :
  isfinite c = true → Forall (λ n, 0 ≤ n) tokens →
  at_state c (nq_burst quota) ns st s → get_quota (rl_config s) ns = Ok quota →
  ∃ s', check_many (still c) ns tokens s =
    (Ok (spec_checks (nq_hourly_quota quota) (nq_daily_quota quota) tokens st).1, s').
Proof.
  intros Fc Hn. revert st s. induction Hn as [|n ns' Hn Hns IH]; intros st s Hat Eq.
  { by exists s. }
  destruct (rl_check_still c _ quota ns st n s Fc Hn Hat Eq) as (dn & s1 & E & Er & Ecfg & Hat1).
  rewrite <- Ecfg in Eq. destruct (IH _ s1 Hat1 Eq) as (s2 & E2).
  exists s2. simpl. step_run E. step_run E2. rewrite Er.
  destruct (spec_check _ _ n st) as [r st1]. simpl.
  by destruct (spec_checks _ _ ns' st1) as [rs st2].
Qed.

Lemma check_many_fresh c quota ns tokens s :
  isfinite c = true → isfinite (nq_rate_per_second quota) = true →
  1 ≤ nq_burst quota ≤ 2 ^ 53 → Forall (λ n, 0 ≤ n) tokens →
  rl_buckets s !! ns = None → rl_counters s !! ns = None →
  get_quota (rl_config s) ns = Ok quota →
  ∃ s', check_many (still c) ns tokens s =
    (Ok (spec_checks (nq_hourly_quota quota) (nq_daily_quota quota) tokens
           (nq_burst quota, 0, 0)).1, s').
Proof.
  intros Fc Fr Hb Hn Eb Ec Eq. destruct tokens as [|n tokens]; [by exists s|].
  destruct (first_check_still c quota ns n s Fc Fr Hb Eb Ec Eq) as (s0 & E & Ecfg & Hat).
  rewrite <- Ecfg in Eq.
  destruct (check_many_still c quota ns (n :: tokens) _ s0 Fc Hn Hat Eq) as (s' & E').
  exists s'. rewrite <- E'. simpl. unfold mbind at 1 3. by rewrite E.
Qed.

(** A quota as a bound on a count: zero means no quota. *)
Definition quota_bound (quota k : Z) : Z := if 0 <? quota then Z.min k quota else k.

Definition allowed (rs : list LimitResult) : Z :=
  Z.of_nat (length (filter (λ r, r = ALLOWED) rs)).

Lemma allowed_cons r rs : allowed (r :: rs) = (if decide (r = ALLOWED) then 1 else 0) + allowed rs.
Proof.
  unfold allowed. rewrite filter_cons. destruct (decide (r = ALLOWED)); simpl length; lia.
Qed.

(** The integer machine serves single-token requests up to the tightest
    bound. *)
Lemma spec_checks_allowed hq dq k t h d :
  0 ≤ t → 0 ≤ h → 0 ≤ d → (0 < hq → h ≤ hq) → (0 < dq → d ≤ dq) →
  allowed (spec_checks hq dq (replicate k 1) (t, h, d)).1 =
    Z.min (Z.min (Z.of_nat k) t)
      (Z.min (quota_bound hq (h + Z.of_nat k) - h) (quota_bound dq (d + Z.of_nat k) - d)).
Proof.
  revert t h d. induction k as [|k IH]; intros t h d Ht Hh Hd Hhq Hdq.
  { simpl. unfold quota_bound, allowed. simpl. repeat case_match; lia. }
  cbn [replicate spec_checks spec_check].
  destruct (over_quota hq h || over_quota dq d) eqn:G; [|destruct (1 <=? t) eqn:Gt].
  - specialize (IH t h d Ht Hh Hd Hhq Hdq).
    destruct (spec_checks hq dq (replicate k 1) (t, h, d)) as [rs st]. cbn [fst] in *.
    rewrite allowed_cons, IH, decide_False by done. clear IH. unfold quota_bound, over_quota in *.
    destruct (Z.ltb_spec 0 hq), (Z.ltb_spec 0 dq), (Z.leb_spec hq h), (Z.leb_spec dq d);
      cbn [andb orb] in G; try discriminate G; lia.
  - apply orb_false_iff in G as [G1 G2]. unfold over_quota in G1, G2.
    specialize (IH (t - 1) (h + 1) (d + 1) ltac:(lia) ltac:(lia) ltac:(lia) ltac:(lia) ltac:(lia)).
    destruct (spec_checks hq dq (replicate k 1) (t - 1, h + 1, d + 1)) as [rs st].
    cbn [fst] in *. rewrite allowed_cons, IH. clear IH. rewrite decide_True by done.
    unfold quota_bound. destruct (0 <? hq), (0 <? dq); lia.
  - specialize (IH t h d Ht Hh Hd Hhq Hdq).
    destruct (spec_checks hq dq (replicate k 1) (t, h, d)) as [rs st]. cbn [fst] in *.
    rewrite allowed_cons, IH, decide_False by done. clear IH. unfold quota_bound, over_quota in *.
    destruct (Z.ltb_spec 0 hq), (Z.ltb_spec 0 dq), (Z.leb_spec hq h), (Z.leb_spec dq d);
      cbn [andb orb] in G; try discriminate G; lia.
Qed.

(** ** Quotas hold through any sequence of requests *)

(** What validation leaves to be assumed of a configuration: consistent
    defaults and bursts that convert to a float. *)
Record config_ok (c : RateLimitConfig) : Prop := {
  co_valid : config_errors c = [];
  co_quotas : Forall (λ q, quota_errors q = [] ∧ nq_burst q ≤ 2 ^ 1023) (rlc_quotas c);
  co_burst : rlc_default_burst c ≤ 2 ^ 1023;
  co_defaults : (0 <? rlc_default_hourly_quota c) && (0 <? rlc_default_daily_quota c)
    && (rlc_default_daily_quota c <? rlc_default_hourly_quota c) = false
}.

Definition quota_ok (q : NamespaceQuota) : Prop :=
  fle (nq_rate_per_second q) 0%float = false ∧ 1 ≤ nq_burst q ≤ 2 ^ 1023 ∧
  0 ≤ nq_hourly_quota q ∧ 0 ≤ nq_daily_quota q.

Lemma if_nil {A} (b : bool) (x : A) : (if b then [x] else []) = [] ↔ b = false.
Proof. by destruct b. Qed.

Lemma quota_errors_nil q :
  quota_errors q = [] ↔
  is_blank (nq_namespace q) = false ∧ fle (nq_rate_per_second q) 0%float = false ∧
  1 ≤ nq_burst q ∧ 0 ≤ nq_hourly_quota q ∧ 0 ≤ nq_daily_quota q ∧
  (0 <? nq_hourly_quota q) && (0 <? nq_daily_quota q)
    && (nq_daily_quota q <? nq_hourly_quota q) = false.
Proof.
  unfold quota_errors. rewrite !app_nil, !if_nil, !Z.ltb_ge. tauto.
Qed.

Lemma config_errors_nil c :
  config_errors c = [] ↔
  fle (rlc_default_rate_per_second c) 0%float = false ∧ 1 ≤ rlc_default_burst c ∧
  0 ≤ rlc_default_hourly_quota c ∧ 0 ≤ rlc_default_daily_quota c.
Proof. unfold config_errors. rewrite !app_nil, !if_nil, !Z.ltb_ge. tauto. Qed.

(** The loop finds the first exact entry, else the last wildcard. *)
Lemma find_quota_spec quotas ns w :
  find_quota quotas ns w =
  (head (filter (λ q, nq_namespace q = ns) quotas),
   match head (filter (λ q, nq_namespace q = ns) quotas) with
   | None => match last (filter (λ q, nq_namespace q = RL_WILDCARD) quotas) with
             | Some q => Some q | None => w end
   | Some _ => (find_quota quotas ns w).2
   end).
Proof.
  revert w. induction quotas as [|q quotas IH]; intros w; [done|].
  cbn [find_quota]. rewrite !filter_cons. destruct (decide (nq_namespace q = ns)) as [E|E]; [done|].
  rewrite IH. destruct (head (filter _ quotas)) as [q'|] eqn:H; [done|].
  f_equal. destruct (decide (nq_namespace q = RL_WILDCARD)); [|done].
  rewrite last_cons. by destruct (last _).
Qed.

Lemma get_quota_spec c ns :
  get_quota c ns =
  match head (filter (λ q, nq_namespace q = ns) (rlc_quotas c)) with
  | Some q => Ok q
  | None =>
      match last (filter (λ q, nq_namespace q = RL_WILDCARD) (rlc_quotas c)) with
      | Some q => Ok q
      | None => make_quota ns (rlc_default_rate_per_second c) (rlc_default_burst c)
                  (rlc_default_hourly_quota c) (rlc_default_daily_quota c)
      end
  end.
Proof.
  unfold get_quota. rewrite find_quota_spec.
  destruct (head _); [done|]. by destruct (last _).
Qed.

Lemma get_quota_ok c ns :
  config_ok c → is_blank ns = false → ∃ q, get_quota c ns = Ok q ∧ quota_ok q.
Proof.
  intros [Hv Hq Hb Hd] Hns. rewrite get_quota_spec.
  assert (∀ q, q ∈ rlc_quotas c → quota_ok q) as Hin.
  { intros q Hin. rewrite Forall_forall in Hq. destruct (Hq q Hin) as [E ?].
    apply quota_errors_nil in E. unfold quota_ok. naive_solver lia. }
  destruct (head _) as [q|] eqn:Eh.
  { exists q. split; [done|]. apply Hin. apply head_Some_elem_of in Eh.
    by apply list_elem_of_filter in Eh as [_ ?]. }
  destruct (last _) as [q|] eqn:El.
  { exists q. split; [done|]. apply Hin. apply last_Some_elem_of in El.
    by apply list_elem_of_filter in El as [_ ?]. }
  apply config_errors_nil in Hv. unfold make_quota.
  rewrite (proj2 (quota_errors_nil _)) by (cbn; naive_solver).
  eexists. split; [done|]. unfold quota_ok. cbn. naive_solver lia.
Qed.

Definition counter_ok (quota : NamespaceQuota) (q : QuotaCounter) : Prop :=
  0 ≤ qc_hourly_count q ∧ 0 ≤ qc_daily_count q ∧
  (0 < nq_hourly_quota quota → qc_hourly_count q ≤ nq_hourly_quota quota) ∧
  (0 < nq_daily_quota quota → qc_daily_count q ≤ nq_daily_quota quota).

Lemma reset_counter_ok quota now q :
  counter_ok quota q → counter_ok quota (qc_reset_if_needed now q).
Proof.
  unfold counter_ok, qc_reset_if_needed. intros H.
  destruct (fle HOUR _), (fle DAY _); cbn; naive_solver lia.
Qed.

Lemma check_counter_ok quota now q :
  counter_ok quota q →
  ∃ r q', qc_check_and_increment (nq_hourly_quota quota) (nq_daily_quota quota) now q
            = (Ok r, q') ∧ counter_ok quota q'.
Proof.
  intros H%(reset_counter_ok _ now). unfold qc_check_and_increment.
  step_run mmodify_run. step_run mget_run.
  set (q0 := qc_reset_if_needed now q) in *. destruct H as (?&?&?&?).
  destruct ((0 <? nq_hourly_quota quota) && _) eqn:E1; [by eexists _, _|].
  destruct ((0 <? nq_daily_quota quota) && _) eqn:E2; [by eexists _, _|].
  eexists _, _. split; [done|]. unfold counter_ok. cbn. lia.
Qed.

Lemma decrement_counter_ok quota q :
  counter_ok quota q → ∃ q', qc_decrement q = (Ok (), q') ∧ counter_ok quota q'.
Proof.
  intros (?&?&?&?). eexists. split; [done|]. unfold counter_ok. cbn.
  repeat case_match; lia.
Qed.

(** The state of the enforcer between requests. *)
Record enforcer_ok (s : Enforcer) : Prop := {
  eo_config : config_ok (rl_config s);
  eo_buckets : ∀ ns b, rl_buckets s !! ns = Some b →
    ∃ q, get_quota (rl_config s) ns = Ok q ∧ bucket_ok b ∧ tb_burst b = nq_burst q;
  eo_counters : ∀ ns c, rl_counters s !! ns = Some c →
    ∃ q, get_quota (rl_config s) ns = Ok q ∧ counter_ok q c
}.

Lemma enforcer_ok_tick s : enforcer_ok s → enforcer_ok (tick s).
Proof. by intros [? ? ?]. Qed.

Lemma enforcer_ok_bucket ns q b s :
  enforcer_ok s → get_quota (rl_config s) ns = Ok q → bucket_ok b → tb_burst b = nq_burst q →
  enforcer_ok (set_bucket ns b s).
Proof.
  intros [? HB ?] Eq Hb E. constructor; [done| |done].
  intros ns' b'. cbn. rewrite lookup_insert. case_decide; [|apply HB].
  intros [= <-]. subst. by exists q.
Qed.

Lemma enforcer_ok_counter ns q c s :
  enforcer_ok s → get_quota (rl_config s) ns = Ok q → counter_ok q c →
  enforcer_ok (set_counter ns c s).
Proof.
  intros [? ? HC] Eq Hc. constructor; [done|done|].
  intros ns' b'. cbn. rewrite lookup_insert. case_decide; [|apply HC].
  intros [= <-]. subst. by exists q.
Qed.

(** A successful step from [s] to [s'] of a request on [ns] whose bucket and
    counter exist. *)
Definition serving (ns : string) (s : Enforcer) : Prop :=
  enforcer_ok s ∧ is_Some (rl_buckets s !! ns) ∧ is_Some (rl_counters s !! ns).

Lemma serving_tick ns s : serving ns s → serving ns (tick s).
Proof. intros (?&?&?). split; [by apply enforcer_ok_tick|done]. Qed.

Lemma serving_on_bucket {A} ns q (m : M TokenBucket A) (P : A → Prop) s :
  serving ns s → get_quota (rl_config s) ns = Ok q →
  (∀ b, bucket_ok b → tb_burst b = nq_burst q →
     ∃ r b', m b = (Ok r, b') ∧ bucket_ok b' ∧ tb_burst b' = tb_burst b ∧ P r) →
  ∃ r s', on_bucket ns m s = (Ok r, s') ∧ serving ns s' ∧ rl_config s' = rl_config s ∧ P r.
Proof.
  intros (Hs & [b Eb] & Hc) Eq Hm. destruct (eo_buckets s Hs ns b Eb) as (q' & Eq' & Hb & Ebu).
  assert (q' = q) as -> by congruence.
  destruct (Hm b Hb Ebu) as (r & b' & E & Hb' & Ebu' & HP).
  exists r, (set_bucket ns b' s). split; [by eapply on_bucket_run|].
  split; [|done]. split; [eapply enforcer_ok_bucket; [done..|congruence]|].
  split; [|done]. cbn. by rewrite lookup_insert_eq.
Qed.

Lemma serving_on_counter {A} ns q (m : M QuotaCounter A) (P : A → Prop) s :
  serving ns s → get_quota (rl_config s) ns = Ok q →
  (∀ c, counter_ok q c → ∃ r c', m c = (Ok r, c') ∧ counter_ok q c' ∧ P r) →
  ∃ r s', on_counter ns m s = (Ok r, s') ∧ serving ns s' ∧ rl_config s' = rl_config s ∧ P r.
Proof.
  intros (Hs & Hb & [c Ec]) Eq Hm. destruct (eo_counters s Hs ns c Ec) as (q' & Eq' & Hc).
  assert (q' = q) as -> by congruence.
  destruct (Hm c Hc) as (r & c' & E & Hc' & HP).
  exists r, (set_counter ns c' s). split; [by eapply on_counter_run|].
  split; [|done]. split; [by eapply enforcer_ok_counter|].
  split; [done|]. cbn. by rewrite lookup_insert_eq.
Qed.

(** What a decision reports is within the quota that applies. *)
Definition within_quota (q : NamespaceQuota) (ns : string) (d : RateLimitDecision) : Prop :=
  rd_namespace d = ns ∧
  fle 0%float (rd_tokens_remaining d) = true ∧
  fle (rd_tokens_remaining d) (float_of_Z (nq_burst q)) = true ∧
  0 ≤ rd_hourly_used d ∧ 0 ≤ rd_daily_used d ∧
  (0 < nq_hourly_quota q → rd_hourly_used d ≤ nq_hourly_quota q) ∧
  (0 < nq_daily_quota q → rd_daily_used d ≤ nq_daily_quota q).

Lemma available_run now q b :
  bucket_ok b → tb_burst b = nq_burst q →
  ∃ x b', tb_available now b = (Ok x, b') ∧ bucket_ok b' ∧ tb_burst b' = tb_burst b ∧
    fle 0%float x = true ∧ fle x (float_of_Z (nq_burst q)) = true.
Proof.
  intros Hb Eb. destruct (tb_refill_run now b Hb) as (b' & E & Hb' & _ & Ebu & _).
  exists (tb_tokens b'), b'. unfold tb_available. step_run E.
  destruct Hb' as (? & ? & ? & cap & Ec & ?). rewrite Ebu in Ec. pose proof Ec as Ec'.
  apply py_float_of_Z_fin in Ec' as [-> _]. rewrite <- Eb.
  split_and!; try done. split_and!; try done. exists (float_of_Z (tb_burst b)).
  by rewrite Ebu.
Qed.

Lemma decision_run clock ns q result reason s :
  serving ns s → get_quota (rl_config s) ns = Ok q →
  ∃ d s', decision clock ns result reason s = (Ok d, s') ∧ serving ns s' ∧
    rl_config s' = rl_config s ∧ rd_result d = result ∧ within_quota q ns d.
Proof.
  intros Hs Eq. unfold decision. step_run read_clock_run.
  apply serving_tick in Hs.
  destruct (serving_on_bucket ns q (tb_available (clock (rl_ticks s)))
    (λ x, fle 0%float x = true ∧ fle x (float_of_Z (nq_burst q)) = true) _ Hs Eq)
    as (x & s1 & E1 & Hs1 & C1 & Hx); [intros; by apply available_run|].
  step_run E1. step_run read_clock_run. apply serving_tick in Hs1.
  destruct (serving_on_counter ns q (qc_hourly (clock (rl_ticks s1)))
    (λ x, 0 ≤ x ∧ (0 < nq_hourly_quota q → x ≤ nq_hourly_quota q)) _ Hs1)
    as (y & s2 & E2 & Hs2 & C2 & Hy); [cbn in *; congruence| |].
  { intros c Hc%(reset_counter_ok _ (clock (rl_ticks s1))). eexists _, _.
    split; [done|]. split; [done|]. by destruct Hc as (?&?&?&?). }
  step_run E2. step_run read_clock_run. apply serving_tick in Hs2.
  destruct (serving_on_counter ns q (qc_daily (clock (rl_ticks s2)))
    (λ x, 0 ≤ x ∧ (0 < nq_daily_quota q → x ≤ nq_daily_quota q)) _ Hs2)
    as (z & s3 & E3 & Hs3 & C3 & Hz); [cbn in *; congruence| |].
  { intros c Hc%(reset_counter_ok _ (clock (rl_ticks s2))). eexists _, _.
    split; [done|]. split; [done|]. by destruct Hc as (?&?&?&?). }
  step_run E3. eexists _, _. split; [done|]. split; [done|].
  split; [cbn in *; congruence|]. split; [done|]. unfold within_quota. cbn. tauto.
Qed.

Lemma get_bucket_run clock ns q s :
  enforcer_ok s → get_quota (rl_config s) ns = Ok q → quota_ok q →
  ∃ s', rl_get_bucket clock ns q s = (Ok (), s') ∧ enforcer_ok s' ∧
    rl_config s' = rl_config s ∧ is_Some (rl_buckets s' !! ns).
Proof.
  intros Hs Eq (Hr & Hb & _). destruct (rl_buckets s !! ns) as [b|] eqn:E.
  { exists s. split; [by eapply get_bucket_present|]. by rewrite E. }
  unfold rl_get_bucket. step_run mget_run.
  rewrite E, bool_decide_eq_false_2 by (by intros [? [=]]).
  step_run read_clock_run.
  assert (tb_init (nq_rate_per_second q) (nq_burst q) (clock (rl_ticks s)) =
    Ok (mk_bucket (nq_rate_per_second q) (nq_burst q) (float_of_Z (nq_burst q))
          (clock (rl_ticks s)))) as Ei.
  { unfold tb_init. by rewrite py_float_of_Z_ok by lia. }
  step_run (mlift_run _ _ (tick s) Ei).
  eexists. split; [done|]. split; [|split; [done|cbn; by rewrite lookup_insert_eq]].
  apply tb_init_ok in Ei as [Hok Ebu]; [|done|lia].
  by eapply enforcer_ok_bucket; [apply enforcer_ok_tick|..].
Qed.

Lemma get_counter_run clock ns q s :
  enforcer_ok s → get_quota (rl_config s) ns = Ok q → quota_ok q →
  ∃ s', rl_get_counter clock ns s = (Ok (), s') ∧ enforcer_ok s' ∧
    rl_config s' = rl_config s ∧ rl_buckets s' = rl_buckets s ∧
    is_Some (rl_counters s' !! ns).
Proof.
  intros Hs Eq (_ & _ & Hh & Hd). destruct (rl_counters s !! ns) as [c|] eqn:E.
  { exists s. split; [by eapply get_counter_present|]. by rewrite E. }
  unfold rl_get_counter. step_run mget_run.
  rewrite E, bool_decide_eq_false_2 by (by intros [? [=]]).
  do 2 step_run read_clock_run.
  eexists. split; [done|]. split; [|split_and!; [done|done|cbn; by rewrite lookup_insert_eq]].
  eapply enforcer_ok_counter; [by do 2 apply enforcer_ok_tick|done|].
  unfold counter_ok. cbn. lia.
Qed.

Lemma rl_check_run clock ns n q s :
  enforcer_ok s → get_quota (rl_config s) ns = Ok q → quota_ok q → 0 ≤ n →
  ∃ d s', rl_check clock ns n s = (Ok d, s') ∧ enforcer_ok s' ∧
    rl_config s' = rl_config s ∧ within_quota q ns d.
Proof.
  intros Hs Eq Hq Hn. unfold rl_check. step_run mget_run. step_run (mlift_run _ _ s Eq).
  destruct (get_bucket_run clock ns q s Hs Eq Hq) as (s1 & E1 & Hs1 & C1 & B1).
  step_run E1. rewrite <- C1 in Eq.
  destruct (get_counter_run clock ns q s1 Hs1 Eq Hq) as (s2 & E2 & Hs2 & C2 & B2 & K2).
  step_run E2. rewrite <- C2 in Eq. rewrite <- B2 in B1. step_run read_clock_run.
  assert (serving ns (tick s2)) as Sv by by apply serving_tick.
  destruct (serving_on_counter ns q (qc_check_and_increment (nq_hourly_quota q)
      (nq_daily_quota q) (clock (rl_ticks s2))) (λ _, True) _ Sv Eq)
    as ([reason|] & s3 & E3 & Sv3 & C3 & _).
  { intros c Hc. destruct (check_counter_ok q (clock (rl_ticks s2)) c Hc) as (r & c' & ? & ?).
    by exists r, c'. }
  { step_run E3. destruct (decision_run clock ns q QUOTA_EXCEEDED reason s3 Sv3)
      as (d & s' & Ed & [Hs' _] & C' & _ & W); [cbn in *; congruence|].
    exists d, s'. split_and!; try done. cbn in *; congruence. }
  step_run E3. cbv iota. step_run read_clock_run. apply serving_tick in Sv3.
  destruct (serving_on_bucket ns q (tb_consume n (clock (rl_ticks s3))) (λ _, True) _ Sv3)
    as ([] & s4 & E4 & Sv4 & C4 & _); [cbn in *; congruence|..].
  { intros b Hb _. destruct (tb_consume_run n (clock (rl_ticks s3)) b Hb Hn)
      as (r & b' & E & ? & _ & ? & _). by exists r, b'. }
  { step_run E4. destruct (decision_run clock ns q ALLOWED "ok" s4 Sv4)
      as (d & s' & Ed & [Hs' _] & C' & _ & W); [cbn in *; congruence|].
    exists d, s'. split_and!; try done. cbn in *; congruence. }
  step_run E4. cbv iota.
  destruct (serving_on_counter ns q qc_decrement (λ _, True) _ Sv4)
    as ([] & s5 & E5 & Sv5 & C5 & _); [cbn in *; congruence|..].
  { intros c Hc. destruct (decrement_counter_ok q c Hc) as (c' & ? & ?). by exists (), c'. }
  step_run E5. destruct (decision_run clock ns q RATE_LIMITED "rate limited" s5 Sv5)
    as (d & s' & Ed & [Hs' _] & C' & _ & W); [cbn in *; congruence|].
  exists d, s'. split_and!; try done. cbn in *; congruence.
Qed.

(** A sequence of requests for any namespaces. *)
Fixpoint rl_check_all (clock : nat → float) (reqs : list (string * Z))
  : M Enforcer (list RateLimitDecision) :=
  match reqs with
  | [] => mret []
  | (ns, n) :: reqs' =>
      d <- rl_check clock ns n ;;
      ds <- rl_check_all clock reqs' ;;
      mret (d :: ds)
  end.

Definition rl_init (c : RateLimitConfig) : Enforcer := mk_rl c ∅ ∅ 0.

Definition request_ok (r : string * Z) : Prop := is_blank r.1 = false ∧ 0 ≤ r.2.

Lemma rl_check_all_run clock cfg reqs s :
  enforcer_ok s → rl_config s = cfg → Forall request_ok reqs →
  ∃ ds s', rl_check_all clock reqs s = (Ok ds, s') ∧
    Forall2 (λ r d, ∃ q, get_quota cfg r.1 = Ok q ∧ within_quota q r.1 d) reqs ds.
Proof.
  intros Hs Hc Hr. revert s Hs Hc. induction Hr as [|[ns n] reqs [Hns Hn] Hr IH]; intros s Hs Hc.
  { exists [], s. split; [done|constructor]. }
  destruct (get_quota_ok cfg ns) as (q & Eq & Hq); [rewrite <- Hc; apply Hs|done|].
  destruct (rl_check_run clock ns n q s Hs) as (d & s1 & E1 & Hs1 & C1 & W1);
    [by rewrite Hc|done|done|].
  destruct (IH s1 Hs1) as (ds & s' & E' & H'); [congruence|].
  exists (d :: ds), s'. split; [cbn [rl_check_all fst snd]; step_run E1; by step_run E'|].
  constructor; [by exists q|done].
Qed.

(** ** Properties *)

(** The token bucket stays between empty and full: through any sequence of
    [consume] and [available] calls, whatever the clock reads (backwards,
    infinite or NaN) and whatever the rate, no call raises and
    0 <= tokens <= burst. *)
Theorem bucket_never_overfills rate burst now0 b cs :
  fle rate 0%float = false → 1 ≤ burst → tb_init rate burst now0 = Ok b →
  Forall call_ok cs →
  ∃ b', mfor cs run_bucket_call b = (Ok (), b') ∧ tb_burst b' = burst ∧
    fle 0%float (tb_tokens b') = true ∧ fle (tb_tokens b') (float_of_Z burst) = true.
Proof.
  intros Hr Hb Hi Hcs. destruct (tb_init_ok rate burst now0 b Hr Hb Hi) as [Hok Eb].
  destruct (run_bucket_calls cs b Hok Hcs) as (b' & E & Hb' & _ & Ebu).
  exists b'. destruct Hb' as (_ & _ & H0 & cap & Ec & Hle). rewrite Ebu, Eb in Ec.
  apply py_float_of_Z_fin in Ec as [-> _]. split_and!; try done. congruence.
Qed.

Lemma bucket_never_overfills_witness :
  ∃ b', mfor [BConsume 2 1%float; BConsume 9 nan; BAvailable (-5)%float; BConsume 1 infinity]
      run_bucket_call (mk_bucket 0.5 3 3 0) = (Ok (), b') ∧ tb_burst b' = 3 ∧
    fle 0%float (tb_tokens b') = true ∧ fle (tb_tokens b') (float_of_Z 3) = true.
Proof.
  apply (bucket_never_overfills 0.5 3 0).
  - reflexivity.
  - lia.
  - vm_compute. reflexivity.
  - repeat constructor; simpl; lia.
Defined.

(** Quotas hold: from a fresh enforcer with a validated configuration, over
    any sequence of requests and any clock, no request raises, and every
    decision reports a token balance between zero and the burst and counts
    that exceed neither the hourly nor the daily quota of its namespace. *)
Theorem rl_quotas_hold clock cfg reqs :
  config_ok cfg → Forall request_ok reqs →
  ∃ ds s', rl_check_all clock reqs (rl_init cfg) = (Ok ds, s') ∧
    Forall2 (λ r d, ∃ q, get_quota cfg r.1 = Ok q ∧ within_quota q r.1 d) reqs ds.
Proof.
  intros Hc Hr. apply (rl_check_all_run clock cfg); [|done|done].
  by constructor; [done| |]; intros ? ?; cbn; rewrite lookup_empty.
Qed.

Definition demo_rlconfig : RateLimitConfig :=
  mk_rlconfig [mk_quota "prod" 10%float 2 3 0; mk_quota "*" 1%float 5 0 4] 100%float 200 0 0.

Lemma rl_quotas_hold_witness :
  ∃ ds s', rl_check_all (λ n, float_of_Z (Z.of_nat n)) [("prod", 1); ("dev", 2)]
      (rl_init demo_rlconfig) = (Ok ds, s') ∧
    Forall2 (λ r d, ∃ q, get_quota demo_rlconfig r.1 = Ok q ∧ within_quota q r.1 d)
      [("prod", 1); ("dev", 2)] ds.
Proof.
  apply (rl_quotas_hold (λ n, float_of_Z (Z.of_nat n)) demo_rlconfig).
  - constructor; [reflexivity| |vm_compute; discriminate|reflexivity].
    repeat constructor; vm_compute; discriminate.
  - repeat constructor; vm_compute; discriminate.
Defined.

(** C9. Exact admission.  While the clock stands still, the enforcer is the
    integer machine [spec_checks] on any requests for a namespace first seen,
    and of [k] single-token requests it admits exactly the least of [k], the
    burst, and the quotas that are set. *)
Theorem rl_admission_exact c s ns quota :
  isfinite c = true → isfinite (nq_rate_per_second quota) = true →
  quota_errors quota = [] → nq_burst quota ≤ 2 ^ 53 →
  rl_buckets s !! ns = None → rl_counters s !! ns = None →
  get_quota (rl_config s) ns = Ok quota →
  (∀ tokens, Forall (λ n, 0 ≤ n) tokens →
     result (check_many (still c) ns tokens) s =
       Ok (spec_checks (nq_hourly_quota quota) (nq_daily_quota quota) tokens
             (nq_burst quota, 0, 0)).1) ∧
  ∀ k, ∃ rs, result (check_many (still c) ns (replicate k 1)) s = Ok rs ∧
    allowed rs = Z.min (Z.min (Z.of_nat k) (nq_burst quota))
      (Z.min (quota_bound (nq_hourly_quota quota) (Z.of_nat k))
             (quota_bound (nq_daily_quota quota) (Z.of_nat k))).
Proof.
  intros Fc Fr Hq Hb Eb Ec Eq. apply quota_errors_nil in Hq as (_ & _ & H1 & Hh & Hd & _).
  assert (∀ tokens, Forall (λ n, 0 ≤ n) tokens →
     result (check_many (still c) ns tokens) s =
       Ok (spec_checks (nq_hourly_quota quota) (nq_daily_quota quota) tokens
             (nq_burst quota, 0, 0)).1) as Hrun.
  { intros tokens Ht. unfold result.
    by destruct (check_many_fresh c quota ns tokens s Fc Fr (conj H1 Hb) Ht Eb Ec Eq)
      as [s' ->]. }
  split; [done|]. intros k. eexists. split.
  - apply Hrun. by apply Forall_replicate.
  - rewrite spec_checks_allowed by lia. by rewrite !Z.add_0_l, !Z.sub_0_r.
Qed.

Lemma rl_admission_exact_witness :
  ∃ rs, result (check_many (still 7%float) "prod" (replicate 5 1)) (rl_init demo_rlconfig) = Ok rs ∧
    allowed rs = 2.
Proof.
  apply (proj2 (rl_admission_exact 7%float (rl_init demo_rlconfig) "prod"
    (mk_quota "prod" 10%float 2 3 0) eq_refl eq_refl eq_refl ltac:(vm_compute; discriminate)
    eq_refl eq_refl eq_refl) 5%nat).
Defined.

(** Precedence: [get_quota] returns the first entry for the namespace
    itself, else the last wildcard entry, else a quota made of the defaults
    (which is validated then). *)
Theorem get_quota_precedence c ns :
  get_quota c ns =
  match head (filter (λ q, nq_namespace q = ns) (rlc_quotas c)) with
  | Some q => Ok q
  | None =>
      match last (filter (λ q, nq_namespace q = RL_WILDCARD) (rlc_quotas c)) with
      | Some q => Ok q
      | None => make_quota ns (rlc_default_rate_per_second c) (rlc_default_burst c)
                  (rlc_default_hourly_quota c) (rlc_default_daily_quota c)
      end
  end.
Proof. apply get_quota_spec. Qed.

(** ** What validation lets through *)

Lemma nan_refill t e r cap :
  isnan r = true → flt (t + e * r)%float cap = false.
Proof.
  intros Hr%isnan_SF. apply not_true_is_false. intros H.
  apply flt_num_l, num_spec in H. apply H.
  rewrite FloatAxioms.add_spec, FloatAxioms.mul_spec, Hr. unfold SF64mul, SF64add.
  by destruct (Prim2SF t), (Prim2SF e).
Qed.

(** A NaN rate is accepted ("must be > 0" is tested as [<= 0]) and the bucket
    then refills completely at every call: it never limits. *)
Lemma nan_rate_never_limits b n now :
  isnan (tb_rate b) = true → 0 ≤ n ≤ tb_burst b → tb_burst b ≤ 2 ^ 53 →
  ∃ b', tb_consume n now b = (Ok true, b').
Proof.
  intros Hr Hn Hb. assert (2 ^ 53 ≤ 2 ^ 1023) by done.
  assert (tb_refill now b = (Ok (), mk_bucket (tb_rate b) (tb_burst b)
    (float_of_Z (tb_burst b)) now)) as E.
  { unfold tb_refill. step_run mget_run. step_run (mlift_run _ _ b); [|by apply py_float_of_Z_ok; lia].
    unfold mmodify. do 3 f_equal. unfold fmin. by rewrite nan_refill. }
  unfold tb_consume. step_run E. step_run mget_run. cbn [tb_tokens].
  assert (fge_Z (float_of_Z (tb_burst b)) n = true) as ->.
  { apply fge_Z_val; [apply float_of_Z_finite; lia|]. rewrite fval_float_of_Z_small by lia.
    apply Z.mul_le_mono_nonneg_r; [done|lia]. }
  step_run mlift_run; [|by apply py_float_of_Z_ok; lia]. by eexists.
Qed.

(** Contradictory defaults are accepted by [RateLimitConfig] and reported as
    PASS, and then every request of an unlisted namespace raises. *)
Definition contradictory_config : RateLimitConfig := mk_rlconfig [] 100%float 200 100 10.

Lemma contradictory_defaults_accepted :
  make_config contradictory_config = Ok contradictory_config ∧
  check_rate_limit_config contradictory_config = ("PASS", 0, []) ∧
  ∀ clock, result (rl_check clock "any" 1) (rl_init contradictory_config) =
    Raise (ValueError "NamespaceQuota errors").
Proof. split_and!; done. Qed.

(** The roll-back of a rejected request is not in the same critical section as
    its increment.  Below, the steps of three requests on one counter with an
    hourly quota of one: the first is counted at 3599 s; the second at 3600 s
    starts a new window and is served; the first, rejected by the bucket,
    rolls back the new window; the third is then served in that window too. *)
Definition raced_steps : M QuotaCounter (list (option string)) :=
  r1 <- qc_check_and_increment 1 0 3599%float ;;
  r2 <- qc_check_and_increment 1 0 3600%float ;;
  qc_decrement ;;;
  r3 <- qc_check_and_increment 1 0 3601%float ;;
  mret [r1; r2; r3].

Lemma rollback_of_another_window :
  raced_steps (qc_init 0%float 0%float) =
    (Ok [None; None; None], mk_counter 1 2 3600%float 0%float).
Proof. vm_compute. reflexivity. Qed.
