(* ===== verification/AlertManager.v ===== *)
(** * The alert management center ([alert_manager.py])

    Alerts, silences, routes and channels with their validation; the store of
    active and past alerts and the document it persists; routing; delivery
    with retries; and the facade that composes them.  Proved: a silenced alert
    is never delivered; any other is delivered exactly to the channels the
    routes name, with at most three attempts each; routing agrees with its
    reference definition; the store keeps its invariant and survives a reload.

    Arguments whose type the code does not check have the annotated type. *)

From Stdlib Require Import PrimFloat Ascii String.
From S2P Require Import Prelude PyFloat PyVal PyNum PyDict.

#[local] Open Scope Z_scope.
#[local] Open Scope py_scope.

Definition SEVERITIES : list string := ["critical"; "warning"; "info"].
Definition STATUSES : list string := ["firing"; "resolved"; "silenced"].
Definition ADAPTERS : list string := ["slack"; "discord"; "pagerduty"; "opsgenie"; "webhook"].
Definition MAX_RETRY : nat := 3.
Definition DELIVERY_TIMEOUT : Z := 10.

(** [v in names], for a tuple of strings *)
Definition one_of (names : list string) (v : pyval) : bool := existsb (λ s, py_eq v (VStr s)) names.

(** [isinstance(v, str) and v.strip()] *)
Definition nonblank (v : pyval) : bool :=
  match v with VStr s => negb (is_blank s) | _ => false end.
Definition is_str (v : pyval) : bool := match v with VStr _ => true | _ => false end.
Definition is_dict (v : pyval) : bool := match v with VDict _ => true | _ => false end.

(** [isinstance(v, (int, float)) and math.isfinite(float(v))] *)
Definition finite_number (v : pyval) : res bool :=
  match real_number v with
  | None => Ok false
  | Some n => let? x := pn_float n in Ok (isfinite x)
  end.

(** ** Alerts *)

Record Alert := mk_alert {
  al_name : pyval;
  al_namespace : pyval;
  al_stream : pyval;
  al_severity : pyval;
  al_status : pyval;
  al_labels : pyval;
  al_annotations : pyval;
  al_fired_at : pyval;
  al_resolved_at : pyval;
  al_tenant : pyval;
  al_id : string
}.

Definition error_if (b : bool) (msg : string) : list string := if b then [msg] else [].

(** [Alert.__post_init__]: the errors found. *)
Definition alert_errors (a : Alert) : res (list string) :=
  let? fired := finite_number (al_fired_at a) in
  let? resolved := match al_resolved_at a with VNone => Ok true | v => finite_number v end in
  Ok (error_if (negb (nonblank (al_name a))) "name must be a non-empty string"
      ++ error_if (negb (nonblank (al_namespace a))) "namespace must be a non-empty string"
      ++ error_if (negb (is_str (al_stream a))) "stream must be a string"
      ++ error_if (negb (one_of SEVERITIES (al_severity a))) "severity must be one of"
      ++ error_if (negb (one_of STATUSES (al_status a))) "status must be one of"
      ++ error_if (negb (is_dict (al_labels a))) "labels must be a dict"
      ++ error_if (negb (is_dict (al_annotations a))) "annotations must be a dict"
      ++ error_if (negb fired) "fired_at must be a finite number"
      ++ error_if (negb resolved) "resolved_at must be a finite number or None").

Definition make_alert (a : Alert) : res Alert :=
  let? errors := alert_errors a in
  match errors with
  | [] => Ok a
  | _ => Raise (ValueError "Alert validation errors")
  end.

(** [dataclasses.replace], which validates again. *)
Definition alert_resolve (a : Alert) (resolved_at : option float) (now : float) : res Alert :=
  make_alert (mk_alert (al_name a) (al_namespace a) (al_stream a) (al_severity a) (VStr "resolved")
    (al_labels a) (al_annotations a) (al_fired_at a) (VFloat (default now resolved_at))
    (al_tenant a) (al_id a)).
Definition alert_silence (a : Alert) : res Alert :=
  make_alert (mk_alert (al_name a) (al_namespace a) (al_stream a) (al_severity a) (VStr "silenced")
    (al_labels a) (al_annotations a) (al_fired_at a) (al_resolved_at a) (al_tenant a) (al_id a)).

Definition alert_to_dict (a : Alert) : pyval :=
  VDict [(VStr "name", al_name a); (VStr "namespace", al_namespace a); (VStr "stream", al_stream a);
         (VStr "severity", al_severity a); (VStr "status", al_status a); (VStr "labels", al_labels a);
         (VStr "annotations", al_annotations a); (VStr "fired_at", al_fired_at a);
         (VStr "resolved_at", al_resolved_at a); (VStr "tenant", al_tenant a);
         (VStr "alert_id", VStr (al_id a))].

(** ** Matching *)

(** [labels.get(k) != v] for no item of [wanted]. *)
Definition labels_match (wanted labels : pyval) : bool :=
  match wanted, labels with
  | VDict w, VDict l =>
      forallb (λ kv, match kv.1 with
        | VStr k => py_eq (default VNone (dict_get l k)) kv.2
        | _ => py_eq VNone kv.2
        end) w
  | _, _ => true
  end.

Definition field_match (wanted : string) (v : pyval) : bool :=
  bool_decide (wanted = "") || py_eq v (VStr wanted).

Record matcher := mk_matcher {
  mt_namespace : string;
  mt_stream : string;
  mt_severity : string;
  mt_tenant : string;
  mt_labels : pyval
}.

(** The part [Silence.matches] and [Route.matches] share. *)
Definition matches (m : matcher) (a : Alert) : bool :=
  field_match (mt_namespace m) (al_namespace a)
  && field_match (mt_stream m) (al_stream a)
  && field_match (mt_severity m) (al_severity a)
  && field_match (mt_tenant m) (al_tenant a)
  && labels_match (mt_labels m) (al_labels a).

Definition matcher_errors (m : matcher) : list string :=
  error_if (negb (bool_decide (mt_severity m = ""))
            && negb (bool_decide (mt_severity m ∈ SEVERITIES))) "match_severity must be one of"
  ++ error_if (negb (is_dict (mt_labels m))) "match_labels must be a dict".

(** ** Silences *)

Record Silence := mk_silence {
  si_starts : float;
  si_ends : float;
  si_match : matcher;
  si_comment : string;
  si_created_by : string;
  si_id : string
}.

Definition make_silence (s : Silence) : res Silence :=
  let errors :=
    error_if (negb (isfinite (si_starts s))) "starts_at must be a finite number"
    ++ error_if (negb (isfinite (si_ends s))) "ends_at must be a finite number"
    ++ error_if (isfinite (si_starts s) && isfinite (si_ends s) && fle (si_ends s) (si_starts s))
         "ends_at must be strictly greater than starts_at"
    ++ matcher_errors (si_match s) in
  match errors with
  | [] => Ok s
  | _ => Raise (ValueError "Silence validation errors")
  end.

Definition is_active (s : Silence) (t : float) : bool := fle (si_starts s) t && flt t (si_ends s).

Definition silence_matches (s : Silence) (a : Alert) (t : float) : bool :=
  is_active s t && matches (si_match s) a.

(** ** Routes *)

Record Route := mk_route {
  ro_channels : list string;
  ro_match : matcher;
  ro_continue : bool
}.

(** The channels are a list of names, so only an empty list is an error. *)
Definition make_route (r : Route) : res Route :=
  let errors :=
    error_if (match ro_channels r with [] => true | _ => false end)
      "channels must be a non-empty list"
    ++ matcher_errors (ro_match r) in
  match errors with
  | [] => Ok r
  | _ => Raise (ValueError "Route validation errors")
  end.

Definition route_matches (r : Route) (a : Alert) : bool := matches (ro_match r) a.

(** ** Channels *)

Record ChannelConfig := mk_channel {
  ch_name : pyval;
  ch_adapter : pyval;
  ch_url : pyval;
  ch_token : string;
  ch_token_env : string;
  ch_timeout : pyval;
  ch_send_resolved : bool
}.

Definition make_channel (c : ChannelConfig) : res ChannelConfig :=
  let errors :=
    error_if (negb (nonblank (ch_name c))) "name must be a non-empty string"
    ++ error_if (negb (one_of ADAPTERS (ch_adapter c))) "adapter must be one of"
    ++ error_if (match ch_url c with VStr u => negb (py_startswith u "https://") | _ => true end)
         "url must start with https://"
    ++ error_if (match ch_timeout c with
                 | VInt n => n <? 1
                 | VBool b => negb b
                 | _ => true
                 end) "timeout_s must be a positive integer" in
  match errors with
  | [] => Ok c
  | _ => Raise (ValueError "ChannelConfig validation errors")
  end.

(** [resolved_token], given the environment. *)
Definition resolved_token (environ : string → string) (c : ChannelConfig) : string :=
  if bool_decide (ch_token_env c = "") then ch_token c
  else let v := environ (ch_token_env c) in if bool_decide (v = "") then ch_token c else v.

(** ** Payloads *)

Definition str_of (v : pyval) : string := match v with VStr s => s | _ => "" end.

Definition annotation (a : Alert) (k : string) : option pyval :=
  match al_annotations a with VDict d => dict_get d k | _ => None end.

(** [alert.annotations.get("description")], when it is a non-empty text. *)
Definition description (a : Alert) : option string :=
  match annotation a "description" with
  | Some (VStr s) => if bool_decide (s = ""%string) then None else Some s
  | _ => None
  end.

Definition by_severity {A} (a : Alert) (critical warning info other : A) : A :=
  if bool_decide (str_of (al_severity a) = "critical") then critical
  else if bool_decide (str_of (al_severity a) = "warning") then warning
  else if bool_decide (str_of (al_severity a) = "info") then info else other.

Definition newline : string := String (ascii_of_nat 10) "".
(** [chr(8212)] *)
Definition em_dash : string :=
  String (ascii_of_nat 226) (String (ascii_of_nat 128) (String (ascii_of_nat 148) "")).
Definition or_else (s d : string) : string := if bool_decide (s = ""%string) then d else s.

Definition build_slack_payload (a : Alert) : pyval :=
  let emoji := by_severity a ":red_circle:" ":large_yellow_circle:" ":large_blue_circle:"
                 ":white_circle:"%string in
  let text := (emoji ++ " *[" ++ py_upper (str_of (al_status a)) ++ "]* *" ++ str_of (al_name a) ++ "*"
    ++ newline ++ "Namespace: `" ++ str_of (al_namespace a) ++ "`  Stream: `"
    ++ or_else (str_of (al_stream a)) em_dash ++ "`  Severity: `" ++ str_of (al_severity a) ++ "`")%string in
  let text := match description a with
              | Some d => (text ++ newline ++ ">" ++ d)%string
              | None => text
              end in
  VDict [(VStr "text", VStr text)].

(** [strftime] stands for [time.strftime("%Y-%m-%dT%H:%M:%SZ", time.gmtime(t))]. *)
Definition build_discord_payload (strftime : pyval → string) (a : Alert) : pyval :=
  let color := by_severity a 0xE53935 0xFB8C00 0x1E88E5 0x90A4AE in
  let field name value :=
    VDict [(VStr "name", VStr name); (VStr "value", VStr value); (VStr "inline", VBool true)] in
  let embed :=
    [(VStr "title", VStr ("[" ++ py_upper (str_of (al_status a)) ++ "] " ++ str_of (al_name a))%string);
     (VStr "color", VInt color);
     (VStr "fields", VList [field "Namespace"%string (str_of (al_namespace a));
                            field "Stream"%string (or_else (str_of (al_stream a)) "N/A");
                            field "Severity"%string (str_of (al_severity a))]);
     (VStr "timestamp", VStr (strftime (al_fired_at a)))]
    ++ match description a with
       | Some d => [(VStr "description", VStr d)]
       | None => []
       end in
  VDict [(VStr "embeds", VList [VDict embed])].

(** [{**d, **e}] *)
Definition dict_merge (d e : pydict) : pydict :=
  foldl (λ d kv, match kv.1 with
    | VStr k => if existsb (λ x, py_eq x.1 (VStr k)) d
                then map (λ x, if py_eq x.1 (VStr k) then (x.1, kv.2) else x) d else d ++ [kv]
    | _ => d ++ [kv]
    end) d e.
Definition entries (v : pyval) : pydict := match v with VDict d => d | _ => [] end.

Definition build_pagerduty_payload (a : Alert) (routing_key : string) : pyval :=
  let action := if bool_decide (str_of (al_status a) = "resolved") then "resolve" else "trigger"%string in
  VDict [(VStr "routing_key", VStr routing_key);
         (VStr "event_action", VStr action);
         (VStr "dedup_key", VStr (al_id a));
         (VStr "payload", VDict
           [(VStr "summary", al_name a);
            (VStr "source", VStr (if bool_decide (str_of (al_stream a) = ""%string)
               then str_of (al_namespace a)
               else (str_of (al_namespace a) ++ "/" ++ str_of (al_stream a))%string));
            (VStr "severity", al_severity a);
            (VStr "custom_details", VDict (dict_merge (entries (al_labels a)) (entries (al_annotations a))))])].

(** The payload, the headers and the address. *)
Definition build_opsgenie_payload (a : Alert) (api_key base_url : string)
  : pyval * list (string * string) * string :=
  let headers := [("Authorization", ("GenieKey " ++ api_key)%string)] in
  if bool_decide (str_of (al_status a) = "resolved") then
    (VDict [(VStr "source", VStr "sketchlog-alert-manager"); (VStr "note", VStr "Resolved by SketchLog")],
     headers,
     (py_rstrip "/"%char base_url ++ "/" ++ al_id a ++ "/close?identifierType=alias")%string)
  else
    (VDict [(VStr "message", al_name a); (VStr "alias", VStr (al_id a));
            (VStr "description", default (VStr "") (annotation a "description"));
            (VStr "source", VStr "sketchlog-alert-manager");
            (VStr "priority", VStr (by_severity a "P1" "P3" "P5" "P3"%string));
            (VStr "tags", VList (map (λ kv, VStr (str_of kv.1 ++ ":" ++ str_of kv.2)%string)
                                  (entries (al_labels a))));
            (VStr "details", al_annotations a)],
     headers, base_url).

(** A request: address, body and headers. *)
Record request := mk_request {
  rq_url : string;
  rq_payload : pyval;
  rq_headers : list (string * string);
  rq_timeout : pyval
}.

Definition channel_request (environ : string → string) (strftime : pyval → string)
    (a : Alert) (c : ChannelConfig) : request :=
  let token := resolved_token environ c in
  let url := str_of (ch_url c) in
  let adapter := str_of (ch_adapter c) in
  let plain p := mk_request url p [] (ch_timeout c) in
  if bool_decide (adapter = "slack") then plain (build_slack_payload a)
  else if bool_decide (adapter = "discord") then plain (build_discord_payload strftime a)
  else if bool_decide (adapter = "pagerduty") then plain (build_pagerduty_payload a token)
  else if bool_decide (adapter = "opsgenie") then
    let '(p, h, u) := build_opsgenie_payload a token url in mk_request u p h (ch_timeout c)
  else mk_request url (alert_to_dict a)
         (if bool_decide (token = ""%string) then []
          else [("Authorization", ("Bearer " ++ token)%string)]) (ch_timeout c).

(** ** State *)

Inductive DeliveryStatus := DPending | DSent | DFailed | DSkipped.

Record DeliveryRecord := mk_record {
  dr_alert_id : string;
  dr_channel : string;
  dr_adapter : string;
  dr_status : DeliveryStatus;
  dr_attempts : nat;
  dr_last_attempt_at : option float;
  dr_last_error : string;
  dr_sent_at : option float
}.

(** The facade with its parts; [am_file] is the document last written when
    persistence is on, [am_ticks] counts the readings of the clock, and
    [am_requests] the requests made so far, the latest first. *)
Record manager := mk_manager {
  am_active : list (string * Alert);
  am_history : list Alert;
  am_silences : list (string * Silence);
  am_routes : list Route;
  am_default : list string;
  am_channels : list (string * ChannelConfig);
  am_records : list (string * DeliveryRecord);
  am_persist : bool;
  am_file : option pyval;
  am_ticks : nat;
  am_requests : list request
}.

Definition set_store (active : list (string * Alert)) (history : list Alert) (s : manager) : manager :=
  mk_manager active history (am_silences s) (am_routes s) (am_default s) (am_channels s)
    (am_records s) (am_persist s) (am_file s) (am_ticks s) (am_requests s).
Definition set_file (f : option pyval) (s : manager) : manager :=
  mk_manager (am_active s) (am_history s) (am_silences s) (am_routes s) (am_default s) (am_channels s)
    (am_records s) (am_persist s) f (am_ticks s) (am_requests s).
Definition set_silences (x : list (string * Silence)) (s : manager) : manager :=
  mk_manager (am_active s) (am_history s) x (am_routes s) (am_default s) (am_channels s)
    (am_records s) (am_persist s) (am_file s) (am_ticks s) (am_requests s).
Definition set_routes (x : list Route) (s : manager) : manager :=
  mk_manager (am_active s) (am_history s) (am_silences s) x (am_default s) (am_channels s)
    (am_records s) (am_persist s) (am_file s) (am_ticks s) (am_requests s).
Definition set_channels (x : list (string * ChannelConfig)) (s : manager) : manager :=
  mk_manager (am_active s) (am_history s) (am_silences s) (am_routes s) (am_default s) x
    (am_records s) (am_persist s) (am_file s) (am_ticks s) (am_requests s).
Definition set_records (x : list (string * DeliveryRecord)) (s : manager) : manager :=
  mk_manager (am_active s) (am_history s) (am_silences s) (am_routes s) (am_default s) (am_channels s)
    x (am_persist s) (am_file s) (am_ticks s) (am_requests s).
Definition tick (s : manager) : manager :=
  mk_manager (am_active s) (am_history s) (am_silences s) (am_routes s) (am_default s) (am_channels s)
    (am_records s) (am_persist s) (am_file s) (S (am_ticks s)) (am_requests s).
Definition log_request (r : request) (s : manager) : manager :=
  mk_manager (am_active s) (am_history s) (am_silences s) (am_routes s) (am_default s) (am_channels s)
    (am_records s) (am_persist s) (am_file s) (am_ticks s) (r :: am_requests s).

Definition status_is (a : Alert) (names : list string) : bool := one_of names (al_status a).

(** ** The store *)

Definition store_val (active : list (string * Alert)) (history : list Alert) : pyval :=
  VDict [(VStr "active", VList (map (λ kv, alert_to_dict kv.2) active));
         (VStr "history", VList (map alert_to_dict history))].

Definition upsert (a : Alert) : M manager unit :=
  mmodify (λ s,
    if status_is a ["resolved"; "silenced"]
    then set_store (od_del (al_id a) (am_active s)) (am_history s ++ [a]) s
    else set_store (od_set (al_id a) a (am_active s)) (am_history s) s) ;;;
  s <- mget ;;
  if am_persist s
  then mmodify (set_file (Some (store_val (am_active s) (am_history s)))) else mret ().

Definition list_history (s : manager) (namespace stream severity : string) (limit : nat) : list Alert :=
  take limit (filter (λ a, field_match namespace (al_namespace a) && field_match stream (al_stream a)
                           && field_match severity (al_severity a) = true) (rev (am_history s))).

(** An alert made from a dictionary of fields: those given, [now] and [new_id] for those left out. *)
Definition ALERT_FIELDS : list string :=
  ["name"; "namespace"; "stream"; "severity"; "status"; "labels"; "annotations"; "fired_at";
   "resolved_at"; "tenant"; "alert_id"].

Definition alert_of_dict (now : float) (new_id : string) (v : pyval) : res Alert :=
  match v with
  | VDict d =>
      if forallb (λ kv, match kv.1 with VStr k => bool_decide (k ∈ ALERT_FIELDS) | _ => false end) d then
        let missing := TypeError "missing required argument" in
        match dict_get d "name", dict_get d "namespace", dict_get d "stream", dict_get d "severity",
              default (VStr new_id) (dict_get d "alert_id") with
        | Some name, Some namespace, Some stream, Some severity, VStr i =>
            make_alert (mk_alert name namespace stream severity
              (default (VStr "firing") (dict_get d "status"))
              (default (VDict []) (dict_get d "labels"))
              (default (VDict []) (dict_get d "annotations"))
              (default (VFloat now) (dict_get d "fired_at"))
              (default VNone (dict_get d "resolved_at"))
              (default (VStr "") (dict_get d "tenant")) i)
        | _, _, _, _, _ => Raise missing
        end
      else Raise (TypeError "unexpected keyword argument")
  | _ => Raise (TypeError "argument after ** must be a mapping")
  end.

(** [_load]: a document that cannot be parsed ([None]) leaves the store empty;
    entries that are not alerts are skipped. *)
Definition load_list (now : float) (new_id : string) (v : pyval) : list Alert :=
  match v with
  | VList l => omap (λ d, match alert_of_dict now new_id d with Ok a => Some a | Raise _ => None end) l
  | _ => []
  end.

Definition load_store (now : float) (new_id : string) (doc : option pyval)
  : list (string * Alert) * list Alert :=
  match doc with
  | Some (VDict d) =>
      (foldl (λ m a, od_set (al_id a) a m) []
         (load_list now new_id (default (VList []) (dict_get d "active"))),
       load_list now new_id (default (VList []) (dict_get d "history")))
  | _ => ([], [])
  end.

Section Manager.
(** The clock, the environment, and the outcome of each request, by the
    number of requests made before it. *)
Context (clock : nat → float) (environ : string → string) (strftime : pyval → string).
Context (respond : nat → request → option string).

Definition now : M manager float := s <- mget ;; mmodify tick ;;; mret (clock (am_ticks s)).

(** ** Delivery *)

Definition record_key (alert_id channel : string) : string := (alert_id ++ ":" ++ channel)%string.

Definition store_record (r : DeliveryRecord) : M manager unit :=
  mmodify (λ s, set_records (od_set (record_key (dr_alert_id r) (dr_channel r)) r (am_records s)) s).

(** [_deliver_to_channel]: [Some] error or success. *)
Definition deliver_to_channel (a : Alert) (c : ChannelConfig) : M manager (option string) :=
  s <- mget ;;
  let r := channel_request environ strftime a c in
  mmodify (log_request r) ;;;
  mret (respond (length (am_requests s)) r).

(** The loop over the attempts, [left] of them remaining. *)
Fixpoint attempts (left : nat) (a : Alert) (c : ChannelConfig) (rec : DeliveryRecord)
  : M manager DeliveryRecord :=
  match left with
  | O => mret rec
  | S left' =>
      t <- now ;;
      outcome <- deliver_to_channel a c ;;
      let attempt := S (dr_attempts rec) in
      match outcome with
      | None =>
          t' <- now ;;
          mret (mk_record (dr_alert_id rec) (dr_channel rec) (dr_adapter rec) DSent attempt
                  (Some t) "" (Some t'))
      | Some error =>
          attempts left' a c
            (mk_record (dr_alert_id rec) (dr_channel rec) (dr_adapter rec)
               (if bool_decide (attempt < MAX_RETRY)%nat then dr_status rec else DFailed) attempt
               (Some t) (py_take 300 error) (dr_sent_at rec))
      end
  end.

Definition deliver_one (a : Alert) (ch : string) : M manager DeliveryRecord :=
  s <- mget ;;
  match od_get (am_channels s) ch with
  | None =>
      let rec := mk_record (al_id a) ch "unknown" DFailed 0 None "channel not configured" None in
      store_record rec ;;; mret rec
  | Some cfg =>
      let adapter := str_of (ch_adapter cfg) in
      if status_is a ["resolved"] && negb (ch_send_resolved cfg) then
        let rec := mk_record (al_id a) ch adapter DSkipped 0 None "" None in
        store_record rec ;;; mret rec
      else
        let rec := mk_record (al_id a) ch adapter DPending 0 None "" None in
        store_record rec ;;;
        rec <- attempts MAX_RETRY a cfg rec ;;
        store_record rec ;;; mret rec
  end.

Fixpoint deliver (a : Alert) (names : list string) : M manager (list DeliveryRecord) :=
  match names with
  | [] => mret []
  | ch :: names => r <- deliver_one a ch ;; rs <- deliver a names ;; mret (r :: rs)
  end.

(** ** Silencing and routing *)

Definition is_silenced (a : Alert) : M manager bool :=
  t <- now ;; mgets (λ s, existsb (λ kv, silence_matches kv.2 a t) (am_silences s)).

(** [matched.extend(ch for ch in channels if ch not in matched)] *)
Definition extend_new (matched channels : list string) : list string :=
  foldl (λ m ch, if bool_decide (ch ∈ m) then m else m ++ [ch]) matched channels.

Fixpoint resolve_channels_from (routes : list Route) (a : Alert) (matched defaults : list string)
  : list string :=
  match routes with
  | [] => match matched with [] => defaults | _ => matched end
  | r :: routes =>
      if route_matches r a then
        let matched := extend_new matched (ro_channels r) in
        if ro_continue r then resolve_channels_from routes a matched defaults else matched
      else resolve_channels_from routes a matched defaults
  end.
Definition resolve_channels (s : manager) (a : Alert) : list string :=
  resolve_channels_from (am_routes s) a [] (am_default s).

(** ** The facade *)

Definition ingest (a : Alert) : M manager (list DeliveryRecord) :=
  silenced <- is_silenced a ;;
  if (silenced : bool) then
    a' <- mlift (alert_silence a) ;;
    upsert a' ;;; mret []
  else
    upsert a ;;;
    s <- mget ;;
    match resolve_channels s a with
    | [] => mret []
    | channels => deliver a channels
    end.

Definition resolve (alert_id : string) : M manager (option (list DeliveryRecord)) :=
  s <- mget ;;
  match od_get (am_active s) alert_id with
  | None => mret None
  | Some a =>
      t <- now ;;
      resolved <- mlift (alert_resolve a None t) ;;
      upsert resolved ;;;
      s <- mget ;;
      rs <- match resolve_channels s resolved with
            | [] => mret []
            | channels => deliver resolved channels
            end ;;
      mret (Some rs)
  end.

Definition add_silence (x : Silence) : M manager unit :=
  mmodify (λ s, set_silences (od_set (si_id x) x (am_silences s)) s).
Definition remove_silence (i : string) : M manager bool :=
  s <- mget ;;
  mmodify (λ s, set_silences (od_del i (am_silences s)) s) ;;;
  mret (od_has (am_silences s) i).
Definition add_channel (c : ChannelConfig) : M manager unit :=
  mmodify (λ s, set_channels (od_set (str_of (ch_name c)) c (am_channels s)) s).
Definition add_route (r : Route) : M manager unit :=
  mmodify (λ s, set_routes (am_routes s ++ [r]) s).
Definition active_silences : M manager (list Silence) :=
  t <- now ;; mgets (λ s, filter (λ x, is_active x t = true) (am_silences s).*2).
End Manager.

(** [AlertManager.__init__], the stored document having been read. *)
Definition manager_init (channels : list ChannelConfig) (routes : list Route) (defaults : list string)
    (persist : bool) (doc : option pyval) (t : float) (new_id : string) : manager :=
  let '(active, history) := if persist then load_store t new_id doc else ([], []) in
  mk_manager active history [] routes defaults
    (foldl (λ m c, od_set (str_of (ch_name c)) c m) [] channels) [] persist doc 0 [].

(** ** Validation *)

Definition alert_valid (a : Alert) : Prop := make_alert a = Ok a.

Lemma make_alert_ok a b : make_alert a = Ok b → b = a ∧ alert_valid b.
Proof.
  unfold alert_valid, make_alert. intros E. destruct (alert_errors a) as [[|x l]|] eqn:Ee; [|done..].
  injection E as <-. split; [done|]. by rewrite Ee.
Qed.

Lemma app_nil_both {A} (l k : list A) : l ++ k = [] ↔ l = [] ∧ k = [].
Proof. destruct l; naive_solver. Qed.

Lemma error_if_nil b msg : error_if b msg = [] ↔ b = false.
Proof. by destruct b. Qed.

(** What a valid alert is. *)
Lemma alert_valid_fields a :
  alert_valid a ↔
  nonblank (al_name a) = true ∧ nonblank (al_namespace a) = true ∧ is_str (al_stream a) = true ∧
  one_of SEVERITIES (al_severity a) = true ∧ one_of STATUSES (al_status a) = true ∧
  is_dict (al_labels a) = true ∧ is_dict (al_annotations a) = true ∧
  finite_number (al_fired_at a) = Ok true ∧
  (al_resolved_at a = VNone ∨ finite_number (al_resolved_at a) = Ok true).
Proof.
  unfold alert_valid, make_alert, alert_errors.
  destruct (finite_number (al_fired_at a)) as [f|] eqn:Ef; [|split; [done|]; intros H; by destruct H as (_&_&_&_&_&_&_&H&_)].
  cbn [res_bind].
  assert (∀ r, (match al_resolved_at a with VNone => Ok true | v => finite_number v end) = Ok r →
    (r = true ↔ al_resolved_at a = VNone ∨ finite_number (al_resolved_at a) = Ok true)) as Hr.
  { intros r E. destruct (al_resolved_at a); [injection E as <-; split; [by left|done]|..];
      (split; [intros ->; by right|intros [?|H]; [done|]; rewrite E in H; by injection H]). }
  destruct (match al_resolved_at a with VNone => Ok true | v => finite_number v end) as [r|e] eqn:Er.
  - specialize (Hr r eq_refl). cbn [res_bind].
    set (errors := error_if _ _ ++ _).
    assert (errors = [] ↔ nonblank (al_name a) = true ∧ nonblank (al_namespace a) = true ∧
      is_str (al_stream a) = true ∧ one_of SEVERITIES (al_severity a) = true ∧
      one_of STATUSES (al_status a) = true ∧ is_dict (al_labels a) = true ∧
      is_dict (al_annotations a) = true ∧ f = true ∧ r = true) as He.
    { unfold errors. rewrite !app_nil_both, !error_if_nil, !negb_false_iff. done. }
    clearbody errors. destruct errors; naive_solver.
  - split; [done|]. intros (_&_&_&_&_&_&_&_&H). exfalso.
    destruct (al_resolved_at a); try done; destruct H as [?|H]; congruence.
Qed.

Lemma alert_silence_ok a : alert_valid a → ∃ b, alert_silence a = Ok b ∧ alert_valid b ∧
  al_id b = al_id a ∧ al_status b = VStr "silenced".
Proof.
  intros Hv. unfold alert_silence. set (b := mk_alert _ _ _ _ _ _ _ _ _ _ _).
  assert (alert_valid b) as Hb.
  { apply alert_valid_fields. apply alert_valid_fields in Hv. subst b. cbn. naive_solver. }
  exists b. by split_and!.
Qed.

(** ** Delivery *)

Section delivery.
Context (clock : nat → float) (environ : string → string) (strftime : pyval → string).
Context (respond : nat → request → option string).

(** What delivering leaves alone. *)
Record store_kept (s s' : manager) : Prop := {
  sk_active : am_active s' = am_active s;
  sk_history : am_history s' = am_history s;
  sk_silences : am_silences s' = am_silences s;
  sk_routes : am_routes s' = am_routes s ∧ am_default s' = am_default s;
  sk_channels : am_channels s' = am_channels s;
  sk_file : am_persist s' = am_persist s ∧ am_file s' = am_file s
}.

#[local] Instance store_kept_trans : Transitive store_kept.
Proof. intros a b c [] []. constructor; naive_solver congruence. Qed.
#[local] Instance store_kept_refl : Reflexive store_kept.
Proof. by constructor. Qed.

(** The requests made between two states, the first one first. *)
Definition requests_since (s s' : manager) (rs : list request) : Prop :=
  am_requests s' = rev rs ++ am_requests s.

Lemma rev_replicate {A} n (x : A) : rev (replicate n x) = replicate n x.
Proof. induction n as [|n IH]; [done|]. rewrite replicate_S at 1. cbn [rev]. by rewrite IH, replicate_S_end. Qed.

(** The loop over the attempts stops at the first success. *)
Lemma attempts_run left a c rec s :
  let r := channel_request environ strftime a c in
  let n0 := length (am_requests s) in
  ∃ rec' s' n, attempts clock environ strftime respond left a c rec s = (Ok rec', s') ∧
    store_kept s s' ∧ am_records s' = am_records s ∧ requests_since s s' (replicate n r) ∧
    (n ≤ left)%nat ∧ dr_attempts rec' = (dr_attempts rec + n)%nat ∧
    dr_alert_id rec' = dr_alert_id rec ∧ dr_channel rec' = dr_channel rec ∧
    dr_adapter rec' = dr_adapter rec ∧
    ((∃ m, n = S m ∧ respond (n0 + m)%nat r = None ∧ (∀ i, (i < m)%nat → respond (n0 + i)%nat r ≠ None) ∧
        dr_status rec' = DSent ∧ dr_last_error rec' = "") ∨
     (n = left ∧ (∀ i, (i < n)%nat → respond (n0 + i)%nat r ≠ None) ∧
        dr_status rec' = if bool_decide (n ≠ 0 ∧ MAX_RETRY ≤ dr_attempts rec + n)%nat
                         then DFailed else dr_status rec)).
Proof.
  intros r. revert rec s. induction left as [|left IH]; intros rec s n0.
  { exists rec, s, 0%nat. cbn [attempts]. split_and!; try done; try lia.
    right. split; [done|]. split; [lia|]. rewrite bool_decide_false by lia. done. }
  cbn [attempts]. step_run (eq_refl : now clock s = (Ok (clock (am_ticks s)), tick s)).
  step_run (eq_refl : deliver_to_channel environ strftime respond a c (tick s) =
    (Ok (respond n0 r), log_request r (tick s))).
  destruct (respond n0 r) as [err|] eqn:Er.
  - set (rec1 := mk_record _ _ _ _ _ _ _ _). set (s1 := log_request r (tick s)).
    destruct (IH rec1 s1) as (rec' & s' & n & E & Hk & Hr & Hq & Hn & Ha & Hi & Hc & Had & Hout).
    exists rec', s', (S n). rewrite E. split; [done|].
    assert (store_kept s s1) as Hk1 by (by constructor).
    split_and!; try done; try lia; [by etransitivity| | |].
    + unfold requests_since in *. rewrite Hq. cbn [am_requests log_request s1].
      rewrite !rev_replicate, replicate_S_end, <- app_assoc. done.
    + rewrite Ha. cbn. lia.
    + assert (length (am_requests s1) = S n0) as El by done. rewrite El in Hout. destruct Hout as [(m & -> & H1 & H2 & H3 & H4)|(-> & H1 & H2)].
      * left. exists (S m). split; [done|]. split; [by rewrite <- plus_n_Sm|]. split; [|done].
        intros [|i] Hi'; [rewrite Nat.add_0_r; congruence|]. rewrite <- plus_n_Sm. apply (H2 i). lia.
      * right. split; [done|]. split.
        { intros [|i] Hi'; [rewrite Nat.add_0_r; congruence|]. rewrite <- plus_n_Sm. apply (H1 i). lia. }
        rewrite H2. cbn [dr_attempts dr_status rec1]. unfold MAX_RETRY.
        repeat case_bool_decide; try done; try lia; destruct left; try done; exfalso; lia.
  - eexists _, _, 1%nat. split; [done|]. cbn [dr_attempts dr_alert_id dr_channel dr_adapter dr_status dr_last_error].
    split_and!; try done; try lia.
    left. exists 0%nat. split; [done|]. split; [by rewrite Nat.add_0_r|]. split; [lia|done].
Qed.

(** What one channel gets, [n0] requests having been made before: the record
    and the requests.  The attempts are repeated until one succeeds, at most
    three times. *)
Definition delivered (channels : list (string * ChannelConfig)) (a : Alert) (n0 : nat) (ch : string)
    (rec : DeliveryRecord) (qs : list request) : Prop :=
  dr_alert_id rec = al_id a ∧ dr_channel rec = ch ∧
  match od_get channels ch with
  | None => dr_status rec = DFailed ∧ dr_attempts rec = 0%nat ∧ qs = []
  | Some cfg =>
      if status_is a ["resolved"] && negb (ch_send_resolved cfg)
      then dr_status rec = DSkipped ∧ dr_attempts rec = 0%nat ∧ qs = []
      else
        let r := channel_request environ strftime a cfg in
        qs = replicate (dr_attempts rec) r ∧
        ((∃ m, dr_attempts rec = S m ∧ (m < MAX_RETRY)%nat ∧ dr_status rec = DSent ∧
            respond (n0 + m)%nat r = None ∧ ∀ i, (i < m)%nat → respond (n0 + i)%nat r ≠ None) ∨
         (dr_attempts rec = MAX_RETRY ∧ dr_status rec = DFailed ∧
            ∀ i, (i < MAX_RETRY)%nat → respond (n0 + i)%nat r ≠ None))
  end.

Inductive deliveries (channels : list (string * ChannelConfig)) (a : Alert)
  : nat → list string → list DeliveryRecord → list request → Prop :=
| deliveries_nil n0 : deliveries channels a n0 [] [] []
| deliveries_cons n0 ch names rec rs q qs :
    delivered channels a n0 ch rec q →
    deliveries channels a (n0 + length q)%nat names rs qs →
    deliveries channels a n0 (ch :: names) (rec :: rs) (q ++ qs).

Lemma store_record_run rec s :
  ∃ s', store_record rec s = (Ok (), s') ∧ store_kept s s' ∧ am_requests s' = am_requests s.
Proof. eexists. split; [reflexivity|]. split; [by constructor|done]. Qed.

Lemma deliver_one_run a ch s :
  ∃ rec s' qs, deliver_one clock environ strftime respond a ch s = (Ok rec, s') ∧
    store_kept s s' ∧ requests_since s s' qs ∧
    delivered (am_channels s) a (length (am_requests s)) ch rec qs.
Proof.
  unfold deliver_one. step_run mget_run. unfold delivered.
  destruct (od_get (am_channels s) ch) as [cfg|] eqn:Ec.
  - destruct (_ && _) eqn:Ek.
    + eexists _, _, []. split; [reflexivity|]. split; [by constructor|].
      split; [done|]. done.
    + set (rec0 := mk_record _ _ _ _ _ _ _ _).
      destruct (store_record_run rec0 s) as (s1 & E1 & K1 & Q1). step_run E1.
      destruct (attempts_run MAX_RETRY a cfg rec0 s1)
        as (rec & s2 & n & E2 & K2 & R2 & Q2 & Hn & Ha & Hi & Hc & Had & Hout). step_run E2.
      destruct (store_record_run rec s2) as (s3 & E3 & K3 & Q3). step_run E3.
      exists rec, s3, (replicate n (channel_request environ strftime a cfg)).
      split; [done|]. split; [by do 2 (etransitivity; [done|])|].
      split; [unfold requests_since in *; by rewrite Q3, Q2, Q1|].
      rewrite Q1 in Hout. cbn [dr_attempts rec0 Nat.add] in Ha, Hout. rewrite Ha.
      split; [by rewrite Hi|]. split; [by rewrite Hc|]. split; [done|].
      destruct Hout as [(m & -> & H1 & H2 & H3 & _)|(-> & H1 & H2)].
      * left. exists m. split_and!; try done.
      * right. split; [done|]. split; [|done].
        rewrite H2, bool_decide_true; [done|]. split; [done|unfold MAX_RETRY; lia].
  - eexists _, _, []. split; [reflexivity|]. split; [by constructor|]. split; done.
Qed.

Lemma deliver_run names a s :
  ∃ rs s' qs, deliver clock environ strftime respond a names s = (Ok rs, s') ∧ store_kept s s' ∧
    requests_since s s' qs ∧
    deliveries (am_channels s) a (length (am_requests s)) names rs qs.
Proof.
  revert s. induction names as [|ch names IH]; intros s.
  { eexists _, _, []. split; [reflexivity|]. split; [reflexivity|]. split; [done|constructor]. }
  cbn [deliver]. destruct (deliver_one_run a ch s) as (rec & s1 & q & E1 & K1 & R1 & D1). step_run E1.
  destruct (IH s1) as (rs & s2 & qs & E2 & K2 & R2 & D2). step_run E2.
  exists (rec :: rs), s2, (q ++ qs). split; [done|]. split; [by etransitivity|]. split.
  - unfold requests_since in *. by rewrite R2, R1, rev_app_distr, app_assoc.
  - constructor; [done|]. rewrite (sk_channels _ _ K1) in D2. rewrite R1 in D2.
    rewrite length_app, length_rev in D2. by rewrite Nat.add_comm.
Qed.
End delivery.

(** ** Routing *)

(** The routes that apply, and the names of all their channels without
    repetitions. *)
Fixpoint up_to_final (routes : list Route) : list Route :=
  match routes with
  | [] => []
  | r :: rs => if ro_continue r then r :: up_to_final rs else [r]
  end.
Definition first_occurrences (l : list string) : list string := reverse (remove_dups (reverse l)).

Definition routed (routes : list Route) (a : Alert) : list Route :=
  up_to_final (filter (λ r, route_matches r a = true) routes).

Lemma first_occurrences_snoc l x :
  first_occurrences (l ++ [x]) =
  if bool_decide (x ∈ l) then first_occurrences l else first_occurrences l ++ [x].
Proof.
  unfold first_occurrences. rewrite reverse_snoc. cbn [remove_dups].
  destruct (decide_rel elem_of x (reverse l)) as [H|H]; rewrite elem_of_reverse in H.
  - by rewrite bool_decide_true.
  - rewrite bool_decide_false by done. by rewrite reverse_cons.
Qed.

Lemma elem_of_first_occurrences l x : x ∈ first_occurrences l ↔ x ∈ l.
Proof. unfold first_occurrences. by rewrite elem_of_reverse, elem_of_remove_dups, elem_of_reverse. Qed.

Lemma extend_new_spec l k : extend_new (first_occurrences l) k = first_occurrences (l ++ k).
Proof.
  revert l. induction k as [|x k IH]; intros l; [by rewrite app_nil_r|].
  cbn [extend_new foldl]. change (foldl _ ?m k) with (extend_new m k).
  replace (l ++ x :: k) with ((l ++ [x]) ++ k) by by rewrite <- app_assoc.
  rewrite <- IH, first_occurrences_snoc. f_equal.
  rewrite (bool_decide_ext _ (x ∈ l)); [done|]. apply elem_of_first_occurrences.
Qed.

Lemma first_occurrences_nil l : first_occurrences l = [] ↔ l = [].
Proof.
  split; [|by intros ->]. intros E. destruct l as [|x l]; [done|].
  assert (x ∈ first_occurrences (x :: l)) as H by (apply elem_of_first_occurrences; by left).
  rewrite E in H. by apply elem_of_nil in H.
Qed.

Lemma resolve_channels_spec routes a l defaults :
  Forall (λ r, ro_channels r ≠ []) routes →
  resolve_channels_from routes a (first_occurrences l) defaults =
  match l ++ concat (ro_channels <$> routed routes a) with
  | [] => defaults
  | names => first_occurrences names
  end.
Proof.
  intros Hr. revert l. induction Hr as [|r routes Hr _ IH]; intros l.
  - cbn [resolve_channels_from routed filter up_to_final fmap list_fmap concat].
    rewrite app_nil_r. destruct l as [|x l]; [done|].
    destruct (first_occurrences (x :: l)) eqn:E; [|done].
    apply (proj1 (first_occurrences_nil _)) in E. discriminate E.
  - cbn [resolve_channels_from]. unfold routed. rewrite filter_cons.
    destruct (route_matches r a) eqn:Em.
    + rewrite decide_True by done. cbn [up_to_final]. rewrite extend_new_spec.
      destruct (ro_continue r).
      * rewrite IH. cbn [fmap list_fmap concat]. by rewrite app_assoc.
      * cbn [fmap list_fmap concat]. rewrite app_nil_r.
        destruct (l ++ ro_channels r) as [|x k] eqn:E; [|done].
        apply app_nil in E as [_ E]. done.
    + rewrite decide_False by done. apply IH.
Qed.

(** ** The store *)

(** Every alert is valid and filed under its id. *)
Record store_ok (s : manager) : Prop := {
  st_nodup : NoDup (od_keys (am_active s));
  st_active : ∀ i a, (i, a) ∈ am_active s → i = al_id a ∧ alert_valid a;
  st_history : Forall alert_valid (am_history s)
}.

(** Reading the stored document back gives the store. *)
Definition saved (s : manager) : Prop :=
  ∀ now new_id, load_store now new_id (am_file s) = (am_active s, am_history s).

Lemma alert_of_to_dict now new_id a : alert_valid a → alert_of_dict now new_id (alert_to_dict a) = Ok a.
Proof. intros Ha. destruct a. exact Ha. Qed.

Lemma load_list_saved now new_id l :
  Forall alert_valid l → load_list now new_id (VList (map alert_to_dict l)) = l.
Proof.
  intros Hl. unfold load_list. induction Hl as [|a l Ha _ IH]; [done|].
  cbn [map omap list_omap]. rewrite alert_of_to_dict by done. by rewrite IH.
Qed.

Lemma rebuild_active (l acc : list (string * Alert)) :
  NoDup (od_keys (acc ++ l)) → (∀ i a, (i, a) ∈ l → i = al_id a) →
  foldl (λ m a, od_set (al_id a) a m) acc l.*2 = acc ++ l.
Proof.
  revert acc. induction l as [|[i a] l IH]; intros acc Hnd Hk; [by rewrite app_nil_r|].
  rewrite fmap_cons. cbn [foldl snd]. rewrite <- (Hk i a) by left.
  assert (od_set i a acc = acc ++ [(i, a)]) as ->.
  { assert (i ∉ od_keys acc) as Hi.
    { unfold od_keys in *. rewrite fmap_app in Hnd. apply NoDup_app in Hnd as (_ & Hd & _).
      intros Hin. apply (Hd i Hin). by left. }
    clear -Hi. induction acc as [|[k v] acc IH]; [done|]. cbn [od_set app].
    apply not_elem_of_cons in Hi as [Hne Hi]. rewrite decide_False by (cbn in Hne; congruence).
    by rewrite IH. }
  rewrite IH, <- app_assoc; [done| |].
  - by rewrite <- app_assoc.
  - intros j b Hb. apply Hk. by right.
Qed.

Lemma load_store_val s now new_id :
  store_ok s → load_store now new_id (Some (store_val (am_active s) (am_history s))) =
    (am_active s, am_history s).
Proof.
  intros Ok. change (load_store now new_id (Some (store_val (am_active s) (am_history s))))
    with (foldl (λ m a, od_set (al_id a) a m) []
            (load_list now new_id (VList (map (λ kv : string * Alert, alert_to_dict kv.2) (am_active s)))),
          load_list now new_id (VList (map alert_to_dict (am_history s)))).
  rewrite load_list_saved by apply Ok. f_equal.
  replace (map (λ kv : string * Alert, alert_to_dict kv.2) (am_active s))
    with (map alert_to_dict (am_active s).*2)
    by (clear; induction (am_active s) as [|[i a] l IH]; [done|]; cbn [map fmap list_fmap snd]; f_equal; exact IH).
  rewrite load_list_saved.
  - apply (rebuild_active (am_active s) []); [apply Ok|]. intros i a Hi. by apply (st_active s Ok).
  - apply Forall_forall. intros a Ha. apply list_elem_of_fmap in Ha as ([i b] & -> & Hb).
    by apply (st_active s Ok i).
Qed.

Lemma upsert_run a s :
  store_ok s → alert_valid a →
  ∃ s', upsert a s = (Ok (), s') ∧ store_ok s' ∧ (am_persist s = true → saved s') ∧
    am_persist s' = am_persist s ∧ am_requests s' = am_requests s ∧ am_ticks s' = am_ticks s ∧
    am_routes s' = am_routes s ∧ am_default s' = am_default s ∧ am_channels s' = am_channels s ∧
    am_silences s' = am_silences s ∧
    (am_active s', am_history s') =
      if status_is a ["resolved"; "silenced"]
      then (od_del (al_id a) (am_active s), am_history s ++ [a])
      else (od_set (al_id a) a (am_active s), am_history s).
Proof.
  intros Ok Ha. unfold upsert. step_run mmodify_run. step_run mget_run.
  set (s1 := if status_is a _ then _ else _).
  assert (store_ok s1) as Ok1.
  { unfold s1. destruct (status_is a _); constructor; cbn [am_active am_history set_store].
    - by apply od_del_nodup, Ok.
    - intros i b Hb. apply (st_active s Ok). unfold od_del in Hb. by apply list_elem_of_filter in Hb as [_ Hb].
    - apply Forall_app. split; [apply Ok|by constructor].
    - by apply od_set_nodup, Ok.
    - intros i b Hb. assert (Forall (λ kv, kv.1 = al_id kv.2 ∧ alert_valid kv.2)
        (od_set (al_id a) a (am_active s))) as HF.
      { apply Forall_od_set; [done|]. apply Forall_forall. intros [j c] Hc. by apply (st_active s Ok). }
      rewrite Forall_forall in HF. by apply (HF (i, b)).
    - apply Ok. }
  assert (am_persist s1 = am_persist s ∧ am_requests s1 = am_requests s ∧ am_ticks s1 = am_ticks s ∧
    am_routes s1 = am_routes s ∧ am_default s1 = am_default s ∧ am_channels s1 = am_channels s ∧
    am_silences s1 = am_silences s ∧ (am_active s1, am_history s1) =
      if status_is a ["resolved"; "silenced"]
      then (od_del (al_id a) (am_active s), am_history s ++ [a])
      else (od_set (al_id a) a (am_active s), am_history s)) as (P & R & T & Ro & D & C & Si & St)
    by (unfold s1; by destruct (status_is a _)).
  clearbody s1. destruct (am_persist s1) eqn:Ep; eexists; (split; [reflexivity|]).
  - split; [constructor; apply Ok1|].
    split; [intros _ now new_id; exact (load_store_val s1 now new_id Ok1)|].
    cbn. split_and!; first [congruence|exact St].
  - split; [done|]. split; [intros; congruence|]. split_and!; first [congruence|exact St].
Qed.

(** *** Every call keeps it *)

Section calls.
Context (clock : nat → float) (environ : string → string) (strftime : pyval → string).
Context (respond : nat → request → option string).

(** The calls of the facade; an alert, silence, route or channel given to it
    was constructed, so it is valid. *)
Inductive manager_call :=
| CIngest (a : Alert) (Ha : alert_valid a)
| CResolve (alert_id : string)
| CAddSilence (x : Silence)
| CRemoveSilence (i : string)
| CAddChannel (c : ChannelConfig)
| CAddRoute (r : Route)
| CActiveSilences.

Definition run_call (c : manager_call) : M manager unit :=
  match c with
  | CIngest a _ => ingest clock environ strftime respond a ;;; mret ()
  | CResolve i => resolve clock environ strftime respond i ;;; mret ()
  | CAddSilence x => add_silence x
  | CRemoveSilence i => remove_silence i ;;; mret ()
  | CAddChannel c => add_channel c
  | CAddRoute r => add_route r
  | CActiveSilences => active_silences clock ;;; mret ()
  end.

Definition store_good (s : manager) : Prop := store_ok s ∧ (am_persist s = true → saved s).

Lemma store_good_kept s s' :
  store_good s → am_active s' = am_active s → am_history s' = am_history s →
  am_persist s' = am_persist s → am_file s' = am_file s → store_good s'.
Proof.
  intros [[H1 H2 H3] Hs] Ea Eh Ep Ef. split.
  - constructor; rewrite ?Ea, ?Eh; done.
  - rewrite Ep. intros Hp now new_id. rewrite Ea, Eh, Ef. by apply Hs.
Qed.

Lemma upsert_good a s : store_good s → alert_valid a → store_good (exec (upsert a) s).
Proof.
  intros [Ok Hs] Ha. destruct (upsert_run a s Ok Ha) as (s' & E & Ok' & Sv & P & _).
  unfold exec. rewrite E. split; [done|]. cbn [snd]. by rewrite P.
Qed.

Lemma deliver_good names a s :
  store_good s → store_good (exec (deliver clock environ strftime respond a names) s).
Proof.
  intros Hg. destruct (deliver_run clock environ strftime respond names a s) as (rs & s' & qs & E & K & _).
  unfold exec. rewrite E. cbn [snd]. destruct K as [Ka Kh _ _ _ [Kp Kf]]. by apply (store_good_kept s).
Qed.

Lemma run_call_good c : preserves store_good (run_call c).
Proof.
  intros s Hg. destruct c as [a Ha|i|x|i|c|r|]; cbn [run_call]; try (by apply (store_good_kept s)).
  - apply (preserves_bind store_good); [|intros ?; by apply preserves_readonly|done].
    clear s Hg. intros s Hg. unfold ingest, is_silenced.
    apply (preserves_bind store_good).
    { intros s1 Hg1. by apply (store_good_kept s1). }
    { intros [] s1 Hg1.
      - destruct (alert_silence_ok a Ha) as (b & Eb & Hb & _). rewrite Eb.
        unfold mbind, mlift. pose proof (upsert_good b s1 Hg1 Hb) as H. unfold exec in H.
        by destruct (upsert b s1) as [[|] ?].
      - pose proof (upsert_good a s1 Hg1 Ha) as H. unfold exec in H. unfold mbind at 1.
        destruct (upsert a s1) as [[|] s2]; [|done]. cbn [snd] in H. step_run mget_run.
        destruct (resolve_channels s2 a) as [|n l]; [done|]. by apply deliver_good. }
    done.
  - apply (preserves_bind store_good); [|intros ?; by apply preserves_readonly|done].
    clear s Hg. intros s Hg. unfold resolve. step_run mget_run.
    destruct (od_get (am_active s) i) as [a|]; [|done].
    step_run (eq_refl : now clock s = (Ok (clock (am_ticks s)), tick s)).
    assert (store_good (tick s)) as Hg1 by by apply (store_good_kept s).
    unfold mbind at 1, mlift. destruct (alert_resolve _ _ _) as [b|] eqn:Eb; [|done].
    apply make_alert_ok in Eb as [_ Hb]. pose proof (upsert_good b _ Hg1 Hb) as H. unfold exec in H.
    unfold mbind at 1. destruct (upsert b (tick s)) as [[|] s2]; [|done]. cbn [snd] in H.
    step_run mget_run. destruct (resolve_channels s2 b) as [|n l]; [done|].
    pose proof (deliver_good (n :: l) b s2 H) as H2. unfold exec in H2. unfold mbind.
    by destruct (deliver clock environ strftime respond b (n :: l) s2) as [[|] ?].
Qed.

(** Whether persistence is on never changes. *)
Lemma run_call_persist c s : am_persist (exec (run_call c) s) = am_persist s.
Proof.
  assert (∀ (a : Alert) s0, am_persist (exec (upsert a) s0) = am_persist s0) as Hu.
  { intros a s0. unfold exec, upsert, mbind, mmodify, mget, mret.
    destruct (status_is _ _); cbn; by destruct (am_persist s0) eqn:E. }
  assert (∀ names a s0, am_persist (exec (deliver clock environ strftime respond a names) s0) = am_persist s0) as Hd.
  { intros names a s0.
    destruct (deliver_run clock environ strftime respond names a s0) as (rs & s' & qs & E & K & _).
    unfold exec. rewrite E. apply K. }
  destruct c as [a Ha|i|x|i|c|r|]; cbn [run_call]; try done.
  - assert (∃ b, is_silenced clock a s = (Ok b, tick s)) as [sil Es] by by eexists.
    unfold exec, ingest, mbind. rewrite Es. unfold mget, mlift, mret. destruct sil.
    + destruct (alert_silence a) as [b|]; [|done]. specialize (Hu b (tick s)). unfold exec in Hu.
      by destruct (upsert b (tick s)) as [[|] s1].
    + specialize (Hu a (tick s)). unfold exec in Hu.
      destruct (upsert a (tick s)) as [[|] s1]; [|done]. cbn [snd] in *.
      destruct (resolve_channels s1 a) as [|n l]; [done|]. specialize (Hd (n :: l) a s1). unfold exec in Hd.
      destruct (deliver clock environ strftime respond a (n :: l) s1) as [[|] s2]; cbn in *; congruence.
  - assert (now clock s = (Ok (clock (am_ticks s)), tick s)) as En by done.
    unfold exec, resolve, mbind, mget. destruct (od_get (am_active s) i) as [a|]; [|done].
    rewrite En. unfold mlift, mret.
    destruct (alert_resolve a None (clock (am_ticks s))) as [b|]; [|done].
    specialize (Hu b (tick s)). unfold exec in Hu.
    destruct (upsert b (tick s)) as [[|] s1]; [|exact Hu]. cbn [snd] in *.
    destruct (resolve_channels s1 b) as [|n l]; [done|]. specialize (Hd (n :: l) b s1). unfold exec in Hd.
    destruct (deliver clock environ strftime respond b (n :: l) s1) as [[|] s2]; cbn in *; congruence.
Qed.
End calls.

(** ** Properties *)

(** C16. Ingestion.  An alert that an active silence matches causes no
    request: it leaves the active alerts and enters the history as silenced.
    Any other alert is filed by its status and delivered to exactly the
    channels the routes name, in order, one record each: not at all when the
    channel is unknown or does not take resolved alerts, otherwise until the
    first success and at most three times. *)
Theorem ingest_decides clock environ strftime respond s a :
  store_ok s → alert_valid a →
  if existsb (λ kv, silence_matches kv.2 a (clock (am_ticks s))) (am_silences s)
  then ∃ b s', ingest clock environ strftime respond a s = (Ok [], s') ∧
    am_requests s' = am_requests s ∧ alert_silence a = Ok b ∧
    od_get (am_active s') (al_id a) = None ∧ am_history s' = am_history s ++ [b]
  else ∃ rs qs s', ingest clock environ strftime respond a s = (Ok rs, s') ∧
    requests_since s s' qs ∧
    deliveries environ strftime respond (am_channels s) a (length (am_requests s))
      (resolve_channels s a) rs qs ∧
    (am_active s', am_history s') =
      if status_is a ["resolved"; "silenced"]
      then (od_del (al_id a) (am_active s), am_history s ++ [a])
      else (od_set (al_id a) a (am_active s), am_history s).
Proof.
  intros Ok Ha. set (sil := existsb _ (am_silences s)).
  assert (is_silenced clock a s = (Prelude.Ok sil, tick s)) as Esil by done.
  assert (store_ok (tick s)) as Ok1 by (constructor; apply Ok).
  unfold ingest. destruct sil.
  - destruct (alert_silence_ok a Ha) as (b & Eb & Hb & Ei & Est).
    destruct (upsert_run b (tick s) Ok1 Hb) as (s' & E & _ & _ & _ & Q & _ & _ & _ & _ & _ & St).
    exists b, s'. step_run Esil. cbv iota. rewrite Eb. step_run (eq_refl : mlift (Prelude.Ok b) (tick s) = _).
    step_run E. split; [done|]. split; [done|]. split; [done|].
    unfold status_is in St. rewrite Est in St. injection St as -> ->.
    rewrite Ei. split; [apply od_get_del_eq|done].
  - destruct (upsert_run a (tick s) Ok1 Ha) as (s1 & E & _ & _ & _ & Q & _ & Ro & D & C & _ & St).
    destruct (deliver_run clock environ strftime respond (resolve_channels s1 a) a s1)
      as (rs & s2 & qs & E2 & K & R & Dl).
    assert (resolve_channels s1 a = resolve_channels s a) as Hres
      by (unfold resolve_channels; by rewrite Ro, D).
    exists rs, qs, s2. rewrite Hres, C, Q in Dl.
    step_run Esil. cbv iota. step_run E. step_run mget_run. rewrite Hres in *. split.
    { destruct (resolve_channels s a); [|done]. by rewrite <- E2. }
    split; [unfold requests_since in *; by rewrite R, Q|]. split; [exact Dl|].
    destruct K as [-> -> _ _ _ _]. exact St.
Qed.

(** Routing.  For validated routes [resolve_channels] is equivalent to
    its reference: the channels of the matching routes up to the first one
    that does not continue, without repetitions and in order of first
    occurrence; the default channels when no route matches. *)
Theorem routing_first_occurrences s a :
  Forall (λ r, make_route r = Ok r) (am_routes s) →
  resolve_channels s a =
  match concat (ro_channels <$> routed (am_routes s) a) with
  | [] => am_default s
  | names => first_occurrences names
  end.
Proof.
  intros Hr. apply (resolve_channels_spec _ a []).
  eapply Forall_impl; [exact Hr|]. intros r E Hnil. unfold make_route in E. by rewrite Hnil in E.
Qed.


(** ** Behaviours worth knowing *)

Definition any_alert : matcher := mk_matcher "" "" "" "" (VDict []).
Definition demo_alert (i : string) : Alert :=
  mk_alert (VStr "p99") (VStr "prod") (VStr "api") (VStr "critical") (VStr "firing") (VDict [])
    (VDict []) (VInt 5) VNone (VStr "") i.
Definition demo_channel : ChannelConfig :=
  mk_channel (VStr "ops") (VStr "webhook") (VStr "https://example.org/hook") "" "" (VInt 10) true.
Definition demo_routes : list Route :=
  [mk_route ["ops"; "audit"] any_alert true; mk_route ["ops"; "pager"] any_alert false;
   mk_route ["late"] any_alert true].
Definition demo_manager : manager := manager_init [demo_channel] demo_routes ["default"] false None 0 "id".
Definition demo_clock (n : nat) : float := 100.
Definition demo_ingest := ingest demo_clock (λ _, "") (λ _, "") (λ _ _, None).
Definition demo_resolve := resolve demo_clock (λ _, "") (λ _, "") (λ _ _, None).

(** An alert that fires, was delivered, and is ingested again under a silence
    is no longer active: resolving it finds nothing, and the channels that
    were told it fires are never told that it is over. *)
Definition silenced_again : M manager (option (list DeliveryRecord)) :=
  demo_ingest (demo_alert "a1") ;;;
  add_silence (mk_silence 50 200 any_alert "" "" "s1") ;;;
  demo_ingest (demo_alert "a1") ;;;
  remove_silence "s1" ;;;
  demo_resolve "a1".

Lemma silenced_alert_never_resolves :
  result silenced_again demo_manager = Ok None ∧
  rq_url <$> am_requests (exec silenced_again demo_manager) = ["https://example.org/hook"].
Proof. split; vm_compute; reflexivity. Qed.

(** The key of a delivery record does not separate the alert from the
    channel. *)
Lemma record_keys_collide : record_key "a:b" "c" = record_key "a" "b:c".
Proof. reflexivity. Qed.

(** ** Witnesses *)

Lemma demo_alert_valid i : alert_valid (demo_alert i).
Proof. reflexivity. Qed.

Lemma demo_manager_ok : store_ok demo_manager.
Proof. constructor; cbn; [constructor| |constructor]. intros i a Hi. by apply elem_of_nil in Hi. Qed.

Lemma ingest_decides_witness :
  ∃ rs qs s', demo_ingest (demo_alert "a1") demo_manager = (Ok rs, s') ∧
    requests_since demo_manager s' qs ∧ length qs = 1%nat ∧ dr_channel <$> rs = ["ops"; "audit"; "pager"].
Proof.
  pose proof (ingest_decides demo_clock (λ _, "") (λ _, "") (λ _ _, None) demo_manager (demo_alert "a1")
    demo_manager_ok (demo_alert_valid "a1")) as H.
  destruct H as (rs & qs & s' & E & R & _ & _).
  exists rs, qs, s'. split; [exact E|]. split; [exact R|].
  assert (demo_ingest (demo_alert "a1") demo_manager = (Ok rs, s')) as E' by exact E.
  vm_compute in E'. injection E' as Hrs Hs. unfold requests_since in R. rewrite <- Hs in R.
  split.
  - apply (f_equal length) in R. rewrite length_app, length_rev in R. cbn in R. lia.
  - rewrite <- Hrs. reflexivity.
Defined.

Lemma routing_first_occurrences_witness :
  resolve_channels demo_manager (demo_alert "a1") = ["ops"; "audit"; "pager"].
Proof.
  rewrite (routing_first_occurrences demo_manager (demo_alert "a1")).
  - vm_compute. reflexivity.
  - repeat (constructor; [vm_compute; reflexivity|]). constructor.
Defined.
