(* ===== verification/SqlParser.v ===== *)
(** * The SQL parser ([sql.py], class [SQLParser])

    Queries over sketches: white space normalisation, the search for a keyword
    outside quotes and parentheses, the splitting of lists at commas, the
    clauses of SELECT, and the resulting plan.  The scanners run over the
    characters with an explicit quote and depth, and look one character ahead
    for doubled quotes.  Proved: the scanners agree with a reference that
    reads one character at a time; parsing any text gives a well-formed plan
    or a [ValueError].

    White space and case are those of ASCII. *)

From Stdlib Require Import Ascii String.
From S2P Require Import Prelude.

#[local] Open Scope py_scope.

Definition text := list ascii.
Definition chars (s : string) : text := list_ascii_of_string s.
Definition str (l : text) : string := string_of_list_ascii l.

Definition space : ascii := " ".
Definition is_quote (c : ascii) : bool := bool_decide (c = "'"%char) || bool_decide (c = ascii_of_nat 34).

(** ** White space *)

(** [_normalize_whitespace]; the output is kept in reverse. *)
Fixpoint normalize (l : text) (quote : option ascii) (pending : bool) (output : text) : text :=
  match l with
  | [] => rev output
  | c :: l1 =>
      let spaced := if pending && match output with [] => false | _ => true end
                    then space :: output else output in
      match quote with
      | Some q =>
          if decide (c = q) then
            match l1 with
            | d :: l2 =>
                if decide (d = q) then normalize l2 (Some q) pending (d :: c :: output)
                else normalize l1 None pending (c :: output)
            | [] => normalize l1 None pending (c :: output)
            end
          else normalize l1 (Some q) pending (c :: output)
      | None =>
          if is_quote c then normalize l1 (Some c) false (c :: spaced)
          else if is_space c then normalize l1 None true output
          else normalize l1 None false (c :: spaced)
      end
  end.
Definition normalize_whitespace (l : text) : text := normalize l None false [].

(** ** Keywords *)

Definition unbalanced_parentheses : exn := ValueError "Unbalanced SQL parentheses".
Definition unbalanced_expression : exn := ValueError "Unbalanced SQL expression".

(** The keyword at the front of [l], after white space or at the start, and
    before white space or the end. *)
Definition keyword_here (target l : text) (prev : option ascii) : bool :=
  starts_with target (map upper_char l)
  && match prev with None => true | Some p => is_space p end
  && match drop (length target) l with [] => true | c :: _ => is_space c end.

(** The loop of [_find_keyword]: [index] is the position of [l] in the text
    and [prev] the character before it. *)
Fixpoint find_from (target l : text) (index : nat) (prev : option ascii)
    (quote : option ascii) (depth : nat) : res (option nat) :=
  match l with
  | [] =>
      match quote, depth with
      | None, O => Ok None
      | _, _ => Raise unbalanced_expression
      end
  | c :: l1 =>
      match quote with
      | Some q =>
          if decide (c = q) then
            match l1 with
            | d :: l2 =>
                if decide (d = q) then find_from target l2 (S (S index)) (Some d) (Some q) depth
                else find_from target l1 (S index) (Some c) None depth
            | [] => find_from target l1 (S index) (Some c) None depth
            end
          else find_from target l1 (S index) (Some c) (Some q) depth
      | None =>
          if is_quote c then find_from target l1 (S index) (Some c) (Some c) depth
          else if decide (c = "("%char) then find_from target l1 (S index) (Some c) None (S depth)
          else if decide (c = ")"%char) then
            match depth with
            | O => Raise unbalanced_parentheses
            | S d => find_from target l1 (S index) (Some c) None d
            end
          else if (depth =? 0)%nat && keyword_here target l prev then Ok (Some index)
          else find_from target l1 (S index) (Some c) None depth
      end
  end.

Definition find_keyword (l : text) (keyword : string) (start : nat) : res (option nat) :=
  find_from (map upper_char (chars keyword)) (drop start l) start
    (match start with O => None | S i => l !! i end) None 0.

(** ** Lists *)

(** The loop of [_split_top_level]; [current] is the part being read, in
    reverse, and [parts] those completed, in reverse. *)
Fixpoint split_from (l : text) (quote : option ascii) (depth : nat) (current : text)
    (parts : list text) : res (list text) :=
  match l with
  | [] =>
      match quote, depth with
      | None, O =>
          match strip_chars (rev current) with
          | [] => Raise (ValueError "Empty SQL expression")
          | final => Ok (rev (final :: parts))
          end
      | _, _ => Raise unbalanced_expression
      end
  | c :: l1 =>
      match quote with
      | Some q =>
          if decide (c = q) then
            match l1 with
            | d :: l2 =>
                if decide (d = q) then split_from l2 (Some q) depth (d :: c :: current) parts
                else split_from l1 None depth (c :: current) parts
            | [] => split_from l1 None depth (c :: current) parts
            end
          else split_from l1 (Some q) depth (c :: current) parts
      | None =>
          if is_quote c then split_from l1 (Some c) depth (c :: current) parts
          else if decide (c = "("%char) then split_from l1 None (S depth) (c :: current) parts
          else if decide (c = ")"%char) then
            match depth with
            | O => Raise unbalanced_parentheses
            | S d => split_from l1 None d (c :: current) parts
            end
          else if decide (c = ","%char) then
            if (depth =? 0)%nat then
              match strip_chars (rev current) with
              | [] => Raise (ValueError "Empty SQL expression")
              | part => split_from l1 None depth [] (part :: parts)
              end
            else split_from l1 None depth (c :: current) parts
          else split_from l1 None depth (c :: current) parts
      end
  end.
Definition split_top_level (l : text) : res (list text) := split_from l None 0 [] [].

(** ** The plan *)

Inductive agg := P99 | P95 | P50 | UniqueCount | EventCount.

Definition agg_of_name (name : string) : option agg :=
  if decide (name = "p99") then Some P99
  else if decide (name = "p95") then Some P95
  else if decide (name = "p50") then Some P50
  else if decide (name = "unique_count") then Some UniqueCount
  else if decide (name = "event_count") then Some EventCount else None.

Inductive selection :=
| SelAgg (func : agg) (col alias : text)
| SelCol (col alias : text).

Record plan := mk_plan {
  pl_selects : list selection;
  pl_from : text;
  pl_group_by : list text;
  pl_having : option text
}.

Fixpoint find_char (c : ascii) (l : text) : option nat :=
  match l with
  | [] => None
  | d :: l' => if decide (d = c) then Some O else option_map S (find_char c l')
  end.
Definition ends_with (c : ascii) (l : text) : bool :=
  match rev l with d :: _ => bool_decide (d = c) | [] => false end.

(** Letters, digits and underscores, at least one. *)
Definition is_alnum (c : ascii) : bool :=
  let n := nat_of_ascii c in
  ((48 <=? n) && (n <=? 57) || (65 <=? n) && (n <=? 90) || (97 <=? n) && (n <=? 122))%nat.
Definition function_name (l : text) : bool :=
  match l with
  | [] => false
  | _ => forallb (λ c, is_alnum c || bool_decide (c = "_"%char)) l
  end.

(** [s.strip] of both kinds of quotes. *)
Fixpoint drop_quotes (l : text) : text :=
  match l with c :: l' => if is_quote c then drop_quotes l' else l | [] => [] end.
Definition strip_quotes (l : text) : text := rev (drop_quotes (rev (drop_quotes l))).

(** The expression and the alias of one item. *)
Definition split_alias (part : text) : res (text * text) :=
  let? alias_index := find_keyword part "AS" 0 in
  match alias_index with
  | Some i =>
      let expr := strip_chars (take i part) in
      let alias := strip_chars (drop (i + 2) part) in
      match expr, alias with
      | _ :: _, _ :: _ => Ok (expr, alias)
      | _, _ => Raise (ValueError "AS requires an expression and alias")
      end
  | None => Ok (part, part)
  end.

(** The argument of an aggregate. *)
Definition agg_column (func : agg) (col : text) : res text :=
  match func with
  | EventCount =>
      let? args := split_top_level col in
      match args with
      | [_; key] => Ok (strip_quotes key)
      | [_] => Ok col
      | _ => Raise (ValueError "event_count accepts one key or (column, key)")
      end
  | _ => Ok col
  end.

Definition parse_item (part : text) : res selection :=
  let part := strip_chars part in
  let? e := split_alias part in
  let '(expr, alias) := e in
  match find_char "("%char expr with
  | Some (S p as open_paren) =>
      if ends_with ")"%char expr then
        let func := map lower_char (strip_chars (take open_paren expr)) in
        if negb (function_name func) then Raise (ValueError "Invalid aggregate function name")
        else
          let name := if decide (str func = "count_unique") then "unique_count"%string else str func in
          match agg_of_name name with
          | None => Raise (ValueError "Unsupported aggregate function")
          | Some f =>
              let col := strip_chars (take (length expr - 1 - (open_paren + 1)) (drop (open_paren + 1) expr)) in
              match col with
              | [] => Raise (ValueError "an argument is required")
              | _ => let? c := agg_column f col in Ok (SelAgg f c alias)
              end
          end
      else Ok (SelCol expr alias)
  | _ => Ok (SelCol expr alias)
  end.

Definition parse_select (clause : text) : res (list selection) :=
  let? parts := split_top_level clause in res_mapM parse_item parts.

(** [self.query], the normalised text. *)
Definition parser_init (query : text) : res text :=
  let stripped := strip_chars query in
  if (4096 <? py_len (str stripped))%Z then Raise (ValueError "SQL query exceeds 4096 characters")
  else Ok (normalize_whitespace stripped).

Definition slice (l : text) (a b : nat) : text := take (b - a) (drop a l).

(** A clause that must not be empty when its keyword is present. *)
Definition clause_of (start : option nat) (len : nat) (stop : nat) (query : text) (msg : string)
  : res (option text) :=
  match start with
  | None => Ok None
  | Some i =>
      match strip_chars (slice query (i + len) stop) with
      | [] => Raise (ValueError msg)
      | c => Ok (Some c)
      end
  end.

Definition parse (query : text) : res plan :=
  if negb (bool_decide (map upper_char (take 6 query) = chars "SELECT"))
  then Raise (ValueError "Query must start with SELECT")
  else if match query !! 6 with None => true | Some c => negb (is_space c) end
  then Raise (ValueError "SELECT must be followed by an expression")
  else
    let? from_index := find_keyword query "FROM" 7 in
    match from_index with
    | None => Raise (ValueError "Query must contain FROM")
    | Some from_index =>
        let select_clause := strip_chars (slice query 6 from_index) in
        let from_start := from_index + 4 in
        let? group_index := find_keyword query "GROUP BY" from_start in
        let? having_index := find_keyword query "HAVING" from_start in
        if match group_index, having_index with
           | Some g, Some h => (h <? g)%nat
           | _, _ => false
           end
        then Raise (ValueError "HAVING must follow GROUP BY")
        else
          let stop := default (length query) having_index in
          let from_end := match group_index with Some g => Nat.min g stop | None => stop end in
          let from_clause := strip_chars (slice query from_start from_end) in
          match select_clause, from_clause with
          | _ :: _, _ :: _ =>
              let? group_by_clause := clause_of group_index 8 stop query "GROUP BY must not be empty" in
              let? having_clause := clause_of having_index 6 (length query) query "HAVING must not be empty" in
              let? selects := parse_select select_clause in
              let? group_by := match group_by_clause with
                               | Some c => split_top_level c
                               | None => Ok []
                               end in
              Ok (mk_plan selects from_clause group_by having_clause)
          | _, _ => Raise (ValueError "SELECT and FROM clauses must not be empty")
          end
    end.

(** ** The reference scanner *)

(** One character of SQL text: a quote opens, the same quote closes, and
    parentheses outside quotes nest. *)
Definition scan_char (q : option ascii) (d : nat) (c : ascii) : res (option ascii * nat) :=
  match q with
  | Some x => Ok (if decide (c = x) then None else q, d)
  | None =>
      if is_quote c then Ok (Some c, d)
      else if decide (c = "("%char) then Ok (None, S d)
      else if decide (c = ")"%char) then
        match d with O => Raise unbalanced_parentheses | S d' => Ok (None, d') end
      else Ok (None, d)
  end.

Fixpoint scan (q : option ascii) (d : nat) (l : text) : res (option ascii * nat) :=
  match l with
  | [] => Ok (q, d)
  | c :: l' => let? qd := scan_char q d c in scan qd.1 qd.2 l'
  end.

Definition plain (c : ascii) : bool :=
  negb (is_quote c) && negb (bool_decide (c = "("%char)) && negb (bool_decide (c = ")"%char)).

(** Outside quotes and parentheses. *)
Definition at_top (q : option ascii) (d : nat) : bool :=
  match q, d with None, O => true | _, _ => false end.

Fixpoint find_ref (target l : text) (index : nat) (prev : option ascii)
    (q : option ascii) (d : nat) : res (option nat) :=
  match l with
  | [] => if at_top q d then Ok None else Raise unbalanced_expression
  | c :: l' =>
      if at_top q d && plain c && keyword_here target l prev then Ok (Some index)
      else let? qd := scan_char q d c in find_ref target l' (S index) (Some c) qd.1 qd.2
  end.

Fixpoint split_ref (l : text) (q : option ascii) (d : nat) (current : text) (parts : list text)
  : res (list text) :=
  match l with
  | [] =>
      if at_top q d then
        match strip_chars (rev current) with
        | [] => Raise (ValueError "Empty SQL expression")
        | final => Ok (rev (final :: parts))
        end
      else Raise unbalanced_expression
  | c :: l' =>
      if at_top q d && bool_decide (c = ","%char) then
        match strip_chars (rev current) with
        | [] => Raise (ValueError "Empty SQL expression")
        | part => split_ref l' None 0 [] (part :: parts)
        end
      else let? qd := scan_char q d c in split_ref l' qd.1 qd.2 (c :: current) parts
  end.

Definition quote_ok (q : option ascii) : Prop := match q with Some x => is_quote x = true | None => True end.

Lemma find_from_ref target l index prev q d :
  quote_ok q → find_from target l index prev q d = find_ref target l index prev q d.
Proof.
  remember (length l) as n eqn:Hn. revert l Hn index prev q d.
  induction n as [n IH] using lt_wf_ind. intros l Hn index prev q d Hq.
  destruct l as [|c l1]; [by destruct q, d|]. cbn [find_from find_ref].
  assert (∀ l' index' prev' q' d', (length l' < n)%nat → quote_ok q' →
    find_from target l' index' prev' q' d' = find_ref target l' index' prev' q' d') as IH'
    by (intros; by eapply IH).
  destruct q as [x|].
  - cbn [at_top andb scan_char res_bind fst snd]. case_decide as E; [|by apply IH'; [subst; cbn; lia|]].
    subst x. destruct l1 as [|y l2]; [by apply IH'; [subst; cbn; lia|]|].
    case_decide as E; [|by apply IH'; [subst; cbn; lia|]]. subst y.
    rewrite IH' by (try done; subst; cbn; lia). cbn [find_ref].
    assert (plain c = false) as -> by (unfold plain; by rewrite Hq).
    rewrite andb_false_r. cbn [andb scan_char]. by rewrite Hq.
  - cbn [scan_char]. unfold plain. destruct (is_quote c) eqn:Eq.
    { cbn [negb andb]. rewrite andb_false_r. cbn [andb res_bind fst snd]. apply IH'; [subst; cbn; lia|done]. }
    destruct (decide (c = "("%char)) as [Eo|Eo].
    { rewrite (bool_decide_true _ Eo). cbn [negb andb]. rewrite andb_false_r. cbn [andb res_bind fst snd].
      apply IH'; [subst; cbn; lia|done]. }
    rewrite (bool_decide_false _ Eo). destruct (decide (c = ")"%char)) as [Ec|Ec].
    { rewrite (bool_decide_true _ Ec). cbn [negb andb]. rewrite andb_false_r. cbn [andb].
      destruct d; [done|]. cbn [res_bind fst snd]. apply IH'; [subst; cbn; lia|done]. }
    rewrite (bool_decide_false _ Ec). cbn [negb andb res_bind fst snd]. rewrite andb_true_r.
    assert (at_top None d = (d =? 0)%nat) as -> by by destruct d.
    destruct (_ && _); [done|]. apply IH'; [subst; cbn; lia|done].
Qed.

Lemma split_from_ref l q d current parts :
  quote_ok q → split_from l q d current parts = split_ref l q d current parts.
Proof.
  remember (length l) as n eqn:Hn. revert l Hn q d current parts.
  induction n as [n IH] using lt_wf_ind. intros l Hn q d current parts Hq.
  destruct l as [|c l1]; [by destruct q, d|]. cbn [split_from split_ref].
  assert (∀ l' q' d' cur' parts', (length l' < n)%nat → quote_ok q' →
    split_from l' q' d' cur' parts' = split_ref l' q' d' cur' parts') as IH'
    by (intros; by eapply IH).
  destruct q as [x|].
  - cbn [at_top andb scan_char res_bind fst snd]. case_decide as E; [|by apply IH'; [subst; cbn; lia|]].
    subst x. destruct l1 as [|y l2]; [by apply IH'; [subst; cbn; lia|]|].
    case_decide as E; [|by apply IH'; [subst; cbn; lia|]]. subst y.
    rewrite IH' by (try done; subst; cbn; lia). cbn [split_ref].
    rewrite (bool_decide_false (c = ","%char)) by (intros ->; by vm_compute in Hq).
    rewrite andb_false_r. cbn [scan_char]. by rewrite Hq.
  - cbn [scan_char]. destruct (is_quote c) eqn:Eq.
    { rewrite (bool_decide_false (c = ","%char)) by (intros ->; by vm_compute in Eq).
      rewrite andb_false_r. cbn [res_bind fst snd]. apply IH'; [subst; cbn; lia|done]. }
    destruct (decide (c = "("%char)) as [->|Eo].
    { rewrite andb_false_r. cbn [res_bind fst snd]. apply IH'; [subst; cbn; lia|done]. }
    destruct (decide (c = ")"%char)) as [->|Ec].
    { rewrite andb_false_r. destruct d; [done|]. cbn [res_bind fst snd]. apply IH'; [subst; cbn; lia|done]. }
    cbn [res_bind fst snd]. destruct (decide (c = ","%char)) as [->|En].
    + rewrite andb_true_r. destruct d as [|d]; cbn [at_top Nat.eqb].
      * destruct (strip_chars _); [done|]. apply IH'; [subst; cbn; lia|done].
      * apply IH'; [subst; cbn; lia|done].
    + rewrite (bool_decide_false _ En), andb_false_r. apply IH'; [subst; cbn; lia|done].
Qed.

(** Whether the keyword stands at position [j], outside quotes and
    parentheses. *)
Definition hit_at (target : text) (q : option ascii) (d : nat) (prev : option ascii) (l : text)
    (j : nat) : bool :=
  match scan q d (take j l), drop j l with
  | Ok (None, O), (c :: _) as rest =>
      plain c && keyword_here target rest (match j with O => prev | S i => l !! i end)
  | _, _ => false
  end.

Lemma hit_at_0 target q d prev c l :
  hit_at target q d prev (c :: l) 0 = at_top q d && plain c && keyword_here target (c :: l) prev.
Proof. unfold hit_at. by destruct q, d. Qed.

Lemma hit_at_S target q d prev c l j :
  hit_at target q d prev (c :: l) (S j) =
  match scan_char q d c with
  | Ok (q', d') => hit_at target q' d' (Some c) l j
  | Raise _ => false
  end.
Proof.
  unfold hit_at. cbn [take drop scan]. destruct (scan_char q d c) as [[q' d']|]; [|done].
  cbn [res_bind fst snd]. by destruct j.
Qed.

Definition find_spec (target : text) (q : option ascii) (d : nat) (prev : option ascii) (l : text)
    (start : nat) (r : res (option nat)) : Prop :=
  match r with
  | Ok (Some i) =>
      (start ≤ i)%nat ∧ hit_at target q d prev l (i - start) = true ∧
      ∀ j, (j < i - start)%nat → hit_at target q d prev l j = false
  | Ok None => (∀ j, hit_at target q d prev l j = false) ∧ scan q d l = Ok (None, O)
  | Raise e =>
      (∀ j, hit_at target q d prev l j = false) ∧
      (scan q d l = Raise e ∨
       e = unbalanced_expression ∧ ∃ q' d', scan q d l = Ok (q', d') ∧ at_top q' d' = false)
  end.

Lemma find_ref_spec target l start prev q d :
  find_spec target q d prev l start (find_ref target l start prev q d).
Proof.
  revert start prev q d. induction l as [|c l IH]; intros start prev q d; cbn [find_ref].
  - assert (∀ j, hit_at target q d prev [] j = false) as Hno.
    { intros j. unfold hit_at. rewrite drop_nil. by repeat case_match. }
    destruct (at_top q d) eqn:Ea; cbn [find_spec scan]; (split; [done|]).
    + by destruct q, d.
    + right. split; [done|]. by exists q, d.
  - rewrite <- hit_at_0. destruct (hit_at target q d prev (c :: l) 0) eqn:H0.
    { cbn [find_spec]. rewrite Nat.sub_diag. split_and!; [done|done|]. intros j Hj. lia. }
    assert (∀ P, P 0%nat → (∀ j, P (S j)) → ∀ j : nat, P j) as cases by (intros P H1 H2 []; auto).
    destruct (scan_char q d c) as [[q' d']|e] eqn:Es; cbn [res_bind fst snd].
    + specialize (IH (S start) (Some c) q' d').
      destruct (find_ref target l (S start) (Some c) q' d') as [[i|]|e]; cbn [find_spec] in *.
      * destruct IH as (Hle & Hh & Hb). replace (i - start)%nat with (S (i - S start)) by lia.
        split_and!; [lia|by rewrite hit_at_S, Es|].
        intros [|j] Hj; [done|]. rewrite hit_at_S, Es. apply Hb. lia.
      * destruct IH as [Hno Hs]. split.
        { apply (cases (λ j, hit_at target q d prev (c :: l) j = false)); [done|].
          intros j. by rewrite hit_at_S, Es. }
        cbn [scan]. by rewrite Es.
      * destruct IH as [Hno Hs]. split.
        { apply (cases (λ j, hit_at target q d prev (c :: l) j = false)); [done|].
          intros j. by rewrite hit_at_S, Es. }
        cbn [scan]. by rewrite Es.
    + cbn [find_spec]. split; [|left; cbn [scan]; by rewrite Es].
      apply (cases (λ j, hit_at target q d prev (c :: l) j = false)); [done|].
      intros j. by rewrite hit_at_S, Es.
Qed.

(** ** Errors and well-formed plans *)

Definition is_value_error (e : exn) : Prop := ∃ msg, e = ValueError msg.

Lemma value_error msg : is_value_error (ValueError msg).
Proof. by eexists. Qed.
#[local] Hint Resolve value_error : core.

Lemma scan_raises q d l : raises is_value_error (scan q d l).
Proof.
  revert q d. induction l as [|c l IH]; intros q d; [done|]. cbn [scan]. apply raises_bind; [|intros; apply IH].
  unfold scan_char. repeat (case_match; try done). by apply value_error.
Qed.

Lemma find_raises l keyword start : raises is_value_error (find_keyword l keyword start).
Proof.
  unfold find_keyword. rewrite find_from_ref by done.
  set (target := map upper_char (chars keyword)).
  pose proof (find_ref_spec target (drop start l) start
    (match start with O => None | S i => l !! i end) None 0) as H.
  destruct (find_ref _ _ _ _ _ _) as [[i|]|e]; [done..|].
  destruct H as [_ [Hs|[-> _]]]; [|by eexists].
  pose proof (scan_raises None 0 (drop start l)) as Hr. by rewrite Hs in Hr.
Qed.

Lemma drop_spaces_idemp l : drop_spaces (drop_spaces l) = drop_spaces l.
Proof. induction l as [|c l IH]; [done|]. simpl. destruct (is_space c) eqn:E; [done|]. simpl. by rewrite E. Qed.

(** A part that is not blank stays so when it is stripped again. *)
Lemma strip_nonblank l : strip_chars l ≠ [] → strip_chars (strip_chars l) ≠ [].
Proof.
  unfold strip_chars. intros H E. apply H. clear H.
  set (m := drop_spaces l) in *. set (k := drop_spaces (rev m)) in *.
  assert (∀ l, drop_spaces l = [] → Forall (λ c, is_space c = true) l) as Hall.
  { clear. induction l as [|c l IH]; [constructor|]. simpl. destruct (is_space c) eqn:Ec; [|done].
    intros. constructor; auto. }
  assert (∀ l, Forall (λ c, is_space c = true) l → drop_spaces l = []) as Hnil.
  { clear. induction 1 as [|c l Hc _ IH]; [done|]. simpl. by rewrite Hc. }
  assert (Forall (λ c, is_space c = true) (rev k)) as Hk.
  { apply (f_equal (@rev ascii)) in E. rewrite rev_involutive in E. apply Hall in E.
    assert (∀ l, Forall (λ c, is_space c = true) (drop_spaces l) → Forall (λ c, is_space c = true) l) as Hd.
    { clear. induction l as [|c l IH]; [done|]. simpl. destruct (is_space c) eqn:Ec; [|done].
      intros. constructor; auto. }
    apply Hd. rewrite <- (rev_involutive (drop_spaces (rev k))). by apply Forall_rev. }
  apply Forall_rev in Hk. rewrite rev_involutive in Hk.
  assert (k = []) as ->; [|done]. subst k. rewrite <- (Hnil _ Hk). by rewrite drop_spaces_idemp.
Qed.

Definition nonblank (p : text) : Prop := strip_chars p ≠ [].

Lemma nonblank_cons p : nonblank p → p ≠ [].
Proof. by intros H ->. Qed.

(** Splitting gives at least one part, none of them blank. *)
Lemma split_ref_spec l q d current parts :
  Forall nonblank parts →
  match split_ref l q d current parts with
  | Ok ps => ps ≠ [] ∧ Forall nonblank ps
  | Raise e => is_value_error e
  end.
Proof.
  revert q d current parts. induction l as [|c l IH]; intros q d current parts Hp; cbn [split_ref].
  - destruct (at_top q d); [|by eexists]. destruct (strip_chars _) as [|x p] eqn:E; [by eexists|].
    assert (nonblank (x :: p)) by (unfold nonblank; rewrite <- E; apply strip_nonblank; by rewrite E).
    split.
    + cbn [rev]. by intros [? [=]]%app_nil.
    + apply Forall_rev. by constructor.
  - destruct (_ && _).
    + destruct (strip_chars _) as [|x p] eqn:E; [by eexists|].
      assert (nonblank (x :: p)) by (unfold nonblank; rewrite <- E; apply strip_nonblank; by rewrite E).
      apply IH. by constructor.
    + destruct (scan_char q d c) as [[q' d']|e] eqn:Es; cbn [res_bind fst snd]; [by apply IH|].
      pose proof (scan_raises q d [c]) as Hr. cbn [scan] in Hr. rewrite Es in Hr. exact Hr.
Qed.

Lemma split_top_level_spec l :
  match split_top_level l with
  | Ok ps => ps ≠ [] ∧ Forall nonblank ps
  | Raise e => is_value_error e
  end.
Proof. unfold split_top_level. rewrite split_from_ref by done. by apply split_ref_spec. Qed.

Definition selection_ok (x : selection) : Prop :=
  match x with
  | SelAgg f col alias => alias ≠ [] ∧ (f = EventCount ∨ col ≠ [])
  | SelCol col alias => col ≠ [] ∧ alias ≠ []
  end.

Record plan_ok (p : plan) : Prop := {
  po_selects : pl_selects p ≠ [] ∧ Forall selection_ok (pl_selects p);
  po_from : pl_from p ≠ [];
  po_group_by : Forall (λ c : text, c ≠ []) (pl_group_by p);
  po_having : pl_having p ≠ Some []
}.

(** A computation gives a good result or a [ValueError]. *)
Definition total_spec {A} (P : A → Prop) (r : res A) : Prop :=
  match r with Ok a => P a | Raise e => is_value_error e end.

Lemma total_bind {A B} (P : A → Prop) (Q : B → Prop) (r : res A) (f : A → res B) :
  total_spec P r → (∀ a, P a → total_spec Q (f a)) → total_spec Q (res_bind r f).
Proof. destruct r; simpl; eauto. Qed.

Lemma find_total l keyword start : total_spec (λ _, True) (find_keyword l keyword start).
Proof. pose proof (find_raises l keyword start). by destruct (find_keyword _ _ _). Qed.

Lemma split_alias_total part :
  part ≠ [] → total_spec (λ e, e.1 ≠ [] ∧ e.2 ≠ []) (split_alias part).
Proof.
  intros Hp. unfold split_alias. eapply total_bind; [apply find_total|]. intros [i|] _; [|done].
  destruct (strip_chars (take i part)); [by eexists|].
  destruct (strip_chars (drop (i + 2) part)); [by eexists|done].
Qed.

Lemma agg_column_total f col :
  col ≠ [] → total_spec (λ c, f = EventCount ∨ c ≠ []) (agg_column f col).
Proof.
  intros Hc. destruct f; cbn; try by right.
  eapply total_bind; [apply split_top_level_spec|]. intros [|a [|b [|c l]]] _; cbn; auto.
Qed.

Lemma parse_item_total part :
  nonblank part → total_spec selection_ok (parse_item part).
Proof.
  intros Hp. unfold parse_item. eapply total_bind; [by apply split_alias_total|].
  intros [expr alias] [He Ha]. cbn [fst snd] in *.
  destruct (find_char _ expr) as [[|p]|]; try done.
  destruct (ends_with _ expr); [|done]. destruct (negb _); [by eexists|].
  destruct (agg_of_name _) as [f|]; [|by eexists].
  destruct (strip_chars (take _ _)) as [|x l] eqn:E; [apply value_error|].
  eapply total_bind; [by apply agg_column_total|]. intros c Hc. cbn. by split.
Qed.


Lemma res_mapM_total {A B} (P : A → Prop) (Q : B → Prop) (f : A → res B) l :
  Forall P l → (∀ a, P a → total_spec Q (f a)) →
  total_spec (λ bs, length bs = length l ∧ Forall Q bs) (res_mapM f l).
Proof.
  intros Hl Hf. induction Hl as [|a l Ha _ IH]; cbn [res_mapM]; [by split; [|constructor]|].
  eapply total_bind; [by apply Hf|]. intros b Hb. eapply total_bind; [apply IH|].
  intros bs [Hlen Hbs]. split; [cbn; by f_equal|by constructor].
Qed.

Lemma clause_of_total start len stop query msg :
  total_spec (λ c, c ≠ Some []) (clause_of start len stop query msg).
Proof. unfold clause_of. destruct start as [i|]; [|done]. destruct (strip_chars _); [by eexists|done]. Qed.

Lemma parse_select_total clause :
  total_spec (λ l, l ≠ [] ∧ Forall selection_ok l) (parse_select clause).
Proof.
  unfold parse_select. eapply total_bind; [apply split_top_level_spec|]. intros ps [Hne Hps].
  pose proof (res_mapM_total nonblank selection_ok parse_item ps Hps (λ p, parse_item_total p)) as H.
  destruct (res_mapM parse_item ps) as [l|e]; [|done]. destruct H as [Hlen Hl]. split; [|done].
  intros ->. by destruct ps.
Qed.

Lemma parse_total query : total_spec plan_ok (parse query).
Proof.
  unfold parse. destruct (negb _); [by eexists|].
  destruct (match query !! 6 with Some _ => _ | None => _ end); [by eexists|].
  eapply total_bind; [apply find_total|]. intros [from_index|] _; [|by eexists].
  eapply total_bind; [apply find_total|]. intros group_index _.
  eapply total_bind; [apply find_total|]. intros having_index _.
  destruct (match group_index with Some _ => _ | None => _ end); [by eexists|].
  destruct (strip_chars (slice query 6 from_index)) as [|x sel]; [by eexists|].
  destruct (strip_chars (slice query (from_index + 4) _)) as [|y fr]; [by eexists|].
  eapply total_bind; [apply clause_of_total|]. intros g Hg.
  eapply total_bind; [apply clause_of_total|]. intros h Hh.
  eapply total_bind; [apply parse_select_total|]. intros l Hl.
  eapply (total_bind (Forall nonblank)).
  { destruct g; [|constructor]. pose proof (split_top_level_spec t) as H.
    destruct (split_top_level t); [apply H|exact H]. }
  intros gs Hgs. constructor; cbn; try done. eapply Forall_impl; [exact Hgs|]. apply nonblank_cons.
Qed.

(** ** Properties *)



Definition parse_text (s : string) : res plan := let? q := parser_init (chars s) in parse q.

Example parse_demo :
  parse_text "select  p99( latency ) AS slow, host FROM logs GROUP BY host HAVING slow > 3" =
  Ok (mk_plan [SelAgg P99 (chars "latency") (chars "slow"); SelCol (chars "host") (chars "host")]
        (chars "logs") [chars "host"] (Some (chars "slow > 3"))).
Proof. vm_compute. reflexivity. Qed.
