(* ===== verification/SqlEngine.v ===== *)
(** * SQL execution ([sql.py], class [SQLStreamEngine])

    The engine that ingests rows into one log per GROUP BY key and evaluates
    the aggregates, the HAVING evaluator over the expression tree, and
    [execute_stream_query], which runs a plan against one existing log.
    Proved: grouping is equivalent to filtering the rows by key and ingesting
    each part into a log of its own; HAVING lets no exception escape other
    than the overflow of a number.

    Rows and results are dictionaries with string keys.  [float(s)], [repr] of
    a float, [str] of a container and [ast.parse] are parameters; the
    reentrant lock of the engine is left out. *)

From Stdlib Require Import PrimFloat Ascii String.
From S2P Require Import Prelude PyFloat FloatRound Hashing CountMin HyperLogLog DDSketch PyVal PyNum Json StreamLog Facade Windowed SqlParser.

#[local] Open Scope Z_scope.
#[local] Open Scope py_scope.

(** ** Python values in expressions *)

(** [float(v)] *)
Definition py_float `{FloatParser} (v : pyval) : res float :=
  match v with
  | VFloat x => Ok x
  | VInt z => py_float_of_Z z
  | VBool b => Ok (if b then 1 else 0)%float
  | VStr s => py_float_str s
  | VNone | VList _ | VDict _ =>
      Raise (TypeError "float() argument must be a string or a real number")
  end.

(** [str(v)]; the text of a container is a parameter. *)
Definition py_str `{FloatRepr} (container : pyval → string) (v : pyval) : string :=
  match v with
  | VNone => "None"
  | VBool b => if b then "True" else "False"
  | VInt z => str_of_Z z
  | VFloat x => float_repr x
  | VStr s => s
  | VList _ | VDict _ => container v
  end.

(** [hash(v)] raises for the mutable containers. *)
Definition hashable (v : pyval) : bool :=
  match v with VList _ | VDict _ => false | _ => true end.

(** [s * n] and [l * n]; a count below zero gives the empty sequence. *)
Definition repeat_string (s : string) (n : Z) : string :=
  String.concat "" (replicate (Z.to_nat n) s).
Definition repeat_list {A} (l : list A) (n : Z) : list A :=
  List.concat (replicate (Z.to_nat n) l).

Definition bad_operand {A} : res A := Raise (TypeError "unsupported operand type").

(** [-v] *)
Definition py_neg (v : pyval) : res pyval :=
  match real_number v with
  | Some (PInt z) => Ok (VInt (- z))
  | Some (PFlt x) => Ok (VFloat (- x)%float)
  | None => bad_operand
  end.

(** An operation on two numbers: exact on integers, otherwise both sides are
    converted to [float] first. *)
Definition arith (on_int : Z → Z → res pyval) (on_float : float → float → res pyval)
    (a b : pyval) : res pyval :=
  match real_number a, real_number b with
  | Some (PInt m), Some (PInt n) => on_int m n
  | Some x, Some y => let? u := pn_float x in let? v := pn_float y in on_float u v
  | _, _ => bad_operand
  end.

Definition py_add (a b : pyval) : res pyval :=
  match a, b with
  | VStr s, VStr t => Ok (VStr (String.append s t))
  | VList l, VList k => Ok (VList (l ++ k))
  | _, _ => arith (λ m n, Ok (VInt (m + n))) (λ x y, Ok (VFloat (x + y)%float)) a b
  end.

Definition py_sub (a b : pyval) : res pyval :=
  arith (λ m n, Ok (VInt (m - n))) (λ x y, Ok (VFloat (x - y)%float)) a b.

Definition py_mul (a b : pyval) : res pyval :=
  match a, b, real_number a, real_number b with
  | VStr s, _, _, Some (PInt n) => Ok (VStr (repeat_string s n))
  | _, VStr s, Some (PInt n), _ => Ok (VStr (repeat_string s n))
  | VList l, _, _, Some (PInt n) => Ok (VList (repeat_list l n))
  | _, VList l, Some (PInt n), _ => Ok (VList (repeat_list l n))
  | _, _, _, _ => arith (λ m n, Ok (VInt (m * n))) (λ x y, Ok (VFloat (x * y)%float)) a b
  end.

Definition py_div (a b : pyval) : res pyval :=
  arith (λ m n, let? q := py_truediv m n in Ok (VFloat q))
    (λ x y, if feq y 0%float then Raise (ZeroDivisionError "float division by zero")
            else Ok (VFloat (x / y)%float)) a b.

(** [a < b] and [a <= b] of two values that are not containers: numbers by
    value, strings by code points, which is the order of their UTF-8 bytes. *)
Definition py_lt (a b : pyval) : res bool :=
  match a, b with
  | VStr s, VStr t => Ok (match String.compare s t with Lt => true | _ => false end)
  | _, _ =>
      match real_number a, real_number b with
      | Some x, Some y => Ok (pn_lt x y)
      | _, _ => bad_operand
      end
  end.
Definition py_le (a b : pyval) : res bool :=
  match a, b with
  | VStr s, VStr t => Ok (match String.compare s t with Gt => false | _ => true end)
  | _, _ =>
      match real_number a, real_number b with
      | Some x, Some y => Ok (pn_le x y)
      | _, _ => bad_operand
      end
  end.

(** ** Expressions

    The tree [ast.parse] gives, as far as the evaluator distinguishes its
    nodes; every other node or operator is [EOther] or [COther]. *)

Inductive binop := BAdd | BSub | BMult | BDiv.
Inductive cmpop := CEq | CNotEq | CLt | CLtE | CGt | CGtE | COther.

Inductive expr :=
| EConst (v : pyval)                  (* a str, int, float or bool *)
| EName (id : string)
| EUnary (plus : bool) (operand : expr)
| EBool (is_and : bool) (values : list expr)
| EBin (op : binop) (left right : expr)
| ECompare (left : expr) (rest : list (cmpop * expr))
| EOther.

Definition unsupported {A} : res A := Raise (ValueError "Unsupported HAVING expression").

(** The chain of branches on [node.op] and on [operation]. *)
Definition eval_binop (op : binop) (left right : pyval) : res pyval :=
  match op with
  | BAdd => py_add left right
  | BSub => py_sub left right
  | BMult => py_mul left right
  | BDiv => py_div left right
  end.

Definition eval_cmp (op : cmpop) (left right : pyval) : res bool :=
  match op with
  | CEq => Ok (py_eq left right)
  | CNotEq => Ok (negb (py_eq left right))
  | CLt => py_lt left right
  | CLtE => py_le left right
  | CGt => py_lt right left
  | CGtE => py_le right left
  | COther => Raise (ValueError "Unsupported HAVING comparison")
  end.

(** [_evaluate_node]; a comparison chain stops at the first false link, a
    Boolean operator evaluates all of its operands. *)
Fixpoint evaluate_node (row : pydict) (node : expr) : res pyval :=
  match node with
  | EConst v => Ok v
  | EName id => dict_item row id
  | EUnary plus e =>
      let? value := evaluate_node row e in
      if plus then Ok value else py_neg value
  | EBool is_and es =>
      let? values := (fix go es := match es with
        | [] => Ok []
        | e :: es => let? v := evaluate_node row e in let? vs := go es in Ok (truthy v :: vs)
        end) es in
      Ok (VBool (if is_and then forallb (λ b, b) values else existsb (λ b, b) values))
  | EBin op l r =>
      let? left := evaluate_node row l in
      let? right := evaluate_node row r in
      eval_binop op left right
  | ECompare l rest =>
      let? left := evaluate_node row l in
      let? b := (fix go left rest := match rest with
        | [] => Ok true
        | (op, r) :: rest =>
            let? right := evaluate_node row r in
            let? result := eval_cmp op left right in
            if result then go right rest else Ok false
        end) left rest in
      Ok (VBool b)
  | EOther => unsupported
  end.

(** [re.sub('(?<![<>=!])=(?![=])', '==', condition)] *)
Definition cmp_char (c : ascii) : bool :=
  bool_decide (c = "<"%char) || bool_decide (c = ">"%char) ||
  bool_decide (c = "="%char) || bool_decide (c = "!"%char).
Fixpoint double_equals (prev : option ascii) (l : text) : text :=
  match l with
  | [] => []
  | c :: l' =>
      let lone := bool_decide (c = "="%char)
        && negb (match prev with Some p => cmp_char p | None => false end)
        && negb (match l' with d :: _ => bool_decide (d = "="%char) | [] => false end) in
      (if lone then ["="%char; "="%char] else [c]) ++ double_equals (Some c) l'
  end.

(** The exceptions the evaluator turns into a false condition. *)
Definition having_catches (e : exn) : bool :=
  match e with
  | TypeError _ | ValueError _ | KeyError _ | ZeroDivisionError _ => true
  | _ => false
  end.

(** ** The engine *)

Record engine := mk_engine {
  en_groups : list (list pyval * slog);   (* by first insertion *)
  en_global : slog
}.

Definition set_groups (g : list (list pyval * slog)) (s : engine) : engine :=
  mk_engine g (en_global s).
Definition set_global (l : slog) (s : engine) : engine := mk_engine (en_groups s) l.

(** Equality of two tuples used as keys. *)
Fixpoint key_eq (k1 k2 : list pyval) : bool :=
  match k1, k2 with
  | [], [] => true
  | x :: k1, y :: k2 => py_eq x y && key_eq k1 k2
  | _, _ => false
  end.

(** The position of a key in the dictionary. *)
Fixpoint find_group (key : list pyval) (g : list (list pyval * slog)) : option nat :=
  match g with
  | [] => None
  | (k, _) :: g => if key_eq k key then Some O else option_map S (find_group key g)
  end.

(** [row.get(col)] *)
Definition row_get (row : pydict) (col : text) : pyval :=
  default VNone (dict_get row (str col)).

Section Engine.
Context `{Libm} `{FloatParser} `{FloatRepr} (container : pyval → string).
Context (ast_parse : string → option expr).
Context (plan : plan) (config : log_config).

Definition star : text := ["*"%char].
Definition engine_init : res engine :=
  let? l := new_log config in Ok (mk_engine [] l).

(** [log.add_unique(val)]: a [bool] is an [int]; a value of another type is
    hashed by its text. *)
Definition unique_key (v : pyval) : event_key :=
  match v with
  | VInt z => KInt z
  | VBool b => KInt (if b then 1 else 0)
  | _ => KStr (py_str container v)
  end.

(** One selection of [add_row] applied to the log of the row's group. *)
Definition feed_selection (row : pydict) (sel : selection) : M slog unit :=
  match sel with
  | SelCol _ _ => mret ()
  | SelAgg (P99 | P95 | P50) col _ =>
      match row_get row col with
      | VNone => mret ()
      | val => x <- mlift (py_float val) ;; slog_add_latency x
      end
  | SelAgg UniqueCount col _ =>
      match row_get row col with
      | VNone => mret ()
      | val => slog_add_unique (unique_key val)
      end
  | SelAgg EventCount col _ =>
      if bool_decide (col = star) then slog_add_event (KStr "*") 1
      else match row_get row col with
           | VNone => mret ()
           | val => slog_add_event (KStr (py_str container val)) 1
           end
  end.

Definition feed (row : pydict) : M slog unit := mfor (pl_selects plan) (feed_selection row).

(** [tuple(row.get(col) for col in group_by)] *)
Definition key_of (row : pydict) : list pyval := map (row_get row) (pl_group_by plan).

(** A method of [self.groups[key]] found at position [i]. *)
Definition on_group (i : nat) (m : M slog unit) : M engine unit :=
  s <- mget ;;
  kl <- mlift (py_index (en_groups s) (Z.of_nat i)) ;;
  let '(r, l') := m kl.2 in
  mmodify (set_groups (<[i := (kl.1, l')]> (en_groups s))) ;;;
  mlift r.

Definition add_row (row : pydict) : M engine unit :=
  match pl_group_by plan with
  | [] => zoom en_global set_global (feed row)
  | _ =>
      let key := key_of row in
      raise_if (negb (forallb hashable key)) (TypeError "unhashable type") ;;;
      s <- mget ;;
      match find_group key (en_groups s) with
      | Some i => on_group i (feed row)
      | None =>
          l <- mlift (new_log config) ;;
          mmodify (set_groups (en_groups s ++ [(key, l)])) ;;;
          on_group (length (en_groups s)) (feed row)
      end
  end.

(** [_eval_having] *)
Definition eval_having (condition : text) (row : pydict) : res bool :=
  match ast_parse (str (double_equals None condition)) with
  | None => Ok false
  | Some tree =>
      match evaluate_node row tree with
      | Ok v => Ok (truthy v)
      | Raise e => if having_catches e then Ok false else Raise e
      end
  end.

(** [row_out[alias] = value] *)
Fixpoint dict_set (k : string) (v : pyval) (d : pydict) : pydict :=
  match d with
  | [] => [(VStr k, v)]
  | (VStr k', v') :: d' =>
      if decide (k' = k) then (VStr k', v) :: d' else (VStr k', v') :: dict_set k v d'
  | kv :: d' => kv :: dict_set k v d'
  end.

(** The value of one aggregate over a log. *)
Definition latency_agg (func : agg) (log : slog) : res float :=
  match func with
  | P99 => slog_p99 log
  | P95 => slog_p95 log
  | _ => slog_p50 log
  end.

Definition output_selection (log : slog) (row_out : pydict) (sel : selection) : res pydict :=
  match sel with
  | SelAgg UniqueCount _ alias =>
      let? n := slog_unique_count log in Ok (dict_set (str alias) (VInt n) row_out)
  | SelAgg EventCount col alias =>
      let? n :=
        if bool_decide (col = star) then Ok (sl_total log)
        else match dict_get row_out (str col) with
             | Some v => slog_event_count log (KStr (py_str container v))
             | None => Ok (sl_total log)
             end in
      Ok (dict_set (str alias) (VInt n) row_out)
  | SelAgg func _ alias =>
      let? x := latency_agg func log in Ok (dict_set (str alias) (VFloat x) row_out)
  | SelCol _ alias =>
      match dict_get row_out (str alias) with
      | Some _ => Ok row_out
      | None => Ok (dict_set (str alias) VNone row_out)
      end
  end.

(** One group of [execute_query]: its row, or nothing when HAVING is false. *)
Definition output_group (key : list pyval) (log : slog) : res (list pydict) :=
  let columns := foldl (λ d '(col, v), dict_set (str col) v d) []
                   (zip (pl_group_by plan) key) in
  let? row_out := res_fold (output_selection log) (pl_selects plan) columns in
  match pl_having plan with
  | None => Ok [row_out]
  | Some condition =>
      let? b := eval_having condition row_out in
      Ok (if b then [row_out] else [])
  end.

Definition execute_query (s : engine) : res (list pydict) :=
  let items := match pl_group_by plan with [] => [([], en_global s)] | _ => en_groups s end in
  let? rows := res_mapM (λ '(key, log), output_group key log) items in
  Ok (List.concat rows).

(** [execute_stream_query]; the evaluator it builds for HAVING has no state
    of its own. *)
Definition stream_selection (log : slog) (result : pydict) (sel : selection) : res pydict :=
  match sel with
  | SelCol _ _ =>
      Raise (ValueError "Live stream queries support aggregate expressions only")
  | SelAgg func col alias =>
      let? v :=
        match func with
        | UniqueCount => let? n := slog_unique_count log in Ok (VInt n)
        | EventCount =>
            let? n := if bool_decide (col = star) then Ok (sl_total log)
                      else slog_event_count log (KStr (str col)) in Ok (VInt n)
        | _ => let? x := latency_agg func log in Ok (VFloat x)
        end in
      Ok (dict_set (str alias) v result)
  end.

Definition execute_stream_query (log : slog) : res pydict :=
  match pl_group_by plan with
  | _ :: _ =>
      Raise (ValueError "GROUP BY is available only in embedded row-ingestion mode")
  | [] =>
      let? result := res_fold (stream_selection log) (pl_selects plan) [] in
      match pl_having plan with
      | None => Ok result
      | Some condition =>
          let? b := eval_having condition result in
          Ok (if b then result else [])
      end
  end.
End Engine.

(** ** Keys *)

(** The value a simple key stands for: equal numbers of different types are
    one key. *)
Inductive key_class := CNone | CNum (v : Z) | CText (s : string).

#[export] Instance key_class_eq_dec : EqDecision key_class.
Proof. solve_decision. Defined.

Definition class_of (v : pyval) : option key_class :=
  match v with
  | VNone => Some CNone
  | VStr s => Some (CText s)
  | VList _ | VDict _ => None
  | _ => match real_number v with
         | Some x => if pn_fin x then Some (CNum (pn_val x)) else None
         | None => None
         end
  end.

Definition classes (k : list pyval) : option (list key_class) := mapM class_of k.

(** A key of hashable values none of which is NaN or infinite. *)
Definition simple_key (k : list pyval) : Prop := is_Some (classes k).

Lemma class_of_number v c :
  class_of v = Some c →
  match real_number v with
  | Some x => pn_fin x = true ∧ c = CNum (pn_val x)
  | None => v = VNone ∧ c = CNone ∨ ∃ s, v = VStr s ∧ c = CText s
  end.
Proof.
  destruct v; simpl; intros H; simplify_eq; eauto.
  by destruct (isfinite f) eqn:E; simplify_eq.
Qed.

Lemma py_eq_class a b ca cb :
  class_of a = Some ca → class_of b = Some cb → py_eq a b = bool_decide (ca = cb).
Proof.
  intros Ha%class_of_number Hb%class_of_number.
  assert (∀ x y, real_number a = Some x → real_number b = Some y →
    py_eq a b = match pn_compare x y with Some Eq => true | _ => false end) as Hn.
  { intros x y. by destruct a, b; cbn; intros [= <-] [= <-]. }
  destruct (real_number a) as [x|] eqn:Ea, (real_number b) as [y|] eqn:Eb.
  - destruct Ha as [Fx ->], Hb as [Fy ->]. rewrite (Hn x y), pn_compare_val by done.
    destruct (Z.compare_spec (pn_val x) (pn_val y)) as [E|E|E]; symmetry;
      [apply bool_decide_eq_true_2; congruence|apply bool_decide_eq_false_2..];
      intros [=]; lia.
  - destruct Ha as [Fx ->], Hb as [[-> ->]|(s & -> & ->)];
      rewrite bool_decide_eq_false_2 by done; by destruct a.
  - destruct Hb as [Fx ->], Ha as [[-> ->]|(s & -> & ->)];
      rewrite bool_decide_eq_false_2 by done; by destruct b.
  - destruct Ha as [[-> ->]|(s & -> & ->)], Hb as [[-> ->]|(s' & -> & ->)]; try done.
    cbn. apply bool_decide_ext. naive_solver.
Qed.

Lemma key_eq_classes k1 k2 c1 c2 :
  classes k1 = Some c1 → classes k2 = Some c2 → key_eq k1 k2 = bool_decide (c1 = c2).
Proof.
  unfold classes. revert k2 c1 c2.
  induction k1 as [|a k1 IH]; intros [|b k2] c1 c2 H1 H2; simpl in *; cbv [base.mret option_ret] in *.
  - by simplify_eq.
  - apply bind_Some in H2 as (cb & Hb & (cs & Hcs & [= <-])%bind_Some). by simplify_eq.
  - apply bind_Some in H1 as (cb & Hb & (cs & Hcs & [= <-])%bind_Some). by simplify_eq.
  - apply bind_Some in H1 as (ca & Ha & (cs & Hcs & [= <-])%bind_Some).
    apply bind_Some in H2 as (cb & Hb & (ds & Hds & [= <-])%bind_Some).
    rewrite (py_eq_class _ _ _ _ Ha Hb), (IH _ _ _ Hcs Hds), <- bool_decide_and.
    apply bool_decide_ext. naive_solver.
Qed.

Lemma simple_hashable k : simple_key k → forallb hashable k = true.
Proof.
  intros [c Hc]. revert c Hc. unfold classes. induction k as [|v k IH]; intros c Hc; [done|].
  apply bind_Some in Hc as (cv & Hv & (cs & Hcs & _)%bind_Some). simpl.
  by rewrite (IH cs) by done; destruct v.
Qed.

(** [key_eq] is an equivalence on simple keys. *)
Lemma key_eq_refl k : simple_key k → key_eq k k = true.
Proof. intros [c Hc]. rewrite (key_eq_classes k k c c) by done. by apply bool_decide_eq_true. Qed.
Lemma key_eq_subst k1 k2 k :
  simple_key k1 → simple_key k2 → simple_key k →
  key_eq k1 k2 = true → key_eq k k1 = key_eq k k2.
Proof.
  intros [c1 H1] [c2 H2] [c H3].
  rewrite (key_eq_classes _ _ _ _ H1 H2), (key_eq_classes _ _ _ _ H3 H1),
    (key_eq_classes _ _ _ _ H3 H2). intros ->%bool_decide_eq_true. done.
Qed.

(** ** Grouping

    The distinct keys in order of first appearance, and the log of one key:
    its rows alone, ingested into a new log. *)
Fixpoint add_key (key : list pyval) (ks : list (list pyval)) : list (list pyval) :=
  match ks with
  | [] => [key]
  | k :: ks' => if key_eq k key then ks else k :: add_key key ks'
  end.
Definition distinct_keys (ks : list (list pyval)) : list (list pyval) :=
  foldl (λ acc k, add_key k acc) [] ks.

(** The keys collected so far are simple and distinct. *)
Definition keys_ok (ks : list (list pyval)) : Prop :=
  Forall simple_key ks ∧ NoDup (map classes ks).

Lemma elem_of_add_key key ks k : k ∈ add_key key ks → k = key ∨ k ∈ ks.
Proof.
  induction ks as [|k' ks IH]; simpl; [by intros ->%list_elem_of_singleton; left|].
  destruct (key_eq k' key); [by right|]. set_solver.
Qed.

Lemma key_eq_false k key :
  simple_key k → simple_key key → key_eq k key = false ↔ classes k ≠ classes key.
Proof.
  intros [c Hc] [d Hd]. rewrite (key_eq_classes _ _ _ _ Hc Hd), bool_decide_eq_false, Hc, Hd.
  naive_solver.
Qed.

Lemma add_key_ok key ks : simple_key key → keys_ok ks → keys_ok (add_key key ks).
Proof.
  intros Hk. induction ks as [|k ks IH]; intros [Hs Hn]; simpl.
  - split; [by repeat constructor|]. repeat constructor. by intros ?%elem_of_nil.
  - apply Forall_cons in Hs as [Hsk Hs]. apply NoDup_cons in Hn as [Hnk Hn].
    destruct (key_eq k key) eqn:E; [by split; constructor|].
    destruct IH as [IH1 IH2]; [by split|]. split; [by constructor|]. simpl. constructor; [|done].
    intros (k' & E' & [->|Hk']%elem_of_add_key)%list_elem_of_fmap.
    + by apply (key_eq_false k key) in E.
    + apply Hnk. rewrite E'. by apply list_elem_of_fmap_2.
Qed.

Lemma distinct_keys_snoc ks k : distinct_keys (ks ++ [k]) = add_key k (distinct_keys ks).
Proof. unfold distinct_keys. by rewrite foldl_app. Qed.

Lemma distinct_keys_ok ks : Forall simple_key ks → keys_ok (distinct_keys ks).
Proof.
  induction ks as [|k ks IH] using rev_ind; intros Hs; [by split; constructor|].
  apply Forall_app in Hs as [Hs [Hk _]%Forall_cons]. rewrite distinct_keys_snoc.
  by apply add_key_ok; auto.
Qed.

(** A key with no entry yet has no rows yet. *)
Lemma in_distinct_keys ks k :
  Forall simple_key ks → k ∈ ks → ∃ k', k' ∈ distinct_keys ks ∧ key_eq k' k = true.
Proof.
  induction ks as [|a ks IH] using rev_ind; intros Hs Hk; [by apply elem_of_nil in Hk|].
  apply Forall_app in Hs as [Hs [Ha _]%Forall_cons]. rewrite distinct_keys_snoc.
  assert (∀ l, ∃ k', k' ∈ add_key a l ∧ key_eq k' a = true) as Hadd.
  { induction l as [|b l IHl]; simpl; [exists a; split; [by left|by apply key_eq_refl]|].
    destruct (key_eq b a) eqn:E; [exists b; split; [by left|done]|].
    destruct IHl as (k' & Hk1 & Hk2). exists k'. split; [by right|done]. }
  assert (∀ l b, b ∈ l → b ∈ add_key a l) as Hkeep.
  { induction l as [|b l IHl]; intros b' Hb; [by apply elem_of_nil in Hb|]. simpl.
    destruct (key_eq b a); [done|]. set_solver. }
  apply elem_of_app in Hk as [Hk| ->%list_elem_of_singleton]; [|done].
  destruct (IH Hs Hk) as (k' & Hk1 & Hk2). exists k'. split; [by apply Hkeep|done].
Qed.

Section grouping.
Context `{Libm} `{FloatParser} `{FloatRepr} (container : pyval → string).
Context (plan : plan) (config : log_config).

(** Ingesting rows; the caller goes on after a row that raises. *)
Definition ingest (rows : list pydict) : M engine unit :=
  mfor rows (λ r, mtry (add_row container plan config r) (mret ())).
Definition ingest_one (rows : list pydict) : M slog unit :=
  mfor rows (λ r, mtry (feed container plan r) (mret ())).

Definition rows_of (key : list pyval) (rows : list pydict) : list pydict :=
  filter (λ r, key_eq key (key_of plan r) = true) rows.
Definition log_of (log0 : slog) (key : list pyval) (rows : list pydict) : slog :=
  exec (ingest_one (rows_of key rows)) log0.

Context (log0 : slog) (Hnew : new_log config = Ok log0).
Context (Hgroup : pl_group_by plan ≠ []).

Definition groups_of (rows : list pydict) : list (list pyval * slog) :=
  map (λ k, (k, log_of log0 k rows)) (distinct_keys (map (key_of plan) rows)).

Definition fed (r : pydict) (l : slog) : slog := snd (feed container plan r l).

Lemma exec_try {S} (m : M S unit) s : exec (mtry m (mret ())) s = snd (m s).
Proof. unfold exec, mtry. by destruct (m s) as [[[]|e] s']. Qed.

Lemma try_ok {S} (m : M S unit) s : mtry m (mret ()) s = (Ok (), snd (m s)).
Proof. unfold mtry. by destruct (m s) as [[[]|e] s']. Qed.

Lemma exec_for_snoc {S A} (xs : list A) (body : A → M S unit) x s :
  (∀ y, noraise (body y)) →
  exec (mfor (xs ++ [x]) body) s = exec (body x) (exec (mfor xs body) s).
Proof.
  intros Hn. unfold exec. rewrite mfor_app. unfold mbind at 1.
  pose proof (noraise_for xs body Hn s) as Hx.
  destruct (mfor xs body s) as [[u|e] s']; [|done]. simpl. unfold mbind.
  by destruct (body x s') as [[u'|e] s''].
Qed.

Lemma noraise_try {S} (m : M S unit) : noraise (mtry m (mret ())).
Proof. intros s. by rewrite try_ok. Qed.

Lemma log_of_snoc key rows r :
  log_of log0 key (rows ++ [r]) =
  if key_eq key (key_of plan r) then fed r (log_of log0 key rows) else log_of log0 key rows.
Proof.
  unfold log_of, rows_of. rewrite filter_app, filter_cons, filter_nil.
  destruct (key_eq key (key_of plan r)); [|by rewrite decide_False, app_nil_r].
  rewrite decide_True by done. unfold ingest_one.
  rewrite exec_for_snoc by (intros; apply noraise_try). by rewrite exec_try.
Qed.

Lemma find_group_lookup key g i :
  find_group key g = Some i → ∃ kl, g !! i = Some kl.
Proof.
  revert i. induction g as [|[k l] g IH]; intros i E; [done|]. simpl in E.
  destruct (key_eq k key); [injection E as <-; by exists (k, l)|].
  destruct (find_group key g) as [j|]; [|done]. injection E as <-. by apply IH.
Qed.

(** Updating the log of a key in place, or a new one at the end. *)
Fixpoint group_upd (key : list pyval) (f : slog → slog) (g : list (list pyval * slog))
    : list (list pyval * slog) :=
  match g with
  | [] => [(key, f log0)]
  | (k, l) :: g' => if key_eq k key then (k, f l) :: g' else (k, l) :: group_upd key f g'
  end.

Lemma group_upd_found key f g i kl :
  find_group key g = Some i → g !! i = Some kl →
  <[i := (kl.1, f kl.2)]> g = group_upd key f g.
Proof.
  revert i. induction g as [|[k l] g IH]; intros i E Hl; [done|]. simpl in *.
  destruct (key_eq k key); [by simplify_eq/=|].
  destruct (find_group key g) as [j|]; [|done]. simplify_eq/=. by rewrite (IH j).
Qed.

Lemma group_upd_new key f g :
  find_group key g = None → g ++ [(key, f log0)] = group_upd key f g.
Proof.
  induction g as [|[k l] g IH]; intros E; [done|]. simpl in *.
  destruct (key_eq k key); [done|]. destruct (find_group key g); [done|].
  by rewrite <- IH.
Qed.

Lemma on_group_run i (m : M slog unit) s kl :
  en_groups s !! i = Some kl →
  snd (on_group i m s) = set_groups (<[i := (kl.1, snd (m kl.2))]> (en_groups s)) s.
Proof.
  intros Hi. unfold on_group, mbind, mget, mlift, mmodify.
  rewrite (py_index_nat _ _ kl) by done. destruct (m kl.2) as [[u|e] l']; done.
Qed.

Lemma add_row_groups r s :
  simple_key (key_of plan r) →
  snd (add_row container plan config r s) =
  set_groups (group_upd (key_of plan r) (fed r) (en_groups s)) s.
Proof using Hnew Hgroup.
  intros Hs. unfold add_row. destruct (pl_group_by plan) as [|c cs]; [done|].
  rewrite simple_hashable by done. unfold raise_if. simpl negb. cbv iota.
  unfold mbind at 1, mret at 1, mbind at 1, mget at 1.
  destruct (find_group (key_of plan r) (en_groups s)) as [i|] eqn:E.
  - destruct (find_group_lookup _ _ _ E) as (kl & Hl).
    rewrite (on_group_run _ _ _ kl) by done. f_equal. by apply (group_upd_found _ (fed r)).
  - unfold mbind, mlift, mmodify. rewrite Hnew.
    rewrite (on_group_run _ _ _ (key_of plan r, log0)) by (simpl; by apply list_lookup_middle).
    simpl. rewrite <- group_upd_new by done. destruct s as [g l]. unfold set_groups; simpl. f_equal.
    rewrite insert_app_r_alt by done. by rewrite Nat.sub_diag.
Qed.

Lemma groups_of_snoc rows r :
  Forall simple_key (map (key_of plan) (rows ++ [r])) →
  groups_of (rows ++ [r]) = group_upd (key_of plan r) (fed r) (groups_of rows).
Proof using Hnew Hgroup.
  rewrite map_app. intros [Hs [Hr _]%Forall_cons]%Forall_app. unfold groups_of.
  rewrite map_app. change (map (key_of plan) [r]) with [key_of plan r].
  rewrite distinct_keys_snoc.
  pose proof (distinct_keys_ok _ Hs) as [Hsk Hnd].
  assert (∀ k, k ∈ map (key_of plan) rows → ∃ k', k' ∈ distinct_keys (map (key_of plan) rows) ∧
    key_eq k' k = true) as Hall by (intros; by apply in_distinct_keys).
  set (key := key_of plan r) in *.
  assert (∀ ks, Forall simple_key ks → NoDup (map classes ks) →
    ((∀ k, k ∈ ks → key_eq k key = false) → log_of log0 key rows = log0) →
    map (λ k, (k, log_of log0 k (rows ++ [r]))) (add_key key ks) =
    group_upd key (fed r) (map (λ k, (k, log_of log0 k rows)) ks)) as Hgo.
  { induction ks as [|k ks IH]; intros Hks Hn Hnew'; simpl.
    - rewrite log_of_snoc. fold key. rewrite key_eq_refl by done.
      rewrite Hnew'; [done|]. by intros ? ?%elem_of_nil.
    - apply Forall_cons in Hks as [Hk Hks]. apply NoDup_cons in Hn as [Hkn Hn].
      destruct (key_eq k key) eqn:E; simpl.
      + rewrite log_of_snoc. fold key. rewrite E. f_equal. apply map_ext_in.
        intros k' Hk'%list_elem_of_In. rewrite log_of_snoc. fold key.
        rewrite Forall_forall in Hks. rewrite (proj2 (key_eq_false k' key (Hks _ Hk') Hr)); [done|].
        intros E'. apply Hkn. apply not_false_iff_true in E.
        apply list_elem_of_fmap. exists k'. split; [|done].
        destruct (decide (classes k = classes k')) as [|Hne]; [done|].
        exfalso. apply E, key_eq_false; [done..|]. by rewrite <- E'.
      + rewrite log_of_snoc. fold key. rewrite E. f_equal. apply IH; [done..|].
        intros Hno. apply Hnew'. intros k' [->|Hk']%elem_of_cons; auto. }
  apply Hgo; [done..|]. intros Hno. unfold log_of.
  assert (rows_of key rows = []) as ->; [|done].
  apply elem_of_nil_inv. intros r' [E Hr']%list_elem_of_filter. destruct (Hall (key_of plan r')) as (k' & Hk' & E');
    [by apply list_elem_of_fmap_2|].
  assert (simple_key k') as Hk's by (rewrite Forall_forall in Hsk; auto).
  assert (simple_key (key_of plan r')) as Hr's
    by (rewrite Forall_forall in Hs; apply Hs, list_elem_of_fmap_2; done).
  specialize (Hno k' Hk'). apply (key_eq_false k' key) in Hno; [|done..].
  apply not_false_iff_true in E, E'. apply Hno.
  destruct (decide (classes k' = classes (key_of plan r'))) as [->|Hne];
    [|by destruct E'; apply key_eq_false].
  destruct (decide (classes key = classes (key_of plan r'))) as [->|Hne]; [done|].
  by destruct E; apply key_eq_false.
Qed.

Lemma ingest_groups rows :
  Forall simple_key (map (key_of plan) rows) →
  exec (ingest rows) (mk_engine [] log0) = mk_engine (groups_of rows) log0.
Proof using Hnew Hgroup.
  induction rows as [|r rows IH] using rev_ind; intros Hs; [done|].
  unfold ingest. rewrite exec_for_snoc by (intros; apply noraise_try).
  rewrite exec_try. rewrite groups_of_snoc by done.
  rewrite map_app in Hs. apply Forall_app in Hs as [Hs [Hr _]%Forall_cons].
  unfold ingest in IH. rewrite IH by done. by rewrite add_row_groups.
Qed.
End grouping.

(** ** HAVING *)

(** The exceptions an expression can raise. *)
Definition eval_exn (e : exn) : Prop :=
  having_catches e = true ∨ ∃ msg, e = OverflowError msg.

Lemma pn_float_raises x : raises eval_exn (pn_float x).
Proof. destruct x; cbn; [|done]. unfold py_float_of_Z. case_match; [by right; eexists|done]. Qed.

Lemma arith_raises f g a b :
  (∀ m n, raises eval_exn (f m n)) → (∀ x y, raises eval_exn (g x y)) →
  raises eval_exn (arith f g a b).
Proof.
  intros Hf Hg. unfold arith.
  destruct (real_number a) as [[]|], (real_number b) as [[]|]; try (by left); try done;
    apply raises_bind; try apply pn_float_raises; intros u;
    apply raises_bind; try apply pn_float_raises; intros v; apply Hg.
Qed.

Lemma eval_binop_raises op l r : raises eval_exn (eval_binop op l r).
Proof.
  assert (∀ f g, (∀ m n, raises eval_exn (f m n)) → (∀ x y, raises eval_exn (g x y)) →
    raises eval_exn (arith f g l r)) as Ha by (intros; by apply arith_raises).
  destruct op; simpl.
  - unfold py_add. destruct l, r; try done; by apply Ha.
  - by apply Ha.
  - unfold py_mul. destruct l, r; cbn [real_number as_number]; try done; by apply Ha.
  - apply Ha; intros m n; [|by case_match; [left|]].
    apply raises_bind; [|done]. unfold py_truediv. repeat case_match; try done;
      [by left|by right; eexists].
Qed.

Lemma eval_cmp_raises op l r : raises eval_exn (eval_cmp op l r).
Proof.
  destruct op; simpl; try done; try (by left); unfold py_lt, py_le, bad_operand;
    repeat case_match; try done; by left.
Qed.

Lemma evaluate_raises row : ∀ node, raises eval_exn (evaluate_node row node).
Proof.
  fix IH 1. intros [v|id|plus e|is_and es|op l r|l rest|]; simpl.
  - done.
  - unfold dict_item. case_match; [done|by left].
  - apply raises_bind; [apply IH|]. intros v. destruct plus; [done|].
    unfold py_neg. repeat case_match; try done. by left.
  - apply raises_bind; [|done]. induction es as [|e es IHes]; [done|].
    apply raises_bind; [apply IH|]. intros v. apply raises_bind; [apply IHes|done].
  - apply raises_bind; [apply IH|]. intros u. apply raises_bind; [apply IH|]. intros v.
    apply eval_binop_raises.
  - apply raises_bind; [apply IH|]. intros u. apply raises_bind; [|done].
    revert u. induction rest as [|[op r] rest IHr]; intros u; [done|].
    apply raises_bind; [apply IH|]. intros v. apply raises_bind; [apply eval_cmp_raises|].
    intros []; [apply IHr|done].
  - by left.
Qed.

(** HAVING answers, or the overflow of a number escapes: no other exception
    leaves [_eval_having]. *)
Lemma eval_having_raises ast_parse condition row :
  raises (λ e, ∃ msg, e = OverflowError msg) (eval_having ast_parse condition row).
Proof.
  unfold eval_having. destruct (ast_parse _) as [tree|]; [|done].
  pose proof (evaluate_raises row tree) as He.
  destruct (evaluate_node row tree) as [v|e]; [done|]. simpl in He.
  destruct (having_catches e) eqn:E; [done|]. destruct He as [He|He]; [congruence|done].
Qed.

(** The overflow does escape: dividing an integer beyond the range of floats. *)
Lemma having_overflow_escapes :
  ∃ msg, eval_having (λ _, Some (EBin BDiv (EConst (VInt (2 ^ 1100))) (EConst (VInt 1))))
    [] [] = Raise (OverflowError msg).
Proof. eexists. vm_compute. reflexivity. Qed.

(** A lone equals sign is doubled inside string literals too. *)
Lemma equals_in_literal_rewritten :
  str (double_equals None (chars "host = 'a=b'")) = "host == 'a==b'".
Proof. vm_compute. reflexivity. Qed.

(** The value of an expression is not bounded by the length of its text. *)
Lemma repeat_string_length s n :
  0 ≤ n → Z.of_nat (String.length (repeat_string s n)) = n * Z.of_nat (String.length s).
Proof.
  intros Hn. unfold repeat_string. rewrite <- (Z2Nat.id n) at 2 by done.
  assert (∀ a b, String.length (String.append a b) = (String.length a + String.length b)%nat) as Happ.
  { intros a b. induction a as [|c a IHa]; simpl; [done|]. by rewrite IHa. }
  assert (∀ l, String.concat "" (s :: l) = String.append s (String.concat "" l)) as Hc.
  { intros [|x l]; [|done]. simpl. clear. induction s as [|c s IHs]; [done|].
    change (String c s = String c (String.append s "")). by f_equal. }
  induction (Z.to_nat n) as [|k IH]; [done|]. cbn [replicate].
  rewrite Hc, Happ, Nat2Z.inj_add, IH. lia.
Qed.

(** ** Properties *)

(** C20. GROUP BY.  After ingesting any rows whose keys are simple (hashable,
    no NaN or infinity), rows that raise included, the engine holds one entry per
    distinct key in order of first appearance, and its log is exactly the log
    that the rows of that key alone, in their order, give when ingested into a
    fresh log; the query's answer is the concatenation of the answers of
    these separate logs. *)
Theorem group_by_is_filtering `{Libm} `{FloatParser} `{FloatRepr}
    container ast_parse plan config log0 rows :
  engine_init config = Ok (mk_engine [] log0) →
  pl_group_by plan ≠ [] →
  Forall simple_key (map (key_of plan) rows) →
  let s := exec (ingest container plan config rows) (mk_engine [] log0) in
  let keys := distinct_keys (map (key_of plan) rows) in
  en_groups s = map (λ k, (k, log_of container plan log0 k rows)) keys ∧
  NoDup (map classes keys) ∧
  (∀ k, k ∈ map (key_of plan) rows → ∃ k', k' ∈ keys ∧ key_eq k' k = true) ∧
  execute_query container ast_parse plan s =
    (let? answers := res_mapM
       (λ k, output_group container ast_parse plan k (log_of container plan log0 k rows)) keys in
     Ok (List.concat answers)).
Proof.
  intros Hi Hg Hs s keys. unfold engine_init in Hi. inv_res Hi. simplify_eq.
  unfold s. rewrite (ingest_groups _ _ _ log0) by done. split_and!; simpl.
  - done.
  - by apply distinct_keys_ok.
  - intros k Hk. by apply in_distinct_keys.
  - unfold execute_query. simpl. destruct (pl_group_by plan) eqn:Ep; [done|].
    f_equal. unfold groups_of. fold keys. clear. induction keys as [|k ks IH]; [done|].
    simpl. by rewrite IH.
Qed.

Definition demo_parser : FloatParser := λ _, Raise (ValueError "could not convert string to float").
Definition demo_float_repr : FloatRepr := λ _, "1.5".
Definition demo_config : log_config := mk_log_config 0.5%float 4 2 1 true.
Definition demo_plan : plan :=
  mk_plan [SelCol (chars "host") (chars "host"); SelAgg EventCount star (chars "n");
           SelAgg P50 (chars "ms") (chars "m")]
    (chars "logs") [chars "host"] (Some (chars "n > 1")).
Definition demo_having (s : string) : option expr :=
  if decide (s = "n > 1") then Some (ECompare (EName "n") [(CGt, EConst (VInt 1))]) else None.
(** Rows of the keys 1, "a", 1.0 (the key 1 again) and none; the latency of
    the third cannot be read, and its row raises after it was counted. *)
Definition demo_rows : list pydict :=
  [[(VStr "host", VInt 1); (VStr "ms", VInt 4)]; [(VStr "host", VStr "a")];
   [(VStr "host", VFloat 1); (VStr "ms", VStr "x")]; []].

Lemma group_by_is_filtering_witness :
  let s := exec (ingest (H := coarse_libm) (H0 := demo_parser) (H1 := demo_float_repr)
             (λ _, "") demo_plan demo_config demo_rows) (mk_engine [] demo_log) in
  map (λ kl, (kl.1, sl_total kl.2)) (en_groups s) =
    [([VInt 1], 3); ([VStr "a"], 1); ([VNone], 1)] ∧
  map (λ kl, (kl.1, kl.2)) (en_groups s) =
    map (λ k, (k, log_of (H := coarse_libm) (H0 := demo_parser) (H1 := demo_float_repr)
                    (λ _, "") demo_plan demo_log k demo_rows))
      [[VInt 1]; [VStr "a"]; [VNone]].
Proof.
  intros s. split; [vm_compute; reflexivity|].
  destruct (group_by_is_filtering (H := coarse_libm) (H0 := demo_parser)
    (H1 := demo_float_repr) (λ _, "") demo_having demo_plan demo_config demo_log demo_rows)
    as (Hg & _); [vm_compute; reflexivity|discriminate| |].
  - repeat (apply Forall_cons_2; [eexists; vm_compute; reflexivity|]). apply Forall_nil_2.
  - fold s in Hg. rewrite Hg. vm_compute. reflexivity.
Defined.
