(* ===== verification/Server.v ===== *)
(** * The HTTP server's gatekeeping ([server.py])

    The authorisation of requests by namespace tokens, from the middleware and
    the WebSocket handler to the streams that a handler reads or writes; the
    request body limit around an application that may do anything; and the
    ingestion endpoint's preflight.

    Proved: outside the alias routes with a [namespace] parameter the server
    enforces exactly the documented policy, with a request that gets around it
    through such a route; the application never receives more bytes than the
    limit and notices nothing as long as the body is within it; an accepted
    batch is ingested as a whole or not at all.

    Routing is the framework's: a class with its documented laws. *)

From Stdlib Require Import Ascii String PrimFloat.
From S2P Require Import Prelude PyFloat FloatRound Hashing CountMin HyperLogLog DDSketch PyVal PyDict StreamLog SqlParser.

#[local] Open Scope Z_scope.
#[local] Open Scope py_scope.

(** ** Authorisation *)

(** [s.split(c)] *)
Fixpoint split_on (c : ascii) (l : text) : list text :=
  match l with
  | [] => [[]]
  | a :: l' =>
      if decide (a = c) then [] :: split_on c l'
      else match split_on c l' with w :: ws => (a :: w) :: ws | [] => [[a]] end
  end.

(** [s.split(c, 1)]: the text before the first [c], and after it if there is one. *)
Fixpoint split_once (c : ascii) (l : text) : text * option text :=
  match l with
  | [] => ([], None)
  | a :: l' =>
      if decide (a = c) then ([], Some l')
      else let '(w, r) := split_once c l' in (a :: w, r)
  end.

Definition slash : ascii := "/".
Definition comma : ascii := ",".

(** The names of a comma-separated list, without blank ones. *)
Definition names_of (l : text) : list string :=
  map str (filter (λ w, w ≠ []) (map strip_chars (split_on comma l))).

(** A request as the framework presents it: the path, the query parameters,
    the token header, the authorisation cookie. *)
Record request := mk_request {
  rq_path : text;
  rq_query : string → option string;
  rq_token : option string;
  rq_cookie : option string
}.

(** What a route binds: the endpoints on a stream with the baseline streams
    that some of them take, and the three others. *)
Inductive call :=
| CStream (namespace stream_id : string) (baselines : list string)
| CAggregate (namespaces : text) (stream_id : string)
| CQuery (query : text)
| CSocket (namespace stream_id : string)
| COther.

Definition streams_marker : text := chars "/v1/streams/".
Definition namespaces_marker : text := chars "/v1/namespaces/".
Definition aggregate_path : text := chars "/v1/namespaces/aggregate".
Definition query_path : text := chars "/v1/query".

(** The laws of routing (path parameters and query parameters of FastAPI): a
    [{namespace}] in the path is a part without slashes; a parameter that is
    not in the path is a query parameter with its default. *)
Class Router := {
  route : request → call;
  route_bound r :
    match route r with
    | CStream ns sid _ =>
        (∃ rest, rq_path r = namespaces_marker ++ chars ns ++ slash :: rest ∧ slash ∉ chars ns) ∨
        (∃ rest, rq_path r = streams_marker ++ rest ∧ ns = default "default" (rq_query r "namespace"))
    | CAggregate nss _ => rq_path r = aggregate_path ∧ rq_query r "namespaces" = Some (str nss)
    | CQuery _ => rq_path r = query_path
    | CSocket _ _ | COther => True
    end
}.

Definition truthy (s : option string) : bool :=
  match s with Some s => bool_decide (s ≠ "") | None => false end.

Section access.
Context (AUTH_TOKEN : option string) (NAMESPACE_TOKENS : list (string * list string)).

Definition auth_enabled : bool := truthy AUTH_TOKEN || bool_decide (NAMESPACE_TOKENS ≠ []).

(** [bool(AUTH_TOKEN and hmac.compare_digest(...))] *)
Definition is_admin (token : string) : bool := truthy AUTH_TOKEN && bool_decide (AUTH_TOKEN = Some token).

(** The first entry of the token table with this token. *)
Definition allowed_namespaces (token : string) : option (list string) := od_get NAMESPACE_TOKENS token.

(** The namespaces a path asks for. *)
Definition requested (r : request) : list string :=
  if decide (rq_path r = aggregate_path) then names_of (chars (default "" (rq_query r "namespaces")))
  else if starts_with namespaces_marker (rq_path r)
  then [str (split_once slash (drop (length namespaces_marker) (rq_path r))).1]
  else if starts_with streams_marker (rq_path r) then ["default"]
  else [].

(** [require_auth]: the status of a refusal, or what the middleware leaves in
    [request.state] ([None] when it does not check). *)
Definition require_auth (r : request) : Z + option (bool * option (list string)) :=
  if auth_enabled && starts_with (chars "/v1/") (rq_path r) then
    match rq_token r with
    | Some token =>
        if bool_decide (token = "") then inl 401
        else
          let admin := is_admin token in
          let allowed := allowed_namespaces token in
          if negb admin && bool_decide (allowed = None) then inl 401
          else
            let ns := requested r in
            if negb admin && bool_decide (ns ≠ []) &&
               negb (forallb (λ n, bool_decide (n ∈ default [] allowed)) ns)
            then inl 403
            else inr (Some (admin, allowed))
    | None => inl 401
    end
  else inr None.

(** ** What the handlers access *)

(** The streams [FROM] names in a query ([query_stream]). *)
Definition query_target (query : text) : res (string * string) :=
  let? q := parser_init query in
  let? plan := parse q in
  let source := strip_chars (pl_from plan) in
  let source :=
    if match head source, last source with
       | Some a, Some b => is_quote a && bool_decide (a = b)
       | _, _ => false
       end
    then slice source 1 (length source - 1) else source in
  let '(namespace, stream_id) :=
    match split_once slash source with
    | (ns, Some sid) => (ns, sid)
    | (_, None) => (chars "default", source)
    end in
  if bool_decide (namespace = []) || bool_decide (stream_id = [])
  then Raise (ValueError "FROM must identify [namespace/]stream")
  else Ok (str namespace, str stream_id).

Inductive outcome :=
| Denied (status : Z)
| Granted (streams : list (string * string)).

(** [next(...)] over the tokens, for a socket. *)
Definition socket_admits (r : request) (namespace : string) : bool :=
  if auth_enabled then
    match (if truthy (rq_token r) then rq_token r else rq_cookie r) with
    | Some token =>
        bool_decide (token ≠ "") &&
        (is_admin token ||
         match allowed_namespaces token with
         | Some l => bool_decide (namespace ∈ l)
         | None => false
         end)
    | None => false
    end
  else true.

(** [query_stream], after the middleware left [state]. *)
Definition query_stream (state : option (bool * option (list string))) (query : text) : outcome :=
  match query_target query with
  | Raise _ => Denied 422
  | Ok (ns, sid) =>
      let admin := match state with Some (a, _) => a | None => negb auth_enabled end in
      let allowed := match state with Some (_, l) => l | None => None end in
      if negb admin && negb (bool_decide (ns ∈ default [] allowed)) then Denied 403
      else Granted [(ns, sid)]
  end.

(** [aggregate_streams]: the names without repetitions. *)
Definition aggregate_streams (namespaces : text) (stream_id : string) : outcome :=
  match od_keys (foldl (λ d n, od_set n tt d) [] (names_of namespaces)) with
  | [] => Denied 400
  | l => Granted (map (λ ns, (ns, stream_id)) l)
  end.

(** The registry keys a handler reads or writes when it is called. *)
Definition accesses (r : request) (state : option (bool * option (list string))) (c : call) : outcome :=
  match c with
  | CStream ns sid baselines => Granted ((ns, sid) :: map (pair ns) baselines)
  | CAggregate nss sid => aggregate_streams nss sid
  | CQuery query => query_stream state query
  | CSocket ns sid => if socket_admits r ns then Granted [(ns, sid)] else Denied 1008
  | COther => Granted []
  end.

Context `{Router}.

(** A request through the middleware, which leaves sockets alone. *)
Definition serve (r : request) : outcome :=
  match route r with
  | CSocket _ _ as c => accesses r None c
  | c =>
      match require_auth r with
      | inl status => Denied status
      | inr state => accesses r state c
      end
  end.

(** ** The policy *)

(** What a token gives: nothing, everything, or some namespaces. *)
Inductive rights := RNone | RAdmin | RTenant (namespaces : list string).

Definition rights_of (token : option string) : rights :=
  match token with
  | Some token =>
      if bool_decide (token = "") then RNone
      else if is_admin token then RAdmin
      else match allowed_namespaces token with Some l => RTenant l | None => RNone end
  | None => RNone
  end.

(** Sockets may carry the token in a cookie. *)
Definition token_of (r : request) (c : call) : option string :=
  match c with
  | CSocket _ _ => if truthy (rq_token r) then rq_token r else rq_cookie r
  | _ => rq_token r
  end.

Definition may (rt : rights) (ns : string) : bool :=
  match rt with RNone => false | RAdmin => true | RTenant l => bool_decide (ns ∈ l) end.

(** The documented policy, by the namespaces that a call really accesses. *)
Definition policy (rt : rights) (c : call) : outcome :=
  match c, rt with
  | CSocket ns sid, _ => if may rt ns then Granted [(ns, sid)] else Denied 1008
  | _, RNone => Denied 401
  | CStream ns sid baselines, _ =>
      if may rt ns then Granted ((ns, sid) :: map (pair ns) baselines) else Denied 403
  | CAggregate nss sid, _ =>
      if forallb (may rt) (names_of nss) then aggregate_streams nss sid else Denied 403
  | CQuery query, _ =>
      match query_target query with
      | Raise _ => Denied 422
      | Ok (ns, sid) => if may rt ns then Granted [(ns, sid)] else Denied 403
      end
  | COther, _ => Granted []
  end.

(** An alias route: the namespace is not in the path. *)
Definition aliased (r : request) : Prop := ∃ rest, rq_path r = streams_marker ++ rest.

Lemma chars_str l : chars (str l) = l.
Proof using Type. apply list_ascii_of_string_of_list_ascii. Qed.
Lemma str_chars s : str (chars s) = s.
Proof using Type. apply string_of_list_ascii_of_string. Qed.

Lemma split_once_at c w l : c ∉ w → split_once c (w ++ c :: l) = (w, Some l).
Proof using Type.
  induction w as [|a w IH]; intros Hc; simpl; [by rewrite decide_True|].
  apply not_elem_of_cons in Hc as [Hne Hc]. rewrite decide_False by congruence. by rewrite IH.
Qed.

Lemma starts_with_prefix p l : starts_with p (p ++ l) = true.
Proof using Type. induction p as [|a p IH]; [done|]. simpl. by rewrite bool_decide_eq_true_2. Qed.

(** The middleware on a path below [/v1/]. *)
Lemma require_auth_rights r rest :
  auth_enabled = true → rq_path r = chars "/v1/" ++ rest →
  require_auth r =
  match rights_of (rq_token r), rq_token r with
  | RNone, _ | _, None => inl 401
  | rt, Some token =>
      if forallb (may rt) (requested r) then inr (Some (is_admin token, allowed_namespaces token))
      else inl 403
  end.
Proof using Type.
  intros He Hp. unfold require_auth, rights_of. rewrite He, Hp, starts_with_prefix. cbn [andb].
  destruct (rq_token r) as [token|]; [|done]. case_bool_decide; [done|].
  destruct (is_admin token); cbn [negb andb].
  - assert (forallb (may RAdmin) (requested r) = true) as -> by (apply forallb_forall; done). done.
  - destruct (allowed_namespaces token) as [l|]; [|done]. rewrite bool_decide_eq_false_2 by done.
    cbn [default from_option]. change (may (RTenant l)) with (λ n, bool_decide (n ∈ l)).
    destruct (requested r) as [|n ns]; [done|]. rewrite bool_decide_eq_true_2 by done. cbn [andb].
    by destruct (forallb _ _).
Qed.

(** What the path asks for is what the handler accesses, alias routes with a
    [namespace] parameter apart. *)
Lemma requested_stream r ns sid baselines :
  route r = CStream ns sid baselines →
  (aliased r → ns = "default") →
  requested r = [ns] ∧ ∃ rest, rq_path r = chars "/v1/" ++ rest.
Proof using Type.
  intros Hr Ha. pose proof (route_bound r) as Hb. rewrite Hr in Hb. unfold requested.
  destruct Hb as [(rest & Hp & Hs)|(rest & Hp & _)].
  - split; [|eexists; rewrite Hp; reflexivity]. rewrite decide_False.
    + rewrite Hp, starts_with_prefix, drop_app_length, split_once_at by done. cbn [fst]. by rewrite str_chars.
    + rewrite Hp. change aggregate_path with (namespaces_marker ++ chars "aggregate").
      intros E%app_inv_head. apply (f_equal (λ l, bool_decide (slash ∈ l))) in E.
      rewrite bool_decide_eq_true_2 in E by (apply elem_of_app; right; by left). discriminate.
  - rewrite Ha by by eexists. split; [|eexists; rewrite Hp; reflexivity]. rewrite Hp.
    rewrite decide_False by discriminate. rewrite starts_with_prefix.
    change (starts_with namespaces_marker (streams_marker ++ rest)) with false. done.
Qed.

Lemma requested_aggregate r nss sid :
  route r = CAggregate nss sid → requested r = names_of nss ∧ ∃ rest, rq_path r = chars "/v1/" ++ rest.
Proof using Type.
  intros Hr. pose proof (route_bound r) as Hb. rewrite Hr in Hb. destruct Hb as [Hp Hq].
  unfold requested. rewrite Hp, decide_True, Hq by done. cbn. split; [by rewrite chars_str|eexists; reflexivity].
Qed.

Lemma requested_query r q :
  route r = CQuery q → requested r = [] ∧ ∃ rest, rq_path r = chars "/v1/" ++ rest.
Proof using Type.
  intros Hr. pose proof (route_bound r) as Hb. rewrite Hr in Hb. unfold requested. rewrite Hb.
  split; [done|eexists; reflexivity].
Qed.

Lemma serve_policy r :
  auth_enabled = true → route r ≠ COther →
  (aliased r → ∀ ns sid baselines, route r = CStream ns sid baselines → ns = "default") →
  serve r = policy (rights_of (token_of r (route r))) (route r).
Proof using Type.
  intros He Ho Ha. unfold serve. destruct (route r) as [ns sid bs|nss sid|q|ns sid|] eqn:Hr; [| | | |done].
  - destruct (requested_stream r ns sid bs Hr) as [Hq [rest Hp]]; [by intros ?; eapply Ha|].
    rewrite (require_auth_rights r rest He Hp), Hq. cbn [token_of policy].
    unfold rights_of. destruct (rq_token r) as [t|]; [|done]. case_bool_decide; [done|].
    destruct (is_admin t); [done|]. destruct (allowed_namespaces t) as [l|]; [|done].
    cbn [forallb may]. by destruct (bool_decide (ns ∈ l)).
  - destruct (requested_aggregate r nss sid Hr) as [Hq [rest Hp]].
    rewrite (require_auth_rights r rest He Hp), Hq. cbn [token_of policy].
    unfold rights_of. destruct (rq_token r) as [t|]; [|done]. case_bool_decide; [done|].
    destruct (is_admin t); [by destruct (forallb _ _)|]. destruct (allowed_namespaces t) as [l|]; [|done].
    by destruct (forallb _ _).
  - destruct (requested_query r q Hr) as [Hq [rest Hp]].
    rewrite (require_auth_rights r rest He Hp), Hq. cbn [token_of policy forallb].
    unfold rights_of. destruct (rq_token r) as [t|]; [|done]. case_bool_decide; [done|].
    destruct (is_admin t) eqn:Ea.
    + cbn [accesses]. unfold query_stream. by destruct (query_target q) as [[ns sid]|].
    + destruct (allowed_namespaces t) as [l|] eqn:El; [|done]. cbn [accesses]. unfold query_stream.
      destruct (query_target q) as [[ns sid]|]; [|done]. cbn [negb andb default from_option may id].
      by destruct (bool_decide (ns ∈ l)).
  - cbn [accesses policy token_of]. unfold socket_admits, rights_of. rewrite He.
    destruct (if truthy (rq_token r) then rq_token r else rq_cookie r) as [t|]; [|done].
    destruct (decide (t = "")) as [->|Hne]; [done|]. rewrite bool_decide_eq_true_2, bool_decide_eq_false_2 by done.
    cbn [andb]. destruct (is_admin t); [done|]. by destruct (allowed_namespaces t).
Qed.

(** The policy grants only what the token may access. *)
Lemma policy_sound rt c keys :
  policy rt c = Granted keys → ∀ k, k ∈ keys → may rt k.1 = true.
Proof using Type.
  destruct c as [ns sid bs|nss sid|q|ns sid|]; intros Hg k Hk.
  - assert (may rt ns = true ∧ keys = (ns, sid) :: map (pair ns) bs) as [Hm ->].
    { destruct rt; cbn in *; [done|by simplify_eq|]. case_bool_decide; [by simplify_eq|done]. }
    apply elem_of_cons in Hk as [->|Hk]; [done|]. by apply list_elem_of_fmap in Hk as (b & -> & _).
  - assert (forallb (may rt) (names_of nss) = true ∧
      keys = map (λ ns, (ns, sid)) (od_keys (foldl (λ d n, od_set n tt d) [] (names_of nss)))) as [Hf ->].
    { cbn [policy] in Hg. unfold aggregate_streams in Hg.
      destruct (forallb (may rt) (names_of nss)) eqn:Ef; [|by destruct rt].
      destruct (od_keys _) as [|n ns]; destruct rt; try done; by injection Hg as <-. }
    apply list_elem_of_fmap in Hk as (n & -> & Hn). rewrite forallb_forall in Hf. apply Hf, list_elem_of_In.
    revert Hn. generalize (names_of nss). intros l. cut (∀ d, n ∈ od_keys (foldl (λ d n, od_set n tt d) d l) →
      n ∈ l ∨ n ∈ od_keys d); [intros Hc Hn; by destruct (Hc _ Hn) as [?|?%elem_of_nil]|].
    induction l as [|m l IH]; intros d; [by right|]. simpl. intros [Hl|Hd]%IH; [left; by right|].
    rewrite elem_of_od_keys_set in Hd. destruct Hd as [->|Hd]; [left; by left|by right].
  - assert (∃ ns sid, may rt ns = true ∧ keys = [(ns, sid)]) as (ns & sid & Hm & ->).
    { cbn [policy] in Hg. destruct (query_target q) as [[ns sid]|]; [|by destruct rt].
      exists ns, sid. destruct (may rt ns); [|by destruct rt]. split; [done|]. destruct rt; try done; by injection Hg as <-. }
    by apply list_elem_of_singleton in Hk as ->.
  - cbn in Hg. destruct (may rt ns) eqn:E; [|done]. simplify_eq. by apply list_elem_of_singleton in Hk as ->.
  - destruct rt; cbn in Hg; simplify_eq; by apply elem_of_nil in Hk.
Qed.
End access.

(** ** The body limit ([LimitUploadSize]) *)

(** [int(s)] of ASCII text: white space around, a sign, digits with single
    underscores between them, at most 4300 digits. *)
Fixpoint int_digits (l : text) (acc : Z) (count : nat) (after_digit : bool) : option Z :=
  match l with
  | [] => if after_digit && (count <=? 4300)%nat then Some acc else None
  | a :: l' =>
      let n := Z.of_nat (nat_of_ascii a) in
      if (48 <=? n) && (n <=? 57) then int_digits l' (acc * 10 + (n - 48)) (S count) true
      else if (n =? 95) && after_digit
           then match l' with [] => None | _ => int_digits l' acc count false end
      else None
  end.
Definition py_int_text (s : text) : option Z :=
  match strip_chars s with
  | "+"%char :: l => int_digits l 0 0 false
  | "-"%char :: l => Z.opp <$> int_digits l 0 0 false
  | l => int_digits l 0 0 false
  end.

(** What the application's [receive] gives it: a part of the body, another
    message, or the exception [_RequestBodyTooLarge]. *)
Inductive receipt := Body (b : text) | OtherMessage | TooLarge.
Inductive event := Got (x : receipt) | Sent (message : string).

(** An application decides its next step by all that has happened to it; it
    may catch the exception of [receive] or let it through. *)
Inductive step := Receive | Send (message : string) | Return | Throw (too_large : bool).
Definition application := list event → step.

(** How far an application got: it returned ([None]) or threw, or it waits for
    a message that does not come, or the fuel is out. *)
Inductive ending :=
| Ended (thrown : option bool) (history : list event)
| Waiting (history : list event).

Definition history_of (e : ending) : list event :=
  match e with Ended _ h | Waiting h => h end.

Section body_limit.
Context (MAX_MESH_PAYLOAD_BYTES MAX_REQUEST_BYTES : Z).

Record scope := mk_scope {
  sc_http : bool;
  sc_method : string;
  sc_path : text;
  sc_content_length : option text
}.

Definition limited (sc : scope) : bool :=
  sc_http sc && bool_decide (sc_method sc ∈ ["POST"; "PUT"; "PATCH"]).

Definition request_limit (sc : scope) : Z :=
  if bool_decide (sc_path sc ∈ [chars "/mesh/gossip/digest"; chars "/mesh/gossip/sync"])
  then MAX_MESH_PAYLOAD_BYTES else MAX_REQUEST_BYTES.

(** The refusal by the [Content-Length] header. *)
Definition declared (sc : scope) : option Z :=
  match sc_content_length sc with
  | None => None
  | Some raw =>
      match py_int_text raw with
      | None => Some 400
      | Some n => if n <? 0 then Some 400 else if request_limit sc <? n then Some 413 else None
      end
  end.

(** The application over [limited_receive] and [pending_send]; [None] in the
    inbox is a message other than [http.request].  Without a limit, it is the
    application over the original [receive]. *)
Fixpoint drive (app : application) (limit : option Z) (fuel : nat) (inbox : list (option text))
    (received : Z) (history : list event) : ending :=
  match fuel with
  | O => Waiting history
  | S fuel =>
      match app history with
      | Receive =>
          match inbox with
          | [] => Waiting history
          | None :: inbox => drive app limit fuel inbox received (history ++ [Got OtherMessage])
          | Some b :: inbox =>
              let received := received + Z.of_nat (length b) in
              let over := match limit with Some n => n <? received | None => false end in
              drive app limit fuel inbox received (history ++ [Got (if over then TooLarge else Body b)])
          end
      | Send message => drive app limit fuel inbox received (history ++ [Sent message])
      | Return => Ended None history
      | Throw x => Ended (Some x) history
      end
  end.

Definition messages (h : list event) : list string :=
  omap (λ e, match e with Sent m => Some m | _ => None end) h.
Definition over_limit (h : list event) : bool :=
  existsb (λ e, match e with Got TooLarge => true | _ => false end) h.

(** What goes to the client: one refusal, the application's messages, or
    nothing after an exception of its own or while it waits. *)
Inductive response := Refused (status : Z) | Responded (l : list string) | NoResponse.

Definition limit_upload (app : application) (sc : scope) (inbox : list (option text)) (fuel : nat)
    : response :=
  if limited sc then
    match declared sc with
    | Some status => Refused status
    | None =>
        match drive app (Some (request_limit sc)) fuel inbox 0 [] with
        | Ended (Some false) _ | Waiting _ => NoResponse
        | Ended thrown h =>
            if bool_decide (thrown = Some true) || over_limit h then Refused 413
            else Responded (messages h)
        end
    end
  else
    match drive app None fuel inbox 0 [] with
    | Ended None h => Responded (messages h)
    | Ended (Some _) h | Waiting h => Responded (messages h)
    end.

(** The body bytes an application was given, and those a client sends. *)
Definition delivered (h : list event) : Z :=
  sum_by (λ e, match e with Got (Body b) => Z.of_nat (length b) | _ => 0 end) h.
Definition body_size (inbox : list (option text)) : Z :=
  sum_by (λ m : option text, match m with Some b => Z.of_nat (length b) | None => 0 end) inbox.
(** The messages an application has taken. *)
Definition is_got (e : event) : bool := match e with Got _ => true | Sent _ => false end.
Definition taken (h : list event) : nat := length (filter (λ e, is_got e = true) h).

Lemma body_size_cons m inbox :
  body_size (m :: inbox) = match m with Some b => Z.of_nat (length b) | None => 0 end + body_size inbox.
Proof using Type. unfold body_size. by rewrite sum_by_cons. Qed.

Lemma body_size_nonneg inbox : 0 ≤ body_size inbox.
Proof using Type.
  induction inbox as [|m inbox IH]; [done|]. rewrite body_size_cons. destruct m; lia.
Qed.

(** The state of the wrapper after the messages [done]. *)
Definition wrapped (limit : Z) (done : list (option text)) (received : Z) (h : list event) : Prop :=
  received = body_size done ∧ taken h = length done ∧ over_limit h = (limit <? received) ∧
  delivered h ≤ limit ∧ delivered h ≤ received.

Lemma drive_wrapped app limit fuel done inbox received h :
  0 ≤ limit → wrapped limit done received h →
  let h' := history_of (drive app (Some limit) fuel inbox received h) in
  delivered h' ≤ limit ∧ over_limit h' = (limit <? body_size (take (taken h') (done ++ inbox))).
Proof using Type.
  intros Hlim. revert done inbox received h.
  assert (∀ done inbox received h, wrapped limit done received h →
    delivered h ≤ limit ∧ over_limit h = (limit <? body_size (take (taken h) (done ++ inbox)))) as Hend.
  { intros done inbox received h (-> & Ht & Ho & Hd & _). rewrite Ht, take_app_length. by split. }
  assert (∀ h e, taken (h ++ [e]) = (taken h + if is_got e then 1 else 0)%nat) as Htaken.
  { intros h e. unfold taken. rewrite filter_app, length_app, filter_cons.
    by destruct (is_got e). }
  assert (∀ h e, over_limit (h ++ [e]) = over_limit h || match e with Got TooLarge => true | _ => false end) as Hover.
  { intros h e. unfold over_limit. rewrite existsb_app. cbn. by rewrite orb_false_r. }
  assert (∀ h e, delivered (h ++ [e]) = delivered h + match e with Got (Body b) => Z.of_nat (length b) | _ => 0 end) as Hdel.
  { intros h e. unfold delivered. rewrite sum_by_app, sum_by_cons. cbn. lia. }
  induction fuel as [|fuel IH]; intros done inbox received h W; cbn [drive history_of]; [by eapply Hend|].
  destruct (app h); [|..|by eapply Hend|by eapply Hend].
  - destruct inbox as [|m inbox]; [by eapply Hend|]. destruct W as (-> & Ht & Ho & Hd & Hr).
    assert (∀ m x, wrapped limit (done ++ [m]) (body_size done + match m with Some b => Z.of_nat (length b) | None => 0 end)
        (h ++ [Got x]) →
      let h' := history_of (drive app (Some limit) fuel inbox
        (body_size done + match m with Some b => Z.of_nat (length b) | None => 0 end) (h ++ [Got x])) in
      delivered h' ≤ limit ∧ over_limit h' = (limit <? body_size (take (taken h') (done ++ m :: inbox)))) as Hstep.
    { intros m' x W. specialize (IH (done ++ [m']) inbox _ _ W). by rewrite <- app_assoc in IH. }
    assert (∀ m, body_size (done ++ [m]) = body_size done + match m with Some b => Z.of_nat (length b) | None => 0 end) as Hb.
    { intros m'. unfold body_size. rewrite sum_by_app, sum_by_cons. cbn. lia. }
    destruct m as [b|].
    + apply (Hstep (Some b)). split_and!.
      * by rewrite Hb.
      * rewrite Htaken, Ht, length_app. done.
      * rewrite Hover, Ho. destruct (Z.ltb_spec limit (body_size done + Z.of_nat (length b))); [apply orb_true_r|].
        rewrite orb_false_r. apply Z.ltb_ge. lia.
      * rewrite Hdel. destruct (Z.ltb_spec limit (body_size done + Z.of_nat (length b))); lia.
      * rewrite Hdel. destruct (Z.ltb_spec limit (body_size done + Z.of_nat (length b))); lia.
    + specialize (Hstep None OtherMessage). rewrite Z.add_0_r in Hstep. apply Hstep. split_and!.
      * rewrite Hb. lia.
      * rewrite Htaken, Ht, length_app. done.
      * by rewrite Hover, orb_false_r.
      * rewrite Hdel. lia.
      * rewrite Hdel. lia.
  - apply IH. destruct W as (-> & Ht & Ho & Hd & Hr). split_and!; try done.
    + rewrite Htaken, Ht. cbn. lia.
    + by rewrite Hover, orb_false_r.
    + rewrite Hdel. lia.
    + rewrite Hdel. lia.
Qed.

(** Within the limit the wrapper cannot be noticed. *)
Lemma drive_within app limit fuel inbox received h :
  received + body_size inbox ≤ limit →
  drive app (Some limit) fuel inbox received h = drive app None fuel inbox received h.
Proof using Type.
  revert inbox received h. induction fuel as [|fuel IH]; intros inbox received h Hb; [done|]. cbn [drive].
  destruct (app h); [|by apply IH|done|done]. destruct inbox as [|m inbox]; [done|].
  rewrite body_size_cons in Hb. pose proof (body_size_nonneg inbox). destruct m as [b|].
  - rewrite (proj2 (Z.ltb_ge _ _)) by lia. apply IH. lia.
  - apply IH. lia.
Qed.
End body_limit.

(** ** Ingestion ([ingest_events]) *)

(** [EventBatch], with absent lists as empty ones. *)
Record batch := mk_batch {
  b_latencies : list float;
  b_uniques : list string;
  b_events : list (string * Z)
}.

Definition valid_name (s : string) : bool := (1 <=? py_len s) && (py_len s <=? 255).
Definition valid_event_count (n : Z) : bool := (0 <? n) && (n <? 9223372036854775808).

(** The validation of the model: its fields, [validate_finite_latencies] and
    [check_batch_size]. *)
Definition valid_batch (MAX_BATCH_SIZE : Z) (b : batch) : bool :=
  forallb isfinite (b_latencies b) && forallb valid_name (b_uniques b) &&
  forallb (λ e, valid_name e.1 && valid_event_count e.2) (b_events b) &&
  (Z.of_nat (length (b_latencies b)) + Z.of_nat (length (b_uniques b)) +
   Z.of_nat (length (b_events b)) <=? MAX_BATCH_SIZE).

Definition new_events (b : batch) : Z :=
  Z.of_nat (length (b_latencies b)) + sum_by snd (b_events b).

Definition batch_calls (b : batch) : list slog_call :=
  match b_latencies b with [] => [] | l => [SBatch l] end ++
  map (λ u, SUnique (KStr u)) (b_uniques b) ++
  map (λ e, SEvent (KStr e.1) e.2) (b_events b).

Inductive reply := Rejected (status : Z) | Ran (r : res unit).

(** The handler on the log [s] that the registry has for the stream, a new one
    if there was none. *)
Definition ingest_events `{Libm} (namespace stream_id : string) (b : batch) (s : slog) : reply * slog :=
  if 255 <? py_len stream_id then (Rejected 422, s)
  else if 255 <? py_len namespace then (Rejected 422, s)
  else if 9223372036854775807 <? sl_total s + new_events b then (Rejected 422, s)
  else let '(r, s) := slog_run (batch_calls b) s in (Ran r, s).

Section ingest.
Context `{Libm}.

Lemma dict_sum_nonneg d : store_nonneg d → 0 ≤ dict_sum d.
Proof using Type.
  intros Hd. unfold dict_sum. apply sum_by_nonneg. intros [k v] Hk. apply elem_of_map_to_list in Hk.
  specialize (Hd k). unfold get0 in Hd. by rewrite Hk in Hd.
Qed.

Lemma dds_wf_count d : dds_wf d → 0 ≤ dds_count d.
Proof using Type.
  intros ((H1 & H2 & H3 & _) & _ & ->). pose proof (dict_sum_nonneg _ H1). pose proof (dict_sum_nonneg _ H2). lia.
Qed.

Lemma uniques_run us cs s :
  slog_wf s →
  ∃ s', slog_wf s' ∧ sl_total s' = sl_total s ∧
    slog_run (map (λ u, SUnique (KStr u)) us ++ cs) s = slog_run cs s'.
Proof using Type.
  revert s. induction us as [|u us IH]; intros s W; [by exists s|].
  destruct (slog_add_unique_run (KStr u) s W) as [(x & _ & E)|(e & e' & Ex & _)]; [|done].
  destruct (IH (unique_added x s)) as (s' & W' & Et & Er); [by apply unique_added_wf|].
  exists s'. split_and!; [done|done|]. rewrite <- Er. unfold slog_run. cbn [map app mfor slog_do].
  unfold mbind. by rewrite E.
Qed.

Lemma events_run es s :
  slog_wf s → Forall (λ e, 0 < e.2) es → sl_total s + sum_by snd es ≤ MAX_INT64 →
  ∃ s', sl_total s' = sl_total s + sum_by snd es ∧
    slog_run (map (λ e, SEvent (KStr e.1) e.2) es) s = (Ok tt, s').
Proof using Type.
  revert s. induction es as [|[n c] es IH]; intros s W Hp Ht.
  - exists s. split; [cbn; lia|done].
  - apply Forall_cons in Hp as [Hc Hp]. rewrite sum_by_cons in Ht. cbn [snd] in Hc, Ht.
    assert (0 ≤ sum_by snd es).
    { apply sum_by_nonneg. intros e He. rewrite Forall_forall in Hp. specialize (Hp e He). lia. }
    pose proof (swf_total s W). pose proof (dds_wf_count _ (swf_latency s W)).
    pose proof (wf_total _ (swf_events s W)).
    destruct (slog_add_event_run (KStr n) c s W) as [[Ho E]|[Hn _]].
    + destruct (IH (event_added (KStr n) c s)) as (s' & Es' & Er).
      * by apply event_added_wf.
      * done.
      * cbn. lia.
      * exists s'. split; [rewrite sum_by_cons; cbn in *; lia|].
        unfold slog_run in *. cbn [map mfor slog_do fst snd]. unfold mbind. by rewrite E.
    + destruct Hn. unfold event_ok. unfold MAX_INT64, MAX_UINT64 in *.
      split_and!; [lia|lia|done|lia|lia].
Qed.

Lemma kept_finite l : forallb isfinite l = true → length (kept (ones l)) = length l.
Proof using Type.
  intros Hf. rewrite kept_length. f_equal. induction l as [|x l IH]; [done|].
  cbn in Hf. apply andb_prop in Hf as [Hx Hl]. rewrite filter_cons, decide_True by done. by rewrite IH.
Qed.

(** A batch that passed the preflight: the calls after the latencies cannot
    fail, and the latencies come first. *)
Lemma batch_run max b s :
  slog_wf s → valid_batch max b = true → sl_total s + new_events b ≤ MAX_INT64 →
  let '(r, s') := slog_run (batch_calls b) s in
  if is_ok r then sl_total s' = sl_total s + new_events b else s' = s ∧ b_latencies b ≠ [].
Proof using Type.
  intros W Hb Ht. unfold valid_batch in Hb. apply andb_prop in Hb as [Hb _].
  apply andb_prop in Hb as [Hb Hev]. apply andb_prop in Hb as [Hlat Huniq].
  assert (Forall (λ e, 0 < e.2) (b_events b)) as Hp.
  { apply Forall_forall. intros e He. rewrite forallb_forall in Hev. apply list_elem_of_In in He. apply Hev in He.
    apply andb_prop in He as [_ He]. apply andb_prop in He as [He%Z.ltb_lt _]. done. }
  assert (∀ s1, slog_wf s1 → sl_total s1 + sum_by snd (b_events b) ≤ MAX_INT64 →
    ∃ s', sl_total s' = sl_total s1 + sum_by snd (b_events b) ∧
      slog_run (map (λ u, SUnique (KStr u)) (b_uniques b) ++ map (λ e, SEvent (KStr e.1) e.2) (b_events b)) s1 =
      (Ok tt, s')) as Hrest.
  { intros s1 W1 Ht1. destruct (uniques_run (b_uniques b) (map (λ e, SEvent (KStr e.1) e.2) (b_events b)) s1 W1)
      as (s2 & W2 & Et2 & ->). rewrite <- Et2 in Ht1 |- *. by apply events_run. }
  unfold batch_calls, new_events in *. destruct (b_latencies b) as [|x l] eqn:El.
  - destruct (Hrest s W) as (s' & Et & Er); [cbn in Ht; lia|]. cbn [app]. rewrite Er. cbn in *. lia.
  - pose proof (kept_finite _ Hlat) as Hk. unfold slog_run. cbn [app mfor slog_do]. unfold mbind.
    destruct (slog_add_batch_run (x :: l) s W) as [[Ho ->]|[_ [e ->]]]; [|done].
    destruct (Hrest (latency_added (x :: l) s)) as (s' & Et & Er).
    + by apply latency_added_wf.
    + cbn [sl_total latency_added set_total]. rewrite Hk. lia.
    + unfold slog_run in Er. rewrite Er. cbn [is_ok]. rewrite Et. cbn [sl_total latency_added set_total].
      rewrite Hk. lia.
Qed.
End ingest.

(** ** Properties *)

(** C25. Namespace isolation.  With authorisation enabled, a request to any
    endpoint on streams, the aggregate, a query or a socket is answered as the
    documented policy says for the namespaces that its handler really
    accesses: 401 without a known token, everything for the administrator's,
    and for another exactly the streams of its own namespaces, the namespaces
    being those of the path, of the list, or of the FROM clause.  The
    exception are the alias routes: the namespace must not come from a query
    parameter there. *)
Theorem namespace_isolation `{Router} AUTH_TOKEN NAMESPACE_TOKENS r :
  let rt := rights_of AUTH_TOKEN NAMESPACE_TOKENS (token_of r (route r)) in
  auth_enabled AUTH_TOKEN NAMESPACE_TOKENS = true →
  route r ≠ COther →
  (aliased r → ∀ ns sid baselines, route r = CStream ns sid baselines → ns = "default") →
  serve AUTH_TOKEN NAMESPACE_TOKENS r = policy rt (route r) ∧
  ∀ streams, serve AUTH_TOKEN NAMESPACE_TOKENS r = Granted streams →
    ∀ k, k ∈ streams → may rt k.1 = true.
Proof.
  intros rt He Ho Ha. pose proof (serve_policy AUTH_TOKEN NAMESPACE_TOKENS r He Ho Ha) as E.
  split; [done|]. intros streams Hs. rewrite E in Hs. by eapply policy_sound.
Qed.

(** A router for the metrics of a stream, the aggregate and queries. *)
Definition demo_route (r : request) : call :=
  if decide (rq_path r = aggregate_path) then
    match rq_query r "namespaces" with Some l => CAggregate (chars l) "s" | None => COther end
  else if decide (rq_path r = query_path) then CQuery (chars (default "" (rq_query r "q")))
  else if starts_with streams_marker (rq_path r) then
    CStream (default "default" (rq_query r "namespace")) (str (drop (length streams_marker) (rq_path r))) []
  else if starts_with namespaces_marker (rq_path r) then
    match split_once slash (drop (length namespaces_marker) (rq_path r)) with
    | (ns, Some rest) => CStream (str ns) (str rest) []
    | _ => COther
    end
  else COther.

Lemma starts_with_drop p l : starts_with p l = true → l = p ++ drop (length p) l.
Proof.
  revert l. induction p as [|a p IH]; intros [|b l]; try done. simpl. intros Hp.
  apply andb_prop in Hp as [->%bool_decide_eq_true Hp]. f_equal. by apply IH.
Qed.

Lemma split_once_spec c l w r : split_once c l = (w, Some r) → l = w ++ c :: r ∧ c ∉ w.
Proof.
  revert w. induction l as [|a l IH]; intros w; [done|]. simpl. case_decide.
  - intros [= <- <-]. subst. split; [done|]. apply not_elem_of_nil.
  - destruct (split_once c l) as [w' r']. intros [= <- ->]. destruct (IH w' eq_refl) as [-> Hc].
    split; [done|]. apply not_elem_of_cons. by split.
Qed.

Lemma demo_route_bound r :
  match demo_route r with
  | CStream ns sid _ =>
      (∃ rest, rq_path r = namespaces_marker ++ chars ns ++ slash :: rest ∧ slash ∉ chars ns) ∨
      (∃ rest, rq_path r = streams_marker ++ rest ∧ ns = default "default" (rq_query r "namespace"))
  | CAggregate nss _ => rq_path r = aggregate_path ∧ rq_query r "namespaces" = Some (str nss)
  | CQuery _ => rq_path r = query_path
  | CSocket _ _ | COther => True
  end.
Proof.
  unfold demo_route. case_decide as E1.
  { destruct (rq_query r "namespaces") eqn:E; [|done]. split; [done|]. by rewrite str_chars. }
  case_decide as E2; [done|].
  destruct (starts_with streams_marker (rq_path r)) eqn:E3.
  { right. eexists. split; [by apply starts_with_drop|done]. }
  destruct (starts_with namespaces_marker (rq_path r)) eqn:E4; [|done].
  destruct (split_once _ _) as [ns [rest|]] eqn:E5; [|done]. apply split_once_spec in E5 as [E5 Hs].
  left. rewrite chars_str. exists rest. split; [|done]. by rewrite <- E5, <- starts_with_drop.
Qed.

#[local] Instance demo_router : Router := {| route := demo_route; route_bound := demo_route_bound |}.

Definition demo_tokens : list (string * list string) := [("ta", ["a"; "default"]); ("tb", ["b"])].
Definition demo_request (path : string) (query : list (string * string)) (token : string) : request :=
  mk_request (chars path) (od_get query) (Some token) None.

Lemma namespace_isolation_witness :
  (let r := demo_request "/v1/namespaces/b/streams/s/metrics" [] "ta" in
   serve None demo_tokens r = Denied 403) ∧
  (let r := demo_request "/v1/query" [("q", "SELECT p99(latency) AS x FROM a/s")] "ta" in
   serve None demo_tokens r = Granted [("a", "s")]) ∧
  (let r := demo_request "/v1/namespaces/aggregate" [("namespaces", "a, b,")] "ta" in
   serve None demo_tokens r = Denied 403).
Proof.
  split_and!; intros r; (etransitivity;
    [apply (namespace_isolation None demo_tokens r)|]); try reflexivity; try discriminate;
    try (intros [rest Hr]; discriminate Hr); vm_compute; reflexivity.
Defined.

(** The alias routes take the namespace from the query string, which the
    middleware does not look at: a token for the default namespace reads every
    other one. *)
Lemma alias_route_escapes :
  let r := demo_request "/v1/streams/s/metrics" [("namespace", "b")] "ta" in
  serve None demo_tokens r = Granted [("b", "s/metrics")] ∧
  policy (rights_of None demo_tokens (rq_token r)) (route r) = Denied 403.
Proof. vm_compute. split; reflexivity. Qed.

(** C26. The body limit.  Whatever the application does behind the wrapper, it
    is given at most as many bytes as the limit of its path; a body within the
    limit makes no difference to it; and when the messages it took exceed the
    limit and it comes to an end, by returning or with the wrapper's own
    exception, the client gets exactly the refusal 413 and nothing of the
    application's answer, otherwise exactly that answer. *)
Theorem body_limit_enforced mesh public app sc inbox fuel :
  0 ≤ request_limit mesh public sc →
  limited sc = true → declared mesh public sc = None →
  let limit := request_limit mesh public sc in
  let e := drive app (Some limit) fuel inbox 0 [] in
  let h := history_of e in
  delivered h ≤ limit ∧
  (body_size inbox ≤ limit → e = drive app None fuel inbox 0 []) ∧
  (e = Ended None h ∨ e = Ended (Some true) h ∧ over_limit h = true →
   limit_upload mesh public app sc inbox fuel =
     if limit <? body_size (take (taken h) inbox) then Refused 413 else Responded (messages h)).
Proof.
  intros Hn Hl Hd limit e h.
  assert (wrapped limit [] 0 []) as W by (split_and!; [done|done|by rewrite (proj2 (Z.ltb_ge _ _))|done|done]).
  pose proof (drive_wrapped app limit fuel [] inbox 0 [] Hn W) as [Hdel Hover].
  fold e in Hdel, Hover. fold h in Hdel, Hover. cbn [Datatypes.app] in Hover. split_and!; [done| |].
  - intros Hb. apply drive_within. lia.
  - intros He. unfold limit_upload. rewrite Hl, Hd. fold limit e. rewrite <- Hover.
    clear Hdel. clearbody h. clearbody e.
    destruct He as [->|[-> Ho]]; [by destruct (over_limit h)|by rewrite Ho].
Qed.

(** An echo server: it reads one message and repeats it. *)
Definition demo_app : application := λ h,
  match h with
  | [] => Receive
  | [Got (Body b)] => Send (str b)
  | [Got TooLarge] => Throw true
  | _ => Return
  end.
Definition demo_scope : scope := mk_scope true "POST" (chars "/v1/query") (Some (chars " 3 ")).

Lemma body_limit_enforced_witness :
  limit_upload 100 3 demo_app demo_scope [Some (chars "abc")] 5 = Responded ["abc"] ∧
  limit_upload 100 3 demo_app demo_scope [Some (chars "abcd")] 5 = Refused 413 ∧
  delivered (history_of (drive demo_app (Some 3) 5 [Some (chars "abcd")] 0 [])) ≤ 3.
Proof.
  assert (declared 100 3 demo_scope = None) as Hd by (vm_compute; reflexivity).
  split_and!.
  - destruct (body_limit_enforced 100 3 demo_app demo_scope [Some (chars "abc")] 5) as (_ & _ & Ht);
      [done|done|exact Hd|]. rewrite Ht; [vm_compute; reflexivity|left; vm_compute; reflexivity].
  - destruct (body_limit_enforced 100 3 demo_app demo_scope [Some (chars "abcd")] 5) as (_ & _ & Ht);
      [done|done|exact Hd|]. rewrite Ht; [vm_compute; reflexivity|right; vm_compute; split; reflexivity].
  - destruct (body_limit_enforced 100 3 demo_app demo_scope [Some (chars "abcd")] 5) as (Hle & _ & _);
      [done|done|exact Hd|exact Hle].
Defined.

(** An ingestion is all or nothing.  A batch that the model accepts is,
    on any well-formed log, refused before anything is changed when its names
    are too long or the total would leave the 64-bit range; otherwise all of
    its calls take effect and the total grows by exactly the counted events,
    or the latencies, which come first, are refused by the sketch and the log
    is unchanged: no later call can fail. *)
Theorem ingest_all_or_nothing `{Libm} max namespace stream_id b s :
  slog_wf s → valid_batch max b = true →
  match ingest_events namespace stream_id b s with
  | (Rejected status, s') =>
      s' = s ∧ status = 422 ∧
      (255 < py_len stream_id ∨ 255 < py_len namespace ∨ MAX_INT64 < sl_total s + new_events b)
  | (Ran (Ok _), s') =>
      slog_run (batch_calls b) s = (Ok tt, s') ∧ sl_total s' = sl_total s + new_events b
  | (Ran (Raise _), s') => s' = s ∧ b_latencies b ≠ []
  end.
Proof.
  intros W Hb. unfold ingest_events.
  destruct (Z.ltb_spec 255 (py_len stream_id)); [by auto|].
  destruct (Z.ltb_spec 255 (py_len namespace)); [by auto|].
  destruct (Z.ltb_spec 9223372036854775807 (sl_total s + new_events b)); [by auto|].
  pose proof (batch_run max b s W Hb) as Hr. unfold MAX_INT64 in Hr. specialize (Hr ltac:(lia)).
  destruct (slog_run (batch_calls b) s) as [[[]|e] s']; cbn in Hr; auto.
Qed.

Lemma demo_log_wf : slog_wf demo_log.
Proof. pose proof (slog_init_denotes _ _ _ _ _ _ demo_log_ok) as D. apply D. Qed.

Definition demo_batch : batch := mk_batch [4%float; 2%float] ["u"; "v"; "u"] [("click", 3); ("view", 1)].

Lemma ingest_all_or_nothing_witness :
  match ingest_events (H := coarse_libm) "n" "s" demo_batch demo_log with
  | (Ran (Ok _), s') => sl_total s' = sl_total demo_log + 6
  | _ => False
  end.
Proof.
  pose proof (ingest_all_or_nothing (H := coarse_libm) 100 "n" "s" demo_batch demo_log demo_log_wf) as Ht.
  destruct (ingest_events (H := coarse_libm) "n" "s" demo_batch demo_log) as [[st|[[]|e]] s'] eqn:E.
  - apply (f_equal fst) in E. vm_compute in E. discriminate E.
  - apply Ht. vm_compute. reflexivity.
  - apply (f_equal fst) in E. vm_compute in E. discriminate E.
Defined.
