(* ===== verification/Drift.v ===== *)
(** * Drift detection ([drift.py], class [DriftSketch])

    Per dimension two logs, the active window and the frozen one before it,
    rotated lazily by the monotonic clock whenever the dimension is touched; a
    CUSUM over the windows' 99th percentiles; the reports on drifts, anomalies
    and correlations.

    Proved: whatever the calls and the pauses between them, the two logs are
    the executions of exactly the calls that fell into the current window and
    into the one before it.

    Each reading of the clock is an argument.  [repr] is left out. *)

From Stdlib Require Import PrimFloat.
From S2P Require Import Prelude PyFloat FloatRound Hashing CountMin HyperLogLog DDSketch PyVal PyDict StreamLog Windowed.

#[local] Open Scope Z_scope.
#[local] Open Scope py_scope.
#[local] Set Warnings "-inexact-float".

(** [math.sqrt(x)] *)
Definition py_sqrt (x : float) : res float :=
  if flt x 0%float then Raise (ValueError "math domain error") else Ok (PrimFloat.sqrt x).

(** [l.sort(key=key, reverse=True)]: stable, largest key first. *)
Fixpoint insert_desc {A} (key : A → float) (x : A) (l : list A) : list A :=
  match l with
  | [] => [x]
  | y :: l' => if flt (key x) (key y) then y :: insert_desc key x l' else x :: l
  end.
Definition sort_desc {A} (key : A → float) (l : list A) : list A := foldr (insert_desc key) [] l.

(** [sorted] of distinct strings *)
Fixpoint insert_name (x : string) (l : list string) : list string :=
  match l with
  | [] => [x]
  | y :: l' => if String.ltb y x then y :: insert_name x l' else x :: l
  end.
Definition sort_names (l : list string) : list string := foldr insert_name [] l.

(** A loop that appends to a list. *)
Fixpoint mcollect {S A B} (xs : list A) (body : A → M S (list B)) : M S (list B) :=
  match xs with
  | [] => mret []
  | x :: xs => ys <- body x ;; zs <- mcollect xs body ;; mret (ys ++ zs)
  end.

Record cusum := mk_cusum {
  cu_mean : float;
  cu_var : float;
  cu_high : float;
  cu_low : float;
  cu_count : Z
}.

Record anomaly := mk_anomaly {
  an_dimension : string;
  an_direction : string;
  an_magnitude : float;
  an_expected_mean : float;
  an_current_value : float;
  an_stddev : float
}.

Record dimension := mk_dimension {
  dm_current : slog;
  dm_previous : slog;
  dm_window_start : Z;
  dm_event_count : Z;
  dm_cusum : option cusum
}.

Record drift_config := mk_drift_config {
  dc_accuracy : float;
  dc_precision : Z;
  dc_width : Z;
  dc_depth : Z;
  dc_window_ns : Z
}.

Record sketch := mk_sketch {
  ds_config : drift_config;
  ds_dims : list (string * dimension);
  ds_anomalies : list (string * anomaly)
}.

Definition set_dim (name : string) (d : dimension) (s : sketch) : sketch :=
  mk_sketch (ds_config s) (od_set name d (ds_dims s)) (ds_anomalies s).
Definition set_anomalies (l : list (string * anomaly)) (s : sketch) : sketch :=
  mk_sketch (ds_config s) (ds_dims s) l.
Definition set_logs (current previous : slog) (start : Z) (d : dimension) : dimension :=
  mk_dimension current previous start (dm_event_count d) (dm_cusum d).
Definition set_current (current : slog) (d : dimension) : dimension :=
  set_logs current (dm_previous d) (dm_window_start d) d.
Definition set_event_count (n : Z) (d : dimension) : dimension :=
  mk_dimension (dm_current d) (dm_previous d) (dm_window_start d) n (dm_cusum d).
Definition set_cusum (c : cusum) (d : dimension) : dimension :=
  mk_dimension (dm_current d) (dm_previous d) (dm_window_start d) (dm_event_count d) (Some c).

Section Drift.
Context `{Libm} `{FloatParser}.

Definition drift_init (window : window_arg) (relative_accuracy : float)
    (hll_precision cms_width cms_depth : Z) : res sketch :=
  let? seconds := parse_window window in
  if flt seconds 1e-9%float
  then Raise (ValueError "Window is too small (sub-nanosecond resolution).")
  else
    let? window_ns := py_ceil (seconds * 1000000000)%float in
    Ok (mk_sketch (mk_drift_config relative_accuracy hll_precision cms_width cms_depth window_ns) [] []).

(** A new log with [self._sk_kwargs]. *)
Definition new_stream (s : sketch) : res slog :=
  let c := ds_config s in
  slog_init (dc_accuracy c) (dc_precision c) (dc_width c) (dc_depth c) false.

(** [d[name]] of the dictionaries of dimensions. *)
Definition dim_of (name : string) (s : sketch) : res dimension :=
  match od_get (ds_dims s) name with Some d => Ok d | None => Raise (KeyError "") end.

Definition get_or_create (name : string) (now : Z) : M sketch unit :=
  s <- mget ;;
  if od_has (ds_dims s) name then mret ()
  else
    current <- mlift (new_stream s) ;;
    previous <- mlift (new_stream s) ;;
    mmodify (set_dim name (mk_dimension current previous now 0 None)).

(** [max(math.sqrt(var), max(1e-6, abs(0.01 * mean)))] *)
Definition stddev_of (mean var : float) : res float :=
  let min_stddev := fmax 1e-6%float (PrimFloat.abs (0.01 * mean)%float) in
  let? root := py_sqrt var in
  Ok (fmax root min_stddev).

(** [_update_cusum]: the new state, and the entry of [_latest_anomalies]:
    untouched, removed or set. *)
Definition cusum_step (name : string) (value : float) (c : option cusum)
    : res (cusum * option (option anomaly)) :=
  match c with
  | None => Ok (mk_cusum value 0%float 0%float 0%float 1, None)
  | Some c =>
      let mean := cu_mean c in
      let var := cu_var c in
      let? stddev := stddev_of mean var in
      let allowance := (1.0 * stddev)%float in
      let high := fmax 0%float (cu_high c + value - mean - allowance)%float in
      let low := fmax 0%float (cu_low c - value + mean - allowance)%float in
      let alpha := 0.1%float in
      let next value_for_ewma high low entry :=
        let diff := (value_for_ewma - mean)%float in
        Ok (mk_cusum ((1 - alpha) * mean + alpha * value_for_ewma)%float
              ((1 - alpha) * var + alpha * (diff * diff))%float high low (cu_count c + 1), entry) in
      let limit := (3.0 * stddev)%float in
      if flt limit high || flt limit low then
        let up := flt limit high in
        let magnitude := if up then high else low in
        let clip := if up then (mean + 3.0 * stddev)%float else (mean - 3.0 * stddev)%float in
        next clip 0%float 0%float
          (Some (Some (mk_anomaly name (if up then "up" else "down") (py_round magnitude 4)
             (py_round mean 4) (py_round value 4) (py_round stddev 4))))
      else next value high low (Some None)
  end.

Definition update_cusum (name : string) (value : float) : M sketch unit :=
  s <- mget ;;
  d <- mlift (dim_of name s) ;;
  x <- mlift (cusum_step name value (dm_cusum d)) ;;
  mmodify (set_dim name (set_cusum x.1 d)) ;;;
  match x.2 with
  | None => mret ()
  | Some None => mmodify (λ s, set_anomalies (od_del name (ds_anomalies s)) s)
  | Some (Some a) => mmodify (λ s, set_anomalies (od_set name a (ds_anomalies s)) s)
  end.

Definition maybe_rotate (name : string) (now : Z) : M sketch unit :=
  s <- mget ;;
  d <- mlift (dim_of name s) ;;
  let window := dc_window_ns (ds_config s) in
  let elapsed := now - dm_window_start d in
  if elapsed <? window then mret ()
  else
    let windows_elapsed := elapsed / window in
    p99 <- mlift (slog_p99 (dm_current d)) ;;
    update_cusum name p99 ;;;
    previous <- (if 2 <=? windows_elapsed then
                   mfor (py_range (Z.min (windows_elapsed - 1) 100)) (λ _, update_cusum name 0%float) ;;;
                   mlift (new_stream s)
                 else mret (dm_current d)) ;;
    fresh <- mlift (new_stream s) ;;
    s <- mget ;;
    d <- mlift (dim_of name s) ;;
    mmodify (set_dim name (set_logs fresh previous (dm_window_start d + windows_elapsed * window) d)).

(** [rotate_all]; [nows] is the clock when a name is visited. *)
Definition rotate_all (nows : string → Z) : M sketch unit :=
  s <- mget ;;
  mfor (od_keys (ds_dims s)) (λ name,
    s <- mget ;;
    d <- mlift (dim_of name s) ;;
    p99 <- mlift (slog_p99 (dm_current d)) ;;
    update_cusum name p99 ;;;
    fresh <- mlift (new_stream s) ;;
    s <- mget ;;
    d <- mlift (dim_of name s) ;;
    mmodify (set_dim name (set_logs fresh (dm_current d) (nows name) d))).

(** A call on the active log of a dimension, and the count of what it added. *)
Definition on_current (name : string) (c : slog_call) (count : Z → Z) : M sketch unit :=
  s <- mget ;;
  d <- mlift (dim_of name s) ;;
  let before := sl_total (dm_current d) in
  let '(r, current) := slog_do c (dm_current d) in
  mmodify (set_dim name (set_current current d)) ;;;
  mlift r ;;;
  mmodify (set_dim name (set_event_count (dm_event_count d + count (sl_total current - before))
    (set_current current d))).

Definition add (dimension : string) (value : float) (created now : Z) : M sketch unit :=
  get_or_create dimension created ;;;
  maybe_rotate dimension now ;;;
  on_current dimension (SLatency value) (λ n, if 0 <? n then 1 else 0).

Definition add_batch (dimension : string) (values : list float) (created now : Z) : M sketch unit :=
  get_or_create dimension created ;;;
  maybe_rotate dimension now ;;;
  on_current dimension (SBatch values) (λ n, n).

(** ** Reports *)

Record drift_result := mk_drift_result {
  dr_dimension : string;
  dr_current_p99 : float;
  dr_previous_p99 : float;
  dr_current_samples : Z;
  dr_previous_samples : Z;
  dr_ratio : float;
  dr_pct : float;
  dr_direction : string
}.

(** One dimension of [drift]. *)
Definition compare_windows (name : string) (threshold : float) (curr_count prev_count : Z)
    (curr_p99 prev_p99 : float) : list drift_result :=
  if feq prev_p99 0%float && feq curr_p99 0%float then []
  else if feq prev_p99 0%float then
    [mk_drift_result name (py_round curr_p99 4) 0%float curr_count prev_count infinity infinity "new"]
  else
    let ratio := (curr_p99 / prev_p99)%float in
    let change := PrimFloat.abs (ratio - 1.0)%float in
    if fle threshold change then
      [mk_drift_result name (py_round curr_p99 4) (py_round prev_p99 4) curr_count prev_count
         (py_round ratio 4) (py_round ((ratio - 1.0) * 100)%float 2)
         (if flt 1.0%float ratio then "up" else "down")]
    else [].

Definition drift (threshold : float) (nows : string → Z) : M sketch (list drift_result) :=
  s <- mget ;;
  results <- mcollect (od_keys (ds_dims s)) (λ name,
    maybe_rotate name (nows name) ;;;
    s <- mget ;;
    d <- mlift (dim_of name s) ;;
    let curr_count := sl_total (dm_current d) in
    let prev_count := sl_total (dm_previous d) in
    if (curr_count =? 0) || (prev_count =? 0) then mret []
    else
      curr <- mlift (slog_p99 (dm_current d)) ;;
      prev <- mlift (slog_p99 (dm_previous d)) ;;
      mret (compare_windows name threshold curr_count prev_count curr prev)) ;;
  mret (sort_desc (λ x, PrimFloat.abs (dr_pct x)) results).

(** The check on the active window of a dimension in [anomalies]. *)
Definition speculate (name : string) (d : dimension) : res (list (string * anomaly)) :=
  match dm_cusum d with
  | None => Ok []
  | Some c =>
      let mean := cu_mean c in
      let? stddev := stddev_of mean (cu_var c) in
      let? val := slog_p99 (dm_current d) in
      let allowance := (1.0 * stddev)%float in
      let high := fmax 0%float (cu_high c + val - mean - allowance)%float in
      let low := fmax 0%float (cu_low c - val + mean - allowance)%float in
      let limit := (3.0 * stddev)%float in
      if flt limit high || flt limit low then
        let up := flt limit high in
        Ok [(name, mk_anomaly name (if up then "up" else "down") (py_round (if up then high else low) 4)
               (py_round mean 4) (py_round val 4) (py_round stddev 4))]
      else Ok []
  end.

Definition anomalies (nows : string → Z) : M sketch (list anomaly) :=
  s <- mget ;;
  mfor (od_keys (ds_dims s)) (λ name, maybe_rotate name (nows name)) ;;;
  s <- mget ;;
  extra <- mlift (res_mapM (λ e : string * dimension,
    if (sl_total (dm_current e.2) =? 0) || od_has (ds_anomalies s) e.1 then Ok []
    else speculate e.1 e.2) (ds_dims s)) ;;
  mret (map snd (ds_anomalies s ++ concat extra)).

Record correlation := mk_correlation {
  co_pair : string * string;
  co_score : float;
  co_direction : string;
  co_a_pct : float;
  co_b_pct : float
}.

(** One pair of [correlations]. *)
Definition correlate (a b : string) (a_r b_r : float) : list correlation :=
  let a_up := flt 1%float a_r in
  let b_up := flt 1%float b_r in
  let a_chg := PrimFloat.abs (a_r - 1.0)%float in
  let b_chg := PrimFloat.abs (b_r - 1.0)%float in
  if flt (a_chg + b_chg)%float 0.01%float then []
  else
    let sim := (1.0 - PrimFloat.abs (a_chg - b_chg) / (a_chg + b_chg))%float in
    let score := if Bool.eqb a_up b_up then sim else PrimFloat.opp sim in
    let direction := if Bool.eqb a_up b_up then (if a_up then "up" else "down") else "mixed" in
    if flt 0.1%float (PrimFloat.abs score) then
      [mk_correlation (a, b) (py_round score 4) direction (py_round ((a_r - 1) * 100)%float 2)
         (py_round ((b_r - 1) * 100)%float 2)]
    else [].

Fixpoint pairs_of (data : list (string * float)) (names : list string) : list correlation :=
  match names with
  | [] => []
  | a :: names =>
      concat (map (λ b, match od_get data a, od_get data b with
                        | Some a_r, Some b_r => correlate a b a_r b_r
                        | _, _ => []
                        end) names) ++ pairs_of data names
  end.

Definition correlations (min_events : Z) (nows : string → Z) : M sketch (list correlation) :=
  s <- mget ;;
  data <- mcollect (od_keys (ds_dims s)) (λ name,
    s <- mget ;;
    d <- mlift (dim_of name s) ;;
    if dm_event_count d <? min_events then mret []
    else
      maybe_rotate name (nows name) ;;;
      s <- mget ;;
      d <- mlift (dim_of name s) ;;
      if (sl_total (dm_current d) =? 0) || (sl_total (dm_previous d) =? 0) then mret []
      else
        curr <- mlift (slog_p99 (dm_current d)) ;;
        prev <- mlift (slog_p99 (dm_previous d)) ;;
        mret (if flt 0%float prev then [(name, (curr / prev)%float)] else [])) ;;
  if (length data <? 2)%nat then mret []
  else mret (sort_desc (λ x, PrimFloat.abs (co_score x)) (pairs_of data (sort_names (od_keys data)))).

Record metric := mk_metric {
  me_dimension : string;
  me_events : Z;
  me_current_p99 : float;
  me_previous_p99 : float
}.

(** The number of dimensions, the events of all, and the metrics. *)
Definition summary (nows : string → Z) : M sketch (Z * Z * list metric) :=
  s <- mget ;;
  dims <- mcollect (sort_names (od_keys (ds_dims s))) (λ name,
    maybe_rotate name (nows name) ;;;
    s <- mget ;;
    d <- mlift (dim_of name s) ;;
    curr <- mlift (slog_p99 (dm_current d)) ;;
    prev <- mlift (slog_p99 (dm_previous d)) ;;
    mret [mk_metric name (dm_event_count d) (py_round curr 4) (py_round prev 4)]) ;;
  mret (Z.of_nat (length dims), sum_by me_events dims, dims).

Definition dimensions (s : sketch) : list string := od_keys (ds_dims s).

Definition drift_memory_bytes (s : sketch) : Z :=
  sum_by (λ e, slog_memory_bytes (dm_current e.2) + slog_memory_bytes (dm_previous e.2)) (ds_dims s).
End Drift.

(** ** The windows *)

Inductive drift_op :=
  | OAdd (dimension : string) (value : float)
  | OBatch (dimension : string) (values : list float)
  | ODrift (threshold : float)
  | OAnomalies
  | OCorrelations (min_events : Z)
  | OSummary.

(** A call with its readings of the clock: [_get_or_create]'s, the one of
    [_maybe_rotate] for each name, and the one at its end. *)
Record timed_op := mk_timed {
  to_op : drift_op;
  to_created : Z;
  to_nows : string → Z;
  to_end : Z
}.

(** The clock never goes back. *)
Fixpoint clock_ok (last : Z) (os : list timed_op) : Prop :=
  match os with
  | [] => True
  | o :: os =>
      last ≤ to_created o ∧ (∀ name, to_created o ≤ to_nows o name ≤ to_end o) ∧ clock_ok (to_end o) os
  end.

(** A call that was accepted, and when. *)
Record entry := mk_entry { en_name : string; en_time : Z; en_call : slog_call }.

Definition entry_of (o : timed_op) : option entry :=
  match to_op o with
  | OAdd name v => Some (mk_entry name (to_nows o name) (SLatency v))
  | OBatch name vs => Some (mk_entry name (to_nows o name) (SBatch vs))
  | _ => None
  end.

(** The calls on a dimension in the interval from [lo] to [hi]. *)
Definition calls_in (name : string) (lo hi : Z) (h : list entry) : list slog_call :=
  en_call <$> filter (λ e, en_name e = name ∧ lo ≤ en_time e < hi) h.

(** When a dimension came into being: at the first call that names it. *)
Fixpoint born (name : string) (os : list timed_op) : option Z :=
  match os with
  | [] => None
  | o :: os =>
      match entry_of o with
      | Some e => if decide (en_name e = name) then Some (to_created o) else born name os
      | None => born name os
      end
  end.

Lemma calls_in_app name lo hi h k :
  calls_in name lo hi (h ++ k) = calls_in name lo hi h ++ calls_in name lo hi k.
Proof. unfold calls_in. by rewrite filter_app, fmap_app. Qed.

Lemma calls_in_nil name lo hi h :
  (∀ e, e ∈ h → en_name e = name → en_time e < lo ∨ hi ≤ en_time e) → calls_in name lo hi h = [].
Proof.
  intros Ho. unfold calls_in. induction h as [|e h IH]; [done|].
  rewrite filter_cons. destruct (decide _) as [[En Et]|_].
  - specialize (Ho e ltac:(by left) En). lia.
  - apply IH. intros e' He'. apply Ho. by right.
Qed.

Section windows.
Context `{Libm} `{FloatParser} (fresh : slog) (D0 : slog_denotes fresh fresh []) (w : Z) (Hw : 0 < w).

(** The calls as the method runs them; an exception ends the call, not the
    run. *)
Definition ds_do (o : timed_op) : M sketch unit :=
  match to_op o with
  | OAdd name v => add name v (to_created o) (to_nows o name)
  | OBatch name vs => add_batch name vs (to_created o) (to_nows o name)
  | ODrift threshold => drift threshold (to_nows o) ;;; mret ()
  | OAnomalies => anomalies (to_nows o) ;;; mret ()
  | OCorrelations n => correlations n (to_nows o) ;;; mret ()
  | OSummary => summary (to_nows o) ;;; mret ()
  end.

Definition ds_run (os : list timed_op) (s : sketch) : sketch :=
  foldl (λ s o, exec (ds_do o) s) s os.

Fixpoint accepted (os : list timed_op) (s : sketch) : list entry :=
  match os with
  | [] => []
  | o :: os =>
      (if is_ok (result (ds_do o) s) then from_option (λ e, [e]) [] (entry_of o) else [])
      ++ accepted os (exec (ds_do o) s)
  end.

(** A dimension holds the two windows of its history [h], last touched no
    later than [b]. *)
Record window_ok (name : string) (h : list entry) (b t0 : Z) (d : dimension) : Prop := {
  wk_grid : ∃ k, 0 ≤ k ∧ dm_window_start d = t0 + k * w;
  wk_start : dm_window_start d ≤ b;
  wk_old : ∀ e, e ∈ h → en_name e = name → en_time e < dm_window_start d + w;
  wk_current : slog_run (calls_in name (dm_window_start d) (dm_window_start d + w) h) fresh
               = (Ok tt, dm_current d);
  wk_previous : slog_run (calls_in name (dm_window_start d - w) (dm_window_start d) h) fresh
                = (Ok tt, dm_previous d)
}.

Definition holds (h : list entry) (b : string → Z) (t0 : string → option Z) (s : sketch) : Prop :=
  new_stream s = Ok fresh ∧ dc_window_ns (ds_config s) = w ∧
  ∀ name, match t0 name, od_get (ds_dims s) name with
          | None, None => ∀ e, e ∈ h → en_name e ≠ name
          | Some t, Some d => window_ok name h (b name) t d
          | _, _ => False
          end.

Lemma holds_weaken h b b' t0 s :
  (∀ name, b name ≤ b' name) → holds h b t0 s → holds h b' t0 s.
Proof.
  intros Hb (Ef & Ew & Hd). split_and!; [done..|]. intros name.
  specialize (Hd name). specialize (Hb name).
  destruct (t0 name), (od_get _ name); try done.
  destruct Hd. split; try done. lia.
Qed.

(** Writing one dimension. *)
Lemma holds_set h b t0 t0' s name t d :
  holds h b t0 s → t0' name = Some t → (∀ n, n ≠ name → t0' n = t0 n) →
  window_ok name h (b name) t d → holds h b t0' (set_dim name d s).
Proof.
  intros (Ef & Ew & Hd) Et Eo Hk. split_and!; [done..|]. intros n. cbn.
  rewrite od_get_set. case_decide as E; [by subst n; rewrite Et|]. rewrite Eo by done. apply Hd.
Qed.

(** A dimension changed elsewhere than in its logs. *)
Lemma window_ok_logs name h b t d d' :
  dm_current d' = dm_current d → dm_previous d' = dm_previous d →
  dm_window_start d' = dm_window_start d → window_ok name h b t d → window_ok name h b t d'.
Proof. intros E1 E2 E3 []. split; by rewrite ?E1, ?E2, ?E3. Qed.

Lemma holds_anomalies h b t0 s l : holds h b t0 s → holds h b t0 (set_anomalies l s).
Proof. done. Qed.

Lemma holds_dim h b t0 s name d :
  holds h b t0 s → dim_of name s = Ok d → ∃ t, t0 name = Some t ∧ window_ok name h (b name) t d.
Proof.
  intros (_ & _ & Hd) E. specialize (Hd name). unfold dim_of in E.
  destruct (od_get _ name); [|done]. injection E as ->. destruct (t0 name); [eauto|done].
Qed.

Lemma update_cusum_holds h b t0 name x : preserves (holds h b t0) (update_cusum name x).
Proof.
  intros s Hs. unfold update_cusum, mbind, mget, mlift, mmodify.
  destruct (dim_of name s) as [d|] eqn:Ed; [|done].
  destruct (cusum_step _ _ _) as [[c en]|]; [|done]. cbn [fst snd].
  destruct (holds_dim _ _ _ _ _ _ Hs Ed) as (t & Et & Hk).
  assert (holds h b t0 (set_dim name (set_cusum c d) s)) as Hs'.
  { eapply holds_set; [done..|]. by eapply window_ok_logs; [..|exact Hk]. }
  destruct en as [[a|]|]; cbn; by try apply holds_anomalies.
Qed.

(** The CUSUM leaves the logs of every dimension alone. *)
Definition same_logs (s s' : sketch) : Prop :=
  ds_config s' = ds_config s ∧
  ∀ name, (λ d, (dm_current d, dm_previous d, dm_window_start d)) <$> od_get (ds_dims s') name
        = (λ d, (dm_current d, dm_previous d, dm_window_start d)) <$> od_get (ds_dims s) name.

#[local] Instance same_logs_refl : Reflexive same_logs.
Proof. done. Qed.
#[local] Instance same_logs_trans : Transitive same_logs.
Proof. intros s1 s2 s3 [E1 L1] [E2 L2]. split; [congruence|]. intros. by rewrite L2. Qed.

Lemma update_cusum_logs s0 name x : preserves (same_logs s0) (update_cusum name x).
Proof using Type*.
  intros s Hs. etrans; [exact Hs|]. unfold update_cusum, mbind, mget, mlift, mmodify.
  destruct (dim_of name s) as [d|] eqn:Ed; [|done].
  destruct (cusum_step _ _ _) as [[c en]|]; [|done]. cbn [fst snd].
  assert (same_logs s (set_dim name (set_cusum c d) s)) as [E1 E2].
  { split; [done|]. intros name'. cbn. rewrite od_get_set. case_decide; [|done]. subst name'.
    unfold dim_of in Ed. destruct (od_get _ name); [|done]. by injection Ed as ->. }
  by destruct en as [[a|]|].
Qed.

Lemma same_logs_dim s s' name d :
  same_logs s s' → dim_of name s' = Ok d →
  ∃ d', dim_of name s = Ok d' ∧ dm_current d' = dm_current d ∧
    dm_previous d' = dm_previous d ∧ dm_window_start d' = dm_window_start d.
Proof.
  intros [_ E] Ed. specialize (E name). unfold dim_of in *.
  destruct (od_get (ds_dims s') name) as [d0|]; [|done]. injection Ed as ->.
  destruct (od_get (ds_dims s) name) as [d'|]; [|done]. cbn in E. exists d'. by injection E as -> -> ->.
Qed.

(** Rotation: the window that holds [now] becomes the current one. *)
Lemma window_rotates name h b now t0 d previous fresh' :
  window_ok name h b t0 d → b ≤ now →
  let n := (now - dm_window_start d) / w in
  1 ≤ n → fresh' = fresh → previous = (if 2 <=? n then fresh else dm_current d) →
  ∀ d', window_ok name h now t0 (set_logs fresh' previous (dm_window_start d + n * w) d').
Proof.
  intros [(k & Hk & Eg) Hs Ho Hc Hp] Hb n Hn -> -> d'.
  pose proof (Z.mul_div_le (now - dm_window_start d) w Hw) as Hle. fold n in Hle.
  assert (dm_window_start d + w ≤ dm_window_start d + n * w) as Hnw by nia.
  split; cbn.
  - exists (k + n). split; [lia|]. rewrite Eg. lia.
  - lia.
  - intros e He En. specialize (Ho e He En). lia.
  - rewrite calls_in_nil; [done|]. intros e He En. specialize (Ho e He En). lia.
  - destruct (Z.leb_spec 2 n).
    + rewrite calls_in_nil; [done|]. intros e He En. specialize (Ho e He En). nia.
    + assert (n = 1) as -> by lia.
      replace (dm_window_start d + 1 * w - w) with (dm_window_start d) by lia.
      by replace (dm_window_start d + 1 * w) with (dm_window_start d + w) by lia.
Qed.

Lemma maybe_rotate_run h b t0 name now s :
  holds h b t0 s → b name = now →
  let '(r, s') := maybe_rotate name now s in
  holds h b t0 s' ∧
  (is_ok r = true → ∀ d, dim_of name s' = Ok d → dm_window_start d ≤ now < dm_window_start d + w).
Proof.
  intros Hs Hb. pose proof Hs as (Ef & Ew & _). unfold maybe_rotate.
  rewrite (mbind_step mget _ s s s) by done. unfold mbind at 1, mlift at 1.
  destruct (dim_of name s) as [d|] eqn:Ed; [|by split].
  destruct (holds_dim _ _ _ _ _ _ Hs Ed) as (t & Et & Hk). rewrite Hb in Hk.
  rewrite Ew. set (n := (now - dm_window_start d) / w). cbv zeta.
  pose proof (Z.mul_div_le (now - dm_window_start d) w Hw) as Hle. fold n in Hle.
  pose proof (Z.mul_succ_div_gt (now - dm_window_start d) w Hw) as Hgt. fold n in Hgt.
  destruct (Z.ltb_spec (now - dm_window_start d) w) as [Hlt|Hge].
  { split; [done|]. intros _ d' Ed'. rewrite Ed in Ed'. injection Ed' as <-. destruct Hk. lia. }
  assert (1 ≤ n) as Hn by (apply Z.div_le_lower_bound; lia).
  unfold mbind at 1, mlift at 1. destruct (slog_p99 _) as [p99|]; [|by split].
  pose proof (update_cusum_holds h b t0 name p99 s Hs) as Hs1.
  pose proof (update_cusum_logs s name p99 s (reflexivity s)) as HL1.
  unfold mbind at 1. destruct (update_cusum name p99 s) as [[[]|] s1]; [|by split]. cbn [snd] in *.
  set (rest := if 2 <=? n then _ else _).
  assert (holds h b t0 (exec rest s1) ∧ same_logs s (exec rest s1) ∧
          ∀ p s2, rest s1 = (Ok p, s2) → p = if 2 <=? n then fresh else dm_current d) as (Hs2 & HL2 & Hp).
  { unfold rest, exec. destruct (2 <=? n).
    - unfold mbind, mlift. rewrite Ef.
      pose proof (preserves_for (holds h b t0) (py_range (Z.min (n - 1) 100)) _
        (λ _, update_cusum_holds h b t0 name 0%float) s1 Hs1) as P1.
      pose proof (preserves_for (same_logs s) (py_range (Z.min (n - 1) 100)) _
        (λ _, update_cusum_logs s name 0%float) s1 HL1) as P2.
      destruct (mfor _ _ s1) as [[[]|] s2]; cbn [snd] in *; split_and!; try done.
      by intros p s3 [= <- _].
    - cbn. split_and!; try done. by intros p s3 [= <- _]. }
  unfold mbind at 1. unfold exec in Hs2, HL2.
  destruct (rest s1) as [[p|] s2]; cbn [snd] in *; [|by split].
  specialize (Hp p s2 eq_refl).
  unfold mbind, mlift, mget, mmodify. rewrite Ef.
  destruct (dim_of name s2) as [d2|] eqn:Ed2; [|by split].
  destruct (same_logs_dim _ _ _ _ HL2 Ed2) as (d' & Ed' & E1 & E2 & E3).
  rewrite Ed in Ed'. injection Ed' as <-. rewrite <- E3. split.
  - eapply holds_set; [done..|]. rewrite Hb. by apply (window_rotates name h now now t d).
  - intros _ d' Ed'. unfold dim_of in Ed'. cbn in Ed'. rewrite od_get_set_eq in Ed'.
    injection Ed' as <-. cbn. destruct Hk. nia.
Qed.

Lemma maybe_rotate_holds h b t0 name : preserves (holds h b t0) (maybe_rotate name (b name)).
Proof.
  intros s Hs. pose proof (maybe_rotate_run h b t0 name _ s Hs eq_refl) as Hr.
  by destruct (maybe_rotate _ _ s) as [r s'], Hr.
Qed.

(** The names in use after a call that names [name]. *)
Definition born_at (name : string) (created : Z) (t0 : string → option Z) : string → option Z :=
  λ n, if decide (n = name) then Some (default created (t0 n)) else t0 n.

Lemma get_or_create_run h b t0 s name created :
  holds h b t0 s → created ≤ b name →
  ∃ s' d, get_or_create name created s = (Ok tt, s') ∧
    holds h b (born_at name created t0) s' ∧ dim_of name s' = Ok d.
Proof.
  intros Hs Hb. pose proof Hs as (Ef & Ew & Hd). unfold get_or_create.
  rewrite (mbind_step mget _ s s s) by done. unfold od_has.
  pose proof (Hd name) as Hn. unfold dim_of.
  destruct (od_get (ds_dims s) name) as [d|] eqn:Ed.
  - exists s, d. rewrite Ed. split_and!; [done| |done].
    split_and!; [done..|]. intros n. unfold born_at. case_decide; [|apply Hd]. subst n.
    rewrite Ed. destruct (t0 name); done.
  - destruct (t0 name) as [|] eqn:Et; [done|].
    set (d := mk_dimension fresh fresh created 0 None).
    exists (set_dim name d s), d. unfold mbind, mlift, mmodify. rewrite Ef. cbn.
    rewrite od_get_set_eq. split_and!; [done| |done].
    eapply (holds_set _ _ t0 _ _ _ created); [done|..].
    + unfold born_at. by rewrite decide_True, Et.
    + intros n Hne. unfold born_at. by rewrite decide_False.
    + split; cbn; try done; [by exists 0; split; lia| | |].
      * intros e He En. by destruct (Hn e He).
      * rewrite calls_in_nil; [done|]. intros e He En. by destruct (Hn e He).
      * rewrite calls_in_nil; [done|]. intros e He En. by destruct (Hn e He).
Qed.

(** A call accepted by one dimension is no call of another. *)
Lemma window_ok_other name h e b t0 d :
  en_name e ≠ name → window_ok name h b t0 d → window_ok name (h ++ [e]) b t0 d.
Proof.
  intros Hne [Hg Hs Ho Hc Hp].
  assert (∀ lo hi, calls_in name lo hi (h ++ [e]) = calls_in name lo hi h) as E.
  { intros lo hi. rewrite calls_in_app, (calls_in_nil _ _ _ [e]), app_nil_r; [done|].
    by intros e' ->%list_elem_of_singleton Hn. }
  split; rewrite ?E; try done.
  intros e' [He| ->%list_elem_of_singleton]%elem_of_app En; [auto|done].
Qed.

(** A call accepted in the current window is added to the current log. *)
Lemma window_ok_add name h c now b t0 d current :
  window_ok name h b t0 d → dm_window_start d ≤ now < dm_window_start d + w →
  slog_do c (dm_current d) = (Ok tt, current) →
  window_ok name (h ++ [mk_entry name now c]) b t0 (set_current current d).
Proof.
  intros [Hg Hs Ho Hc Hp] Hnow Hdo. split; cbn; try done.
  - intros e' [He| ->%list_elem_of_singleton]%elem_of_app En; [auto|]. cbn. lia.
  - rewrite calls_in_app. unfold calls_in at 2.
    rewrite filter_cons, decide_True by (cbn; split; [done|lia]).
    unfold slog_run. rewrite mfor_app, (mbind_step _ _ _ _ _ Hc). cbn. by rewrite (mbind_step _ _ _ _ _ Hdo).
  - rewrite calls_in_app, (calls_in_nil _ _ _ [_]), app_nil_r; [done|].
    intros e' ->%list_elem_of_singleton _. cbn. lia.
Qed.

(** A call the log refuses leaves it alone. *)
Lemma window_ok_refused name h b t0 d c e :
  window_ok name h b t0 d → fst (slog_do c (dm_current d)) = Raise e →
  snd (slog_do c (dm_current d)) = dm_current d.
Proof using D0.
  intros K E. pose proof (slog_run_denotes _ _ _ _ _ D0 (wk_current _ _ _ _ _ K)) as D.
  destruct (slog_do_wf c _ (sd_wf _ _ _ D)) as [_ Hs]. by apply (Hs e).
Qed.

Lemma set_dim_set name d d' s : set_dim name d (set_dim name d' s) = set_dim name d s.
Proof. unfold set_dim. cbn. by rewrite od_set_set. Qed.

Lemma on_current_run h b t0 s name c count d now :
  holds h b t0 s → dim_of name s = Ok d → dm_window_start d ≤ now < dm_window_start d + w →
  let '(r, s') := on_current name c count s in
  holds (if is_ok r then h ++ [mk_entry name now c] else h) b t0 s'.
Proof using D0.
  intros Hs Ed Hnow. destruct (holds_dim _ _ _ _ _ _ Hs Ed) as (t & Et & Hk).
  unfold on_current, mbind, mget, mlift, mmodify. rewrite Ed.
  pose proof (λ e, window_ok_refused _ _ _ _ _ c e Hk) as Href.
  destruct (slog_do c (dm_current d)) as [[[]|e] current] eqn:Edo; cbn [is_ok].
  - pose proof (window_ok_add _ _ c now _ _ _ _ Hk Hnow Edo) as Hk'.
    rewrite set_dim_set.
    destruct Hs as (Ef & Ew & Hd). split_and!; [done..|]. intros n. cbn. rewrite od_get_set.
    case_decide as E.
    + subst n. rewrite Et. by eapply window_ok_logs; [..|exact Hk'].
    + specialize (Hd n). destruct (t0 n), (od_get _ n); try done.
      * by apply window_ok_other.
      * intros e [He| ->%list_elem_of_singleton]%elem_of_app; [auto|]. by intros ?.
  - eapply holds_set; [done..|].
    specialize (Href e eq_refl). cbn in Href. subst current.
    by eapply window_ok_logs; [..|exact Hk].
Qed.

(** A write: the dimension is made, rotated and given the call. *)
Lemma drift_write_run h b t0 s name c count created :
  holds h b t0 s → created ≤ b name →
  let '(r, s') := (get_or_create name created ;;; maybe_rotate name (b name) ;;; on_current name c count) s in
  holds (if is_ok r then h ++ [mk_entry name (b name) c] else h) b (born_at name created t0) s'.
Proof using D0 Hw.
  intros Hs Hb. destruct (get_or_create_run _ _ _ _ _ _ Hs Hb) as (s1 & d1 & E1 & Hs1 & Ed1).
  rewrite (mbind_step _ _ _ _ _ E1).
  pose proof (maybe_rotate_run h b _ name (b name) s1 Hs1 eq_refl) as Hr.
  unfold mbind. destruct (maybe_rotate name (b name) s1) as [[[]|e] s2]; [|by apply Hr].
  destruct Hr as [Hs2 Hd]. specialize (Hd eq_refl).
  destruct (dim_of name s2) as [d|e] eqn:Ed; [exact (on_current_run _ _ _ _ _ _ _ _ _ Hs2 Ed (Hd d eq_refl))|].
  exfalso. destruct Hs2 as (_ & _ & Hs2). specialize (Hs2 name).
  unfold born_at in Hs2. rewrite decide_True in Hs2 by done. unfold dim_of in Ed.
  by destruct (od_get (ds_dims s2) name).
Qed.

Lemma preserves_collect {S A B} (P : S → Prop) (xs : list A) (body : A → M S (list B)) :
  (∀ x, preserves P (body x)) → preserves P (mcollect xs body).
Proof.
  intros Hb. induction xs; cbn; [by apply preserves_readonly|].
  apply preserves_bind; [done|]. intros ?. apply preserves_bind; [done|]. intros ?.
  by apply preserves_readonly.
Qed.

(** The reports only rotate. *)
Ltac solve_reports :=
  repeat first
    [ apply preserves_readonly; solve [eauto 8 with py]
    | apply maybe_rotate_holds
    | apply preserves_collect; intros ?
    | apply preserves_for; intros ?
    | apply preserves_bind; [|intros ?]
    | match goal with |- preserves _ (if ?b then _ else _) => destruct b end ].

Lemma drift_holds h b t0 threshold : preserves (holds h b t0) (drift threshold b).
Proof using D0 Hw. unfold drift. solve_reports. Qed.
Lemma anomalies_holds h b t0 : preserves (holds h b t0) (anomalies b).
Proof using D0 Hw. unfold anomalies. solve_reports. Qed.
Lemma correlations_holds h b t0 n : preserves (holds h b t0) (correlations n b).
Proof using D0 Hw. unfold correlations. solve_reports. Qed.
Lemma summary_holds h b t0 : preserves (holds h b t0) (summary b).
Proof using D0 Hw. unfold summary. solve_reports. Qed.

Definition names_after (o : timed_op) (t0 : string → option Z) : string → option Z :=
  match entry_of o with Some e => born_at (en_name e) (to_created o) t0 | None => t0 end.

Lemma ds_do_holds h t0 o s last :
  holds h (λ _, last) t0 s → last ≤ to_created o →
  (∀ name, to_created o ≤ to_nows o name ≤ to_end o) →
  holds (h ++ accepted [o] s) (λ _, to_end o) (names_after o t0) (exec (ds_do o) s).
Proof using D0 Hw.
  intros Hs Hc Hn. cbn [accepted]. rewrite app_nil_r.
  assert (holds h (to_nows o) t0 s) as Hs'.
  { eapply holds_weaken; [|exact Hs]. intros n. specialize (Hn n). cbn. lia. }
  apply (holds_weaken _ (to_nows o)); [apply Hn|].
  destruct o as [[name v|name vs|thr| |n|] c nows e]; unfold ds_do, result, exec, names_after, entry_of; cbn in *.
  - pose proof (drift_write_run h nows t0 s name (SLatency v) (λ n, if 0 <? n then 1 else 0) c Hs') as Hr.
    unfold add. destruct ((get_or_create name c ;;; _) s) as [r s']. cbn [fst snd] in *. specialize (Hr ltac:(apply Hn)).
    destruct (is_ok r); by rewrite ?app_nil_r.
  - pose proof (drift_write_run h nows t0 s name (SBatch vs) (λ n, n) c Hs') as Hr.
    unfold add_batch. destruct ((get_or_create name c ;;; _) s) as [r s']. cbn [fst snd] in *. specialize (Hr ltac:(apply Hn)).
    destruct (is_ok r); by rewrite ?app_nil_r.
  - rewrite Tauto.if_same, app_nil_r. apply (preserves_bind _ _ _ (drift_holds h nows t0 thr)); [by intros ??|done].
  - rewrite Tauto.if_same, app_nil_r. apply (preserves_bind _ _ _ (anomalies_holds h nows t0)); [by intros ??|done].
  - rewrite Tauto.if_same, app_nil_r. apply (preserves_bind _ _ _ (correlations_holds h nows t0 n)); [by intros ??|done].
  - rewrite Tauto.if_same, app_nil_r. apply (preserves_bind _ _ _ (summary_holds h nows t0)); [by intros ??|done].
Qed.

(** The clock at the end of the calls. *)
Definition end_of (last : Z) (os : list timed_op) : Z := foldl (λ _ o, to_end o) last os.

Lemma ds_run_holds os : ∀ h t0 s last,
  holds h (λ _, last) t0 s → clock_ok last os →
  holds (h ++ accepted os s) (λ _, end_of last os) (foldl (λ t o, names_after o t) t0 os) (ds_run os s).
Proof using D0 Hw.
  induction os as [|o os IH]; intros h t0 s last Hs Hc; cbn.
  { by rewrite app_nil_r. }
  destruct Hc as (Hc & Hn & Hos).
  pose proof (ds_do_holds h t0 o s last Hs Hc Hn) as H1.
  cbn [accepted] in H1. rewrite app_nil_r in H1.
  rewrite app_assoc. by apply (IH _ _ _ _ H1).
Qed.

Lemma names_after_born os name : ∀ t0,
  foldl (λ t o, names_after o t) t0 os name = match t0 name with Some t => Some t | None => born name os end.
Proof.
  induction os as [|o os IH]; intros t0; cbn; [by destruct (t0 name)|].
  rewrite IH. unfold names_after. destruct (entry_of o) as [e|]; [|done]. unfold born_at.
  case_decide as E.
  - subst name. rewrite decide_True by done. by destruct (t0 (en_name e)).
  - by rewrite decide_False.
Qed.
End windows.

(** A new sketch has no dimensions and a window of at least a nanosecond. *)
Lemma drift_init_ok `{Libm} `{FloatParser} window a p w d s :
  drift_init window a p w d = Ok s →
  new_stream s = slog_init a p w d false ∧ ds_dims s = [] ∧ 1 ≤ dc_window_ns (ds_config s).
Proof.
  unfold drift_init. destruct (parse_window window) as [x|] eqn:Ex; [|done]. cbn [res_bind].
  destruct (parse_window_pos _ _ Ex) as [Fx Hx].
  destruct (flt _ _); [done|]. destruct (py_ceil _) as [n|] eqn:Ew; [|done]. cbn [res_bind].
  intros [= <-]. split_and!; [done|done|]. by eapply window_ns_pos.
Qed.

(** C27. Tumbling windows.  Take a new sketch and any sequence of calls --
    writes, batches and the reports, accepted or refused -- with a
    clock that never goes back.  A dimension exists exactly when a call has
    named it, and its windows lie on the grid of [window_ns] steps from the
    instant of that call: its active log is exactly the execution of the calls
    accepted in the current window, its frozen log exactly that of the calls
    accepted in the window before it (none, when nothing was written for a
    whole window), and no accepted call is newer than the current window. *)
Theorem drift_windows_exact `{Libm} `{FloatParser} window a p cw cd s fresh os last :
  drift_init window a p cw cd = Ok s →
  slog_init a p cw cd false = Ok fresh →
  clock_ok last os →
  let w := dc_window_ns (ds_config s) in
  let h := accepted os s in
  ∀ name,
    match born name os, od_get (ds_dims (ds_run os s)) name with
    | None, None => ∀ e, e ∈ h → en_name e ≠ name
    | Some created, Some d =>
        let start := dm_window_start d in
        (∃ k, 0 ≤ k ∧ start = created + k * w) ∧ start ≤ end_of last os ∧
        (∀ e, e ∈ h → en_name e = name → en_time e < start + w) ∧
        slog_run (calls_in name start (start + w) h) fresh = (Ok tt, dm_current d) ∧
        slog_run (calls_in name (start - w) start h) fresh = (Ok tt, dm_previous d)
    | _, _ => False
    end.
Proof.
  intros Ei Ef Hc w h name. destruct (drift_init_ok _ _ _ _ _ _ Ei) as (En & Ed & Hw).
  pose proof (slog_init_denotes _ _ _ _ _ _ Ef) as D0.
  assert (holds fresh w [] (λ _, last) (λ _, None) s) as Hs.
  { split_and!; [congruence|done|]. intros n. rewrite Ed. cbn. by intros e ?%elem_of_nil. }
  destruct (ds_run_holds fresh D0 w ltac:(lia) os [] _ s last Hs Hc) as (_ & _ & Hr).
  specialize (Hr name). rewrite names_after_born in Hr. cbn [app] in Hr. fold h in Hr.
  destruct (born name os), (od_get _ name); try done. by destruct Hr.
Qed.

Definition demo_sketch : sketch :=
  mk_sketch (mk_drift_config 0.5%float 4 2 1 1000000000) [] [].

(** Two windows of one dimension, with a value that [coarse_libm] makes the
    log refuse, another dimension, and a report. *)
Definition demo_drift_ops : list timed_op :=
  [mk_timed (OAdd "latency" 1%float) 0 (λ _, 10) 20;
   mk_timed (OBatch "latency" [2%float; 4%float]) 400000000 (λ _, 400000001) 400000002;
   mk_timed (OAdd "latency" 8%float) 500000000 (λ _, 500000001) 500000002;
   mk_timed (OAdd "latency" 5%float) 1100000000 (λ _, 1100000001) 1100000002;
   mk_timed (OAdd "errors" 3%float) 1200000000 (λ _, 1200000001) 1200000002;
   mk_timed (ODrift 0.1%float) 1300000000 (λ _, 1300000001) 1300000002].

Lemma drift_windows_exact_witness :
  let h := accepted (H := coarse_libm) demo_drift_ops demo_sketch in
  length h = 4%nat ∧
  match born "latency" demo_drift_ops,
        od_get (ds_dims (ds_run (H := coarse_libm) demo_drift_ops demo_sketch)) "latency" with
  | None, None => ∀ e, e ∈ h → en_name e ≠ "latency"
  | Some created, Some d =>
      let start := dm_window_start d in
      (∃ k, 0 ≤ k ∧ start = created + k * 1000000000) ∧ start ≤ 1300000002 ∧
      (∀ e, e ∈ h → en_name e = "latency" → en_time e < start + 1000000000) ∧
      slog_run (H := coarse_libm) (calls_in "latency" start (start + 1000000000) h) demo_plain
        = (Ok tt, dm_current d) ∧
      slog_run (H := coarse_libm) (calls_in "latency" (start - 1000000000) start h) demo_plain
        = (Ok tt, dm_previous d)
  | _, _ => False
  end.
Proof.
  split; [by vm_compute|].
  apply (drift_windows_exact (H := coarse_libm) (H0 := plain_parser) (WInt 1) 0.5%float 4 2 1
    demo_sketch demo_plain demo_drift_ops 0).
  - vm_compute. reflexivity.
  - vm_compute. reflexivity.
  - cbn. repeat split; discriminate.
Defined.
