(* ===== verification/Alerts.v ===== *)
(** * Drift alerts ([alerts.py])

    The rules and their validation, the statistics of an autopilot rule, the
    evaluation of all rules against the report of the drift sketch, and the
    delivery of the notifications.

    Proved: the engine, with its dictionaries of mutable states, sends exactly
    the notifications a function of the history says: per rule and dimension
    the first after [sustained_windows] violations in a row, then one when an
    hour has passed, and a recovery at the end of the run.

    Encoding JSON, signing and sending are parameters ([Webhook]); the thread
    that calls [evaluate] is left out: [evaluate] takes the lock for each of
    its two parts, and only the list of rules grows in between. *)

From Stdlib Require Import PrimFloat.
From S2P Require Import Prelude PyFloat FloatRound Hashing CountMin HyperLogLog DDSketch PyVal PyDict PyNum StreamLog Windowed Membership Drift.

#[local] Open Scope Z_scope.
#[local] Open Scope py_scope.
#[local] Set Warnings "-inexact-float".

(** ** Rules *)

Definition validate_webhook_url `{UrlSplit} (url : option string) : res unit :=
  match url with
  | None => Ok ()
  | Some url =>
      let? parsed := urlsplit url in
      if negb (bool_decide (url_scheme parsed = "http" ∨ url_scheme parsed = "https"))
         || negb (nonempty (url_hostname parsed))
      then Raise (ValueError "webhook_url must be an absolute HTTP(S) URL")
      else if nonempty (url_username parsed) || nonempty (url_password parsed)
      then Raise (ValueError "webhook_url must not contain credentials")
      else if negb (bool_decide (url_fragment parsed = ""))
      then Raise (ValueError "webhook_url must not contain a fragment")
      else Ok ()
  end.

Inductive alert_status := StOk | StPending | StFiring.

#[export] Instance alert_status_eq_dec : EqDecision alert_status.
Proof. solve_decision. Defined.

Record alert_rule := mk_alert_rule {
  ar_name : string;
  ar_dimension : string;
  ar_min_drift_pct : float;
  ar_min_samples : Z;
  ar_sustained_windows : Z;
  ar_direction_filter : option string;
  ar_webhook_url : option string;
  ar_webhook_secret : option string
}.

Record autopilot_rule := mk_autopilot_rule {
  ap_name : string;
  ap_dimension : string;
  ap_sensitivity : float;
  ap_min_samples : Z;
  ap_sustained_windows : Z;
  ap_direction_filter : option string;
  ap_webhook_url : option string;
  ap_webhook_secret : option string
}.

(** [type(n) is not int or n < low] *)
Definition int_at_least (low : Z) (n : pyval) (message : string) : res Z :=
  match as_int n with
  | Some z => if z <? low then Raise (ValueError message) else Ok z
  | None => Raise (ValueError message)
  end.

Definition check_direction (d : option string) : res unit :=
  fail_if (match d with
           | Some d => negb (bool_decide (d = "up" ∨ d = "down"))
           | None => false
           end) (ValueError "direction_filter must be 'up', 'down', or None").

(** [AlertRule(...)] with [__post_init__] *)
Definition new_alert_rule `{UrlSplit} (name dimension : string) (min_drift_pct : float)
    (min_samples sustained_windows : pyval) (direction_filter webhook_url webhook_secret : option string)
    : res alert_rule :=
  let? sustained := int_at_least 1 sustained_windows "sustained_windows must be > 0" in
  let? samples := int_at_least 0 min_samples "min_samples must be >= 0" in
  if negb (isfinite min_drift_pct) || flt min_drift_pct 0%float
  then Raise (ValueError "min_drift_pct must be finite and >= 0")
  else
    let? _ := check_direction direction_filter in
    let? _ := validate_webhook_url webhook_url in
    Ok (mk_alert_rule name dimension min_drift_pct samples sustained direction_filter
          webhook_url webhook_secret).

(** [AutoPilotRule(...)] with [__post_init__] *)
Definition new_autopilot_rule `{UrlSplit} (name dimension : string) (sensitivity : float)
    (min_samples sustained_windows : pyval) (direction_filter webhook_url webhook_secret : option string)
    : res autopilot_rule :=
  if negb (isfinite sensitivity) || fle sensitivity 0%float
  then Raise (ValueError "sensitivity must be a positive finite number")
  else
    let? samples := int_at_least 0 min_samples "min_samples must be >= 0" in
    let? sustained := int_at_least 1 sustained_windows "sustained_windows must be > 0" in
    let? _ := check_direction direction_filter in
    let? _ := validate_webhook_url webhook_url in
    Ok (mk_autopilot_rule name dimension sensitivity samples sustained direction_filter
          webhook_url webhook_secret).

Inductive rule := RAlert (r : alert_rule) | RAuto (r : autopilot_rule).

Definition rule_name (r : rule) : string :=
  match r with RAlert r => ar_name r | RAuto r => ap_name r end.
Definition rule_url (r : rule) : option string :=
  match r with RAlert r => ar_webhook_url r | RAuto r => ap_webhook_url r end.
Definition rule_secret (r : rule) : option string :=
  match r with RAlert r => ar_webhook_secret r | RAuto r => ap_webhook_secret r end.
Definition rule_dimension (r : rule) : string :=
  match r with RAlert r => ar_dimension r | RAuto r => ap_dimension r end.
Definition rule_sustained (r : rule) : Z :=
  match r with RAlert r => ar_sustained_windows r | RAuto r => ap_sustained_windows r end.

(** ** States *)

(** The fields [AlertState] and [CUSUMState] share. *)
Record alert_state := mk_alert_state {
  as_status : alert_status;
  as_violation_count : Z;
  as_last_fired_at : float
}.

Definition new_state : alert_state := mk_alert_state StOk 0 0%float.

Record welford := mk_welford {
  wf_n : Z;
  wf_mean : float;
  wf_M2 : float;
  wf_S_hi : float;
  wf_S_lo : float
}.

Definition new_welford : welford := mk_welford 0 0%float 0%float 0%float 0%float.

Record cusum_state := mk_cusum_state { cs_stats : welford; cs_alert : alert_state }.

Definition new_cusum_state : cusum_state := mk_cusum_state new_welford new_state.

(** [CUSUMState.update]: the new statistics, the deviation and the score. *)
Definition welford_update (x sensitivity : float) (c : welford) : welford * (float * float) :=
  let variance := if 1 <? wf_n c then (wf_M2 c / float_of_Z (wf_n c - 1))%float else 0%float in
  let std_dev := if flt 0%float variance then PrimFloat.sqrt variance else 0%float in
  let safe_std_dev := fmax std_dev 1e-5%float in
  let drift := (sensitivity / 2.0)%float in
  let z := ((x - wf_mean c) / safe_std_dev)%float in
  let started := 0 <? wf_n c in
  let hi := if started then fmax 0%float (wf_S_hi c + z - drift)%float else wf_S_hi c in
  let lo := if started then fmax 0%float (wf_S_lo c + PrimFloat.opp z - drift)%float else wf_S_lo c in
  let score := if started then (if flt 0%float z then hi else lo) else 0%float in
  if flt score (sensitivity * 2)%float then
    let n := wf_n c + 1 in
    let delta := (x - wf_mean c)%float in
    let mean := (wf_mean c + delta / float_of_Z n)%float in
    let delta2 := (x - mean)%float in
    (mk_welford n mean (wf_M2 c + delta * delta2)%float hi lo, (std_dev, score))
  else (mk_welford (wf_n c) (wf_mean c) (wf_M2 c) hi lo, (std_dev, score)).

Inductive rule_state := SAlert (s : alert_state) | SAuto (d : list (string * cusum_state)).

Record engine := mk_engine {
  en_rules : list rule;
  en_states : list (string * rule_state)
}.

Definition new_engine : engine := mk_engine [] [].
Definition set_states (d : list (string * rule_state)) (e : engine) : engine := mk_engine (en_rules e) d.

Definition add_rule (r : rule) : M engine unit :=
  mmodify (λ e, mk_engine (en_rules e ++ [r])
    (if od_has (en_states e) (rule_name r) then en_states e
     else od_set (rule_name r) (match r with RAuto _ => SAuto [] | RAlert _ => SAlert new_state end)
            (en_states e))).

(** ** Evaluation *)

(** A tuple of [webhooks_to_send]. *)
Record notice := mk_notice { no_rule : rule; no_result : option drift_result; no_recovery : bool }.

(** What follows [is_violating] in both branches: the new state, and the
    recovery flag of the notification, when there is one. *)
Definition transition (sustained : Z) (now : float) (violating : bool) (s : alert_state)
    : alert_state * option bool :=
  if violating then
    let count := as_violation_count s + 1 in
    if sustained <=? count then
      if negb (bool_decide (as_status s = StFiring)) then (mk_alert_state StFiring count now, Some false)
      else if fle 3600%float (now - as_last_fired_at s)%float
      then (mk_alert_state StFiring count now, Some false)
      else (mk_alert_state StFiring count (as_last_fired_at s), None)
    else (mk_alert_state StPending count (as_last_fired_at s), None)
  else
    (mk_alert_state StOk 0 (as_last_fired_at s),
     if bool_decide (as_status s = StFiring) then Some true else None).

Definition dir_match (filter : option string) (d : drift_result) : bool :=
  match filter with
  | None => true
  | Some f => bool_decide (f = "") || bool_decide (dr_direction d = f)
  end.

Definition alert_violating (r : alert_rule) (result : option drift_result) : bool :=
  match result with
  | None => false
  | Some d =>
      (ar_min_samples r <=? dr_current_samples d) && dir_match (ar_direction_filter r) d
      && fle (ar_min_drift_pct r) (dr_pct d)
  end.

(** The statistics are updated only by a result with enough samples. *)
Definition autopilot_step (r : autopilot_rule) (result : option drift_result) (c : welford)
    : welford * bool :=
  match result with
  | None => (c, false)
  | Some d =>
      if ap_min_samples r <=? dr_current_samples d then
        let '(c, (std_dev, score)) := welford_update (dr_current_p99 d) (ap_sensitivity r) c in
        (c, dir_match (ap_direction_filter r) d && flt (ap_sensitivity r) score)
      else (c, false)
  end.

(** One dimension of an autopilot rule. *)
Definition eval_dim (now : float) (drift_map : list (string * drift_result)) (r : autopilot_rule)
    (states : list (string * cusum_state)) (dim : string) : list (string * cusum_state) * list notice :=
  let state := default new_cusum_state (od_get states dim) in
  let result := od_get drift_map dim in
  let '(stats, violating) := autopilot_step r result (cs_stats state) in
  let '(alert, n) := transition (ap_sustained_windows r) now violating (cs_alert state) in
  (od_set dim (mk_cusum_state stats alert) states,
   match n with Some recovery => [mk_notice (RAuto r) result recovery] | None => [] end).

Fixpoint eval_dims (now : float) (drift_map : list (string * drift_result)) (r : autopilot_rule)
    (dims : list string) (states : list (string * cusum_state)) : list (string * cusum_state) * list notice :=
  match dims with
  | [] => (states, [])
  | dim :: dims =>
      let '(states, ns) := eval_dim now drift_map r states dim in
      let '(states, ns') := eval_dims now drift_map r dims states in
      (states, ns ++ ns')
  end.

Definition dims_to_eval (dimension : string) (drift_map : list (string * drift_result)) : list string :=
  if decide (dimension = "*") then od_keys drift_map else [dimension].

(** One rule; a state of the other kind under the name of the rule raises. *)
Definition eval_rule (now : float) (drift_map : list (string * drift_result)) (r : rule)
    : M engine (list notice) :=
  e <- mget ;;
  state <- mlift (match od_get (en_states e) (rule_name r) with
                  | Some s => Ok s
                  | None => Raise (KeyError "")
                  end) ;;
  match r, state with
  | RAuto a, SAuto states =>
      let '(states, ns) := eval_dims now drift_map a (dims_to_eval (ap_dimension a) drift_map) states in
      mmodify (set_states (od_set (rule_name r) (SAuto states) (en_states e))) ;;;
      mret ns
  | RAuto a, SAlert _ =>
      match dims_to_eval (ap_dimension a) drift_map with
      | [] => mret []
      | _ => mraise (TypeError "argument of type 'AlertState' is not iterable")
      end
  | RAlert a, SAlert state =>
      let result := od_get drift_map (ar_dimension a) in
      let '(state, n) := transition (ar_sustained_windows a) now (alert_violating a result) state in
      mmodify (set_states (od_set (rule_name r) (SAlert state) (en_states e))) ;;;
      mret (match n with Some recovery => [mk_notice r result recovery] | None => [] end)
  | RAlert _, SAuto _ => mraise (AttributeError "'dict' object has no attribute")
  end.

(** [{d["dimension"]: d for d in drifts}] *)
Definition drift_map_of (drifts : list drift_result) : list (string * drift_result) :=
  fold_left (λ m d, od_set (dr_dimension d) d m) drifts [].

(** The part of [evaluate] under the second lock. *)
Definition eval_rules (now : float) (drifts : list drift_result) (rules : list rule)
    : M engine (list notice) :=
  mcollect rules (eval_rule now (drift_map_of drifts)).

(** [min(l, default=0.0)] *)
Definition min_default (l : list float) : float :=
  match l with [] => 0%float | x :: l => fold_left fmin l x end.

Definition is_auto (r : rule) : bool := match r with RAuto _ => true | RAlert _ => false end.
Definition drift_pct_of (r : rule) : option float :=
  match r with RAlert r => Some (ar_min_drift_pct r) | RAuto _ => None end.

Definition min_thresh (rules : list rule) : float :=
  if existsb is_auto rules then 0%float else min_default (omap drift_pct_of rules).

Definition drift_threshold (rules : list rule) : float :=
  if flt 0%float (min_thresh rules) then (min_thresh rules / 100.0)%float else 0%float.

(** [evaluate] up to the deliveries. *)
Definition evaluate `{Libm} (now : float) (nows : string → Z) : M (engine * sketch) (list notice) :=
  w <- mget ;;
  let rules := en_rules (fst w) in
  if bool_decide (rules = []) then mret []
  else
    drifts <- zoom snd (λ s w, (fst w, s)) (drift (drift_threshold rules) nows) ;;
    zoom fst (λ e w, (e, snd w)) (eval_rules now drifts rules).

(** ** Deliveries *)

Record webhook_message := mk_webhook_message {
  wm_alert : string;
  wm_dimension : string;
  wm_status : string;
  wm_message : string;
  wm_details : option drift_result
}.

Class Webhook := {
  wh_dumps : webhook_message → string;
  wh_hmac_sha256 : string → string → string
}.

Record webhook_request := mk_webhook_request {
  wr_url : string;
  wr_data : string;
  wr_headers : list (string * string)
}.

Inductive delivery_event :=
  | EvFired
  | EvOpen (r : webhook_request)
  | EvSleep (seconds : Z)
  | EvFailed.

Section deliveries.
Context `{Webhook}.

(** The attempts from number [i] on; [answers] says which one succeeds. *)
Fixpoint attempts (n : nat) (i : Z) (answers : Z → bool) (r : webhook_request) : bool * list delivery_event :=
  match n with
  | O => (false, [])
  | S n =>
      if answers i then (true, [EvOpen r])
      else
        let pause := if i <? 2 then [EvSleep (2 ^ i)] else [] in
        let '(ok, evs) := attempts n (i + 1) answers r in
        (ok, EvOpen r :: pause ++ evs)
  end.

Definition send_webhook (r : rule) (payload : option drift_result) (is_recovery : bool)
    (answers : Z → bool) : bool * list delivery_event :=
  match rule_url r with
  | None | Some "" => (false, [])
  | Some url =>
      let data := wh_dumps (mk_webhook_message (rule_name r) (rule_dimension r)
        (if is_recovery then "RESOLVED" else "FIRING")
        (if is_recovery then "Statistical drift resolved."
         else "Statistical drift detected (Correlation does not imply causation).") payload) in
      let signed := match rule_secret r with
                    | None | Some "" => []
                    | Some secret => [("X-Signature", ("sha256=" ++ wh_hmac_sha256 secret data)%string)]
                    end in
      attempts 3 0 answers (mk_webhook_request url data (("Content-Type", "application/json") :: signed))
  end.

(** The loop at the end of [evaluate], with both callbacks set; [answers] has
    the outcomes for the notice of each position. *)
Fixpoint deliver (i : Z) (notices : list notice) (answers : Z → Z → bool) : list delivery_event :=
  match notices with
  | [] => []
  | n :: notices =>
      let '(ok, evs) := send_webhook (no_rule n) (no_result n) (no_recovery n) (answers i) in
      (if no_recovery n then [] else [EvFired]) ++ evs
      ++ (if negb ok && nonempty (rule_url (no_rule n)) then [EvFailed] else [])
      ++ deliver (i + 1) notices answers
  end.
End deliveries.

(** ** What the history asks for *)

Section reference.
Context (sustained : Z) (Hs : 1 ≤ sustained).

(** Observations of one rule and dimension, newest first: when, and whether
    the rule was violated. *)
Definition obs := list (float * bool).

(** How many of the newest observations are violations. *)
Fixpoint run_length (past : obs) : Z :=
  match past with
  | (_, true) :: past => run_length past + 1
  | _ => 0
  end.

(** The time of the newest alarm: a violation raises one when it completes
    [sustained] of them in a row, and later in the run when the alarm before
    it is an hour old. *)
Fixpoint last_alarm (past : obs) : float :=
  match past with
  | [] => 0%float
  | (now, violating) :: past =>
      if violating && ((run_length past + 1 =? sustained)
                       || (sustained <? run_length past + 1) && fle 3600%float (now - last_alarm past)%float)
      then now else last_alarm past
  end.

(** The notification an observation asks for, with its recovery flag. *)
Definition due (past : obs) (now : float) (violating : bool) : option bool :=
  if violating then
    if (run_length past + 1 =? sustained)
       || (sustained <? run_length past + 1) && fle 3600%float (now - last_alarm past)%float
    then Some false else None
  else if sustained <=? run_length past then Some true else None.

Definition state_of (past : obs) : alert_state :=
  let n := run_length past in
  mk_alert_state (if n =? 0 then StOk else if n <? sustained then StPending else StFiring) n
    (last_alarm past).

Lemma run_length_nonneg past : 0 ≤ run_length past.
Proof using. induction past as [|[? []] past IH]; cbn; lia. Qed.

Lemma transition_due past now violating :
  transition sustained now violating (state_of past)
  = (state_of ((now, violating) :: past), due past now violating).
Proof using Hs.
  pose proof (run_length_nonneg past) as Hn.
  unfold transition, state_of, due. cbn [as_status as_violation_count as_last_fired_at run_length last_alarm].
  set (n := run_length past) in *.
  generalize (fle 3600%float (now - last_alarm past)%float). intros hour.
  destruct violating; cbn [andb].
  - rewrite (proj2 (Z.eqb_neq (n + 1) 0)) by lia.
    destruct (Z.eqb_spec (n + 1) sustained) as [E|E], (Z.leb_spec sustained (n + 1)),
      (Z.ltb_spec (n + 1) sustained), (Z.ltb_spec sustained (n + 1)), (Z.eqb_spec n 0),
      (Z.ltb_spec n sustained); try lia; cbn; try done.
    all: by destruct hour.
  - destruct (Z.eqb_spec n 0), (Z.ltb_spec n sustained), (Z.leb_spec sustained n); try lia; done.
Qed.
End reference.

(** An evaluation: its time and the report of the sketch. *)
Definition evaluation : Type := float * list drift_result.

Definition result_at (dim : string) (ev : evaluation) : option drift_result :=
  od_get (drift_map_of (snd ev)) dim.

Definition alert_obs (r : alert_rule) (past : list evaluation) : obs :=
  map (λ ev, (fst ev, alert_violating r (result_at (ar_dimension r) ev))) past.

(** The evaluations, newest first, that look at a dimension. *)
Definition looks_at (r : autopilot_rule) (dim : string) (ev : evaluation) : Prop :=
  dim ∈ dims_to_eval (ap_dimension r) (drift_map_of (snd ev)).
#[local] Instance looks_at_dec r dim ev : Decision (looks_at r dim ev).
Proof. unfold looks_at. apply _. Defined.

Fixpoint stats_after (r : autopilot_rule) (dim : string) (past : list evaluation) : welford :=
  match past with
  | [] => new_welford
  | ev :: past => fst (autopilot_step r (result_at dim ev) (stats_after r dim past))
  end.

Fixpoint autopilot_obs (r : autopilot_rule) (dim : string) (past : list evaluation) : obs :=
  match past with
  | [] => []
  | ev :: past =>
      (fst ev, snd (autopilot_step r (result_at dim ev) (stats_after r dim past)))
      :: autopilot_obs r dim past
  end.

Definition seen (r : autopilot_rule) (dim : string) (past : list evaluation) : list evaluation :=
  filter (looks_at r dim) past.

(** The notifications of one rule at an evaluation, after the evaluations
    [past]. *)
Definition tell (r : rule) (result : option drift_result) (n : option bool) : list notice :=
  match n with Some recovery => [mk_notice r result recovery] | None => [] end.

(** The state an autopilot rule has for one dimension. *)
Definition dim_state (a : autopilot_rule) (dim : string) (past : list evaluation) : cusum_state :=
  mk_cusum_state (stats_after a dim past) (state_of (ap_sustained_windows a) (autopilot_obs a dim past)).

Definition dim_notices (a : autopilot_rule) (dim : string) (past : list evaluation) (ev : evaluation)
    : list notice :=
  tell (RAuto a) (result_at dim ev) (due (ap_sustained_windows a) (autopilot_obs a dim past) (fst ev)
    (snd (autopilot_step a (result_at dim ev) (stats_after a dim past)))).

Definition expected (r : rule) (past : list evaluation) (ev : evaluation) : list notice :=
  match r with
  | RAlert a =>
      let result := result_at (ar_dimension a) ev in
      tell r result (due (ar_sustained_windows a) (alert_obs a past) (fst ev) (alert_violating a result))
  | RAuto a =>
      concat (map (λ dim, dim_notices a dim (seen a dim past) ev)
        (dims_to_eval (ap_dimension a) (drift_map_of (snd ev))))
  end.

(** ** The engine *)

Inductive engine_op := AddRule (r : rule) | Evaluate (now : float) (drifts : list drift_result).

Fixpoint run_engine (os : list engine_op) : M engine (list (list notice)) :=
  match os with
  | [] => mret []
  | AddRule r :: os => add_rule r ;;; run_engine os
  | Evaluate now drifts :: os =>
      e <- mget ;;
      ns <- eval_rules now drifts (en_rules e) ;;
      nss <- run_engine os ;;
      mret (ns :: nss)
  end.

Definition rules_of (os : list engine_op) : list rule :=
  omap (λ o, match o with AddRule r => Some r | _ => None end) os.

(** The evaluations since the rule [name] was added, newest first; so are the
    operations [past]. *)
Fixpoint since (name : string) (past : list engine_op) : list evaluation :=
  match past with
  | [] => []
  | AddRule r :: past => if decide (rule_name r = name) then [] else since name past
  | Evaluate now drifts :: past => (now, drifts) :: since name past
  end.

Fixpoint expected_run (past os : list engine_op) : list (list notice) :=
  match os with
  | [] => []
  | AddRule r :: os => expected_run (AddRule r :: past) os
  | Evaluate now drifts :: os =>
      concat (map (λ r, expected r (since (rule_name r) past) (now, drifts)) (reverse (rules_of past)))
      :: expected_run (Evaluate now drifts :: past) os
  end.

Lemma drift_map_nodup ds : NoDup (od_keys (drift_map_of ds)).
Proof.
  unfold drift_map_of. assert (NoDup (od_keys (@nil (string * drift_result)))) as H by constructor.
  revert H. generalize (@nil (string * drift_result)). induction ds as [|d ds IH]; intros m Hm; cbn; [done|].
  apply IH. by apply od_set_nodup.
Qed.

Lemma dims_nodup dim ds : NoDup (dims_to_eval dim (drift_map_of ds)).
Proof.
  unfold dims_to_eval. case_decide; [apply drift_map_nodup|apply NoDup_singleton].
Qed.

Lemma eval_dim_run a now ds dim d past :
  1 ≤ ap_sustained_windows a →
  default new_cusum_state (od_get d dim) = dim_state a dim past →
  eval_dim now (drift_map_of ds) a d dim
  = (od_set dim (dim_state a dim ((now, ds) :: past)) d, dim_notices a dim past (now, ds)).
Proof.
  intros Hs Hd. unfold eval_dim. rewrite Hd. cbn [cs_stats cs_alert dim_state].
  change (od_get (drift_map_of ds) dim) with (result_at dim (now, ds)).
  unfold dim_notices, dim_state. cbn [stats_after autopilot_obs fst].
  destruct (autopilot_step a (result_at dim (now, ds)) (stats_after a dim past)) as [st v]. cbn [fst snd].
  by rewrite transition_due.
Qed.

(** The dimensions of an autopilot rule, one after the other. *)
Lemma eval_dims_run a now ds dims (past : string → list evaluation) :
  1 ≤ ap_sustained_windows a → NoDup dims → ∀ d,
  (∀ dim, dim ∈ dims → default new_cusum_state (od_get d dim) = dim_state a dim (past dim)) →
  ∃ d', eval_dims now (drift_map_of ds) a dims d
        = (d', concat (map (λ dim, dim_notices a dim (past dim) (now, ds)) dims)) ∧
    ∀ dim, default new_cusum_state (od_get d' dim)
           = if decide (dim ∈ dims) then dim_state a dim ((now, ds) :: past dim)
             else default new_cusum_state (od_get d dim).
Proof.
  intros Hs Hnd. induction Hnd as [|dim dims Hin Hnd IH]; intros d Hd; cbn [eval_dims].
  { exists d. split; [done|]. intros dim. by rewrite decide_False by set_solver. }
  rewrite (eval_dim_run _ _ _ _ _ (past dim)) by (done || apply Hd; by left).
  destruct (IH (od_set dim (dim_state a dim ((now, ds) :: past dim)) d)) as (d' & -> & Hd').
  { intros dim' Hin'. rewrite od_get_set_ne by congruence. apply Hd. by right. }
  exists d'. split; [done|]. intros dim'. rewrite Hd'.
  destruct (decide (dim' ∈ dims)) as [Hi|Hi]; [by rewrite decide_True by set_solver|].
  rewrite od_get_set. case_decide as E.
  - subst dim'. by rewrite decide_True by set_solver.
  - by rewrite decide_False by set_solver.
Qed.

(** The state a rule has after the evaluations [past]. *)
Definition repr (r : rule) (past : list evaluation) (s : rule_state) : Prop :=
  match r, s with
  | RAlert a, SAlert s => s = state_of (ar_sustained_windows a) (alert_obs a past)
  | RAuto a, SAuto d => ∀ dim, default new_cusum_state (od_get d dim) = dim_state a dim (seen a dim past)
  | _, _ => False
  end.

Lemma eval_rule_run now ds r e s past :
  1 ≤ rule_sustained r → od_get (en_states e) (rule_name r) = Some s → repr r past s →
  ∃ s', eval_rule now (drift_map_of ds) r e
        = (Ok (expected r past (now, ds)), set_states (od_set (rule_name r) s' (en_states e)) e) ∧
    repr r ((now, ds) :: past) s'.
Proof.
  intros Hs Es Hr. unfold eval_rule. rewrite (mbind_step mget _ e e e) by done.
  unfold mbind at 1, mlift. rewrite Es. destruct r as [a|a], s as [st|d]; try done; cbn [rule_sustained] in Hs.
  - cbn in Hr. subst st. rewrite transition_due by done.
    exists (SAlert (state_of (ar_sustained_windows a) (alert_obs a ((now, ds) :: past)))).
    split; [|done]. unfold mbind, mmodify, mret. cbn [rule_name expected]. done.
  - cbn in Hr.
    destruct (eval_dims_run a now ds (dims_to_eval (ap_dimension a) (drift_map_of ds))
      (λ dim, seen a dim past) Hs (dims_nodup _ _) d (λ dim _, Hr dim)) as (d' & -> & Hd').
    exists (SAuto d'). split; [done|]. cbn. intros dim. rewrite Hd'.
    unfold seen. destruct (decide (dim ∈ _)), (decide (looks_at a dim (now, ds))); done.
Qed.

Lemma eval_rules_run now ds (past : string → list evaluation) rules :
  NoDup (map rule_name rules) → Forall (λ r, 1 ≤ rule_sustained r) rules → ∀ e,
  (∀ r, r ∈ rules → ∃ s, od_get (en_states e) (rule_name r) = Some s ∧ repr r (past (rule_name r)) s) →
  ∃ d', eval_rules now ds rules e
        = (Ok (concat (map (λ r, expected r (past (rule_name r)) (now, ds)) rules)), set_states d' e) ∧
    (∀ r, r ∈ rules → ∃ s, od_get d' (rule_name r) = Some s ∧ repr r ((now, ds) :: past (rule_name r)) s) ∧
    (∀ name, name ∉ map rule_name rules → od_get d' name = od_get (en_states e) name).
Proof.
  intros Hnd Hs. induction Hs as [|r rules Hr Hs IH]; intros e He; unfold eval_rules; cbn [mcollect].
  { exists (en_states e). destruct e. split_and!; [done| |done]. intros r ?%elem_of_nil. done. }
  cbn in Hnd. apply NoDup_cons in Hnd as [Hin Hnd].
  destruct (He r ltac:(by left)) as (s & Es & Rs).
  destruct (eval_rule_run now ds r e s _ Hr Es Rs) as (s' & E1 & Rs').
  rewrite (mbind_step _ _ _ _ _ E1).
  set (e1 := set_states (od_set (rule_name r) s' (en_states e)) e).
  destruct (IH Hnd e1) as (d' & E2 & H1 & H2).
  { intros r' Hr'. destruct (He r' ltac:(by right)) as (s1 & Es1 & Rs1). exists s1.
    cbn. rewrite od_get_set_ne; [done|]. intros E. apply Hin. rewrite E. by apply list_elem_of_fmap_2. }
  unfold eval_rules in E2. rewrite (mbind_step _ _ _ _ _ E2).
  exists d'. split_and!; [done| |].
  - intros r' [->|Hr']%elem_of_cons; [|by apply H1].
    exists s'. rewrite H2 by done. cbn. by rewrite od_get_set_eq.
  - intros name Hn. cbn in Hn. apply not_elem_of_cons in Hn as [Hn1 Hn2].
    rewrite H2 by done. cbn. by rewrite od_get_set_ne.
Qed.

(** ** Runs *)

Lemma elem_of_rules_of os r : r ∈ rules_of os ↔ AddRule r ∈ os.
Proof.
  unfold rules_of. rewrite list_elem_of_omap. split.
  - intros ([r'|] & Ho & E); [|done]. by injection E as ->.
  - intros Ho. by exists (AddRule r).
Qed.

Lemma rules_of_add r os : rules_of (AddRule r :: os) = r :: rules_of os.
Proof. done. Qed.

(** The engine after the operations [past], newest first. *)
Record engine_ok (past : list engine_op) (e : engine) : Prop := {
  eo_rules : en_rules e = reverse (rules_of past);
  eo_states : ∀ r, r ∈ rules_of past →
    ∃ s, od_get (en_states e) (rule_name r) = Some s ∧ repr r (since (rule_name r) past) s;
  eo_fresh : ∀ name, name ∉ map rule_name (rules_of past) → od_get (en_states e) name = None
}.

Lemma add_rule_ok past e r :
  engine_ok past e → rule_name r ∉ map rule_name (rules_of past) →
  engine_ok (AddRule r :: past) (exec (add_rule r) e).
Proof.
  intros [Er Es Ef] Hn. unfold exec, add_rule, mmodify, od_has. rewrite (Ef _ Hn).
  split; cbn [snd en_rules en_states].
  - by rewrite rules_of_add, reverse_cons, Er.
  - intros r' Hr'. rewrite rules_of_add in Hr'. apply elem_of_cons in Hr' as [->|Hr'].
    + rewrite od_get_set_eq. eexists. split; [done|]. cbn. rewrite decide_True by done.
      by destruct r as [a|a].
    + destruct (Es r' Hr') as (s & E1 & E2). exists s.
      assert (rule_name r ≠ rule_name r') as Hne.
      { intros E. apply Hn. rewrite E. by apply list_elem_of_fmap_2. }
      rewrite od_get_set_ne by done. split; [done|]. cbn. by rewrite decide_False.
  - intros name Hname. rewrite rules_of_add in Hname. apply not_elem_of_cons in Hname as [H1 H2].
    rewrite od_get_set_ne by done. by apply Ef.
Qed.

Lemma evaluate_ok past e now ds :
  engine_ok past e → NoDup (map rule_name (rules_of past)) →
  Forall (λ r, 1 ≤ rule_sustained r) (rules_of past) →
  ∃ e', eval_rules now ds (en_rules e) e
        = (Ok (concat (map (λ r, expected r (since (rule_name r) past) (now, ds)) (reverse (rules_of past)))), e') ∧
    engine_ok (Evaluate now ds :: past) e'.
Proof.
  intros [Er Es Ef] Hnd Hs. rewrite Er.
  assert (map rule_name (reverse (rules_of past)) ≡ₚ map rule_name (rules_of past)) as Pm
    by apply Permutation_map, reverse_Permutation.
  destruct (eval_rules_run now ds (λ name, since name past) (reverse (rules_of past))) with (e := e)
    as (d' & E & H1 & H2).
  - by rewrite Pm.
  - by rewrite reverse_Permutation.
  - intros r Hr. apply Es. by apply elem_of_reverse.
  - exists (set_states d' e). split; [exact E|]. split; [exact Er| |].
    + intros r Hr. apply H1. by apply elem_of_reverse.
    + intros name Hname. cbn. rewrite H2; [by apply Ef|].
      intros Hi. apply Hname. by rewrite <- Pm.
Qed.

Lemma run_engine_expected os : ∀ past e,
  engine_ok past e →
  NoDup (map rule_name (rules_of past) ++ map rule_name (rules_of os)) →
  Forall (λ r, 1 ≤ rule_sustained r) (rules_of past ++ rules_of os) →
  result (run_engine os) e = Ok (expected_run past os).
Proof.
  induction os as [|[r|now ds] os IH]; intros past e He Hnd Hs; [done|..].
  - cbn [run_engine expected_run]. unfold result. rewrite (mbind_step _ _ e () (exec (add_rule r) e)) by done.
    rewrite rules_of_add in Hnd, Hs. apply (IH (AddRule r :: past)).
    + apply add_rule_ok; [done|]. apply NoDup_app in Hnd as (_ & Hd & _).
      intros Hr. by apply (Hd _ Hr); left.
    + rewrite rules_of_add. cbn. by rewrite Permutation_middle.
    + rewrite rules_of_add. cbn. by rewrite Permutation_middle.
  - cbn [run_engine expected_run].
    pose proof Hnd as (Hp & _ & _)%NoDup_app. pose proof Hs as [Hsp _]%Forall_app.
    destruct (evaluate_ok past e now ds He Hp Hsp) as (e' & E & He').
    specialize (IH (Evaluate now ds :: past) e' He' Hnd Hs).
    unfold result in *. rewrite (mbind_step mget _ e e e) by done.
    rewrite (mbind_step _ _ _ _ _ E). unfold mbind at 1.
    destruct (run_engine os e') as [[nss|] e'']; [|done]. cbn in IH. by injection IH as ->.
Qed.

(** ** Properties *)


Definition demo_up : alert_rule := mk_alert_rule "slow" "latency" 20%float 1 2 (Some "up") None None.
Definition demo_auto : autopilot_rule := mk_autopilot_rule "pilot" "*" 3%float 1 1 (Some "up") None None.
Definition demo_result (p99 pct : float) : drift_result :=
  mk_drift_result "latency" p99 10%float 5 5 1%float pct "up".

(** Two violations, an alarm, another an hour later, a recovery. *)
Definition demo_alert_ops : list engine_op :=
  [AddRule (RAlert demo_up); Evaluate 100%float [demo_result 30%float 200%float];
   AddRule (RAuto demo_auto); Evaluate 110%float [demo_result 10%float 30%float];
   Evaluate 3000%float [demo_result 10%float 30%float]; Evaluate 3710%float [demo_result 50%float 30%float];
   Evaluate 3720%float [demo_result 10%float 5%float]].


(** A fall of the 99th percentile is reported with a negative percentage, which
    no [min_drift_pct] accepts: a rule for falls stays silent. *)
Definition demo_down : alert_rule := mk_alert_rule "drop" "rate" 20%float 1 1 (Some "down") None None.

Lemma down_rule_is_silent :
  let fall := compare_windows "rate" 0.2%float 100 100 10%float 100%float in
  map (λ d, (dr_direction d, dr_pct d)) fall = [("down", (-90)%float)] ∧
  result (run_engine [AddRule (RAlert demo_down); Evaluate 1%float fall; Evaluate 2%float fall]) new_engine
  = Ok [[]; []].
Proof. split; vm_compute; reflexivity. Qed.

(** A rule for all dimensions looks only at those of the report: when the
    dimension of an alarm has no more events, the recovery is never sent. *)
Lemma wildcard_alarm_stays :
  let os := [AddRule (RAuto demo_auto); Evaluate 1%float [demo_result 10%float 30%float];
             Evaluate 2%float [demo_result 50%float 400%float]; Evaluate 3%float []; Evaluate 4%float []] in
  map (map no_recovery) (expected_run [] os) = [[]; [false]; []; []] ∧
  match od_get (en_states (exec (run_engine os) new_engine)) "pilot" with
  | Some (SAuto d) => as_status ∘ cs_alert <$> od_get d "latency" = Some StFiring
  | _ => False
  end.
Proof. split; vm_compute; reflexivity. Qed.

(** Two rules of different kinds under one name: [add_rule] accepts both, every
    evaluation raises, and the thread that calls it ends. *)
Lemma same_name_kills_evaluation :
  result (run_engine [AddRule (RAlert demo_up);
    AddRule (RAuto (mk_autopilot_rule "slow" "latency" 3%float 1 1 None None None));
    Evaluate 1%float []]) new_engine
  = Raise (TypeError "argument of type 'AlertState' is not iterable").
Proof. vm_compute. reflexivity. Qed.
