(* ===== verification/Compare.v ===== *)
(** * Comparing logs ([diff.py], [slo.py], [canary.py])

    The distributions of two logs and their distances, the objective derived
    from a baseline and its burn rate, and the canary analysis that combines
    them into a verdict.

    Proved: the loops over two cursors compute the distances between the
    distribution functions; the verdict is the worst of the metrics'; a canary
    that is its own baseline is safe.

    The order in which a dictionary of buckets is enumerated is an argument.
    The plot and the texts of the reasons are left out. *)

From Stdlib Require Import PrimFloat SpecFloat FloatOps FloatAxioms.
From S2P Require Import Prelude PyFloat FloatRound Hashing CountMin HyperLogLog DDSketch PyVal PyDict StreamLog Windowed Drift.

#[local] Open Scope Z_scope.
#[local] Open Scope py_scope.
#[local] Set Warnings "-inexact-float".

(** ** Distributions *)

(** The items of the two dictionaries of buckets, as [to_dict] lists them. *)
Record bucket_order := mk_bucket_order { bo_negative : list (Z * Z); bo_positive : list (Z * Z) }.

Definition orders (o : bucket_order) (s : slog) : Prop :=
  bo_negative o ≡ₚ map_to_list (dds_negative (sl_latency s)) ∧
  bo_positive o ≡ₚ map_to_list (dds_positive (sl_latency s)).

(** A stable sort by a float key, smallest first. *)
Fixpoint insert_by {A} (key : A → float) (x : A) (l : list A) : list A :=
  match l with
  | [] => [x]
  | y :: l' => if flt (key y) (key x) then y :: insert_by key x l' else x :: l
  end.
Definition sort_by {A} (key : A → float) (l : list A) : list A := foldr (insert_by key) [] l.

Notation cdf := (list (float * float)).

(** [cum / total_count] after each point. *)
Fixpoint accumulate (total : Z) (cum : float) (points : list (float * Z)) : cdf :=
  match points with
  | [] => []
  | (v, n) :: points =>
      let cum := (cum + float_of_Z n)%float in
      (v, (cum / float_of_Z total)%float) :: accumulate total cum points
  end.

Section distributions.
Context `{Libm}.

Definition bucket_value (gamma : float) (idx : Z) : float :=
  match py_pow gamma idx with
  | Ok p => (2.0 / (1.0 + gamma) * p)%float
  | Raise _ => if 0 <? idx then float_max else 0%float
  end.

Definition points_of (gamma : float) (zero_count : Z) (o : bucket_order) : list (float * Z) :=
  map (λ kv, ((- bucket_value gamma kv.1)%float, kv.2)) (bo_negative o)
  ++ (if 0 <? zero_count then [(0%float, zero_count)] else [])
  ++ map (λ kv, (bucket_value gamma kv.1, kv.2)) (bo_positive o).

Definition get_cdf (o : bucket_order) (s : slog) : res cdf :=
  let l := sl_latency s in
  if dds_count l =? 0 then Ok []
  else if feq (1.0 - dds_alpha l)%float 0%float
  then Raise (ZeroDivisionError "float division by zero")
  else
    let gamma := ((1.0 + dds_alpha l) / (1.0 - dds_alpha l))%float in
    Ok (accumulate (dds_count l) 0%float (sort_by fst (points_of gamma (dds_zero_count l) o))).
End distributions.

(** [sorted(list(set(l)))]: of equal values the first is kept. *)
Definition dedup_values (l : list float) : list float :=
  fold_left (λ acc x, if existsb (feq x) acc then acc else acc ++ [x]) l [].
Definition all_vals (c1 c2 : cdf) : list float :=
  sort_by (λ x, x) (dedup_values (c1.*1 ++ c2.*1)).

(** [while i < len(cdf) and cdf[i][0] <= v]: the probability reached, and
    what is left of the list. *)
Fixpoint advance (v p : float) (rest : cdf) : float * cdf :=
  match rest with
  | (x, q) :: rest' => if fle x v then advance v q rest' else (p, rest)
  | [] => (p, rest)
  end.

Fixpoint ks_loop (vals : list float) (p1 p2 : float) (c1 c2 : cdf) (max_diff : float) : float :=
  match vals with
  | [] => max_diff
  | v :: vals =>
      let '(p1, c1) := advance v p1 c1 in
      let '(p2, c2) := advance v p2 c2 in
      let diff := PrimFloat.abs (p1 - p2)%float in
      ks_loop vals p1 p2 c1 c2 (if flt max_diff diff then diff else max_diff)
  end.

Definition ks_statistic (c1 c2 : cdf) : float :=
  match c1, c2 with
  | [], [] => 0%float
  | [], _ | _, [] => 1%float
  | _, _ => ks_loop (all_vals c1 c2) 0%float 0%float c1 c2 0%float
  end.

Fixpoint w_loop (vals : list float) (prev_v p1 p2 : float) (c1 c2 : cdf) (w_dist : float) : float :=
  match vals with
  | [] => w_dist
  | v :: vals =>
      let w_dist := (w_dist + PrimFloat.abs (p1 - p2) * (v - prev_v))%float in
      let '(p1, c1) := advance v p1 c1 in
      let '(p2, c2) := advance v p2 c2 in
      w_loop vals v p1 p2 c1 c2 w_dist
  end.

Definition wasserstein_distance (c1 c2 : cdf) : float :=
  match all_vals c1 c2 with
  | [] => 0%float
  | (v :: _) as vals => w_loop vals v 0%float 0%float c1 c2 0%float
  end.

Record sketch_diff := mk_sketch_diff { sd_cdf1 : cdf; sd_cdf2 : cdf }.

Section comparison.
Context `{Libm}.

(** A log with the order of its dictionaries. *)
Definition stream : Type := bucket_order * slog.

Definition new_diff (a b : stream) : res sketch_diff :=
  let? c1 := get_cdf a.1 a.2 in
  let? c2 := get_cdf b.1 b.2 in
  Ok (mk_sketch_diff c1 c2).

Definition diff_ks (d : sketch_diff) : float := ks_statistic (sd_cdf1 d) (sd_cdf2 d).
Definition diff_wasserstein (d : sketch_diff) : float := wasserstein_distance (sd_cdf1 d) (sd_cdf2 d).

(** [StreamLog.anomaly_score] and [is_anomalous] *)
Definition anomaly_score (self baseline : stream) : res float :=
  let? d := new_diff self baseline in Ok (diff_ks d).

Definition is_anomalous (self baseline : stream) (sensitivity : float) : res bool :=
  if negb (flt 0%float sensitivity && fle sensitivity 1%float)
  then Raise (ValueError "sensitivity must be in (0, 1]")
  else let? score := anomaly_score self baseline in Ok (fle sensitivity score).

(** ** Objectives *)

Record slo_report := mk_slo_report {
  sr_target_percentile : float;
  sr_target_latency : float;
  sr_budget_percent : float;
  sr_current_events : Z;
  sr_current_errors : Z;
  sr_current_error_rate : float;
  sr_burn_rate : float;
  sr_is_alerting : bool
}.

Definition open_unit (x : float) : bool := flt 0%float x && flt x 1%float.

Definition slo_evaluate (current historical : slog) (target_percentile budget_percent : float)
    : res slo_report :=
  if negb (open_unit target_percentile)
  then Raise (ValueError "target_percentile must be in (0, 1)")
  else if negb (open_unit budget_percent)
  then Raise (ValueError "budget_percent must be in (0, 1)")
  else if dds_count (sl_latency historical) =? 0
  then Raise (ValueError "Baseline stream has no latency events to derive target.")
  else
    let? target_latency := slog_percentile historical target_percentile in
    let? current_errors := slog_count_greater_than current target_latency in
    let events := dds_count (sl_latency current) in
    let? error_rate := (if 0 <? events then py_truediv current_errors events else Ok 0%float) in
    let burn_rate := (error_rate / budget_percent)%float in
    Ok (mk_slo_report target_percentile target_latency budget_percent events current_errors
          error_rate burn_rate (flt 1%float burn_rate)).

Definition slo_recommend (historical : slog) (target_percentile budget_percent : float)
    : res (float * float * float) :=
  if negb (open_unit target_percentile)
  then Raise (ValueError "target_percentile must be in (0, 1)")
  else if negb (open_unit budget_percent)
  then Raise (ValueError "budget_percent must be in (0, 1)")
  else if dds_count (sl_latency historical) =? 0
  then Raise (ValueError "Baseline stream has no latency events to derive target.")
  else
    let? target_latency := slog_percentile historical target_percentile in
    Ok (target_percentile, target_latency, budget_percent).
End comparison.

(** ** Canaries *)

Inductive canary_verdict := VSafe | VWarning | VRollback.

#[export] Instance canary_verdict_eq_dec : EqDecision canary_verdict.
Proof. solve_decision. Defined.

(** A warning and a rollback value. *)
Record limits := mk_limits { li_warning : float; li_rollback : float }.

Record thresholds := mk_thresholds {
  th_p99_shift_percent : limits;
  th_error_rate_increase_percent : limits;
  th_slo_burn_rate : limits;
  th_ks_statistic : limits;
  th_wasserstein_ratio : limits;
  th_anomaly_score : limits
}.

Definition default_thresholds : thresholds :=
  mk_thresholds (mk_limits 10 35) (mk_limits 25 100) (mk_limits 1 4) (mk_limits 0.12 0.30)
    (mk_limits 0.20 0.60) (mk_limits 0.20 0.45)%float.

Definition check_limits (l : limits) : res unit :=
  if flt (li_warning l) 0%float || flt (li_rollback l) 0%float
  then Raise (ValueError "Canary threshold must be non-negative.")
  else if flt (li_rollback l) (li_warning l)
  then Raise (ValueError "Canary threshold rollback value must be >= warning value.")
  else Ok ().

(** [CanaryThresholds.__post_init__] *)
Definition check_thresholds (t : thresholds) : res unit :=
  res_fold (λ _ l, check_limits l)
    [th_p99_shift_percent t; th_error_rate_increase_percent t; th_slo_burn_rate t;
     th_ks_statistic t; th_wasserstein_ratio t; th_anomaly_score t] ().

Record canary_config := mk_canary_config {
  cc_target_percentile : float;
  cc_budget_percent : float;
  cc_min_latency_count : Z;
  cc_error_event_name : option string;
  cc_thresholds : thresholds
}.

Definition default_canary_config : canary_config :=
  mk_canary_config 0.995%float 0.005%float 1 None default_thresholds.

(** [CanaryAnalysisConfig.__post_init__] *)
Definition check_canary_config (c : canary_config) : res unit :=
  if negb (open_unit (cc_target_percentile c))
  then Raise (ValueError "target_percentile must be in the range (0, 1).")
  else if fle (cc_budget_percent c) 0%float
  then Raise (ValueError "budget_percent must be > 0.")
  else if cc_min_latency_count c <? 1
  then Raise (ValueError "min_latency_count must be >= 1.")
  else Ok ().

Definition percent_change (baseline candidate : float) : float :=
  if feq baseline 0%float then if feq candidate 0%float then 0%float else 100%float
  else ((candidate - baseline) / PrimFloat.abs baseline * 100)%float.

Definition rate (count denominator : Z) : res float :=
  if denominator <=? 0 then Ok 0%float else py_truediv count denominator.

Definition bounded_score (value warning rollback : float) : float :=
  if fle rollback warning || fle value warning then 0%float
  else fmin 1%float ((value - warning) / (rollback - warning))%float.

Definition verdict_order (v : canary_verdict) : Z :=
  match v with VSafe => 0 | VWarning => 1 | VRollback => 2 end.
Definition worst_verdict (current candidate : canary_verdict) : canary_verdict :=
  if verdict_order current <? verdict_order candidate then candidate else current.

Definition metric_verdict (value warning rollback : float) : canary_verdict :=
  if fle rollback value then VRollback else if fle warning value then VWarning else VSafe.

(** The reasons without their wording. *)
Inductive reason :=
  | RP99 (percent : float)
  | RKs (statistic : float)
  | RWasserstein (ratio : float)
  | RBurnRate (increase baseline candidate : float)
  | RAnomaly (score : float)
  | RErrors (percent : float)
  | RWithin.

(** A guardrail: the reason given when it is hit, its value and its limits. *)
Definition metric : Type := reason * float * limits.

Definition verdict_of (m : metric) : canary_verdict :=
  metric_verdict m.1.2 (li_warning m.2) (li_rollback m.2).
Definition score_of (m : metric) : float :=
  bounded_score m.1.2 (li_warning m.2) (li_rollback m.2).

(** The body repeated for each metric. *)
Definition judge (acc : canary_verdict * list reason) (m : metric) : canary_verdict * list reason :=
  if bool_decide (verdict_of m = VSafe) then acc
  else (worst_verdict acc.1 (verdict_of m), acc.2 ++ [m.1.1]).

(** [max(l)] of a non-empty list *)
Definition max_of (l : list float) : float :=
  match l with [] => 0%float | x :: l => fold_left fmax l x end.

Record events_report := mk_events_report {
  ev_baseline_count : Z;
  ev_candidate_count : Z;
  ev_baseline_rate : float;
  ev_candidate_rate : float;
  ev_increase_percent : float
}.

(** p50, p95 and p99 *)
Definition quantiles : Type := float * float * float.

Record canary_report := mk_canary_report {
  cr_verdict : canary_verdict;
  cr_confidence : float;
  cr_reasons : list reason;
  cr_latency_counts : Z * Z;
  cr_baseline : quantiles;
  cr_candidate : quantiles;
  cr_shift_percent : quantiles;
  cr_events : events_report;
  cr_ks : float;
  cr_wasserstein : float;
  cr_wasserstein_ratio : float;
  cr_target_latency : float;
  cr_baseline_burn_rate : float;
  cr_candidate_burn_rate : float;
  cr_burn_rate_increase : float;
  cr_anomaly_score : float
}.

Section canary.
Context `{Libm}.

Definition quantiles_of (s : slog) : res quantiles :=
  let? p50 := slog_p50 s in
  let? p95 := slog_p95 s in
  let? p99 := slog_p99 s in
  Ok (p50, p95, p99).

Definition error_events (cfg : canary_config) (baseline candidate : slog) : res events_report :=
  match cc_error_event_name cfg with
  | None | Some "" => Ok (mk_events_report 0 0 0 0 0)%float
  | Some name =>
      let? b := slog_event_count baseline (KStr name) in
      let? c := slog_event_count candidate (KStr name) in
      let? b_rate := rate b (Z.max (sl_total baseline) (dds_count (sl_latency baseline))) in
      let? c_rate := rate c (Z.max (sl_total candidate) (dds_count (sl_latency candidate))) in
      Ok (mk_events_report b c b_rate c_rate (percent_change b_rate c_rate))
  end.

Definition has_error_event (cfg : canary_config) : bool :=
  match cc_error_event_name cfg with None | Some "" => false | Some _ => true end.

Definition metrics_of (cfg : canary_config) (p99_shift ks wasserstein_ratio increase b_burn c_burn anomaly
    errors : float) : list metric :=
  let t := cc_thresholds cfg in
  [(RP99 p99_shift, p99_shift, th_p99_shift_percent t);
   (RKs ks, ks, th_ks_statistic t);
   (RWasserstein wasserstein_ratio, wasserstein_ratio, th_wasserstein_ratio t);
   (RBurnRate increase b_burn c_burn, increase, th_slo_burn_rate t);
   (RAnomaly anomaly, anomaly, th_anomaly_score t)]
  ++ (if has_error_event cfg then [(RErrors errors, errors, th_error_rate_increase_percent t)] else []).

Definition conclude (ms : list metric) : canary_verdict * float * list reason :=
  let '(verdict, reasons) := fold_left judge ms (VSafe, []) in
  (verdict, max_of (map score_of ms), match reasons with [] => [RWithin] | _ => reasons end).

Definition analyze (cfg : canary_config) (baseline candidate : stream) : res canary_report :=
  let b := baseline.2 in
  let c := candidate.2 in
  let b_count := dds_count (sl_latency b) in
  let c_count := dds_count (sl_latency c) in
  if b_count <? cc_min_latency_count cfg
  then Raise (ValueError "Baseline stream does not have enough latency data for canary analysis.")
  else if c_count <? cc_min_latency_count cfg
  then Raise (ValueError "Candidate stream does not have enough latency data for canary analysis.")
  else
    let? bq := quantiles_of b in
    let? cq := quantiles_of c in
    let '(b50, b95, b99) := bq in
    let '(c50, c95, c99) := cq in
    let p99_shift := percent_change b99 c99 in
    let? d := new_diff baseline candidate in
    let ks := diff_ks d in
    let wasserstein := diff_wasserstein d in
    let wasserstein_ratio := (wasserstein / fmax (PrimFloat.abs b99) 1.0)%float in
    let? anomaly := anomaly_score candidate baseline in
    let? b_slo := slo_evaluate b b (cc_target_percentile cfg) (cc_budget_percent cfg) in
    let? c_slo := slo_evaluate c b (cc_target_percentile cfg) (cc_budget_percent cfg) in
    let increase := fmax 0%float (sr_burn_rate c_slo - sr_burn_rate b_slo)%float in
    let? events := error_events cfg b c in
    let ms := metrics_of cfg p99_shift ks wasserstein_ratio increase (sr_burn_rate b_slo)
                (sr_burn_rate c_slo) anomaly (ev_increase_percent events) in
    let '(verdict, confidence, reasons) := conclude ms in
    Ok (mk_canary_report verdict confidence reasons (b_count, c_count) bq cq
          (percent_change b50 c50, percent_change b95 c95, p99_shift) events ks wasserstein
          wasserstein_ratio (sr_target_latency c_slo) (sr_burn_rate b_slo) (sr_burn_rate c_slo)
          increase anomaly).
End canary.

(** ** The distances *)

(** The distribution function: the probability of the last point not above. *)
Definition F (c : cdf) (v : float) : float :=
  default 0%float (snd <$> last (filter (λ p, fle p.1 v = true) c)).

(** The largest distance at the points of either distribution. *)
Definition ref_ks (c1 c2 : cdf) : float :=
  fold_left fmax (map (λ v, PrimFloat.abs (F c1 v - F c2 v)%float) (all_vals c1 c2)) 0%float.

(** The area between the two, from each point to the next. *)
Definition ref_wasserstein (c1 c2 : cdf) : float :=
  let vals := all_vals c1 c2 in
  fold_left (λ w uv, (w + PrimFloat.abs (F c1 uv.1 - F c2 uv.1) * (uv.2 - uv.1))%float)
    (zip vals (tail vals)) 0%float.

Definition ascending (l : list float) : Prop := StronglySorted (λ x y, fle x y = true) l.

Lemma ascending_app l x k : ascending (l ++ x :: k) → Forall (λ y, fle x y = true) k.
Proof.
  unfold ascending. induction l as [|y l IH]; cbn; intros Ha; apply StronglySorted_inv in Ha as [Ha Hf]; [done|].
  by apply IH.
Qed.

(** What the cursor has passed determines the probability it holds. *)
Definition cursor (c : cdf) (p : float) (rest : cdf) (passed : cdf) : Prop :=
  c = passed ++ rest ∧ p = default 0%float (snd <$> last passed).

Definition all_le (v : float) (l : cdf) : Prop := Forall (λ x, fle x.1 v = true) l.

Lemma F_passed passed rest v :
  all_le v passed → Forall (λ x, fle x.1 v = false) rest →
  F (passed ++ rest) v = default 0%float (snd <$> last passed).
Proof.
  intros Hp Hr. unfold F. rewrite filter_app.
  replace (filter (λ p, fle p.1 v = true) passed) with passed.
  2:{ induction Hp as [|x l Hx Hl IH]; [done|]. rewrite filter_cons, decide_True by done. by rewrite <- IH. }
  replace (filter (λ p, fle p.1 v = true) rest) with (@nil (float * float)); [by rewrite app_nil_r|].
  induction Hr as [|x l Hx Hl IH]; [done|]. rewrite filter_cons, decide_False; [done|congruence].
Qed.

Lemma advance_spec c v p rest passed :
  ascending c.*1 → cursor c p rest passed → all_le v passed →
  fst (advance v p rest) = F c v ∧
  ∃ passed', cursor c (fst (advance v p rest)) (snd (advance v p rest)) passed' ∧ all_le v passed'.
Proof.
  intros Ha. revert p passed. induction rest as [|[x q] rest IH]; intros p passed (Ec & ->) Hp; cbn [advance].
  - rewrite Ec, F_passed by done. split; [done|]. exists passed. by rewrite <- Ec.
  - destruct (fle x v) eqn:Ex.
    + apply (IH _ (passed ++ [(x, q)])).
      * split; [by rewrite <- app_assoc|by rewrite last_snoc].
      * apply Forall_app. split; [done|]. by constructor.
    + cbn [fst snd]. split; [|by exists passed]. rewrite Ec. symmetry. apply F_passed; [done|].
      rewrite Ec, fmap_app, fmap_cons in Ha. apply ascending_app in Ha.
      constructor; [done|]. rewrite Forall_fmap in Ha. eapply Forall_impl; [exact Ha|].
      intros y Hy. cbn in Hy. destruct (fle y.1 v) eqn:Ey; [|done].
      by rewrite (fle_trans _ _ _ Hy Ey) in Ex.
Qed.

Lemma all_le_mono v v' l : fle v v' = true → all_le v l → all_le v' l.
Proof. intros Hv Hl. eapply Forall_impl; [exact Hl|]. cbn. intros x Hx. by eapply fle_trans. Qed.

(** Both cursors stand right behind the points that are not above [v]. *)
Definition cursors (c1 c2 : cdf) (p1 p2 : float) (r1 r2 : cdf) (le : cdf → Prop) : Prop :=
  (∃ passed, cursor c1 p1 r1 passed ∧ le passed) ∧ (∃ passed, cursor c2 p2 r2 passed ∧ le passed).

Section walk.
Context (c1 c2 : cdf) (A1 : ascending c1.*1) (A2 : ascending c2.*1).

Lemma cursors_advance p1 p2 r1 r2 le v :
  cursors c1 c2 p1 p2 r1 r2 le → (∀ l, le l → all_le v l) →
  fst (advance v p1 r1) = F c1 v ∧ fst (advance v p2 r2) = F c2 v ∧
  cursors c1 c2 (fst (advance v p1 r1)) (fst (advance v p2 r2))
    (snd (advance v p1 r1)) (snd (advance v p2 r2)) (all_le v).
Proof using A1 A2.
  intros [(a & Ca & La) (b & Cb & Lb)] Hle.
  destruct (advance_spec c1 v p1 r1 a A1 Ca (Hle _ La)) as (-> & Ha).
  destruct (advance_spec c2 v p2 r2 b A2 Cb (Hle _ Lb)) as (-> & Hb).
  done.
Qed.

Lemma ks_loop_spec vals : ∀ p1 p2 r1 r2 le m,
  ascending vals → cursors c1 c2 p1 p2 r1 r2 le → (∀ v l, v ∈ vals → le l → all_le v l) →
  ks_loop vals p1 p2 r1 r2 m
  = fold_left fmax (map (λ v, PrimFloat.abs (F c1 v - F c2 v)%float) vals) m.
Proof using A1 A2.
  induction vals as [|v vals IH]; intros p1 p2 r1 r2 le m Hv Hc Hle; [done|].
  cbn [ks_loop map fold_left].
  destruct (cursors_advance _ _ _ _ _ v Hc (λ l, Hle v l ltac:(by left))) as (E1 & E2 & Hc').
  destruct (advance v p1 r1) as [q1 s1], (advance v p2 r2) as [q2 s2]. cbn [fst snd] in *. subst q1 q2.
  apply StronglySorted_inv in Hv as [Hv Hvs].
  rewrite (IH _ _ _ _ (all_le v)); [done|done|done|].
  intros u l Hu. apply all_le_mono. rewrite Forall_forall in Hvs. by apply Hvs.
Qed.

Lemma w_loop_spec vals : ∀ u r1 r2 w,
  ascending (u :: vals) → cursors c1 c2 (F c1 u) (F c2 u) r1 r2 (all_le u) →
  w_loop vals u (F c1 u) (F c2 u) r1 r2 w
  = fold_left (λ w uv, (w + PrimFloat.abs (F c1 uv.1 - F c2 uv.1) * (uv.2 - uv.1))%float)
      (zip (u :: vals) vals) w.
Proof using A1 A2.
  induction vals as [|v vals IH]; intros u r1 r2 w Hv Hc; [done|].
  cbn [w_loop zip_with fold_left fst snd].
  apply StronglySorted_inv in Hv as [Hv Huv]. apply Forall_cons in Huv as [Huv _].
  destruct (cursors_advance _ _ _ _ _ v Hc (λ l, all_le_mono u v l Huv)) as (E1 & E2 & Hc').
  destruct (advance v (F c1 u) r1) as [q1 s1], (advance v (F c2 u) r2) as [q2 s2].
  cbn [fst snd] in *. subst q1 q2. by rewrite IH.
Qed.
End walk.

Lemma elem_of_insert_by {A} (key : A → float) x l y : y ∈ insert_by key x l ↔ y = x ∨ y ∈ l.
Proof.
  induction l as [|z l IH]; cbn [insert_by]; [set_solver|]. destruct (flt (key z) (key x)); [|set_solver].
  rewrite !elem_of_cons, IH. naive_solver.
Qed.

Lemma elem_of_sort_by {A} (key : A → float) l y : y ∈ sort_by key l ↔ y ∈ l.
Proof.
  induction l as [|x l IH]; cbn; [done|]. by rewrite elem_of_insert_by, IH, elem_of_cons.
Qed.

Lemma insert_by_ascending {A} (key : A → float) x l :
  num (key x) → Forall (λ y, num (key y)) l → ascending (key <$> l) → ascending (key <$> insert_by key x l).
Proof.
  unfold ascending. intros Hx. induction 1 as [|y l Hy Hl IH]; intros Ha; cbn [insert_by].
  { by repeat constructor. }
  rewrite fmap_cons in Ha. apply StronglySorted_inv in Ha as [Ha Hya].
  destruct (flt (key y) (key x)) eqn:E; rewrite !fmap_cons.
  - constructor; [by apply IH|]. rewrite Forall_fmap in *. apply Forall_forall. intros z Hz.
    apply elem_of_insert_by in Hz as [->|Hz]; [by apply flt_fle|].
    rewrite Forall_forall in Hya. by apply Hya.
  - apply not_flt in E; [|done..]. constructor; [by constructor|].
    constructor; [done|]. eapply Forall_impl; [exact Hya|]. intros z Hz. cbn in Hz. by eapply fle_trans.
Qed.

Lemma sort_by_ascending {A} (key : A → float) l :
  Forall (λ y, num (key y)) l → ascending (key <$> sort_by key l).
Proof.
  induction 1 as [|x l Hx Hl IH]; cbn [sort_by foldr]; [constructor|].
  apply insert_by_ascending; [done| |done]. apply Forall_forall. intros y Hy.
  rewrite Forall_forall in Hl. apply Hl. by apply (elem_of_sort_by key).
Qed.

Lemma accumulate_values total cum ps : (accumulate total cum ps).*1 = ps.*1.
Proof. revert cum. induction ps as [|[v n] ps IH]; intros cum; cbn; [done|]. f_equal. apply IH. Qed.

Lemma elem_of_dedup l x : x ∈ dedup_values l → x ∈ l.
Proof.
  unfold dedup_values. assert (∀ acc, x ∈ fold_left (λ acc x, if existsb (feq x) acc then acc else acc ++ [x]) l acc →
    x ∈ acc ∨ x ∈ l) as H.
  { induction l as [|y l IH]; intros acc; cbn; [by left|].
    intros [Hx|Hx]%IH; [|set_solver]. destruct (existsb _ _); set_solver. }
  intros [Hx|Hx]%H; [by apply elem_of_nil in Hx|done].
Qed.

Lemma all_vals_ok c1 c2 (P : float → Prop) :
  Forall P c1.*1 → Forall P c2.*1 → Forall P (all_vals c1 c2).
Proof.
  intros H1 H2. apply Forall_forall. intros x Hx. apply elem_of_sort_by, elem_of_dedup in Hx.
  rewrite Forall_forall in H1, H2. apply elem_of_app in Hx as [Hx|Hx]; auto.
Qed.

Lemma all_vals_ascending c1 c2 :
  Forall num c1.*1 → Forall num c2.*1 → ascending (all_vals c1 c2).
Proof.
  intros H1 H2. pose proof (sort_by_ascending (λ x, x) (dedup_values (c1.*1 ++ c2.*1))) as H.
  rewrite list_fmap_id in H. apply H. apply Forall_forall. intros x Hx%elem_of_dedup.
  rewrite Forall_forall in H1, H2. apply elem_of_app in Hx as [Hx|Hx]; auto.
Qed.

Lemma get_cdf_ascending `{Libm} o s c :
  get_cdf o s = Ok c → Forall isfinite c.*1 → ascending c.*1.
Proof.
  unfold get_cdf. destruct (_ =? 0); [by intros [= <-]; constructor|].
  destruct (feq _ _); [done|]. intros [= <-]. rewrite accumulate_values.
  intros Hf. apply sort_by_ascending. rewrite Forall_fmap in Hf.
  apply Forall_forall. intros x Hx. apply isfinite_num.
  rewrite Forall_forall in Hf. apply Is_true_eq_true, Hf. by apply elem_of_sort_by.
Qed.

(** ** Zero or not a number *)

(** What a difference of equal floats can be. *)
Definition zn (x : float) : Prop :=
  match Prim2SF x with S754_zero _ | S754_nan => True | _ => False end.

Lemma sub_self x : PrimFloat.sub x x = if isfinite x then 0%float else nan.
Proof.
  apply Prim2SF_inj. rewrite FloatAxioms.sub_spec. unfold SF64sub.
  destruct (isfinite x) eqn:Ex.
  - apply isfinite_SF in Ex as [[s E]|(s & m & e & E)]; rewrite E; cbn [SFsub]; [by destruct s|].
    by rewrite Z.sub_diag.
  - destruct (Prim2SF x) as [s|s| |s m e] eqn:E; cbn [SFsub].
    + by rewrite (proj2 (isfinite_SF x)) in Ex by eauto.
    + by destruct s.
    + done.
    + by rewrite (proj2 (isfinite_SF x)) in Ex by eauto 8.
Qed.

Lemma zn_sub_self x : zn (x - x)%float.
Proof. rewrite sub_self. by destruct (isfinite x). Qed.

Lemma zn_abs x : zn x → zn (PrimFloat.abs x).
Proof. unfold zn. rewrite FloatAxioms.abs_spec. by destruct (Prim2SF x). Qed.

Lemma zn_mul x y : zn x → zn (x * y)%float.
Proof.
  unfold zn. rewrite FloatAxioms.mul_spec. unfold SF64mul.
  by destruct (Prim2SF x), (Prim2SF y).
Qed.

Lemma zn_div x y : zn x → zn (x / y)%float.
Proof.
  unfold zn. rewrite FloatAxioms.div_spec. unfold SF64div.
  by destruct (Prim2SF x), (Prim2SF y).
Qed.

Lemma zn_add x y : zn x → zn y → zn (x + y)%float.
Proof.
  unfold zn. rewrite FloatAxioms.add_spec. unfold SF64add.
  destruct (Prim2SF x) as [[]| | |], (Prim2SF y) as [[]| | |]; done.
Qed.

Lemma zn_below w x : zn x → flt 0%float w = true → fle w x = false.
Proof.
  intros Hx Hw. destruct (fle w x) eqn:E; [|done].
  pose proof (flt_fle_trans _ _ _ Hw E) as H0. unfold flt in H0.
  rewrite FloatAxioms.ltb_spec in H0. unfold zn in Hx.
  destruct (Prim2SF x) as [[]| | |] eqn:Ex; done.
Qed.

Lemma zn_not_pos x : zn x → flt 0%float x = false.
Proof.
  intros Hx. unfold flt. rewrite FloatAxioms.ltb_spec. unfold zn in Hx.
  by destruct (Prim2SF x) as [[]| | |].
Qed.

Lemma zn_fmax x : zn x → fmax 0%float x = 0%float.
Proof. intros Hx. unfold fmax. by rewrite zn_not_pos. Qed.

(** ** A distribution and itself *)

Lemma ks_loop_self vals p c : ks_loop vals p p c c 0%float = 0%float.
Proof.
  revert p c. induction vals as [|v vals IH]; intros p c; cbn [ks_loop]; [done|].
  destruct (advance v p c) as [q r]. by rewrite zn_not_pos by apply zn_abs, zn_sub_self.
Qed.

Lemma ks_self c : ks_statistic c c = 0%float.
Proof. unfold ks_statistic. destruct c; [done|]. apply ks_loop_self. Qed.

Lemma w_loop_self vals u p c w : zn w → zn (w_loop vals u p p c c w).
Proof.
  revert u p c w. induction vals as [|v vals IH]; intros u p c w Hw; cbn [w_loop]; [done|].
  destruct (advance v p c) as [q r]. apply IH.
  apply zn_add; [done|]. by apply zn_mul, zn_abs, zn_sub_self.
Qed.

Lemma wasserstein_self c : zn (wasserstein_distance c c).
Proof. unfold wasserstein_distance. destruct (all_vals c c); [done|]. by apply w_loop_self. Qed.

Lemma percent_change_self x : zn (percent_change x x).
Proof.
  unfold percent_change. destruct (feq x 0%float); [done|].
  by apply zn_mul, zn_div, zn_sub_self.
Qed.

(** ** Verdicts *)

Definition limits_ok (l : limits) : Prop :=
  flt (li_warning l) 0%float = false ∧ flt (li_rollback l) 0%float = false ∧
  flt (li_rollback l) (li_warning l) = false.

Lemma check_limits_ok l : check_limits l = Ok tt → limits_ok l.
Proof.
  unfold check_limits, limits_ok.
  destruct (flt (li_warning l) 0%float), (flt (li_rollback l) 0%float), (flt (li_rollback l) _); done.
Qed.

Lemma check_thresholds_ok t :
  check_thresholds t = Ok tt →
  Forall limits_ok [th_p99_shift_percent t; th_error_rate_increase_percent t; th_slo_burn_rate t;
    th_ks_statistic t; th_wasserstein_ratio t; th_anomaly_score t].
Proof.
  unfold check_thresholds. generalize [th_p99_shift_percent t; th_error_rate_increase_percent t;
    th_slo_burn_rate t; th_ks_statistic t; th_wasserstein_ratio t; th_anomaly_score t]. intros l.
  induction l as [|x l IH]; cbn; intros E; [constructor|].
  destruct (check_limits x) as [[]|] eqn:Ex; [|done]. cbn in E.
  constructor; [by apply check_limits_ok|auto].
Qed.

Lemma verdict_safe_zn value l :
  zn value → limits_ok l → flt 0%float (li_warning l) = true →
  metric_verdict value (li_warning l) (li_rollback l) = VSafe.
Proof.
  intros Hv (_ & _ & Hl) Hw. unfold metric_verdict. rewrite (zn_below (li_warning l)) by done.
  destruct (fle (li_rollback l) value) eqn:E; [|done].
  pose proof (fle_num_l _ _ E) as Nr. pose proof (flt_num_r _ _ Hw) as Nw.
  apply not_flt in Hl; [|done..].
  by rewrite (zn_below (li_rollback l)) in E by (done || by eapply flt_fle_trans).
Qed.

Lemma judge_safe ms acc :
  Forall (λ m, verdict_of m = VSafe) ms → fold_left judge ms acc = acc.
Proof.
  intros H. revert acc. induction H as [|m ms Hm _ IH]; intros acc; cbn; [done|].
  unfold judge at 2. by rewrite bool_decide_true.
Qed.

Definition hit (m : metric) : bool := negb (bool_decide (verdict_of m = VSafe)).

Lemma judge_fold ms : ∀ acc,
  verdict_order (fold_left judge ms acc).1
  = fold_right Z.max (verdict_order acc.1) (map (λ m, verdict_order (verdict_of m)) ms) ∧
  (fold_left judge ms acc).2 = acc.2 ++ map (λ m, m.1.1) (List.filter hit ms).
Proof.
  induction ms as [|m ms IH]; intros acc; cbn [fold_left map fold_right List.filter].
  { by rewrite app_nil_r. }
  destruct (IH (judge acc m)) as [-> ->]. unfold judge, hit.
  assert (∀ v l, fold_right Z.max (verdict_order (worst_verdict acc.1 v)) l
    = Z.max (verdict_order v) (fold_right Z.max (verdict_order acc.1) l)) as Hmax.
  { intros v l. induction l as [|x l IHl]; cbn [fold_right]; [|lia].
    unfold worst_verdict. destruct (Z.ltb_spec (verdict_order acc.1) (verdict_order v)); lia. }
  assert (0 ≤ fold_right Z.max (verdict_order acc.1) (map (λ m, verdict_order (verdict_of m)) ms)) as Hnn.
  { clear. induction ms as [|x l IHl]; cbn [fold_right map]; [by destruct acc.1|]. lia. }
  destruct (verdict_of m); cbn [bool_decide negb verdict_order].
  - rewrite bool_decide_true by done. cbn. split; [lia|done].
  - rewrite bool_decide_false by done. cbn [fst snd negb map]. rewrite Hmax, <- app_assoc. done.
  - rewrite bool_decide_false by done. cbn [fst snd negb map]. rewrite Hmax, <- app_assoc. done.
Qed.

(** C29. Distances of distributions.  For two logs whose buckets have finite
    values, the loops that move a cursor along each distribution compute the
    distances between the distribution functions: the Kolmogorov-Smirnov
    statistic is the largest difference at a point of either, and the
    Wasserstein distance is the sum, in increasing order of the points, of the
    differences times the lengths of the steps. *)
Theorem diff_is_cdf_distance `{Libm} a b d :
  new_diff a b = Ok d →
  Forall isfinite (sd_cdf1 d).*1 → Forall isfinite (sd_cdf2 d).*1 →
  (sd_cdf1 d ≠ [] → sd_cdf2 d ≠ [] → diff_ks d = ref_ks (sd_cdf1 d) (sd_cdf2 d)) ∧
  diff_wasserstein d = ref_wasserstein (sd_cdf1 d) (sd_cdf2 d).
Proof.
  unfold new_diff. destruct (get_cdf a.1 a.2) as [c1|] eqn:E1; [|done].
  destruct (get_cdf b.1 b.2) as [c2|] eqn:E2; [|done]. cbn [res_bind]. intros [= <-].
  cbn [sd_cdf1 sd_cdf2]. intros F1 F2.
  pose proof (get_cdf_ascending _ _ _ E1 F1) as A1. pose proof (get_cdf_ascending _ _ _ E2 F2) as A2.
  assert (∀ l, Forall isfinite l → Forall num l) as Hnum.
  { intros l Hl. eapply Forall_impl; [exact Hl|]. intros x Hx. by apply isfinite_num, Is_true_eq_true. }
  pose proof (all_vals_ascending c1 c2 (Hnum _ F1) (Hnum _ F2)) as Av.
  assert (cursors c1 c2 0%float 0%float c1 c2 (λ l, l = [])) as C0 by (split; exists []; done).
  split.
  - intros N1 N2. unfold diff_ks, ref_ks. cbn [sd_cdf1 sd_cdf2].
    transitivity (ks_loop (all_vals c1 c2) 0%float 0%float c1 c2 0%float).
    { destruct c1, c2; done. }
    eapply ks_loop_spec; [done..|]. intros v l _ ->. constructor.
  - unfold diff_wasserstein, wasserstein_distance, ref_wasserstein. cbn [sd_cdf1 sd_cdf2].
    pose proof (all_vals_ok c1 c2 _ F1 F2) as Fv.
    destruct (all_vals c1 c2) as [|v vals].
    { reflexivity. }
    cbn [w_loop tail].
    apply Forall_cons in Fv as [Fv _]. apply Is_true_eq_true in Fv.
    rewrite (sub_self v), Fv. change (0 + PrimFloat.abs (0 - 0) * 0)%float with 0%float.
    destruct (cursors_advance c1 c2 A1 A2 _ _ _ _ _ v C0 (λ l E, ltac:(rewrite E; constructor))) as (Q1 & Q2 & Hc).
    destruct (advance v 0%float c1) as [q1 r1], (advance v 0%float c2) as [q2 r2].
    cbn [fst snd] in *. subst q1 q2. by apply w_loop_spec.
Qed.

Lemma fold_max_le l x n : fold_right Z.max x l ≤ n ↔ x ≤ n ∧ ∀ y, y ∈ l → y ≤ n.
Proof.
  induction l as [|y l IH]; cbn [fold_right].
  - split; [|by intros []]. intros. split; [done|]. by intros y ?%elem_of_nil.
  - rewrite Z.max_lub_iff, IH. split.
    + intros (H1 & H2 & H3). split; [done|]. by intros z [->|?]%elem_of_cons; auto.
    + intros (H1 & H2). split_and!; [apply H2; by left|done|]. intros z Hz. apply H2. by right.
Qed.

Lemma verdict_safe m :
  verdict_of m = VSafe ↔ fle (li_warning m.2) m.1.2 = false ∧ fle (li_rollback m.2) m.1.2 = false.
Proof. unfold verdict_of, metric_verdict. destruct (fle (li_rollback m.2) m.1.2), (fle (li_warning m.2) m.1.2); naive_solver. Qed.

Lemma verdict_rollback m : verdict_of m = VRollback ↔ fle (li_rollback m.2) m.1.2 = true.
Proof. unfold verdict_of, metric_verdict. destruct (fle (li_rollback m.2) m.1.2), (fle (li_warning m.2) m.1.2); naive_solver. Qed.

(** The verdict and the reasons of a list of metrics. *)
Lemma conclude_spec ms v confidence reasons :
  conclude ms = (v, confidence, reasons) →
  (v = VRollback ↔ ∃ m, m ∈ ms ∧ verdict_of m = VRollback) ∧
  (v = VSafe ↔ ∀ m, m ∈ ms → verdict_of m = VSafe) ∧
  reasons = (if decide (v = VSafe) then [RWithin] else map (λ m, m.1.1) (List.filter hit ms)).
Proof.
  unfold conclude. destruct (judge_fold ms (VSafe, [])) as [Hv Hr].
  destruct (fold_left judge ms (VSafe, [])) as [v' rs]. cbn [fst snd app] in Hv, Hr.
  intros [= <- _ <-].
  assert (∀ n, verdict_order v' ≤ n ↔ 0 ≤ n ∧ ∀ m, m ∈ ms → verdict_order (verdict_of m) ≤ n) as Hle.
  { intros n. rewrite Hv, fold_max_le. cbn. split.
    - intros [H1 H2]. split; [done|]. intros m Hm. apply H2. by eapply list_elem_of_fmap_2'.
    - intros [H1 H2]. split; [done|]. intros y (m & -> & Hm)%list_elem_of_fmap. by apply H2. }
  assert (v' = VSafe ↔ ∀ m, m ∈ ms → verdict_of m = VSafe) as Hsafe.
  { transitivity (verdict_order v' ≤ 0); [destruct v'; cbn; split; (done || lia)|].
    rewrite Hle. split; [|by intros H2; split; [done|]; intros m Hm; rewrite H2].
    intros [_ H2] m Hm. specialize (H2 m Hm). destruct (verdict_of m); cbn in H2; (done || lia). }
  split_and!; [|done|].
  - transitivity (¬ verdict_order v' ≤ 1); [destruct v'; cbn; split; (done || lia)|]. rewrite Hle. split.
    + intros Hn. destruct (decide (Exists (λ m, verdict_of m = VRollback) ms)) as [Hx|Hx];
        [by apply Exists_exists in Hx as (m & ? & ?); exists m|].
      destruct Hn. split; [done|]. intros m Hm. rewrite <- Forall_Exists_neg, Forall_forall in Hx.
      specialize (Hx m Hm). destruct (verdict_of m); cbn; (done || lia).
    + intros (m & Hm & Em) [_ H2]. specialize (H2 m Hm). rewrite Em in H2. cbn in H2. lia.
  - subst rs. destruct (decide (v' = VSafe)) as [E|E].
    + replace (List.filter hit ms) with (@nil metric); [done|].
      pose proof (proj1 Hsafe E) as Ha. clear -Ha. symmetry.
      induction ms as [|m ms IH]; cbn; [done|]. unfold hit at 1.
      rewrite bool_decide_true by (apply Ha; by left). apply IH. intros. apply Ha. by right.
    + destruct (List.filter hit ms) as [|m0 l] eqn:Em; [|done]. destruct E. apply Hsafe. intros m Hm.
      destruct (verdict_of m) eqn:Ev; [done|..].
      all: assert (m ∈ List.filter hit ms) as Hf by
        (apply list_elem_of_In, filter_In; split; [by apply list_elem_of_In|]; unfold hit; by rewrite Ev).
      all: rewrite Em in Hf; by apply elem_of_nil in Hf.
Qed.

(** The verdict.  A canary report recommends a rollback exactly when some
    metric has reached its rollback value, is safe exactly when no metric has
    reached a limit, and gives the reasons of exactly the metrics that have
    reached one, in order; for a safe canary the one reason is that it stayed
    within the guardrails. *)
Theorem canary_verdict_is_worst `{Libm} cfg baseline candidate r :
  analyze cfg baseline candidate = Ok r →
  let ms := metrics_of cfg (cr_shift_percent r).2 (cr_ks r) (cr_wasserstein_ratio r)
              (cr_burn_rate_increase r) (cr_baseline_burn_rate r) (cr_candidate_burn_rate r)
              (cr_anomaly_score r) (ev_increase_percent (cr_events r)) in
  (cr_verdict r = VRollback ↔ ∃ m, m ∈ ms ∧ fle (li_rollback m.2) m.1.2 = true) ∧
  (cr_verdict r = VSafe ↔
     ∀ m, m ∈ ms → fle (li_warning m.2) m.1.2 = false ∧ fle (li_rollback m.2) m.1.2 = false) ∧
  cr_reasons r = (if decide (cr_verdict r = VSafe) then [RWithin]
                  else map (λ m, m.1.1) (List.filter hit ms)).
Proof.
  unfold analyze. destruct (_ <? _); [done|]. destruct (_ <? _); [done|].
  destruct (quantiles_of baseline.2) as [[[b50 b95] b99]|]; [|done].
  destruct (quantiles_of candidate.2) as [[[c50 c95] c99]|]; [|done]. cbn [res_bind].
  destruct (new_diff baseline candidate) as [d|]; [|done]. cbn [res_bind].
  destruct (anomaly_score candidate baseline) as [an|]; [|done]. cbn [res_bind].
  destruct (slo_evaluate baseline.2 _ _ _) as [bs|]; [|done]. cbn [res_bind].
  destruct (slo_evaluate candidate.2 _ _ _) as [cs|]; [|done]. cbn [res_bind].
  destruct (error_events _ _ _) as [ev|]; [|done]. cbn [res_bind].
  destruct (conclude _) as [[v cf] rs] eqn:Ec. intros [= <-].
  destruct (conclude_spec _ _ _ _ Ec) as (H1 & H2 & H3).
  cbn [cr_shift_percent cr_ks cr_wasserstein_ratio cr_burn_rate_increase cr_baseline_burn_rate
    cr_candidate_burn_rate cr_anomaly_score cr_events cr_verdict cr_reasons snd].
  cbv zeta. split_and!; [| |exact H3].
  - rewrite H1. split; intros (m & Hm & Em); exists m; split; (done || by apply verdict_rollback).
  - rewrite H2. split; intros Hm m Hi; by apply verdict_safe, Hm.
Qed.

Lemma error_events_self `{Libm} cfg s ev :
  error_events cfg s s = Ok ev → zn (ev_increase_percent ev).
Proof.
  unfold error_events. destruct (cc_error_event_name cfg) as [[|a name]|]; [by intros [= <-]| |by intros [= <-]].
  destruct (slog_event_count s _) as [n|]; [|done]. cbn [res_bind].
  destruct (rate n _) as [x|]; [|done]. cbn [res_bind]. intros [= <-]. apply percent_change_self.
Qed.

(** The outcomes of an analysis of a log against itself. *)
Definition safe_or_unavailable `{Libm} (cfg : canary_config) (s : stream) (r : res canary_report) : Prop :=
  match r with
  | Ok r => cr_verdict r = VSafe ∧ cr_reasons r = [RWithin] ∧ cr_ks r = 0%float ∧
            cr_burn_rate_increase r = 0%float
  | Raise e =>
      dds_count (sl_latency s.2) < cc_min_latency_count cfg ∨ quantiles_of s.2 = Raise e ∨
      get_cdf s.1 s.2 = Raise e ∨ error_events cfg s.2 s.2 = Raise e ∨
      slo_evaluate s.2 s.2 (cc_target_percentile cfg) (cc_budget_percent cfg) = Raise e
  end.

(** A canary against itself.  Whatever the log, as long as the thresholds
    are valid and their warning values positive, comparing it with itself ends
    in the safe verdict with a zero statistic and no increase of the burn rate; the
    analysis raises only when there are too few latencies or one of the
    quantities taken from the log raises. *)
Theorem canary_of_itself_is_safe `{Libm} cfg s :
  let t := cc_thresholds cfg in
  check_thresholds t = Ok tt →
  Forall (λ l, flt 0%float (li_warning l) = true)
    [th_p99_shift_percent t; th_error_rate_increase_percent t; th_slo_burn_rate t;
     th_ks_statistic t; th_wasserstein_ratio t; th_anomaly_score t] →
  safe_or_unavailable cfg s (analyze cfg s s).
Proof.
  intros t Ht Hw. apply check_thresholds_ok in Ht.
  unfold safe_or_unavailable, analyze, anomaly_score, new_diff.
  destruct (Z.ltb_spec (dds_count (sl_latency s.2)) (cc_min_latency_count cfg)); [by left|].
  destruct (quantiles_of s.2) as [[[q50 q95] q99]|e] eqn:Eq; [|cbn; eauto]. cbn [res_bind].
  destruct (get_cdf s.1 s.2) as [c|e] eqn:Ec; [|cbn; eauto 6]. cbn [res_bind].
  destruct (slo_evaluate s.2 s.2 _ _) as [slo|e] eqn:Es; [|cbn; eauto 8]. cbn [res_bind].
  destruct (error_events cfg s.2 s.2) as [ev|e] eqn:Ee; [|cbn; eauto 8]. cbn [res_bind].
  unfold diff_ks, diff_wasserstein. cbn [sd_cdf1 sd_cdf2]. rewrite ks_self.
  rewrite (zn_fmax _ (zn_sub_self (sr_burn_rate slo))).
  set (ms := metrics_of _ _ _ _ _ _ _ _ _).
  assert (∀ m, m ∈ ms → verdict_of m = VSafe) as Hms.
  { intros m Hm. apply Forall_cons in Ht as [L1 Ht], Hw as [W1 Hw].
    apply Forall_cons in Ht as [L2 Ht], Hw as [W2 Hw]. apply Forall_cons in Ht as [L3 Ht], Hw as [W3 Hw].
    apply Forall_cons in Ht as [L4 Ht], Hw as [W4 Hw]. apply Forall_cons in Ht as [L5 Ht], Hw as [W5 Hw].
    apply Forall_cons in Ht as [L6 _], Hw as [W6 _].
    unfold ms, metrics_of in Hm. apply elem_of_app in Hm as [Hm|Hm].
    - repeat (apply elem_of_cons in Hm as [->|Hm]); [..|by apply elem_of_nil in Hm];
        unfold verdict_of; apply verdict_safe_zn; try done.
      + apply percent_change_self.
      + by apply zn_div, wasserstein_self.
    - destruct (has_error_event cfg); [|by apply elem_of_nil in Hm].
      apply list_elem_of_singleton in Hm as ->. unfold verdict_of.
      apply verdict_safe_zn; [by eapply error_events_self|done..]. }
  destruct (conclude ms) as [[v cf] rs] eqn:Ev. destruct (conclude_spec _ _ _ _ Ev) as (_ & H2 & H3).
  cbn. assert (v = VSafe) as -> by (by apply H2). split_and!; [done|exact H3|done|done].
Qed.

(** ** Witnesses *)

(** A log with an accuracy of one half and its buckets in increasing order. *)
Definition demo_new : slog :=
  match slog_init (H := fine_libm) 0.5%float 4 2 1 false with Ok s => s | Raise _ => demo_plain end.

Definition demo_stream (values : list float) : stream :=
  let s := exec (slog_add_batch (H := fine_libm) values) demo_new in
  (mk_bucket_order (map_to_list (dds_negative (sl_latency s))) (map_to_list (dds_positive (sl_latency s))), s).

Definition demo_a : stream := Eval vm_compute in demo_stream [1; 2; 4; 4; -1; 0]%float.
Definition demo_b : stream := Eval vm_compute in demo_stream [4; 5; 40]%float.

Definition demo_diff : sketch_diff := Eval vm_compute in
  match new_diff (H := fine_libm) demo_a demo_b with Ok d => d | Raise _ => mk_sketch_diff [] [] end.

Lemma diff_is_cdf_distance_witness :
  (length (sd_cdf1 demo_diff), length (sd_cdf2 demo_diff)) = (5%nat, 2%nat) ∧
  ((sd_cdf1 demo_diff ≠ [] → sd_cdf2 demo_diff ≠ [] →
    diff_ks demo_diff = ref_ks (sd_cdf1 demo_diff) (sd_cdf2 demo_diff)) ∧
   diff_wasserstein demo_diff = ref_wasserstein (sd_cdf1 demo_diff) (sd_cdf2 demo_diff)).
Proof.
  split; [vm_compute; reflexivity|].
  apply (diff_is_cdf_distance (H := fine_libm) demo_a demo_b demo_diff).
  - vm_compute. reflexivity.
  - apply (bool_decide_unpack _). vm_compute. exact I.
  - apply (bool_decide_unpack _). vm_compute. exact I.
Defined.

(** Two hundred equal latencies, and the same with one of them slower. *)
Definition demo_baseline : stream := Eval vm_compute in demo_stream (repeat 4%float 200).
Definition demo_candidate : stream := Eval vm_compute in demo_stream (5%float :: repeat 4%float 199).

Definition no_quantiles : quantiles := (0, 0, 0)%float.
Definition no_report : canary_report :=
  mk_canary_report VSafe 0%float [] (0, 0) no_quantiles no_quantiles no_quantiles
    (mk_events_report 0 0 0 0 0)%float 0 0 0 0 0 0 0 0.

Definition demo_analysis : res canary_report := Eval vm_compute in
  analyze (H := fine_libm) default_canary_config demo_baseline demo_candidate.
Definition report_of (r : res canary_report) : canary_report :=
  match r with Ok r => r | Raise _ => no_report end.
Definition demo_report : canary_report := report_of demo_analysis.

Lemma canary_verdict_is_worst_witness :
  let r := demo_report in
  let ms := metrics_of default_canary_config (cr_shift_percent r).2 (cr_ks r) (cr_wasserstein_ratio r)
              (cr_burn_rate_increase r) (cr_baseline_burn_rate r) (cr_candidate_burn_rate r)
              (cr_anomaly_score r) (ev_increase_percent (cr_events r)) in
  (cr_verdict r = VRollback ↔ ∃ m, m ∈ ms ∧ fle (li_rollback m.2) m.1.2 = true) ∧
  (cr_verdict r = VSafe ↔
     ∀ m, m ∈ ms → fle (li_warning m.2) m.1.2 = false ∧ fle (li_rollback m.2) m.1.2 = false) ∧
  cr_reasons r = (if decide (cr_verdict r = VSafe) then [RWithin]
                  else map (λ m, m.1.1) (List.filter hit ms)).
Proof.
  apply (canary_verdict_is_worst (H := fine_libm) default_canary_config demo_baseline demo_candidate).
  vm_compute. reflexivity.
Defined.

Lemma canary_of_itself_is_safe_witness :
  is_ok (analyze (H := fine_libm) default_canary_config demo_baseline demo_baseline) = true ∧
  safe_or_unavailable (H := fine_libm) default_canary_config demo_baseline
    (analyze (H := fine_libm) default_canary_config demo_baseline demo_baseline).
Proof.
  split; [vm_compute; reflexivity|].
  apply (canary_of_itself_is_safe (H := fine_libm) default_canary_config demo_baseline).
  - vm_compute. reflexivity.
  - repeat constructor.
Defined.

(** One latency of two hundred is slower, but in the bucket of the others.
    The target derived from the baseline lies between them, so all of the
    candidate's bucket counts as errors ([count_greater_than] is an upper
    bound), while the baseline has none: a rollback with confidence one,
    although the quantiles and the distributions are equal. *)
Lemma one_slow_request_rolls_back :
  (cr_verdict demo_report, cr_confidence demo_report, cr_reasons demo_report)
  = (VRollback, 1%float, [RBurnRate 200 0 200]) ∧
  (cr_baseline demo_report, cr_ks demo_report, cr_wasserstein demo_report)
  = (cr_candidate demo_report, 0%float, 0%float).
Proof. split; vm_compute; reflexivity. Qed.
