(* ===== verification/Endpoints.v ===== *)
(** * The endpoints on streams ([server.py])

    What the handlers answer and change, once the middleware has let a request
    through: the reports (metrics, event counts, comparisons, objectives,
    canaries, anomalies, queries, aggregates), the state sent over a socket,
    the merge of a posted state and the deletion of a stream, with and without
    the mesh.

    The registry is taken as the map from names to shared logs that
    [Registry.registry_implements_map] shows it to be; an answer of the durable
    store is an argument.  An exception other than [HTTPException] becomes a
    response with status 500 in the framework.

    Proved: an aggregate over namespaces reports the log of all the calls of
    all the streams it names, local and remote, each namespace once; the state
    sent over the socket, posted to the merge endpoint of another server, makes
    the same log there; a deletion is refused, or fails without a trace, or
    leaves the stream gone and its marker set. *)

From Stdlib Require Import PrimFloat Ascii String.
From S2P Require Import Prelude PyFloat FloatRound Hashing CountMin HyperLogLog DDSketch PyVal PyDict PyNum StreamLog Checkpoint Facade Concurrent Mesh Windowed Json SqlParser SqlEngine Registry Server Compare.

#[local] Open Scope Z_scope.
#[local] Open Scope py_scope.

(** The state of a server: its streams, the mesh, and whether the mesh is on
    ([PEERS or ADVERTISED_ADDRESS]). *)
Record node := mk_node {
  nd_streams : list ((string * string) * tslog);
  nd_mesh : mesh;
  nd_clustered : bool
}.

Definition set_streams (l : list ((string * string) * tslog)) (nd : node) : node :=
  mk_node l (nd_mesh nd) (nd_clustered nd).
Definition set_mesh (m : mesh) (nd : node) : node := mk_node (nd_streams nd) m (nd_clustered nd).

(** [except ValueError as e: raise HTTPException(status)] *)
Definition value_error_as {A} (status : Z) (r : res A) : res A :=
  match r with Raise (ValueError msg) => Raise (HTTPException status msg) | r => r end.

Definition not_found {A} : res A := Raise (HTTPException 404 "Stream not found").

(** The answer of [get_metrics] and [aggregate_streams]. *)
Record metrics := mk_metrics {
  mx_p50 : float;
  mx_p90 : float;
  mx_p99 : float;
  mx_p99_9 : float;
  mx_unique_count : Z;
  mx_total_events : Z;
  mx_memory_footprint_bytes : Z
}.

Section Endpoints.
Context `{Libm}.

Definition lookup (nd : node) (namespace stream_id : string) : option tslog :=
  od_get (nd_streams nd) (namespace, stream_id).

(** [stream.get_snapshot()] *)
Definition snapshot (l : tslog) : res slog := res_map st_backend (result ts_get_snapshot l).

(** [StreamLog(deterministic=b)] *)
Definition fresh_log (b : bool) : res slog := new_log (log_defaults b).

Definition metrics_of (s : slog) : res metrics :=
  let? p50 := slog_percentile s 0.50%float in
  let? p90 := slog_percentile s 0.90%float in
  let? p99 := slog_percentile s 0.99%float in
  let? p99_9 := slog_percentile s 0.999%float in
  let? uniques := slog_unique_count s in
  Ok (mk_metrics p50 p90 p99 p99_9 uniques (sl_total s) (slog_memory_bytes s)).

(** [cluster_manager.get_merged_stream(namespace, stream_id, local)] *)
Definition merged_stream (nd : node) (namespace stream_id : string) (local : option tslog) : res slog :=
  let? base := match local with Some l => snapshot l | None => fresh_log true end in
  get_merged_stream (nd_mesh nd) namespace stream_id base.

(** ** Reports on one stream *)

Definition get_metrics (nd : node) (namespace stream_id : string) : res metrics :=
  let local := lookup nd namespace stream_id in
  if negb (nd_clustered nd) then
    match local with
    | None => not_found
    | Some l => let? s := snapshot l in metrics_of s
    end
  else
    let? s := merged_stream nd namespace stream_id local in
    let has_remote := has_peer_data (nd_mesh nd) namespace stream_id in
    if bool_decide (local = None) && negb has_remote then not_found else metrics_of s.

Definition get_event_count (nd : node) (namespace stream_id name : string) : res Z :=
  match lookup nd namespace stream_id with
  | None => not_found
  | Some l => result (ts_event_count (KStr name)) l
  end.

Definition recommend_slo (nd : node) (namespace stream_id : string) (target_percentile budget_percent : float)
    : res (float * float * float) :=
  match lookup nd namespace stream_id with
  | None => not_found
  | Some l =>
      value_error_as 400 (let? s := snapshot l in slo_recommend s target_percentile budget_percent)
  end.

(** ** Reports on two streams *)

(** The streams a comparison reads: each must be here or, in a mesh, at a
    peer. *)
Definition known (nd : node) (namespace stream_id : string) : bool :=
  negb (bool_decide (lookup nd namespace stream_id = None))
  || nd_clustered nd && has_peer_data (nd_mesh nd) namespace stream_id.

Definition resolve (nd : node) (namespace stream_id : string) : res slog :=
  if nd_clustered nd then merged_stream nd namespace stream_id (lookup nd namespace stream_id)
  else match lookup nd namespace stream_id with
       | Some l => snapshot l
       | None => Raise (AssertionError "")
       end.

Definition resolve_pair (nd : node) (namespace stream_id baseline_id : string) : res (slog * slog) :=
  let? _ := fail_if (negb (known nd namespace stream_id)) (HTTPException 404 "Current stream not found") in
  let? _ := fail_if (negb (known nd namespace baseline_id)) (HTTPException 404 "Baseline stream not found") in
  let? current := resolve nd namespace stream_id in
  let? baseline := resolve nd namespace baseline_id in
  Ok (current, baseline).

(** [diff_streams]; the orders are those of the two snapshots' dictionaries. *)
Definition diff_streams (nd : node) (namespace stream_id : string) (baseline_stream_id baseline : option string)
    (o1 o2 : bucket_order) : res (float * float * cdf * cdf) :=
  let baseline_id := if truthy baseline_stream_id then baseline_stream_id else baseline in
  if negb (truthy baseline_id) then Raise (HTTPException 422 "baseline_stream_id is required")
  else
    let? pair := resolve_pair nd namespace stream_id (default "" baseline_id) in
    let '(curr, base) := pair in
    if (dds_count (sl_latency curr) =? 0) || (dds_count (sl_latency base) =? 0)
    then Raise (HTTPException 400 "One or both streams have no latency data to compare.")
    else
      let? d := new_diff (o1, curr) (o2, base) in
      Ok (diff_ks d, diff_wasserstein d, sd_cdf1 d, sd_cdf2 d).

Definition evaluate_slo (nd : node) (namespace stream_id baseline_id : string)
    (target_percentile budget_percent : float) : res slo_report :=
  let? pair := resolve_pair nd namespace stream_id baseline_id in
  let '(curr, base) := pair in
  value_error_as 400 (slo_evaluate curr base target_percentile budget_percent).

(** [CanaryAnalysisRequest.validate_canary_thresholds]: what is refused with
    status 422 before the handler runs. *)
Definition canary_pairs (t : thresholds) : list limits :=
  [th_p99_shift_percent t; th_error_rate_increase_percent t; th_slo_burn_rate t;
   th_ks_statistic t; th_wasserstein_ratio t; th_anomaly_score t].
Definition valid_canary_request (c : canary_config) : bool :=
  open_unit (cc_target_percentile c) && open_unit (cc_budget_percent c)
  && (1 <=? cc_min_latency_count c)
  && forallb (λ l, negb (flt (li_warning l) 0%float || flt (li_rollback l) 0%float)
                   && negb (flt (li_rollback l) (li_warning l))) (canary_pairs (cc_thresholds c)).

Definition analyze_canary (nd : node) (namespace stream_id baseline_id : string) (req : canary_config)
    (o_candidate o_baseline : bucket_order) : res canary_report :=
  if negb (valid_canary_request req) then Raise (HTTPException 422 "invalid request")
  else
    let? pair := resolve_pair nd namespace stream_id baseline_id in
    let '(candidate, baseline) := pair in
    let? _ := check_thresholds (cc_thresholds req) in
    let? _ := check_canary_config req in
    value_error_as 400 (analyze req (o_baseline, baseline) (o_candidate, candidate)).

Definition detect_anomaly (nd : node) (namespace stream_id baseline_id : string) (sensitivity : float)
    (o1 o2 : bucket_order) : res (float * bool) :=
  if negb (flt 0%float sensitivity && fle sensitivity 1%float)
  then Raise (HTTPException 422 "sensitivity must be in (0, 1]")
  else
    match lookup nd namespace stream_id, lookup nd namespace baseline_id with
    | Some current, Some baseline =>
        let? c := snapshot current in
        let? b := snapshot baseline in
        let? score := anomaly_score (o1, c) (o2, b) in
        Ok (score, fle sensitivity score)
    | _, _ => not_found
    end.

(** [query_stream] after its checks: the plan of the query on the stream that
    FROM names. *)
Definition run_query `{FloatParser} `{FloatRepr} (ast_parse : string → option expr) (nd : node) (query : text) : res pydict :=
  let? target := value_error_as 422 (query_target query) in
  match lookup nd target.1 target.2 with
  | None => not_found
  | Some l =>
      value_error_as 422
        (let? q := parser_init query in
         let? plan := parse q in
         let? s := snapshot l in
         execute_stream_query ast_parse plan s)
  end.

(** ** Aggregates *)

(** [merged.merge(other)] in a pure handler *)
Definition merge_into (other merged : slog) : res slog :=
  match slog_merge other merged with (Ok _, merged) => Ok merged | (Raise e, _) => Raise e end.

(** One namespace of the loop: [merged] and [found_any]. *)
Definition aggregate_one (nd : node) (stream_id : string) (acc : slog * bool) (ns : string) : res (slog * bool) :=
  let? acc := match lookup nd ns stream_id with
              | Some l => let? s := snapshot l in let? m := merge_into s acc.1 in Ok (m, true)
              | None => Ok acc
              end in
  if nd_clustered nd && has_peer_data (nd_mesh nd) ns stream_id then
    let? remote := merged_stream nd ns stream_id None in
    let? m := merge_into remote acc.1 in
    Ok (m, true)
  else Ok acc.

(** [dict.fromkeys(...)] of the names *)
Definition aggregate_names (namespaces : text) : list string :=
  od_keys (foldl (λ d n, od_set n tt d) [] (names_of namespaces)).

Definition aggregate (nd : node) (namespaces : text) (stream_id : string) : res metrics :=
  match aggregate_names namespaces with
  | [] => Raise (HTTPException 400 "No namespaces provided.")
  | ns_list =>
      let? merged := fresh_log (nd_clustered nd) in
      let? acc := res_fold (aggregate_one nd stream_id) ns_list (merged, false) in
      if acc.2 then metrics_of acc.1 else not_found
  end.

(** ** States *)

(** [d[k] = v] *)
Definition set_item (k : string) (v : pyval) (d : pydict) : pydict := dict_set k v d.

(** [owner[key] = f(owner[key])] of a dictionary [owner] *)
Definition update_item (key : string) (f : pyval → res pyval) (owner : pydict) : res pydict :=
  let? v := dict_item owner key in
  let? v := f v in
  Ok (set_item key v owner).

(** [state[key]] where the value is used as a dictionary of string keys. *)
Definition sub_dict (owner : pydict) (key : string) : res pydict :=
  let? v := dict_item owner key in
  match v with VDict d => Ok d | _ => Raise (TypeError "indices must be integers") end.

(** [str.isdigit] *)
Definition isdigit (s : string) : bool :=
  negb (bool_decide (s = "")) && forallb (λ a, bool_decide (is_Some (char_digit a))) (list_ascii_of_string s).

(** A count that may be a decimal string. *)
Definition count_of (v : pyval) : res pyval :=
  match v with
  | VStr s =>
      if isdigit s then expect (option_map VInt (parse_digits s 0)) "invalid literal for int()"
      else Raise (ValueError "must be a decimal integer")
  | v => Ok v
  end.

(** The values of a bucket dictionary; the keys are those of a JSON object. *)
Definition decode_buckets (v : pyval) : res pyval :=
  match v with
  | VDict d => let? d := res_mapM (λ kv, let? x := count_of kv.2 in Ok (kv.1, x)) d in Ok (VDict d)
  | _ => Raise (AttributeError "object has no attribute 'items'")
  end.

(** A row of the table.  Enumerating a string or a dictionary gives strings,
    which cannot be assigned back. *)
Definition decode_row (v : pyval) : res pyval :=
  match v with
  | VList l => let? l := res_mapM count_of l in Ok (VList l)
  | VStr "" | VDict [] => Ok v
  | VStr (String a _) =>
      if isdigit (String a "") then Raise (TypeError "object does not support item assignment")
      else Raise (ValueError "event table counts must be decimal integers")
  | VDict ((VStr k, _) :: _) =>
      if isdigit k then Raise (RuntimeError "dictionary changed size during iteration")
      else Raise (ValueError "event table counts must be decimal integers")
  | _ => Raise (TypeError "object is not iterable")
  end.

Definition decode_table (v : pyval) : res pyval :=
  match v with
  | VList rows => let? rows := res_mapM decode_row rows in Ok (VList rows)
  | VStr "" => Ok v
  | VStr (String a _) =>
      let? _ := decode_row (VStr (String a "")) in Ok v
  | VDict d => let? _ := res_mapM (λ kv, decode_row kv.1) d in Ok v
  | _ => Raise (TypeError "object is not iterable")
  end.

(** The part of [merge_stream] that turns decimal strings into counts. *)
Definition decode_state (state : pydict) : res pydict :=
  let? latency := dict_item state "latency" in
  let? events := dict_item state "events" in
  let? state := update_item "total" count_of state in
  let? latency := sub_dict state "latency" in
  let? latency := update_item "zero_count" count_of latency in
  let? latency := update_item "count" count_of latency in
  let? events := sub_dict state "events" in
  let? events := update_item "total" count_of events in
  let? latency := update_item "positive" decode_buckets latency in
  let? latency := update_item "negative" decode_buckets latency in
  let? events := update_item "table" decode_table events in
  Ok (set_item "events" (VDict events) (set_item "latency" (VDict latency) state)).

(** What [except (KeyError, TypeError, ValueError, RuntimeError)] catches. *)
Definition invalid_state (e : exn) : exn :=
  match e with
  | KeyError msg | TypeError msg | ValueError msg | RuntimeError msg => HTTPException 422 msg
  | e => e
  end.
Definition incompatible_state (e : exn) : exn :=
  match e with
  | ValueError msg | OverflowError msg | RuntimeError msg => HTTPException 422 msg
  | e => e
  end.
Definition map_error {A} (f : exn → exn) (r : res A) : res A :=
  match r with Raise e => Raise (f e) | r => r end.

(** [registry.get_or_create] *)
Definition get_or_create (namespace stream_id : string) (now : float) : M node tslog :=
  nd <- mget ;;
  match lookup nd namespace stream_id with
  | Some l => mret l
  | None =>
      l <- mlift (ts_init (log_defaults (nd_clustered nd)) now) ;;
      mmodify (set_streams (od_set (namespace, stream_id) l (nd_streams nd))) ;;;
      mret l
  end.

Definition merge_stream (namespace stream_id : string) (request : pydict) (now now' : float) : M node unit :=
  incoming <- mlift (map_error invalid_state
    (match json_roundtrip (VDict request) with
     | VDict state => let? state := decode_state state in st_from_dict (VDict state)
     | _ => Raise (TypeError "indices must be integers")
     end)) ;;
  l <- get_or_create namespace stream_id now ;;
  let '(r, l) := ts_merge incoming now' l in
  mmodify (λ nd, set_streams (od_set (namespace, stream_id) l (nd_streams nd)) nd) ;;;
  mlift (map_error incompatible_state r).

(** ** The socket *)

(** [str(v)] of a count *)
Definition str_count (v : pyval) : res pyval :=
  match v with VInt z => Ok (VStr (str_of_Z z)) | _ => Raise (TypeError "") end.

Definition encode_buckets (v : pyval) : res pyval :=
  match v with
  | VDict d => let? d := res_mapM (λ kv, let? x := str_count kv.2 in Ok (kv.1, x)) d in Ok (VDict d)
  | _ => Raise (AttributeError "object has no attribute 'items'")
  end.

Definition encode_row (v : pyval) : res pyval :=
  match v with
  | VList l => let? l := res_mapM str_count l in Ok (VList l)
  | _ => Raise (TypeError "object is not iterable")
  end.

Definition encode_table (v : pyval) : res pyval :=
  match v with
  | VList rows => let? rows := res_mapM encode_row rows in Ok (VList rows)
  | _ => Raise (TypeError "object is not iterable")
  end.

Definition encode_state (state : pydict) : res pydict :=
  let? latency := sub_dict state "latency" in
  let? events := sub_dict state "events" in
  let? state := update_item "total" str_count state in
  let? latency := update_item "zero_count" str_count latency in
  let? latency := update_item "count" str_count latency in
  let? events := update_item "total" str_count events in
  let? latency := update_item "positive" encode_buckets latency in
  let? latency := update_item "negative" encode_buckets latency in
  let? events := update_item "table" encode_table events in
  Ok (set_item "events" (VDict events) (set_item "latency" (VDict latency) state)).

(** The message of one second of the socket; [None] says that the stream is
    not found. *)
Definition socket_state (s : slog) : res pydict :=
  let? state := expect (as_dict (slog_to_dict s)) "" in
  let? state := encode_state state in
  let? p50 := slog_p50 s in
  let? p95 := slog_p95 s in
  let? p99 := slog_p99 s in
  let? p99_9 := slog_p999 s in
  let? uniques := slog_unique_count s in
  Ok (set_item "metrics"
        (VDict [(VStr "p50", VFloat p50); (VStr "p95", VFloat p95); (VStr "p99", VFloat p99);
                (VStr "p99_9", VFloat p99_9); (VStr "unique_count", VStr (str_of_Z uniques));
                (VStr "total_events", VStr (str_of_Z (sl_total s)));
                (VStr "memory_footprint_bytes", VStr (str_of_Z (slog_memory_bytes s)))]) state).

Definition stream_ws (nd : node) (namespace stream_id : string) : res (option pydict) :=
  let local := lookup nd namespace stream_id in
  let? log := (if negb (nd_clustered nd) then
                 match local with Some l => let? s := snapshot l in Ok (Some s) | None => Ok None end
               else if known nd namespace stream_id then
                 let? s := merged_stream nd namespace stream_id local in Ok (Some s)
               else Ok None) in
  match log with
  | Some s => let? state := socket_state s in Ok (Some state)
  | None => Ok None
  end.

(** ** Deletion *)

(** [registry.delete]: [storage] is the answer of the store, if it is asked. *)
Definition registry_delete (namespace stream_id : string) (storage : option (res unit)) : M node unit :=
  mlift (default (Ok ()) storage) ;;;
  mmodify (λ nd, set_streams (od_del (namespace, stream_id) (nd_streams nd)) nd).

Definition on_mesh {A} : M mesh A → M node A := zoom nd_mesh set_mesh.

Definition capacity_as_503 (e : exn) : exn :=
  match e with RuntimeError msg => HTTPException 503 msg | e => e end.

(** [reset_stream]; [storage] is the answer of [storage_backend.delete], or in
    a mesh of [delete_with_tombstone]; [None] without a durable store. *)
Definition reset_stream (namespace stream_id : string) (storage : option (res unit)) (now : float)
    : M node unit :=
  nd <- mget ;;
  match lookup nd namespace stream_id with
  | None => mraise (HTTPException 404 "Stream not found")
  | Some _ =>
      if nd_clustered nd then
        let '(r, m) := begin_deletion namespace stream_id now (nd_mesh nd) in
        mmodify (set_mesh m) ;;;
        reserved <- mlift (map_error capacity_as_503 r) ;;
        let '(stream_key, version, previous) := reserved in
        match storage with
        | Some (Raise e) => on_mesh (rollback_deletion stream_key version previous) ;;; mraise e
        | _ => registry_delete namespace stream_id None
        end
      else registry_delete namespace stream_id storage
  end.
End Endpoints.

(** ** Unions *)

Section unions.
Context `{Libm} (nd : node) (s0 : slog) (Hi : fresh_log (nd_clustered nd) = Ok s0).
Context (hist : slog → list slog_call).

(** The logs a report on a stream is about: the local one and those of the
    peers. *)
Definition peer_logs (ns sid : string) : list slog :=
  if nd_clustered nd then map (λ p, p.2.1) (group (ms_snapshots (nd_mesh nd)) (stream_key ns sid)) else [].
Definition local_log (ns sid : string) : list slog :=
  match lookup nd ns sid with Some l => [st_backend (tl_log l)] | None => [] end.
Definition logs (ns sid : string) : list slog := local_log ns sid ++ peer_logs ns sid.

(** Every log is that of a history of accepted calls. *)
Definition histories_ok : Prop :=
  (∀ ns sid l, lookup nd ns sid = Some l → holds (log_defaults (nd_clustered nd)) s0 (tl_log l) (hist (st_backend (tl_log l)))) ∧
  (∀ ns sid s, s ∈ peer_logs ns sid → log_of_calls s0 s (hist s)).

Context (Hok : histories_ok).

Lemma snapshot_here ns sid l : lookup nd ns sid = Some l → snapshot l = Ok (st_backend (tl_log l)).
Proof using All.
  intros E. unfold snapshot, result. by rewrite (Concurrent.snapshot_run _ _ Hi _ _ (proj1 Hok _ _ _ E)).
Qed.

Lemma local_history ns sid s : s ∈ local_log ns sid → log_of_calls s0 s (hist s).
Proof using All.
  unfold local_log. destruct (lookup nd ns sid) as [l|] eqn:E; [|by intros ?%elem_of_nil].
  intros ->%list_elem_of_singleton. by apply (proj1 Hok _ _ _ E).
Qed.

Lemma empty_history : log_of_calls s0 s0 [].
Proof using All. by eapply new_log_denotes. Qed.

(** Merging logs one after the other. *)
Lemma merge_all (ls : list slog) : ∀ s cs t,
  (∀ l, l ∈ ls → log_of_calls s0 l (hist l)) →
  log_of_calls s0 s cs → log_of_calls s0 t (cs ++ flat_map hist ls) →
  res_fold (λ m l, merge_into l m) ls s = Ok t.
Proof using All.
  induction ls as [|l ls IH]; intros s cs t Hl Ls Lt; cbn [res_fold flat_map] in *.
  { rewrite app_nil_r in Lt. by rewrite (log_of_calls_eq _ _ _ _ Ls Lt). }
  rewrite app_assoc in Lt. destruct (log_of_calls_prefix _ _ Hi _ _ _ Lt) as [m Lm].
  unfold merge_into at 1. rewrite (log_of_calls_union _ _ Hi s l m cs (hist l)); [|done|apply Hl; by left|done].
  cbn [res_bind]. apply (IH m (cs ++ hist l)); [|done|done]. intros l' Hl'. apply Hl. by right.
Qed.

Lemma get_merged_run ns sid s :
  nd_clustered nd = true →
  get_merged_stream (nd_mesh nd) ns sid s = res_fold (λ m l, merge_into l m) (peer_logs ns sid) s.
Proof using All.
  intros Hc. unfold get_merged_stream, peer_logs. rewrite Hc.
  generalize (group (ms_snapshots (nd_mesh nd)) (stream_key ns sid)). intros g. revert s.
  induction g as [|[n [p v]] g IH]; intros s; [done|]. cbn [map res_fold fst snd].
  unfold merge_into at 1. destruct (slog_merge p s) as [[]]; cbn [res_bind]; [apply IH|done].
Qed.

Lemma has_peers ns sid :
  nd_clustered nd && has_peer_data (nd_mesh nd) ns sid = negb (bool_decide (peer_logs ns sid = [])).
Proof using All.
  unfold peer_logs, has_peer_data, group. destruct (nd_clustered nd); [|done]. cbn [andb].
  destruct (od_get _ _) as [[|p g]|]; done.
Qed.

Lemma merged_stream_run ns sid t :
  nd_clustered nd = true → log_of_calls s0 t (flat_map hist (logs ns sid)) →
  merged_stream nd ns sid (lookup nd ns sid) = Ok t.
Proof using All.
  intros Hc Lt. unfold merged_stream. unfold logs in Lt. rewrite flat_map_app in Lt.
  assert (∃ s, (let? base := match lookup nd ns sid with Some l => snapshot l | None => fresh_log true end in Ok base)
               = Ok s ∧ log_of_calls s0 s (flat_map hist (local_log ns sid))) as (s & E & Ls).
  { unfold local_log. destruct (lookup nd ns sid) as [l|] eqn:El.
    - rewrite (snapshot_here _ _ _ El). eexists. split; [done|]. cbn. rewrite app_nil_r. by apply (proj1 Hok _ _ _ El).
    - rewrite <- Hc, Hi. eexists. split; [done|]. apply empty_history. }
  destruct (match lookup nd ns sid with Some l => snapshot l | None => fresh_log true end) as [b|]; [|done].
  cbn in E. injection E as ->. cbn [res_bind]. rewrite get_merged_run by done.
  eapply merge_all; [|exact Ls|exact Lt]. intros l Hl. by eapply (proj2 Hok).
Qed.

(** What the peers have of a stream. *)
Lemma remote_run ns sid r :
  nd_clustered nd = true → log_of_calls s0 r (flat_map hist (peer_logs ns sid)) →
  merged_stream nd ns sid None = Ok r.
Proof using All.
  intros Hc Lr. unfold merged_stream. rewrite <- Hc, Hi. cbn [res_bind]. rewrite get_merged_run by done.
  eapply (merge_all _ s0 []); [|apply empty_history|done]. intros l Hl. by eapply (proj2 Hok).
Qed.

Lemma aggregate_one_run sid ns s b cs r t :
  log_of_calls s0 s cs → log_of_calls s0 r (flat_map hist (peer_logs ns sid)) →
  log_of_calls s0 t (cs ++ flat_map hist (logs ns sid)) →
  aggregate_one nd sid (s, b) ns = Ok (t, b || negb (bool_decide (logs ns sid = []))).
Proof using All.
  intros Ls Lr Lt. unfold aggregate_one. unfold logs in Lt. rewrite flat_map_app, app_assoc in Lt.
  destruct (log_of_calls_prefix _ _ Hi _ _ _ Lt) as [m Lm].
  assert (match lookup nd ns sid with
          | Some l => let? s' := snapshot l in let? m' := merge_into s' (s, b).1 in Ok (m', true)
          | None => Ok (s, b) end = Ok (m, b || negb (bool_decide (local_log ns sid = [])))) as ->.
  { unfold local_log in Lm |- *. destruct (lookup nd ns sid) as [l|] eqn:El.
    - rewrite (snapshot_here _ _ _ El). cbn [res_bind fst]. unfold merge_into. cbn [flat_map] in Lm. rewrite app_nil_r in Lm.
      rewrite (log_of_calls_union _ _ Hi s _ m cs (hist (st_backend (tl_log l))));
        [|done|by apply (proj1 Hok _ _ _ El)|done]. cbn. by rewrite orb_true_r.
    - cbn in Lm. rewrite app_nil_r in Lm. rewrite (log_of_calls_eq _ _ _ _ Ls Lm). cbn. by rewrite orb_false_r. }
  cbn [res_bind fst]. rewrite has_peers. unfold logs.
  destruct (peer_logs ns sid) as [|p ps] eqn:Ep.
  - cbn in Lt |- *. rewrite app_nil_r in *. by rewrite (log_of_calls_eq _ _ _ _ Lm Lt).
  - rewrite bool_decide_eq_false_2 by done. cbn [negb].
    assert (nd_clustered nd = true) as Hc.
    { unfold peer_logs in Ep. by destruct (nd_clustered nd). }
    rewrite <- Ep in *. rewrite (remote_run ns sid r Hc Lr). cbn [res_bind]. unfold merge_into.
    rewrite (log_of_calls_union _ _ Hi m r t _ _ Lm Lr Lt). cbn [res_bind].
    rewrite bool_decide_eq_false_2; [by rewrite orb_true_r|]. rewrite Ep. by destruct (local_log ns sid).
Qed.

Lemma aggregate_run sid names : ∀ s b cs t,
  log_of_calls s0 s cs →
  (∀ ns, ns ∈ names → ∃ r, log_of_calls s0 r (flat_map hist (peer_logs ns sid))) →
  log_of_calls s0 t (cs ++ flat_map hist (flat_map (λ ns, logs ns sid) names)) →
  res_fold (aggregate_one nd sid) names (s, b)
  = Ok (t, b || negb (bool_decide (flat_map (λ ns, logs ns sid) names = []))).
Proof using All.
  induction names as [|ns names IH]; intros s b cs t Ls Hr Lt; cbn [res_fold flat_map] in *.
  { rewrite app_nil_r in Lt. cbn. rewrite orb_false_r. by rewrite (log_of_calls_eq _ _ _ _ Ls Lt). }
  rewrite flat_map_app, app_assoc in Lt. destruct (log_of_calls_prefix _ _ Hi _ _ _ Lt) as [m Lm].
  destruct (Hr ns) as [r Lr]; [by left|].
  rewrite (aggregate_one_run sid ns s b cs r m Ls Lr Lm). cbn [res_bind].
  rewrite (IH m _ (cs ++ flat_map hist (logs ns sid)) t Lm); [|intros ns' Hn; apply Hr; by right|done].
  f_equal. f_equal. destruct (logs ns sid); cbn; [by rewrite orb_false_r|]. by rewrite orb_true_r.
Qed.
End unions.

Lemma fold_names_keys l : ∀ d : list (string * unit),
  NoDup (od_keys d) →
  NoDup (od_keys (foldl (λ d n, od_set n tt d) d l)) ∧
  ∀ n, n ∈ od_keys (foldl (λ d n, od_set n tt d) d l) ↔ n ∈ od_keys d ∨ n ∈ l.
Proof.
  induction l as [|m l IH]; intros d Hd; cbn [foldl]; [split; [done|set_solver]|].
  destruct (IH (od_set m tt d)) as [H1 H2]; [by apply od_set_nodup|]. split; [done|].
  intros n. rewrite H2, elem_of_od_keys_set. set_solver.
Qed.

Lemma aggregate_names_spec namespaces :
  NoDup (aggregate_names namespaces) ∧ ∀ n, n ∈ aggregate_names namespaces ↔ n ∈ names_of namespaces.
Proof.
  destruct (fold_names_keys (names_of namespaces) []) as [H1 H2]; [constructor|]. split; [done|].
  intros n. unfold aggregate_names. rewrite H2. set_solver.
Qed.

(** C31. Reports are about the union of what is known.  When every log the
    server holds, its own and those of its peers, is the execution of a
    history of accepted calls, then the metrics of a stream are those of the
    one log that executes the histories of all the logs of that stream, and an
    aggregate those of the log that executes the histories of all the logs of
    all the streams it names, where each namespace counts once however often
    it is named; without any log the answer is 404 and without a namespace
    400. *)
Theorem reports_are_unions `{Libm} nd s0 hist sid :
  fresh_log (nd_clustered nd) = Ok s0 → histories_ok nd s0 hist →
  (∀ ns t, log_of_calls s0 t (flat_map hist (logs nd ns sid)) →
     get_metrics nd ns sid = if bool_decide (logs nd ns sid = []) then not_found else metrics_of t) ∧
  (∀ namespaces t,
     let names := aggregate_names namespaces in
     let all := flat_map (λ ns, logs nd ns sid) names in
     (∀ ns, ns ∈ names → ∃ r, log_of_calls s0 r (flat_map hist (peer_logs nd ns sid))) →
     log_of_calls s0 t (flat_map hist all) →
     NoDup names ∧ (∀ n, n ∈ names ↔ n ∈ names_of namespaces) ∧
     aggregate nd namespaces sid =
       if bool_decide (names = []) then Raise (HTTPException 400 "No namespaces provided.")
       else if bool_decide (all = []) then not_found else metrics_of t).
Proof.
  intros Hi Hok. split.
  - intros ns t Lt. unfold get_metrics. destruct (nd_clustered nd) eqn:Hc; cbn [negb].
    + rewrite <- Hc in Hi. rewrite (merged_stream_run nd s0 Hi hist Hok ns sid t Hc Lt). cbn [res_bind].
      pose proof (has_peers nd s0 Hi hist Hok ns sid) as Hp. rewrite Hc in Hp. cbn [andb] in Hp. rewrite Hp.
      unfold logs, local_log. destruct (lookup nd ns sid); [done|]. cbn [app].
      rewrite bool_decide_eq_true_2 by done. by destruct (bool_decide (peer_logs nd ns sid = [])).
    + rewrite <- Hc in Hi. unfold logs, local_log, peer_logs in Lt |- *. rewrite Hc in Lt |- *.
      destruct (lookup nd ns sid) as [l|] eqn:El; [|done].
      rewrite (snapshot_here nd s0 Hi hist Hok _ _ _ El). cbn in Lt |- *. rewrite app_nil_r in Lt.
      by rewrite (log_of_calls_eq _ _ _ _ Lt (proj2 (proj1 Hok _ _ _ El))).
  - intros namespaces t names all Hr Lt. pose proof (aggregate_names_spec namespaces) as [H1 H2].
    split; [done|]. split; [done|]. unfold aggregate. fold names.
    pose proof (aggregate_run nd s0 Hi hist Hok sid names s0 false [] t
                  (empty_history nd s0 Hi hist Hok) Hr Lt) as E.
    fold all in E. clearbody all. clearbody names.
    destruct names as [|n names']; [by rewrite bool_decide_eq_true_2|]. rewrite bool_decide_eq_false_2 by done.
    rewrite Hi. cbn [res_bind]. rewrite E. cbn. by destruct (bool_decide (all = [])).
Qed.

(** ** Deletions *)

Lemma rollback_reserved ns sid now m key version previous m' :
  begin_deletion ns sid now m = (Ok (key, version, previous), m') → num version →
  rollback_deletion key version previous m' = (Ok (), m).
Proof.
  rewrite begin_deletion_run. destruct (_ && _); [done|].
  set (c := fmax now _). intros [= <- Ev <- <-] Nv. subst version. unfold rollback_deletion.
  unfold mbind, mget. cbn [ms_local set_local].
  rewrite od_get_set_eq. assert (feq c c = true) as -> by (by apply feq_val).
  unfold mmodify. destruct (od_get (ms_local m) (stream_key ns sid)) as [p|] eqn:Ep.
  - rewrite od_set_set, (od_set_get _ _ _ Ep). by destruct m.
  - rewrite od_del_set_fresh; [by destruct m|]. by apply od_get_none.
Qed.

(** The times a server works with: what the clock shows, and the versions of
    its markers. *)
Definition times_ok (now : float) (m : mesh) : Prop :=
  isfinite now = true ∧
  ∀ key p, od_get (ms_local m) key = Some p → isfinite p = true ∧ 0 ≤ fval p < 2 ^ 33 * 2 ^ 1074.

Lemma begin_deletion_cases ns sid now m :
  times_ok now m →
  (∃ msg, begin_deletion ns sid now m = (Raise (RuntimeError msg), m)) ∨
  ∃ version m', begin_deletion ns sid now m
      = (Ok (stream_key ns sid, version, od_get (ms_local m) (stream_key ns sid)), m') ∧
    m' = set_local (od_set (stream_key ns sid) version (ms_local m)) m ∧
    num version ∧ fle now version = true ∧
    ∀ p, od_get (ms_local m) (stream_key ns sid) = Some p → flt p version = true.
Proof.
  intros [Fn Hp]. rewrite begin_deletion_run.
  set (previous := od_get (ms_local m) (stream_key ns sid)).
  set (base := (default 0%float previous + 1e-6)%float).
  assert (isfinite base = true ∧ ∀ p, previous = Some p → flt p base = true) as [Fb Hb].
  { subst base. destruct previous as [p|] eqn:Ep; [|done]. destruct (Hp _ _ Ep) as [Fp Vp].
    destruct (later_micro p Fp Vp) as [H1 H2]. split; [done|]. by intros ? [= <-]. }
  destruct (fmax_later now base (isfinite_num _ Fn) (isfinite_num _ Fb)) as [H1 H2].
  destruct (_ && _); [by left; eexists|]. right. eexists _, _. split; [done|].
  split; [done|]. split; [by eapply fle_num_r|]. split; [done|].
  intros p Ep. eapply flt_fle_trans; [by apply Hb|done].
Qed.


(** ** States over the wire *)

(** The document of a log with its bucket keys under [fk] and its counts under
    [fc]. *)
Definition buckets_doc (fk fc : Z → pyval) (d : gmap Z Z) : pyval :=
  VDict (map (λ kv, (fk kv.1, fc kv.2)) (map_to_list d)).
Definition table_doc (fc : Z → pyval) (t : list (list Z)) : pyval := VList (map (λ row, VList (map fc row)) t).

Definition state_doc (fk fc : Z → pyval) (s : slog) : pydict :=
  [(VStr "version", VInt 1);
   (VStr "total", fc (sl_total s));
   (VStr "deterministic", VBool (sl_deterministic s));
   (VStr "latency", VDict
      [(VStr "alpha", VFloat (dds_alpha (sl_latency s)));
       (VStr "positive", buckets_doc fk fc (dds_positive (sl_latency s)));
       (VStr "negative", buckets_doc fk fc (dds_negative (sl_latency s)));
       (VStr "zero_count", fc (dds_zero_count (sl_latency s)));
       (VStr "count", fc (dds_count (sl_latency s)));
       (VStr "min", extremum_to_val (sl_latency s) (dds_min (sl_latency s)));
       (VStr "max", extremum_to_val (sl_latency s) (dds_max (sl_latency s)))]);
   (VStr "uniques", uniques_to_val (sl_uniques s));
   (VStr "events", VDict
      [(VStr "width", VInt (cms_width (sl_events s)));
       (VStr "depth", VInt (cms_depth (sl_events s)));
       (VStr "table", table_doc fc (cms_table (sl_events s)));
       (VStr "total", fc (cms_total (sl_events s)))])].

Definition text_of_Z (z : Z) : pyval := VStr (str_of_Z z).

Lemma state_doc_written f s : state_doc f VInt s = slog_with f s.
Proof. done. Qed.

(** Converting the values of the counts. *)
Section convert.
Context (g : pyval → res pyval) (fc fc' : Z → pyval) (P : Z → Prop) (Hg : ∀ z, P z → g (fc z) = Ok (fc' z)).

Lemma convert_list l : Forall P l → res_mapM g (map fc l) = Ok (map fc' l).
Proof using Hg. induction 1 as [|z l Hz Hl IH]; [done|]. cbn. by rewrite Hg, IH. Qed.

Lemma convert_pairs (fk : Z → pyval) (l : list (Z * Z)) :
  Forall (λ kv, P kv.2) l →
  res_mapM (λ kv : pyval * pyval, let? x := g kv.2 in Ok (kv.1, x)) (map (λ kv, (fk kv.1, fc kv.2)) l)
  = Ok (map (λ kv, (fk kv.1, fc' kv.2)) l).
Proof using Hg. induction 1 as [|kv l Hz Hl IH]; [done|]. cbn in *. by rewrite Hg, IH. Qed.
End convert.

(** The counts a state holds. *)
Record counts (P : Z → Prop) (s : slog) : Prop := {
  cn_total : P (sl_total s);
  cn_zero : P (dds_zero_count (sl_latency s));
  cn_count : P (dds_count (sl_latency s));
  cn_events : P (cms_total (sl_events s));
  cn_positive : Forall (λ kv, P kv.2) (map_to_list (dds_positive (sl_latency s)));
  cn_negative : Forall (λ kv, P kv.2) (map_to_list (dds_negative (sl_latency s)));
  cn_table : Forall (Forall P) (cms_table (sl_events s))
}.

Lemma encode_buckets_doc fk d : encode_buckets (buckets_doc fk VInt d) = Ok (buckets_doc fk text_of_Z d).
Proof.
  unfold buckets_doc, encode_buckets.
  rewrite (convert_pairs str_count VInt text_of_Z (λ _, True)) by first [done|by apply Forall_true]. done.
Qed.

Lemma encode_table_doc t : encode_table (table_doc VInt t) = Ok (table_doc text_of_Z t).
Proof.
  unfold table_doc, encode_table. induction t as [|row t IH]; [done|]. cbn [map res_mapM encode_row].
  rewrite (convert_list str_count VInt text_of_Z (λ _, True)) by first [done|by apply Forall_true]. cbn [res_bind].
  destruct (res_mapM encode_row _); [|done]. cbn in IH |- *. by injection IH as ->.
Qed.

(** Access to the members of a literal dictionary. *)
Ltac dict_steps atoms :=
  repeat (lazy -[encode_buckets encode_table decode_buckets decode_table count_of text_of_Z str_of_Z
                 buckets_doc table_doc extremum_to_val uniques_to_val];
          first [atoms ()|reflexivity]).

Lemma encode_state_doc fk s : encode_state (state_doc fk VInt s) = Ok (state_doc fk text_of_Z s).
Proof.
  unfold encode_state, state_doc.
  generalize (encode_buckets_doc fk (dds_positive (sl_latency s))).
  generalize (encode_buckets_doc fk (dds_negative (sl_latency s))).
  generalize (encode_table_doc (cms_table (sl_events s))).
  generalize (buckets_doc fk VInt (dds_positive (sl_latency s))), (buckets_doc fk VInt (dds_negative (sl_latency s))),
    (table_doc VInt (cms_table (sl_events s))).
  intros p n t Et En Ep. unfold update_item, sub_dict, dict_item, set_item.
  dict_steps ltac:(fun _ => first [rewrite Ep|rewrite En|rewrite Et]).
Qed.

(** A decimal string that [str] wrote. *)
Lemma parse_digits_some l : ∀ acc n, parse_digits l acc = Some n →
  forallb (λ a, bool_decide (is_Some (char_digit a))) (list_ascii_of_string l) = true.
Proof.
  induction l as [|a l IH]; intros acc n; [done|]. cbn. destruct (char_digit a) as [d|] eqn:E; [|done].
  intros Hl. rewrite bool_decide_eq_true_2 by eauto. by eapply IH.
Qed.

Lemma count_of_text z : 0 ≤ z → count_of (text_of_Z z) = Ok (VInt z).
Proof.
  intros Hz. pose proof (parse_str_abs z) as Hp. unfold count_of, text_of_Z, str_of_Z, isdigit.
  rewrite (proj2 (Z.ltb_ge z 0)) by done.
  destruct (digits_of_head (Z.to_nat (Z.log2 (Z.abs z)) + 1) (Z.abs z) "") as (d & l & _ & E); [lia|lia|].
  rewrite bool_decide_eq_false_2 by (rewrite E; done). rewrite (parse_digits_some _ _ _ Hp), Hp. cbn.
  by rewrite Z.abs_eq.
Qed.

Lemma decode_buckets_doc fk d :
  Forall (λ kv, 0 ≤ kv.2) (map_to_list d) →
  decode_buckets (buckets_doc fk text_of_Z d) = Ok (buckets_doc fk VInt d).
Proof.
  intros Hd. unfold buckets_doc, decode_buckets.
  by rewrite (convert_pairs count_of text_of_Z VInt (λ z, 0 ≤ z) count_of_text).
Qed.

Lemma decode_table_doc t :
  Forall (Forall (λ z, 0 ≤ z)) t → decode_table (table_doc text_of_Z t) = Ok (table_doc VInt t).
Proof.
  unfold table_doc, decode_table. induction 1 as [|row t Hr Ht IH]; [done|]. cbn [map res_mapM decode_row].
  rewrite (convert_list count_of text_of_Z VInt (λ z, 0 ≤ z) count_of_text) by done. cbn [res_bind].
  destruct (res_mapM decode_row _); [|done]. cbn in IH |- *. by injection IH as ->.
Qed.

Lemma decode_state_doc fk s extra :
  counts (λ z, 0 ≤ z) s →
  decode_state (state_doc fk text_of_Z s ++ extra) = Ok (state_doc fk VInt s ++ extra).
Proof.
  intros [C1 C2 C3 C4 C5 C6 C7]. unfold decode_state, state_doc, update_item, sub_dict, dict_item, set_item.
  generalize (decode_buckets_doc fk _ C5), (decode_buckets_doc fk _ C6), (decode_table_doc _ C7).
  generalize (count_of_text _ C1), (count_of_text _ C2), (count_of_text _ C3), (count_of_text _ C4).
  generalize (buckets_doc fk text_of_Z (dds_positive (sl_latency s))), (buckets_doc fk text_of_Z (dds_negative (sl_latency s))),
    (table_doc text_of_Z (cms_table (sl_events s))).
  generalize (text_of_Z (sl_total s)), (text_of_Z (dds_zero_count (sl_latency s))),
    (text_of_Z (dds_count (sl_latency s))), (text_of_Z (cms_total (sl_events s))).
  intros a b c d p n t Ea Eb Ec Ed Ep En Et.
  dict_steps ltac:(fun _ => first [rewrite Ea|rewrite Eb|rewrite Ec|rewrite Ed|rewrite Ep|rewrite En|rewrite Et]).
Qed.

(** JSON text turns the bucket keys into strings and changes nothing else. *)
Definition json_key (k : pyval) : pyval := match k with VInt z => VStr (str_of_Z z) | k => k end.

Lemma json_buckets_doc fk fc d :
  (∀ z, json_roundtrip (fc z) = fc z) →
  json_roundtrip (buckets_doc fk fc d) = buckets_doc (λ z, json_key (fk z)) fc d.
Proof.
  intros Hf. unfold buckets_doc. cbn [json_roundtrip]. f_equal. rewrite map_map. apply map_ext. intros kv. cbn.
  rewrite Hf. f_equal. by destruct (fk kv.1).
Qed.

Lemma json_table_doc fc t :
  (∀ z, json_roundtrip (fc z) = fc z) → json_roundtrip (table_doc fc t) = table_doc fc t.
Proof.
  intros Hf. unfold table_doc. cbn [json_roundtrip]. f_equal. rewrite map_map. apply map_ext. intros row.
  cbn [json_roundtrip]. f_equal. rewrite map_map. apply map_ext. exact Hf.
Qed.

Lemma json_uniques h : json_roundtrip (uniques_to_val h) = uniques_to_val h.
Proof. unfold uniques_to_val. cbn [json_roundtrip map fst snd]. by rewrite json_ints. Qed.

Lemma json_state_doc fk fc s extra :
  (∀ z, json_roundtrip (fc z) = fc z) → json_roundtrip (VDict extra) = VDict extra →
  json_roundtrip (VDict (state_doc fk fc s ++ extra)) = VDict (state_doc (λ z, json_key (fk z)) fc s ++ extra).
Proof.
  intros Hf He. cbn [json_roundtrip] in *. injection He as He. f_equal. rewrite map_app, He. f_equal.
  unfold state_doc. cbn [map fst snd]. rewrite Hf, json_uniques.
  cbn [json_roundtrip map fst snd]. rewrite !json_buckets_doc, json_table_doc, !Hf, !json_extremum by done. done.
Qed.

(** [from_dict] does not look at other members. *)
Lemma dict_get_app d extra k v : dict_get d k = Some v → dict_get (d ++ extra) k = Some v.
Proof.
  induction d as [|[k' v'] d IH]; cbn; [done|]. destruct k'; try done. case_decide; [done|]. done.
Qed.

Lemma from_dict_extra `{Libm} f s extra :
  slog_from_dict (VDict (slog_with f s ++ extra)) = slog_from_dict (VDict (slog_with f s)).
Proof. done. Qed.

Lemma store_counts d : store_nonneg d → Forall (λ kv, 0 ≤ kv.2) (map_to_list d).
Proof.
  intros Hd. apply Forall_forall. intros [k v] Hk. apply elem_of_map_to_list in Hk.
  specialize (Hd k). unfold get0 in Hd. by rewrite Hk in Hd.
Qed.

Lemma counts_nonneg `{Libm} s : slog_wf s → counts (λ z, 0 ≤ z) s.
Proof.
  intros W. pose proof (swf_latency _ W) as Wl. pose proof (dds_wf_count _ Wl) as Hc.
  pose proof (wf_total _ (swf_events _ W)) as Ht. pose proof (wf_table _ (swf_events _ W)) as Hr.
  destruct Wl as ((Hp & Hn & Hz & _) & _).
  split; [rewrite (swf_total _ W); lia|done|done|lia|by apply store_counts..|].
  eapply Forall_impl; [exact Hr|]. intros row (_ & Hpos & _). eapply Forall_impl; [exact Hpos|]. cbn. lia.
Qed.

(** The stream that [get_or_create] returns, and what it leaves. *)
Lemma get_or_create_here `{Libm} nd ns sid now s0 cs' t cs :
  fresh_log (nd_clustered nd) = Ok s0 →
  match lookup nd ns sid with
  | Some l => holds (log_defaults (nd_clustered nd)) s0 (tl_log l) cs'
  | None => cs' = []
  end →
  log_of_calls s0 t (cs' ++ cs) →
  ∃ l nd1, get_or_create ns sid now nd = (Ok l, nd1) ∧
    holds (log_defaults (nd_clustered nd)) s0 (tl_log l) cs' ∧
    (∀ ns' sid', (ns', sid') ≠ (ns, sid) → lookup nd1 ns' sid' = lookup nd ns' sid') ∧
    nd_mesh nd1 = nd_mesh nd ∧ nd_clustered nd1 = nd_clustered nd.
Proof.
  intros Hi Hl Lt. unfold get_or_create. rewrite (mbind_step _ _ _ _ _ (mget_run _)).
  destruct (lookup nd ns sid) as [l|]; [by exists l, nd|]. subst cs'.
  unfold ts_init, st_init. unfold fresh_log in Hi. rewrite Hi. cbn [res_bind].
  eexists _, _. split; [reflexivity|]. split; [split; [done|by eapply new_log_denotes]|].
  split; [|done]. intros ns' sid' Hne. unfold lookup. cbn. by rewrite od_get_set_ne.
Qed.

(** A state that leaves through the socket can come back through the merge
    endpoint.  For the log of any history of accepted calls, the document that
    the socket sends, its counts as decimal strings, read from JSON text and
    posted to the merge endpoint of a server with the same settings, is
    accepted, and the stream there holds the log that executes its own
    history, if it has one, and then that of the sender; every other stream is
    as before. *)
Theorem socket_state_merges_back `{L : Libm, !LibmLaws L} nd ns sid now now' s0 s cs cs' t state request :
  fresh_log (nd_clustered nd) = Ok s0 → usable (sl_latency s0) →
  log_of_calls s0 s cs → socket_state s = Ok state →
  json_roundtrip (VDict state) = VDict request →
  match lookup nd ns sid with
  | Some l => holds (log_defaults (nd_clustered nd)) s0 (tl_log l) cs'
  | None => cs' = []
  end →
  log_of_calls s0 t (cs' ++ cs) →
  ∃ nd', merge_stream ns sid request now now' nd = (Ok (), nd') ∧
    lookup nd' ns sid = Some (mk_tslog (mk_streamlog (log_defaults (nd_clustered nd)) t) now') ∧
    nd_mesh nd' = nd_mesh nd ∧
    ∀ ns' sid', (ns', sid') ≠ (ns, sid) → lookup nd' ns' sid' = lookup nd ns' sid'.
Proof.
  intros Hi Hu Lc Hs Hj Hl Lt. pose proof Lc as [D V].
  assert (∃ m, state = state_doc VInt text_of_Z s ++ [(VStr "metrics", m)]
               ∧ json_roundtrip m = m) as (m & -> & Hm).
  { unfold socket_state in Hs. change (as_dict (slog_to_dict s)) with (Some (state_doc VInt VInt s)) in Hs.
    cbn [expect res_bind] in Hs. rewrite encode_state_doc in Hs. cbn [res_bind] in Hs.
    destruct (slog_p50 s); [|done]. destruct (slog_p95 s); [|done]. destruct (slog_p99 s); [|done].
    destruct (slog_p999 s); [|done]. destruct (slog_unique_count s); [|done]. cbn [res_bind] in Hs.
    injection Hs as <-. eexists. split; reflexivity. }
  set (extra := [(VStr "metrics", m)]) in *.
  assert (json_roundtrip (VDict extra) = VDict extra) as He by (cbn; by rewrite Hm).
  rewrite json_state_doc in Hj by done. injection Hj as <-.
  assert ((match json_roundtrip (VDict (state_doc (λ z, json_key (VInt z)) text_of_Z s ++ extra)) with
           | VDict state => let? state := decode_state state in st_from_dict (VDict state)
           | _ => Raise (TypeError "indices must be integers") end)
          = Ok (mk_streamlog (log_defaults (nd_clustered nd)) s)) as E.
  { rewrite json_state_doc by done. rewrite decode_state_doc.
    2:{ apply counts_nonneg, D. }
    cbn [res_bind]. unfold st_from_dict. rewrite state_doc_written, from_dict_extra.
    rewrite (from_dict_written _ _ _ _ _ _ s0 s cs) by
      first [done|exact Hi|intros z; cbn; by rewrite canonical_int_str].
    cbn [res_bind]. rewrite (config_of_calls _ _ Hi _ _ D). unfold fresh_log in Hi. by rewrite Hi. }
  unfold merge_stream. rewrite (mbind_step _ _ _ _ _ (mlift_run _ _ _ (f_equal (map_error invalid_state) E))).
  destruct (get_or_create_here nd ns sid now s0 cs' t cs Hi Hl Lt) as (l & nd1 & Eg & Hh & Es & Em & Ec).
  rewrite (mbind_step _ _ _ _ _ Eg).
  assert (ts_merge (mk_streamlog (log_defaults (nd_clustered nd)) s) now' l
          = (Ok (), mk_tslog (mk_streamlog (log_defaults (nd_clustered nd)) t) now')) as ->.
  { unfold ts_merge. rewrite updating_run. unfold st_merge. rewrite on_backend_run. destruct Hh as [Eq Lh]. cbn [st_backend].
    rewrite (log_of_calls_union _ _ Hi _ _ t cs' cs Lh Lc Lt). cbn. unfold set_backend. by rewrite Eq. }
  eexists. split; [reflexivity|]. unfold lookup. cbn. rewrite od_get_set_eq.
  split; [done|]. split; [done|]. intros ns' sid' Hne. rewrite od_get_set_ne by done. by apply Es.
Qed.

(** ** Concrete servers *)

#[local] Abbreviation fine := fine_libm.

Lemma fine_new_ok : fresh_log (H := fine) true = Ok fine_new_log.
Proof. vm_compute. reflexivity. Qed.

Lemma fine_new_usable : usable (H := fine) (sl_latency fine_new_log).
Proof. split; [|split; vm_compute; reflexivity]. split; vm_compute; reflexivity. Qed.

Definition run_log (cs : list slog_call) : slog := exec (slog_run (H := fine) cs) fine_new_log.

Lemma run_log_calls cs :
  result (slog_run (H := fine) cs) fine_new_log = Ok () → Forall call_valid cs →
  log_of_calls (H := fine) fine_new_log (run_log cs) cs.
Proof.
  intros Hr V. split; [|done]. unfold run_log, exec, result in *.
  eapply (slog_run_denotes (H := fine) cs fine_new_log fine_new_log []).
  - exact (proj1 (new_log_denotes (H := fine) _ _ fine_new_ok)).
  - destruct (slog_run cs fine_new_log) as [r s]. cbn in *. by subst r.
Qed.

Definition calls_here : list slog_call := [SLatency 1%float; SEvent (KStr "e") 1].
Definition calls_there : list slog_call := [SLatency (-1)%float; SEvent (KStr "e") 2; SUnique (KStr "u")].

Definition demo_node : node :=
  mk_node [(("a", "s"), mk_tslog (mk_streamlog (log_defaults true) (run_log calls_here)) 1%float)]
    (set_peers [(stream_key "b" "s", [("node-b", (run_log calls_there, PFlt 5%float))])] [] demo_mesh) true.

Definition demo_hist (s : slog) : list slog_call := if sl_total s =? 2 then calls_here else calls_there.

Lemma here_ok : log_of_calls (H := fine) fine_new_log (run_log calls_here) calls_here.
Proof. apply run_log_calls; [vm_compute; reflexivity|]. repeat constructor; done. Qed.
Lemma there_ok : log_of_calls (H := fine) fine_new_log (run_log calls_there) calls_there.
Proof. apply run_log_calls; [vm_compute; reflexivity|]. repeat constructor; done. Qed.
Lemma both_ok : log_of_calls (H := fine) fine_new_log (run_log (calls_here ++ calls_there)) (calls_here ++ calls_there).
Proof. apply run_log_calls; [vm_compute; reflexivity|]. repeat constructor; done. Qed.

Lemma demo_hist_here : demo_hist (run_log calls_here) = calls_here.
Proof. vm_compute. reflexivity. Qed.
Lemma demo_hist_there : demo_hist (run_log calls_there) = calls_there.
Proof. vm_compute. reflexivity. Qed.

Lemma demo_histories : histories_ok (H := fine) demo_node fine_new_log demo_hist.
Proof.
  split.
  - intros ns sid l. unfold lookup. cbn [demo_node nd_streams od_get]. case_decide; [|done]. intros [= <-].
    split; [done|]. cbn [tl_log st_backend]. rewrite demo_hist_here. exact here_ok.
  - intros ns sid s. unfold peer_logs, group. cbn [demo_node nd_clustered nd_mesh set_peers ms_snapshots od_get].
    case_decide; cbn; [|by intros ?%elem_of_nil]. intros ->%list_elem_of_singleton. rewrite demo_hist_there. exact there_ok.
Qed.

(** The local stream of one namespace and the peer's of another. *)
Lemma reports_are_unions_witness :
  get_metrics (H := fine) demo_node "b" "s" = metrics_of (H := fine) (run_log calls_there) ∧
  aggregate (H := fine) demo_node (chars "a, b,a") "s" = metrics_of (H := fine) (run_log (calls_here ++ calls_there)).
Proof.
  destruct (reports_are_unions (H := fine) demo_node fine_new_log demo_hist "s" fine_new_ok demo_histories) as [M A].
  split.
  - rewrite (M "b"%string (run_log calls_there)); [by vm_compute|]. exact there_ok.
  - destruct (A (chars "a, b,a") (run_log (calls_here ++ calls_there))) as (_ & _ & E).
    + intros ns Hn. assert (ns = "a" ∨ ns = "b")%string as [-> | ->].
      { assert (aggregate_names (chars "a, b,a") = ["a"; "b"]%string) as E by by vm_compute. rewrite E in Hn.
        apply elem_of_cons in Hn as [->|Hn]; [by left|right]. by apply list_elem_of_singleton. }
      * exists fine_new_log. exact (new_log_denotes (H := fine) _ _ fine_new_ok).
      * exists (run_log calls_there). exact there_ok.
    + exact both_ok.
    + rewrite E. by vm_compute.
Defined.


(** A server without streams, and the state of another. *)
Definition empty_node : node := mk_node [] demo_mesh true.
Definition sent_state : pydict :=
  match socket_state (H := fine) (run_log calls_there) with Ok d => d | Raise _ => [] end.
Definition posted_state : pydict :=
  match json_roundtrip (VDict sent_state) with VDict d => d | _ => [] end.

Lemma socket_state_merges_back_witness :
  ∃ nd', merge_stream (H := fine) "c" "s" posted_state 2%float 3%float empty_node = (Ok (), nd') ∧
    option_map (λ l, sl_total (st_backend (tl_log l))) (lookup nd' "c" "s") = Some 3.
Proof.
  destruct (socket_state_merges_back (L := fine) empty_node "c" "s" 2%float 3%float fine_new_log
    (run_log calls_there) calls_there [] (run_log calls_there) sent_state posted_state) as (nd' & E & El & _).
  - exact fine_new_ok.
  - exact fine_new_usable.
  - exact there_ok.
  - vm_compute. reflexivity.
  - reflexivity.
  - reflexivity.
  - exact there_ok.
  - exists nd'. split; [exact E|]. rewrite El. vm_compute. reflexivity.
Defined.

(** A state whose buckets are no dictionary is not refused but crashes the
    handler: the exception of [latency[bucket_group].items()] is none of those
    it catches. *)
Definition bad_buckets : pydict :=
  [(VStr "total", VInt 0);
   (VStr "latency", VDict [(VStr "zero_count", VInt 0); (VStr "count", VInt 0); (VStr "positive", VList [])]);
   (VStr "events", VDict [(VStr "total", VInt 0)])].

Lemma bad_buckets_crash :
  ∃ msg, result (merge_stream (H := fine) "c" "s" bad_buckets 2%float 3%float) empty_node = Raise (AttributeError msg).
Proof. eexists. vm_compute. reflexivity. Qed.

(** A state that cannot be merged is refused with 422, but the stream it was
    posted to exists from then on. *)
Definition other_settings : pydict :=
  match slog_to_dict (exec (slog_run (H := coarse_libm) demo_calls1) demo_log) with VDict d => d | _ => [] end.

Lemma refused_merge_leaves_stream :
  ∃ msg, result (merge_stream (H := fine) "c" "s" other_settings 2%float 3%float) empty_node
         = Raise (HTTPException 422 msg) ∧
  option_map (λ l, sl_total (st_backend (tl_log l)))
    (lookup (exec (merge_stream (H := fine) "c" "s" other_settings 2%float 3%float) empty_node) "c" "s") = Some 0.
Proof. eexists. split; vm_compute; reflexivity. Qed.
