(* ===== verification/Agent.v ===== *)
(** * The agent ([agent.py])

    A sidecar that scrapes Prometheus text, maps samples to streams, turns
    counters into deltas and posts the batches in chunks.

    Proved: the chunks are a partition of a batch; over any number of answered
    runs what the server has taken of an event is what the history of the
    samples counts, and a whole counter that only goes up is forwarded without
    loss; the address of a batch names its namespace and stream whatever
    characters they hold.  Three behaviours are pinned down: growth below one
    half is lost, so is that of a run whose post failed, and so are samples
    with a brace in a label.

    Fetching and posting are parameters, as are [float] of a numeral and the
    text of a float; texts are ASCII for [\s], [\d] and [splitlines].  Reading
    the configuration file and the command line are left out. *)

From Stdlib Require Import Ascii String PrimFloat SpecFloat FloatOps FloatAxioms.
From S2P Require Import Prelude PyFloat FloatRound Hashing CountMin HyperLogLog DDSketch PyVal PyDict Json StreamLog Windowed SqlParser Server Membership.

#[local] Open Scope Z_scope.
#[local] Open Scope py_scope.
#[local] Set Warnings "-inexact-float".

(** ** Prometheus text *)

Definition is_line_break (a : ascii) : bool :=
  let n := nat_of_ascii a in ((10 <=? n) && (n <=? 13) || (28 <=? n) && (n <=? 30))%nat.

(** [text.splitlines()] *)
Fixpoint splitlines (l : text) : list text :=
  match l with
  | [] => []
  | a :: l' =>
      if is_line_break a then
        match l' with
        | b :: l'' => if decide (a = "013" ∧ b = "010")%char then [] :: splitlines l'' else [] :: splitlines l'
        | [] => [[]]
        end
      else match splitlines l' with w :: ws => (a :: w) :: ws | [] => [[a]] end
  end.

Definition in_range (lo hi : nat) (a : ascii) : bool :=
  let n := nat_of_ascii a in ((lo <=? n) && (n <=? hi))%nat.
Definition is_digit (a : ascii) : bool := in_range 48 57 a.
Definition label_start (a : ascii) : bool :=
  in_range 65 90 a || in_range 97 122 a || bool_decide (a = "_"%char).
Definition label_char (a : ascii) : bool := label_start a || is_digit a.
Definition name_start (a : ascii) : bool := label_start a || bool_decide (a = ":"%char).
Definition name_char (a : ascii) : bool := name_start a || is_digit a.

(** [p*]: the longest prefix of characters of a class, and the rest. *)
Fixpoint span (p : ascii → bool) (l : text) : text * text :=
  match l with
  | a :: l' => if p a then let '(w, r) := span p l' in (a :: w, r) else ([], l)
  | [] => ([], [])
  end.
(** [p+] *)
Definition span1 (p : ascii → bool) (l : text) : option (text * text) :=
  match span p l with ([], _) => None | (w, r) => Some (w, r) end.

(** One character of a class, if the text starts with one. *)
Definition take_if (p : ascii → bool) (l : text) : text * text :=
  match l with a :: l' => if p a then ([a], l') else ([], l) | [] => ([], []) end.
Definition is_sign (a : ascii) : bool := bool_decide (a = "+"%char) || bool_decide (a = "-"%char).

(** A separator of a class and at least one digit after it (with a sign in
    between when [signed]); nothing when the text goes on otherwise. *)
Definition optional_digits (p : ascii → bool) (signed : bool) (l : text) : text * text :=
  match take_if p l with
  | ([], _) => ([], l)
  | (sep, r) =>
      let '(sign, r) := if signed then take_if is_sign r else ([], r) in
      match span1 is_digit r with
      | Some (ds, r) => (sep ++ sign ++ ds, r)
      | None => ([], l)
      end
  end.

(** The value of [_SAMPLE_RE]. *)
Definition match_value (l : text) : option (text * text) :=
  let '(sign, r) := take_if is_sign l in
  match span1 is_digit r with
  | Some (ds, r) =>
      let '(frac, r) := optional_digits (λ a, bool_decide (a = "."%char)) false r in
      let '(ex, r) := optional_digits (λ a, bool_decide (a = "e"%char ∨ a = "E"%char)) true r in
      Some (sign ++ ds ++ frac ++ ex, r)
  | None =>
      if starts_with (chars "Inf") r then Some (sign ++ chars "Inf", drop 3 r)
      else if starts_with (chars "NaN") l then Some (chars "NaN", drop 3 l)
      else None
  end.

(** [(?:\{([^}]* )\})?] *)
Definition match_braces (l : text) : option text * text :=
  match l with
  | "{"%char :: r =>
      match span (λ a, negb (bool_decide (a = "}"%char))) r with
      | (raw, _ :: r) => (Some raw, r)
      | (_, []) => (None, l)
      end
  | _ => (None, l)
  end.

(** [_SAMPLE_RE.match(line)] of a stripped line: the three groups. *)
Definition match_sample (line : text) : option (text * option text * text) :=
  match line with
  | a :: _ =>
      if name_start a then
        let '(name, r) := span name_char line in
        let '(labels, r) := match_braces r in
        match span1 is_space r with
        | None => None
        | Some (_, r) =>
            match match_value r with
            | None => None
            | Some (value, r) =>
                match r with
                | [] => Some (name, labels, value)
                | _ =>
                    match span1 is_space r with
                    | Some (_, r) => match span1 is_digit r with
                                     | Some (_, []) => Some (name, labels, value)
                                     | _ => None
                                     end
                    | None => None
                    end
                end
            end
        end
      else None
  | [] => None
  end.

(** The value of a label up to its closing quote: pairs of a backslash and any
    character but a line feed, and characters that are neither. *)
Fixpoint match_quoted (l : text) : option (text * text) :=
  match l with
  | [] => None
  | a :: l' =>
      if decide (a = "034"%char) then Some ([], l')
      else if decide (a = "\"%char) then
        match l' with
        | b :: l'' =>
            if decide (b = "010"%char) then None
            else match match_quoted l'' with Some (v, r) => Some (a :: b :: v, r) | None => None end
        | [] => None
        end
      else match match_quoted l' with Some (v, r) => Some (a :: v, r) | None => None end
  end.

(** [_LABEL_RE] at one position: the name, the value and what follows. *)
Definition match_label (l : text) : option (text * text * text) :=
  match l with
  | a :: _ =>
      if label_start a then
        let '(name, r) := span label_char l in
        match r with
        | e :: q :: r =>
            if decide (e = "=" ∧ q = "034")%char then
              match match_quoted r with Some (v, r) => Some (name, v, r) | None => None end
            else None
        | _ => None
        end
      else None
  | [] => None
  end.

(** [_LABEL_RE.finditer(raw)]; a text has no more matches than characters. *)
Fixpoint find_labels (fuel : nat) (l : text) : list (text * text) :=
  match fuel with
  | O => []
  | S fuel =>
      match match_label l with
      | Some (name, v, r) => (name, v) :: find_labels fuel r
      | None => match l with _ :: l' => find_labels fuel l' | [] => [] end
      end
  end.

Fixpoint unescape_label_value (l : text) : text :=
  match l with
  | [] => []
  | a :: l' =>
      if decide (a = "\"%char) then
        match l' with
        | b :: l'' =>
            (if decide (b = "n"%char) then ["010"%char]
             else if decide (b = "\" ∨ b = "034")%char then [b]
             else [a; b]) ++ unescape_label_value l''
        | [] => [a]
        end
      else a :: unescape_label_value l'
  end.

Definition parse_labels (raw : text) : list (string * string) :=
  fold_left (λ d m, od_set (str m.1) (str (unescape_label_value m.2)) d) (find_labels (S (length raw)) raw) [].

Record prometheus_sample := mk_sample {
  sa_name : string;
  sa_labels : list (string * string);
  sa_value : float
}.

(** ** Configuration *)

Inductive mapping_kind := MLatency | MEvent | MUnique.

#[export] Instance mapping_kind_eq_dec : EqDecision mapping_kind.
Proof. solve_decision. Defined.

Record stream_mapping := mk_mapping {
  sm_metric : string;
  sm_stream : string;
  sm_kind : mapping_kind;
  sm_event_name : option string;
  sm_label_filters : list (string * string);
  sm_value_scale : float;
  sm_counter_mode : string
}.

Definition dot_segment (part : text) : bool :=
  bool_decide (part = []) || bool_decide (part = chars ".") || bool_decide (part = chars "..").

Definition validate_stream_path (stream : string) : res unit :=
  fail_if (bool_decide (stream = "") || (255 <? py_len stream) || py_startswith stream "/"
           || existsb dot_segment (split_on slash (chars stream)))
    (ValueError "stream names must be 1-255 characters and must not contain empty or dot path segments").

(** [StreamMapping.__post_init__] *)
Definition check_mapping (m : stream_mapping) : res unit :=
  if bool_decide (sm_metric m = "") then Raise (ValueError "mapping.metric must not be empty")
  else
    let? _ := validate_stream_path (sm_stream m) in
    if negb (isfinite (sm_value_scale m)) || fle (sm_value_scale m) 0%float
    then Raise (ValueError "mapping.value_scale must be positive and finite")
    else if bool_decide (sm_kind m = MEvent) && negb (nonempty (sm_event_name m))
    then Raise (ValueError "event mappings require event_name")
    else if negb (bool_decide (sm_counter_mode m = "delta" ∨ sm_counter_mode m = "absolute"))
    then Raise (ValueError "mapping.counter_mode must be delta or absolute")
    else Ok ().

Record prometheus_target := mk_target {
  pt_name : string;
  pt_url : string;
  pt_timeout_seconds : float
}.

Record server_config := mk_server_config {
  sc_endpoint : string;
  sc_namespace : string;
  sc_auth_token : option string;
  sc_auth_token_env : option string;
  sc_timeout_seconds : float
}.

Record agent_config := mk_agent_config {
  ac_server : server_config;
  ac_targets : list prometheus_target;
  ac_mappings : list stream_mapping;
  ac_interval_seconds : float;
  ac_max_batch_items : Z
}.

(** A [netloc] that is not empty. *)
Class Netloc := url_netloc : url_parts → string.

Definition http_url `{UrlSplit} `{Netloc} (url : string) : res bool :=
  let? parsed := urlsplit url in
  Ok (bool_decide (url_scheme parsed = "http" ∨ url_scheme parsed = "https")
      && negb (bool_decide (url_netloc parsed = ""))).

(** [__post_init__] of the server, of a target and of the whole. *)
Definition check_server `{UrlSplit} `{Netloc} (c : server_config) : res unit :=
  let? http := http_url (sc_endpoint c) in
  if negb http then Raise (ValueError "server.endpoint must be an http(s) URL")
  else if bool_decide (sc_namespace c = "") || (255 <? py_len (sc_namespace c))
          || contains_char slash (sc_namespace c) || dot_segment (chars (sc_namespace c))
  then Raise (ValueError "server.namespace must be one safe path segment")
  else if negb (isfinite (sc_timeout_seconds c)) || fle (sc_timeout_seconds c) 0%float
  then Raise (ValueError "server.timeout_seconds must be positive and finite")
  else Ok ().

Definition check_target `{UrlSplit} `{Netloc} (t : prometheus_target) : res unit :=
  let? http := http_url (pt_url t) in
  if bool_decide (pt_name t = "") then Raise (ValueError "prometheus target name must not be empty")
  else if negb http then Raise (ValueError "prometheus target url must be http(s)")
  else if negb (isfinite (pt_timeout_seconds t)) || fle (pt_timeout_seconds t) 0%float
  then Raise (ValueError "prometheus target timeout_seconds must be positive and finite")
  else Ok ().

Definition check_agent_config (c : agent_config) : res unit :=
  if negb (isfinite (ac_interval_seconds c)) || fle (ac_interval_seconds c) 0%float
  then Raise (ValueError "interval_seconds must be positive and finite")
  else if ac_max_batch_items c <? 1 then Raise (ValueError "max_batch_items must be >= 1")
  else if bool_decide (length (ac_targets c) = 0%nat)
  then Raise (ValueError "at least one prometheus target is required")
  else if bool_decide (length (ac_mappings c) = 0%nat)
  then Raise (ValueError "at least one mapping is required")
  else Ok ().

(** [resolved_auth_token], with the environment as an argument *)
Definition resolved_auth_token (environ : string → option string) (c : server_config) : option string :=
  let from_env := match sc_auth_token_env c with
                  | None | Some "" => None
                  | Some name => environ name
                  end in
  if nonempty from_env then from_env else sc_auth_token c.

(** ** Batches *)

Record event_batch := mk_event_batch {
  eb_latencies : list float;
  eb_uniques : list string;
  eb_events : list (string * Z)
}.

Definition empty_batch : event_batch := mk_event_batch [] [] [].

Definition item_count (b : event_batch) : Z :=
  Z.of_nat (length (eb_latencies b) + length (eb_uniques b) + length (eb_events b)).

Definition add_latency (x : float) (b : event_batch) : event_batch :=
  mk_event_batch (eb_latencies b ++ [x]) (eb_uniques b) (eb_events b).
Definition add_unique (s : string) (b : event_batch) : event_batch :=
  mk_event_batch (eb_latencies b) (eb_uniques b ++ [s]) (eb_events b).
Definition set_event (name : string) (n : Z) (b : event_batch) : event_batch :=
  mk_event_batch (eb_latencies b) (eb_uniques b) (od_set name n (eb_events b)).

(** One loop of [_chunk_batch]: a chunk that is full is yielded before the
    next item is put; the chunks yielded and the current one. *)
Fixpoint chunk_items {A} (max_items : Z) (put : A → event_batch → event_batch) (items : list A)
    (current : event_batch) : list event_batch * event_batch :=
  match items with
  | [] => ([], current)
  | x :: items =>
      let full := max_items <=? item_count current in
      let '(out, last) := chunk_items max_items put items
                            (put x (if full then empty_batch else current)) in
      ((if full then [current] else []) ++ out, last)
  end.

Definition chunk_batch (b : event_batch) (max_items : Z) : list event_batch :=
  let '(out1, current) := chunk_items max_items add_latency (eb_latencies b) empty_batch in
  let '(out2, current) := chunk_items max_items add_unique (eb_uniques b) current in
  let '(out3, current) := chunk_items max_items (λ e, set_event e.1 e.2) (eb_events b) current in
  out1 ++ out2 ++ out3 ++ (if 0 <? item_count current then [current] else []).

(** ** Mapping samples *)

(** [int(round(x))]: to the nearest integer, ties to even. *)
Definition py_round_int (x : float) : res Z :=
  match Prim2SF x with
  | S754_zero _ => Ok 0
  | S754_nan => Raise (ValueError "cannot convert float NaN to integer")
  | S754_infinity _ => Raise (OverflowError "cannot convert float infinity to integer")
  | S754_finite s m e =>
      let n := if 0 <=? e then Zpos m * 2 ^ e else div_half_even (Zpos m) (2 ^ (- e)) in
      Ok (if s then - n else n)
  end.

(** [x.is_integer()] of a finite float *)
Definition is_integer (x : float) : bool :=
  match py_int x with Ok n => feq (float_of_Z n) x | Raise _ => false end.

(** Pairs sorted by their first components, which are distinct. *)
Fixpoint insert_pair (x : string * string) (l : list (string * string)) : list (string * string) :=
  match l with
  | [] => [x]
  | y :: l' => if String.ltb y.1 x.1 then y :: insert_pair x l' else x :: l
  end.
Definition sort_pairs (l : list (string * string)) : list (string * string) := foldr insert_pair [] l.

Record counter_key := mk_counter_key {
  ck_target : string;
  ck_url : string;
  ck_index : Z;
  ck_metric : string;
  ck_labels : list (string * string);
  ck_stream : string;
  ck_event : string
}.

#[export] Instance counter_key_eq_dec : EqDecision counter_key.
Proof. solve_decision. Defined.

(** The agent during a run: the last values of the counters, and the batches
    of the run. *)
Record agent_run := mk_agent_run {
  ar_last : list (counter_key * float);
  ar_batches : list (string * event_batch)
}.

Definition set_last (l : list (counter_key * float)) (a : agent_run) : agent_run :=
  mk_agent_run l (ar_batches a).
Definition set_batches (l : list (string * event_batch)) (a : agent_run) : agent_run :=
  mk_agent_run (ar_last a) l.

(** The batch of a stream; [setdefault] makes it. *)
Definition batch_of (stream : string) (a : agent_run) : event_batch :=
  default empty_batch (od_get (ar_batches a) stream).
Definition put_batch (stream : string) (f : event_batch → event_batch) (a : agent_run) : agent_run :=
  set_batches (od_set stream (f (batch_of stream a)) (ar_batches a)) a.
Definition on_batch (stream : string) (f : event_batch → event_batch) : M agent_run unit :=
  mmodify (put_batch stream f).

Definition mapping_matches (m : stream_mapping) (s : prometheus_sample) : bool :=
  bool_decide (sa_name s = sm_metric m)
  && forallb (λ kv, bool_decide (od_get (sa_labels s) kv.1 = Some kv.2)) (sm_label_filters m).

Section agent.
Context `{FloatParser} `{FloatRepr}.

(** [_parse_float] of a value the pattern has matched *)
Definition parse_float (value : text) : option float :=
  let normalized := if decide (value = chars "+Inf") then chars "inf"
                    else if decide (value = chars "-Inf") then chars "-inf"
                    else if decide (value = chars "Inf") then chars "inf" else value in
  match py_float_str (str normalized) with
  | Ok x => if isfinite x then Some x else None
  | Raise _ => None
  end.

Definition parse_line (raw_line : text) : option prometheus_sample :=
  let line := strip_chars raw_line in
  if bool_decide (line = []) || starts_with (chars "#") line then None
  else
    match match_sample line with
    | None => None
    | Some (name, labels, value) =>
        match parse_float value with
        | None => None
        | Some x => Some (mk_sample (str name) (parse_labels (default [] labels)) x)
        end
    end.

Definition parse_prometheus_text (t : text) : list prometheus_sample :=
  omap parse_line (splitlines t).

Definition key_of (t : prometheus_target) (index : Z) (m : stream_mapping) (s : prometheus_sample)
    : counter_key :=
  mk_counter_key (pt_name t) (pt_url t) index (sm_metric m) (sort_pairs (sa_labels s)) (sm_stream m)
    (default "" (sm_event_name m)).

Definition apply_event_mapping (t : prometheus_target) (index : Z) (m : stream_mapping)
    (s : prometheus_sample) (value : float) : M agent_run bool :=
  match sm_event_name m with
  | None => mret false
  | Some name =>
      if flt value 0%float then mret false
      else
        delta <- (if decide (sm_counter_mode m = "delta") then
                    a <- mget ;;
                    let key := key_of t index m s in
                    let previous := od_get (ar_last a) key in
                    mmodify (set_last (od_set key value (ar_last a))) ;;;
                    mret (match previous with
                          | None => None
                          | Some p => Some (fmax 0%float (value - p)%float)
                          end)
                  else mret (Some value)) ;;
        match delta with
        | None => mret false
        | Some value =>
            count <- mlift (py_round_int value) ;;
            if count <=? 0 then mret false
            else
              on_batch (sm_stream m)
                (λ b, set_event name (default 0 (od_get (eb_events b) name) + count) b) ;;;
              mret true
        end
  end.

Definition apply_mapping (t : prometheus_target) (index : Z) (m : stream_mapping) (s : prometheus_sample)
    : M agent_run bool :=
  let value := (sa_value s * sm_value_scale m)%float in
  if negb (isfinite value) then mret false
  else
    on_batch (sm_stream m) (λ b, b) ;;;
    match sm_kind m with
    | MLatency =>
        if flt value 0%float then mret false
        else on_batch (sm_stream m) (add_latency value) ;;; mret true
    | MUnique =>
        item <- mlift (if is_integer value then let? n := py_int value in Ok (str_of_Z n)
                       else Ok (float_repr value)) ;;
        on_batch (sm_stream m) (add_unique item) ;;; mret true
    | MEvent => apply_event_mapping t index m s value
    end.

(** One sample: how many mappings took it, and how many did not. *)
Fixpoint apply_mappings (t : prometheus_target) (mappings : list (Z * stream_mapping))
    (s : prometheus_sample) : M agent_run (bool * Z * Z) :=
  match mappings with
  | [] => mret (false, 0, 0)
  | (index, m) :: mappings =>
      if negb (mapping_matches m s) then apply_mappings t mappings s
      else
        ok <- apply_mapping t index m s ;;
        r <- apply_mappings t mappings s ;;
        let '(_, matched, skipped) := r in
        mret (true, (if ok then matched + 1 else matched), (if ok then skipped else skipped + 1))
  end.

Fixpoint apply_samples (t : prometheus_target) (mappings : list (Z * stream_mapping))
    (samples : list prometheus_sample) : M agent_run (Z * Z) :=
  match samples with
  | [] => mret (0, 0)
  | s :: samples =>
      r <- apply_mappings t mappings s ;;
      let '(any_match, matched, skipped) := r in
      r' <- apply_samples t mappings samples ;;
      mret (matched + r'.1, skipped + (if any_match then 0 else 1) + r'.2)
  end.

(** The scrapes of one run: [scrape] answers for a target. *)
Fixpoint scrape_all (mappings : list (Z * stream_mapping)) (scrape : prometheus_target → res text)
    (targets : list prometheus_target) : M agent_run (Z * Z) :=
  match targets with
  | [] => mret (0, 0)
  | t :: targets =>
      body <- mlift (scrape t) ;;
      r <- apply_samples t mappings (parse_prometheus_text body) ;;
      r' <- scrape_all mappings scrape targets ;;
      mret (r.1 + r'.1, r.2 + r'.2)
  end.
End agent.

(** ** Forwarding *)

(** The posts of a run, in order, with their answers. *)
Fixpoint send_chunks (stream : string) (chunks : list event_batch) (send : Z → res unit)
    : M (list (string * event_batch)) (Z * Z) :=
  match chunks with
  | [] => mret (0, 0)
  | c :: chunks =>
      sent <- mget ;;
      mlift (send (Z.of_nat (length sent))) ;;;
      mmodify (λ l, l ++ [(stream, c)]) ;;;
      r <- send_chunks stream chunks send ;;
      mret (r.1 + 1, r.2 + item_count c)
  end.

Fixpoint flush_batches (max_items : Z) (batches : list (string * event_batch)) (send : Z → res unit)
    : M (list (string * event_batch)) (Z * Z) :=
  match batches with
  | [] => mret (0, 0)
  | (stream, b) :: batches =>
      if item_count b =? 0 then flush_batches max_items batches send
      else
        r <- send_chunks stream (chunk_batch b max_items) send ;;
        r' <- flush_batches max_items batches send ;;
        mret (r.1 + r'.1, r.2 + r'.2)
  end.

Record agent_run_stats := mk_agent_run_stats {
  rs_scraped_targets : Z;
  rs_matched_samples : Z;
  rs_forwarded_batches : Z;
  rs_forwarded_items : Z;
  rs_skipped_samples : Z
}.

(** The agent between runs: the counters, and everything the server took. *)
Record agent := mk_agent {
  ag_last : list (counter_key * float);
  ag_sent : list (string * event_batch)
}.

Definition run_once `{FloatParser} `{FloatRepr} (c : agent_config)
    (scrape : prometheus_target → res text) (send : Z → res unit) : M agent agent_run_stats :=
  λ a,
    let '(r, run) := scrape_all (py_enumerate (ac_mappings c)) scrape (ac_targets c)
                       (mk_agent_run (ag_last a) []) in
    match r with
    | Raise e => (Raise e, mk_agent (ar_last run) (ag_sent a))
    | Ok (matched, skipped) =>
        let '(f, sent) := flush_batches (ac_max_batch_items c) (ar_batches run) send [] in
        (let? n := f in
         Ok (mk_agent_run_stats (Z.of_nat (length (ac_targets c))) matched n.1 n.2 skipped),
         mk_agent (ar_last run) (ag_sent a ++ sent))
    end.

(** ** URLs *)

Definition hex_digit (n : nat) : ascii := ascii_of_nat (if (n <? 10)%nat then n + 48 else n + 55).

Definition unreserved (a : ascii) : bool :=
  label_char a || bool_decide (a = "."%char) || bool_decide (a = "-"%char) || bool_decide (a = "~"%char).

(** [urllib.parse.quote] without safe characters *)
Definition quote_char (a : ascii) : text :=
  if unreserved a then [a]
  else let n := nat_of_ascii a in ["%"%char; hex_digit (n / 16); hex_digit (n mod 16)].
Definition quote (l : text) : text := flat_map quote_char l.

(** [sep.join(parts)] *)
Fixpoint join (sep : text) (parts : list text) : text :=
  match parts with
  | [] => []
  | [p] => p
  | p :: parts => p ++ sep ++ join sep parts
  end.

(** The path of the URL below the path of the endpoint. *)
Definition events_path (base_path : text) (namespace stream : string) : text :=
  base_path ++ chars "/v1/namespaces/" ++ quote (chars namespace) ++ chars "/streams/"
  ++ join [slash] (map quote (split_on slash (chars stream))) ++ chars "/events".

(** [_stream_events_url]; putting the parts together again is [urlunsplit]'s. *)
Definition stream_events_path `{UrlSplit} (endpoint namespace stream : string) : res text :=
  let? _ := validate_stream_path stream in
  let? parsed := urlsplit endpoint in
  Ok (events_path (chars (py_rstrip "/" (url_path parsed))) namespace stream).

(** ** Chunks *)

Lemma item_count_add_latency x b : item_count (add_latency x b) = item_count b + 1.
Proof. unfold item_count. cbn. rewrite length_app. cbn. lia. Qed.
Lemma item_count_add_unique x b : item_count (add_unique x b) = item_count b + 1.
Proof. unfold item_count. cbn. rewrite length_app. cbn. lia. Qed.

Lemma od_set_new {K A} `{EqDecision K} (k : K) (v : A) d : k ∉ od_keys d → od_set k v d = d ++ [(k, v)].
Proof.
  induction d as [|[k' v'] d IH]; cbn; [done|]. intros [Hk Hd]%not_elem_of_cons.
  rewrite decide_False by congruence. by rewrite IH.
Qed.

(** A loop that appends to one of the three parts: [g] is the part, [fits]
    what the loop needs of the current chunk and the items to come. *)
Section chunk_loop.
Context {A B : Type} (put : A → event_batch → event_batch) (max_items : Z) (Hm : 1 ≤ max_items).
Context (fits : event_batch → list A → Prop).
Context (fits_empty : ∀ b items, fits b items → fits empty_batch items).
Context (put_count : ∀ x b items, fits b (x :: items) → item_count (put x b) = item_count b + 1).
Context (put_fits : ∀ x b items, fits b (x :: items) → fits (put x b) items).

Lemma chunk_items_counts items : ∀ cur,
  fits cur items → item_count cur ≤ max_items →
  let '(out, last) := chunk_items max_items put items cur in
  Forall (λ c, item_count c = max_items) out ∧ item_count last ≤ max_items ∧
  Z.of_nat (length out) * max_items + item_count last = item_count cur + Z.of_nat (length items) ∧
  (items ≠ [] → 1 ≤ item_count last) ∧ (items = [] → last = cur ∧ out = []).
Proof using Hm fits_empty put_count put_fits.
  induction items as [|x items IH]; intros cur Hf Hc; cbn [chunk_items length].
  { split_and!; [constructor|lia|lia|done|done]. }
  set (start := if max_items <=? item_count cur then empty_batch else cur).
  assert (fits start (x :: items) ∧ item_count start < max_items) as [Hs Hlt].
  { unfold start. destruct (Z.leb_spec max_items (item_count cur)); [|done].
    split; [by eapply fits_empty|]. change (item_count empty_batch) with 0. lia. }
  pose proof (put_count _ _ _ Hs) as Ep. pose proof (put_fits _ _ _ Hs) as Fp.
  specialize (IH (put x start) Fp ltac:(lia)).
  destruct (chunk_items max_items put items (put x start)) as [out last].
  destruct IH as (H1 & H2 & H3 & H4 & H5).
  assert (1 ≤ item_count last) as Hl.
  { destruct items as [|y items]; [|by apply H4]. destruct (H5 eq_refl) as [-> _].
    rewrite Ep. unfold item_count. lia. }
  split_and!; [|done| |done|done].
  - apply Forall_app. split; [|done]. unfold start in Hlt.
    destruct (Z.leb_spec max_items (item_count cur)); [|constructor]. repeat constructor. lia.
  - rewrite length_app. unfold start in *.
    destruct (Z.leb_spec max_items (item_count cur)); cbn [length] in *.
    + change (item_count empty_batch) with 0 in Ep. assert (item_count cur = max_items) by lia. nia.
    + lia.
Qed.

Context (part : event_batch → list B) (g : A → B).
Context (part_empty : part empty_batch = []).
Context (part_put : ∀ x b items, fits b (x :: items) → part (put x b) = part b ++ [g x]).

Lemma chunk_items_part items : ∀ cur,
  fits cur items →
  let '(out, last) := chunk_items max_items put items cur in
  flat_map part out ++ part last = part cur ++ map g items.
Proof using fits_empty put_fits part_empty part_put.
  induction items as [|x items IH]; intros cur Hf; cbn [chunk_items map].
  { cbn. by rewrite app_nil_r. }
  set (start := if max_items <=? item_count cur then empty_batch else cur).
  assert (fits start (x :: items)) as Hs.
  { unfold start. destruct (max_items <=? item_count cur); [by eapply fits_empty|done]. }
  specialize (IH (put x start) (put_fits _ _ _ Hs)).
  destruct (chunk_items max_items put items (put x start)) as [out last].
  rewrite flat_map_app, <- app_assoc, IH, (part_put _ _ _ Hs), <- app_assoc.
  unfold start. destruct (max_items <=? item_count cur); cbn; [|done].
  by rewrite part_empty, app_nil_r.
Qed.

(** A part the loop does not touch is moved along. *)
Context (other : event_batch → list B) (other_empty : other empty_batch = []).
Context (other_put : ∀ x b, other (put x b) = other b).

Lemma chunk_items_other items : ∀ cur,
  let '(out, last) := chunk_items max_items put items cur in
  flat_map other out ++ other last = other cur.
Proof using other_empty other_put.
  induction items as [|x items IH]; intros cur; cbn [chunk_items]; [done|].
  set (start := if max_items <=? item_count cur then empty_batch else cur).
  specialize (IH (put x start)). destruct (chunk_items max_items put items (put x start)) as [out last].
  rewrite flat_map_app, <- app_assoc, IH, other_put.
  unfold start. destruct (max_items <=? item_count cur); cbn; [|done].
  by rewrite other_empty, !app_nil_r.
Qed.
End chunk_loop.

(** The keys of the events to come are new. *)
Definition fresh_events (b : event_batch) (es : list (string * Z)) : Prop :=
  NoDup (od_keys (eb_events b) ++ es.*1).

Lemma fresh_events_head e b es : fresh_events b (e :: es) → e.1 ∉ od_keys (eb_events b).
Proof.
  unfold fresh_events. rewrite fmap_cons. intros Hn Hi. apply NoDup_app in Hn as (_ & Hd & _).
  apply (Hd _ Hi). by left.
Qed.

Lemma fresh_events_put e b es : fresh_events b (e :: es) → fresh_events (set_event e.1 e.2 b) es.
Proof.
  intros Hf. unfold fresh_events, set_event. cbn [eb_events].
  rewrite od_set_new by by eapply fresh_events_head.
  unfold od_keys. rewrite fmap_app, <- app_assoc. cbn. unfold fresh_events in Hf.
  rewrite fmap_cons in Hf. exact Hf.
Qed.

(** The loops from the current chunk [cur] over latencies, uniques and events:
    the chunks they yield and the chunk they leave. *)
Record chunked (n : Z) (cur : event_batch) (ls : list float) (us : list string) (es : list (string * Z))
    (out : list event_batch) (last : event_batch) : Prop := {
  cd_full : Forall (λ c, item_count c = n) out;
  cd_last : item_count last ≤ n;
  cd_count : Z.of_nat (length out) * n + item_count last
             = item_count cur + Z.of_nat (length ls + length us + length es);
  cd_some : item_count last = 0 → out = [];
  cd_latencies : flat_map eb_latencies out ++ eb_latencies last = eb_latencies cur ++ ls;
  cd_uniques : flat_map eb_uniques out ++ eb_uniques last = eb_uniques cur ++ us;
  cd_events : flat_map eb_events out ++ eb_events last = eb_events cur ++ es
}.

Lemma item_count_nonneg b : 0 ≤ item_count b.
Proof. unfold item_count. lia. Qed.

Lemma chunked_app n cur ls us es out c ls' us' es' out' last :
  1 ≤ n → chunked n cur ls us es out c → chunked n c ls' us' es' out' last →
  chunked n cur (ls ++ ls') (us ++ us') (es ++ es') (out ++ out') last.
Proof.
  intros Hn [F1 B1 C1 S1 L1 U1 E1] [F2 B2 C2 S2 L2 U2 E2].
  split; rewrite ?flat_map_app, <- ?app_assoc, ?length_app; try done.
  - by apply Forall_app.
  - lia.
  - intros Hz. rewrite (S2 Hz) in *. cbn in C2. pose proof (item_count_nonneg c).
    rewrite app_nil_r. apply S1. lia.
  - by rewrite L2, app_assoc, L1, app_assoc.
  - by rewrite U2, app_assoc, U1, app_assoc.
  - by rewrite E2, app_assoc, E1, app_assoc.
Qed.

Section one_loop.
Context (n : Z) (Hn : 1 ≤ n) (cur : event_batch) (Hc : item_count cur ≤ n).

Lemma some_items {A} (items : list A) out last :
  (items ≠ [] → 1 ≤ item_count last) → (items = [] → last = cur ∧ out = @nil event_batch) →
  item_count last = 0 → out = [].
Proof using Type. intros H1 H2 Hz. destruct items; [by apply H2|]. specialize (H1 ltac:(done)). lia. Qed.

Lemma loop_latencies ls :
  let '(out, last) := chunk_items n add_latency ls cur in chunked n cur ls [] [] out last.
Proof using Hn Hc.
  pose proof (chunk_items_counts add_latency n Hn (λ _ _, True) (λ _ _ _, I)
    (λ x b _ _, item_count_add_latency x b) (λ _ _ _ _, I) ls cur I Hc) as N.
  pose proof (chunk_items_part add_latency n (λ _ _, True) (λ _ _ _, I) (λ _ _ _ _, I) eb_latencies id
    eq_refl (λ _ _ _ _, eq_refl) ls cur I) as L.
  pose proof (chunk_items_other add_latency n eb_uniques eq_refl (λ _ _, eq_refl) ls cur) as U.
  pose proof (chunk_items_other add_latency n eb_events eq_refl (λ _ _, eq_refl) ls cur) as E.
  destruct (chunk_items n add_latency ls cur) as [out last]. destruct N as (H1 & H2 & H3 & H4 & H5).
  rewrite map_id in L.
  split; rewrite ?app_nil_r; first [done|cbn; lia|by eapply some_items].
Qed.

Lemma loop_uniques us :
  let '(out, last) := chunk_items n add_unique us cur in chunked n cur [] us [] out last.
Proof using Hn Hc.
  pose proof (chunk_items_counts add_unique n Hn (λ _ _, True) (λ _ _ _, I)
    (λ x b _ _, item_count_add_unique x b) (λ _ _ _ _, I) us cur I Hc) as N.
  pose proof (chunk_items_part add_unique n (λ _ _, True) (λ _ _ _, I) (λ _ _ _ _, I) eb_uniques id
    eq_refl (λ _ _ _ _, eq_refl) us cur I) as U.
  pose proof (chunk_items_other add_unique n eb_latencies eq_refl (λ _ _, eq_refl) us cur) as L.
  pose proof (chunk_items_other add_unique n eb_events eq_refl (λ _ _, eq_refl) us cur) as E.
  destruct (chunk_items n add_unique us cur) as [out last]. destruct N as (H1 & H2 & H3 & H4 & H5).
  rewrite map_id in U.
  split; rewrite ?app_nil_r; first [done|cbn; lia|by eapply some_items].
Qed.

Lemma loop_events es :
  fresh_events cur es →
  let '(out, last) := chunk_items n (λ e, set_event e.1 e.2) es cur in chunked n cur [] [] es out last.
Proof using Hn Hc.
  intros Hf.
  assert (∀ b es, fresh_events b es → fresh_events empty_batch es) as Fe.
  { intros b' es' H. by apply NoDup_app in H as (_ & _ & ?). }
  assert (∀ e b es, fresh_events b (e :: es) → eb_events (set_event e.1 e.2 b) = eb_events b ++ [e]) as Pe.
  { intros e b es' H. unfold set_event. cbn [eb_events].
    rewrite od_set_new by by eapply fresh_events_head. by destruct e. }
  assert (∀ e b es, fresh_events b (e :: es) → item_count (set_event e.1 e.2 b) = item_count b + 1) as Ce.
  { intros e b es' H. unfold item_count. rewrite (Pe _ _ _ H). unfold set_event. cbn.
    rewrite length_app. cbn. lia. }
  pose proof (chunk_items_counts (λ e, set_event e.1 e.2) n Hn fresh_events Fe Ce fresh_events_put
    es cur Hf Hc) as N.
  pose proof (chunk_items_part (λ e, set_event e.1 e.2) n fresh_events Fe fresh_events_put eb_events id
    eq_refl Pe es cur Hf) as E.
  pose proof (chunk_items_other (λ e, set_event e.1 e.2) n eb_latencies eq_refl (λ _ _, eq_refl) es cur) as L.
  pose proof (chunk_items_other (λ e, set_event e.1 e.2) n eb_uniques eq_refl (λ _ _, eq_refl) es cur) as U.
  destruct (chunk_items n (λ e, set_event e.1 e.2) es cur) as [out last]. destruct N as (H1 & H2 & H3 & H4 & H5).
  rewrite map_id in E.
  split; rewrite ?app_nil_r; first [done|cbn; lia|by eapply some_items].
Qed.
End one_loop.

Lemma chunk_batch_spec b n :
  1 ≤ n → NoDup (od_keys (eb_events b)) →
  let cs := chunk_batch b n in
  flat_map eb_latencies cs = eb_latencies b ∧ flat_map eb_uniques cs = eb_uniques b ∧
  flat_map eb_events cs = eb_events b ∧ Forall (λ c, 1 ≤ item_count c ≤ n) cs ∧
  Z.of_nat (length cs) = (item_count b + n - 1) / n.
Proof.
  intros Hn Hd. cbv zeta. unfold chunk_batch.
  pose proof (loop_latencies n Hn empty_batch ltac:(change (item_count empty_batch) with 0; lia) (eb_latencies b)) as K1.
  destruct (chunk_items n add_latency _ _) as [o1 c1].
  pose proof (loop_uniques n Hn c1 (cd_last _ _ _ _ _ _ _ K1) (eb_uniques b)) as K2.
  destruct (chunk_items n add_unique _ _) as [o2 c2].
  pose proof (chunked_app _ _ _ _ _ _ _ _ _ _ _ _ Hn K1 K2) as K12.
  assert (eb_events c2 = []) as Ec2.
  { pose proof (cd_events _ _ _ _ _ _ _ K12) as E. by apply app_eq_nil in E as [_ ?]. }
  pose proof (loop_events n Hn c2 (cd_last _ _ _ _ _ _ _ K2) (eb_events b)) as K3.
  destruct (chunk_items n _ (eb_events b) c2) as [o3 c3].
  specialize (K3 ltac:(unfold fresh_events; by rewrite Ec2)).
  pose proof (chunked_app _ _ _ _ _ _ _ _ _ _ _ _ Hn K12 K3) as [F B C S L U E].
  rewrite ?app_nil_r in *. cbn [app eb_latencies eb_uniques eb_events empty_batch] in *.
  set (out := (o1 ++ o2) ++ o3) in *. rewrite !app_assoc. fold out.
  assert (item_count empty_batch = 0) as E0 by done. rewrite E0 in C.
  assert (item_count b = Z.of_nat (length out) * n + item_count c3) as Eb by (unfold item_count at 1; lia).
  pose proof (item_count_nonneg c3) as Hc3.
  assert (Forall (λ c, 1 ≤ item_count c ≤ n) out) as Fo.
  { eapply Forall_impl; [exact F|]. cbn. lia. }
  destruct (Z.ltb_spec 0 (item_count c3)) as [Hp|Hz].
  - rewrite !flat_map_app. cbn [flat_map]. rewrite !app_nil_r. split_and!; try done.
    + apply Forall_app. split; [done|]. repeat constructor; lia.
    + rewrite length_app. cbn [length]. apply Z.div_unique with (r := item_count c3 - 1); lia.
  - assert (item_count c3 = 0) as Hc0 by lia. rewrite (S Hc0) in *. cbn [app] in *.
    assert (eb_latencies c3 = [] ∧ eb_uniques c3 = [] ∧ eb_events c3 = []) as (Z1 & Z2 & Z3).
    { unfold item_count in Hc0. split_and!; apply nil_length_inv; lia. }
    cbn in L, U, E. rewrite Z1 in L. rewrite Z2 in U. rewrite Z3 in E.
    split_and!; try done. cbn in Eb |- *. rewrite Eb, Hc0. symmetry. apply Z.div_small. lia.
Qed.

(** ** Counting *)

(** A sample that a mapping takes: the target, the number of the mapping, the
    mapping and the sample. *)
Record observation := mk_observation {
  ob_target : prometheus_target;
  ob_index : Z;
  ob_mapping : stream_mapping;
  ob_sample : prometheus_sample
}.

Definition ob_key (o : observation) : counter_key :=
  key_of (ob_target o) (ob_index o) (ob_mapping o) (ob_sample o).

Definition is_delta (o : observation) : bool := bool_decide (sm_counter_mode (ob_mapping o) = "delta").

(** The scaled value, when an event mapping takes it. *)
Definition reading (o : observation) : option float :=
  let value := (sa_value (ob_sample o) * sm_value_scale (ob_mapping o))%float in
  match sm_kind (ob_mapping o), sm_event_name (ob_mapping o) with
  | MEvent, Some _ => if negb (isfinite value) || flt value 0%float then None else Some value
  | _, _ => None
  end.

(** The newest reading of a counter; [past] is newest first. *)
Fixpoint last_reading (key : counter_key) (past : list observation) : option float :=
  match past with
  | [] => None
  | o :: past =>
      match reading o with
      | Some v => if is_delta o && bool_decide (ob_key o = key) then Some v else last_reading key past
      | None => last_reading key past
      end
  end.

(** The events an observation counts: for a delta counter the growth since
    its newest reading, nothing at the first one. *)
Definition counted (past : list observation) (o : observation) : Z :=
  match reading o with
  | None => 0
  | Some v =>
      let x := if is_delta o then
                 match last_reading (ob_key o) past with
                 | None => 0%float
                 | Some p => fmax 0%float (v - p)%float
                 end
               else v in
      match py_round_int x with Ok n => Z.max 0 n | Raise _ => 0 end
  end.

Definition feeds (stream name : string) (o : observation) : bool :=
  bool_decide (sm_stream (ob_mapping o) = stream ∧ sm_event_name (ob_mapping o) = Some name).

Fixpoint count_all (stream name : string) (past os : list observation) : Z :=
  match os with
  | [] => 0
  | o :: os =>
      (if feeds stream name o then counted past o else 0) + count_all stream name (o :: past) os
  end.

(** The observations of a run, in the order of the loops. *)
Definition taken (mappings : list (Z * stream_mapping)) (t : prometheus_target) (s : prometheus_sample)
    : list observation :=
  flat_map (λ im, if mapping_matches im.2 s then [mk_observation t im.1 im.2 s] else []) mappings.

Section counting.
Context `{FloatParser} `{FloatRepr}.

Definition observed (mappings : list (Z * stream_mapping)) (body : prometheus_target → text)
    (targets : list prometheus_target) : list observation :=
  flat_map (λ t, flat_map (taken mappings t) (parse_prometheus_text (body t))) targets.

Definition take_observation (o : observation) : M agent_run bool :=
  apply_mapping (ob_target o) (ob_index o) (ob_mapping o) (ob_sample o).

Definition event_count (a : agent_run) (stream name : string) : Z :=
  default 0 (od_get (eb_events (batch_of stream a)) name).

(** Finite floats can be rounded, and the difference of two that are not
    negative is finite. *)
Lemma py_round_int_ok x : isfinite x = true → ∃ n, py_round_int x = Ok n.
Proof.
  intros Fx. unfold py_round_int. apply isfinite_SF in Fx as [[s ->]|(s & m & e & ->)]; eauto.
Qed.

Lemma py_int_ok x : isfinite x = true → ∃ n, py_int x = Ok n.
Proof.
  intros Fx. unfold py_int. apply isfinite_SF in Fx as [[s ->]|(s & m & e & ->)]; eauto.
Qed.

Lemma sub_finite x y :
  isfinite x = true → isfinite y = true → flt x 0%float = false → flt y 0%float = false →
  isfinite (x - y)%float = true.
Proof.
  intros Fx Fy Hx Hy.
  assert (∀ z, isfinite z = true → flt z 0%float = false → 0 ≤ fval z) as Hn.
  { intros z Fz Hz. apply not_flt in Hz; [|by apply isfinite_num|done].
    apply fle_val in Hz; [|done|by apply isfinite_num]. by rewrite fval_zero in Hz. }
  pose proof (Hn x Fx Hx) as Px. pose proof (Hn y Fy Hy) as Py.
  destruct (fval_sub x y Fx Fy) as [V N]. apply isfinite_fval. split; [done|].
  pose proof (proj1 (isfinite_fval x) Fx) as [_ Bx]. pose proof (proj1 (isfinite_fval y) Fy) as [_ By].
  assert (0 < 2 ^ 1074) as H74 by done.
  pose proof (Rnd_mono ((fval x - fval y) * 2 ^ 1074) (fval x * 2 ^ 1074) ltac:(nia)) as H1.
  pose proof (Rnd_mono (- (fval y * 2 ^ 1074)) ((fval x - fval y) * 2 ^ 1074) ltac:(nia)) as H2.
  rewrite Rnd_opp in H2. rewrite (Rnd_exact (fval y)) in H2 by by apply fval_representable.
  rewrite (Rnd_exact (fval x)) in H1 by by apply fval_representable.
  rewrite <- V in H1, H2.
  lia.
Qed.

Lemma delta_finite v p :
  isfinite v = true → isfinite p = true → flt v 0%float = false → flt p 0%float = false →
  isfinite (fmax 0%float (v - p)%float) = true.
Proof. intros Fv Fp Hv Hp. unfold fmax. case_match; [by apply sub_finite|done]. Qed.

Lemma reading_range o v : reading o = Some v → isfinite v = true ∧ flt v 0%float = false.
Proof.
  unfold reading. destruct (sm_kind (ob_mapping o)), (sm_event_name (ob_mapping o)); try done.
  destruct (isfinite _) eqn:F; cbn [negb orb]; [|done].
  destruct (flt _ 0%float) eqn:L; [done|]. by intros [= <-].
Qed.

Lemma last_reading_range key past v :
  last_reading key past = Some v → isfinite v = true ∧ flt v 0%float = false.
Proof.
  induction past as [|o past IH]; cbn; [done|]. destruct (reading o) eqn:R; [|done].
  destruct (_ && _); [|done]. intros [= ->]. by eapply reading_range.
Qed.

(** A run that has taken the observations [past], newest first. *)
Definition batches_ok (l : list (string * event_batch)) : Prop :=
  NoDup (od_keys l) ∧ Forall (λ sb, NoDup (od_keys (eb_events sb.2))) l.

Record run_inv (past : list observation) (a : agent_run) : Prop := {
  ri_last : ∀ key, od_get (ar_last a) key = last_reading key past;
  ri_batches : batches_ok (ar_batches a)
}.

Lemma batch_of_put stream f a st :
  batch_of st (put_batch stream f a) = if decide (stream = st) then f (batch_of stream a) else batch_of st a.
Proof. unfold put_batch, batch_of. cbn. rewrite od_get_set. by case_decide. Qed.

Lemma batch_of_nodup past a st : run_inv past a → NoDup (od_keys (eb_events (batch_of st a))).
Proof.
  intros [_ [_ Hb]]. unfold batch_of. destruct (od_get _ st) as [b|] eqn:E; [|constructor].
  apply od_get_elem in E. by apply (proj1 (Forall_forall _ _) Hb _ E).
Qed.

Lemma put_batch_inv past stream f a :
  (∀ b, NoDup (od_keys (eb_events b)) → NoDup (od_keys (eb_events (f b)))) →
  run_inv past a → run_inv past (put_batch stream f a).
Proof.
  intros Hf Hi. pose proof (batch_of_nodup _ _ stream Hi) as Hn. destruct Hi as [Hl [Hk Hb]]. split; [done|].
  split; cbn; [by apply od_set_nodup|]. apply Forall_od_set; [by apply Hf|done].
Qed.

(** What taking an observation leaves, when the counter's state is the same. *)
Lemma run_inv_skip past o a :
  (∀ key, last_reading key (o :: past) = last_reading key past) → run_inv past a → run_inv (o :: past) a.
Proof. intros Hl [H1 H2]. split; [|done]. intros key. by rewrite H1. Qed.

Lemma last_reading_skip past o : reading o = None → ∀ key, last_reading key (o :: past) = last_reading key past.
Proof. intros R key. cbn. by rewrite R. Qed.

(** The end of [apply_event_mapping]: the rounded growth joins the batch. *)
Lemma add_events_run past stream name x a :
  run_inv past a → isfinite x = true →
  ∃ b a', (count <- mlift (py_round_int x) ;;
           if count <=? 0 then mret false
           else on_batch stream (λ b, set_event name (default 0 (od_get (eb_events b) name) + count) b) ;;;
                mret true) a = (Ok b, a') ∧ run_inv past a' ∧
    ∀ st nm, event_count a' st nm
             = event_count a st nm
               + (if bool_decide (stream = st ∧ Some name = Some nm) then
                    match py_round_int x with Ok n => Z.max 0 n | Raise _ => 0 end else 0).
Proof.
  intros Hi Fx. destruct (py_round_int_ok x Fx) as [n E]. rewrite E. unfold mbind, mlift.
  destruct (Z.leb_spec n 0) as [Hn|Hn].
  - exists false, a. split_and!; [done|done|]. intros st nm. rewrite Z.max_l by lia. case_bool_decide; lia.
  - exists true. eexists. split; [reflexivity|]. split.
    + apply put_batch_inv; [|done]. intros b Hb. by apply od_set_nodup.
    + intros st nm. unfold event_count. rewrite batch_of_put, Z.max_r by lia.
      case_decide as Es; [|rewrite bool_decide_false by naive_solver; lia]. subst st. cbn [eb_events set_event].
      rewrite od_get_set. case_decide as En.
      * subst nm. rewrite bool_decide_true by done. done.
      * rewrite bool_decide_false by naive_solver. lia.
Qed.

Lemma event_count_touch past stream a st nm :
  run_inv past a →
  run_inv past (put_batch stream (λ b, b) a) ∧
  event_count (put_batch stream (λ b, b) a) st nm = event_count a st nm.
Proof.
  intros Hi. split; [by apply put_batch_inv|]. unfold event_count. rewrite batch_of_put.
  case_decide; [by subst|done].
Qed.

(** Events are counted by their names, so what is no event counts nothing. *)
Lemma take_other past o a :
  run_inv past a → reading o = None →
  ∃ b a', take_observation o a = (Ok b, a') ∧ run_inv past a' ∧
          ∀ st nm, event_count a' st nm = event_count a st nm.
Proof.
  intros Hi R. unfold take_observation, apply_mapping. unfold reading in R.
  set (v := (sa_value (ob_sample o) * sm_value_scale (ob_mapping o))%float) in *.
  destruct (isfinite v) eqn:F; cbn [negb orb] in *; [|by exists false, a].
  set (a1 := put_batch (sm_stream (ob_mapping o)) (λ b, b) a).
  assert (run_inv past a1) as Hi1 by by apply put_batch_inv.
  assert (∀ st nm, event_count a1 st nm = event_count a st nm) as E1
    by (intros st nm; by apply (event_count_touch past)).
  unfold on_batch. rewrite (mbind_step _ _ _ _ _ (mmodify_run _ _)). fold a1.
  assert (∀ f, (∀ b, eb_events (f b) = eb_events b) →
    ∃ b a', (mmodify (put_batch (sm_stream (ob_mapping o)) f) ;;; mret true) a1 = (Ok b, a') ∧
            run_inv past a' ∧ ∀ st nm, event_count a' st nm = event_count a st nm) as Hput.
  { intros f Hf. exists true, (put_batch (sm_stream (ob_mapping o)) f a1). split; [done|]. split.
    - apply put_batch_inv; [|done]. intros b. by rewrite Hf.
    - intros st nm. rewrite <- E1. unfold event_count. rewrite batch_of_put. case_decide; [|done].
      subst. by rewrite Hf. }
  destruct (sm_kind (ob_mapping o)).
  - destruct (flt v 0%float); [by exists false, a1|]. by apply Hput.
  - unfold apply_event_mapping. destruct (sm_event_name (ob_mapping o)); [|by exists false, a1].
    destruct (flt v 0%float); [by exists false, a1|done].
  - destruct (py_int_ok v F) as [n En]. rewrite En. cbn [res_bind].
    destruct (is_integer v); rewrite (mbind_step _ _ _ _ _ (mlift_run _ _ _ eq_refl)); by apply Hput.
Qed.

Lemma take_counts past o a :
  run_inv past a →
  ∃ b a', take_observation o a = (Ok b, a') ∧ run_inv (o :: past) a' ∧
          ∀ st nm, event_count a' st nm
                   = event_count a st nm + (if feeds st nm o then counted past o else 0).
Proof.
  intros Hi. destruct (reading o) as [v|] eqn:R.
  2:{ destruct (take_other _ _ _ Hi R) as (b & a' & E & I & C). exists b, a'.
      split; [done|]. split; [by apply run_inv_skip, I; apply last_reading_skip|].
      intros st nm. rewrite C. unfold counted. rewrite R. destruct (feeds _ _ _); lia. }
  unfold counted, feeds. pose proof (reading_range _ _ R) as [Fv Lv]. rewrite R. cbv beta iota.
  unfold take_observation, apply_mapping. pose proof R as R'. unfold reading in R.
  destruct (sm_kind (ob_mapping o)); try done. unfold apply_event_mapping.
  destruct (sm_event_name (ob_mapping o)) as [name|]; [|done].
  set (w := (sa_value (ob_sample o) * sm_value_scale (ob_mapping o))%float) in *.
  destruct (negb (isfinite w) || flt w 0%float) eqn:B; [done|]. injection R as Ew.
  clearbody w. subst w.
  apply orb_false_iff in B as [B1 B2]. rewrite B1, B2.
  set (a1 := put_batch (sm_stream (ob_mapping o)) (λ b, b) a).
  assert (run_inv past a1) as Hi1 by by apply put_batch_inv.
  assert (∀ st nm, event_count a1 st nm = event_count a st nm) as E1
    by (intros st nm; by apply (event_count_touch past)).
  unfold on_batch at 1. rewrite (mbind_step _ _ _ _ _ (mmodify_run _ _)). fold a1.
  unfold is_delta. destruct (decide (sm_counter_mode (ob_mapping o) = "delta")) as [D|D].
  2:{ rewrite bool_decide_false by done. rewrite (mbind_step _ _ _ (Some v) a1) by done.
      destruct (add_events_run past (sm_stream (ob_mapping o)) name v a1 Hi1 Fv) as (b & a' & E & I & C).
     
exists b, a'. split; [exact E|]. split.
      - apply run_inv_skip, I. intros key. cbn. rewrite R'. unfold is_delta. by rewrite bool_decide_false.
      - intros st nm. by rewrite C, E1. }
  rewrite bool_decide_true by done. fold (ob_key o).
  set (a2 := set_last (od_set (ob_key o) v (ar_last a1)) a1).
  assert (run_inv (o :: past) a2) as Hi2.
  { split; [|exact (ri_batches _ _ Hi1)]. intros key. cbn. rewrite R', od_get_set. unfold is_delta.
    rewrite (bool_decide_true (_ = "delta")) by done. cbn [andb]. rewrite (ri_last _ _ Hi1).
    by destruct (decide (ob_key o = key)); [rewrite bool_decide_true|rewrite bool_decide_false]. }
  assert (∀ st nm, event_count a2 st nm = event_count a st nm) as E2 by (intros st nm; by rewrite <- E1).
  erewrite mbind_step by reflexivity. fold (ob_key o) a2.
  rewrite (ri_last _ _ Hi1). destruct (last_reading (ob_key o) past) as [p|] eqn:Lp.
  2:{ exists false, a2. split_and!; [done|done|]. intros st nm. rewrite E2.
      change (py_round_int 0%float) with (@Ok Z 0). case_bool_decide; lia. }
  apply last_reading_range in Lp as [Fp Hp].
  destruct (add_events_run (o :: past) (sm_stream (ob_mapping o)) name (fmax 0%float (v - p)%float) a2 Hi2)
    as (b & a' & E & I & C); [by apply delta_finite|].
  exists b, a'. split; [exact E|]. split; [done|]. intros st nm. by rewrite C, E2.
Qed.
(** A method that takes observations, in their order, and does not raise. *)
Definition takes {A} (m : M agent_run A) (os : list observation) : Prop :=
  ∀ past a, run_inv past a →
  ∃ r a', m a = (Ok r, a') ∧ run_inv (rev os ++ past) a' ∧
          ∀ st nm, event_count a' st nm = event_count a st nm + count_all st nm past os.

Lemma count_all_app st nm os1 : ∀ past os2,
  count_all st nm past (os1 ++ os2) = count_all st nm past os1 + count_all st nm (rev os1 ++ past) os2.
Proof.
  induction os1 as [|o os1 IH]; intros past os2; cbn [count_all app rev]; [done|].
  rewrite IH, <- app_assoc. cbn. lia.
Qed.

Lemma takes_ret {A} (x : A) : takes (mret x) [].
Proof. intros past a Hi. exists x, a. split_and!; [done|done|]. intros. cbn. lia. Qed.

Lemma takes_one o : takes (take_observation o) [o].
Proof.
  intros past a Hi. destruct (take_counts past o a Hi) as (b & a' & E & I & C).
  exists b, a'. split_and!; [done|done|]. intros. rewrite C. cbn. lia.
Qed.

Lemma takes_lift {A} (x : A) : takes (mlift (Ok x)) [].
Proof. exact (takes_ret x). Qed.

Lemma takes_bind {A B} (m : M agent_run A) (f : A → M agent_run B) os1 os2 :
  takes m os1 → (∀ r, takes (f r) os2) → takes (mbind m f) (os1 ++ os2).
Proof.
  intros Hm Hf past a Hi. destruct (Hm past a Hi) as (r & a1 & E1 & I1 & C1).
  destruct (Hf r _ a1 I1) as (r' & a2 & E2 & I2 & C2). exists r', a2.
  rewrite (mbind_step _ _ _ _ _ E1), rev_app_distr, <- app_assoc. split_and!; [done|done|].
  intros. rewrite C2, C1, count_all_app. lia.
Qed.

Lemma takes_map {A B} (m : M agent_run A) (f : A → M agent_run B) os :
  takes m os → (∀ r, takes (f r) []) → takes (mbind m f) os.
Proof. intros Hm Hf. rewrite <- (app_nil_r os). by apply takes_bind. Qed.

Lemma takes_mappings t s ms : takes (apply_mappings t ms s) (taken ms t s).
Proof.
  induction ms as [|[index m] ms IH]; [apply takes_ret|]. cbn [apply_mappings].
  unfold taken. cbn [flat_map fst snd]. fold (taken ms t s).
  destruct (mapping_matches m s); cbn [negb]; [|exact IH].
  apply takes_bind; [exact (takes_one (mk_observation t index m s))|]. intros ok.
  apply takes_map; [exact IH|]. intros [[? ?] ?]. apply takes_ret.
Qed.

Lemma takes_samples t ms samples : takes (apply_samples t ms samples) (flat_map (taken ms t) samples).
Proof.
  induction samples as [|s samples IH]; [apply takes_ret|]. cbn [apply_samples flat_map].
  apply takes_bind; [apply takes_mappings|]. intros [[? ?] ?].
  apply takes_map; [exact IH|]. intros r. apply takes_ret.
Qed.

Lemma takes_scrapes ms body targets :
  takes (scrape_all ms (λ t, Ok (body t)) targets) (observed ms body targets).
Proof.
  induction targets as [|t targets IH]; [apply takes_ret|]. cbn [scrape_all]. unfold observed.
  cbn [flat_map]. fold (observed ms body targets). intros past a Hi. rewrite (mbind_step _ _ _ _ _ (mlift_run _ _ _ eq_refl)).
  revert past a Hi. apply takes_bind; [apply takes_samples|]. intros r.
  apply takes_map; [exact IH|]. intros r'. apply takes_ret.
Qed.

(** What the server took of an event. *)
Definition total_of (nm : string) (es : list (string * Z)) : Z :=
  sum_by (λ e, if decide (e.1 = nm) then e.2 else 0) es.
Definition delivered (sent : list (string * event_batch)) (st nm : string) : Z :=
  sum_by (λ sb, if decide (sb.1 = st) then total_of nm (eb_events sb.2) else 0) sent.

Lemma total_of_get nm es : NoDup (od_keys es) → total_of nm es = default 0 (od_get es nm).
Proof.
  unfold total_of. induction es as [|[k c] es IH]; intros Hn; [done|].
  apply NoDup_cons in Hn as [Hk Hn]. rewrite sum_by_cons, IH by done. cbn.
  case_decide; [subst|done]. rewrite (proj2 (od_get_none es nm)) by done. cbn. lia.
Qed.

Lemma delivered_chunks st nm st' cs :
  delivered (map (λ c, (st', c)) cs) st nm
  = if decide (st' = st) then total_of nm (flat_map eb_events cs) else 0.
Proof.
  unfold delivered. induction cs as [|c cs IH]; cbn [map flat_map]; [by case_decide|].
  rewrite sum_by_cons, IH. cbn. case_decide; [|done]. unfold total_of. by rewrite sum_by_app.
Qed.

(** With every post answered, the chunks of the batches are sent in order. *)
Lemma send_chunks_ok stream chunks : ∀ l,
  ∃ r, send_chunks stream chunks (λ _, Ok ()) l = (Ok r, l ++ map (λ c, (stream, c)) chunks).
Proof.
  induction chunks as [|c chunks IH]; intros l; cbn [send_chunks map].
  { eexists. by rewrite app_nil_r. }
  destruct (IH (l ++ [(stream, c)])) as [r E]. eexists.
  do 3 (erewrite mbind_step by reflexivity). erewrite mbind_step by exact E.
  by rewrite <- app_assoc.
Qed.

Lemma batches_delivered l st nm :
  batches_ok l →
  sum_by (λ sb, if decide (sb.1 = st) then total_of nm (eb_events sb.2) else 0) l
  = default 0 (od_get (eb_events (default empty_batch (od_get l st))) nm).
Proof.
  intros [Hk Hb]. induction l as [|[st' b] l IH]; [done|]. rewrite sum_by_cons. cbn [fst snd od_get].
  apply NoDup_cons in Hk as [Hk Hn]. apply Forall_cons in Hb as [H1 H2]. rewrite IH by done.
  case_decide; [subst|done]. rewrite (proj2 (od_get_none l st)) by done. cbn. rewrite total_of_get by done. lia.
Qed.

Lemma flush_batches_ok n batches : ∀ l,
  1 ≤ n → batches_ok batches →
  ∃ r sent, flush_batches n batches (λ _, Ok ()) l = (Ok r, l ++ sent) ∧
    ∀ st nm, delivered sent st nm
             = sum_by (λ sb, if decide (sb.1 = st) then total_of nm (eb_events sb.2) else 0) batches.
Proof.
  intros l Hn [Hk Hb]. revert l. induction batches as [|[stream b] batches IH]; intros l; cbn [flush_batches].
  { exists (0, 0), []. by rewrite app_nil_r. }
  apply NoDup_cons in Hk as [_ Hk]. apply Forall_cons in Hb as [H1 H2]. cbn in H1.
  specialize (IH Hk H2). setoid_rewrite sum_by_cons. cbn [fst snd].
  destruct (Z.eqb_spec (item_count b) 0) as [Hz|Hz].
  - destruct (IH l) as (r & sent & E & D). exists r, sent. split; [done|]. intros st nm. rewrite D.
    assert (eb_events b = []) as -> by (apply nil_length_inv; unfold item_count in Hz; lia).
    unfold total_of. case_decide; done.
  - destruct (send_chunks_ok stream (chunk_batch b n) l) as [r E].
    destruct (IH (l ++ map (λ c, (stream, c)) (chunk_batch b n))) as (r' & sent & E' & D).
    eexists _, (map (λ c, (stream, c)) (chunk_batch b n) ++ sent).
    erewrite mbind_step by exact E. erewrite mbind_step by exact E'. rewrite <- app_assoc. split; [done|].
    intros st nm. unfold delivered at 1. rewrite sum_by_app. fold (delivered sent st nm). rewrite D.
    f_equal. destruct (chunk_batch_spec b n Hn H1) as (_ & _ & E3 & _).
    rewrite <- E3. exact (delivered_chunks st nm stream _).
Qed.

(** A run with every scrape and every post answered. *)
Definition answered_run (c : agent_config) (body : prometheus_target → text) (a : agent) : agent :=
  (run_once c (λ t, Ok (body t)) (λ _, Ok ()) a).2.

Definition agent_inv (past : list observation) (a : agent) : Prop :=
  ∀ key, od_get (ag_last a) key = last_reading key past.

Lemma run_once_counts c body past a :
  1 ≤ ac_max_batch_items c → agent_inv past a →
  let os := observed (py_enumerate (ac_mappings c)) body (ac_targets c) in
  is_ok (run_once c (λ t, Ok (body t)) (λ _, Ok ()) a).1 = true ∧
  agent_inv (rev os ++ past) (answered_run c body a) ∧
  ∀ st nm, delivered (ag_sent (answered_run c body a)) st nm
           = delivered (ag_sent a) st nm + count_all st nm past os.
Proof.
  intros Hn Hi. cbv zeta. set (os := observed _ _ _).
  assert (run_inv past (mk_agent_run (ag_last a) [])) as Hr by (split; [done|split; constructor]).
  destruct (takes_scrapes (py_enumerate (ac_mappings c)) body (ac_targets c) _ _ Hr) as ([mt sk] & a' & E & [L B] & C).
  destruct (flush_batches_ok _ _ [] Hn B) as (r & sent & F & D).
  unfold answered_run, run_once. rewrite E, F. cbn [fst snd res_bind is_ok ag_last ag_sent app].
  split_and!; [done|done|]. intros st nm. unfold delivered at 1. rewrite sum_by_app.
  fold (delivered (ag_sent a) st nm) (delivered sent st nm). rewrite D, batches_delivered by done.
  change (default 0 _) with (event_count a' st nm). rewrite C. done.
Qed.

(** Runs from an agent that has seen nothing. *)
Definition runs (c : agent_config) (bodies : list (prometheus_target → text)) : agent :=
  foldl (λ a body, answered_run c body a) (mk_agent [] []) bodies.
Definition runs_observed (c : agent_config) (bodies : list (prometheus_target → text)) : list observation :=
  flat_map (λ body, observed (py_enumerate (ac_mappings c)) body (ac_targets c)) bodies.

Lemma runs_counts c bodies :
  1 ≤ ac_max_batch_items c →
  agent_inv (rev (runs_observed c bodies)) (runs c bodies) ∧
  ∀ st nm, delivered (ag_sent (runs c bodies)) st nm = count_all st nm [] (runs_observed c bodies).
Proof.
  intros Hn. unfold runs, runs_observed.
  assert (∀ past a, agent_inv past a →
    let a' := foldl (λ a body, answered_run c body a) a bodies in
    let os := flat_map (λ body, observed (py_enumerate (ac_mappings c)) body (ac_targets c)) bodies in
    agent_inv (rev os ++ past) a' ∧
    ∀ st nm, delivered (ag_sent a') st nm = delivered (ag_sent a) st nm + count_all st nm past os) as Hall.
  { induction bodies as [|body bodies IH]; intros past a Hi; cbn [foldl flat_map].
    - split; [done|]. intros. cbn. lia.
    - destruct (run_once_counts c body past a Hn Hi) as (_ & I & C). destruct (IH _ _ I) as [I' C'].
      rewrite rev_app_distr, <- app_assoc. split; [exact I'|]. intros. rewrite C', C, count_all_app. lia. }
  destruct (Hall [] (mk_agent [] [])) as [I C]; [done|]. rewrite app_nil_r in I. by split.
Qed.

(** C30. The agent's event counts are exact.  Over any sequence of runs whose
    scrapes and posts are answered, from an agent that has seen nothing, every
    run returns, and what the server has taken of an event of a stream is the
    sum over all samples, in the order they were scraped, of what each counts:
    for an absolute mapping its rounded scaled value; for a delta mapping its
    growth since the newest reading of the same counter (same target, mapping
    and labels), nothing at the first reading and nothing when the counter
    went down.  Runs, batches and chunks neither lose nor repeat a count. *)
Theorem agent_counts_exact c bodies st nm :
  1 ≤ ac_max_batch_items c →
  delivered (ag_sent (runs c bodies)) st nm = count_all st nm [] (runs_observed c bodies) ∧
  ∀ body, is_ok (run_once c (λ t, Ok (body t)) (λ _, Ok ()) (runs c bodies)).1 = true.
Proof.
  intros Hn. destruct (runs_counts c bodies Hn) as [I C]. split; [apply C|].
  intros body. by apply (run_once_counts c body _ _ Hn I).
Qed.

(** ** Whole counters *)

Lemma py_round_int_whole x n : isfinite x = true → fval x = n * 2 ^ 1074 → py_round_int x = Ok n.
Proof.
  intros Fx V. pose proof (Prim2SF_valid x) as Vx. unfold fval in V. unfold py_round_int.
  apply isfinite_SF in Fx as [[s E]|(s & m & e & E)]; rewrite E in *; cbn [SFval] in V.
  { do 2 f_equal. assert (0 < 2 ^ 1074) by done. nia. }
  apply bounded_spec in Vx as (He & _). f_equal.
  assert (0 < 2 ^ 1074) as H74 by done.
  assert ((if s then - Zpos m else Zpos m) * 2 ^ (e + 1074) = n * 2 ^ 1074) as V' by (destruct s; cbn [cond_Zopp] in V; lia).
  destruct (Z.leb_spec 0 e) as [He0|He0].
  - rewrite Z.pow_add_r, Z.mul_assoc in V' by lia. apply Z.mul_cancel_r in V'; [|lia]. destruct s; lia.
  - assert (2 ^ 1074 = 2 ^ (- e) * 2 ^ (e + 1074)) as E74 by (rewrite <- Z.pow_add_r by lia; f_equal; lia).
    assert (0 < 2 ^ (e + 1074)) by (apply Z.pow_pos_nonneg; lia).
    assert (0 < 2 ^ (- e)) as Hd by (apply Z.pow_pos_nonneg; lia).
    rewrite E74, Z.mul_assoc in V'. apply Z.mul_cancel_r in V'; [|lia].
    assert (Zpos m = (if s then - n else n) * 2 ^ (- e)) as -> by (destruct s; lia).
    unfold div_half_even. rewrite Z.div_mul, Z.mod_mul by lia.
    destruct (Z.ltb_spec (2 * 0) (2 ^ (- e))); [|lia]. cbn [orb]. destruct s; lia.
Qed.

Lemma fval_whole n : Z.abs n ≤ 2 ^ 53 → fval (float_of_Z n) = n * 2 ^ 1074 ∧ isfinite (float_of_Z n) = true.
Proof.
  intros Hn. split; [by apply fval_float_of_Z_small|].
  apply float_of_Z_finite. assert (2 ^ 53 < 2 ^ 1023) by done. lia.
Qed.

(** Between whole readings the growth is exact, and a counter that went down
    counts nothing. *)
Lemma whole_growth p n :
  0 ≤ p ≤ 2 ^ 53 → 0 ≤ n ≤ 2 ^ 53 →
  py_round_int (fmax 0%float (float_of_Z n - float_of_Z p)%float) = Ok (Z.max 0 (n - p)).
Proof.
  intros Hp Hn. destruct (fval_whole n) as [Vn Fn]; [lia|]. destruct (fval_whole p) as [Vp Fp]; [lia|].
  unfold fmax. assert (0 < 2 ^ 1074) as H74 by done.
  destruct (Z.le_gt_cases p n) as [Hle|Hgt].
  - destruct (fsub_int_exact (float_of_Z n) p Fn) as [V F]; [lia| |].
    { rewrite Vn. split; apply Z.mul_le_mono_nonneg_r; lia. }
    rewrite Vn, <- Z.mul_sub_distr_r in V. rewrite Z.max_r by lia.
    destruct (flt 0%float _) eqn:L; [by apply py_round_int_whole|].
    apply not_true_iff_false in L. rewrite flt_val in L by first [apply num_zero|by apply isfinite_num].
    rewrite V, fval_zero in L. assert (n - p = 0) as -> by nia. done.
  - rewrite Z.max_l by lia.
    destruct (flt 0%float _) eqn:L; [|done].
    pose proof (fval_sub _ _ Fn Fp) as [_ N]. apply flt_val in L; [|apply num_zero|done].
    pose proof (fsub_int_le0 (float_of_Z n) p Fn Hp) as Hle. rewrite Vn in Hle.
    apply fle_val in Hle; [lia|done|apply num_zero|apply Z.mul_le_mono_nonneg_r; lia].
Qed.

(** What a counter grew by over its readings, restarts not counted. *)
Fixpoint growth (prev : option Z) (ns : list Z) : Z :=
  match ns with
  | [] => 0
  | n :: ns => match prev with None => 0 | Some p => Z.max 0 (n - p) end + growth (Some n) ns
  end.

Lemma last_default {A} (l : list A) : ∀ a d, List.last (a :: l) d = List.last l a.
Proof. induction l as [|b l IH]; intros a d; [done|]. exact (eq_trans (IH b d) (eq_sym (IH b a))). Qed.

Lemma growth_sorted ns : ∀ p, Sorted Z.le (p :: ns) → growth (Some p) ns = List.last ns p - p.
Proof.
  induction ns as [|n ns IH]; intros p Hs; [cbn; lia|].
  apply Sorted_inv in Hs as [Hs Hp]. inversion Hp; subst. cbn [growth].
  rewrite IH, last_default by done. lia.
Qed.

(** The readings that one whole counter [key] feeds to an event. *)
Definition fed_by (key : counter_key) (st nm : string) (os : list observation) : Prop :=
  ∀ o, o ∈ os → feeds st nm o = true → is_delta o = true ∧ ob_key o = key.
Definition fed_readings (st nm : string) (os : list observation) : list float :=
  omap reading (List.filter (feeds st nm) os).

Lemma key_feeds o v st nm :
  reading o = Some v → ck_stream (ob_key o) = st → ck_event (ob_key o) = nm → feeds st nm o = true.
Proof.
  intros R Hs Hn. unfold reading in R. unfold feeds. apply bool_decide_eq_true.
  destruct (sm_kind (ob_mapping o)); try done. unfold ob_key, key_of in Hs, Hn. cbn in Hs, Hn.
  destruct (sm_event_name (ob_mapping o)); [|done]. cbn in Hn. by subst.
Qed.

Lemma fed_by_check key st nm os :
  forallb (λ o, negb (feeds st nm o) || (is_delta o && bool_decide (ob_key o = key))) os = true →
  fed_by key st nm os.
Proof.
  intros Hall o Ho Fo. apply list_elem_of_In in Ho.
  pose proof (proj1 (forallb_forall _ _) Hall o Ho) as Hb. cbn beta in Hb. rewrite Fo in Hb. cbn [negb orb] in Hb.
  apply andb_true_iff in Hb as [? ?]. split; [done|]. by eapply bool_decide_eq_true_1.
Qed.

Lemma fed_key key st nm os (x : float) l :
  fed_by key st nm os → fed_readings st nm os = x :: l → ck_stream key = st ∧ ck_event key = nm.
Proof.
  intros Hf Hr.
  assert (x ∈ fed_readings st nm os) as Hx by (rewrite Hr; by left).
  apply list_elem_of_omap in Hx as (o & Ho & R). apply list_elem_of_In, filter_In in Ho as [Ho Fo].
  apply list_elem_of_In in Ho. destruct (Hf o Ho Fo) as [_ <-].
  apply bool_decide_eq_true in Fo as [<- En]. unfold ob_key, key_of. cbn. by rewrite En.
Qed.

Lemma count_growth key st nm os : ∀ past prev ns,
  ck_stream key = st → ck_event key = nm →
  last_reading key past = float_of_Z <$> prev → (∀ p, prev = Some p → 0 ≤ p ≤ 2 ^ 53) →
  Forall (λ n, 0 ≤ n ≤ 2 ^ 53) ns →
  fed_by key st nm os → fed_readings st nm os = float_of_Z <$> ns →
  count_all st nm past os = growth prev ns.
Proof.
  induction os as [|o os IH]; intros past prev ns Ks Kn Hl Hp Hns Hf Hr.
  { by destruct ns. }
  cbn [count_all]. unfold fed_readings in Hr. cbn [List.filter] in Hr.
  assert (fed_by key st nm os) as Hf' by (intros o' Ho'; apply Hf; by right).
  destruct (feeds st nm o) eqn:Fo.
  - destruct (Hf o (list_elem_of_here _ _) Fo) as [D K]. unfold counted. cbn [omap list_omap] in Hr.
    destruct (reading o) as [v|] eqn:R.
    + destruct ns as [|n ns]; [done|]. injection Hr as -> Hr. apply Forall_cons in Hns as [Hn Hns].
      rewrite D, K, Hl. cbn [growth]. rewrite (IH _ (Some n) ns); try done.
      * destruct prev as [p|]; cbn [fmap option_fmap option_map]; [|done].
        rewrite whole_growth by first [done|by apply Hp]. lia.
      * cbn. rewrite R, D, bool_decide_true by done. done.
      * by intros ? [= <-].
    + rewrite (IH _ prev ns); try done. cbn. by rewrite R.
  - rewrite (IH _ prev ns); try done. cbn. destruct (reading o) as [v|] eqn:R; [|done].
    destruct (is_delta o); cbn [andb]; [|done]. case_bool_decide as K; [|done].
    rewrite (key_feeds o v st nm R) in Fo; [done|by rewrite K..].
Qed.

(** A counter that only goes up is forwarded without loss.  When one delta
    counter feeds an event of a stream and its readings over all runs are the
    whole numbers [n0], [ns] up to [2^53], never going down, then after any
    number of runs the server has taken exactly the last reading less the
    first of that event: the rounding of each run's growth, the batches and
    the chunks add up to what the counter itself shows. *)
Theorem whole_counter_is_forwarded c bodies key st nm n0 ns :
  1 ≤ ac_max_batch_items c →
  fed_by key st nm (runs_observed c bodies) →
  fed_readings st nm (runs_observed c bodies) = float_of_Z <$> n0 :: ns →
  Forall (λ n, 0 ≤ n ≤ 2 ^ 53) (n0 :: ns) → Sorted Z.le (n0 :: ns) →
  delivered (ag_sent (runs c bodies)) st nm = List.last ns n0 - n0.
Proof.
  intros Hn Hf Hr Hns Hs. destruct (runs_counts c bodies Hn) as [_ ->].
  destruct (fed_key _ _ _ _ _ _ Hf Hr) as [Ks Kn].
  rewrite (count_growth key st nm _ [] None (n0 :: ns)) by done. cbn [growth]. by apply growth_sorted.
Qed.
End counting.

(** ** The address of a stream *)

(** What the server's framework makes of a quoted path. *)
Definition unhex (a : ascii) : option nat :=
  let n := nat_of_ascii a in
  if is_digit a then Some (n - 48)%nat else if in_range 65 70 a then Some (n - 55)%nat
  else if in_range 97 102 a then Some (n - 87)%nat else None.
Fixpoint unquote (l : text) : text :=
  match l with
  | [] => []
  | a :: t =>
      match t with
      | h :: k :: r =>
          if decide (a = "%"%char) then
            match unhex h, unhex k with
            | Some x, Some y => ascii_of_nat (16 * x + y) :: unquote r
            | _, _ => a :: unquote t
            end
          else a :: unquote t
      | _ => a :: unquote t
      end
  end.

Lemma unquote_char a l : unquote (quote_char a ++ l) = a :: unquote l.
Proof.
  destruct a as [[] [] [] [] [] [] [] []];
    first [reflexivity | destruct l as [|? [|? ?]]; reflexivity].
Qed.

Lemma unquote_plain l rest : "%"%char ∉ l → unquote (l ++ rest) = l ++ unquote rest.
Proof.
  induction l as [|a l IH]; [done|]. intros [Ha Hl]%not_elem_of_cons. cbn [app]. rewrite <- IH by done.
  generalize (l ++ rest). intros t. destruct t as [|h [|k r]]; try done. cbn. by rewrite decide_False.
Qed.

Lemma unquote_quote l rest : unquote (quote l ++ rest) = l ++ unquote rest.
Proof.
  unfold quote. induction l as [|a l IH]; [done|]. cbn [flat_map].
  by rewrite <- app_assoc, unquote_char, IH.
Qed.

Lemma quote_inj l l' : quote l = quote l' → l = l'.
Proof.
  intros E. rewrite <- (app_nil_r l), <- (app_nil_r l').
  change [] with (unquote []). by rewrite <- !unquote_quote, E.
Qed.

Lemma join_cons sep w ws : ws ≠ [] → join sep (w :: ws) = w ++ sep ++ join sep ws.
Proof. by destruct ws. Qed.

Lemma unquote_join ws rest : unquote (join [slash] (map quote ws) ++ rest) = join [slash] ws ++ unquote rest.
Proof.
  induction ws as [|w ws IH]; [done|]. destruct ws as [|w' ws]; [apply unquote_quote|].
  change (map quote (w :: w' :: ws)) with (quote w :: map quote (w' :: ws)).
  rewrite !join_cons, <- !app_assoc, unquote_quote by done. rewrite (unquote_plain [slash]), IH by (by apply (bool_decide_unpack _)). done.
Qed.

Lemma split_on_nonempty c l : split_on c l ≠ [].
Proof. destruct l as [|a l]; cbn; [done|]. case_decide; [done|]. by destruct (split_on c l). Qed.

Lemma join_split c l : join [c] (split_on c l) = l.
Proof.
  induction l as [|a l IH]; [done|]. cbn [split_on]. pose proof (split_on_nonempty c l) as Hn.
  case_decide as E.
  - rewrite join_cons by done. by rewrite IH, E.
  - destruct (split_on c l) as [|w ws]; [done|]. destruct ws as [|w' ws]; cbn in *; by rewrite <- IH.
Qed.

Lemma split_on_app c w l : c ∉ w → split_on c (w ++ c :: l) = w :: split_on c l.
Proof.
  induction w as [|a w IH]; cbn; [by rewrite decide_True|].
  intros [Ha Hw]%not_elem_of_cons. rewrite decide_False by congruence. by rewrite IH.
Qed.

Lemma split_on_word c w : c ∉ w → split_on c w = [w].
Proof.
  induction w as [|a w IH]; cbn; [done|].
  intros [Ha Hw]%not_elem_of_cons. rewrite decide_False by congruence. by rewrite IH.
Qed.

Lemma quote_no_slash l : slash ∉ quote l.
Proof.
  unfold quote. induction l as [|a l IH]; cbn [flat_map]; [by apply not_elem_of_nil|].
  rewrite not_elem_of_app. split; [|done]. apply (bool_decide_unpack _).
  by destruct a as [[] [] [] [] [] [] [] []].
Qed.

Lemma split_join ws rest :
  ws ≠ [] → split_on slash (join [slash] (map quote ws) ++ slash :: rest)
            = map quote ws ++ split_on slash rest.
Proof.
  induction ws as [|w ws IH]; [done|]. intros _. cbn [map]. destruct ws as [|w' ws].
  - cbn [map join app]. apply split_on_app, quote_no_slash.
  - rewrite join_cons by done. rewrite <- !app_assoc. cbn [app].
    rewrite split_on_app by apply quote_no_slash. by rewrite IH.
Qed.

Lemma quote_dot_segment w : dot_segment (quote w) = dot_segment w.
Proof.
  unfold dot_segment. repeat f_equal; apply bool_decide_ext.
  - change (quote w = quote [] ↔ w = []). split; [apply quote_inj|by intros ->].
  - change (quote w = quote (chars ".") ↔ w = chars "."). split; [apply quote_inj|by intros ->].
  - change (quote w = quote (chars "..") ↔ w = chars ".."). split; [apply quote_inj|by intros ->].
Qed.

(** The characters that no parser of URLs gives a meaning of its own. *)
Definition path_char (a : ascii) : bool :=
  unreserved a || bool_decide (a = "%"%char) || bool_decide (a = slash).

Lemma quote_path_chars l : forallb path_char (quote l) = true.
Proof.
  unfold quote. induction l as [|a l IH]; [done|]. cbn [flat_map]. rewrite forallb_app, IH, andb_true_r.
  by destruct a as [[] [] [] [] [] [] [] []].
Qed.

Lemma join_path_chars ws : forallb path_char (join [slash] (map quote ws)) = true.
Proof.
  induction ws as [|w ws IH]; [done|]. destruct ws as [|w' ws]; [apply quote_path_chars|].
  change (map quote (w :: w' :: ws)) with (quote w :: map quote (w' :: ws)).
  rewrite join_cons by done. by rewrite !forallb_app, quote_path_chars, IH.
Qed.

Lemma existsb_quote ws : existsb dot_segment (map quote ws) = existsb dot_segment ws.
Proof. induction ws as [|w ws IH]; [done|]. cbn [map existsb]. by rewrite quote_dot_segment, IH. Qed.

Lemma check_server_namespace `{UrlSplit} `{Netloc} c :
  check_server c = Ok () →
  dot_segment (chars (sc_namespace c)) = false ∧ slash ∉ chars (sc_namespace c).
Proof.
  unfold check_server. destruct (http_url _) as [[]|]; cbn [res_bind negb]; [|done|done].
  destruct (_ || _) eqn:E; [done|]. intros _. repeat apply orb_false_iff in E as [E ?].
  split; [done|]. intros Hi. unfold contains_char in *.
  assert (existsb (λ a, bool_decide (a = slash)) (list_ascii_of_string (sc_namespace c)) = true); [|congruence].
  apply existsb_exists. exists slash. split; [by apply list_elem_of_In|by apply bool_decide_eq_true].
Qed.

Lemma validate_stream_segments stream :
  validate_stream_path stream = Ok () → existsb dot_segment (split_on slash (chars stream)) = false.
Proof.
  unfold validate_stream_path, fail_if. destruct (_ || _) eqn:E; [done|]. intros _.
  by apply orb_false_iff in E as [_ ?].
Qed.

(** A batch reaches the stream it is for, whatever the names.  For a
    namespace and a stream that pass the configuration's checks, with any
    characters in them, the path of the address holds no character that would
    end the path or begin a query, and no empty or dot segment that would move
    it; the server reads back the namespace and the stream as they are, and
    asks for the right to that namespace alone. *)
Theorem batch_address_is_faithful `{UrlSplit} `{Netloc} c stream :
  check_server c = Ok () → validate_stream_path stream = Ok () →
  let namespace := sc_namespace c in
  let p := events_path [] namespace stream in
  forallb path_char p = true ∧
  existsb dot_segment (tl (split_on slash p)) = false ∧
  unquote p = namespaces_marker ++ chars namespace ++ chars "/streams/" ++ chars stream ++ chars "/events" ∧
  ∀ r, rq_path r = unquote p → requested r = [namespace].
Proof.
  intros Hc Hv. cbv zeta.
  assert (dot_segment (chars (sc_namespace c)) = false ∧ slash ∉ chars (sc_namespace c)) as [Hd Hs] by by apply check_server_namespace.
  assert (existsb dot_segment (split_on slash (chars stream)) = false) as He by by apply validate_stream_segments.
  set (ns := sc_namespace c) in *. set (ws := split_on slash (chars stream)) in *.
  assert (unquote (events_path [] ns stream)
          = namespaces_marker ++ chars ns ++ chars "/streams/" ++ chars stream ++ chars "/events") as U.
  { unfold events_path. rewrite <- (app_nil_r (chars "/events")) at 1. cbn [app].
    rewrite unquote_plain, unquote_quote, unquote_plain, unquote_join, unquote_plain
      by (by apply (bool_decide_unpack _)).
    unfold ws. by rewrite join_split. }
  split_and!; [| |exact U|].
  - unfold events_path. by rewrite !forallb_app, quote_path_chars, join_path_chars.
  - unfold events_path. fold ws.
    change (split_on slash _) with (split_on slash ([] ++ slash :: chars "v1" ++ slash :: chars "namespaces" ++ slash ::
      quote (chars ns) ++ slash :: chars "streams" ++ slash :: join [slash] (map quote ws) ++ slash :: chars "events")).
    rewrite 3 split_on_app by by apply (bool_decide_unpack _). rewrite split_on_app by apply quote_no_slash.
    rewrite split_on_app by by apply (bool_decide_unpack _). rewrite split_join by apply split_on_nonempty.
    cbn [tl existsb]. rewrite existsb_app, quote_dot_segment, Hd.
    change (existsb dot_segment (split_on slash (chars "events"))) with false.
    rewrite (existsb_quote ws), He. done.
  - intros r Er. unfold requested. rewrite Er, U, decide_False.
    + rewrite starts_with_prefix, drop_app_length.
      change (chars "/streams/" ++ chars stream ++ chars "/events")
        with (slash :: chars "streams/" ++ chars stream ++ chars "/events").
      rewrite split_once_at by done. cbn [fst]. by rewrite str_chars.
    + change aggregate_path with (namespaces_marker ++ chars "aggregate").
      intros E%app_inv_head. apply (f_equal (λ l, bool_decide (slash ∈ l))) in E.
      rewrite bool_decide_eq_true_2 in E by (apply elem_of_app; right; by left). discriminate.
Qed.

(** ** Concrete runs *)

(** A parser that knows whole numbers and three others. *)
Definition int_parser : FloatParser := λ s,
  if decide (s = "0.4"%string) then Ok 0.4%float else if decide (s = "0.8"%string) then Ok 0.8%float
  else if decide (s = "1.2"%string) then Ok 1.2%float
  else match py_int_text (chars s) with
       | Some n => Ok (float_of_Z n)
       | None => Raise (ValueError "could not convert string to float")
       end.
Definition no_repr : FloatRepr := λ _, "0.5".

Definition newline : string := String "010" "".
Definition quote_mark : string := String "034" "".

Definition demo_mapping (metric stream : string) : stream_mapping :=
  mk_mapping metric stream MEvent (Some "requests") [] 1%float "delta".
Definition demo_config : agent_config :=
  mk_agent_config (mk_server_config "http://s" "team a/b" None None 3%float)
    [mk_target "t" "http://t" 3%float]
    [demo_mapping "requests_total" "web"; demo_mapping "cpu_seconds" "web/cpu"] 15%float 1.

(** The page of a target whose counter shows [value]. *)
Definition page (metric value : string) : prometheus_target → text := λ _,
  chars ("# TYPE " ++ metric ++ " counter" ++ newline ++ metric ++ "{route=" ++ quote_mark ++ "/a" ++ quote_mark
         ++ "} " ++ value ++ newline).

Definition demo_bodies : list (prometheus_target → text) :=
  map (page "requests_total") ["10"; "17"; "17"; "40"].
Definition demo_key : counter_key :=
  mk_counter_key "t" "http://t" 0 "requests_total" [("route", "/a")] "web" "requests".
Definition demo_observed : list observation :=
  runs_observed (H := int_parser) demo_config demo_bodies.

Lemma agent_counts_exact_witness :
  1 ≤ ac_max_batch_items demo_config ∧
  delivered (ag_sent (runs (H := int_parser) (H0 := no_repr) demo_config demo_bodies)) "web" "requests"
  = count_all "web" "requests" [] demo_observed ∧
  count_all "web" "requests" [] demo_observed = 30.
Proof.
  split; [done|]. split.
  - by apply (agent_counts_exact (H := int_parser) (H0 := no_repr) demo_config demo_bodies "web" "requests").
  - by vm_compute.
Defined.

Lemma whole_counter_is_forwarded_witness :
  fed_readings "web" "requests" demo_observed = float_of_Z <$> [10; 17; 17; 40] ∧
  delivered (ag_sent (runs (H := int_parser) (H0 := no_repr) demo_config demo_bodies)) "web" "requests" = 40 - 10.
Proof.
  assert (fed_readings "web" "requests" demo_observed = float_of_Z <$> [10; 17; 17; 40]) as E by by vm_compute.
  split; [exact E|].
  apply (whole_counter_is_forwarded (H := int_parser) (H0 := no_repr) demo_config demo_bodies demo_key
           "web" "requests" 10 [17; 17; 40]); [done| |exact E| |].
  - apply fed_by_check. by vm_compute.
  - by apply (bool_decide_unpack _).
  - repeat constructor; done.
Defined.

Definition demo_netloc : Netloc := λ p, default "" (url_hostname p).
Definition demo_split : UrlSplit := λ a,
  if decide (a = "http://s"%string) then Ok (mk_url "http" (Some "s"%string) None None "" "" "" (Ok None))
  else Raise (ValueError "invalid URL").

Lemma batch_address_is_faithful_witness :
  check_server (H := demo_split) (H0 := demo_netloc)
    (mk_server_config "http://s" "team ?#%2F" None None 3%float) = Ok () ∧
  unquote (events_path [] "team ?#%2F" "web/GET /a") = chars "/v1/namespaces/team ?#%2F/streams/web/GET /a/events" ∧
  ∀ r, rq_path r = unquote (events_path [] "team ?#%2F" "web/GET /a") → requested r = ["team ?#%2F"%string].
Proof.
  split; [by vm_compute|].
  destruct (batch_address_is_faithful (H := demo_split) (H0 := demo_netloc)
    (mk_server_config "http://s" "team ?#%2F" None None 3%float) "web/GET /a") as (_ & _ & U & R);
    [by vm_compute|by vm_compute|].
  split; [exact U|exact R].
Defined.

(** Where growth is lost.  A counter of seconds that grows by less than a half
    between two scrapes is never forwarded: each growth is rounded to zero,
    and the reading it was rounded from becomes the newest. *)
Lemma small_growth_is_lost :
  let a := runs (H := int_parser) (H0 := no_repr) demo_config (map (page "cpu_seconds") ["0"; "0.4"; "0.8"; "1.2"]) in
  delivered (ag_sent a) "web/cpu" "requests" = 0 ∧
  fed_readings "web/cpu" "requests"
    (runs_observed (H := int_parser) demo_config (map (page "cpu_seconds") ["0"; "0.4"; "0.8"; "1.2"]))
  = [0; 0.4; 0.8; 1.2]%float.
Proof. by vm_compute. Qed.

(** A post that fails loses the growth of its run: the counters have moved on
    when the next run begins. *)
Lemma failed_post_loses_growth :
  let run body send a :=
    (run_once (H := int_parser) (H0 := no_repr) demo_config (λ t, Ok (page "requests_total" body t)) send a).2 in
  let a := run "20"%string (λ _, Ok ())
             (run "17"%string (λ _, Raise (RuntimeError "SketchLog returned HTTP 503"))
                (run "10"%string (λ _, Ok ()) (mk_agent [] []))) in
  delivered (ag_sent a) "web" "requests" = 3.
Proof. by vm_compute. Qed.

(** A sample line with a closing brace in a label value is no sample to the
    agent, although the text format allows it. *)
Lemma brace_in_label_is_skipped :
  parse_prometheus_text (H := int_parser)
    (chars ("hits{route=" ++ quote_mark ++ "/{id}" ++ quote_mark ++ "} 3")) = [] ∧
  parse_prometheus_text (H := int_parser) (chars ("hits{route=" ++ quote_mark ++ "/id" ++ quote_mark ++ "} 3"))
  = [mk_sample "hits" [("route", "/id")]%string 3%float].
Proof. by vm_compute. Qed.
