(* ===== verification/Client.v ===== *)
(** * The asynchronous client ([async_client.py])

    A request is a loop of attempts: an answer that says what is wrong ends it,
    a server error, a timeout or a failure of the transport is retried after a
    growing pause.  A subscription polls the query endpoint and yields what it
    gets until enough has been yielded or too many polls in a row failed.

    The answers of the server and the jitter of the pauses are arguments; what
    a run leaves is its trace of sends and pauses with its outcome.

    Proved: a request is sent again exactly as long as the answers are
    transient and attempts are left, with pauses in between that grow up to
    thirty seconds, and ends with the verdict on the last answer; a
    subscription yields the events of its successful polls in order, up to its
    limit, and gives up exactly at the first run of failed polls that is too
    long.  The two places where it does less than its users may expect are
    pinned down. *)

From Stdlib Require Import PrimFloat Ascii String.
From S2P Require Import Prelude PyFloat FloatRound PyVal SqlParser Server.

#[local] Open Scope Z_scope.
#[local] Open Scope py_scope.
#[local] Set Warnings "-inexact-float".

(** ** Configuration *)

Record client_config := mk_client_config {
  cl_base_url : string;
  cl_token : string;
  cl_timeout : float;
  cl_max_retries : Z;
  cl_max_connections : Z
}.

(** [s.lstrip("/")] *)
Fixpoint drop_slashes (l : text) : text :=
  match l with a :: l' => if decide (a = slash) then drop_slashes l' else l | [] => [] end.
Definition lstrip_slash (s : string) : string := str (drop_slashes (chars s)).

(** [AsyncClientConfig.__post_init__] *)
Definition new_client_config (base_url token : string) (timeout : float) (max_retries max_connections : Z)
    : res client_config :=
  let base_url := py_rstrip slash base_url in
  if bool_decide (base_url = "") then Raise (ValueError "base_url is required")
  else if bool_decide (token = "") then Raise (ValueError "token is required")
  else if fle timeout 0%float then Raise (ValueError "timeout must be positive")
  else if max_retries <? 0 then Raise (ValueError "max_retries must be >= 0")
  else Ok (mk_client_config base_url token timeout max_retries max_connections).

(** ** Requests *)

(** What one attempt meets: a response with its status, its Retry-After header
    and its body ([None] when it is not JSON), or an exception of the
    transport. *)
Inductive answer :=
| Replied (status : Z) (retry_after : option string) (body : option pyval)
| TimedOut
| TransportFailed.

(** The exceptions of a request; [Leaked] is one that is not of the client's
    own hierarchy. *)
Inductive failure :=
| NotOpen
| AuthError (status : Z)
| RateLimitError (retry_after : option Z)
| ServerError (status : Z)
| ClientError (status : Z)
| TimeoutError
| RequestError
| Leaked (e : exn).

(** What one attempt comes to. *)
Inductive verdict :=
| Done (body : pydict)
| Fatal (f : failure)
| Transient (f : failure).

(** [int(s)] of a header *)
Definition int_of_header (s : string) : option Z := py_int_text (chars s).

Definition judge (a : answer) : verdict :=
  match a with
  | TimedOut => Transient TimeoutError
  | TransportFailed => Transient RequestError
  | Replied status retry_after body =>
      if (status =? 401) || (status =? 403) then Fatal (AuthError status)
      else if status =? 429 then
        match retry_after with
        | None => Fatal (RateLimitError None)
        | Some hdr =>
            match int_of_header hdr with
            | Some n => Fatal (RateLimitError (Some n))
            | None => Fatal (Leaked (ValueError "invalid literal for int()"))
            end
        end
      else if 500 <=? status then Transient (ServerError status)
      else if 400 <=? status then Fatal (ClientError status)
      else match body with
           | Some (VDict d) => Done d
           | Some v => Done [(VStr "data", v)]
           | None => Fatal (Leaked (ValueError "not JSON"))
           end
  end.

(** [_backoff]: [jitter] is [random.uniform(0.0, 0.1)]. *)
Definition backoff (attempt : nat) (jitter : float) : res float :=
  let? power := py_float_of_Z (2 ^ Z.of_nat attempt) in
  Ok (fmin (0.1 * power + jitter)%float 30%float).

(** A step that the outside sees. *)
Inductive action := Send | Pause (seconds : float).

(** [for attempt in range(retries + 1)] from [attempt] on, with [left] attempts
    after this one. *)
Fixpoint attempts (answers : nat → answer) (jitter : nat → float) (attempt left : nat)
    : list action * (pydict + failure) :=
  match judge (answers attempt) with
  | Done body => ([Send], inl body)
  | Fatal f => ([Send], inr f)
  | Transient f =>
      match left with
      | O => ([Send], inr f)
      | S left' =>
          match backoff attempt (jitter attempt) with
          | Raise e => ([Send], inr (Leaked e))
          | Ok pause =>
              let '(trace, outcome) := attempts answers jitter (S attempt) left' in
              (Send :: Pause pause :: trace, outcome)
          end
      end
  end.

(** [_request]; [opened] tells whether the pool is open. *)
Definition request (c : client_config) (opened : bool) (answers : nat → answer) (jitter : nat → float)
    : list action * (pydict + failure) :=
  if negb opened then ([], inr NotOpen)
  else attempts answers jitter 0 (Z.to_nat (cl_max_retries c)).

(** ** Endpoints *)

(** The method and path of every call of the client. *)
Inductive client_call :=
| CIngest (stream : string) (events : list pyval)
| CQueryStream (stream : string) (limit : option Z)
| CCdf (stream : string)
| CListNamespaces | CCreateNamespace (name : string) | CDeleteNamespace (name : string)
| CListStreams | CCreateStream (name : string) | CDeleteStream (name : string)
| CHealth | CInfo.

Definition endpoint (c : client_call) : string * string :=
  match c with
  | CIngest stream _ => ("POST", "/streams/" ++ stream ++ "/ingest")
  | CQueryStream stream _ => ("GET", "/streams/" ++ stream ++ "/query")
  | CCdf stream => ("GET", "/streams/" ++ stream ++ "/cdf")
  | CListNamespaces => ("GET", "/namespaces")
  | CCreateNamespace _ => ("POST", "/namespaces")
  | CDeleteNamespace name => ("DELETE", "/namespaces/" ++ name)
  | CListStreams => ("GET", "/streams")
  | CCreateStream _ => ("POST", "/streams")
  | CDeleteStream name => ("DELETE", "/streams/" ++ name)
  | CHealth => ("GET", "/health")
  | CInfo => ("GET", "/info")
  end%string.

(** The path given to the transport, relative to the base URL ([_url]). *)
Definition url (c : client_call) : string := lstrip_slash (snd (endpoint c)).

(** [ingest] refuses an empty list before it sends anything. *)
Definition run_call (c : client_config) (opened : bool) (answers : nat → answer) (jitter : nat → float)
    (k : client_call) : list action * (pydict + failure) :=
  match k with
  | CIngest _ [] => ([], inr (Leaked (ValueError "events must not be empty")))
  | _ => request c opened answers jitter
  end.

(** ** Subscriptions *)

(** [result.get("events", [])] as what a [for] loop takes from it. *)
Definition events_of (result : pydict) : option (list pyval) :=
  match default (VList []) (dict_get result "events") with
  | VList l => Some l
  | VStr s => Some (map (λ a, VStr (String a "")) (list_ascii_of_string s))
  | VDict d => Some (map fst d)
  | _ => None
  end.

(** How the generator stands after some polls: still polling with so many
    events yielded and so many failures in a row, finished, or raised. *)
Inductive standing :=
| Polling (count : Z) (consecutive_errors : Z)
| Finished
| GaveUp.

(** [for raw_event in raw_events]: yields until [max_events] are reached. *)
Fixpoint yield_events (max_events : option Z) (events : list pyval) (count : Z) : list pyval * option Z :=
  match events with
  | [] => ([], Some count)
  | e :: events =>
      let count := count + 1 in
      if match max_events with Some m => m <=? count | None => false end then ([e], None)
      else let '(out, r) := yield_events max_events events count in (e :: out, r)
  end.

(** The loop over the answers of successive polls; [None] is a poll that
    raised. *)
Fixpoint subscribe (max_events : option Z) (max_consecutive_errors : Z) (polls : list (option pydict))
    (count consecutive_errors : Z) : list pyval * standing :=
  match polls with
  | [] => ([], Polling count consecutive_errors)
  | p :: polls =>
      match p ≫= events_of with
      | Some events =>
          let '(out, r) := yield_events max_events events count in
          match r with
          | None => (out, Finished)
          | Some count =>
              let '(out', st) := subscribe max_events max_consecutive_errors polls count 0 in
              (out ++ out', st)
          end
      | None =>
          let errors := (if bool_decide (p = None) then consecutive_errors else 0) + 1 in
          if max_consecutive_errors <=? errors then ([], GaveUp)
          else subscribe max_events max_consecutive_errors polls count errors
      end
  end.

Definition subscribe_stream (max_events : option Z) (max_consecutive_errors : Z) (polls : list (option pydict))
    : list pyval * standing := subscribe max_events max_consecutive_errors polls 0 0.

(** ** The policy of a request *)

Definition transient (a : answer) : bool := match judge a with Transient _ => true | _ => false end.

(** What the last answer comes to. *)
Definition outcome_of (a : answer) : pydict + failure :=
  match judge a with Done body => inl body | Fatal f | Transient f => inr f end.

(** The pause after attempt [i]. *)
Definition pause (jitter : nat → float) (i : nat) : float :=
  fmin (0.1 * float_of_Z (2 ^ Z.of_nat i) + jitter i)%float 30%float.

Lemma backoff_pause jitter i : (i ≤ 1023)%nat → backoff i (jitter i) = Ok (pause jitter i).
Proof.
  intros Hi. unfold backoff. rewrite py_float_of_Z_ok; [done|].
  rewrite Z.abs_eq by (apply Z.pow_nonneg; lia). apply Z.pow_le_mono_r; lia.
Qed.

(** The trace of attempts [i] to [i + k]. *)
Fixpoint trace_from (jitter : nat → float) (i k : nat) : list action :=
  match k with
  | O => [Send]
  | S k => Send :: Pause (pause jitter i) :: trace_from jitter (S i) k
  end.

Lemma request_attempts_run answers jitter left : ∀ i,
  (i + left ≤ 1024)%nat →
  ∃ k, (k ≤ left)%nat ∧ (∀ j, (j < k)%nat → transient (answers (i + j)%nat) = true) ∧
    (k = left ∨ transient (answers (i + k)%nat) = false) ∧
    attempts answers jitter i left = (trace_from jitter i k, outcome_of (answers (i + k)%nat)).
Proof.
  induction left as [|left IH]; intros i Hi.
  - exists 0%nat. rewrite Nat.add_0_r. split; [done|]. split; [lia|]. split; [by left|].
    cbn [attempts trace_from]. unfold outcome_of. by destruct (judge (answers i)).
  - destruct (transient (answers i)) eqn:T.
    + destruct (IH (S i)) as (k & Hk & Ht & Hl & E); [lia|]. exists (S k).
      split; [lia|]. split.
      { intros [|j] Hj; [by rewrite Nat.add_0_r|]. rewrite <- Nat.add_succ_comm. apply Ht. lia. }
      rewrite <- Nat.add_succ_comm. split; [destruct Hl; [left; lia|by right]|].
      cbn [attempts trace_from]. unfold transient in T. destruct (judge (answers i)); try done.
      rewrite backoff_pause by lia. by rewrite E.
    + exists 0%nat. rewrite Nat.add_0_r. split; [lia|]. split; [lia|]. split; [by right|].
      cbn [attempts trace_from]. unfold transient in T. unfold outcome_of. by destruct (judge (answers i)).
Qed.

Definition is_send (a : action) : bool := match a with Send => true | Pause _ => false end.

(** A jitter that [random.uniform(0.0, 0.1)] can return. *)
Definition jitter_ok (u : float) : Prop := isfinite u = true ∧ 0 ≤ fval u ≤ fval 0.1%float.

Lemma fval_power i : (i ≤ 1023)%nat →
  fval (float_of_Z (2 ^ Z.of_nat i)) = 2 ^ Z.of_nat i * 2 ^ 1074 ∧ isfinite (float_of_Z (2 ^ Z.of_nat i)) = true.
Proof.
  intros Hi. assert (0 < 2 ^ Z.of_nat i) as H0 by (apply Z.pow_pos_nonneg; lia).
  assert (2 ^ Z.of_nat i ≤ 2 ^ 1023) as H1 by (apply Z.pow_le_mono_r; lia).
  split; [|apply float_of_Z_finite; lia].
  destruct (fval_float_of_Z (2 ^ Z.of_nat i)) as [-> _].
  change (2 ^ 2148) with (2 ^ 1074 * 2 ^ 1074). rewrite Z.mul_assoc. apply Rnd_exact.
  exists 1, (Z.of_nat i + 1074). rewrite Z.pow_add_r by lia. split; [lia|]. split; [lia|]. split; [done|].
  rewrite Z.abs_eq by (apply Z.mul_nonneg_nonneg; [lia|done]).
  apply Z.le_lt_trans with (2 ^ 1023 * 2 ^ 1074); [|done]. apply Z.mul_le_mono_nonneg_r; [done|lia].
Qed.

(** Ten percent of a power of two is exact. *)
Lemma fval_tenth i : (i ≤ 1023)%nat →
  fval (0.1 * float_of_Z (2 ^ Z.of_nat i))%float = fval 0.1%float * 2 ^ Z.of_nat i ∧
  isfinite (0.1 * float_of_Z (2 ^ Z.of_nat i))%float = true.
Proof.
  intros Hi. destruct (fval_power i Hi) as [Vp Fp].
  assert (isfinite 0.1%float = true) as Ft by done.
  destruct (fval_mul 0.1%float _ Ft Fp) as [V N]. rewrite Vp in V.
  assert (0 < 2 ^ Z.of_nat i) as H0 by (apply Z.pow_pos_nonneg; lia).
  assert (2 ^ Z.of_nat i ≤ 2 ^ 1023) as H1 by (apply Z.pow_le_mono_r; lia).
  assert (0 ≤ fval 0.1%float) as Hn by done.
  assert (fval 0.1%float * 2 ^ 1023 < fmax_val) as Hm by done.
  assert (fval 0.1%float * 2 ^ Z.of_nat i < fmax_val) as Hb.
  { eapply Z.le_lt_trans; [|exact Hm]. by apply Z.mul_le_mono_nonneg_l. }
  assert (representable (fval 0.1%float * 2 ^ Z.of_nat i)) as R.
  { destruct (fval_representable 0.1%float Ft) as (m & e & E & He & Hm' & _).
    exists m, (e + Z.of_nat i). split; [rewrite E, Z.pow_add_r by lia; ring|]. split; [lia|]. split; [done|].
    rewrite Z.abs_eq by (apply Z.mul_nonneg_nonneg; lia). done. }
  rewrite Z.mul_assoc, Rnd_exact in V by done. split; [done|].
  apply isfinite_fval. split; [done|]. rewrite V, Z.abs_eq by (apply Z.mul_nonneg_nonneg; lia). done.
Qed.

Lemma fmin_val a b : num a → num b → num (fmin a b) ∧ fval (fmin a b) = Z.min (fval a) (fval b).
Proof.
  intros Na Nb. unfold fmin. destruct (flt b a) eqn:E.
  - apply flt_val in E; [|done..]. split; [done|lia].
  - split; [done|]. apply not_true_iff_false in E. rewrite flt_val in E by done. lia.
Qed.

(** The value of a pause. *)
Lemma fval_pause jitter i :
  (i ≤ 1023)%nat → jitter_ok (jitter i) →
  num (pause jitter i) ∧
  fval (pause jitter i)
  = Z.min (Rnd ((fval 0.1%float * 2 ^ Z.of_nat i + fval (jitter i)) * 2 ^ 1074)) (fval 30%float).
Proof.
  intros Hi [Fu Hu]. destruct (fval_tenth i Hi) as [Vt Ft]. destruct (fval_add _ _ Ft Fu) as [V N].
  destruct (fmin_val _ 30%float N ltac:(by apply isfinite_num)) as [N' V']. unfold pause.
  split; [exact N'|]. by rewrite V', V, Vt.
Qed.

(** C33. The retry policy.  With up to 1023 retries a request is a sequence of
    attempts of which all but the last met a server error, a timeout or a
    failure of the transport, and the last one did not or was the last
    allowed; its outcome is the verdict on the last answer alone: the body of
    a successful response, or the exception that says why.  Between two
    attempts, and nowhere else, there is a pause; it lasts at least a tenth of
    a second and at most thirty, and never less than the one before. *)
Theorem request_retry_policy c answers jitter :
  0 ≤ cl_max_retries c ≤ 1023 → (∀ i, jitter_ok (jitter i)) →
  ∃ k, (k ≤ Z.to_nat (cl_max_retries c))%nat ∧
    (∀ j, (j < k)%nat → transient (answers j) = true) ∧
    (k = Z.to_nat (cl_max_retries c) ∨ transient (answers k) = false) ∧
    request c true answers jitter = (trace_from jitter 0 k, outcome_of (answers k)) ∧
    length (List.filter is_send (trace_from jitter 0 k)) = S k ∧
    ∀ i, (i < k)%nat → fle 0.1%float (pause jitter i) = true ∧ fle (pause jitter i) 30%float = true ∧
      fle (pause jitter i) (pause jitter (S i)) = true.
Proof.
  intros Hr Hj. destruct (request_attempts_run answers jitter (Z.to_nat (cl_max_retries c)) 0) as (k & Hk & Ht & Hl & E); [lia|].
  exists k. split_and!; try done.
  - generalize 0%nat. clear. induction k as [|k IH]; intros i; [done|]. cbn [trace_from].
    cbn. by rewrite IH.
  - intros i Hi. destruct (fval_pause jitter i) as [N V]; [lia|done|].
    destruct (fval_pause jitter (S i)) as [N' V']; [lia|done|].
    destruct (Hj i) as [_ Hu]. destruct (Hj (S i)) as [_ Hu'].
    assert (0 < 2 ^ Z.of_nat i) as H0 by (apply Z.pow_pos_nonneg; lia).
    assert (0 < fval 0.1%float) as Hp by done. assert (fval 0.1%float ≤ fval 30%float) as H30 by done.
    assert (fval 0.1%float ≤ fval 0.1%float * 2 ^ Z.of_nat i) as Hge by nia.
    assert (0 < 2 ^ 1074) as H74 by done.
    split_and!; (apply fle_val; [first [done|by apply isfinite_num]..|]).
    + rewrite V. apply Z.min_glb; [|done].
      rewrite <- (Rnd_exact (fval 0.1%float)) at 1 by by apply fval_representable. apply Rnd_mono.
      apply Z.mul_le_mono_nonneg_r; lia.
    + rewrite V. apply Z.le_min_r.
    + rewrite V, V'. apply Z.min_le_compat_r, Rnd_mono, Z.mul_le_mono_nonneg_r; [lia|].
      rewrite Nat2Z.inj_succ, Z.pow_succ_r by lia. nia.
Qed.

(** ** What a subscription yields *)

Definition poll_events (p : option pydict) : list pyval := default [] (p ≫= events_of).

(** The failures in a row after one more poll: a response whose events cannot
    be iterated counts as the first of a new row. *)
Definition streak_step (e : Z) (p : option pydict) : Z :=
  match p ≫= events_of with
  | Some _ => 0
  | None => (if bool_decide (p = None) then e else 0) + 1
  end.
Definition streak (e : Z) (polls : list (option pydict)) : Z := foldl streak_step e polls.

Definition below (max_events : option Z) (count : Z) : Prop :=
  match max_events with Some m => count < m | None => True end.

Lemma yield_events_spec max_events events : ∀ count,
  below max_events count →
  match yield_events max_events events count with
  | (out, Some c) => out = events ∧ c = count + Z.of_nat (length events) ∧ below max_events c
  | (out, None) => ∃ m, max_events = Some m ∧ count + Z.of_nat (length out) = m ∧ out `prefix_of` events
  end.
Proof.
  induction events as [|x events IH]; intros count Hb; cbn [yield_events]; [split_and!; [done|cbn; lia|done]|].
  destruct max_events as [m|].
  - cbn in Hb. destruct (Z.leb_spec m (count + 1)) as [Hm|Hm].
    + exists m. split_and!; [done|cbn; lia|]. by exists events.
    + specialize (IH (count + 1) Hm). destruct (yield_events _ events (count + 1)) as [out [c|]].
      * destruct IH as (-> & -> & Hc). split_and!; [done|cbn; lia|done].
      * destruct IH as (m' & [= <-] & Hl & Hp). exists m. split_and!; [done|cbn; lia|by apply prefix_cons].
  - specialize (IH (count + 1) I). destruct (yield_events _ events (count + 1)) as [out [c|]].
    + destruct IH as (-> & -> & Hc). split_and!; [done|cbn; lia|done].
    + by destruct IH as (m & [=] & _).
Qed.

(** The standing of the generator after polls that began with [count] events
    yielded and [e] failures in a row. *)
Definition standing_ok (max_events : option Z) (max_errors : Z) (polls : list (option pydict)) (count e : Z)
    (out : list pyval) (st : standing) : Prop :=
  ∃ n, (n ≤ length polls)%nat ∧
    let seen := flat_map poll_events (take n polls) in
    (∀ j, (j < n)%nat → streak e (take j polls) < max_errors) ∧
    match st with
    | Polling c e' => n = length polls ∧ out = seen ∧ c = count + Z.of_nat (length out) ∧
        e' = streak e polls ∧ e' < max_errors ∧ below max_events c
    | Finished => ∃ m, max_events = Some m ∧ count + Z.of_nat (length out) = m ∧ out `prefix_of` seen
    | GaveUp => out = seen ∧ max_errors ≤ streak e (take n polls)
    end.

Lemma standing_step max_events max_errors p polls count e out out' st c :
  e < max_errors → out = poll_events p → c = count + Z.of_nat (length out) →
  standing_ok max_events max_errors polls c (streak_step e p) out' st →
  standing_ok max_events max_errors (p :: polls) count e (out ++ out') st.
Proof.
  intros He -> -> (n & Hn & Hs & Hst). exists (S n). split; [cbn; lia|]. cbv zeta. split.
  { intros [|j] Hj; [done|]. apply (Hs j). lia. }
  cbn [take flat_map]. destruct st as [c' e'| |].
  - destruct Hst as (-> & -> & -> & -> & H1 & H2). rewrite length_app. split_and!; try done; cbn; try lia.
  - destruct Hst as (m & Em & El & Hp). exists m. rewrite length_app. split_and!; [done|lia|]. by apply prefix_app.
  - destruct Hst as (-> & H1). by split.
Qed.

Lemma subscribe_spec max_events max_errors polls : 1 ≤ max_errors → ∀ count e,
  below max_events count → e < max_errors →
  let '(out, st) := subscribe max_events max_errors polls count e in
  standing_ok max_events max_errors polls count e out st.
Proof.
  intros H1. induction polls as [|p polls IH]; intros count e Hc He; cbn [subscribe].
  { exists 0%nat. split; [done|]. cbv zeta. split; [lia|]. split_and!; try done. cbn. lia. }
  pose proof (eq_refl (streak_step e p)) as Es. unfold streak_step in Es at 2.
  pose proof (eq_refl (poll_events p)) as Ep. unfold poll_events in Ep at 2.
  destruct (p ≫= events_of) as [events|] eqn:Ev; cbn [default] in Ep.
  - pose proof (yield_events_spec max_events events count Hc) as Y.
    destruct (yield_events max_events events count) as [out [c|]].
    + destruct Y as (-> & -> & Hb). specialize (IH (count + Z.of_nat (length events)) 0 Hb ltac:(lia)).
      destruct (subscribe max_events max_errors polls _ 0) as [out' st].
      eapply standing_step; [done|by rewrite Ep|done|]. by rewrite Es.
    + destruct Y as (m & Em & El & Hp). exists 1%nat. split; [cbn; lia|]. cbv zeta. split.
      { intros [|j] Hj; [done|lia]. }
      exists m. cbn. rewrite take_0, app_nil_r, Ep. by split_and!.
  - destruct (Z.leb_spec max_errors ((if bool_decide (p = None) then e else 0) + 1)) as [Hg|Hg].
    + exists 1%nat. split; [cbn; lia|]. cbv zeta. split.
      { intros [|j] Hj; [done|lia]. }
      cbn. rewrite take_0, app_nil_r, Ep, Es. by split.
    + specialize (IH count _ Hc Hg).
      destruct (subscribe max_events max_errors polls count _) as [out' st].
      change out' with ([] ++ out'). apply (standing_step _ _ _ _ _ _ _ _ _ count); [done|by rewrite Ep|cbn; lia|].
      by rewrite Es.
Qed.

(** What a subscription yields.  After any answers to its polls, with a
    limit on the run of failures and a positive limit on the events, the
    generator has yielded the events of the polls that succeeded, whole and in
    order, and one of three things holds: it goes on polling, having yielded
    less than the limit, with no run of failures that reached its limit; it
    finished in some poll with exactly the limit yielded; or it raised at the
    first poll that completed a run of failures of the limit's length, with
    everything before that poll yielded. *)
Theorem subscription_yields max_events max_errors polls :
  1 ≤ max_errors → match max_events with Some m => 1 ≤ m | None => True end →
  let '(out, st) := subscribe_stream max_events max_errors polls in
  ∃ n, (n ≤ length polls)%nat ∧
    let seen := flat_map poll_events (take n polls) in
    (∀ j, (j < n)%nat → streak 0 (take j polls) < max_errors) ∧
    match st with
    | Polling c e => n = length polls ∧ out = seen ∧ c = Z.of_nat (length out) ∧
        e = streak 0 polls ∧ e < max_errors ∧ below max_events c
    | Finished => ∃ m, max_events = Some m ∧ Z.of_nat (length out) = m ∧ out `prefix_of` seen
    | GaveUp => out = seen ∧ max_errors ≤ streak 0 (take n polls)
    end.
Proof.
  intros H1 Hm. assert (below max_events 0) as Hb by (destruct max_events; cbn; [lia|done]).
  exact (subscribe_spec max_events max_errors polls H1 0 0 Hb ltac:(lia)).
Qed.

Lemma subscription_yields_witness :
  let polls := [Some [(VStr "events", VList [VInt 1; VInt 2])]; None; Some [(VStr "events", VInt 7)];
     Some [(VStr "events", VList [VInt 1; VInt 2])]] in
  subscribe_stream (Some 3) 2 polls = ([VInt 1; VInt 2; VInt 1], Finished) ∧
  ∃ n, (n ≤ 4)%nat ∧ (∀ j, (j < n)%nat → streak 0 (take j polls) < 2) ∧
    [VInt 1; VInt 2; VInt 1] `prefix_of` flat_map poll_events (take n polls).
Proof.
  intros polls. pose proof (subscription_yields (Some 3) 2 polls ltac:(lia) ltac:(cbn; lia)) as H.
  assert (subscribe_stream (Some 3) 2 polls = ([VInt 1; VInt 2; VInt 1], Finished)) as E by (vm_compute; reflexivity).
  split; [exact E|]. rewrite E in H. destruct H as (n & Hn & Hs & m & _ & _ & Hp). exists n. by split_and!.
Defined.

Lemma request_retry_policy_witness :
  let answers := λ i, nth i [Replied 503 None None; TimedOut] (Replied 200 None (Some (VDict []))) in
  let c := mk_client_config "http://h" "t" 30%float 3 10 in
  let u := λ _, 0.0625%float in
  request c true answers u = ([Send; Pause 0.1625%float; Send; Pause 0.2625%float; Send], inl []) ∧
  ∃ k, (∀ i, (i < k)%nat → fle (pause u i) (pause u (S i)) = true) ∧
    request c true answers u = (trace_from u 0 k, outcome_of (answers k)).
Proof.
  intros answers c u. split; [vm_compute; reflexivity|].
  destruct (request_retry_policy c answers u) as (k & _ & _ & _ & E & _ & H).
  - cbn; lia.
  - intros i. split; [reflexivity|]. vm_compute. split; discriminate.
  - exists k. split; [|exact E]. intros i Hi. apply (H i Hi).
Defined.

(** ** Where the client does less than expected *)

(** A Retry-After header that is a date, which the protocol allows, makes the
    request fail with [int]'s ValueError and not with the rate-limit error. *)
Example retry_after_date_leaks c jitter :
  request c true (λ _, Replied 429 (Some "Wed, 21 Oct 2026 07:28:00 GMT"%string) None) jitter
  = ([Send], inr (Leaked (ValueError "invalid literal for int()"))).
Proof. unfold request. cbn [negb]. by destruct (Z.to_nat (cl_max_retries c)). Qed.

(** Every poll asks for the whole stream again: polls with the same answer
    yield its events once more each. *)
Lemma polls_repeat events : ∀ k,
  subscribe_stream None 1 (replicate k (Some [(VStr "events", VList events)]))
  = (concat (replicate k events), Polling (Z.of_nat (k * length events)) 0).
Proof.
  intros k. unfold subscribe_stream.
  assert (∀ c, subscribe None 1 (replicate k (Some [(VStr "events", VList events)])) c 0
    = (concat (replicate k events), Polling (c + Z.of_nat (k * length events)) 0)) as H; [|by rewrite H].
  induction k as [|k IH]; intros c; cbn [replicate subscribe concat].
  - by rewrite Z.add_0_r.
  - change (Some [(VStr "events", VList events)] ≫= events_of) with (Some events).
    pose proof (yield_events_spec None events c I) as Y. cbv beta iota.
    destruct (yield_events None events c) as [out [c'|]].
    + destruct Y as (-> & -> & _). rewrite IH. do 2 f_equal. lia.
    + by destruct Y as (m & [=] & _).
Qed.

(** A limit of no events still yields one. *)
Example zero_limit_yields_one v p : subscribe_stream (Some 0) 1 (Some [(VStr "events", VList (v :: p))] :: []) = ([v], Finished).
Proof. done. Qed.
