(* ===== verification/Regression.v ===== *)
(** * The regression gate of continuous integration ([ci_regression.py])

    Two benchmark results are compared metric by metric with limits, and the
    command fails the build when a limit is exceeded.  Results come from files,
    or from a generator of synthetic ones; outcomes are an exit code and the
    documents written.

    Proved: with sensible numbers the gate is monotone (what is no worse than
    something that passes, passes) and lets every candidate through that is no
    worse than the baseline; a result exported as a baseline is read back
    exactly.  Three ways in which the gate is blind are pinned down.

    The environment and the file system are arguments. *)

From Stdlib Require Import PrimFloat SpecFloat FloatOps Ascii String.
From S2P Require Import Prelude PyFloat FloatRound FloatDiv PyVal PyNum Json Windowed SqlParser SqlEngine.

#[local] Open Scope Z_scope.
#[local] Open Scope py_scope.
#[local] Set Warnings "-inexact-float".

(** ** Configuration and results

    The numbers are floats, as the annotations say and as [main] passes them,
    so that the test for a [bool] does not arise. *)

Record regression_config := mk_regression_config {
  rc_fail_p95 : float;
  rc_fail_p99 : float;
  rc_fail_event_rate : float;
  rc_slo_burn_threshold : float;
  rc_output_file : string;
  rc_summary_file : string
}.

(** [RegressionConfig.__post_init__] *)
Definition check_regression_config (c : regression_config) : res regression_config :=
  if existsb (λ v, negb (isfinite v) || flt v 0%float)
       [rc_fail_p95 c; rc_fail_p99 c; rc_fail_event_rate c; rc_slo_burn_threshold c]
  then Raise (ValueError "RegressionConfig errors: ") else Ok c.

Record bench_result := mk_bench_result {
  br_p95_ms : float;
  br_p99_ms : float;
  br_event_rate_hz : float;
  br_slo_burn_rate : float;
  br_source_file : string
}.

(** [BenchResult.__post_init__] *)
Definition new_bench_result (p95_ms p99_ms event_rate_hz slo_burn_rate : float) (source_file : string)
    : res bench_result :=
  if existsb (λ v, negb (isfinite v)) [p95_ms; p99_ms; event_rate_hz; slo_burn_rate]
  then Raise (ValueError "BenchResult. must be finite; got ")
  else Ok (mk_bench_result p95_ms p99_ms event_rate_hz slo_burn_rate source_file).

(** ** Numbers as text *)

(** The last [k] digits of [n], zeros included. *)
Fixpoint last_digits (k : nat) (n : Z) (acc : string) : string :=
  match k with
  | O => acc
  | S k => last_digits k (n / 10) (String (digit_char (n mod 10)) acc)
  end.

(** [f"{x:.kf}"] *)
Definition fixed (k : nat) (x : float) : string :=
  let body s n :=
    ((if s : bool then "-" else "") ++ str_of_Z (n / 10 ^ Z.of_nat k)
     ++ (if (k =? 0)%nat then "" else "." ++ last_digits k n ""))%string in
  match Prim2SF x with
  | S754_nan => "nan"
  | S754_infinity s => if s then "-inf" else "inf"
  | S754_zero s => body s 0
  | S754_finite s m e =>
      let n := Zpos m * 10 ^ Z.of_nat k in
      body s (if 0 <=? e then n * 2 ^ e else div_half_even n (2 ^ (- e)))
  end.

(** ** Loading a file *)

(** What a path leads to: no readable file, bytes that are not UTF-8, text
    that is not JSON, or a JSON value. *)
Inductive file :=
| Unreadable
| Undecodable
| NotJson
| Parsed (v : pyval).

Section Loading.
Context `{FloatParser}.

(** [_safe_float] *)
Definition safe_float (val : pyval) (default : float) : res float :=
  match py_float val with
  | Ok v => Ok (if isfinite v then v else default)
  | Raise (TypeError _ | ValueError _) => Ok default
  | Raise e => Raise e
  end.

(** [d.get(k)] and [a or b] *)
Definition get (d : pydict) (k : string) : pyval := default VNone (dict_get d k).
Definition py_or (a b : pyval) : pyval := if truthy a then a else b.

(** [d.get(k, {})], or an empty dictionary in place of anything else. *)
Definition sub (d : pydict) (k : string) : pydict :=
  match dict_get d k with Some (VDict e) => e | _ => [] end.

(** [_load_bench_file] *)
Definition load_bench_file (files : string → file) (path : string) : res bench_result :=
  if bool_decide (path = "") then Raise (ValueError "Benchmark file path is empty")
  else match files path with
  | Unreadable | NotJson => Raise (RuntimeError "Cannot load benchmark file ")
  | Undecodable => Raise (ValueError "invalid start byte")
  | Parsed (VDict raw) =>
      let scenarios := sub raw "scenarios" in
      let metrics_lq := sub (sub scenarios "latency_quantile") "metrics" in
      let? p95_ms := safe_float (py_or (get metrics_lq "p95_ms")
        (py_or (get metrics_lq "p95_latency_ms") (get raw "p95_ms"))) 0%float in
      let? p99_ms := safe_float (py_or (get metrics_lq "p99_ms")
        (py_or (get metrics_lq "p99_latency_ms") (get raw "p99_ms"))) 0%float in
      let? p95_ms := match get raw "p95_ms" with VNone => Ok p95_ms | v => safe_float v 0%float end in
      let? p99_ms := match get raw "p99_ms" with VNone => Ok p99_ms | v => safe_float v 0%float end in
      let metrics_li := sub (sub scenarios "latency_ingest") "metrics" in
      let? event_rate_hz := safe_float (py_or (get metrics_li "events_per_sec")
        (py_or (get metrics_li "throughput_per_sec")
          (py_or (get metrics_li "add_throughput_per_sec") (get raw "event_rate_hz")))) 0%float in
      let? slo_burn_rate := safe_float (get raw "slo_burn_rate") 1%float in
      new_bench_result p95_ms p99_ms event_rate_hz slo_burn_rate path
  | Parsed _ => Raise (RuntimeError "Benchmark file must contain a JSON object at root")
  end.
End Loading.

(** [_generate_demo_bench]: the state of the generator is threaded through. *)
Definition lcg (s : Z) : Z := Z.land (s * 1664525 + 1013904223) 0xFFFFFFFF.
Definition unit_of (s : Z) : float := truediv s 0xFFFFFFFF.

Definition generate_demo_bench (seed_offset : Z) : res bench_result :=
  let s := Z.land (0xDEADBEEF + seed_offset) 0xFFFFFFFF in
  let s1 := lcg s in let s2 := lcg s1 in let s3 := lcg s2 in let s4 := lcg s3 in
  let p99 := (8 + unit_of s1 * 4)%float in
  let p95 := (p99 * (0.6 + unit_of s2 * 0.2))%float in
  let rate := (80000 + unit_of s3 * 40000)%float in
  let burn := (0.8 + unit_of s4 * 0.4)%float in
  new_bench_result (py_round p95 3) (py_round p99 3) (py_round rate 1) (py_round burn 4) "<demo>".

(** ** The comparison *)

(** [_pct_change] *)
Definition pct_change (baseline candidate : float) : float :=
  if feq baseline 0%float then 0%float
  else ((candidate - baseline) / baseline * 100)%float.

Record check := mk_check {
  ck_name : string;
  ck_threshold : string;
  ck_measured : string;
  ck_failed : bool
}.

Record regression_result := mk_regression_result {
  rr_failed : bool;
  rr_p95_pct : float;
  rr_p99_pct : float;
  rr_event_rate_pct : float;
  rr_slo_burn_ratio : float;
  rr_checks : list check;
  rr_baseline : bench_result;
  rr_candidate : bench_result
}.

(** [f"+{pct:.2f}%" if pct >= 0 else f"{pct:.2f}%"] *)
Definition signed_pct (pct : float) : string :=
  ((if fle 0%float pct then "+" else "") ++ fixed 2 pct ++ "%")%string.

(** [compare] *)
Definition compare (baseline candidate : bench_result) (c : regression_config) : regression_result :=
  let p95_pct := pct_change (br_p95_ms baseline) (br_p95_ms candidate) in
  let p99_pct := pct_change (br_p99_ms baseline) (br_p99_ms candidate) in
  let rate_pct := PrimFloat.opp (pct_change (br_event_rate_hz baseline) (br_event_rate_hz candidate)) in
  let burn_ratio := if flt 0%float (br_slo_burn_rate baseline)
                    then (br_slo_burn_rate candidate / br_slo_burn_rate baseline)%float else 1%float in
  let enabled (limit : float) (ck : check) : list check := if flt 0%float limit then [ck] else [] in
  let checks :=
    enabled (rc_fail_p95 c) (mk_check "p95 latency"
      ("+" ++ fixed 1 (rc_fail_p95 c) ++ "%") (signed_pct p95_pct) (flt (rc_fail_p95 c) p95_pct))
    ++ enabled (rc_fail_p99 c) (mk_check "p99 latency"
      ("+" ++ fixed 1 (rc_fail_p99 c) ++ "%") (signed_pct p99_pct) (flt (rc_fail_p99 c) p99_pct))
    ++ enabled (rc_fail_event_rate c) (mk_check "event rate"
      ("-" ++ fixed 1 (rc_fail_event_rate c) ++ "%")
      (if fle 0%float rate_pct then "+" ++ fixed 2 rate_pct ++ "% drop" else fixed 2 rate_pct ++ "% improvement")
      (flt (rc_fail_event_rate c) rate_pct))
    ++ enabled (rc_slo_burn_threshold c) (mk_check "SLO burn rate"
      (fixed 2 (rc_slo_burn_threshold c) ++ "x") (fixed 4 burn_ratio ++ "x")
      (flt (rc_slo_burn_threshold c) burn_ratio)) in
  mk_regression_result (existsb ck_failed checks) p95_pct p99_pct rate_pct burn_ratio checks baseline candidate.

(** [RegressionResult.to_dict] *)
Definition bench_dict (b : bench_result) : pydict :=
  [(VStr "p95_ms", VFloat (br_p95_ms b)); (VStr "p99_ms", VFloat (br_p99_ms b));
   (VStr "event_rate_hz", VFloat (br_event_rate_hz b)); (VStr "slo_burn_rate", VFloat (br_slo_burn_rate b));
   (VStr "source_file", VStr (br_source_file b))].

Definition status_text (failed : bool) : string := if failed then "FAIL" else "PASS".

Definition check_dict (k : check) : pydict :=
  [(VStr "name", VStr (ck_name k)); (VStr "threshold", VStr (ck_threshold k));
   (VStr "measured", VStr (ck_measured k)); (VStr "status", VStr (status_text (ck_failed k)))].

Definition result_dict (r : regression_result) : pydict :=
  [(VStr "result", VStr (status_text (rr_failed r)));
   (VStr "p95_regression_pct", VFloat (py_round (rr_p95_pct r) 3));
   (VStr "p99_regression_pct", VFloat (py_round (rr_p99_pct r) 3));
   (VStr "event_rate_regression_pct", VFloat (py_round (rr_event_rate_pct r) 3));
   (VStr "slo_burn_ratio", VFloat (py_round (rr_slo_burn_ratio r) 4));
   (VStr "checks", VList (map (λ k, VDict (check_dict k)) (rr_checks r)));
   (VStr "baseline", VDict (bench_dict (rr_baseline r)));
   (VStr "candidate", VDict (bench_dict (rr_candidate r)))].

(** [_pct_arrow] and [render_markdown] *)
Definition pct_arrow (pct : float) : string :=
  if flt 0%float pct then ("+" ++ fixed 2 pct ++ "% ⬆ regression")%string
  else if flt pct 0%float then (fixed 2 pct ++ "% ⬇ improvement")%string
  else "0.00% (no change)".

Definition render_markdown (r : regression_result) : list string :=
  ["## " ++ (if rr_failed r then "❌" else "✅") ++ " SketchLog Regression Check — " ++ status_text (rr_failed r);
   ""; "### Thresholds"; "| Metric | Threshold | Measured | Status |"; "|---|---|---|---|"]%string
  ++ map (λ k, "| " ++ ck_name k ++ " | " ++ ck_threshold k ++ " | " ++ ck_measured k ++ " | "
                ++ (if ck_failed k then "❌" else "✅") ++ " " ++ status_text (ck_failed k) ++ " |")%string (rr_checks r)
  ++ [""; "### Raw Numbers"; "| Metric | Baseline | Candidate | Δ |"; "|---|---|---|---|";
   "| p95 latency (ms) | " ++ fixed 3 (br_p95_ms (rr_baseline r)) ++ " | " ++ fixed 3 (br_p95_ms (rr_candidate r))
     ++ " | " ++ pct_arrow (rr_p95_pct r) ++ " |";
   "| p99 latency (ms) | " ++ fixed 3 (br_p99_ms (rr_baseline r)) ++ " | " ++ fixed 3 (br_p99_ms (rr_candidate r))
     ++ " | " ++ pct_arrow (rr_p99_pct r) ++ " |";
   "| Event rate (Hz)  | " ++ fixed 1 (br_event_rate_hz (rr_baseline r)) ++ " | "
     ++ fixed 1 (br_event_rate_hz (rr_candidate r)) ++ " | " ++ pct_arrow (rr_event_rate_pct r) ++ " |";
   "| SLO burn ratio   | 1.000 (baseline) | " ++ fixed 4 (rr_slo_burn_ratio r) ++ "× | "
     ++ (if flt 1%float (rr_slo_burn_ratio r) then "⬆ higher burn" else "⬇ lower burn") ++ " |";
   ""; "> *Generated by [SketchLog Regression Action](https://github.com/SBALAVIGNESH123/sketchlog)*"; ""]%string.

(** ** The command *)

Record arguments := mk_arguments {
  ar_baseline_file : string;
  ar_candidate_file : string;
  ar_fail_p95 : float;
  ar_fail_p99 : float;
  ar_fail_event_rate : float;
  ar_slo_burn : float;
  ar_output : string;
  ar_summary : string;
  ar_demo : bool;
  ar_export_baseline : bool
}.

Inductive document := JsonDocument (d : pydict) | TextDocument (lines : list string).

(** How the process ends: an exit code, or an exception that nothing catches. *)
Inductive ending := Exit (code : Z) | Uncaught (e : exn).

Section Command.
Context `{FloatParser}.

(** [_env_float] *)
Definition env_float (env : string → option string) (key : string) (fallback : float) : res float :=
  let v := py_strip (default "" (env key)) in
  if bool_decide (v = "") then Ok fallback
  else match py_float_str v with
       | Raise (ValueError _) => Ok fallback
       | r => r
       end.

(** [(os.environ.get(key) or arg).strip()] *)
Definition env_text (env : string → option string) (key arg : string) : string :=
  py_strip (match env key with Some v => if bool_decide (v = "") then arg else v | None => arg end).

Definition config_of (env : string → option string) (a : arguments) : res regression_config :=
  let? fail_p95 := env_float env "SKETCHLOG_FAIL_P95" (ar_fail_p95 a) in
  let? fail_p99 := env_float env "SKETCHLOG_FAIL_P99" (ar_fail_p99 a) in
  let? fail_event_rate := env_float env "SKETCHLOG_FAIL_EVENT_RATE" (ar_fail_event_rate a) in
  let? slo_burn := env_float env "SKETCHLOG_SLO_BURN" (ar_slo_burn a) in
  check_regression_config (mk_regression_config fail_p95 fail_p99 fail_event_rate slo_burn
    (env_text env "SKETCHLOG_OUTPUT_FILE" (ar_output a))
    (env_text env "SKETCHLOG_SUMMARY_FILE" (ar_summary a))).

(** What is compared, or the baseline that is only exported. *)
Inductive job :=
| Compare (baseline candidate : bench_result)
| Export (baseline : bench_result)
| Nothing.

Definition job_of (env : string → option string) (files : string → file) (a : arguments) : res job :=
  let baseline_file := env_text env "SKETCHLOG_BASELINE_FILE" (ar_baseline_file a) in
  let candidate_file := env_text env "SKETCHLOG_CANDIDATE_FILE" (ar_candidate_file a) in
  if ar_demo a then
    let? baseline := generate_demo_bench 0 in
    let? candidate := generate_demo_bench 999 in
    Ok (Compare baseline candidate)
  else if negb (bool_decide (baseline_file = "")) && negb (bool_decide (candidate_file = "")) then
    let? baseline := load_bench_file files baseline_file in
    let? candidate := load_bench_file files candidate_file in
    Ok (Compare baseline candidate)
  else if ar_export_baseline a then
    let? baseline := generate_demo_bench 0 in Ok (Export baseline)
  else Ok Nothing.

(** [main]: the documents written, and the ending.  [writable] tells whether a
    path can be written. *)
Definition main (env : string → option string) (files : string → file) (writable : string → bool) (a : arguments)
    : list (string * document) * ending :=
  match config_of env a with
  | Raise (ValueError _) => ([], Exit 2)
  | Raise e => ([], Uncaught e)
  | Ok c =>
      match job_of env files a with
      | Raise (RuntimeError _) => ([], Exit 1)
      | Raise e => ([], Uncaught e)
      | Ok Nothing => ([], Exit 2)
      | Ok (Export baseline) =>
          if writable (rc_output_file c)
          then ([(rc_output_file c, JsonDocument (bench_dict baseline))], Exit 0) else ([], Exit 1)
      | Ok (Compare baseline candidate) =>
          let r := compare baseline candidate c in
          if negb (writable (rc_output_file c)) then ([], Exit 1)
          else let json := (rc_output_file c, JsonDocument (result_dict r)) in
               if negb (writable (rc_summary_file c)) then ([json], Exit 1)
               else ([json; (rc_summary_file c, TextDocument (render_markdown r))],
                     Exit (if rr_failed r then 1 else 0))
      end
  end.
End Command.

(** ** The gate on sensible numbers *)

Definition sane (b : bench_result) : Prop :=
  Forall (λ v, isfinite v = true ∧ 0 ≤ fval v) [br_p95_ms b; br_p99_ms b; br_event_rate_hz b; br_slo_burn_rate b].

(** [a] is no slower, no less productive and burns no faster than [b]. *)
Definition no_worse (a b : bench_result) : Prop :=
  fle (br_p95_ms a) (br_p95_ms b) = true ∧ fle (br_p99_ms a) (br_p99_ms b) = true ∧
  fle (br_event_rate_hz b) (br_event_rate_hz a) = true ∧ fle (br_slo_burn_rate a) (br_slo_burn_rate b) = true.

(** What [_pct_change] computes, and that it grows with the candidate. *)
Lemma fval_pct_change b c :
  isfinite b = true → isfinite c = true → 0 < fval b → 0 ≤ fval c →
  num (pct_change b c) ∧
  fval (pct_change b c) = Rnd (Rndq (Rnd ((fval c - fval b) * 2 ^ 1074) * 2 ^ 1074) (fval b) * fval 100%float).
Proof.
  intros Fb Fc Hb Hc. unfold pct_change.
  assert (feq b 0%float = false) as ->.
  { apply not_true_iff_false. rewrite feq_val by (done || by apply isfinite_num). rewrite fval_zero. lia. }
  destruct (fsub_finite c b Fc Fb Hc ltac:(lia)) as [Fd Vd].
  destruct (fval_div _ b Fd Fb Hb) as [Vq Nq].
  destruct (fval_mul_ge1 _ 100%float Nq) as [Vm Nm]; [done|done|].
  split; [done|]. by rewrite Vm, Vq, Vd.
Qed.

Lemma pct_change_mono b c c' :
  isfinite b = true → isfinite c = true → isfinite c' = true → 0 ≤ fval b → 0 ≤ fval c →
  fle c c' = true →
  num (pct_change b c) ∧ fle (pct_change b c) (pct_change b c') = true ∧
  (fle c b = true → fval (pct_change b c) ≤ 0) ∧ (fle b c = true → 0 ≤ fval (pct_change b c)).
Proof.
  intros Fb Fc Fc' Hb Hc Hle.
  destruct (Z.eq_dec (fval b) 0) as [E|E].
  { assert (feq b 0%float = true) as Hz by (apply feq_val; [by apply isfinite_num|done|done]).
    unfold pct_change. rewrite Hz. by repeat split. }
  apply fle_val in Hle; [|by apply isfinite_num..].
  destruct (fval_pct_change b c) as [N V]; [done|done|lia|done|].
  destruct (fval_pct_change b c') as [N' V']; [done|done|lia|lia|].
  assert (0 < 2 ^ 1074) as H74 by done. assert (0 < fval 100%float) as H100 by done.
  assert (∀ u v, u ≤ v →
    Rnd (Rndq (Rnd (u * 2 ^ 1074) * 2 ^ 1074) (fval b) * fval 100%float)
    ≤ Rnd (Rndq (Rnd (v * 2 ^ 1074) * 2 ^ 1074) (fval b) * fval 100%float)) as M.
  { intros u v Huv. apply Rnd_mono, Z.mul_le_mono_nonneg_r; [lia|]. apply Rndq_mono; [lia|].
    apply Z.mul_le_mono_nonneg_r; [lia|]. apply Rnd_mono, Z.mul_le_mono_nonneg_r; [lia|done]. }
  assert (Rnd (Rndq (Rnd (0 * 2 ^ 1074) * 2 ^ 1074) (fval b) * fval 100%float) = 0) as M0.
  { assert (Rnd (0 * 2 ^ 1074) * 2 ^ 1074 = 0) as -> by done. rewrite Rndq_0 by lia. done. }
  split; [done|]. split; [apply fle_val; [done..|]; rewrite V, V'; apply M; lia|].
  split; intros H; (apply fle_val in H; [|by apply isfinite_num..]); rewrite V, <- M0; apply M; lia.
Qed.

(** A limit that is set, and that a measure exceeds. *)
Definition exceeds (limit measure : float) : bool := flt 0%float limit && flt limit measure.

Lemma compare_failed b c cfg :
  rr_failed (compare b c cfg) =
  exceeds (rc_fail_p95 cfg) (pct_change (br_p95_ms b) (br_p95_ms c)) ||
  exceeds (rc_fail_p99 cfg) (pct_change (br_p99_ms b) (br_p99_ms c)) ||
  exceeds (rc_fail_event_rate cfg) (PrimFloat.opp (pct_change (br_event_rate_hz b) (br_event_rate_hz c))) ||
  exceeds (rc_slo_burn_threshold cfg)
    (if flt 0%float (br_slo_burn_rate b) then (br_slo_burn_rate c / br_slo_burn_rate b)%float else 1%float).
Proof.
  unfold compare, exceeds. cbn [rr_failed]. rewrite !existsb_app, !orb_assoc.
  assert (∀ g k, existsb ck_failed (if g : bool then [k] else []) = g && ck_failed k) as K
    by (intros [] k; cbn; [by rewrite orb_false_r|done]).
  by rewrite !K.
Qed.

(** A limit of a checked configuration and a measure: exceeding is inherited
    by larger measures, and nothing that is not above the bound exceeds. *)
Lemma exceeds_mono limit x y : fle x y = true → exceeds limit x = true → exceeds limit y = true.
Proof.
  unfold exceeds. rewrite !andb_true_iff. intros H [H0 H1]. split; [done|]. by eapply flt_fle_trans.
Qed.

Lemma exceeds_nonpos limit x : num limit → num x → fval x ≤ 0 → exceeds limit x = false.
Proof.
  intros Nl Nx Hx. unfold exceeds. apply andb_false_iff.
  destruct (flt 0%float limit) eqn:E; [|by left]. right. apply not_true_iff_false. rewrite flt_val by done.
  apply flt_val in E; [|done..]. rewrite fval_zero in E. lia.
Qed.

Definition burn_ratio (b c : bench_result) : float :=
  if flt 0%float (br_slo_burn_rate b) then (br_slo_burn_rate c / br_slo_burn_rate b)%float else 1%float.

Lemma burn_ratio_mono b c c' :
  sane b → sane c → sane c' → fle (br_slo_burn_rate c) (br_slo_burn_rate c') = true →
  fle (burn_ratio b c) (burn_ratio b c') = true ∧
  (fle (br_slo_burn_rate c) (br_slo_burn_rate b) = true → fle (burn_ratio b c) 1%float = true).
Proof.
  intros Sb Sc Sc' H. unfold burn_ratio. destruct (flt 0%float (br_slo_burn_rate b)) eqn:E; [|done].
  unfold sane in *. rewrite !Forall_cons in *. destruct Sb as (_ & _ & _ & [Fb Pb] & _), Sc as (_ & _ & _ & [Fc Pc] & _), Sc' as (_ & _ & _ & [Fc' Pc'] & _).
  apply flt_val in E; [|done|by apply isfinite_num]. rewrite fval_zero in E.
  split; [apply fdiv_mono; try done; apply fle_val in H; [done|by apply isfinite_num..]|].
  intros Hb. destruct (fval_div _ _ Fb Fb E) as [_ N].
  assert (fle (br_slo_burn_rate c / br_slo_burn_rate b) (br_slo_burn_rate b / br_slo_burn_rate b) = true) as Hle
    by (apply fdiv_mono; try done; apply fle_val in Hb; [done|by apply isfinite_num..]).
  eapply fle_trans; [exact Hle|]. apply fle_val; [done..|]. by rewrite fdiv_self.
Qed.

Lemma fle_opp x y : num x → num y → fle (PrimFloat.opp x) (PrimFloat.opp y) = true ↔ fle y x = true.
Proof.
  intros Nx Ny. rewrite !fle_val by (done || by apply num_opp). rewrite !fval_opp. lia.
Qed.

Lemma config_nums cfg :
  check_regression_config cfg = Ok cfg →
  num (rc_fail_p95 cfg) ∧ num (rc_fail_p99 cfg) ∧ num (rc_fail_event_rate cfg) ∧ num (rc_slo_burn_threshold cfg).
Proof.
  unfold check_regression_config. case_match eqn:E; [done|]. intros _. cbn in E. rewrite !orb_false_iff, !negb_false_iff in E.
  destruct_and!. split_and!; by apply isfinite_num.
Qed.

Lemma no_worse_keeps_passing cfg base x y :
  sane base → sane x → sane y → no_worse x y →
  rr_failed (compare base y cfg) = false → rr_failed (compare base x cfg) = false.
Proof.
  intros Sb Sx Sy (W1 & W2 & W3 & W4). rewrite !compare_failed. fold (burn_ratio base x). fold (burn_ratio base y).
  pose proof (burn_ratio_mono base x y Sb Sx Sy W4) as [Mb _].
  unfold sane in Sb, Sx, Sy. rewrite !Forall_cons in Sb, Sx, Sy.
  destruct Sb as ([F1 P1] & [F2 P2] & [F3 P3] & _), Sx as ([G1 Q1] & [G2 Q2] & [G3 Q3] & _),
    Sy as ([H1 R1] & [H2 R2] & [H3 R3] & _).
  rewrite !orb_false_iff. intros [[[E1 E2] E3] E4].
  assert (∀ l u v, fle u v = true → exceeds l v = false → exceeds l u = false) as K.
  { intros l u v H Hv. apply not_true_iff_false. intros E. apply (exceeds_mono _ _ v) in E; [congruence|done]. }
  split_and!; (eapply K; [|eassumption]).
  - by apply pct_change_mono.
  - by apply pct_change_mono.
  - destruct (pct_change_mono (br_event_rate_hz base) (br_event_rate_hz y) (br_event_rate_hz x)) as (Ny & Hle & _); [done..|].
    apply fle_opp; [by eapply fle_num_r|by eapply fle_num_l|done].
  - done.
Qed.

Lemma no_worse_passes cfg base x :
  check_regression_config cfg = Ok cfg → sane base → sane x → no_worse x base →
  flt 0%float (rc_slo_burn_threshold cfg) = false ∨ fle 1%float (rc_slo_burn_threshold cfg) = true →
  rr_failed (compare base x cfg) = false.
Proof.
  intros Hc Sb Sx (W1 & W2 & W3 & W4) Hb. rewrite !compare_failed. fold (burn_ratio base x).
  destruct (burn_ratio_mono base x base Sb Sx Sb W4) as [_ Mb]. destruct (config_nums cfg Hc) as (N1 & N2 & N3 & N4).
  unfold sane in Sb, Sx. rewrite !Forall_cons in Sb, Sx.
  destruct Sb as ([F1 P1] & [F2 P2] & [F3 P3] & _), Sx as ([G1 Q1] & [G2 Q2] & [G3 Q3] & _).
  assert (∀ l b c, num l → isfinite b = true → isfinite c = true → 0 ≤ fval b → 0 ≤ fval c → fle c b = true →
    exceeds l (pct_change b c) = false) as K.
  { intros l b c Nl Fb Fc Pb Pc H. destruct (pct_change_mono b c c) as (N & _ & Hn & _); try done; [by apply fle_refl, isfinite_num|].
    by apply exceeds_nonpos; [..|apply Hn]. }
  rewrite !orb_false_iff. split_and!; [by apply K|by apply K| |].
  - destruct (pct_change_mono (br_event_rate_hz base) (br_event_rate_hz x) (br_event_rate_hz x)) as (N & _ & _ & Hp); try done; [by apply fle_refl, isfinite_num|].
    apply exceeds_nonpos; [done|by apply num_opp|]. rewrite fval_opp. specialize (Hp W3). lia.
  - unfold exceeds. destruct Hb as [Hb|Hb]; [by rewrite Hb|]. apply andb_false_iff. right.
    apply not_true_iff_false. intros E. pose proof (flt_fle_trans _ _ _ E (Mb W4)) as E'.
    pose proof (flt_fle_trans _ _ _ E' Hb) as E2. by rewrite flt_irrefl in E2.
Qed.

(** C34. The gate is monotone.  Under a checked configuration and with finite
    numbers that are not negative: a candidate that is no worse than one that
    passes, passes against the same baseline; and unless the burn limit is set
    below one, every candidate that is no worse than the baseline itself
    passes. *)
Theorem gate_monotone cfg base x y :
  check_regression_config cfg = Ok cfg → sane base → sane x → sane y →
  (no_worse x y → rr_failed (compare base y cfg) = false → rr_failed (compare base x cfg) = false) ∧
  (no_worse x base → flt 0%float (rc_slo_burn_threshold cfg) = false ∨ fle 1%float (rc_slo_burn_threshold cfg) = true →
   rr_failed (compare base x cfg) = false).
Proof.
  intros Hc Sb Sx Sy. split; [by apply no_worse_keeps_passing|by apply no_worse_passes].
Qed.

(** ** What is exported is read back *)

Definition finite_result (b : bench_result) : Prop :=
  Forall (λ v, isfinite v = true) [br_p95_ms b; br_p99_ms b; br_event_rate_hz b; br_slo_burn_rate b].

Definition at_path (path : string) (b : bench_result) : bench_result :=
  mk_bench_result (br_p95_ms b) (br_p99_ms b) (br_event_rate_hz b) (br_slo_burn_rate b) path.

Lemma safe_float_finite `{FloatParser} v d : isfinite v = true → safe_float (VFloat v) d = Ok v.
Proof. intros Hv. unfold safe_float. cbn. by rewrite Hv. Qed.

Lemma load_exported `{FloatParser} files path b :
  path ≠ "" → finite_result b → files path = Parsed (VDict (bench_dict b)) →
  load_bench_file files path = Ok (at_path path b).
Proof.
  intros Hp Hb Hf. unfold load_bench_file. rewrite bool_decide_eq_false_2 by done. rewrite Hf.
  unfold finite_result in Hb. rewrite !Forall_cons in Hb. destruct b as [p95 p99 rate burn source]. cbn in Hb.
  destruct Hb as (F1 & F2 & F3 & F4 & _).
  lazy -[safe_float new_bench_result isfinite].
  rewrite !safe_float_finite by done. cbn [res_bind].
  unfold new_bench_result. cbn [existsb]. by rewrite F1, F2, F3, F4.
Qed.

(** A result that was exported as a baseline is read back with exactly the
    same numbers; and when both files of a run are exported results, the run
    writes the report and the summary and exits with 0 or 1 as the comparison
    of exactly those results says. *)
Theorem exported_results_are_compared `{FloatParser} env files writable a c b1 b2 p1 p2 :
  finite_result b1 → finite_result b2 → p1 ≠ "" → p2 ≠ "" →
  files p1 = Parsed (VDict (bench_dict b1)) → files p2 = Parsed (VDict (bench_dict b2)) →
  config_of env a = Ok c → ar_demo a = false →
  env_text env "SKETCHLOG_BASELINE_FILE" (ar_baseline_file a) = p1 →
  env_text env "SKETCHLOG_CANDIDATE_FILE" (ar_candidate_file a) = p2 →
  writable (rc_output_file c) = true → writable (rc_summary_file c) = true →
  let r := compare (at_path p1 b1) (at_path p2 b2) c in
  load_bench_file files p1 = Ok (at_path p1 b1) ∧
  main env files writable a =
    ([(rc_output_file c, JsonDocument (result_dict r)); (rc_summary_file c, TextDocument (render_markdown r))],
     Exit (if rr_failed r then 1 else 0)).
Proof.
  intros Hb1 Hb2 Hp1 Hp2 Hf1 Hf2 Hc Hd E1 E2 Hw1 Hw2 r. split; [by apply load_exported|].
  unfold main, job_of. rewrite Hc, Hd, E1, E2, !bool_decide_eq_false_2 by done. cbn [negb andb].
  rewrite (load_exported _ p1 b1), (load_exported _ p2 b2) by done. cbn [res_bind].
  rewrite Hw1, Hw2. done.
Qed.

(** ** Where the gate is blind *)

(** A metric that the baseline reports as zero is never compared. *)
Lemma zero_baseline_is_not_compared c : pct_change 0 c = 0%float.
Proof. done. Qed.

(** A measure that is not a finite number reads as zero: an infinite latency
    looks like an improvement. *)
Example infinite_latency_reads_as_zero `{FloatParser} : safe_float (VFloat infinity) 0 = Ok 0%float.
Proof. done. Qed.

(** An integer too large for a float ends the command with an exception. *)
Lemma huge_integer_is_uncaught `{FloatParser} : ∃ msg, safe_float (VInt (10 ^ 400)) 0 = Raise (OverflowError msg).
Proof. eexists. vm_compute. reflexivity. Qed.

(** [ScenarioResult] and [LabReport.to_dict] of bench_lab.py *)
Record scenario_result := mk_scenario_result {
  sr_name : string;
  sr_passed : bool;
  sr_metrics : pydict;
  sr_notes : list string;
  sr_error : option string
}.

Record lab_report := mk_lab_report {
  lr_schema_version : string;
  lr_generated_at : string;
  lr_environment : list (string * string);
  lr_scenarios : list scenario_result;
  lr_passed : Z;
  lr_failed : Z
}.

Definition scenario_dict (r : scenario_result) : pydict :=
  [(VStr "name", VStr (sr_name r)); (VStr "passed", VBool (sr_passed r)); (VStr "metrics", VDict (sr_metrics r));
   (VStr "notes", VList (map VStr (sr_notes r)))]
  ++ match sr_error r with
     | Some e => if bool_decide (e = "") then [] else [(VStr "error", VStr e)]
     | None => []
     end.

Definition lab_report_dict (r : lab_report) : pydict :=
  [(VStr "schema_version", VStr (lr_schema_version r)); (VStr "generated_at", VStr (lr_generated_at r));
   (VStr "environment", VDict (map (λ '(k, v), (VStr k, VStr v)) (lr_environment r)));
   (VStr "passed", VInt (lr_passed r)); (VStr "failed", VInt (lr_failed r));
   (VStr "scenarios", VList (map (λ s, VDict (scenario_dict s)) (lr_scenarios r)))].

(** The laboratory writes its scenarios as a list, the gate looks for a
    dictionary: every report reads as the same empty result, so that any two
    reports pass. *)
Lemma lab_reports_always_pass `{FloatParser} files p1 p2 r1 r2 cfg b c :
  check_regression_config cfg = Ok cfg →
  flt 0%float (rc_slo_burn_threshold cfg) = false ∨ fle 1%float (rc_slo_burn_threshold cfg) = true →
  files p1 = Parsed (VDict (lab_report_dict r1)) → files p2 = Parsed (VDict (lab_report_dict r2)) →
  load_bench_file files p1 = Ok b → load_bench_file files p2 = Ok c → rr_failed (compare b c cfg) = false.
Proof.
  intros Hc Hb H1 H2.
  assert (∀ p r, files p = Parsed (VDict (lab_report_dict r)) → ∀ b, load_bench_file files p = Ok b →
    b = mk_bench_result 0 0 0 1 p) as K.
  { intros p r Hf b'. unfold load_bench_file. case_bool_decide; [done|]. rewrite Hf. unfold lab_report_dict.
    lazy -[new_bench_result]. by intros [= <-]. }
  intros E1%(K _ _ H1) E2%(K _ _ H2). subst.
  assert (∀ p, sane (mk_bench_result 0 0 0 1 p)) as S by (intros p; unfold sane; repeat constructor; vm_compute; done).
  by apply no_worse_passes.
Qed.

(** ** Concrete runs *)

Definition demo_config : regression_config := mk_regression_config 20 20 15 2 "out.json" "out.md".
Definition demo_base : bench_result := mk_bench_result 8 12 100000 1 "<demo>".
Definition demo_slow : bench_result := mk_bench_result 9.5 14 90000 1.5 "<demo>".
Definition demo_middle : bench_result := mk_bench_result 8.5 12 95000 1 "<demo>".

Lemma gate_monotone_witness :
  no_worse demo_middle demo_slow ∧ rr_failed (compare demo_base demo_slow demo_config) = false ∧
  rr_failed (compare demo_base demo_middle demo_config) = false ∧
  rr_failed (compare demo_middle demo_base demo_config) = false ∧
  rr_failed (compare demo_base (mk_bench_result 9.75 12 95000 1 "") demo_config) = true.
Proof.
  assert (sane demo_base ∧ sane demo_middle ∧ sane demo_slow) as (S1 & S2 & S3)
    by (unfold sane; repeat constructor; vm_compute; done).
  assert (check_regression_config demo_config = Ok demo_config) as Hc by (vm_compute; reflexivity).
  assert (no_worse demo_middle demo_slow ∧ no_worse demo_base demo_middle) as [W1 W2] by (split; vm_compute; done).
  assert (rr_failed (compare demo_base demo_slow demo_config) = false) as E by (vm_compute; reflexivity).
  split; [done|]. split; [done|].
  split; [by apply (proj1 (gate_monotone demo_config demo_base demo_middle demo_slow Hc S1 S2 S3))|].
  split; [apply (proj2 (gate_monotone demo_config demo_middle demo_base demo_slow Hc S2 S1 S3)); [done|right; vm_compute; reflexivity]|].
  vm_compute. reflexivity.
Defined.

Definition no_numbers : FloatParser := λ _, Raise (ValueError "could not convert string to float").

Definition demo_files (path : string) : file :=
  if bool_decide (path = "base.json") then Parsed (VDict (bench_dict demo_base))
  else if bool_decide (path = "new.json") then Parsed (VDict (bench_dict demo_slow)) else Unreadable.

Definition demo_arguments : arguments :=
  mk_arguments "base.json" "new.json" 20 20 15 2 "out.json" "out.md" false false.

Lemma exported_results_are_compared_witness :
  let r := compare (at_path "base.json" demo_base) (at_path "new.json" demo_slow) demo_config in
  main (H := no_numbers) (λ _, None) demo_files (λ _, true) demo_arguments =
    ([("out.json"%string, JsonDocument (result_dict r)); ("out.md"%string, TextDocument (render_markdown r))], Exit 0) ∧
  map ck_measured (rr_checks r) = ["+18.75%"; "+16.67%"; "+10.00% drop"; "1.5000x"].
Proof.
  intros r.
  destruct (exported_results_are_compared (H := no_numbers) (λ _, None) demo_files (λ _, true) demo_arguments demo_config
    demo_base demo_slow "base.json" "new.json") as [_ E];
    [repeat constructor; vm_compute; done|repeat constructor; vm_compute; done|done|done|done|done|vm_compute; reflexivity
    |done|vm_compute; reflexivity|vm_compute; reflexivity|done|done|].
  split; [|vm_compute; reflexivity]. rewrite E. unfold r. vm_compute. reflexivity.
Defined.

(** The built-in demonstration compares two synthetic results. *)
Example demo_command_run :
  snd (main (H := no_numbers) (λ _, None) demo_files (λ _, true)
    (mk_arguments "" "" 20 20 15 2 "out.json" "out.md" true false)) = Exit 0.
Proof. vm_compute. reflexivity. Qed.
