(* ===== verification/Url.v ===== *)
(** * Splitting URLs

    [urlsplit] and [urlunsplit] of the standard library, which the modules use
    to check addresses and to take passwords out of what they print.

    Two checks of [urlsplit] are parameters: whether a host in brackets is an
    address, and whether a host that is not ASCII stays free of delimiters
    when it is normalised. *)

From Stdlib Require Import Ascii String.
From S2P Require Import Prelude PyVal Json SqlParser Server.

#[local] Open Scope Z_scope.
#[local] Open Scope py_scope.

Record split_result := mk_split {
  us_scheme : text;
  us_netloc : text;
  us_path : text;
  us_query : text;
  us_fragment : text
}.

Class UrlChecks := {
  bracketed_ok : text → bool;
  nfkc_ok : text → bool
}.

Definition colon : ascii := ":".
Definition at_sign : ascii := "@".
Definition question : ascii := "?".
Definition hash : ascii := "#".

(** Control characters and the space are dropped in front, tabs and line ends
    everywhere. *)
Fixpoint drop_controls (l : text) : text :=
  match l with a :: l' => if code a <=? 32 then drop_controls l' else l | [] => [] end.
Definition unsafe (a : ascii) : bool := (code a =? 9) || (code a =? 10) || (code a =? 13).
Definition clean (l : text) : text := List.filter (λ a, negb (unsafe a)) l.

Definition is_letter (a : ascii) : bool :=
  let n := code a in (65 <=? n) && (n <=? 90) || (97 <=? n) && (n <=? 122).
Definition is_digit (a : ascii) : bool := (48 <=? code a) && (code a <=? 57).
Definition scheme_char (a : ascii) : bool :=
  is_letter a || is_digit a || bool_decide (a ∈ chars "+-.").

(** The scheme in lower case, and what follows its colon. *)
Definition take_scheme (l : text) : text * text :=
  match split_once colon l with
  | (a :: w, Some r) =>
      if is_letter a && forallb scheme_char (a :: w) then (map lower_char (a :: w), r) else ([], l)
  | _ => ([], l)
  end.

(** [_splitnetloc]: up to the first of [/?#]. *)
Definition delimiter (a : ascii) : bool := bool_decide (a ∈ [slash; question; hash]).
Fixpoint split_netloc (l : text) : text * text :=
  match l with
  | [] => ([], [])
  | a :: l' => if delimiter a then ([], l) else let '(w, r) := split_netloc l' in (a :: w, r)
  end.

Definition has (a : ascii) (l : text) : bool := bool_decide (a ∈ l).

(** The path, the query and the fragment. *)
Definition split_tail (l : text) : text * text * text :=
  let '(l, fragment) := split_once hash l in
  let '(path, query) := split_once question l in
  (path, default [] query, default [] fragment).

Section Split.
Context `{UrlChecks}.

Definition urlsplit (url : text) : res split_result :=
  let url := clean (drop_controls url) in
  let '(scheme, url) := take_scheme url in
  let '(netloc, url) :=
    match url with
    | "/"%char :: "/"%char :: l => split_netloc l
    | _ => ([], url)
    end in
  if xorb (has "[" netloc) (has "]" netloc) then Raise (ValueError "Invalid IPv6 URL")
  else if has "[" netloc && negb (bracketed_ok netloc) then Raise (ValueError "Invalid IPv6 URL")
  else let '(path, query, fragment) := split_tail url in
       if forallb (λ a, code a <? 128) netloc || nfkc_ok netloc
       then Ok (mk_split scheme netloc path query fragment)
       else Raise (ValueError "netloc contains invalid characters under NFKC normalization").
End Split.

Definition uses_netloc : list string :=
  [""; "ftp"; "http"; "gopher"; "nntp"; "telnet"; "imap"; "wais"; "file"; "mms"; "https"; "shttp"; "snews"; "prospero";
   "rtsp"; "rtspu"; "rsync"; "svn"; "svn+ssh"; "sftp"; "nfs"; "git"; "git+ssh"; "ws"; "wss"]%string.

(** [urlunsplit] *)
Definition urlunsplit (u : split_result) : text :=
  let url := us_path u in
  let url :=
    if negb (bool_decide (us_netloc u = []))
       || (negb (bool_decide (us_scheme u = [])) && bool_decide (str (us_scheme u) ∈ uses_netloc)
           && negb (starts_with (chars "//") url))
    then chars "//" ++ us_netloc u
         ++ match url with [] => [] | a :: _ => if bool_decide (a = slash) then url else slash :: url end
    else url in
  let url := if bool_decide (us_scheme u = []) then url else us_scheme u ++ colon :: url in
  let url := if bool_decide (us_query u = []) then url else url ++ question :: us_query u in
  if bool_decide (us_fragment u = []) then url else url ++ hash :: us_fragment u.

(** [s.rsplit(c, 1)] of a text that has a [c]: what is before the last one and
    what is after it. *)
Definition rsplit_once (c : ascii) (l : text) : option (text * text) :=
  match split_once c (rev l) with
  | (w, Some r) => Some (rev r, rev w)
  | (_, None) => None
  end.

(** ** Laws *)

Lemma clean_app l l' : clean (l ++ l') = clean l ++ clean l'.
Proof. apply List.filter_app. Qed.

Lemma elem_of_clean a l : a ∈ clean l → a ∈ l.
Proof. unfold clean. rewrite !list_elem_of_In, filter_In. by intros [? _]. Qed.

Lemma split_once_app c l l' : c ∉ l → split_once c (l ++ c :: l') = (l, Some l').
Proof.
  induction l as [|a l IH]; intros Hc; cbn [app split_once]; [by rewrite decide_True|].
  apply not_elem_of_cons in Hc as [Hac Hc]. rewrite decide_False by done. by rewrite IH.
Qed.

Lemma split_once_none c l : c ∉ l → split_once c l = (l, None).
Proof.
  induction l as [|a l IH]; intros Hc; [done|]. cbn [split_once].
  apply not_elem_of_cons in Hc as [Hac Hc]. rewrite decide_False by done. by rewrite IH.
Qed.

Lemma rsplit_once_app c l l' : c ∉ l' → rsplit_once c (l ++ c :: l') = Some (l, l').
Proof.
  intros Hc. unfold rsplit_once. rewrite rev_app_distr. cbn [rev]. rewrite <- app_assoc. cbn [app].
  rewrite split_once_app by (rewrite list_elem_of_In, <- in_rev, <- list_elem_of_In; done).
  by rewrite !rev_involutive.
Qed.

(** A text without delimiters, followed by nothing or by a delimiter. *)
Definition plain (l : text) : Prop := Forall (λ a, delimiter a = false) l.
Definition delimited (l : text) : Prop := match l with [] => True | a :: _ => delimiter a = true end.

Lemma plain_app l l' : plain l → plain l' → plain (l ++ l').
Proof. intros. by apply Forall_app. Qed.

Lemma split_netloc_app l l' : plain l → delimited l' → split_netloc (l ++ l') = (l, l').
Proof.
  intros Hl Hl'. induction Hl as [|a l Ha Hl IH].
  - destruct l' as [|a l']; [done|]. cbn in *. by rewrite Hl'.
  - cbn [app split_netloc]. by rewrite Ha, IH.
Qed.

Lemma plain_clean l : plain l → plain (clean l).
Proof. intros Hl. apply Forall_forall. intros a Ha%elem_of_clean. revert a Ha. by apply Forall_forall. Qed.

Lemma delimiter_safe a : delimiter a = true → unsafe a = false.
Proof.
  unfold delimiter. rewrite bool_decide_eq_true, !elem_of_cons, elem_of_nil.
  by intros [->|[->|[->|[]]]].
Qed.

Lemma delimited_clean l : delimited l → delimited (clean l).
Proof.
  destruct l as [|a l]; [done|]. intros Ha. cbn in Ha. unfold clean. cbn [List.filter].
  by rewrite (delimiter_safe a Ha).
Qed.
