(* ===== verification/Regex.v ===== *)
(** * Regular expressions

    The fragment of the standard library's [re] that [query_builder.py] uses:
    patterns that are alternatives of sequences of atoms, the backtracking
    matcher with the preferences of [re] (greedy and lazy repetition, first
    alternative first), and [search], [finditer] and [sub("")] over it.

    A text is the list of its code points, so that positions count
    characters.  Which code points beyond ASCII are letters, digits or white
    space, and their capitals, are parameters.

    Proved: the matcher finds a match exactly when one exists, whatever the
    order in which it tries, and a search finds the first position with one. *)

From Stdlib Require Import Ascii String.
From S2P Require Import Prelude PyVal Json SqlParser.

#[local] Open Scope Z_scope.

(** ** Code points *)

Definition codes (s : string) : list Z := utf8_decode (chars s).
Definition text_of (l : list Z) : string := str (flat_map utf8_encode1 l).

(** For code points from 128 on. *)
Class Unicode := {
  uni_alnum : Z → bool;
  uni_digit : Z → bool;
  uni_space : Z → bool;
  uni_upper : Z → list Z
}.

Definition between (a b c : Z) : bool := (a <=? c) && (c <=? b).
Definition ascii_letter (c : Z) : bool := between 65 90 c || between 97 122 c.

(** The letter that a code point stands for when case is ignored: besides the
    letters of ASCII these are capital I with a dot, dotless i, long s and the
    sign for kelvin. *)
Definition fold_case (c : Z) : Z :=
  if between 65 90 c then c + 32
  else if (c =? 304) || (c =? 305) then 105
  else if c =? 383 then 115
  else if c =? 8490 then 107
  else c.
Definition folds_to_letter (c : Z) : bool := between 97 122 (fold_case c).

Section Classes.
Context `{Unicode}.

(** [\w], [\d], [\s] and [c.upper()] *)
Definition word_char (c : Z) : bool :=
  folds_to_letter c || between 48 57 c || (c =? 95) || (128 <=? c) && uni_alnum c.
Definition digit_code (c : Z) : bool := between 48 57 c || (128 <=? c) && uni_digit c.
Definition space_code (c : Z) : bool := between 9 13 c || between 28 32 c || (128 <=? c) && uni_space c.
Definition upper_code (c : Z) : list Z :=
  if between 97 122 c then [c - 32] else if c <? 128 then [c] else uni_upper c.
Definition upper_codes (l : list Z) : list Z := flat_map upper_code l.

(** [s.strip()] *)
Fixpoint drop_space_codes (l : list Z) : list Z :=
  match l with c :: l' => if space_code c then drop_space_codes l' else l | [] => [] end.
Definition strip_codes (l : list Z) : list Z := rev (drop_space_codes (rev (drop_space_codes l))).
End Classes.

(** [[A-Z_]] and [[A-Z0-9_]], ignoring case *)
Definition name_first (c : Z) : bool := folds_to_letter c || (c =? 95).
Definition name_next (c : Z) : bool := name_first c || between 48 57 c.

(** ** Patterns *)

Inductive atom :=
| Edge                        (* \b *)
| One (p : Z → bool)
| Many (p : Z → bool)         (* p*  *)
| Few (p : Z → bool)          (* p*? *)
| Words (ws : list string)    (* one of the words, ignoring case *)
| Open
| Close.

Definition pattern := list (list atom).

Definition group : Type := nat * nat.

Section Matching.
Context `{Unicode}.

Definition at_edge (prev next : option Z) : bool :=
  let w o := match o with Some c => word_char c | None => false end in xorb (w prev) (w next).

(** A word at the front: the character before what follows it, its position
    and what follows it. *)
Fixpoint take_word (w : list Z) (prev : option Z) (n : nat) (l : list Z) : option (option Z * nat * list Z) :=
  match w, l with
  | [], _ => Some (prev, n, l)
  | a :: w, c :: l => if fold_case c =? fold_case a then take_word w (Some c) (S n) l else None
  | _ :: _, [] => None
  end.

(** The position after a match that begins at [n], where the text is [l] and
    the character before it [prev]. *)
Fixpoint run (ps : list atom) (prev : option Z) (n : nat) (l : list Z) (g : group) : option (nat * group) :=
  match ps with
  | [] => Some (n, g)
  | Edge :: ps => if at_edge prev (head l) then run ps prev n l g else None
  | One p :: ps => match l with c :: l => if p c then run ps (Some c) (S n) l g else None | [] => None end
  | Many p :: ps =>
      (fix many prev n l :=
         match l with
         | c :: l' =>
             if p c then match many (Some c) (S n) l' with Some r => Some r | None => run ps prev n l g end
             else run ps prev n l g
         | [] => run ps prev n l g
         end) prev n l
  | Few p :: ps =>
      (fix few prev n l :=
         match run ps prev n l g with
         | Some r => Some r
         | None => match l with c :: l' => if p c then few (Some c) (S n) l' else None | [] => None end
         end) prev n l
  | Words ws :: ps =>
      (fix words ws :=
         match ws with
         | [] => None
         | w :: ws =>
             match take_word (codes w) prev n l with
             | Some (prev', n', l') =>
                 match run ps prev' n' l' g with Some r => Some r | None => words ws end
             | None => words ws
             end
         end) ws
  | Open :: ps => run ps prev n l (n, n)
  | Close :: ps => run ps prev n l (fst g, n)
  end.

Fixpoint run_any (p : pattern) (prev : option Z) (n : nat) (l : list Z) : option (nat * group) :=
  match p with
  | [] => None
  | ps :: p => match run ps prev n l (n, n) with Some r => Some r | None => run_any p prev n l end
  end.

Record hit := mk_hit { h_start : nat; h_end : nat; h_group : group }.

(** [p.search(s)] from a position on *)
Fixpoint search_from (p : pattern) (prev : option Z) (n : nat) (l : list Z) : option hit :=
  match run_any p prev n l with
  | Some (e, g) => Some (mk_hit n e g)
  | None => match l with c :: l' => search_from p (Some c) (S n) l' | [] => None end
  end.
Definition search (p : pattern) (l : list Z) : option hit := search_from p None 0 l.
Definition found (p : pattern) (l : list Z) : bool := match search p l with Some _ => true | None => false end.

(** [p.finditer(s)] and [p.sub("", s)] for patterns that match no empty text;
    [skip] characters belong to the match before. *)
Fixpoint hits_from (p : pattern) (skip : nat) (prev : option Z) (n : nat) (l : list Z) : list hit :=
  match l with
  | [] => []
  | c :: l' =>
      match skip with
      | S k => hits_from p k (Some c) (S n) l'
      | O => match run_any p prev n l with
             | Some (e, g) => mk_hit n e g :: hits_from p (e - n - 1) (Some c) (S n) l'
             | None => hits_from p 0 (Some c) (S n) l'
             end
      end
  end.
Definition hits (p : pattern) (l : list Z) : list hit := hits_from p 0 None 0 l.

Fixpoint removed_from (p : pattern) (skip : nat) (prev : option Z) (n : nat) (l : list Z) : list Z :=
  match l with
  | [] => []
  | c :: l' =>
      match skip with
      | S k => removed_from p k (Some c) (S n) l'
      | O => match run_any p prev n l with
             | Some (e, g) => removed_from p (e - n - 1) (Some c) (S n) l'
             | None => c :: removed_from p 0 (Some c) (S n) l'
             end
      end
  end.
Definition removed (p : pattern) (l : list Z) : list Z := removed_from p 0 None 0 l.
End Matching.

(** [l[a:b]] of a group *)
Definition slice (g : group) (l : list Z) : list Z := take (snd g - fst g) (drop (fst g) l).

(** ** What a pattern matches *)

Section Meaning.
Context `{Unicode}.

(** [matches ps prev l r]: the atoms match a prefix of [l] and leave [r]. *)
Inductive matches : list atom → option Z → list Z → list Z → Prop :=
| m_done prev l : matches [] prev l l
| m_edge ps prev l r : at_edge prev (head l) = true → matches ps prev l r → matches (Edge :: ps) prev l r
| m_one p ps prev c l r : p c = true → matches ps (Some c) l r → matches (One p :: ps) prev (c :: l) r
| m_many_stop p ps prev l r : matches ps prev l r → matches (Many p :: ps) prev l r
| m_many_more p ps prev c l r :
    p c = true → matches (Many p :: ps) (Some c) l r → matches (Many p :: ps) prev (c :: l) r
| m_few_stop p ps prev l r : matches ps prev l r → matches (Few p :: ps) prev l r
| m_few_more p ps prev c l r :
    p c = true → matches (Few p :: ps) (Some c) l r → matches (Few p :: ps) prev (c :: l) r
| m_words w ws ps prev n l prev' n' l' r :
    w ∈ ws → take_word (codes w) prev n l = Some (prev', n', l') → matches ps prev' l' r →
    matches (Words ws :: ps) prev l r
| m_open ps prev l r : matches ps prev l r → matches (Open :: ps) prev l r
| m_close ps prev l r : matches ps prev l r → matches (Close :: ps) prev l r.

#[local] Hint Constructors matches : core.

Lemma take_word_shift w prev n l prev' n' l' m :
  take_word w prev n l = Some (prev', n', l') →
  take_word w prev m l = Some (prev', (m + length w)%nat, l') ∧ n' = (n + length w)%nat
  ∧ length l = (length w + length l')%nat.
Proof.
  revert prev n m l. induction w as [|a w IH]; intros prev n m [|c l]; cbn; try done.
  - intros [= <- <- <-]. by rewrite !Nat.add_0_r.
  - intros [= <- <- <-]. by rewrite !Nat.add_0_r.
  - case_match; [|done]. intros E. destruct (IH _ _ (S m) _ E) as (-> & -> & ->).
    rewrite !Nat.add_succ_r. done.
Qed.

(** The matcher finds only matches, and ends where they end. *)
Lemma run_sound ps : ∀ prev n l g e g',
  run ps prev n l g = Some (e, g') →
  ∃ r, matches ps prev l r ∧ (e + length r = n + length l)%nat.
Proof.
  induction ps as [|a ps IH]; intros prev n l g e g' E.
  { injection E as <- <-. eauto. }
  destruct a as [|p|p|p|ws| |]; cbn [run] in E.
  - case_match; [|done]. apply IH in E as (r & Hm & He). eauto.
  - destruct l as [|c l]; [done|]. case_match; [|done].
    apply IH in E as (r & Hm & He). exists r. split; [eauto|]. cbn in *. lia.
  - revert prev n E. induction l as [|c l IHl]; intros prev n E.
    { apply IH in E as (r & Hm & He). eauto. }
    destruct (p c) eqn:Hp; [|apply IH in E as (r & Hm & He); eauto].
    match type of E with match ?m with _ => _ end = _ => destruct m as [[e1 g1]|] eqn:Em end.
    + injection E as -> ->. apply IHl in Em as (r & Hm & He). exists r. split; [eauto|]. cbn in *. lia.
    + apply IH in E as (r & Hm & He). eauto.
  - revert prev n E. induction l as [|c l IHl]; intros prev n E.
    + destruct (run ps prev n [] g) as [[e1 g1]|] eqn:Er; [|done].
      injection E as -> ->. apply IH in Er as (r & Hm & He). eauto.
    + destruct (run ps prev n (c :: l) g) as [[e1 g1]|] eqn:Er.
      { injection E as -> ->. apply IH in Er as (r & Hm & He). eauto. }
      destruct (p c) eqn:Hp; [|done]. apply IHl in E as (r & Hm & He). exists r. split; [eauto|]. cbn in *. lia.
  - induction ws as [|w ws IHw]; [done|].
    assert (∀ r, matches (Words ws :: ps) prev l r → matches (Words (w :: ws) :: ps) prev l r) as Hw.
    { intros r Hm. inversion Hm; subst. eapply m_words; [by right|done..]. }
    destruct (take_word (codes w) prev n l) as [[[prev' n'] l']|] eqn:Et;
      [destruct (run ps prev' n' l' g) as [[e1 g1]|] eqn:Er|].
    + injection E as -> ->. apply IH in Er as (r & Hm & He). exists r.
      apply take_word_shift with (m := n) in Et as Hs. destruct Hs as (_ & -> & Hl).
      split; [eapply m_words; [by left|done..]|lia].
    + apply IHw in E as (r & Hm & He). eauto.
    + apply IHw in E as (r & Hm & He). eauto.
  - apply IH in E as (r & Hm & He). eauto.
  - apply IH in E as (r & Hm & He). eauto.
Qed.

(** The matcher finds a match when there is one. *)
Lemma run_complete ps prev l r :
  matches ps prev l r → ∀ n g, is_Some (run ps prev n l g).
Proof.
  induction 1 as [prev l|ps prev l r Ha _ IH|p ps prev c l r Hp _ IH|p ps prev l r _ IH|p ps prev c l r Hp _ IH
    |p ps prev l r _ IH|p ps prev c l r Hp _ IH|w ws ps prev m l prev' m' l' r Hw Ht _ IH|ps prev l r _ IH|ps prev l r _ IH];
    intros n g; cbn [run].
  - done.
  - by rewrite Ha.
  - by rewrite Hp.
  - destruct l as [|c l]; [done|]. destruct (p c); [|done]. case_match; [done|apply IH].
  - rewrite Hp. destruct (IH (S n) g) as [x Hx]. cbn [run] in Hx. by rewrite Hx.
  - destruct (IH n g) as [x Hx]. destruct l; by rewrite Hx.
  - destruct (run ps prev n (c :: l) g); [done|]. rewrite Hp. apply (IH (S n) g).
  - induction Hw as [w ws|w v ws _ IHw].
    + apply take_word_shift with (m := n) in Ht as (-> & _ & _).
      destruct (IH (n + length (codes w))%nat g) as [x Hx]. by rewrite Hx.
    + destruct (take_word (codes v) prev n l) as [[[p1 n1] l1]|]; [|apply IHw; done].
      case_match; [done|apply IHw; done].
  - apply IH.
  - apply IH.
Qed.

(** [p.match(s)] of a pattern *)
Definition matches_any (p : pattern) (prev : option Z) (l r : list Z) : Prop := ∃ ps, ps ∈ p ∧ matches ps prev l r.

Lemma run_any_sound p prev n l e g :
  run_any p prev n l = Some (e, g) → ∃ r, matches_any p prev l r ∧ (e + length r = n + length l)%nat.
Proof.
  induction p as [|ps p IH]; cbn; [done|]. destruct (run ps prev n l (n, n)) as [[e1 g1]|] eqn:E.
  - intros [= <- <-]. apply run_sound in E as (r & Hm & He). exists r. split; [exists ps; by split; [left|]|done].
  - intros (r & (qs & Hq & Hm) & He)%IH. exists r. split; [exists qs; by split; [right|]|done].
Qed.

Lemma run_any_none p prev n l : run_any p prev n l = None ↔ ∀ r, ¬ matches_any p prev l r.
Proof.
  split.
  - intros E r (ps & Hp & Hm). induction p as [|qs p IH]; cbn in E; [by apply elem_of_nil in Hp|].
    destruct (run qs prev n l (n, n)) as [x|] eqn:Er; [done|].
    apply elem_of_cons in Hp as [->|Hp]; [|by apply IH].
    destruct (run_complete _ _ _ _ Hm n (n, n)) as [x Hx]. congruence.
  - intros Hn. destruct (run_any p prev n l) as [[e g]|] eqn:E; [|done].
    apply run_any_sound in E as (r & Hm & _). by destruct (Hn r).
Qed.

(** The character before what follows [w]. *)
Definition before (w : list Z) (prev : option Z) : option Z := match last w with Some c => Some c | None => prev end.

Lemma before_cons c w prev : before (c :: w) prev = before w (Some c).
Proof. unfold before. rewrite last_cons. by destruct (last w). Qed.

(** A search finds the first position where the pattern matches. *)
Lemma search_from_spec p prev n l :
  match search_from p prev n l with
  | Some h => ∃ a b r, l = a ++ b ∧ h_start h = (n + length a)%nat ∧ matches_any p (before a prev) b r
                ∧ (h_end h + length r = n + length l)%nat
                ∧ ∀ a' b' r', l = a' ++ b' → (length a' < length a)%nat → ¬ matches_any p (before a' prev) b' r'
  | None => ∀ a b r, l = a ++ b → ¬ matches_any p (before a prev) b r
  end.
Proof.
  revert prev n. induction l as [|c l IH]; intros prev n; cbn [search_from];
    destruct (run_any p prev n _) as [[e g]|] eqn:E.
  - apply run_any_sound in E as (r & Hm & He). exists [], [], r. cbn in *.
    split_and!; [done|lia|done|lia|intros; lia].
  - intros [|] [|] r; [|done..]. intros _. by apply run_any_none with (n := n).
  - apply run_any_sound in E as (r & Hm & He). exists [], (c :: l), r. cbn in *.
    split_and!; [done|lia|done|lia|intros; lia].
  - specialize (IH (Some c) (S n)). destruct (search_from p (Some c) (S n) l) as [h|].
    + destruct IH as (a & b & r & -> & Hs & Hm & He & Hmin). exists (c :: a), b, r.
      rewrite before_cons. cbn [length app] in *. split_and!; [done|lia|done|lia|].
      intros [|c' a'] b' r' El Ha.
      * cbn in El. subst b'. by apply run_any_none with (n := n).
      * injection El as <- El. rewrite before_cons. apply Hmin; [done|]. cbn in Ha. lia.
    + intros [|c' a] b r El.
      * cbn in El. subst b. by apply run_any_none with (n := n).
      * injection El as <- El. rewrite before_cons. by apply IH.
Qed.

Lemma found_iff p l : found p l = true ↔ ∃ a b r, l = a ++ b ∧ matches_any p (last a) b r.
Proof.
  assert (∀ a, before a None = last a) as Hb by (intros a; unfold before; by destruct (last a)).
  pose proof (search_from_spec p None 0 l) as Hs. unfold found, search.
  destruct (search_from p None 0 l) as [h|].
  - destruct Hs as (a & b & r & -> & _ & Hm & _). rewrite Hb in Hm. naive_solver.
  - split; [done|]. intros (a & b & r & -> & Hm). destruct (Hs a b r eq_refl). by rewrite Hb.
Qed.
End Meaning.

(** ** Words that stand alone *)

Section Alone.
Context `{Unicode}.

Lemma take_word_spec w prev n l prev' n' l' :
  take_word w prev n l = Some (prev', n', l') ↔
  ∃ v, l = v ++ l' ∧ map fold_case v = map fold_case w ∧ prev' = before v prev ∧ n' = (n + length w)%nat.
Proof.
  revert prev n l. induction w as [|a w IH]; intros prev n l.
  - assert (take_word [] prev n l = Some (prev, n, l)) as -> by (by destruct l).
    split; [intros [= <- <- <-]; exists []; split_and!; by cbn|].
    intros ([|] & -> & Hv & -> & ->); [|done]. cbn. by rewrite Nat.add_0_r.
  - destruct l as [|c l]; cbn [take_word].
    { split; [done|]. by intros ([|] & ? & ? & _). }
    destruct (Z.eqb_spec (fold_case c) (fold_case a)) as [Ec|Ec].
    + rewrite IH. split.
      * intros (v & -> & Hv & -> & ->). exists (c :: v). rewrite before_cons. cbn.
        split_and!; [done|by rewrite Ec, Hv|done|lia].
      * intros (v & El & Hv & -> & ->). destruct v as [|d v]; [done|]. injection El as <- ->.
        injection Hv as _ Hv. exists v. rewrite before_cons. cbn. split_and!; [done..|lia].
    + split; [done|]. intros (v & El & Hv & _). destruct v as [|d v]; [done|].
      injection El as <- _. injection Hv as Hv _. done.
Qed.

(** No letter, digit or underscore at a place. *)
Definition apart (o : option Z) : Prop := match o with Some c => word_char c = false | None => True end.

(** The word occurs, ignoring case, and nothing that could belong to a word is
    next to it. *)
Definition has_word (w : string) (l : list Z) : Prop :=
  ∃ a v b, l = a ++ v ++ b ∧ map fold_case v = map fold_case (codes w) ∧ apart (last a) ∧ apart (head b).

Definition letters (w : list Z) : Prop := w ≠ [] ∧ Forall (λ c, folds_to_letter c = true) w.

Lemma letters_fold v w : map fold_case v = map fold_case w → letters w → letters v.
Proof.
  intros E [Hn Hw]. split; [by destruct v, w|]. clear Hn. revert w E Hw.
  induction v as [|c v IH]; intros [|d w] E Hw; try done. injection E as Ec E.
  apply Forall_cons in Hw as [Hd Hw]. constructor; [|by apply (IH w)].
  unfold folds_to_letter in *. by rewrite Ec.
Qed.

Lemma letter_is_word c : folds_to_letter c = true → word_char c = true.
Proof. unfold word_char. by intros ->. Qed.

Lemma last_letters v : letters v → ∃ c, last v = Some c ∧ word_char c = true.
Proof.
  intros [Hn Hv]. destruct (last v) as [c|] eqn:E; [|by apply last_None in E].
  exists c. split; [done|]. apply last_Some in E as [v' ->].
  apply Forall_app in Hv as [_ Hc]. apply Forall_cons in Hc as [Hc _]. by apply letter_is_word.
Qed.

Lemma edge_apart o c : word_char c = true → (at_edge o (Some c) = true ↔ apart o).
Proof. intros Hc. unfold at_edge. rewrite Hc. destruct o as [d|]; cbn; [destruct (word_char d)|]; naive_solver. Qed.

Lemma edge_apart_r o c : word_char c = true → (at_edge (Some c) o = true ↔ apart o).
Proof. intros Hc. unfold at_edge. rewrite Hc. destruct o as [d|]; cbn; [destruct (word_char d)|]; naive_solver. Qed.

Lemma matches_edge ps prev l r :
  matches (Edge :: ps) prev l r ↔ at_edge prev (head l) = true ∧ matches ps prev l r.
Proof. split; [by inversion 1|intros [??]; by constructor]. Qed.

Lemma matches_words ws ps prev l r :
  matches (Words ws :: ps) prev l r ↔
  ∃ w v l', w ∈ ws ∧ l = v ++ l' ∧ map fold_case v = map fold_case (codes w) ∧ matches ps (before v prev) l' r.
Proof.
  split.
  - inversion 1; subst. match goal with Ht : take_word _ _ _ _ = _ |- _ =>
      apply take_word_spec in Ht as (v & -> & Hv & -> & _) end. eauto 10.
  - intros (w & v & l' & Hw & -> & Hv & Hm). eapply (m_words w _ _ _ 0); [done|by apply take_word_spec; exists v|done].
Qed.

Definition alone (w : string) : pattern := [[Edge; Words [w]; Edge]].

Lemma found_alone w l : letters (codes w) → found (alone w) l = true ↔ has_word w l.
Proof.
  intros Hw. rewrite found_iff. split.
  - intros (a & b & r & -> & ps & ->%list_elem_of_singleton & Hm).
    apply matches_edge in Hm as [He (w' & v & l' & ->%list_elem_of_singleton & -> & Hv & Hm)%matches_words].
    apply matches_edge in Hm as [He2 _].
    assert (letters v) as Hlv by (by eapply letters_fold).
    exists a, v, l'. split_and!; [done|done| |].
    + destruct Hlv as [Hn Hf]. destruct v as [|c v]; [done|]. apply Forall_cons in Hf as [Hc _].
      by eapply edge_apart; [apply letter_is_word|].
    + apply last_letters in Hlv as (c & Hl & Hc). unfold before in He2. rewrite Hl in He2.
      by eapply edge_apart_r.
  - intros (a & v & b & -> & Hv & Ha & Hb). exists a, (v ++ b), b. split; [done|].
    assert (letters v) as Hlv by (by eapply letters_fold).
    eexists. split; [by left|]. apply matches_edge. split.
    + destruct Hlv as [Hn Hf]. destruct v as [|c v]; [done|]. apply Forall_cons in Hf as [Hc _].
      apply edge_apart; [by apply letter_is_word|done].
    + apply matches_words. exists w, v, b. split_and!; [by left|done|done|].
      apply matches_edge. split; [|constructor].
      apply last_letters in Hlv as (c & Hl & Hc). unfold before. rewrite Hl. by apply edge_apart_r.
Qed.
End Alone.

(** ** Removing matches *)

Section Removing.
Context `{Unicode}.

Lemma removed_skip p w : ∀ prev n l,
  removed_from p (length w) prev n (w ++ l) = removed_from p 0 (before w prev) (n + length w) l.
Proof.
  induction w as [|c w IH]; intros prev n l; cbn [length app].
  - by rewrite Nat.add_0_r.
  - cbn [removed_from]. rewrite IH, before_cons. f_equal. lia.
Qed.

(** A match of [w] in front is removed as a whole. *)
Lemma removed_match p prev n c w l g :
  run_any p prev n (c :: w ++ l) = Some ((n + S (length w))%nat, g) →
  removed_from p 0 prev n (c :: w ++ l) = removed_from p 0 (before (c :: w) prev) (n + S (length w)) l.
Proof.
  intros E. cbn [removed_from]. rewrite E. replace (n + S (length w) - n - 1)%nat with (length w) by lia.
  rewrite removed_skip, before_cons. f_equal. lia.
Qed.

(** [p*] at the end of a pattern takes all it can. *)
Lemma run_many p prev n w l g :
  Forall (λ c, p c = true) w → match l with [] => True | c :: _ => p c = false end →
  run [Many p] prev n (w ++ l) g = Some ((n + length w)%nat, g).
Proof.
  intros Hw Hl. revert prev n. induction Hw as [|c w Hc _ IH]; intros prev n; cbn [app length].
  - rewrite Nat.add_0_r. destruct l as [|c l]; [done|]. cbn. by rewrite Hl.
  - specialize (IH (Some c) (S n)). cbn [run] in IH |- *. rewrite Hc, IH. f_equal. f_equal. lia.
Qed.

(** [.*?] before two characters stops at their first occurrence. *)
Definition any_code (c : Z) : bool := true.
Lemma run_few a b prev n l g :
  let ps := [Few any_code; One (Z.eqb a); One (Z.eqb b)] in
  match run ps prev n l g with
  | Some (e, g') => ∃ w r, l = w ++ a :: b :: r ∧ e = (n + length w + 2)%nat ∧ g' = g
                      ∧ ∀ w' r', w ++ [a] ≠ w' ++ a :: b :: r'
  | None => ∀ w r, l ≠ w ++ a :: b :: r
  end.
Proof.
  assert (∀ prev n l g, run [One (Z.eqb a); One (Z.eqb b)] prev n l g =
    match l with c :: d :: r => if (a =? c) && (b =? d) then Some ((n + 2)%nat, g) else None | _ => None end) as Hr.
  { intros prev' n' [|c [|d r]] g'; cbn; try done; destruct (a =? c); try done. cbn. destruct (b =? d); [|done].
    f_equal. f_equal. lia. }
  intros ps. subst ps. revert prev n. induction l as [|c l IH]; intros prev n.
  { cbn. intros [|] r; done. }
  assert (run [Few any_code; One (Z.eqb a); One (Z.eqb b)] prev n (c :: l) g =
    match run [One (Z.eqb a); One (Z.eqb b)] prev n (c :: l) g with
    | Some r => Some r | None => run [Few any_code; One (Z.eqb a); One (Z.eqb b)] (Some c) (S n) l g end) as -> by done.
  assert ((∃ r, c :: l = a :: b :: r) ∨ ¬ ∃ r, c :: l = a :: b :: r) as Hd.
  { destruct (decide (c = a)) as [->|Hc]; [|right; by intros [r [= ??]]].
    destruct l as [|d r]; [right; by intros [r ?]|].
    destruct (decide (d = b)) as [->|Hc]; [left; by exists r|right; by intros [r' [= ??]]]. }
  rewrite Hr. destruct Hd as [[r Er]|Hn].
  - injection Er as -> ->. rewrite !Z.eqb_refl. cbn. exists [], r. split_and!; [done|cbn; lia|done|].
    intros [|? [|]] r' E; done.
  - assert (match l with d :: _ => if (a =? c) && (b =? d) then Some ((n + 2)%nat, g) else None | _ => None end = None) as ->.
    { destruct l as [|d r]; [done|]. destruct (Z.eqb_spec a c), (Z.eqb_spec b d); cbn; try done. subst.
      destruct Hn. by exists r. }
    specialize (IH (Some c) (S n)). destruct (run _ (Some c) (S n) l g) as [[e g']|].
    + destruct IH as (w & r & -> & -> & -> & Hmin). exists (c :: w), r. split_and!; [done|cbn; lia|done|].
      intros [|x w'] r' E; cbn in E.
      * injection E as -> E. destruct Hn. exists (r' ++ b :: r).
        change (a :: b :: r) with ([a] ++ b :: r). by rewrite app_assoc, E.
      * injection E as <- E. by apply (Hmin w' r').
    + intros [|x w] r E; cbn in E; [destruct Hn; eauto|]. injection E as <- E. by apply (IH w r).
Qed.
End Removing.
