(* ===== verification/QueryBuilder.v ===== *)
(** * The query builder ([query_builder.py])

    Completion, validation and an offline plan for streaming queries, and the
    request that would run one, with the command that is copied for it.

    Proved: the verdict of the validation against a declarative reading of a
    query (comments, words that stand alone, nested parentheses); a copied
    command reads back, word by word, as the request it was made from.  Inputs
    on which the code misbehaves are exhibited at the end.

    The clock, the environment, [float(s)], [repr] of a float, [str] of a
    container, the text of a time and the characters beyond ASCII are
    parameters; argparse is left out. *)

From Stdlib Require Import PrimFloat Ascii String.
From S2P Require Import Prelude PyFloat PyVal PyDict PyNum Json Windowed SqlParser SqlEngine Drift Server DbCheck NamespaceAdmin Agent Regex.

#[local] Open Scope Z_scope.
#[local] Open Scope py_scope.

(** ** Names *)

Definition KEYWORDS : list string :=
  ["SELECT"; "FROM"; "WHERE"; "GROUP"; "BY"; "ORDER"; "LIMIT"; "OFFSET"; "HAVING"; "JOIN"; "LEFT"; "RIGHT"; "INNER";
   "OUTER"; "ON"; "AS"; "AND"; "OR"; "NOT"; "IN"; "BETWEEN"; "LIKE"; "IS"; "NULL"; "TRUE"; "FALSE"; "DISTINCT"; "WITH";
   "UNION"; "ALL"; "EXCEPT"; "INTERSECT"; "WINDOW"; "OVER"; "PARTITION"; "TUMBLE"; "HOP"; "SESSION"; "INTERVAL";
   "EMIT"; "CHANGES"; "FINAL"]%string.

Definition AGGREGATE_FUNCTIONS : list string :=
  ["COUNT"; "SUM"; "AVG"; "MIN"; "MAX"; "APPROX_QUANTILE"; "APPROX_COUNT_DISTINCT"; "APPROX_FREQUENCY"; "SKETCH_MERGE";
   "SKETCH_QUANTILE"; "SKETCH_COUNT"; "PERCENTILE_APPROX"; "STDDEV"; "VARIANCE"]%string.

Definition SCALAR_FUNCTIONS : list string :=
  ["ABS"; "CEIL"; "FLOOR"; "ROUND"; "SQRT"; "LOG"; "EXP"; "POW"; "COALESCE"; "NULLIF"; "CAST"; "TRY_CAST"; "IF"; "CASE";
   "CONCAT"; "SUBSTR"; "TRIM"; "UPPER"; "LOWER"; "LENGTH"; "REPLACE"; "NOW"; "CURRENT_TIMESTAMP"; "DATE_TRUNC";
   "DATE_DIFF"; "TO_TIMESTAMP"; "UNIX_TIMESTAMP"; "FROM_UNIXTIME"]%string.

Definition ALL_FUNCTIONS : list string := AGGREGATE_FUNCTIONS ++ SCALAR_FUNCTIONS.

Definition newline : string := String "010" "".
Definition lines (l : list string) : string := String.concat newline l.

Record template := mk_template { te_name : string; te_description : string; te_sql : string }.

Definition EXAMPLE_TEMPLATES : list template := [
  mk_template "p99 latency per service (5 min tumble)"
    "Approximate 99th-percentile request latency per service, bucketed into 5-minute windows."
    (lines ["SELECT"; "  service,"; "  TUMBLE_START(ts, INTERVAL '5' MINUTE) AS window_start,";
            "  APPROX_QUANTILE(latency_ms, 0.99)     AS p99_ms"; "FROM request_latency";
            "GROUP BY service, TUMBLE(ts, INTERVAL '5' MINUTE)"; "EMIT FINAL;"]);
  mk_template "top-10 error events per minute"
    "Count error events per endpoint, emit the top 10 each minute."
    (lines ["SELECT"; "  endpoint,"; "  TUMBLE_START(ts, INTERVAL '1' MINUTE) AS window_start,";
            "  COUNT(*) AS error_count"; "FROM error_events"; "WHERE status_code >= 500";
            "GROUP BY endpoint, TUMBLE(ts, INTERVAL '1' MINUTE)"; "ORDER BY error_count DESC"; "LIMIT 10"; "EMIT FINAL;"]);
  mk_template "unique active users (HLL)"
    "Approximate distinct active users per namespace per hour."
    (lines ["SELECT"; "  namespace,"; "  TUMBLE_START(ts, INTERVAL '1' HOUR) AS hour,";
            "  APPROX_COUNT_DISTINCT(user_id)       AS dau"; "FROM user_activity";
            "GROUP BY namespace, TUMBLE(ts, INTERVAL '1' HOUR)"; "EMIT FINAL;"]);
  mk_template "sketch merge across shards"
    "Merge DDSketch shards and query the merged percentiles."
    (lines ["SELECT"; "  SKETCH_QUANTILE(SKETCH_MERGE(latency_sketch), 0.50) AS p50_ms,";
            "  SKETCH_QUANTILE(SKETCH_MERGE(latency_sketch), 0.95) AS p95_ms,";
            "  SKETCH_QUANTILE(SKETCH_MERGE(latency_sketch), 0.99) AS p99_ms"; "FROM shard_sketches";
            "WHERE shard_id IN ('shard-0','shard-1','shard-2');"]);
  mk_template "frequency top-K items"
    "Most frequent item values in a stream over a 10-minute window."
    (lines ["SELECT"; "  item_key,"; "  APPROX_FREQUENCY(item_key, 0.001) AS freq"; "FROM item_events";
            "GROUP BY item_key, TUMBLE(ts, INTERVAL '10' MINUTE)"; "ORDER BY freq DESC"; "LIMIT 20"; "EMIT FINAL;"])
]%string.

(** ** Patterns *)

Definition is_code (a : Z) : Z → bool := Z.eqb a.
Definition open_paren : Z := 40.
Definition close_paren : Z := 41.

Section Patterns.
Context `{Unicode}.

Definition spaces : list atom := [One space_code; Many space_code].
Definition SELECT_RE : pattern := alone "SELECT".
Definition FROM_RE : pattern := alone "FROM".
Definition SEMICOLON_RE : pattern := [[One (is_code 59)]].
Definition COMMENT_RE : pattern :=
  [[One (is_code 45); One (is_code 45); Many (λ c, negb (c =? 10))];
   [One (is_code 47); One (is_code 42); Few any_code; One (is_code 42); One (is_code 47)]].
Definition FUNCTION_CALL_RE : pattern :=
  [[Edge; Open; One name_first; Many name_next; Close; Many space_code; One (is_code open_paren)]].
Definition WINDOW_FUNC_RE : pattern :=
  [[Edge; Open; Words ["TUMBLE"; "HOP"; "SESSION"]%string; Close; Many space_code; One (is_code open_paren)]].
Definition EMIT_RE : pattern :=
  [[Edge; Words ["EMIT"%string]] ++ spaces ++ [Open; Words ["FINAL"; "CHANGES"]%string; Close; Edge]].
Definition STAR_FROM_RE : pattern :=
  [Words ["SELECT"%string] :: spaces ++ [One (is_code 42)] ++ spaces ++ [Words ["FROM"%string]]].
End Patterns.

(** ** Completion *)

Record completion_item := mk_completion { ci_label : string; ci_kind : string; ci_detail : string }.

Section Builder.
Context `{Unicode}.

(** [s.upper().startswith(p)] for a [p] already in capitals *)
Definition upper_starts (p : list Z) (s : string) : bool := bool_decide (p `prefix_of` upper_codes (codes s)).

Definition autocomplete (prefix : string) (streams : option (list string))
    (columns : option (list (string * list string))) : list completion_item :=
  let p := upper_codes (codes prefix) in
  let starts s := bool_decide (p `prefix_of` codes s) in
  map (λ kw, mk_completion kw "keyword" "") (List.filter starts (sort_names KEYWORDS))
  ++ map (λ fn, mk_completion (fn ++ "()")
            (if bool_decide (fn ∈ AGGREGATE_FUNCTIONS) then "aggregate_function" else "scalar_function") "")
       (List.filter starts (sort_names ALL_FUNCTIONS))
  ++ map (λ s, mk_completion s "stream" "stream") (List.filter (upper_starts p) (sort_names (default [] streams)))
  ++ flat_map (λ '(table, cols),
       map (λ col, mk_completion (table ++ "." ++ col) "column" ("column of " ++ table))
         (List.filter (λ col, upper_starts p (table ++ "." ++ col) || upper_starts p col) (sort_names cols)))%string
       (default [] columns).

(** ** Validation *)

Record validation_error := mk_error { ve_code : string; ve_message : string; ve_position : option Z }.
Record validation_result := mk_validation {
  vr_valid : bool;
  vr_errors : list validation_error;
  vr_warnings : list validation_error
}.

(** [_COMMENT_RE.sub("", sql).strip()] *)
Definition stripped_of (sql : string) : list Z := strip_codes (removed COMMENT_RE (codes sql)).

(** The loop over the parentheses: where it breaks, and the depth it leaves. *)
Fixpoint paren_scan (i depth : Z) (l : list Z) : option Z * Z :=
  match l with
  | [] => (None, depth)
  | c :: l =>
      if c =? open_paren then paren_scan (i + 1) (depth + 1) l
      else if c =? close_paren then
        if depth - 1 <? 0 then (Some i, depth - 1) else paren_scan (i + 1) (depth - 1) l
      else paren_scan (i + 1) depth l
  end.

Definition paren_errors (l : list Z) : list validation_error :=
  let '(at_, depth) := paren_scan 0 0 l in
  match at_ with
  | Some i => [mk_error "UNBALANCED_PAREN" "Unmatched closing parenthesis." (Some i)]
  | None => []
  end
  ++ (if 0 <? depth
      then [mk_error "UNBALANCED_PAREN"
              ("Unclosed parenthesis (" ++ str_of_Z depth ++ " opening(s) not closed).")%string None]
      else []).

Definition group_text (l : list Z) (h : hit) : list Z := slice (h_group h) l.

Definition unknown_functions (l : list Z) : list validation_error :=
  flat_map (λ h,
    let fn_name := text_of (upper_codes (group_text l h)) in
    if bool_decide (fn_name ∈ KEYWORDS) then []
    else if bool_decide (fn_name ∈ ALL_FUNCTIONS) then []
    else [mk_error "UNKNOWN_FUNCTION"
            ("Unknown function '" ++ fn_name ++ "'. Verify it is supported by the SketchLog SQL engine.")%string
            (Some (Z.of_nat (h_start h)))])
    (hits FUNCTION_CALL_RE l).

Definition query_errors (l : list Z) : list validation_error :=
  (if found SELECT_RE l then [] else [mk_error "MISSING_SELECT" "Query must contain a SELECT clause." None])
  ++ (if found FROM_RE l then [] else [mk_error "MISSING_FROM" "Query must contain a FROM clause." None])
  ++ paren_errors l.

Definition query_warnings (l : list Z) : list validation_error :=
  unknown_functions l
  ++ (if found WINDOW_FUNC_RE l && negb (found EMIT_RE l)
      then [mk_error "MISSING_EMIT" "Windowed queries should include EMIT FINAL or EMIT CHANGES." None] else [])
  ++ match search STAR_FROM_RE l with
     | Some h => [mk_error "SELECT_STAR"
                    "SELECT * fetches all columns. Prefer explicit column names for production queries."
                    (Some (Z.of_nat (h_start h)))]
     | None => []
     end
  ++ (if found SEMICOLON_RE l then [] else [mk_error "MISSING_SEMICOLON" "Query does not end with a semicolon." None]).

Definition validate_query (sql : string) : validation_result :=
  match stripped_of sql with
  | [] => mk_validation false [mk_error "EMPTY_QUERY" "Query is empty." None] []
  | l => let errors := query_errors l in
         mk_validation (bool_decide (length errors = 0%nat)) errors (query_warnings l)
  end.

(** ** The plan *)

Record explain_plan := mk_plan_text {
  ep_query : string;
  ep_steps : list string;
  ep_estimated_streams : list string;
  ep_uses_sketch : bool;
  ep_uses_window : bool;
  ep_note : string
}.

Definition SOURCE_RE : pattern :=
  [Words ["FROM"; "JOIN"]%string :: spaces
     ++ [Open; One name_first; Many (λ c, name_next c || is_code 46 c); Close]].
Definition SKETCH_RE : pattern :=
  [[Edge; Words ["APPROX_QUANTILE"; "APPROX_COUNT_DISTINCT"; "APPROX_FREQUENCY"; "SKETCH_MERGE"; "SKETCH_QUANTILE";
                 "SKETCH_COUNT"]%string; Edge]].
Definition two_words (a b : string) : pattern := [[Edge; Words [a]] ++ spaces ++ [Words [b]; Edge]].
Definition LIMIT_RE : pattern :=
  [[Edge; Words ["LIMIT"%string]] ++ spaces ++ [Open; One digit_code; Many digit_code; Close; Edge]].

(** [list(dict.fromkeys(l))] *)
Definition without_repeats (l : list string) : list string := od_keys (foldl (λ d s, od_set s tt d) [] l).

Definition comma_join (l : list string) : string := String.concat ", " l.
Definition step (b : bool) (s : string) : list string := if b then [s] else [].
Definition named_step (p : pattern) (l : list Z) (f : list Z → string) : list string :=
  match search p l with Some h => [f (group_text l h)] | None => [] end.

Definition explain_query (sql : string) : explain_plan :=
  let l := stripped_of sql in
  let streams := without_repeats (map (λ h, text_of (group_text l h)) (hits SOURCE_RE l)) in
  let uses_sketch := found SKETCH_RE l in
  let uses_window := found WINDOW_FUNC_RE l in
  let steps :=
    step (negb (bool_decide (streams = []))) ("Scan stream(s): " ++ comma_join streams)%string
    ++ step (found (alone "WHERE") l) "Apply WHERE filter"
    ++ named_step WINDOW_FUNC_RE l (λ w, ("Assign " ++ text_of (upper_codes w) ++ " window")%string)
    ++ step uses_sketch "Accumulate sketch(es)"
    ++ step (found (two_words "GROUP" "BY") l) "Group by key(s)"
    ++ step (found (alone "HAVING") l) "Apply HAVING filter"
    ++ step (found (two_words "ORDER" "BY") l) "Sort results"
    ++ named_step LIMIT_RE l (λ n, ("Limit to " ++ text_of n ++ " rows")%string)
    ++ named_step EMIT_RE l (λ w, ("Emit " ++ text_of (upper_codes w) ++ " results")%string) in
  mk_plan_text sql (match steps with [] => ["Execute query"] | _ => steps end) streams uses_sketch uses_window
    (if uses_sketch then "Sketch functions use approximate algorithms; results are probabilistic." else "")%string.

(** [render_text] *)
Definition yes_no (b : bool) : string := if b then "yes" else "no".
Definition render_plan (p : explain_plan) : string :=
  let streams := comma_join (ep_estimated_streams p) in
  lines (["Query Explain Plan"; str (replicate 40 "="%char)]
    ++ imap (λ i s, "  " ++ str_of_Z (Z.of_nat i + 1) ++ ". " ++ s)%string (ep_steps p)
    ++ [""; "  Streams referenced : " ++ (if bool_decide (streams = "") then "unknown" else streams);
        "  Uses sketch ops    : " ++ yes_no (ep_uses_sketch p); "  Uses window        : " ++ yes_no (ep_uses_window p)]%string
    ++ (if bool_decide (ep_note p = "") then [] else ["  Note               : " ++ ep_note p]%string)).
End Builder.

(** ** The request *)

Record api_request := mk_api_request {
  aq_method : string;
  aq_url : string;
  aq_headers : list (string * string);
  aq_body : pydict
}.

(** [build_api_request]; [env] is the variable SKETCHLOG_TOKEN. *)
Definition build_api_request (env : option string) (sql server_url namespace : string) (token : option string)
    (timeout_ms : Z) : api_request :=
  let base := py_rstrip "/" server_url in
  let url := (base ++ "/api/v1/namespaces/" ++ str (Agent.quote (chars namespace)) ++ "/query")%string in
  let from_env := default "" env in
  let resolved_token := if bool_decide (from_env = "") then default "" token else from_env in
  mk_api_request "POST" url
    (("Content-Type", "application/json")
     :: (if bool_decide (resolved_token = "") then [] else [("Authorization", "Bearer " ++ resolved_token)]))%string
    [(VStr "sql", VStr sql); (VStr "timeout_ms", VInt timeout_ms)].

(** [json.dumps(d, indent=2)] of a dictionary with string keys; [nested] is
    the text of a container in it. *)
Definition end_of_line : text := chars newline.

Section Dumps.
Context `{FloatRepr} (nested : pyval → text).

Definition json_text (v : pyval) : text :=
  match v with
  | VNone => chars "null"
  | VBool b => chars (if b then "true" else "false")
  | VInt z => chars (str_of_Z z)
  | VFloat x => chars (float_repr x)
  | VStr s => json_str s
  | v => nested v
  end.

Definition member_text (kv : pyval * pyval) : text :=
  chars "  " ++ (match kv.1 with VStr k => json_str k | k => json_text k end) ++ chars ": " ++ json_text kv.2.

Definition dumps_indent (d : pydict) : text :=
  match d with
  | [] => chars "{}"
  | _ => chars "{" ++ end_of_line ++ Agent.join (chars "," ++ end_of_line) (map member_text d) ++ end_of_line ++ chars "}"
  end.

(** [s.replace("'", "'\\''")] *)
Definition apostrophe : ascii := "'".
Definition backslash : ascii := "\".
Definition escape_apostrophe (a : ascii) : text :=
  if bool_decide (a = apostrophe) then [apostrophe; backslash; apostrophe; apostrophe] else [a].
Definition shell_escape (l : text) : text := flat_map escape_apostrophe l.

(** [to_curl] *)
Definition quoted (l : text) : text := apostrophe :: l ++ [apostrophe].
Definition to_curl (r : api_request) : text :=
  let parts :=
    [chars "curl -s -X " ++ chars (aq_method r) ++ [space] ++ quoted (chars (aq_url r))]
    ++ map (λ '(k, v), chars "  -H " ++ quoted (chars k ++ chars ": " ++ chars v)) (aq_headers r)
    ++ (match aq_body r with [] => [] | _ => [chars "  -d " ++ quoted (shell_escape (dumps_indent (aq_body r)))] end) in
  Agent.join (space :: backslash :: end_of_line) parts.
End Dumps.

Definition request_dict (r : api_request) : pydict :=
  [(VStr "method", VStr (aq_method r)); (VStr "url", VStr (aq_url r));
   (VStr "headers", VDict (map (λ '(k, v), (VStr k, VStr v)) (aq_headers r))); (VStr "body", VDict (aq_body r))].

(** ** Nested parentheses *)

(** Texts whose parentheses are nested. *)
Inductive nested_text : list Z → Prop :=
| nest_nil : nested_text []
| nest_char c l : c ≠ open_paren → c ≠ close_paren → nested_text l → nested_text (c :: l)
| nest_pair a b : nested_text a → nested_text b → nested_text (open_paren :: a ++ close_paren :: b).

(** Nested texts with [d] closing parentheses in between. *)
Fixpoint closes (d : nat) (l : list Z) : Prop :=
  match d with
  | O => nested_text l
  | S d => ∃ a b, l = a ++ close_paren :: b ∧ nested_text a ∧ closes d b
  end.

(** How many parentheses are open at the end of a text. *)
Definition turn (c : Z) : Z := if c =? open_paren then 1 else if c =? close_paren then -1 else 0.
Fixpoint balance (l : list Z) : Z := match l with [] => 0 | c :: l => turn c + balance l end.

Lemma paren_scan_cons i d c l :
  paren_scan i d (c :: l) =
  if c =? open_paren then paren_scan (i + 1) (d + 1) l
  else if c =? close_paren then (if d - 1 <? 0 then (Some i, d - 1) else paren_scan (i + 1) (d - 1) l)
  else paren_scan (i + 1) d l.
Proof. done. Qed.

Lemma closes_char d c l : c ≠ open_paren → c ≠ close_paren → closes d l → closes d (c :: l).
Proof.
  intros Ho Hc. destruct d as [|d]; cbn; [by apply nest_char|].
  intros (a & b & -> & Ha & Hb). exists (c :: a), b. split_and!; [done|by apply nest_char|done].
Qed.

Lemma closes_open d l : closes (S d) l → closes d (open_paren :: l).
Proof.
  intros (a & b & -> & Ha & Hb). destruct d as [|d]; cbn in *; [by apply nest_pair|].
  destruct Hb as (a' & b' & -> & Ha' & Hb). exists (open_paren :: a ++ close_paren :: a'), b'.
  split_and!; [cbn; by rewrite <- app_assoc|by apply nest_pair|done].
Qed.

Lemma nested_scan a : nested_text a → ∀ i d l, 0 ≤ d →
  paren_scan i d (a ++ l) = paren_scan (i + Z.of_nat (length a)) d l.
Proof.
  induction 1 as [|c a Ho Hc Ha IH|a b Ha IHa Hb IHb]; intros i d l Hd.
  - cbn. f_equal; lia.
  - cbn [app]. rewrite paren_scan_cons, (proj2 (Z.eqb_neq _ _) Ho), (proj2 (Z.eqb_neq _ _) Hc), IH by done.
    cbn [length]. f_equal. lia.
  - cbn [app]. rewrite paren_scan_cons. cbn [Z.eqb]. rewrite Z.eqb_refl.
    rewrite <- app_assoc, IHa by lia. cbn [app]. rewrite paren_scan_cons.
    change (close_paren =? open_paren) with false. rewrite Z.eqb_refl. cbn iota.
    replace (d + 1 - 1) with d by lia. destruct (Z.ltb_spec d 0); [lia|]. rewrite IHb by done.
    cbn [length]. rewrite length_app. cbn [length]. f_equal. lia.
Qed.

Lemma scan_closes l : ∀ i d, paren_scan i (Z.of_nat d) l = (None, 0) → closes d l.
Proof.
  induction l as [|c l IH]; intros i d E.
  - injection E as E. assert (d = 0%nat) as -> by lia. constructor.
  - rewrite paren_scan_cons in E. destruct (Z.eqb_spec c open_paren) as [->|Ho].
    + apply closes_open, (IH (i + 1)). by rewrite Nat2Z.inj_succ, <- Z.add_1_r.
    + destruct (Z.eqb_spec c close_paren) as [->|Hc].
      * destruct (Z.ltb_spec (Z.of_nat d - 1) 0) as [|Hd]; [done|]. destruct d as [|d]; [lia|].
        exists [], l. split_and!; [done|constructor|]. apply (IH (i + 1)). rewrite <- E. f_equal. lia.
      * apply closes_char; [done..|]. by apply (IH (i + 1)).
Qed.

(** The scan ends without a complaint exactly on nested texts. *)
Lemma paren_scan_nested l : paren_scan 0 0 l = (None, 0) ↔ nested_text l.
Proof.
  split; [apply (scan_closes l 0 0)|]. intros Hl. rewrite <- (app_nil_r l) at 1. by rewrite nested_scan.
Qed.

(** Where the scan breaks: the first place where more is closed than opened;
    otherwise it leaves what is open. *)
Lemma paren_scan_turn i d c l : 0 ≤ d →
  paren_scan i d (c :: l) = if d + turn c <? 0 then (Some i, d + turn c) else paren_scan (i + 1) (d + turn c) l.
Proof.
  intros Hd. rewrite paren_scan_cons. unfold turn. destruct (c =? open_paren); [|destruct (c =? close_paren)].
  - destruct (Z.ltb_spec (d + 1) 0); [lia|done].
  - done.
  - rewrite Z.add_0_r. destruct (Z.ltb_spec d 0); [lia|done].
Qed.

Lemma turn_closes d c : 0 ≤ d → d + turn c < 0 → c = close_paren ∧ d = 0.
Proof. unfold turn. destruct (Z.eqb_spec c open_paren), (Z.eqb_spec c close_paren); lia. Qed.

Lemma paren_scan_spec l : ∀ i d, 0 ≤ d →
  match paren_scan i d l with
  | (Some p, _) => ∃ a b, l = a ++ close_paren :: b ∧ p = i + Z.of_nat (length a) ∧ d + balance a = 0
                     ∧ (∀ a' b', l = a' ++ b' → (length a' ≤ length a)%nat → 0 ≤ d + balance a')
  | (None, e) => e = d + balance l ∧ (∀ a b, l = a ++ b → 0 ≤ d + balance a)
  end.
Proof.
  induction l as [|c l IH]; intros i d Hd.
  { cbn [paren_scan balance]. split; [lia|]. intros [|] [|] E; try done. cbn [balance]. lia. }
  rewrite paren_scan_turn by done. destruct (Z.ltb_spec (d + turn c) 0) as [Hn|Hn].
  { apply turn_closes in Hn as [-> ->]; [|done]. exists [], l. cbn [length balance app].
    split_and!; [done|lia|done|]. intros [|x a'] b' _ Ha; cbn [length balance] in *; lia. }
  specialize (IH (i + 1) (d + turn c) Hn). destruct (paren_scan _ _ l) as [[p|] e].
  - destruct IH as (a & b & -> & -> & Hb & Hmin). exists (c :: a), b. cbn [app length balance].
    split_and!; [done|lia|lia|]. intros [|x a'] b' El Ha; [cbn [balance]; lia|].
    injection El as <- El. cbn [length balance] in *. specialize (Hmin a' b' El). lia.
  - destruct IH as [-> Hmin]. cbn [balance]. split; [lia|]. intros [|x a'] b' El; [cbn [balance]; lia|].
    injection El as <- El. cbn [balance]. specialize (Hmin a' b' El). lia.
Qed.

(** ** Comments *)

Definition dash : Z := 45.
Definition star : Z := 42.
Definition solidus : Z := 47.
Definition line_end : Z := 10.

(** A comment begins: two dashes, or a slash and a star that are closed
    somewhere behind. *)
Definition comment_begins (l : list Z) : Prop :=
  (∃ r, l = dash :: dash :: r) ∨ (∃ w r, l = solidus :: star :: w ++ star :: solidus :: r).

(** A text and what is left of it without its comments, read from the left. *)
Inductive uncommented : list Z → list Z → Prop :=
| uc_nil : uncommented [] []
| uc_line w l l' :
    line_end ∉ w → match l with [] => True | c :: _ => c = line_end end → uncommented l l' →
    uncommented (dash :: dash :: w ++ l) l'
| uc_block w l l' :
    (∀ a b, w ++ [star] ≠ a ++ star :: solidus :: b) → uncommented l l' →
    uncommented (solidus :: star :: w ++ star :: solidus :: l) l'
| uc_char c l l' : ¬ comment_begins (c :: l) → uncommented l l' → uncommented (c :: l) (c :: l').

Lemma split_line (l : list Z) :
  ∃ w r, l = w ++ r ∧ (line_end ∉ w) ∧ match r with [] => True | c :: _ => c = line_end end.
Proof.
  induction l as [|c l (w & r & -> & Hw & Hr)].
  - exists [], []. split_and!; [done|apply not_elem_of_nil|done].
  - destruct (decide (c = line_end)) as [->|Hc].
    + exists [], (line_end :: w ++ r). split_and!; [done|apply not_elem_of_nil|done].
    + exists (c :: w), r. split_and!; [done|by apply not_elem_of_cons|done].
Qed.

Section Comments.
Context `{Unicode}.

Lemma run_line prev n w l :
  line_end ∉ w → match l with [] => True | c :: _ => c = line_end end →
  run_any COMMENT_RE prev n (dash :: dash :: w ++ l) = Some ((n + S (length (dash :: w)))%nat, (n, n)).
Proof.
  intros Hw Hl. unfold COMMENT_RE. cbn [run_any].
  assert (run [One (is_code 45); One (is_code 45); Many (λ c, negb (c =? 10))] prev n (dash :: dash :: w ++ l) (n, n)
          = run [Many (λ c, negb (c =? 10))] (Some dash) (S (S n)) (w ++ l) (n, n)) as -> by done.
  rewrite run_many.
  - cbn [length]. f_equal. f_equal. lia.
  - apply Forall_forall. intros c Hc. apply negb_true_iff, Z.eqb_neq. by intros ->.
  - destruct l as [|c l]; [done|]. by subst c.
Qed.

(** The pattern on a text that begins no line comment. *)
Lemma run_other prev n l : (¬ ∃ r, l = dash :: dash :: r) →
  run_any COMMENT_RE prev n l =
  match l with
  | c :: d :: r => if (solidus =? c) && (star =? d)
                   then run [Few any_code; One (is_code 42); One (is_code 47)] (Some d) (S (S n)) r (n, n) else None
  | _ => None
  end.
Proof.
  intros Hn. unfold COMMENT_RE. cbn [run_any].
  assert (run [One (is_code 45); One (is_code 45); Many (λ c, negb (c =? 10))] prev n l (n, n) = None) as ->.
  { destruct l as [|c [|d r]]; cbn [run]; [done|by case_match|]. unfold is_code.
    destruct (Z.eqb_spec 45 c) as [<-|]; [|done]. destruct (Z.eqb_spec 45 d) as [<-|]; [|done]. destruct Hn. by exists r. }
  assert (run [One (is_code 47); One (is_code 42); Few any_code; One (is_code 42); One (is_code 47)] prev n l (n, n) =
    match l with
    | c :: d :: r => if (solidus =? c) && (star =? d)
                     then run [Few any_code; One (is_code 42); One (is_code 47)] (Some d) (S (S n)) r (n, n) else None
    | _ => None
    end) as ->.
  { destruct l as [|c [|d r]]; [done|cbn [run]; by case_match|].
    change (run [One (is_code 47); One (is_code 42); Few any_code; One (is_code 42); One (is_code 47)] prev n (c :: d :: r) (n, n))
      with (if solidus =? c then if star =? d then run [Few any_code; One (is_code 42); One (is_code 47)] (Some d) (S (S n)) r (n, n)
            else None else None). by destruct (solidus =? c). }
  destruct l as [|c [|d r]]; [done..|]. destruct (_ && _); [|done]. by destruct (run _ _ _ _ _) as [[??]|].
Qed.

(** [_COMMENT_RE.sub("", s)] takes the comments out. *)
Lemma removed_uncommented l : uncommented l (removed COMMENT_RE l).
Proof.
  unfold removed. generalize (@None Z) at 1 as prev. generalize 0%nat at 2 as n.
  remember (length l) as k eqn:Hk. revert l Hk. induction (lt_wf k) as [k _ IH]. intros l -> n prev.
  assert ((∃ r, l = dash :: dash :: r) ∨ ¬ ∃ r, l = dash :: dash :: r) as [[r ->]|Hn].
  { destruct l as [|c [|d r]]; [right; by intros [? ?]..|].
    destruct (decide (c = dash ∧ d = dash)) as [[-> ->]|Hd]; [left; eauto|right; intros [? [= ???]]; naive_solver]. }
  { destruct (split_line r) as (w & l & -> & Hw & Hl). pose proof (run_line prev n w l Hw Hl) as E.
    pose proof (removed_match _ _ _ dash (dash :: w) l _ E) as Er. cbn [app] in Er. rewrite Er. apply uc_line; [done..|].
    eapply IH; [|done]. cbn. rewrite length_app. lia. }
  destruct l as [|c l]; [constructor|]. pose proof (run_other prev n (c :: l) Hn) as E.
  assert (run_any COMMENT_RE prev n (c :: l) = None → (¬ ∃ w r, c :: l = solidus :: star :: w ++ star :: solidus :: r) →
    uncommented (c :: l) (removed_from COMMENT_RE 0 prev n (c :: l))) as Hchar.
  { intros E' Hb. cbn [removed_from]. rewrite E'. apply uc_char; [by intros [?|?]|]. eapply IH; [|done]. cbn. lia. }
  destruct l as [|d r]; [apply Hchar; [done|by intros (w & r & ?)]|].
  destruct (Z.eqb_spec solidus c) as [<-|Hc]; [|apply Hchar; [done|intros (w & r' & [= ? _]); congruence]].
  destruct (Z.eqb_spec star d) as [<-|Hd]; [|apply Hchar; [done|intros (w & r' & [= ? _]); congruence]].
  cbn [andb] in E. pose proof (run_few star solidus (Some star) (S (S n)) r (n, n)) as Hf. cbv zeta in Hf.
  change (One (is_code 42)) with (One (Z.eqb star)) in E. change (One (is_code 47)) with (One (Z.eqb solidus)) in E.
  rewrite <- E in Hf. destruct (run_any COMMENT_RE prev n (solidus :: star :: r)) as [[e g]|] eqn:E'.
  - destruct Hf as (w & l & -> & -> & -> & Hmin).
    assert (star :: w ++ star :: solidus :: l = (star :: w ++ [star; solidus]) ++ l) as El by (cbn; by rewrite <- app_assoc).
    rewrite El in E' |- *. rewrite (removed_match _ _ _ solidus _ l (n, n)).
    2:{ rewrite E'. cbn [length]. rewrite length_app. cbn [length]. f_equal. f_equal. lia. }
    rewrite <- El. apply uc_block; [done|]. eapply IH; [|done]. cbn [length]. rewrite length_app. cbn [length]. lia.
  - apply Hchar; [done|]. intros (w & r' & [= ->]). by apply (Hf w r').
Qed.

(** There is only one text without the comments. *)
Lemma uncommented_unique l a b : uncommented l a → uncommented l b → a = b.
Proof.
  assert (∀ (w w' l l' : list Z), line_end ∉ w → line_end ∉ w' →
    match l with [] => True | c :: _ => c = line_end end → match l' with [] => True | c :: _ => c = line_end end →
    w ++ l = w' ++ l' → l = l') as Hline.
  { induction w as [|x w IHw]; intros [|y w'] l1 l2 H1 H2 E1 E2 E; cbn in E; [done|subst l1; cbn in E1; set_solver
      |subst l2; cbn in E2; set_solver|]. injection E as <- E. eapply IHw; [| |exact E1|exact E2|exact E]; set_solver. }
  assert (∀ (w w' l l' : list Z), (∀ a b, w ++ [star] ≠ a ++ star :: solidus :: b) →
    (∀ a b, w' ++ [star] ≠ a ++ star :: solidus :: b) →
    w ++ star :: solidus :: l = w' ++ star :: solidus :: l' → l = l') as Hblock.
  { induction w as [|x w IHw]; intros [|y w'] l1 l2 H1 H2 E; cbn in E.
    - by injection E.
    - injection E as <- E. destruct w' as [|z w']; [done|]. injection E as <- E.
      destruct (H2 [] (w' ++ [star])). done.
    - injection E as -> E. destruct w as [|z w]; [done|]. injection E as -> E. by destruct (H1 [] (w ++ [star])).
    - injection E as <- E. eapply (IHw w'); [| |exact E].
      + intros a' b' E'. apply (H1 (x :: a') b'). cbn. by rewrite E'.
      + intros a' b' E'. apply (H2 (x :: a') b'). cbn. by rewrite E'. }
  intros Ha. revert b. induction Ha as [|w l l' Hw Hl Ha IH|w l l' Hw Ha IH|c l l' Hn Ha IH]; intros b Hb.
  - by inversion Hb.
  - inversion Hb as [|w2 l2 l2' Hw2 Hl2 Hb2 E|w2 l2 l2' Hw2 Hb2 E|c2 l2 l2' Hn2 Hb2 E]; subst.
    + apply IH. assert (l = l2) as -> by (by eapply (Hline w w2)). done.
    + destruct Hn2. left. eauto.
  - inversion Hb as [|w2 l2 l2' Hw2 Hl2 Hb2 E|w2 l2 l2' Hw2 Hb2 E|c2 l2 l2' Hn2 Hb2 E]; subst.
    + apply IH. assert (l = l2) as -> by (by eapply (Hblock w w2)). done.
    + destruct Hn2. right. eauto.
  - inversion Hb as [|w2 l2 l2' Hw2 Hl2 Hb2 E|w2 l2 l2' Hw2 Hb2 E|c2 l2 l2' Hn2 Hb2 E]; subst.
    + destruct Hn. left. eauto.
    + destruct Hn. right. eauto.
    + f_equal. by apply IH.
Qed.
End Comments.

(** ** The verdict *)

Section Verdict.
Context `{Unicode}.

Lemma keyword_letters : letters (codes "SELECT") ∧ letters (codes "FROM").
Proof. split; (split; [done|]); repeat constructor. Qed.

(** The errors about parentheses say whether they are nested, and where not. *)
Lemma paren_errors_spec l :
  (paren_errors l = [] ↔ nested_text l)
  ∧ (∀ e, e ∈ paren_errors l → ve_code e = "UNBALANCED_PAREN"
     ∧ ∀ p, ve_position e = Some p → ∃ a b, l = a ++ close_paren :: b ∧ p = Z.of_nat (length a) ∧ balance a = 0
          ∧ ∀ a' b', a = a' ++ b' → 0 ≤ balance a').
Proof.
  pose proof (paren_scan_spec l 0 0 ltac:(lia)) as Hs. pose proof (paren_scan_nested l) as Hn.
  unfold paren_errors. destruct (paren_scan 0 0 l) as [[p|] d].
  - split; [split; [done|by intros ?%Hn]|]. destruct Hs as (a & b & -> & -> & Hb & Hmin).
    intros e He. apply elem_of_app in He as [->%list_elem_of_singleton|He].
    + split; [done|]. intros p [= <-]. exists a, b. split_and!; [done|lia|lia|].
      intros a' b' ->. apply (Hmin a' (b' ++ close_paren :: b)); [by rewrite app_assoc|]. rewrite length_app. lia.
    + destruct (0 <? d); [|by apply elem_of_nil in He]. by apply list_elem_of_singleton in He as ->.
  - destruct Hs as [-> Hmin]. specialize (Hmin l [] (eq_sym (app_nil_r l))). cbn [app].
    destruct (Z.ltb_spec 0 (0 + balance l)) as [Hl|Hl].
    + split; [split; [done|intros E%Hn; injection E; lia]|]. by intros e ->%list_elem_of_singleton.
    + split; [|by intros e He%elem_of_nil]. split; [|done]. intros _. apply Hn. f_equal. lia.
Qed.

Lemma query_errors_spec l :
  (query_errors l = [] ↔ has_word "SELECT" l ∧ has_word "FROM" l ∧ nested_text l)
  ∧ (∀ c, c ∈ map ve_code (query_errors l) ↔
       c = "MISSING_SELECT" ∧ ¬ has_word "SELECT" l ∨ c = "MISSING_FROM" ∧ ¬ has_word "FROM" l
       ∨ c = "UNBALANCED_PAREN" ∧ ¬ nested_text l)
  ∧ (∀ e p, e ∈ query_errors l → ve_position e = Some p → e ∈ paren_errors l).
Proof.
  destruct keyword_letters as [Ls Lf]. pose proof (found_alone _ l Ls) as Hs. pose proof (found_alone _ l Lf) as Hf.
  destruct (paren_errors_spec l) as [Hp Hc]. unfold query_errors, SELECT_RE, FROM_RE.
  assert (∀ c, c ∈ map ve_code (paren_errors l) ↔ c = "UNBALANCED_PAREN" ∧ ¬ nested_text l) as Hpc.
  { intros c. rewrite list_elem_of_fmap, <- Hp. split.
    - intros (e & -> & He). split; [by apply Hc|]. intros E. rewrite E in He. by apply elem_of_nil in He.
    - intros [-> Hn]. destruct (paren_errors l) as [|e es] eqn:E; [done|]. exists e.
      split; [symmetry; apply (Hc e); left|left]. }
  split_and!.
  - rewrite <- Hs, <- Hf, <- Hp.
    destruct (found (alone "SELECT") l), (found (alone "FROM") l), (paren_errors l); cbn; naive_solver.
  - intros c. rewrite !map_app, !elem_of_app, Hpc, <- Hs, <- Hf.
    destruct (found (alone "SELECT") l), (found (alone "FROM") l); cbn [map ve_code];
      rewrite ?list_elem_of_singleton, ?elem_of_nil; naive_solver.
  - intros e p He Hpos. destruct (found (alone "SELECT") l), (found (alone "FROM") l);
      rewrite ?elem_of_app, ?elem_of_cons, ?elem_of_nil in He; naive_solver.
Qed.

(** C37. There is exactly one text that is the query without its comments,
    read from the left.  The query is valid exactly when that text, trimmed,
    is not empty, has SELECT and FROM as words of their own, ignoring case,
    and has nested parentheses; the codes of the errors say exactly which of
    these fails, and the position of an error is the first parenthesis that
    closes more than was opened. *)
Theorem validate_query_exact sql :
  ∃ u, (∀ v, uncommented (codes sql) v ↔ v = u) ∧
  let l := strip_codes u in
  let r := validate_query sql in
  (vr_valid r = true ↔ l ≠ [] ∧ has_word "SELECT" l ∧ has_word "FROM" l ∧ nested_text l)
  ∧ (∀ c, c ∈ map ve_code (vr_errors r) ↔
       c = "EMPTY_QUERY" ∧ l = []
       ∨ l ≠ [] ∧ (c = "MISSING_SELECT" ∧ ¬ has_word "SELECT" l ∨ c = "MISSING_FROM" ∧ ¬ has_word "FROM" l
                   ∨ c = "UNBALANCED_PAREN" ∧ ¬ nested_text l))
  ∧ (∀ e p, e ∈ vr_errors r → ve_position e = Some p →
       ∃ a b, l = a ++ close_paren :: b ∧ p = Z.of_nat (length a) ∧ balance a = 0
            ∧ ∀ a' b', a = a' ++ b' → 0 ≤ balance a').
Proof.
  exists (removed COMMENT_RE (codes sql)). split.
  { intros v. split; [|intros ->; apply removed_uncommented].
    intros Hv. eapply uncommented_unique; [exact Hv|apply removed_uncommented]. }
  intros l r. subst r. unfold validate_query. change (stripped_of sql) with l.
  destruct (query_errors_spec l) as (Hn & Hc & Hp). destruct l as [|c l'].
  - cbn [vr_valid vr_errors map ve_code]. split_and!; [naive_solver| |].
    + intros c. rewrite list_elem_of_singleton. naive_solver.
    + intros e p ->%list_elem_of_singleton. done.
  - cbn [vr_valid vr_errors]. split_and!.
    + rewrite bool_decide_eq_true, length_zero_iff_nil, Hn. naive_solver.
    + intros c'. rewrite Hc. naive_solver.
    + intros e p He Hpos. specialize (Hp e p He Hpos). by apply paren_errors_spec in Hp as [_ Hp]; apply Hp.
Qed.
End Verdict.

(** ** The copied command *)

(** The words that a POSIX shell makes of a command line of letters, digits,
    hyphens, quotes, escapes and blanks; [None] when a character has another
    meaning to the shell or a quote is left open.  [cur] is the word being
    read. *)
Definition plain_char (a : ascii) : bool := Agent.label_char a || bool_decide (a = "-"%char).

Fixpoint shell_words (inside : bool) (cur : option text) (l : text) : option (list text) :=
  match l with
  | [] => if inside then None else Some (match cur with Some w => [w] | None => [] end)
  | a :: l' =>
      if inside then
        if bool_decide (a = apostrophe) then shell_words false cur l' else shell_words true (Some (default [] cur ++ [a])) l'
      else if bool_decide (a = apostrophe) then shell_words true (Some (default [] cur)) l'
      else if bool_decide (a = backslash) then
        match l' with
        | [] => None
        | b :: l'' => if bool_decide ([b] = end_of_line) then shell_words false cur l''
                      else shell_words false (Some (default [] cur ++ [b])) l''
        end
      else if bool_decide (a = space) then
        match cur with
        | Some w => option_map (cons w) (shell_words false None l')
        | None => shell_words false None l'
        end
      else if plain_char a then shell_words false (Some (default [] cur ++ [a])) l'
      else None
  end.

Section Curl.
Context `{FloatRepr} (nested : pyval → text).

Lemma shell_inside w l cur :
  apostrophe ∉ w → shell_words true (Some cur) (w ++ apostrophe :: l) = shell_words false (Some (cur ++ w)) l.
Proof.
  revert cur. induction w as [|a w IH]; intros cur Hw; cbn [app].
  - by rewrite app_nil_r.
  - apply not_elem_of_cons in Hw as [Ha Hw]. cbn [shell_words]. rewrite bool_decide_false by done.
    rewrite IH by done. cbn [default]. by rewrite <- app_assoc.
Qed.

Lemma shell_escaped w l cur :
  shell_words true (Some cur) (shell_escape w ++ apostrophe :: l) = shell_words false (Some (cur ++ w)) l.
Proof.
  revert cur. induction w as [|a w IH]; intros cur.
  - cbn. by rewrite app_nil_r.
  - change (shell_escape (a :: w)) with (escape_apostrophe a ++ shell_escape w).
    unfold escape_apostrophe at 1. destruct (decide (a = apostrophe)) as [->|Ha].
    + rewrite bool_decide_true by done.
      change (shell_words true (Some cur) (([apostrophe; backslash; apostrophe; apostrophe] ++ shell_escape w) ++ apostrophe :: l))
        with (shell_words true (Some (cur ++ [apostrophe])) (shell_escape w ++ apostrophe :: l)).
      rewrite IH. by rewrite <- app_assoc.
    + rewrite bool_decide_false by done. cbn [app shell_words]. rewrite bool_decide_false by done.
      cbn [default]. rewrite IH. by rewrite <- app_assoc.
Qed.

(** A line of the command after an argument [v]. *)
Definition line_break : text := space :: backslash :: end_of_line.

Lemma shell_header v w l :
  apostrophe ∉ w →
  shell_words false (Some v) (line_break ++ (chars "  -H " ++ quoted w) ++ l) =
  option_map (λ ws, v :: chars "-H" :: ws) (shell_words false (Some w) l).
Proof.
  intros Hw.
  change (shell_words false (Some v) (line_break ++ (chars "  -H " ++ quoted w) ++ l))
    with (option_map (cons v) (option_map (cons (chars "-H")) (shell_words true (Some []) ((w ++ [apostrophe]) ++ l)))).
  rewrite <- app_assoc. cbn [app]. rewrite shell_inside by done. by destruct (shell_words _ _ _).
Qed.

Lemma shell_data v w :
  shell_words false (Some v) (line_break ++ chars "  -d " ++ quoted (shell_escape w)) = Some [v; chars "-d"; w].
Proof.
  change (shell_words false (Some v) (line_break ++ chars "  -d " ++ quoted (shell_escape w)))
    with (option_map (cons v) (option_map (cons (chars "-d")) (shell_words true (Some []) (shell_escape w ++ [apostrophe])))).
  by rewrite shell_escaped.
Qed.

Lemma join_flat sep p ps : Agent.join sep (p :: ps) = p ++ flat_map (λ q, sep ++ q) ps.
Proof.
  revert p. induction ps as [|q ps IH]; intros p; cbn [Agent.join flat_map]; [by rewrite app_nil_r|].
  rewrite <- app_assoc. do 2 f_equal. apply IH.
Qed.

Definition header_text (kv : string * string) : text := chars kv.1 ++ chars ": " ++ chars kv.2.

Lemma shell_headers hs v l :
  Forall (λ kv, apostrophe ∉ header_text kv) hs →
  shell_words false (Some v) (flat_map (λ q, line_break ++ q) (map (λ '(k, w), chars "  -H " ++ quoted (chars k ++ chars ": " ++ chars w)) hs)
     ++ line_break ++ chars "  -d " ++ quoted (shell_escape l)) =
  Some (v :: flat_map (λ kv, [chars "-H"; header_text kv]) hs ++ [chars "-d"; l]).
Proof.
  intros Hs. revert v. induction Hs as [|[k w] hs Hk _ IH]; intros v; cbn [map flat_map app].
  - apply shell_data.
  - rewrite <- !app_assoc. rewrite (app_assoc (chars "  -H ")). rewrite shell_header by exact Hk.
    rewrite IH. done.
Qed.

Lemma shell_start url l :
  apostrophe ∉ url →
  shell_words false None (chars "curl -s -X " ++ chars "POST" ++ [space] ++ quoted url ++ l) =
  option_map (λ ws, map chars ["curl"; "-s"; "-X"; "POST"]%string ++ ws) (shell_words false (Some url) l).
Proof.
  intros Hu.
  transitivity (option_map (cons (chars "curl")) (option_map (cons (chars "-s")) (option_map (cons (chars "-X"))
    (option_map (cons (chars "POST")) (shell_words true (Some []) ((url ++ [apostrophe]) ++ l)))))); [reflexivity|].
  rewrite <- app_assoc. cbn [app]. rewrite shell_inside by done. by destruct (shell_words _ _ _).
Qed.

(** The words of the command for any request with a body. *)
Lemma shell_curl url hs body :
  apostrophe ∉ chars url → Forall (λ kv, apostrophe ∉ header_text kv) hs → body ≠ [] →
  shell_words false None (to_curl nested (mk_api_request "POST" url hs body)) =
  Some (map chars ["curl"; "-s"; "-X"; "POST"; url]%string
        ++ flat_map (λ kv, [chars "-H"; header_text kv]) hs ++ [chars "-d"; dumps_indent nested body]).
Proof.
  intros Hu Hs Hb. unfold to_curl. cbn [aq_method aq_url aq_headers aq_body].
  assert ((match body with [] => [] | _ => [chars "  -d " ++ quoted (shell_escape (dumps_indent nested body))] end)
    = [chars "  -d " ++ quoted (shell_escape (dumps_indent nested body))]) as -> by (by destruct body).
  change (space :: backslash :: end_of_line) with line_break.
  change ([?p] ++ ?ps) with (p :: ps). rewrite join_flat, flat_map_app, <- !(app_assoc (chars _)), <- (app_assoc [space]).
  rewrite shell_start by done. cbn [flat_map]. rewrite app_nil_r, shell_headers by done. done.
Qed.

Lemma quote_no_apostrophe l : apostrophe ∉ Agent.quote l.
Proof.
  intros Hq. unfold Agent.quote in Hq. apply list_elem_of_In, in_flat_map in Hq as (a & _ & Ha).
  apply list_elem_of_In in Ha. destruct a as [[] [] [] [] [] [] [] []]; vm_compute in Ha; set_solver.
Qed.
End Curl.

Lemma chars_append s t : chars (s ++ t)%string = chars s ++ chars t.
Proof. induction s as [|a s IH]; [done|]. change (a :: chars (s ++ t)%string = a :: chars s ++ chars t). by rewrite IH. Qed.

Lemma elem_of_rstrip a c s : a ∈ chars (py_rstrip c s) → a ∈ chars s.
Proof.
  unfold py_rstrip.
  match goal with |- a ∈ chars (string_of_list_ascii ?l) → _ => change (a ∈ chars (str l) → a ∈ chars s) end.
  rewrite chars_str, !list_elem_of_In, <- in_rev, (in_rev (chars s)).
  unfold chars. induction (rev (list_ascii_of_string s)) as [|b l IH]; [done|].
  destruct (decide (b = c)); [|done]. intros Ha. right. by apply IH.
Qed.


#[local] Instance demo_repr : FloatRepr := λ _, "".
#[local] Instance ascii_only : Unicode :=
  {| uni_alnum _ := false; uni_digit _ := false; uni_space _ := false; uni_upper c := [c] |}.


(** ** What the model exhibits *)

(** The plan that docs/query-builder.md shows. *)
Example documented_plan :
  ep_steps (explain_query ("SELECT service, APPROX_QUANTILE(latency_ms, 0.99) AS p99 FROM request_latency "
    ++ "GROUP BY service, TUMBLE(ts, INTERVAL '5' MINUTE) EMIT FINAL;")%string) =
  ["Scan stream(s): request_latency"; "Assign TUMBLE window"; "Accumulate sketch(es)"; "Group by key(s)";
   "Emit FINAL results"]%string.
Proof. vm_compute. reflexivity. Qed.

(** The example templates pass the validation, three of them with the warning
    that a function is unknown, and the engine's parser accepts none. *)
Example templates_are_rejected :
  forallb (λ t, vr_valid (validate_query (te_sql t)) && negb (is_ok (parse_text (te_sql t)))) EXAMPLE_TEMPLATES = true
  ∧ map (λ t, map ve_code (vr_warnings (validate_query (te_sql t)))) EXAMPLE_TEMPLATES =
    [["UNKNOWN_FUNCTION"]; ["UNKNOWN_FUNCTION"]; ["UNKNOWN_FUNCTION"]; []; []]%string.
Proof. vm_compute. split; reflexivity. Qed.

(** No function that the builder knows is known to the engine's parser, and a
    query of a function of the engine is called unknown. *)
Example functions_do_not_match :
  let query f := ("SELECT " ++ f ++ "(a) FROM t")%string in
  existsb (λ f, is_ok (parse_text (query f))) ALL_FUNCTIONS = false
  ∧ forallb (λ f, is_ok (parse_text (query f))
               && bool_decide (map ve_code (vr_warnings (validate_query (query f ++ ";")%string)) = ["UNKNOWN_FUNCTION"]%string))
      ["P99"; "P95"; "P50"; "UNIQUE_COUNT"; "EVENT_COUNT"]%string = true.
Proof. vm_compute. split; reflexivity. Qed.

(** The semicolon that the builder asks for becomes a part of the name of the
    source. *)
Example semicolon_joins_source :
  map ve_code (vr_warnings (validate_query "SELECT k FROM t")) = ["MISSING_SEMICOLON"]%string
  ∧ res_map pl_from (parse_text "SELECT k FROM t;") = Ok (chars "t;").
Proof. by vm_compute. Qed.

(** Quotes are not looked at: a parenthesis or a comment mark inside a text
    makes a query invalid that the engine's parser accepts, or swallows the
    rest of it. *)
Example quotes_are_ignored :
  let p := "SELECT P99(a) FROM t WHERE b = ')'"%string in
  let q := "SELECT '--', P99(a) FROM t"%string in
  vr_valid (validate_query p) = false ∧ is_ok (parse_text p) = true
  ∧ map ve_code (vr_errors (validate_query q)) = ["MISSING_FROM"]%string ∧ is_ok (parse_text q) = true.
Proof. vm_compute. split_and!; reflexivity. Qed.

(** A semicolon anywhere counts as one at the end. *)
Example semicolon_anywhere : vr_warnings (validate_query "SELECT a; FROM t") = [].
Proof. vm_compute. reflexivity. Qed.

(** docs/query-builder.md says that unknown functions are excused by a comment
    [-- noqa], and that the token is never echoed. *)
Example noqa_is_ignored :
  map ve_code (vr_warnings (validate_query "SELECT UDF(a) FROM t; -- noqa")) = ["UNKNOWN_FUNCTION"]%string.
Proof. vm_compute. reflexivity. Qed.

Example token_is_shown :
  option_map (λ ws, bool_decide (chars "Authorization: Bearer secret" ∈ ws))
    (shell_words false None (to_curl (λ _, []) (build_api_request (Some "secret"%string) "SELECT 1" "https://h" "n" None 30000)))
  = Some true.
Proof. vm_compute. reflexivity. Qed.

(** The command that docs/query-builder.md shows. *)
Example documented_command :
  str (to_curl (λ _, []) (build_api_request None "SELECT APPROX_QUANTILE(latency_ms,0.99) AS p99 FROM s EMIT FINAL;"
         "https://myhost:8080" "prod" None 30000)) =
  (let q := String "034" "" in
   "curl -s -X POST 'https://myhost:8080/api/v1/namespaces/prod/query' \" ++ newline
   ++ "  -H 'Content-Type: application/json' \" ++ newline
   ++ "  -d '{" ++ newline
   ++ "  " ++ q ++ "sql" ++ q ++ ": " ++ q ++ "SELECT APPROX_QUANTILE(latency_ms,0.99) AS p99 FROM s EMIT FINAL;" ++ q ++ "," ++ newline
   ++ "  " ++ q ++ "timeout_ms" ++ q ++ ": 30000" ++ newline ++ "}'")%string.
Proof. vm_compute. reflexivity. Qed.
