(* ===== verification/QueryStore.v ===== *)
(** * The store of the query builder and its command ([query_builder.py])

    Class [QueryStore] (saved queries and the history, written to a JSON file
    after each change), the settings, and the commands of [main].

    A file is what a reader of it meets.  Each write may fail, which the code
    ignores; the operations take the outcome as an argument.

    Proved: over any operations, failed writes and restarts the store is a
    pair of abstract stores, in memory and on disk; exit codes.  The clock,
    [float(s)], [repr] of a float, [str] of a container and the text of a time
    are parameters. *)

From Stdlib Require Import PrimFloat Ascii String.
From S2P Require Import Prelude PyFloat PyVal PyDict PyNum Json Windowed SqlParser SqlEngine Drift DbCheck Agent NamespaceAdmin Regex QueryBuilder.

#[local] Open Scope Z_scope.
#[local] Open Scope py_scope.

(** ** Entries *)

Record saved_query := mk_saved_query {
  sv_name : string;
  sv_sql : string;
  sv_description : string;
  sv_tags : list pyval;
  sv_created_at : float;
  sv_updated_at : float
}.

Record history_entry := mk_history_entry {
  he_sql : string;
  he_executed_at : float;
  he_valid : bool;
  he_note : string
}.

Definition saved_dict (q : saved_query) : pydict :=
  [(VStr "name", VStr (sv_name q)); (VStr "sql", VStr (sv_sql q)); (VStr "description", VStr (sv_description q));
   (VStr "tags", VList (sv_tags q)); (VStr "created_at", VFloat (sv_created_at q));
   (VStr "updated_at", VFloat (sv_updated_at q))].

Definition history_dict (e : history_entry) : pydict :=
  [(VStr "sql", VStr (he_sql e)); (VStr "executed_at", VFloat (he_executed_at e)); (VStr "valid", VBool (he_valid e));
   (VStr "note", VStr (he_note e))].

(** What a reader of the file meets. *)
Inductive store_file :=
| Missing
| Unreadable
| NotText
| NotJson
| Blank
| Written (v : pyval).

Record query_store := mk_store { qs_saved : list (string * saved_query); qs_history : list history_entry }.
Definition empty_store : query_store := mk_store [] [].

Definition MAX_HISTORY : nat := 200.

Section Loading.
Context `{FloatParser} `{FloatRepr} (container : pyval → string).

(** [SavedQuery.from_dict], [HistoryEntry.from_dict] *)
Definition saved_of (d : pydict) : res saved_query :=
  let text_of k := text_at container d k (VStr "") in
  let? tags := list_of (get_or d "tags" (VList [])) in
  let? created_at := py_float (get_or d "created_at" (VFloat 0)) in
  let? updated_at := py_float (get_or d "updated_at" (VFloat 0)) in
  Ok (mk_saved_query (text_of "name") (text_of "sql") (text_of "description") tags created_at updated_at).

Definition entry_of (d : pydict) : res history_entry :=
  let? executed_at := py_float (get_or d "executed_at" (VFloat 0)) in
  Ok (mk_history_entry (text_at container d "sql" (VStr "")) executed_at
        (PyNum.truthy (get_or d "valid" (VBool true))) (text_at container d "note" (VStr ""))).

(** [if isinstance(v, dict): try: ... except (TypeError, ValueError): pass] *)
Definition skip_malformed {A B} (f : pydict → res A) (v : pyval) (use : A → B → B) (acc : B) : res B :=
  match v with
  | VDict d =>
      match f d with
      | Ok a => Ok (use a acc)
      | Raise (TypeError _ | ValueError _) => Ok acc
      | Raise e => Raise e
      end
  | _ => Ok acc
  end.

(** [data.get(k) or default] *)
Definition or_empty (d : pydict) (k : string) (v : pyval) : pyval :=
  let w := get_or d k VNone in if PyNum.truthy w then w else v.

(** The keys of a document are strings. *)
Definition load_saved (v : pyval) (s : query_store) : res query_store :=
  match v with
  | VDict items =>
      res_fold (λ s kv,
        match kv.1 with
        | VStr n => skip_malformed saved_of kv.2 (λ q s, mk_store (od_set n q (qs_saved s)) (qs_history s)) s
        | _ => Ok s
        end) items s
  | _ => Raise (AttributeError "object has no attribute 'items'")
  end.

Definition load_history (v : pyval) (s : query_store) : res query_store :=
  match v with
  | VList l =>
      res_fold (λ s e, skip_malformed entry_of e (λ h s, mk_store (qs_saved s) (qs_history s ++ [h])) s) l s
  | VStr _ | VDict _ => Ok s
  | _ => Raise (TypeError "object is not iterable")
  end.

(** [_load], from the empty store of [__init__] *)
Definition load_store (file : store_file) : res query_store :=
  match file with
  | Missing | Unreadable | NotJson | Blank => Ok empty_store
  | NotText => Raise (ValueError "codec can't decode")
  | Written (VDict d) =>
      let? s := load_saved (or_empty d "saved" (VDict [])) empty_store in
      load_history (or_empty d "history" (VList [])) s
  | Written _ => Ok empty_store
  end.
End Loading.

(** ** The store *)

Record store_world := mk_world { sw_store : query_store; sw_file : store_file }.

Definition set_store (s : query_store) (w : store_world) : store_world := mk_world s (sw_file w).

Definition store_document (s : query_store) : pyval :=
  VDict [(VStr "saved", VDict (map (λ '(n, q), (VStr n, VDict (saved_dict q))) (qs_saved s)));
         (VStr "history", VList (map (λ e, VDict (history_dict e)) (qs_history s)))].

(** [_persist] with a path: the file is replaced as a whole, or, when writing
    fails, kept. *)
Definition persist (writable : bool) : M store_world unit :=
  mmodify (λ w, if writable then mk_world (sw_store w) (Written (json_roundtrip (store_document (sw_store w)))) else w).

Definition save (writable : bool) (now : float) (q : saved_query) : M store_world unit :=
  raise_if (bool_decide (sv_name q = "")) (ValueError "Query name must not be empty.") ;;;
  raise_if (is_blank (sv_sql q)) (ValueError "Query SQL must not be empty.") ;;;
  let q := mk_saved_query (sv_name q) (sv_sql q) (sv_description q) (sv_tags q) (sv_created_at q) now in
  mmodify (λ w, set_store (mk_store (od_set (sv_name q) q (qs_saved (sw_store w))) (qs_history (sw_store w))) w) ;;;
  persist writable.

Definition delete_query (writable : bool) (name : string) : M store_world bool :=
  s <- mgets sw_store ;;
  if od_has (qs_saved s) name then
    mmodify (λ w, set_store (mk_store (od_del name (qs_saved (sw_store w))) (qs_history (sw_store w))) w) ;;;
    persist writable ;;;
    mret true
  else mret false.

Definition get_query (name : string) : M store_world (option saved_query) :=
  mgets (λ w, od_get (qs_saved (sw_store w)) name).

Definition has_tag (tag : string) (q : saved_query) : bool := existsb (py_eq (VStr tag)) (sv_tags q).

Definition list_saved (tag : option string) : M store_world (list saved_query) :=
  mgets (λ w,
    let queries := (qs_saved (sw_store w)).*2 in
    let queries := match tag with
                   | Some t => if bool_decide (t = "") then queries else List.filter (has_tag t) queries
                   | None => queries
                   end in
    sort_desc sv_updated_at queries).

(** [l[-n:]] *)
Definition last_slice {A} (n : Z) (l : list A) : list A :=
  if n <=? 0 then drop (Z.to_nat (- n)) l else drop (length l - Z.to_nat n) l.

Definition push_history (writable : bool) (e : history_entry) : M store_world unit :=
  mmodify (λ w,
    let history := qs_history (sw_store w) ++ [e] in
    set_store (mk_store (qs_saved (sw_store w))
      (if (MAX_HISTORY <? length history)%nat then last_slice (Z.of_nat MAX_HISTORY) history else history)) w) ;;;
  persist writable.

Definition list_history (limit : Z) : M store_world (list history_entry) :=
  mgets (λ w, rev (last_slice limit (qs_history (sw_store w)))).

Definition clear_history (writable : bool) : M store_world unit :=
  mmodify (λ w, set_store (mk_store (qs_saved (sw_store w)) []) w) ;;; persist writable.

(** ** Settings and commands *)

Record builder_config := mk_builder_config {
  bc_server_url : string;
  bc_namespace : pyval;
  bc_persist_path : string;
  bc_token : string;
  bc_timeout_ms : pyval
}.

(** [QueryBuilderConfig.__post_init__] *)
Definition builder_config_errors (c : builder_config) : list string :=
  (if negb (bool_decide (bc_server_url c = "")) && negb (py_startswith (bc_server_url c) "https://")
   then ["server_url must start with https://"%string] else [])
  ++ (match bc_namespace c with
      | VStr s => if is_blank s then ["namespace must not be empty"%string] else []
      | _ => ["namespace must be a string"%string]
      end)
  ++ (match bc_timeout_ms c with
      | VInt z => if (100 <=? z) && (z <=? 300000) then [] else ["timeout_ms must be in [100, 300000]"%string]
      | _ => ["timeout_ms must be an int"%string]
      end).

Definition check_builder_config (c : builder_config) : res builder_config :=
  match builder_config_errors c with
  | [] => Ok c
  | errors => Raise (ValueError ("QueryBuilderConfig errors: " ++ String.concat "; " errors))
  end.

(** [resolved_token]: [env] is the variable SKETCHLOG_TOKEN. *)
Definition resolved_builder_token (env : option string) (c : builder_config) : string := default (bc_token c) env.

Inductive output_format := AsText | AsJson.

Definition completion_dict (i : completion_item) : pydict :=
  [(VStr "label", VStr (ci_label i)); (VStr "kind", VStr (ci_kind i)); (VStr "detail", VStr (ci_detail i))].
Definition error_dict (e : validation_error) : pydict :=
  [(VStr "code", VStr (ve_code e)); (VStr "message", VStr (ve_message e)); (VStr "position", or_none VInt (ve_position e))].
Definition validation_dict (r : validation_result) : pydict :=
  [(VStr "valid", VBool (vr_valid r)); (VStr "errors", VList (map (λ e, VDict (error_dict e)) (vr_errors r)));
   (VStr "warnings", VList (map (λ e, VDict (error_dict e)) (vr_warnings r)))].
Definition plan_dict (p : explain_plan) : pydict :=
  [(VStr "query", VStr (ep_query p)); (VStr "steps", VList (map VStr (ep_steps p)));
   (VStr "estimated_streams", VList (map VStr (ep_estimated_streams p))); (VStr "uses_sketch", VBool (ep_uses_sketch p));
   (VStr "uses_window", VBool (ep_uses_window p)); (VStr "note", VStr (ep_note p))].

(** What a command prints. *)
Inductive printed_output := Shown (l : list string) | Dumped (v : pyval).

Definition print_completions (items : list completion_item) (fmt : output_format) : printed_output :=
  match fmt with
  | AsJson => Dumped (VList (map (λ i, VDict (completion_dict i)) items))
  | AsText => Shown (map (λ i, "  [" ++ ljust 22 (ci_kind i) ++ "]  " ++ ci_label i)%string items)
  end.

Definition error_line (label : string) (e : validation_error) : string :=
  let pos := match ve_position e with Some p => (" (pos " ++ str_of_Z p ++ ")")%string | None => "" end in
  (label ++ "[" ++ ve_code e ++ "]" ++ pos ++ ": " ++ ve_message e)%string.

Definition print_validation (r : validation_result) (fmt : output_format) : printed_output :=
  match fmt with
  | AsJson => Dumped (VDict (validation_dict r))
  | AsText => Shown (["  Status : " ++ (if vr_valid r then "VALID" else "INVALID")]%string
                ++ map (error_line "  ERROR  ") (vr_errors r) ++ map (error_line "  WARN   ") (vr_warnings r))
  end.

Inductive request_output := RJson | RCurl.

Inductive builder_command :=
| Complete (prefix : string) (streams : list string)
| Validate (sql : string)
| Explain (sql : string)
| ApiRequest (sql server_url namespace : string) (output : request_output)
| SaveQuery (name sql description : string) (tags : list string)
| ListSaved (tag : string)
| ShowHistory (limit : Z).

(** The exit code of a command, and what it printed. *)
Record command_end := mk_end { ce_exit : Z; ce_output : list printed_output }.

Section Command.
Context `{Unicode} `{FloatParser} `{FloatRepr} (container : pyval → string) (nested : pyval → text).
Context (env : option string) (show_time : float → res string).
(** [open(path).read()] of the file of a query: [None] for an [OSError]. *)
Context (read_file : string → res (option string)).

(** [_read_sql] *)
Definition read_sql (raw : string) : res (option string) :=
  match chars raw with
  | "@"%char :: path => read_file (str path)
  | _ => Ok (Some raw)
  end.

Definition with_sql (raw : string) (k : string → M store_file command_end) : M store_file command_end :=
  sql <- mlift (read_sql raw) ;;
  match sql with Some sql => k sql | None => mret (mk_end 2 []) end.

(** A [QueryStore] on the file, for one method. *)
Definition with_store {A} (m : M store_world A) : M store_file A :=
  λ f, match load_store container f with
       | Ok s => let '(r, w) := m (mk_world s f) in (r, sw_file w)
       | Raise e => (Raise e, f)
       end.

Definition history_line (e : history_entry) : res string :=
  let? ts := show_time (he_executed_at e) in
  Ok ("  [" ++ ts ++ "] [" ++ (if he_valid e then "ok" else "invalid") ++ "] " ++ py_take 80 (he_sql e))%string.

(** [", ".join] takes texts only. *)
Definition tag_text (v : pyval) : res string :=
  match v with VStr s => Ok s | _ => Raise (TypeError "sequence item: expected str instance") end.

Definition saved_line (q : saved_query) : res string :=
  let? tags := res_mapM tag_text (sv_tags q) in
  Ok ("  " ++ ljust 30 (sv_name q) ++ "  " ++ ljust 20 (comma_join tags) ++ "  " ++ py_take 50 (sv_description q))%string.

(** [main], on the file of its store: [now] is the clock, and [writable] says
    whether the file can be written. *)
Definition builder_main (fmt : output_format) (now : float) (writable : bool) (c : builder_command) :
    M store_file command_end :=
  match c with
  | Complete prefix streams => mret (mk_end 0 [print_completions (autocomplete prefix (Some streams) None) fmt])
  | Validate raw =>
      with_sql raw (λ sql,
        let result := validate_query sql in
        mret (mk_end (if vr_valid result then 0 else 1) [print_validation result fmt]))
  | Explain raw =>
      with_sql raw (λ sql,
        let vr := validate_query sql in
        if vr_valid vr then
          let plan := explain_query sql in
          mret (mk_end 0 [match fmt with AsJson => Dumped (VDict (plan_dict plan)) | AsText => Shown [render_plan plan] end])
        else mret (mk_end 1 [print_validation vr fmt]))
  | ApiRequest raw server_url namespace output =>
      with_sql raw (λ sql,
        match check_builder_config (mk_builder_config server_url (VStr namespace) "" "" (VInt 30000)) with
        | Raise _ => mret (mk_end 2 [])
        | Ok cfg =>
            let req := build_api_request env sql (bc_server_url cfg) namespace
                         (Some (resolved_builder_token env cfg)) 30000 in
            mret (mk_end 0 [match output with
                            | RJson => Dumped (VDict (request_dict req))
                            | RCurl => Shown [str (to_curl nested req)]
                            end])
        end)
  | SaveQuery name raw description tags =>
      with_sql raw (λ sql,
        with_store (λ w,
          match save writable now (mk_saved_query name sql description (map VStr tags) now now) w with
          | (Ok _, w) => (Ok (mk_end 0 [Shown ["Saved query '" ++ name ++ "'."]%string]), w)
          | (Raise (ValueError _), w) => (Ok (mk_end 2 []), w)
          | (Raise e, w) => (Raise e, w)
          end))
  | ListSaved tag =>
      queries <- with_store (list_saved (if bool_decide (tag = "") then None else Some tag)) ;;
      match fmt, queries with
      | AsJson, _ => mret (mk_end 0 [Dumped (VList (map (λ q, VDict (saved_dict q)) queries))])
      | AsText, [] => mret (mk_end 0 [Shown ["  (no saved queries)"]])
      | AsText, _ => ls <- mlift (res_mapM saved_line queries) ;; mret (mk_end 0 [Shown ls])
      end
  | ShowHistory limit =>
      entries <- with_store (list_history limit) ;;
      match fmt, entries with
      | AsJson, _ => mret (mk_end 0 [Dumped (VList (map (λ e, VDict (history_dict e)) entries))])
      | AsText, [] => mret (mk_end 0 [Shown ["  (no history)"]])
      | AsText, _ => ls <- mlift (res_mapM history_line entries) ;; mret (mk_end 0 [Shown ls])
      end
  end.
End Command.

(** ** Calls and restarts *)

Inductive store_call :=
| CSave (writable : bool) (now : float) (q : saved_query)
| CDelete (writable : bool) (name : string)
| CGet (name : string)
| CListSaved (tag : option string)
| CPush (writable : bool) (e : history_entry)
| CListHistory (limit : Z)
| CClear (writable : bool)
| CRestart.

Inductive store_answer :=
| ANothing
| ABool (b : bool)
| AQuery (q : option saved_query)
| AQueries (l : list saved_query)
| AEntries (l : list history_entry).

(** A new object on the same file. *)
Definition reopen `{FloatParser} `{FloatRepr} (container : pyval → string) : M store_world unit :=
  λ w, match load_store container (sw_file w) with
       | Ok s => (Ok (), set_store s w)
       | Raise e => (Raise e, w)
       end.

Definition answer {S A} (f : A → store_answer) (m : M S A) : M S store_answer :=
  a <- m ;; mret (f a).

Definition call_store `{FloatParser} `{FloatRepr} (container : pyval → string) (c : store_call) :
    M store_world store_answer :=
  match c with
  | CSave writable now q => answer (λ _, ANothing) (save writable now q)
  | CDelete writable n => answer ABool (delete_query writable n)
  | CGet n => answer AQuery (get_query n)
  | CListSaved tag => answer AQueries (list_saved tag)
  | CPush writable e => answer (λ _, ANothing) (push_history writable e)
  | CListHistory limit => answer AEntries (list_history limit)
  | CClear writable => answer (λ _, ANothing) (clear_history writable)
  | CRestart => answer (λ _, ANothing) (reopen container)
  end.

(** The answers to a sequence of calls, and the world after it. *)
Fixpoint run_calls {S A B} (step : A → M S B) (cs : list A) (s : S) : list (res B) * S :=
  match cs with
  | [] => ([], s)
  | c :: cs => let '(r, s) := step c s in let '(rs, s) := run_calls step cs s in (r :: rs, s)
  end.

(** ** The abstract store

    Nothing is ever dropped from the history; what can be seen of it is its
    end.  The store is kept twice, in memory and on disk. *)

Definition visible (s : query_store) : query_store :=
  mk_store (qs_saved s) (drop (length (qs_history s) - MAX_HISTORY) (qs_history s)).

Record two_stores := mk_two { in_memory : query_store; on_disk : query_store }.

Definition change (writable : bool) (s : query_store) : M two_stores unit :=
  mmodify (λ t, mk_two s (if writable then s else on_disk t)).

Definition ideal_call (c : store_call) : M two_stores store_answer :=
  s <- mgets in_memory ;;
  match c with
  | CSave writable now q =>
      if bool_decide (sv_name q = "") then mraise (ValueError "Query name must not be empty.")
      else if is_blank (sv_sql q) then mraise (ValueError "Query SQL must not be empty.")
      else let q := mk_saved_query (sv_name q) (sv_sql q) (sv_description q) (sv_tags q) (sv_created_at q) now in
           answer (λ _, ANothing) (change writable (mk_store (od_set (sv_name q) q (qs_saved s)) (qs_history s)))
  | CDelete writable n =>
      if od_has (qs_saved s) n
      then answer (λ _, (ABool true)) (change writable (mk_store (od_del n (qs_saved s)) (qs_history s)))
      else mret (ABool false)
  | CGet n => mret (AQuery (od_get (qs_saved s) n))
  | CListSaved tag =>
      mret (AQueries (sort_desc sv_updated_at
        (List.filter (λ q, match tag with Some t => bool_decide (t = "") || has_tag t q | None => true end)
           (qs_saved s).*2)))
  | CPush writable e => answer (λ _, ANothing) (change writable (mk_store (qs_saved s) (qs_history s ++ [e])))
  | CListHistory limit => mret (AEntries (rev (last_slice limit (qs_history (visible s)))))
  | CClear writable => answer (λ _, ANothing) (change writable (mk_store (qs_saved s) []))
  | CRestart => answer (λ _, ANothing) (mmodify (λ t, mk_two (on_disk t) (on_disk t)))
  end.

(** ** The document of a store is read back *)

Definition is_text (v : pyval) : Prop := match v with VStr _ => True | _ => False end.

(** Tags are texts, as declared, and names are distinct. *)
Definition store_ok (s : query_store) : Prop :=
  NoDup (od_keys (qs_saved s)) ∧ Forall (λ nq, Forall is_text (sv_tags nq.2)) (qs_saved s).

Section Roundtrip.
Context `{FloatParser} `{FloatRepr} (container : pyval → string).

Lemma texts_stable l : Forall is_text l → map json_roundtrip l = l.
Proof. induction 1 as [|v l Hv _ IH]; [done|]. cbn. rewrite IH. by destruct v. Qed.

Lemma saved_of_dict q : Forall is_text (sv_tags q) → 
  json_roundtrip (VDict (saved_dict q)) = VDict (saved_dict q) ∧ saved_of container (saved_dict q) = Ok q.
Proof.
  intros Ht. destruct q as [name sql description tags created_at updated_at]. split; [|done].
  cbn in *. by rewrite texts_stable.
Qed.

Lemma entry_of_dict e :
  json_roundtrip (VDict (history_dict e)) = VDict (history_dict e) ∧ entry_of container (history_dict e) = Ok e.
Proof. by destruct e. Qed.

Definition saved_items (qs : list (string * saved_query)) : pydict :=
  map (λ '(n, q), (VStr n, VDict (saved_dict q))) qs.
Definition history_items (es : list history_entry) : list pyval := map (λ e, VDict (history_dict e)) es.

Lemma saved_items_stable qs :
  Forall (λ nq, Forall is_text (sv_tags nq.2)) qs → json_roundtrip (VDict (saved_items qs)) = VDict (saved_items qs).
Proof.
  induction 1 as [|[n q] qs Hq _ IH]; [done|]. destruct (saved_of_dict q Hq) as [Er _].
  cbn [saved_items map json_roundtrip fst snd] in *. injection IH as IH. unfold saved_items in IH.
  by rewrite Er, IH.
Qed.

Lemma history_items_stable es : json_roundtrip (VList (history_items es)) = VList (history_items es).
Proof.
  induction es as [|e es IH]; [done|]. destruct (entry_of_dict e) as [Er _].
  cbn [history_items map json_roundtrip] in *. injection IH as IH. unfold history_items in IH. by rewrite Er, IH.
Qed.

Lemma load_saved_items (qs : list (string * saved_query)) s :
  Forall (λ nq, Forall is_text (sv_tags nq.2)) qs → NoDup (od_keys (qs_saved s ++ qs)) →
  load_saved container (VDict (saved_items qs)) s = Ok (mk_store (qs_saved s ++ qs) (qs_history s)).
Proof.
  intros Ht. revert s. induction Ht as [|[n q] qs Hq _ IH]; intros s Hnd.
  { rewrite app_nil_r. by destruct s. }
  destruct (saved_of_dict q Hq) as [_ Es].
  cbn [saved_items map load_saved res_fold fst snd skip_malformed] in IH |- *. rewrite Es. cbn [res_bind].
  unfold od_keys in Hnd. rewrite fmap_app, fmap_cons in Hnd.
  apply NoDup_app in Hnd as Hnd'. destruct Hnd' as (_ & Hf & _).
  rewrite od_set_new by (intros Hn; apply (Hf n Hn); by left).
  rewrite IH; cbn [qs_saved qs_history].
  - by rewrite <- app_assoc.
  - rewrite <- app_assoc. unfold od_keys. by rewrite fmap_app.
Qed.

Lemma load_history_items (es : list history_entry) s :
  load_history container (VList (history_items es)) s = Ok (mk_store (qs_saved s) (qs_history s ++ es)).
Proof.
  revert s. induction es as [|e es IH]; intros s.
  { rewrite app_nil_r. by destruct s. }
  destruct (entry_of_dict e) as [_ Es].
  cbn [history_items map load_history res_fold skip_malformed] in IH |- *. rewrite Es. cbn [res_bind].
  rewrite IH. cbn [qs_saved qs_history]. by rewrite <- app_assoc.
Qed.

Lemma document_stable s : store_ok s → json_roundtrip (store_document s) = store_document s.
Proof.
  intros [_ Ht]. apply saved_items_stable in Ht. pose proof (history_items_stable (qs_history s)) as Hh.
  unfold store_document. fold (saved_items (qs_saved s)). fold (history_items (qs_history s)).
  cbn [json_roundtrip map fst snd]. cbn [json_roundtrip] in Ht, Hh. by rewrite Ht, Hh.
Qed.

(** What was written is read back. *)
Lemma load_document s :
  store_ok s → load_store container (Written (json_roundtrip (store_document s))) = Ok s.
Proof.
  intros Hs. rewrite document_stable by done. destruct Hs as [Hnd Ht], s as [qs es]. cbn [qs_saved] in *.
  pose proof (load_saved_items qs empty_store Ht Hnd) as Es.
  unfold store_document, load_store. cbn [qs_saved qs_history].
  fold (saved_items qs). fold (history_items es).
  assert (∀ d, or_empty ((VStr "saved", VDict (saved_items qs)) :: d) "saved" (VDict []) = VDict (saved_items qs)) as ->
    by (by destruct qs).
  rewrite Es. cbn [res_bind].
  assert (or_empty [(VStr "saved", VDict (saved_items qs)); (VStr "history", VList (history_items es))] "history" (VList [])
          = VList (history_items es)) as -> by (by destruct es).
  by rewrite load_history_items.
Qed.
End Roundtrip.

(** ** The store refines the abstract one *)

Definition call_ok (c : store_call) : Prop := match c with CSave _ _ q => Forall is_text (sv_tags q) | _ => True end.

Section Refinement.
Context `{FloatParser} `{FloatRepr} (container : pyval → string).

(** The concrete world and the abstract pair agree. *)
Definition agrees (w : store_world) (t : two_stores) : Prop :=
  sw_store w = visible (in_memory t) ∧ load_store container (sw_file w) = Ok (visible (on_disk t))
  ∧ store_ok (in_memory t) ∧ store_ok (on_disk t).

Lemma visible_push saved h e :
  (if (MAX_HISTORY <? length (qs_history (visible (mk_store saved h)) ++ [e]))%nat
   then last_slice (Z.of_nat MAX_HISTORY) (qs_history (visible (mk_store saved h)) ++ [e])
   else qs_history (visible (mk_store saved h)) ++ [e])
  = qs_history (visible (mk_store saved (h ++ [e]))).
Proof.
  cbn [visible qs_history]. unfold last_slice. rewrite !length_app, length_drop. cbn [length].
  assert (0 < MAX_HISTORY)%nat as Hm by (unfold MAX_HISTORY; lia).
  assert ((Z.of_nat MAX_HISTORY <=? 0) = false) as -> by lia. rewrite Nat2Z.id.
  destruct (Nat.ltb_spec MAX_HISTORY (length h - (length h - MAX_HISTORY) + 1)) as [Hl|Hl].
  - rewrite <- drop_app_le by (rewrite ?length_drop; lia). rewrite drop_drop. f_equal. lia.
  - rewrite drop_app_le by lia. f_equal. f_equal. lia.
Qed.

(** A change made in memory and, if the write succeeds, on disk. *)
Lemma agrees_change writable s s' w t :
  agrees w t → store_ok s → s' = visible s →
  agrees (exec (persist writable) (set_store s' w)) (exec (change writable s) t).
Proof.
  intros (Hm & Hd & Om & Od) Hs ->. destruct w as [v f], t as [m d].
  assert (store_ok (visible s)) as Hv by (destruct Hs; by split).
  destruct writable; (split_and!; [done| |done|done]); cbn [exec snd mmodify persist set_store sw_file on_disk].
  - by apply load_document.
  - done.
Qed.

Lemma filter_all {A} (f : A → bool) l : (∀ a, f a = true) → List.filter f l = l.
Proof. intros Hf. induction l as [|a l IH]; [done|]. cbn. by rewrite Hf, IH. Qed.

Lemma store_ok_set q s : Forall is_text (sv_tags q) → store_ok s →
  store_ok (mk_store (od_set (sv_name q) q (qs_saved s)) (qs_history s)).
Proof. intros Hq [Hn Ht]. split; [by apply od_set_nodup|by apply Forall_od_set]. Qed.

Lemma store_ok_del n s : store_ok s → store_ok (mk_store (od_del n (qs_saved s)) (qs_history s)).
Proof. intros [Hn Ht]. split; [by apply od_del_nodup|by apply Forall_od_del]. Qed.

Lemma call_refines c w t :
  call_ok c → agrees w t →
  result (call_store container c) w = result (ideal_call c) t
  ∧ agrees (exec (call_store container c) w) (exec (ideal_call c) t).
Proof.
  intros Hc Ha. pose proof Ha as (Hm & Hd & Om & Od).
  destruct w as [v f], t as [m d]. cbn [sw_store sw_file in_memory on_disk] in *. subst v.
  destruct c as [writable now q|writable n|n|tag|writable e|limit|writable|].
  - destruct (bool_decide (sv_name q = "")) eqn:E1.
    { unfold call_store, ideal_call, answer, save, result, exec, mbind, mgets, raise_if. by rewrite E1. }
    destruct (is_blank (sv_sql q)) eqn:E2.
    { unfold call_store, ideal_call, answer, save, result, exec, mbind, mgets, raise_if. by rewrite E1, E2. }
    set (q' := mk_saved_query (sv_name q) (sv_sql q) (sv_description q) (sv_tags q) (sv_created_at q) now).
    pose proof (agrees_change writable _ _ _ _ Ha (store_ok_set q' m Hc Om) eq_refl) as Hg.
    unfold call_store, ideal_call, answer, save, result, exec, mbind, mgets, raise_if. rewrite E1, E2. by split.
  - unfold call_store, ideal_call, answer, delete_query, result, exec, mbind, mgets.
    cbn [sw_store in_memory visible qs_saved]. destruct (od_has (qs_saved m) n); [|done].
    pose proof (agrees_change writable _ _ _ _ Ha (store_ok_del n m Om) eq_refl) as Hg. by split.
  - done.
  - split; [|done]. unfold call_store, ideal_call, answer, list_saved, result, mbind, mgets, mret.
    cbn [sw_store in_memory visible qs_saved fst]. repeat f_equal. destruct tag as [g|]; [|by rewrite filter_all].
    destruct (bool_decide (g = "")); [by rewrite filter_all|done].
  - assert (store_ok (mk_store (qs_saved m) (qs_history m ++ [e]))) as Hs by (destruct Om; by split).
    pose proof (agrees_change writable _ _ _ _ Ha Hs eq_refl) as Hg. split; [done|].
    destruct m as [saved h]. pose proof (visible_push saved h e) as Hp. cbn [visible qs_history] in Hp.
    unfold call_store, ideal_call, answer, push_history, exec, mbind, mgets, mmodify.
    cbn [sw_store visible qs_history qs_saved]. rewrite Hp. exact Hg.
  - done.
  - assert (store_ok (mk_store (qs_saved m) [])) as Hs by (destruct Om; by split).
    pose proof (agrees_change writable _ _ _ _ Ha Hs eq_refl) as Hg. by split.
  - unfold call_store, ideal_call, answer, reopen, result, exec, mbind, mgets. cbn [sw_file]. rewrite Hd. by split.
Qed.

Lemma agrees_start : agrees (mk_world empty_store Missing) (mk_two empty_store empty_store).
Proof. unfold agrees, store_ok. split_and!; done || constructor. Qed.

Lemma calls_refine cs w t :
  Forall call_ok cs → agrees w t →
  fst (run_calls (call_store container) cs w) = fst (run_calls ideal_call cs t)
  ∧ agrees (snd (run_calls (call_store container) cs w)) (snd (run_calls ideal_call cs t)).
Proof.
  intros Hc. revert w t. induction Hc as [|c cs Hc _ IH]; intros w t Ha; [done|].
  destruct (call_refines c w t Hc Ha) as [Hr Hs]. unfold result, exec in *. cbn [run_calls].
  destruct (call_store container c w) as [r w'], (ideal_call c t) as [r' t']. cbn [fst snd] in *. subst r'.
  destruct (IH w' t' Hs) as [Hr' Hs'].
  destruct (run_calls _ cs w') as [rs w''], (run_calls ideal_call cs t') as [rs' t'']. cbn [fst snd] in *.
  by subst rs'.
Qed.
End Refinement.

(** ** Theorems *)

(** The entries pushed since the history was last cleared. *)
Definition pushed (cs : list store_call) : list history_entry :=
  foldl (λ h c, match c with CPush _ e => h ++ [e] | CClear _ => [] | _ => h end) [] cs.

(** The write of the call, if it makes one, goes through. *)
Definition goes_through (c : store_call) : Prop :=
  match c with CSave b _ _ | CDelete b _ | CPush b _ | CClear b => b = true | _ => True end.

Lemma ideal_synced c t :
  goes_through c → in_memory t = on_disk t →
  in_memory (exec (ideal_call c) t) = on_disk (exec (ideal_call c) t)
  ∧ qs_history (in_memory (exec (ideal_call c) t)) =
    match c with CPush _ e => qs_history (in_memory t) ++ [e] | CClear _ => [] | _ => qs_history (in_memory t) end.
Proof.
  intros Hc Ht. destruct t as [m d]. cbn in Ht. subst d.
  destruct c as [writable now q|writable n|n|tag|writable e|limit|writable|]; cbn in Hc; subst;
    unfold ideal_call, answer, change, exec, mbind, mgets, mmodify, mraise, mret; cbn [in_memory]; repeat case_match; done.
Qed.

Lemma ideal_run_synced cs t :
  Forall goes_through cs → in_memory t = on_disk t →
  in_memory (snd (run_calls ideal_call cs t)) = on_disk (snd (run_calls ideal_call cs t))
  ∧ qs_history (in_memory (snd (run_calls ideal_call cs t))) =
    foldl (λ h c, match c with CPush _ e => h ++ [e] | CClear _ => [] | _ => h end) (qs_history (in_memory t)) cs.
Proof.
  intros Hc. revert t. induction Hc as [|c cs Hc _ IH]; intros t Ht; [done|].
  destruct (ideal_synced c t Hc Ht) as [Hs Hh]. unfold exec in *. cbn [run_calls foldl].
  destruct (ideal_call c t) as [r t']. cbn [snd] in *. destruct (IH t' Hs) as [Hs' Hh'].
  destruct (run_calls ideal_call cs t') as [rs t'']. cbn [snd] in *. by rewrite Hh', Hh.
Qed.

(** C38. Starting without a file, over any calls, writes that fail and
    restarts, the answers are those of two abstract stores with an unbounded
    history, one in memory and one on disk: a call changes the one in memory,
    and the one on disk when its write goes through; a restart copies the one
    on disk.  What is seen of a history is its last 200 entries.  When the
    writes go through, a restart changes nothing and the history is the last
    200 entries pushed since it was cleared. *)
Theorem query_store_refines `{FloatParser} `{FloatRepr} container cs :
  Forall call_ok cs →
  let concrete := run_calls (call_store container) cs (mk_world empty_store Missing) in
  let ideal := run_calls ideal_call cs (mk_two empty_store empty_store) in
  fst concrete = fst ideal
  ∧ sw_store (snd concrete) = visible (in_memory (snd ideal))
  ∧ load_store container (sw_file (snd concrete)) = Ok (visible (on_disk (snd ideal)))
  ∧ (Forall goes_through cs →
     load_store container (sw_file (snd concrete)) = Ok (sw_store (snd concrete))
     ∧ qs_history (sw_store (snd concrete)) = drop (length (pushed cs) - 200) (pushed cs)).
Proof.
  intros Hc concrete ideal. destruct (calls_refine container cs _ _ Hc (agrees_start container)) as [Ha (Hm & Hd & _)].
  fold concrete ideal in Ha, Hm, Hd. split_and!; [done..|]. intros Hg.
  destruct (ideal_run_synced cs (mk_two empty_store empty_store) Hg eq_refl) as [Hs Hh]. fold ideal in Hs, Hh.
  rewrite Hd, Hm, <- Hs. split; [done|]. unfold visible. cbn [qs_history]. by rewrite Hh.
Qed.

#[local] Instance no_parser : FloatParser := λ _, Raise (ValueError "could not convert string to float").
#[local] Instance no_repr : FloatRepr := λ _, "".

Definition demo_query : saved_query := mk_saved_query "q" "SELECT 1" "" [VStr "a"] 1 1.
Definition demo_calls : list store_call :=
  [CSave true 2 demo_query; CPush false (mk_history_entry "x" 3 true ""); CListHistory 5; CRestart; CListHistory 5;
   CSave true 4 (mk_saved_query "" "SELECT 1" "" [] 1 1); CListSaved (Some "a"%string); CDelete true "q"; CRestart; CGet "q"].

Lemma query_store_refines_witness :
  Forall call_ok demo_calls
  ∧ fst (run_calls ideal_call demo_calls (mk_two empty_store empty_store)) =
    [Ok ANothing; Ok ANothing; Ok (AEntries [mk_history_entry "x" 3 true ""]); Ok ANothing; Ok (AEntries []);
     Raise (ValueError "Query name must not be empty.");
     Ok (AQueries [mk_saved_query "q" "SELECT 1" "" [VStr "a"] 1 2]); Ok (ABool true); Ok ANothing; Ok (AQuery None)]
  ∧ fst (run_calls (call_store (λ _, ""%string)) demo_calls (mk_world empty_store Missing)) =
    fst (run_calls ideal_call demo_calls (mk_two empty_store empty_store)).
Proof.
  assert (Forall call_ok demo_calls) as Hc by (repeat constructor).
  split_and!; [done|vm_compute; reflexivity|].
  apply (query_store_refines (λ _, ""%string) demo_calls Hc).
Defined.

(** The listing is a selection of what is saved, newest first. *)
Lemma sort_desc_perm {A} (key : A → float) l : sort_desc key l ≡ₚ l.
Proof.
  assert (∀ a l, insert_desc key a l ≡ₚ a :: l) as Hi.
  { intros a k. induction k as [|b k IH]; [done|]. cbn. case_match; [|done]. rewrite IH. apply Permutation_swap. }
  induction l as [|a l IH]; [done|]. unfold sort_desc in *. cbn. by rewrite Hi, IH.
Qed.

Lemma list_saved_selects tag w q :
  ∃ l, list_saved (Some tag) w = (Ok l, w) ∧ l ≡ₚ List.filter (λ q, bool_decide (tag = "") || has_tag tag q) (qs_saved (sw_store w)).*2
       ∧ (q ∈ l ↔ (∃ n, (n, q) ∈ qs_saved (sw_store w)) ∧ (tag = "" ∨ has_tag tag q = true)).
Proof.
  eexists. split; [reflexivity|].
  assert (sort_desc sv_updated_at (if bool_decide (tag = "") then (qs_saved (sw_store w)).*2
            else List.filter (has_tag tag) (qs_saved (sw_store w)).*2)
          ≡ₚ List.filter (λ q, bool_decide (tag = "") || has_tag tag q) (qs_saved (sw_store w)).*2) as Hp.
  { rewrite sort_desc_perm. by destruct (bool_decide (tag = "")); [rewrite filter_all|]. }
  split; [done|]. rewrite Hp, list_elem_of_In, filter_In, <- list_elem_of_In, orb_true_iff, bool_decide_eq_true, list_elem_of_fmap.
  split; (intros [Hq Ht]; split; [|done]).
  - destruct Hq as ([n q'] & -> & Hq). eauto.
  - destruct Hq as [n Hq]. by exists (n, q).
Qed.

(** ** What the model exhibits *)

Definition one_entry : query_store := mk_store [] [mk_history_entry "x" 1 true ""; mk_history_entry "y" 2 true ""].

(** [list_history(0)] gives the whole history: [l[-0:]] is [l]. *)
Example limit_zero_shows_all :
  fst (list_history 0 (mk_world one_entry Missing)) = Ok (rev (qs_history one_entry))
  ∧ fst (list_history (-1) (mk_world one_entry Missing)) = Ok [mk_history_entry "y" 2 true ""].
Proof. by split. Qed.

(** A document of another shape, a text that is not UTF-8 or a number that no
    float holds ends the constructor with an exception. *)
Example bad_document_raises :
  load_store (λ _, ""%string) (Written (VDict [(VStr "saved", VList [VInt 1])]))
    = Raise (AttributeError "object has no attribute 'items'")
  ∧ load_store (λ _, ""%string) (Written (VDict [(VStr "history", VInt 5)])) = Raise (TypeError "object is not iterable")
  ∧ load_store (λ _, ""%string) NotText = Raise (ValueError "codec can't decode")
  ∧ is_ok (load_store (λ _, ""%string)
      (Written (VDict [(VStr "history", VList [VDict [(VStr "executed_at", VInt (10 ^ 400))]])]))) = false.
Proof. by vm_compute. Qed.

(** An unreadable file counts as an empty store, and the next change replaces
    it. *)
Example damaged_file_is_replaced :
  ∃ w, load_store (λ _, ""%string) NotJson = Ok empty_store
    ∧ exec (clear_history true) (mk_world empty_store NotJson) = w
    ∧ sw_file w = Written (store_document empty_store).
Proof. by eexists. Qed.

(** No command adds to the history that the command [history] shows: a command
    leaves the file alone, or writes a store with the same history. *)
Lemma commands_never_push `{Unicode} (container : pyval → string) nested env show_time read_file fmt now writable c f s :
  load_store container f = Ok s →
  let f' := exec (builder_main container nested env show_time read_file fmt now writable c) f in
  f' = f ∨ ∃ s', f' = Written (json_roundtrip (store_document s')) ∧ qs_history s' = qs_history s.
Proof.
  intros Hl f'. subst f'. unfold exec.
  destruct c as [prefix streams|raw|raw|raw url ns out|name raw description tags|tag|limit]; cbn [builder_main].
  - by left.
  - left. unfold with_sql, mbind, mlift. by destruct (read_sql _ raw) as [[q|]|].
  - left. unfold with_sql, mbind, mlift. destruct (read_sql _ raw) as [[q|]|]; [|done..]. by case_match.
  - left. unfold with_sql, mbind, mlift. destruct (read_sql _ raw) as [[q|]|]; [|done..]. by case_match.
  - unfold with_sql, mbind, mlift. destruct (read_sql _ raw) as [[q|]|]; [|by left..].
    unfold with_store. rewrite Hl.
    unfold save, mbind, raise_if. cbn [sv_name sv_sql sv_description sv_tags sv_created_at].
    destruct (bool_decide (name = "")); [by left|]. destruct (is_blank q); [by left|].
    destruct writable; [|by left]. right. by eexists.
  - left. unfold mbind, with_store. rewrite Hl. unfold list_saved, mgets. cbn [fst snd sw_file].
    destruct fmt; [destruct (sort_desc _ _)|]; try done. unfold mlift. by destruct (res_mapM _ _).
  - left. unfold mbind, with_store. rewrite Hl. unfold list_history, mgets. cbn [fst snd sw_file].
    destruct fmt; [destruct (rev _)|]; try done. unfold mlift. by destruct (res_mapM _ _).
Qed.

(** An apostrophe in the address ends the quotes of the copied command: the
    configuration accepts the address, and the command has one more option. *)
Example apostrophe_ends_the_quotes :
  let url := "https://h' -o 'f"%string in
  is_ok (check_builder_config (mk_builder_config url (VStr "n") "" "" (VInt 30000))) = true
  ∧ option_map (take 7) (shell_words false None (to_curl (λ _, []) (build_api_request None "SELECT 1" url "n" None 30000))) =
    Some (map chars ["curl"; "-s"; "-X"; "POST"; "https://h"; "-o"; "f/api/v1/namespaces/n/query"])%string.
Proof. by vm_compute. Qed.
