(* ===== verification/AtomicFile.v ===== *)
(** * Crash-safe files ([_atomic.py], [save] and [load] of [facade.py])

    Writing a JSON document through a temporary file, and reading it back.

    The disk keeps, besides what readers see, what a crash may leave: a file's
    text is certain only after [fsync], and until a directory is synchronised
    a crash may leave any of its earlier versions.  Every system call may
    fail; a run records all the disks it goes through.

    Proved: at each of them a reader finds the old document or the new one,
    and so does a reader after a crash; when the call returns, a crash leaves
    the new one; when it fails, no temporary file stays.  So a saved log is
    never lost or torn.

    The encoder and the decoder of JSON, the name of the temporary file and
    the clock are parameters; the lock that threads of one process share is
    left out. *)

From Stdlib Require Import PrimFloat Ascii String.
From S2P Require Import Prelude PyFloat FloatRound Hashing DDSketch PyVal StreamLog Checkpoint SqlParser.

#[local] Open Scope Z_scope.
#[local] Open Scope py_scope.

(** ** Disks *)

Record inode := mk_inode {
  in_text : text;
  in_synced : option text;   (* what a crash leaves, when that is certain *)
  in_mode : Z
}.

Record disk := mk_disk {
  dk_inodes : gmap nat inode;
  dk_dir : gmap string nat;
  dk_earlier : list (gmap string nat)   (* since the directory was synchronised *)
}.

(** What a reader finds under a name. *)
Definition reads (d : disk) (name : string) : option text :=
  i ← dk_dir d !! name; in_text <$> dk_inodes d !! i.

(** What a reader may find under a name after a crash. *)
Definition crash_text (d : disk) (i : nat) (t : text) : Prop :=
  match dk_inodes d !! i with
  | Some n => match in_synced n with Some s => t = s | None => True end
  | None => True
  end.
Definition crash_reads (d : disk) (name : string) (o : option text) : Prop :=
  ∃ dir, dir ∈ dk_dir d :: dk_earlier d ∧
    match dir !! name, o with
    | None, None => True
    | Some i, Some t => crash_text d i t
    | _, _ => False
    end.

(** ** System calls *)

Record machine := mk_machine { mc_disk : disk; mc_trace : list disk }.

Definition io_error : exn := OSError "system call failed".

(** A call that fails changes nothing. *)
Definition sys (ok : bool) (f : disk → disk) : M machine unit :=
  λ m, if ok then let d := f (mc_disk m) in (Ok (), mk_machine d (mc_trace m ++ [d])) else (Raise io_error, m).

Definition set_inode (i : nat) (n : inode) (d : disk) : disk :=
  mk_disk (<[i := n]> (dk_inodes d)) (dk_dir d) (dk_earlier d).
Definition set_dir (dir : gmap string nat) (d : disk) : disk :=
  mk_disk (dk_inodes d) dir (dk_dir d :: dk_earlier d).

Definition on_file (name : string) (f : inode → inode) (d : disk) : disk :=
  match dk_dir d !! name with
  | Some i => match dk_inodes d !! i with Some n => set_inode i (f n) d | None => d end
  | None => d
  end.

Definition unused (m : gmap nat inode) : nat := S (max_list (map_to_list m).*1).
Definition do_create (name : string) (d : disk) : disk :=
  let i := unused (dk_inodes d) in
  set_dir (<[name := i]> (dk_dir d)) (set_inode i (mk_inode [] None 384) d).
Definition do_chmod (name : string) (mode : Z) : disk → disk :=
  on_file name (λ n, mk_inode (in_text n) (in_synced n) mode).
Definition do_write (name : string) (t : text) : disk → disk :=
  on_file name (λ n, mk_inode (in_text n ++ t) None (in_mode n)).
Definition do_sync (name : string) : disk → disk :=
  on_file name (λ n, mk_inode (in_text n) (Some (in_text n)) (in_mode n)).
Definition do_replace (src dst : string) (d : disk) : disk :=
  match dk_dir d !! src with
  | Some i => set_dir (<[dst := i]> (delete src (dk_dir d))) d
  | None => d
  end.
Definition do_unlink (name : string) (d : disk) : disk := set_dir (delete name (dk_dir d)) d.
Definition do_sync_dir (d : disk) : disk := mk_disk (dk_inodes d) (dk_dir d) [].

(** ** The code *)

Definition MAX_SERIALIZED_STATE_BYTES : Z := 32 * 1024 * 1024.
Definition WINDOWS_IO_RETRY_SECONDS : float := 5.

(** How the system calls of a run go: which succeed, the clock at each
    refusal of the replacement, and whether the system is Windows. *)
Record weather := mk_weather {
  wt_mkdir : bool; wt_stat : bool; wt_create : bool; wt_chmod : bool; wt_open : bool;
  wt_writes : nat → bool; wt_flush : bool; wt_sync : bool; wt_close : bool; wt_size : bool;
  wt_windows : bool; wt_start : float; wt_refusals : list float; wt_replace : bool;
  wt_open_dir : bool; wt_sync_dir : bool; wt_unlink : bool
}.

(** [json.dump]: the pieces it writes, and the exception that ends it. *)
Definition encoder := pyval → list text * option exn.

(** [try: ... finally: ...] *)
Definition on_error {A} (m : M machine A) (cleanup : M machine unit) : M machine A :=
  λ s, match m s with
       | (Ok a, s) => (Ok a, s)
       | (Raise e, s) => match cleanup s with (Ok _, s) => (Raise e, s) | (Raise e', s) => (Raise e', s) end
       end.

Section Writing.
Context (dump : encoder) (w : weather) (dst tmp : string).

Fixpoint write_chunks (k : nat) (chunks : list text) : M machine unit :=
  match chunks with
  | [] => mret ()
  | c :: chunks => sys (wt_writes w k) (do_write tmp c) ;;; write_chunks (S k) chunks
  end.

(** The loop around [os.replace]. *)
Fixpoint replace_loop (refusals : list float) : M machine unit :=
  match refusals with
  | [] => sys (wt_replace w) (do_replace tmp dst)
  | now :: refusals =>
      raise_if (negb (wt_windows w) || fle (wt_start w + WINDOWS_IO_RETRY_SECONDS)%float now) (OSError "Permission denied") ;;;
      replace_loop refusals
  end.

Definition mode_of (d : disk) : Z :=
  match dk_dir d !! dst with
  | Some i => match dk_inodes d !! i with Some n => in_mode n | None => 384 end
  | None => 384
  end.

(** The file is complete and on disk. *)
Definition write_temporary (data : pyval) (mode : Z) : M machine unit :=
  sys (wt_chmod w) (do_chmod tmp mode) ;;;
  sys (wt_open w) id ;;;
  write_chunks 0 (fst (dump data)) ;;;
  match snd (dump data) with Some e => mraise e | None => mret () end ;;;
  sys (wt_flush w) id ;;;
  sys (wt_sync w) (do_sync tmp) ;;;
  sys (wt_close w) id ;;;
  sys (wt_size w) id ;;;
  size <- mgets (λ m, match reads (mc_disk m) tmp with Some t => Z.of_nat (length t) | None => 0 end) ;;
  raise_if (MAX_SERIALIZED_STATE_BYTES <? size) (ValueError "Serialized checkpoint exceeds the 32 MiB limit").

(** [_atomic_write_json_locked] *)
Definition atomic_write_json (data : pyval) : M machine unit :=
  sys (wt_mkdir w) id ;;;
  sys (wt_stat w) id ;;;
  mode <- mgets (λ m, mode_of (mc_disk m)) ;;
  sys (wt_create w) (do_create tmp) ;;;
  on_error (write_temporary data mode ;;; replace_loop (wt_refusals w)) (sys (wt_unlink w) (do_unlink tmp)) ;;;
  if wt_windows w then mret ()
  else sys (wt_open_dir w) id ;;; sys (wt_sync_dir w) do_sync_dir.
End Writing.

(** [read_json_checkpoint]: [refusals] are the times at which opening the file
    was refused, and [text] what is found then. *)
Definition decoder := text → res pyval.

Fixpoint read_json_checkpoint (loads : decoder) (windows : bool) (start : float) (refusals : list float)
    (found : option text) : res pyval :=
  match refusals with
  | now :: refusals =>
      if negb windows || fle (start + WINDOWS_IO_RETRY_SECONDS)%float now then Raise (OSError "Permission denied")
      else read_json_checkpoint loads windows start refusals found
  | [] =>
      match found with
      | None => Raise (OSError "No such file or directory")
      | Some t => if MAX_SERIALIZED_STATE_BYTES <? Z.of_nat (length t)
                  then Raise (ValueError "Serialized checkpoint exceeds the 32 MiB limit") else loads t
      end
  end.

(** [_PythonStreamLog.save] and [_PythonStreamLog.load] *)
Definition slog_save (dump : encoder) (w : weather) (path tmp : string) (s : slog) : M machine unit :=
  atomic_write_json dump w path tmp (slog_to_dict s).

Definition slog_load `{Libm} (loads : decoder) (windows : bool) (start : float) (refusals : list float)
    (found : option text) : res slog :=
  let? v := read_json_checkpoint loads windows start refusals found in slog_from_dict v.

(** ** Runs over the disks *)

Section Runs.
Context (fine : disk → Prop).

(** From disks in [P], a run goes through fine disks only, and ends in [Q], or
    in [E] with an exception. *)
Definition triple {A} (P : disk → Prop) (m : M machine A) (Q : A → disk → Prop) (E : disk → Prop) : Prop :=
  ∀ s, P (mc_disk s) → Forall fine (mc_trace s) →
    Forall fine (mc_trace (snd (m s)))
    ∧ match fst (m s) with Ok a => Q a (mc_disk (snd (m s))) | Raise _ => E (mc_disk (snd (m s))) end.

Lemma triple_ret {A} (P : disk → Prop) (a : A) (Q : A → disk → Prop) E :
  (∀ d, P d → Q a d) → triple P (mret a) Q E.
Proof. intros HQ s HP HF. split; [done|]. by apply HQ. Qed.

Lemma triple_raise {A} (P : disk → Prop) e (Q : A → disk → Prop) (E : disk → Prop) :
  (∀ d, P d → E d) → triple P (mraise e) Q E.
Proof. intros HE s HP HF. split; [done|]. by apply HE. Qed.

Lemma triple_bind {A B} P (m : M machine A) (k : A → M machine B) Q R E :
  triple P m Q E → (∀ a, triple (Q a) (k a) R E) → triple P (mbind m k) R E.
Proof.
  intros Hm Hk s HP HF. destruct (Hm s HP HF) as [HF' Hr]. unfold mbind.
  destruct (m s) as [[a|e] s'] eqn:Es; cbn in *; [|done]. by apply (Hk a s').
Qed.

Lemma triple_get {A B} P (f : machine → A) (k : A → M machine B) Q E :
  (∀ d t, P d → triple (eq d) (k (f (mk_machine d t))) Q E) → triple P (mbind (mgets f) k) Q E.
Proof. intros Hk [d t] HP HF. by apply (Hk d t HP). Qed.

Lemma triple_sys (P : disk → Prop) ok f (Q E : disk → Prop) :
  (∀ d, P d → fine (f d) ∧ Q (f d)) → (∀ d, P d → E d) → triple P (sys ok f) (λ _, Q) E.
Proof.
  intros Hf He s HP HF. unfold sys. destruct ok; cbn; [|by split; [|apply He]].
  destruct (Hf _ HP) as [Hfine HQ]. split; [|done]. apply Forall_app. split; [done|by constructor].
Qed.

Lemma triple_if (P : disk → Prop) b e : triple P (raise_if b e) (λ _ d, P d ∧ b = false) P.
Proof. intros s HP HF. by destruct b. Qed.

Lemma triple_weaken {A} (P P' : disk → Prop) (m : M machine A) (Q Q' : A → disk → Prop) (E E' : disk → Prop) :
  (∀ d, P' d → P d) → (∀ a d, Q a d → Q' a d) → (∀ d, E d → E' d) → triple P m Q E → triple P' m Q' E'.
Proof.
  intros HP HQ HE Hm s Hs HF. destruct (Hm s (HP _ Hs) HF) as [HF' Hr]. split; [done|].
  destruct (fst (m s)); auto.
Qed.

Lemma triple_error {A} (P : disk → Prop) (m : M machine A) (Q : A → disk → Prop) (E E' : disk → Prop) :
  (∀ d, E d → E' d) → triple P m Q E → triple P m Q E'.
Proof. intros HE. by apply triple_weaken. Qed.

Lemma triple_cleanup {A} P (m : M machine A) k Q (E E' : disk → Prop) :
  triple P m Q E → triple E k (λ _, E') E' → triple P (on_error m k) Q E'.
Proof.
  intros Hm Hk s HP HF. destruct (Hm s HP HF) as [HF' Hr]. unfold on_error.
  destruct (m s) as [[a|e] s'] eqn:Es; cbn in *; [done|]. destruct (Hk s' Hr HF') as [HF'' Hr'].
  by destruct (k s') as [[u|e'] s''].
Qed.
End Runs.

(** ** The run of a write *)

(** A reader finds [o], and nothing else after a crash. *)
Definition settled (d : disk) (name : string) (o : option text) : Prop :=
  reads d name = o ∧ ∀ o', crash_reads d name o' → o' = o.

(** Directories name files that exist. *)
Definition wf_disk (d : disk) : Prop :=
  ∀ dir, dir ∈ dk_dir d :: dk_earlier d → ∀ name i, dir !! name = Some i → i ∈ dom (dk_inodes d).

Lemma reads_same d d' name :
  dk_dir d !! name = dk_dir d' !! name →
  (∀ i, dk_dir d' !! name = Some i → dk_inodes d !! i = dk_inodes d' !! i) → reads d name = reads d' name.
Proof.
  intros Hd Hi. unfold reads. rewrite Hd. destruct (dk_dir d' !! name) as [i|]; [|done].
  change (in_text <$> dk_inodes d !! i = in_text <$> dk_inodes d' !! i). by rewrite Hi.
Qed.

Lemma reads_some d name i n :
  dk_dir d !! name = Some i → dk_inodes d !! i = Some n → reads d name = Some (in_text n).
Proof.
  intros Hd Hi. unfold reads. rewrite Hd. change (in_text <$> dk_inodes d !! i = Some (in_text n)). by rewrite Hi.
Qed.

Lemma unused_fresh m : unused m ∉ dom m.
Proof.
  intros [n Hn]%elem_of_dom. apply elem_of_map_to_list in Hn.
  assert (unused m ≤ max_list (map_to_list m).*1)%nat as Hle.
  { apply max_list_elem_of_le, list_elem_of_fmap. by exists (unused m, n). }
  unfold unused in Hle. lia.
Qed.

Section Run.
Context (dump : encoder) (w : weather) (dst tmp : string) (data : pyval) (d0 : disk) (old : option text).
Context (Hne : tmp ≠ dst) (Hfresh : dk_dir d0 !! tmp = None) (Hwf : wf_disk d0) (Hold : settled d0 dst old).

Definition new : text := concat (fst (dump data)).

(** The new text is all of the document, and within the limit. *)
Definition complete : Prop := snd (dump data) = None ∧ Z.of_nat (length new) ≤ MAX_SERIALIZED_STATE_BYTES.

(** Readers find the old text or the new one, after a crash too. *)
Definition old_or_new (o : option text) : Prop := o = old ∨ o = Some new ∧ complete.
Definition whole (d : disk) : Prop := old_or_new (reads d dst) ∧ ∀ o, crash_reads d dst o → old_or_new o.

Lemma settled_whole d : settled d dst old → whole d.
Proof. intros [Hr Hc]. split; [by left|]. intros o Ho. left. by apply Hc. Qed.

Definition own : nat := unused (dk_inodes d0).

(** Before the replacement: the temporary file is [n], and no directory has it
    under the name of the document. *)
Definition before_replace (n : inode) (d : disk) : Prop :=
  dk_dir d = <[tmp := own]> (dk_dir d0) ∧ dk_inodes d !! own = Some n ∧ settled d dst old
  ∧ ∀ dir, dir ∈ dk_dir d :: dk_earlier d → dir !! dst ≠ Some own.

Lemma before_whole n d : before_replace n d → whole d.
Proof. intros (_ & _ & Hs & _). by apply settled_whole. Qed.

Lemma created : before_replace (mk_inode [] None 384) (do_create tmp d0).
Proof.
  assert (∀ dir, dir ∈ dk_dir d0 :: dk_earlier d0 → dir !! dst ≠ Some own) as Hn.
  { intros dir Hdir E. apply (unused_fresh (dk_inodes d0)), (Hwf dir Hdir dst own E). }
  destruct Hold as [Hr Hc]. unfold before_replace, do_create, set_dir, set_inode.
  cbn [dk_dir dk_inodes dk_earlier]. fold own. split_and!; [done|by rewrite lookup_insert_eq| |].
  - split.
    + rewrite <- Hr. apply reads_same; cbn [dk_dir dk_inodes]; [by rewrite lookup_insert_ne|].
      intros i Ei. rewrite lookup_insert_ne; [done|]. intros <-. by apply (Hn (dk_dir d0)); [left|].
    + intros o (dir & Hdir & Ho). apply Hc. cbn [dk_dir dk_earlier] in Hdir.
      assert (∃ dir', dir' ∈ dk_dir d0 :: dk_earlier d0 ∧ dir' !! dst = dir !! dst) as (dir' & Hdir' & E).
      { apply elem_of_cons in Hdir as [->|Hdir]; [|by exists dir].
        exists (dk_dir d0). split; [left|]. by rewrite lookup_insert_ne. }
      exists dir'. split; [done|]. rewrite E. destruct (dir !! dst) as [i|] eqn:Ei, o as [t|]; try done.
      unfold crash_text in *. cbn [dk_inodes] in Ho. rewrite lookup_insert_ne in Ho; [done|].
      intros <-. by apply (Hn dir').
  - intros dir [->|Hdir]%elem_of_cons; [rewrite lookup_insert_ne by done; apply Hn; left|by apply Hn].
Qed.

Lemma on_temporary f n d : before_replace n d → before_replace (f n) (on_file tmp f d).
Proof.
  intros (Hd & Hi & [Hr Hc] & Hn). unfold on_file. rewrite Hd, lookup_insert_eq, Hi.
  unfold before_replace, set_inode. cbn [dk_dir dk_inodes dk_earlier]. split_and!; [done|by rewrite lookup_insert_eq| |done].
  assert (∀ dir, dir ∈ dk_dir d :: dk_earlier d → ∀ i, dir !! dst = Some i → <[own := f n]> (dk_inodes d) !! i = dk_inodes d !! i) as Hsame.
  { intros dir Hdir i Ei. rewrite lookup_insert_ne; [done|]. intros <-. by apply (Hn dir). }
  split.
  - rewrite <- Hr. apply reads_same; [done|]. intros i Ei. cbn [dk_inodes]. by apply (Hsame (dk_dir d)); [left|].
  - intros o (dir & Hdir & Ho). apply Hc. exists dir. split; [done|].
    destruct (dir !! dst) as [i|] eqn:Ei, o as [t|]; try done.
    unfold crash_text in *. cbn [dk_inodes] in Ho. by rewrite (Hsame dir) in Ho.
Qed.

(** After it. *)
Definition after_replace (n : inode) (d : disk) : Prop :=
  dk_dir d = <[dst := own]> (dk_dir d0) ∧ dk_inodes d !! own = Some n ∧ whole d.

Lemma replaced n d :
  before_replace n d → in_text n = new → in_synced n = Some new → complete → after_replace n (do_replace tmp dst d).
Proof.
  intros (Hd & Hi & [Hr Hc] & Hn) Ht Hs Hcomp. unfold do_replace. rewrite Hd, lookup_insert_eq.
  rewrite delete_insert_id by done. unfold after_replace, set_dir, whole. cbn [dk_dir dk_inodes dk_earlier].
  split_and!; [done|done| |].
  - right. split; [|done]. rewrite <- Ht. eapply reads_some; [apply lookup_insert_eq|done].
  - intros o (dir & Hdir & Ho). cbn [dk_dir dk_earlier] in Hdir.
    apply elem_of_cons in Hdir as [->|Hdir].
    + right. split; [|done]. rewrite lookup_insert_eq in Ho. destruct o as [t|]; [|done]. unfold crash_text in Ho. cbn [dk_inodes] in Ho.
      rewrite Hi, Hs in Ho. by subst t.
    + left. apply Hc. by exists dir.
Qed.

Definition some_temporary (d : disk) : Prop := ∃ n, before_replace n d.

Lemma sys_temporary ok f n :
  triple whole (before_replace n) (sys ok (on_file tmp f)) (λ _, before_replace (f n)) some_temporary.
Proof.
  apply triple_sys; [|by exists n]. intros d Hd. apply (on_temporary f) in Hd. by split; [eapply before_whole|].
Qed.

Lemma sys_idle ok n : triple whole (before_replace n) (sys ok id) (λ _, before_replace n) some_temporary.
Proof. apply triple_sys; [|by exists n]. intros d Hd. by split; [eapply before_whole|]. Qed.

Lemma chunks_written mode cs : ∀ k n,
  in_mode n = mode →
  triple whole (before_replace n) (write_chunks w tmp k cs)
    (λ _ d, ∃ sy, before_replace (mk_inode (in_text n ++ concat cs) sy mode) d) some_temporary.
Proof.
  induction cs as [|c cs IH]; intros k n Hm; cbn [write_chunks concat].
  - rewrite app_nil_r. apply triple_ret. intros d Hd. exists (in_synced n). subst mode. by destruct n as [t sy m].
  - eapply triple_bind; [apply sys_temporary|]. intros []. rewrite app_assoc.
    eapply triple_weaken; [| | |apply IH]; cbn [in_text in_mode]; done.
Qed.

Lemma temporary_written mode :
  triple whole (before_replace (mk_inode [] None 384)) (write_temporary dump w tmp data mode)
    (λ _ d, before_replace (mk_inode new (Some new) mode) d ∧ complete)
    some_temporary.
Proof.
  unfold write_temporary, complete. eapply triple_bind; [apply sys_temporary|]. intros []. cbn [in_text in_synced].
  eapply triple_bind; [apply sys_idle|]. intros [].
  eapply triple_bind; [by apply (chunks_written mode)|]. intros []. cbn [in_text app].
  fold new. intros s [sy Hs] HF. revert s Hs HF.
  change (triple whole (before_replace (mk_inode new sy mode))
    (match snd (dump data) with Some e => mraise e | None => mret () end ;;; sys (wt_flush w) id ;;; sys (wt_sync w) (do_sync tmp) ;;;
     sys (wt_close w) id ;;; sys (wt_size w) id ;;;
     size <- mgets (λ m, match reads (mc_disk m) tmp with Some t => Z.of_nat (length t) | None => 0 end) ;;
     raise_if (MAX_SERIALIZED_STATE_BYTES <? size) (ValueError "Serialized checkpoint exceeds the 32 MiB limit"))
    (λ _ d, before_replace (mk_inode new (Some new) mode) d
            ∧ snd (dump data) = None ∧ Z.of_nat (length new) ≤ MAX_SERIALIZED_STATE_BYTES) some_temporary).
  eapply (triple_bind _ _ _ _ (λ _ d, before_replace (mk_inode new sy mode) d ∧ snd (dump data) = None)).
  { destruct (snd (dump data)) as [e|].
    - apply triple_raise. by eexists.
    - by apply triple_ret. }
  intros [] s [Hs He] HF. rewrite He. revert s Hs HF.
  change (triple whole (before_replace (mk_inode new sy mode))
    (sys (wt_flush w) id ;;; sys (wt_sync w) (do_sync tmp) ;;;
     sys (wt_close w) id ;;; sys (wt_size w) id ;;;
     size <- mgets (λ m, match reads (mc_disk m) tmp with Some t => Z.of_nat (length t) | None => 0 end) ;;
     raise_if (MAX_SERIALIZED_STATE_BYTES <? size) (ValueError "Serialized checkpoint exceeds the 32 MiB limit"))
    (λ _ d, before_replace (mk_inode new (Some new) mode) d
            ∧ @None exn = None ∧ Z.of_nat (length new) ≤ MAX_SERIALIZED_STATE_BYTES) some_temporary).
  eapply triple_bind; [apply sys_idle|]. intros [].
  eapply triple_bind; [apply sys_temporary|]. intros []. cbn [in_text in_mode].
  eapply triple_bind; [apply sys_idle|]. intros [].
  eapply triple_bind; [apply sys_idle|]. intros [].
  apply triple_get. intros d t Hd. cbn [mc_disk].
  assert (reads d tmp = Some new) as ->.
  { destruct Hd as (Hdir & Hi & _). by rewrite (reads_some d tmp own _ ltac:(by rewrite Hdir, lookup_insert_eq) Hi). }
  eapply triple_weaken; [| | |apply triple_if]; [done| |intros d' <-; by eexists].
  intros [] d' [<- Hl%Z.ltb_ge]. done.
Qed.

Lemma replacement refusals n :
  in_text n = new → in_synced n = Some new → complete →
  triple whole (before_replace n) (replace_loop w dst tmp refusals) (λ _, after_replace n) some_temporary.
Proof.
  intros Ht Hs Hcomp. induction refusals as [|now refusals IH]; cbn [replace_loop].
  - apply triple_sys; [|by exists n]. intros d Hd. pose proof (replaced n d Hd Ht Hs Hcomp) as Ha. by split; [apply Ha|].
  - eapply triple_bind; [eapply triple_weaken; [| | |apply triple_if]; [done|done|by exists n]|].
    intros []. eapply triple_weaken; [| | |exact IH]; [by intros d []|done..].
Qed.

(** The name of the temporary file is gone. *)
Definition undone (d : disk) : Prop := settled d dst old ∧ (wt_unlink w = true → dk_dir d = dk_dir d0).

Lemma unlinked d : some_temporary d → settled (do_unlink tmp d) dst old ∧ dk_dir (do_unlink tmp d) = dk_dir d0.
Proof.
  intros (n & Hd & Hi & [Hr Hc] & Hn). unfold do_unlink, set_dir. cbn [dk_dir]. split.
  - split.
    + rewrite <- Hr. apply reads_same; [by apply lookup_delete_ne|done].
    + intros o (dir & Hdir & Ho). apply Hc. cbn [dk_dir dk_earlier] in Hdir.
      apply elem_of_cons in Hdir as [->|Hdir]; [|by exists dir].
      exists (dk_dir d). split; [left|]. by rewrite lookup_delete_ne in Ho.
  - by rewrite Hd, delete_insert_id.
Qed.

Lemma cleaned : triple whole some_temporary (sys (wt_unlink w) (do_unlink tmp)) (λ _, undone) undone.
Proof.
  intros s Hs HF. unfold sys. destruct (wt_unlink w) eqn:Ew; cbn.
  - destruct (unlinked _ Hs) as [Hset Hdir]. split; [|by split].
    apply Forall_app. split; [done|]. constructor; [by apply settled_whole|done].
  - split; [done|]. destruct Hs as (n & Hn). split; [apply Hn|by rewrite Ew].
Qed.

(** The document is replaced, and stays so. *)
Definition done_with (mode : Z) (d : disk) : Prop :=
  after_replace (mk_inode new (Some new) mode) d ∧ complete.

Lemma synced_dir n d : after_replace n d → in_synced n = Some new → in_text n = new → complete →
  after_replace n (do_sync_dir d) ∧ settled (do_sync_dir d) dst (Some new).
Proof.
  intros (Hd & Hi & Hr & Hc) Hs Ht Hcomp. unfold do_sync_dir.
  assert (reads (mk_disk (dk_inodes d) (dk_dir d) []) dst = Some new) as Hnew.
  { rewrite <- Ht. eapply reads_some; [cbn [dk_dir]; rewrite Hd; apply lookup_insert_eq|done]. }
  assert (∀ o, crash_reads (mk_disk (dk_inodes d) (dk_dir d) []) dst o → o = Some new) as Hcr.
  { intros o (dir & Hdir & Ho). cbn [dk_dir dk_earlier] in Hdir. apply list_elem_of_singleton in Hdir as ->.
    rewrite Hd, lookup_insert_eq in Ho. destruct o as [t|]; [|done]. unfold crash_text in Ho. cbn [dk_inodes] in Ho.
    rewrite Hi, Hs in Ho. by subst t. }
  split; [|done]. split_and!; [done|done|]. split; [by right|]. intros o Ho. right. split; [by apply Hcr|done].
Qed.

Lemma atomic_write_run :
  triple whole (eq d0) (atomic_write_json dump w dst tmp data)
    (λ _ d, done_with (mode_of dst d0) d ∧ (wt_windows w = false → settled d dst (Some new)))
    (λ d, undone d ∨ done_with (mode_of dst d0) d).
Proof.
  unfold atomic_write_json.
  assert (∀ ok, triple whole (eq d0) (sys ok id) (λ _, eq d0) (λ d, undone d ∨ done_with (mode_of dst d0) d)) as Hidle.
  { intros ok. apply triple_sys; [intros d <-; by split; [apply settled_whole|]|]. intros d <-. by left. }
  eapply triple_bind; [apply Hidle|]. intros []. eapply triple_bind; [apply Hidle|]. intros [].
  apply triple_get. intros d t <-. cbn [mc_disk].
  eapply (triple_bind _ _ _ _ (λ _, before_replace (mk_inode [] None 384))).
  { apply triple_sys; intros d <-; [|by left]. by split; [eapply before_whole|]; apply created. }
  intros []. eapply (triple_bind _ _ _ _ (λ _, done_with (mode_of dst d0))).
  { apply (triple_error _ _ _ _ undone); [by left|]. eapply triple_cleanup; [|apply cleaned].
    eapply triple_bind; [apply temporary_written|]. intros [] s [Hb Hcomp] HF.
    destruct (replacement (wt_refusals w) (mk_inode new (Some new) (mode_of dst d0)) eq_refl eq_refl Hcomp s Hb HF) as [HF' Hr]. split; [done|].
    by destruct (fst _). }
  intros []. destruct (wt_windows w); [by apply triple_ret|].
  eapply (triple_bind _ _ _ _ (λ _, done_with (mode_of dst d0))).
  { apply triple_sys; [|by right]. intros d Hd. split; [apply Hd|done]. }
  intros []. apply triple_sys; [|by right]. intros d [Ha Hcomp].
  destruct (synced_dir _ d Ha eq_refl eq_refl Hcomp) as [Ha' Hs]. split; [apply Ha'|]. by split.
Qed.
End Run.

(** ** Theorems *)

(** A document is written as a whole or not at all.  Whatever calls fail, at
    every disk the run goes through a reader finds the old text or all of the
    new one, and so does a reader after a crash at that point.  When the call
    returns, the document was encoded without an exception and fits the limit,
    the file has it with the old mode (or 0600), nothing else changed in the
    directory and, but on Windows, a crash leaves the new text.  When it
    raises, the old text is there to stay and the temporary file is gone if it
    could be removed, or only synchronising the directory failed. *)
Lemma atomic_write_crash_safe dump w dst tmp data d0 old :
  tmp ≠ dst → dk_dir d0 !! tmp = None → wf_disk d0 → settled d0 dst old →
  let '(r, m) := atomic_write_json dump w dst tmp data (mk_machine d0 []) in
  let d := mc_disk m in
  let text := concat (fst (dump data)) in
  let encoded := snd (dump data) = None ∧ Z.of_nat (length text) ≤ MAX_SERIALIZED_STATE_BYTES in
  let replaced := encoded ∧ ∃ i, dk_dir d = <[dst := i]> (dk_dir d0)
                               ∧ dk_inodes d !! i = Some (mk_inode text (Some text) (mode_of dst d0)) in
  Forall (λ d, (reads d dst = old ∨ reads d dst = Some text ∧ encoded)
             ∧ ∀ o, crash_reads d dst o → o = old ∨ o = Some text ∧ encoded) (mc_trace m)
  ∧ match r with
    | Ok _ => replaced ∧ (wt_windows w = false → settled d dst (Some text))
    | Raise _ => settled d dst old ∧ (wt_unlink w = true → dk_dir d = dk_dir d0) ∨ replaced
    end.
Proof.
  intros Hne Hfresh Hwf Hold.
  pose proof (atomic_write_run dump w dst tmp data d0 old Hne Hfresh Hwf Hold (mk_machine d0 []) eq_refl (Forall_nil_2 _)) as [HF Hr].
  destruct (atomic_write_json dump w dst tmp data (mk_machine d0 [])) as [r m]. cbn [fst snd] in *. split; [exact HF|].
  assert (∀ d, done_with dump dst data d0 old (mode_of dst d0) d →
    (snd (dump data) = None ∧ Z.of_nat (length (concat (fst (dump data)))) ≤ MAX_SERIALIZED_STATE_BYTES)
    ∧ ∃ i, dk_dir d = <[dst := i]> (dk_dir d0)
         ∧ dk_inodes d !! i = Some (mk_inode (concat (fst (dump data))) (Some (concat (fst (dump data)))) (mode_of dst d0))) as Hdone.
  { intros d [(Hd & Hi & _) Hc]. split; [exact Hc|]. by exists (own d0). }
  destruct r as [u|e]; [destruct Hr as [Hr Hs]; split; [by apply Hdone|exact Hs]|].
  destruct Hr as [Hr|Hr]; [by left|right; by apply Hdone].
Qed.


(** ** A run *)

Definition fair : weather :=
  mk_weather true true true true true (λ _, true) true true true true false 0 [] true true true true.

Definition old_disk : disk := mk_disk {[0%nat := mk_inode (chars "old") (Some (chars "old")) 420]} {["log.json"%string := 0%nat]} [].

Lemma old_disk_ok :
  "log.tmp"%string ≠ "log.json"%string ∧ dk_dir old_disk !! "log.tmp"%string = None ∧ wf_disk old_disk
  ∧ settled old_disk "log.json" (Some (chars "old")).
Proof.
  split_and!; [done|vm_compute; reflexivity| |].
  - intros dir ->%list_elem_of_singleton name i Hi. unfold old_disk in *. cbn [dk_dir dk_inodes] in *.
    apply lookup_singleton_Some in Hi as [_ <-]. set_solver.
  - split; [vm_compute; reflexivity|]. intros o (dir & ->%list_elem_of_singleton & Ho).
    change (dk_dir old_disk !! "log.json"%string) with (Some 0%nat) in Ho. destruct o as [t|]; [|done].
    change (t = chars "old") in Ho. by subst t.
Qed.

Lemma atomic_write_crash_safe_witness :
  ("log.tmp"%string ≠ "log.json"%string ∧ dk_dir old_disk !! "log.tmp"%string = None ∧ wf_disk old_disk
   ∧ settled old_disk "log.json" (Some (chars "old")))
  ∧ let '(r, m) := atomic_write_json (λ _, ([chars "ne"; chars "w"], None)) fair "log.json" "log.tmp" VNone (mk_machine old_disk []) in
    r = Ok () ∧ length (mc_trace m) = 14%nat ∧ reads (mc_disk m) "log.json" = Some (chars "new")
    ∧ Forall (λ d, (reads d "log.json" = Some (chars "old") ∨ reads d "log.json" = Some (chars "new"))
             ∧ ∀ o, crash_reads d "log.json" o → o = Some (chars "old") ∨ o = Some (chars "new")) (mc_trace m).
Proof.
  split; [exact old_disk_ok|]. destruct old_disk_ok as (H1 & H2 & H3 & H4).
  pose proof (atomic_write_crash_safe (λ _, ([chars "ne"; chars "w"], None)) fair "log.json" "log.tmp" VNone old_disk _ H1 H2 H3 H4) as HF.
  assert (let '(r, m) := atomic_write_json (λ _, ([chars "ne"; chars "w"], None)) fair "log.json" "log.tmp" VNone (mk_machine old_disk []) in
    r = Ok () ∧ length (mc_trace m) = 14%nat ∧ reads (mc_disk m) "log.json" = Some (chars "new")) as Hrun
    by (vm_compute; split_and!; reflexivity).
  destruct (atomic_write_json _ _ _ _ _ _) as [r m]. destruct HF as [HF _]. destruct Hrun as (Hr & Hl & Hn).
  split_and!; [done..|]. eapply Forall_impl; [exact HF|]. naive_solver.
Defined.

Definition demo_saved : slog := exec (slog_run (H := coarse_libm) (demo_calls1 ++ demo_calls2)) demo_log.
Definition demo_dump : encoder := λ _, ([chars "{"; chars "}"], None).
Definition demo_loads : decoder := λ t,
  if bool_decide (t = chars "{}") then Ok (json_roundtrip (slog_to_dict demo_saved)) else Raise (ValueError "no JSON").

