(* ===== verification/Operator.v ===== *)
(** * The Kubernetes operator ([k8s_operator.py])

    A loop that reads the listed clusters and brings three objects of each, a
    ConfigMap, a Deployment and a Service, to the state that its specification
    asks for.

    The API server is a parameter: a state and a function that answers
    requests.  What the operator relies on ([ApiLaws]) is how the server
    treats patches and creations; the relation between an object and a body it
    was given is left to the server, which fills in defaults of its own.  The
    state of the operator also keeps the requests it sent.

    Proved: from any state of the server one sweep brings every listed cluster
    to what its specification asks for, and touches nothing else; a dry run
    sends nothing but the question for the list; a failing cluster does not
    keep the sweep from the others.  One malformed specification does, and the
    variable DRY_RUN is not obeyed by the command: both are exhibited.

    [str] of a container and of a float, [float(s)] and the text of the time
    are parameters.  Names and namespaces are strings, as the API server
    guarantees; watching, threads and signals are left out. *)

From Stdlib Require Import PrimFloat Ascii String.
From S2P Require Import Prelude PyFloat PyVal PyNum Json Windowed SqlParser SqlEngine Server Url DbCheck Agent NamespaceAdmin.

#[local] Open Scope Z_scope.
#[local] Open Scope py_scope.

(** ** Settings *)

Record operator_config := mk_operator_config {
  oc_api_server : string;
  oc_token : string;
  oc_namespace : string;
  oc_reconcile_interval : float;
  oc_watch_timeout : Z;
  oc_http_timeout : float;
  oc_dry_run : bool
}.

(** [OperatorConfig.__post_init__] *)
Definition check_operator_config (c : operator_config) : res operator_config :=
  if fle (oc_reconcile_interval c) 0%float then Raise (ValueError "reconcile_interval must be > 0")
  else if fle (oc_http_timeout c) 0%float then Raise (ValueError "http_timeout must be > 0")
  else if oc_watch_timeout c <=? 0 then Raise (ValueError "watch_timeout must be > 0")
  else Ok c.

Definition environment := string → option string.
Definition env_get (env : environment) (k v : string) : string := default v (env k).

(** [OperatorConfig.from_env] *)
Definition operator_from_env `{FloatParser} (env : environment) : res operator_config :=
  let host := env_get env "KUBERNETES_SERVICE_HOST" "" in
  let port := env_get env "KUBERNETES_SERVICE_PORT_HTTPS" "443" in
  let api_server := (if bool_decide (host = "") then "https://kubernetes.default.svc"
                     else "https://" ++ host ++ ":" ++ port)%string in
  let? interval := py_float_str (env_get env "RECONCILE_INTERVAL" "30") in
  check_operator_config (mk_operator_config api_server (env_get env "KUBE_TOKEN" "") (env_get env "OPERATOR_NAMESPACE" "")
    interval 300 10 (bool_decide (py_lower (env_get env "DRY_RUN" "false") = "true"))).

(** [resolve_token]: [file] is the text of the service account's file. *)
Definition resolve_operator_token (file : option string) (c : operator_config) : string :=
  if bool_decide (oc_token c = "") then match file with Some t => py_strip t | None => "" end else oc_token c.

(** The arguments of the command. *)
Record operator_args := mk_operator_args {
  oa_namespace : string;
  oa_api_server : string;
  oa_reconcile_interval : float;
  oa_dry_run : bool
}.
Definition default_args : operator_args := mk_operator_args "" "" 30 false.

(** The configuration that [main] makes of both. *)
Definition or_text (a b : string) : string := if bool_decide (a = "") then b else a.
Definition main_config `{FloatParser} (env : environment) (a : operator_args) : res operator_config :=
  let? base := operator_from_env env in
  check_operator_config (mk_operator_config (or_text (oa_api_server a) (oc_api_server base)) (oc_token base)
    (or_text (oa_namespace a) (oc_namespace base)) (oa_reconcile_interval a) 300 10 (oa_dry_run a)).

(** ** Requests *)

Inductive verb := GET | PATCH | POST | DELETE.
Record request := mk_request { rq_verb : verb; rq_path : string; rq_body : option pyval }.

Inductive answer :=
| Replied (v : pyval)
| Refused (status : Z)
| NotJson
| TimedOut
| Unreachable.

Section Client.
Context {W : Type} (api : request → W → answer * W).

Record op_state := mk_op { os_world : W; os_sent : list request }.

Definition send (r : request) : M op_state answer :=
  λ s, let '(a, w) := api r (os_world s) in (Ok a, mk_op w (os_sent s ++ [r])).

(** What [get] and [apply] make of an answer. *)
Definition reply_of (a : answer) : res pyval :=
  match a with
  | Replied v => Ok v
  | Refused status => Raise (OperatorError (Some status) "")
  | NotJson => Raise (ValueError "Expecting value")
  | TimedOut => Raise (OperatorError None " timed out: ")
  | Unreachable => Raise (OperatorError None " failed: ")
  end.

Definition k8s_get (path : string) : M op_state pyval :=
  a <- send (mk_request GET path None) ;; mlift (reply_of a).

Definition k8s_apply (v : verb) (path : string) (body : pyval) : M op_state pyval :=
  a <- send (mk_request v path (Some body)) ;; mlift (reply_of a).

Definition k8s_delete (path : string) : M op_state unit :=
  a <- send (mk_request DELETE path None) ;;
  mlift (match a with
         | Refused 404 | Replied _ | NotJson => Ok ()
         | a => res_map (λ _, ()) (reply_of a)
         end).

(** ** Reconciling *)

Context `{FloatRepr} (container : pyval → string) (now : string) (cfg : operator_config).

Definition GROUP : string := "sketchlog.io".
Definition VERSION : string := "v1alpha1".
Definition PLURAL : string := "sketchlogclusters".

(** [d.get(k, v)] of what should be a dictionary. *)
Definition attr_get (d : pyval) (k : string) (v : pyval) : res pyval :=
  match d with VDict d => Ok (get_or d k v) | _ => Raise (AttributeError "object has no attribute 'get'") end.

Definition S_ (s : string) : pyval := VStr s.
Definition managed_by : pyval * pyval := (S_ "app.kubernetes.io/managed-by", S_ "sketchlog-operator").
Definition cluster_label (name : string) : pyval * pyval := (S_ "sketchlog-cluster", S_ name).

Definition object_meta (name namespace cluster : string) : pyval :=
  VDict [(S_ "name", S_ name); (S_ "namespace", S_ namespace); (S_ "labels", VDict [managed_by; cluster_label cluster])].

(** [rsplit("/", 1)[0]] *)
Definition collection_of (path : string) : string :=
  match rsplit_once slash (chars path) with Some (c, _) => str c | None => path end.

(** [_apply_or_create] *)
Definition apply_or_create (path : string) (body : pyval) : M op_state unit :=
  λ s, match k8s_apply PATCH path body s with
       | (Ok _, s) => (Ok (), s)
       | (Raise (OperatorError (Some 404) _), s) => (k8s_apply POST (collection_of path) body ;;; mret ()) s
       | (Raise e, s) => (Raise e, s)
       end.

Definition unless_dry (m : M op_state unit) : M op_state unit := if oc_dry_run cfg then mret () else m.

Definition configmap_path (name namespace : string) : string :=
  ("/api/v1/namespaces/" ++ namespace ++ "/configmaps/" ++ name ++ "-config")%string.
Definition configmap_body (name namespace : string) (spec : pyval) : res pyval :=
  let? max_streams := attr_get spec "maxStreams" (VInt 1000) in
  let? retention_days := attr_get spec "retentionDays" (VInt 7) in
  let? sketch_type := attr_get spec "sketchType" (S_ "ddsketch") in
  let? alpha := attr_get spec "alpha" (VFloat 0.01) in
  Ok (VDict [(S_ "apiVersion", S_ "v1"); (S_ "kind", S_ "ConfigMap");
             (S_ "metadata", object_meta (name ++ "-config")%string namespace name);
             (S_ "data", VDict [(S_ "max_streams", S_ (py_str container max_streams));
                                (S_ "retention_days", S_ (py_str container retention_days));
                                (S_ "sketch_type", S_ (py_str container sketch_type));
                                (S_ "alpha", S_ (py_str container alpha))])]).

Definition probe (delay period : Z) : pyval :=
  VDict [(S_ "httpGet", VDict [(S_ "path", S_ "/health"); (S_ "port", VInt 8080)]);
         (S_ "initialDelaySeconds", VInt delay); (S_ "periodSeconds", VInt period)].

Definition deployment_path (name namespace : string) : string :=
  ("/apis/apps/v1/namespaces/" ++ namespace ++ "/deployments/" ++ name ++ "-sketchlog")%string.
Definition deployment_body (name namespace : string) (spec : pyval) : res pyval :=
  let? replicas := attr_get spec "replicas" (VInt 1) in
  let? replicas := int_of replicas in
  let? image := attr_get spec "image" (S_ "sketchlog/sketchlog:latest") in
  let? resources := attr_get spec "resources" (VDict []) in
  Ok (VDict [(S_ "apiVersion", S_ "apps/v1"); (S_ "kind", S_ "Deployment");
    (S_ "metadata", object_meta (name ++ "-sketchlog")%string namespace name);
    (S_ "spec", VDict [
      (S_ "replicas", VInt replicas);
      (S_ "selector", VDict [(S_ "matchLabels", VDict [cluster_label name])]);
      (S_ "template", VDict [
        (S_ "metadata", VDict [(S_ "labels", VDict [cluster_label name; managed_by])]);
        (S_ "spec", VDict [
          (S_ "serviceAccountName", S_ (name ++ "-sa")%string);
          (S_ "containers", VList [VDict [
             (S_ "name", S_ "sketchlog"); (S_ "image", S_ (py_str container image));
             (S_ "ports", VList [VDict [(S_ "containerPort", VInt 7654); (S_ "name", S_ "grpc")];
                                 VDict [(S_ "containerPort", VInt 8080); (S_ "name", S_ "http")]]);
             (S_ "envFrom", VList [VDict [(S_ "configMapRef", VDict [(S_ "name", S_ (name ++ "-config")%string)])]]);
             (S_ "resources", resources); (S_ "readinessProbe", probe 5 10); (S_ "livenessProbe", probe 15 20)]])])])])]).

Definition service_path (name namespace : string) : string :=
  ("/api/v1/namespaces/" ++ namespace ++ "/services/" ++ name ++ "-sketchlog")%string.
Definition service_port (name : string) (port : Z) : pyval :=
  VDict [(S_ "name", S_ name); (S_ "port", VInt port); (S_ "targetPort", VInt port); (S_ "protocol", S_ "TCP")].
Definition service_body (name namespace : string) (spec : pyval) : res pyval :=
  let? svc_type := attr_get spec "serviceType" (S_ "ClusterIP") in
  Ok (VDict [(S_ "apiVersion", S_ "v1"); (S_ "kind", S_ "Service");
    (S_ "metadata", object_meta (name ++ "-sketchlog")%string namespace name);
    (S_ "spec", VDict [(S_ "selector", VDict [cluster_label name]); (S_ "type", S_ (py_str container svc_type));
                       (S_ "ports", VList [service_port "grpc" 7654; service_port "http" 8080])])]).

Definition ensure (path : string) (body : res pyval) : M op_state unit :=
  b <- mlift body ;; unless_dry (apply_or_create path b).

Definition status_path (name namespace : string) : string :=
  ("/apis/" ++ GROUP ++ "/" ++ VERSION ++ "/namespaces/" ++ namespace ++ "/" ++ PLURAL ++ "/" ++ name ++ "/status")%string.
Definition status_body (phase message : string) : pyval :=
  VDict [(S_ "status", VDict [(S_ "phase", S_ phase); (S_ "message", S_ message); (S_ "lastReconcileTime", S_ now)])].

(** [_update_status] *)
Definition update_status (name namespace phase message : string) : M op_state unit :=
  unless_dry (λ s, match k8s_apply PATCH (status_path name namespace) (status_body phase message) s with
                   | (Ok _, s) | (Raise (OperatorError _ _), s) => (Ok (), s)
                   | (Raise e, s) => (Raise e, s)
                   end).

(** [reconcile] *)
Definition reconcile (name namespace : string) (spec : pyval) : M op_state unit :=
  λ s, match (ensure (configmap_path name namespace) (configmap_body name namespace spec) ;;;
              ensure (deployment_path name namespace) (deployment_body name namespace spec) ;;;
              ensure (service_path name namespace) (service_body name namespace spec) ;;;
              update_status name namespace "Ready" "Reconciled successfully") s with
       | (Ok _, s) => (Ok (), s)
       | (Raise (OperatorError c m), s) => (update_status name namespace "Error" m ;;; mraise (OperatorError c m)) s
       | (Raise e, s) => (Raise e, s)
       end.

Definition list_path : string :=
  if bool_decide (oc_namespace cfg = "") then ("/apis/" ++ GROUP ++ "/" ++ VERSION ++ "/" ++ PLURAL)%string
  else ("/apis/" ++ GROUP ++ "/" ++ VERSION ++ "/namespaces/" ++ oc_namespace cfg ++ "/" ++ PLURAL)%string.

(** The body of the loop over the items. *)
Definition reconcile_item (item : pyval) : M op_state unit :=
  meta <- mlift (attr_get item "metadata" (VDict [])) ;;
  name <- mlift (attr_get meta "name" (S_ "")) ;;
  namespace <- mlift (attr_get meta "namespace" (S_ "default")) ;;
  spec <- mlift (attr_get item "spec" (VDict [])) ;;
  if PyNum.truthy name then
    λ s, match reconcile (py_str container name) (py_str container namespace) spec s with
         | (Raise (OperatorError _ _), s) => (Ok (), s)
         | r => r
         end
  else mret ().

Definition items_of (v : pyval) : res (list pyval) :=
  match v with
  | VList l => Ok l
  | VStr _ | VDict _ => list_of v
  | _ => Raise (TypeError "object has no len()")
  end.

(** [_reconcile_all], which is [run_once] *)
Definition reconcile_all : M op_state unit :=
  λ s, match k8s_get list_path s with
       | (Raise (OperatorError (Some 404) _), s) => (Ok (), s)
       | (Raise e, s) => (Raise e, s)
       | (Ok cluster_list, s) =>
           (v <- mlift (attr_get cluster_list "items" (VList [])) ;;
            items <- mlift (items_of v) ;;
            mfor items reconcile_item) s
       end.

(** [run]: [n] sweeps of the loop, each of which catches every exception. *)
Fixpoint run_rounds (n : nat) : M op_state unit :=
  match n with
  | O => mret ()
  | S n => mtry reconcile_all (mret ()) ;;; run_rounds n
  end.
End Client.

(** ** What the operator relies on *)

(** The name under which a body is created. *)
Definition object_name (body : pyval) : option string :=
  match body with
  | VDict d => match dict_get d "metadata" with
               | Some (VDict m) => match dict_get m "name" with Some (VStr n) => Some n | _ => None end
               | _ => None
               end
  | _ => None
  end.

(** [object w path] is the object at a path, and [has o body] says that an
    object agrees with a body it was given. *)
Class ApiLaws {W} (api : request → W → answer * W) := {
  object : W → string → option pyval;
  has : pyval → pyval → Prop;
  get_keeps path w : ∀ p, object (snd (api (mk_request GET path None) w)) p = object w p;
  patch_present path body w :
    object w path ≠ None →
    ∃ v w' o, api (mk_request PATCH path (Some body)) w = (Replied v, w') ∧ object w' path = Some o ∧ has o body
            ∧ ∀ p, p ≠ path → object w' p = object w p;
  patch_missing path body w :
    object w path = None →
    ∃ w', api (mk_request PATCH path (Some body)) w = (Refused 404, w') ∧ ∀ p, object w' p = object w p;
  post_creates collection name body w :
    object_name body = Some name → slash ∉ chars name → object w (collection ++ "/" ++ name)%string = None →
    ∃ v w' o, api (mk_request POST collection (Some body)) w = (Replied v, w')
            ∧ object w' (collection ++ "/" ++ name)%string = Some o ∧ has o body
            ∧ ∀ p, p ≠ (collection ++ "/" ++ name)%string → object w' p = object w p
}.

Section Converging.
Context {W : Type} (api : request → W → answer * W) `{ApiLaws W api} `{FloatRepr}.
Context (container : pyval → string) (now : string) (cfg : operator_config).
Context (Hwet : oc_dry_run cfg = false).

Notation op := (op_state (W := W)).

(** The object at a path agrees with a body. *)
Definition holds (w : W) (path : string) (body : pyval) : Prop := ∃ o, object w path = Some o ∧ has o body.

(** Nothing changed but at the given paths. *)
Definition only (paths : list string) (w w' : W) : Prop := ∀ p, p ∉ paths → object w' p = object w p.

Lemma only_trans ps qs w1 w2 w3 : only ps w1 w2 → only qs w2 w3 → only (ps ++ qs) w1 w3.
Proof. intros H1 H2 p Hp. rewrite H2, H1; [done|set_solver..]. Qed.

Lemma holds_only paths w w' path body : only paths w w' → path ∉ paths → holds w path body → holds w' path body.
Proof. intros Ho Hp (o & Eo & Hh). exists o. by rewrite Ho. Qed.

Lemma chars_app s t : chars (s ++ t)%string = chars s ++ chars t.
Proof. induction s as [|a s IH]; [done|]. change (a :: chars (s ++ t)%string = a :: chars s ++ chars t). by rewrite IH. Qed.

Lemma string_app_assoc (a b c : string) : ((a ++ b) ++ c = a ++ b ++ c)%string.
Proof. rewrite <- (str_chars ((a ++ b) ++ c)), <- (str_chars (a ++ b ++ c)). by rewrite !chars_app, app_assoc. Qed.

Lemma collection_of_app collection name :
  slash ∉ chars name → collection_of (collection ++ "/" ++ name) = collection.
Proof.
  intros Hn. unfold collection_of. rewrite !chars_app. change (chars "/") with [slash]. cbn [app].
  by rewrite rsplit_once_app, str_chars.
Qed.

(** An object is patched, or created when there is none. *)
Lemma apply_or_create_holds collection name body (s : op) :
  object_name body = Some name → slash ∉ chars name →
  let path := (collection ++ "/" ++ name)%string in
  ∃ s', apply_or_create api path body s = (Ok (), s') ∧ holds (os_world s') path body ∧ only [path] (os_world s) (os_world s').
Proof.
  intros Hn Hs path. unfold apply_or_create, k8s_apply, send, mbind, mlift.
  destruct (object (os_world s) path) as [o|] eqn:Eo.
  - destruct (patch_present path body (os_world s)) as (v & w' & o' & -> & Eo' & Hh & Hf); [by rewrite Eo|].
    eexists. split; [reflexivity|]. split; [by exists o'|]. intros p Hp. cbn [os_world]. apply Hf. set_solver.
  - destruct (patch_missing path body (os_world s) Eo) as (w1 & -> & Hf1). cbn [reply_of os_world].
    assert (collection_of path = collection) as -> by by apply collection_of_app.
    destruct (post_creates collection name body w1 Hn Hs) as (v & w2 & o2 & -> & Eo2 & Hh & Hf2); [by rewrite Hf1|].
    eexists. split; [reflexivity|]. split; [by exists o2|]. intros p Hp. cbn [os_world].
    rewrite Hf2 by set_solver. apply Hf1.
Qed.

(** A status is reported where there is one to patch. *)
Lemma update_status_only name namespace phase message (s : op) :
  ∃ s', update_status api now cfg name namespace phase message s = (Ok (), s')
      ∧ only [status_path name namespace] (os_world s) (os_world s').
Proof.
  unfold update_status, unless_dry. rewrite Hwet. unfold k8s_apply, send, mbind, mlift.
  set (path := status_path name namespace). set (body := status_body now phase message).
  destruct (object (os_world s) path) as [o|] eqn:Eo.
  - destruct (patch_present path body (os_world s)) as (v & w' & o' & -> & _ & _ & Hf); [by rewrite Eo|].
    eexists. split; [reflexivity|]. intros p Hp. apply Hf. set_solver.
  - destruct (patch_missing path body (os_world s) Eo) as (w' & -> & Hf).
    eexists. split; [reflexivity|]. intros p Hp. apply Hf.
Qed.

(** ** Clusters and their objects *)

Record cluster := mk_cluster { cl_name : string; cl_namespace : string; cl_spec : pydict }.

(** An item of the list describes a cluster. *)
Definition describes (item : pyval) (c : cluster) : Prop :=
  ∃ meta, attr_get item "metadata" (VDict []) = Ok meta ∧ attr_get meta "name" (S_ "") = Ok (VStr (cl_name c))
        ∧ attr_get meta "namespace" (S_ "default") = Ok (VStr (cl_namespace c))
        ∧ attr_get item "spec" (VDict []) = Ok (VDict (cl_spec c)).

(** Names are not empty and hold no slash, and the replicas are a number. *)
Definition cluster_ok (c : cluster) : Prop :=
  cl_name c ≠ "" ∧ slash ∉ chars (cl_name c) ∧ slash ∉ chars (cl_namespace c)
  ∧ is_ok (int_of (get_or (cl_spec c) "replicas" (VInt 1))) = true.

(** The objects a cluster asks for. *)
Definition wanted (c : cluster) : list (string * res pyval) :=
  [(configmap_path (cl_name c) (cl_namespace c), configmap_body container (cl_name c) (cl_namespace c) (VDict (cl_spec c)));
   (deployment_path (cl_name c) (cl_namespace c), deployment_body container (cl_name c) (cl_namespace c) (VDict (cl_spec c)));
   (service_path (cl_name c) (cl_namespace c), service_body container (cl_name c) (cl_namespace c) (VDict (cl_spec c)))].
Definition touched (c : cluster) : list string := (wanted c).*1 ++ [status_path (cl_name c) (cl_namespace c)].

Definition satisfied (w : W) (c : cluster) : Prop :=
  Forall (λ pb, ∃ b, snd pb = Ok b ∧ holds w (fst pb) b) (wanted c).

Lemma ensure_holds collection name path body b (s : op) :
  body = Ok b → object_name b = Some name → slash ∉ chars name → path = (collection ++ "/" ++ name)%string →
  ∃ s', ensure api cfg path body s = (Ok (), s') ∧ holds (os_world s') path b ∧ only [path] (os_world s) (os_world s').
Proof.
  intros -> Hn Hs ->. unfold ensure, mlift, mbind, unless_dry. rewrite Hwet. by apply apply_or_create_holds.
Qed.

Lemma bodies_ok c : cluster_ok c → ∃ b1 b2 b3,
  configmap_body container (cl_name c) (cl_namespace c) (VDict (cl_spec c)) = Ok b1
  ∧ deployment_body container (cl_name c) (cl_namespace c) (VDict (cl_spec c)) = Ok b2
  ∧ service_body container (cl_name c) (cl_namespace c) (VDict (cl_spec c)) = Ok b3
  ∧ object_name b1 = Some (cl_name c ++ "-config")%string ∧ object_name b2 = Some (cl_name c ++ "-sketchlog")%string
  ∧ object_name b3 = Some (cl_name c ++ "-sketchlog")%string.
Proof.
  intros (_ & _ & _ & Hr). unfold configmap_body, deployment_body, service_body, attr_get. cbn [res_bind].
  destruct (int_of _) as [n|]; [|done]. cbn [res_bind]. do 3 eexists. by split_and!.
Qed.

(** The addresses of the objects, by their segments. *)
Inductive kind := KConfig | KDeploy | KService | KStatus.
Definition path_of (k : kind) : string → string → string :=
  match k with KConfig => configmap_path | KDeploy => deployment_path | KService => service_path | KStatus => status_path end.
Definition words_of (k : kind) (n ns : string) : list text :=
  match k with
  | KConfig => [[]; chars "api"; chars "v1"; chars "namespaces"; chars ns; chars "configmaps"; chars n ++ chars "-config"]
  | KDeploy => [[]; chars "apis"; chars "apps"; chars "v1"; chars "namespaces"; chars ns; chars "deployments"; chars n ++ chars "-sketchlog"]
  | KService => [[]; chars "api"; chars "v1"; chars "namespaces"; chars ns; chars "services"; chars n ++ chars "-sketchlog"]
  | KStatus => [[]; chars "apis"; chars GROUP; chars VERSION; chars "namespaces"; chars ns; chars PLURAL; chars n; chars "status"]
  end.

Lemma path_words k n ns : chars (path_of k n ns) = Agent.join [slash] (words_of k n ns).
Proof.
  destruct k; cbn [path_of words_of]; unfold configmap_path, deployment_path, service_path, status_path;
    rewrite !chars_app; cbn [Agent.join]; rewrite <- ?app_assoc; reflexivity.
Qed.

Lemma split_join_words ws : ws ≠ [] → Forall (λ w, slash ∉ w) ws → split_on slash (Agent.join [slash] ws) = ws.
Proof.
  intros Hn Hf. induction Hf as [|w ws Hw Hf IH]; [done|]. destruct ws as [|w' ws]; [by apply split_on_word|].
  change (Agent.join [slash] (w :: w' :: ws)) with (w ++ slash :: Agent.join [slash] (w' :: ws)).
  rewrite split_on_app by done. by rewrite IH.
Qed.

Lemma words_plain k n ns : slash ∉ chars n → slash ∉ chars ns → Forall (λ w, slash ∉ w) (words_of k n ns).
Proof.
  intros Hn Hs. destruct k; repeat constructor; rewrite ?elem_of_app; try done; try (intros [?|Hx]; [done|]; revert Hx);
    by apply (bool_decide_unpack _).
Qed.

Lemma chars_inj a b : chars a = chars b → a = b.
Proof. intros E. by rewrite <- (str_chars a), E, str_chars. Qed.

Lemma path_inj k k' n n' ns ns' :
  slash ∉ chars n → slash ∉ chars ns → slash ∉ chars n' → slash ∉ chars ns' →
  path_of k n ns = path_of k' n' ns' → k = k' ∧ n = n' ∧ ns = ns'.
Proof.
  intros H1 H2 H3 H4 E. apply (f_equal chars) in E. rewrite !path_words in E. apply (f_equal (split_on slash)) in E.
  rewrite !split_join_words in E by (try apply words_plain; by try destruct k; try destruct k').
  destruct k, k'; try done; cbn [words_of] in E; injection E; intros; split_and!; try done; apply chars_inj; try done;
    by eapply app_inv_tail.
Qed.

Lemma touched_paths c p : p ∈ touched c ↔ ∃ k, p = path_of k (cl_name c) (cl_namespace c).
Proof.
  unfold touched, wanted. cbn [fmap list_fmap fst app]. rewrite !elem_of_cons, elem_of_nil. split.
  - intros [->|[->|[->|[->|[]]]]]; [by exists KConfig|by exists KDeploy|by exists KService|by exists KStatus].
  - intros [[] ->]; cbn [path_of]; tauto.
Qed.

Lemma wanted_touched c pb : pb ∈ wanted c → pb.1 ∈ touched c.
Proof. intros Hp. unfold touched. apply elem_of_app. left. apply list_elem_of_fmap. by exists pb. Qed.

(** Different clusters touch different paths. *)
Lemma touched_apart c c' p :
  cluster_ok c → cluster_ok c' → p ∈ touched c → p ∈ touched c' →
  (cl_namespace c, cl_name c) = (cl_namespace c', cl_name c').
Proof.
  intros (_ & H1 & H2 & _) (_ & H3 & H4 & _). rewrite !touched_paths. intros [k ->] [k' E].
  apply path_inj in E as (_ & -> & ->); done.
Qed.

(** ** One cluster and one sweep *)

Lemma slash_suffix c x : cluster_ok c → slash ∉ chars x → slash ∉ chars (cl_name c ++ x)%string.
Proof. intros (_ & Hn & _) Hx. rewrite chars_app, elem_of_app. tauto. Qed.

Lemma reconcile_satisfies c (s : op) :
  cluster_ok c →
  ∃ s', reconcile api container now cfg (cl_name c) (cl_namespace c) (VDict (cl_spec c)) s = (Ok (), s')
      ∧ satisfied (os_world s') c ∧ only (touched c) (os_world s) (os_world s').
Proof.
  intros Hc. destruct (bodies_ok c Hc) as (b1 & b2 & b3 & E1 & E2 & E3 & Hn1 & Hn2 & Hn3).
  set (n := cl_name c) in *. set (ns := cl_namespace c) in *.
  assert (configmap_path n ns = ("/api/v1/namespaces/" ++ ns ++ "/configmaps") ++ "/" ++ (n ++ "-config"))%string as P1
    by (unfold configmap_path; by rewrite !string_app_assoc).
  assert (deployment_path n ns = ("/apis/apps/v1/namespaces/" ++ ns ++ "/deployments") ++ "/" ++ (n ++ "-sketchlog"))%string as P2
    by (unfold deployment_path; by rewrite !string_app_assoc).
  assert (service_path n ns = ("/api/v1/namespaces/" ++ ns ++ "/services") ++ "/" ++ (n ++ "-sketchlog"))%string as P3
    by (unfold service_path; by rewrite !string_app_assoc).
  destruct (ensure_holds _ _ _ _ _ s E1 Hn1 (slash_suffix c "-config" Hc ltac:(by apply (bool_decide_unpack _))) P1) as (s1 & R1 & H1 & O1).
  destruct (ensure_holds _ _ _ _ _ s1 E2 Hn2 (slash_suffix c "-sketchlog" Hc ltac:(by apply (bool_decide_unpack _))) P2) as (s2 & R2 & H2 & O2).
  destruct (ensure_holds _ _ _ _ _ s2 E3 Hn3 (slash_suffix c "-sketchlog" Hc ltac:(by apply (bool_decide_unpack _))) P3) as (s3 & R3 & H3 & O3).
  destruct (update_status_only n ns "Ready" "Reconciled successfully" s3) as (s4 & R4 & O4).
  exists s4. split; [|split].
  - unfold reconcile, mbind. by rewrite R1, R2, R3, R4.
  - assert (∀ k k', k ≠ k' → path_of k n ns ∉ [path_of k' n ns]) as Hk.
    { intros k k' Hkk Hin. apply list_elem_of_singleton in Hin. destruct Hc as (_ & Hs & Hs' & _).
      by apply path_inj in Hin as [? _]. }
    assert (holds (os_world s4) (configmap_path n ns) b1) as G1.
    { eapply holds_only; [exact O4|by apply (Hk KConfig KStatus)|]. eapply holds_only; [exact O3|by apply (Hk KConfig KService)|].
      eapply holds_only; [exact O2|by apply (Hk KConfig KDeploy)|done]. }
    assert (holds (os_world s4) (deployment_path n ns) b2) as G2.
    { eapply holds_only; [exact O4|by apply (Hk KDeploy KStatus)|]. by eapply holds_only; [exact O3|by apply (Hk KDeploy KService)|]. }
    assert (holds (os_world s4) (service_path n ns) b3) as G3 by (by eapply holds_only; [exact O4|by apply (Hk KService KStatus)|]).
    unfold satisfied, wanted. fold n ns. rewrite E1, E2, E3. repeat constructor; cbn [fst snd]; eauto.
  - pose proof (only_trans _ _ _ _ _ (only_trans _ _ _ _ _ (only_trans _ _ _ _ _ O1 O2) O3) O4) as O. exact O.
Qed.

Lemma item_satisfies item c (s : op) :
  describes item c → cluster_ok c →
  ∃ s', reconcile_item api container now cfg item s = (Ok (), s')
      ∧ satisfied (os_world s') c ∧ only (touched c) (os_world s) (os_world s').
Proof.
  intros (meta & Em & En & Es & Ep) Hc. destruct (reconcile_satisfies c s Hc) as (s' & R & Hs & Ho).
  exists s'. split; [|done]. unfold reconcile_item, mlift, mbind. rewrite Em, En, Es, Ep.
  assert (PyNum.truthy (VStr (cl_name c)) = true) as ->.
  { destruct Hc as [Hn _]. cbn. by rewrite bool_decide_false. }
  cbn [py_str]. by rewrite R.
Qed.

Lemma sweep_satisfies items cs (s : op) :
  Forall2 describes items cs → Forall cluster_ok cs → NoDup (map (λ c, (cl_namespace c, cl_name c)) cs) →
  ∃ s', mfor items (reconcile_item api container now cfg) s = (Ok (), s')
      ∧ Forall (satisfied (os_world s')) cs ∧ only (flat_map touched cs) (os_world s) (os_world s').
Proof.
  intros Hd. revert s. induction Hd as [|item c items cs Hi Hd IH]; intros s Hc Hn.
  { exists s. split_and!; [done|constructor|by intros p]. }
  apply Forall_cons in Hc as [Hc Hcs]. apply NoDup_cons in Hn as [Hk Hn].
  destruct (item_satisfies item c s Hi Hc) as (s1 & R1 & S1 & O1). destruct (IH s1 Hcs Hn) as (s2 & R2 & S2 & O2).
  exists s2. split_and!.
  - cbn [mfor]. unfold mbind. rewrite R1. exact R2.
  - constructor; [|done]. revert S1. unfold satisfied. rewrite !Forall_forall. intros S1 pb Hp.
    destruct (S1 pb Hp) as (b & Eb & Hh). exists b. split; [done|]. eapply holds_only; [exact O2| |done].
    intros Hin. apply list_elem_of_In, in_flat_map in Hin as (c' & Hc' & Hin). apply list_elem_of_In in Hc', Hin.
    apply Hk. rewrite (touched_apart c c' pb.1); [|done|by eapply Forall_forall|by apply wanted_touched|done].
    apply list_elem_of_fmap. by exists c'.
  - cbn [flat_map]. by eapply only_trans.
Qed.

End Converging.

(** ** Dry runs and failures *)

Section Anyway.
Context {W : Type} (api : request → W → answer * W) `{FloatRepr} (container : pyval → string) (now : string).

Lemma ensure_dry cfg path body (s : op_state (W := W)) :
  oc_dry_run cfg = true → snd (ensure api cfg path body s) = s.
Proof. intros Hd. unfold ensure, mlift, mbind, unless_dry. rewrite Hd. by destruct body. Qed.

Lemma status_dry cfg n ns phase message (s : op_state (W := W)) :
  oc_dry_run cfg = true → update_status api now cfg n ns phase message s = (Ok (), s).
Proof. intros Hd. unfold update_status, unless_dry. by rewrite Hd. Qed.

Lemma reconcile_dry cfg n ns spec (s : op_state (W := W)) :
  oc_dry_run cfg = true → snd (reconcile api container now cfg n ns spec s) = s.
Proof.
  intros Hd. unfold reconcile, mbind.
  pose proof (ensure_dry cfg (configmap_path n ns) (configmap_body container n ns spec) s Hd) as E1.
  pose proof (ensure_dry cfg (deployment_path n ns) (deployment_body container n ns spec) s Hd) as E2.
  pose proof (ensure_dry cfg (service_path n ns) (service_body container n ns spec) s Hd) as E3.
  assert (∀ c m, snd (let (r, s') := update_status api now cfg n ns "Error" m s in
    match r with Ok _ => mraise (A := unit) (OperatorError c m) s' | Raise e => (Raise e, s') end) = s) as Herr
    by (intros; by rewrite status_dry).
  destruct (ensure api cfg (configmap_path n ns) _ s) as [[u1|[]] s1]; cbn [snd] in E1; subst s1; try done.
  destruct (ensure api cfg (deployment_path n ns) _ s) as [[u2|[]] s2]; cbn [snd] in E2; subst s2; try done.
  destruct (ensure api cfg (service_path n ns) _ s) as [[u3|[]] s3]; cbn [snd] in E3; subst s3; try done.
  by rewrite status_dry.
Qed.

Lemma items_dry cfg items (s : op_state (W := W)) :
  oc_dry_run cfg = true → snd (mfor items (reconcile_item api container now cfg) s) = s.
Proof.
  intros Hd. revert s. induction items as [|item items IH]; intros s; [done|].
  cbn [mfor]. unfold mbind.
  assert (snd (reconcile_item api container now cfg item s) = s) as E.
  { unfold reconcile_item, mlift, mbind.
    destruct (attr_get item "metadata" _) as [meta|]; [|done]. destruct (attr_get meta "name" _) as [n|]; [|done].
    destruct (attr_get meta "namespace" _) as [ns|]; [|done]. destruct (attr_get item "spec" _) as [spec|]; [|done].
    destruct (PyNum.truthy n); [|done].
    pose proof (reconcile_dry cfg (py_str container n) (py_str container ns) spec s Hd) as E.
    destruct (reconcile _ _ _ _ _ _ _ s) as [[u|[]] s']; cbn [snd] in E; by subst s'. }
  destruct (reconcile_item api container now cfg item s) as [[u|e] s']; cbn [snd] in E; subst s'; [apply IH|done].
Qed.

(** A dry run sends the question for the list and nothing else. *)
Lemma dry_run_only_asks cfg w :
  oc_dry_run cfg = true →
  os_sent (snd (reconcile_all api container now cfg (mk_op w []))) = [mk_request GET (list_path cfg) None].
Proof.
  intros Hd. unfold reconcile_all, k8s_get, send, mbind, mlift. cbn [os_world os_sent app].
  destruct (api _ w) as [a w1].
  destruct (reply_of a) as [v|[]]; try done; [|by repeat case_match].
  destruct (attr_get v _ _) as [l|]; [|done]. destruct (items_of l) as [items|]; [|done]. by rewrite items_dry.
Qed.
End Anyway.

(** A server that may refuse, be late or be out of reach, but answers in JSON. *)
Section Faults.
Context {W : Type} (api : request → W → answer * W) `{FloatRepr} (container : pyval → string) (now : string) (cfg : operator_config).
Context (Hjson : ∀ r w, fst (api r w) ≠ NotJson) (Hwet : oc_dry_run cfg = false).

Definition operational (e : exn) : Prop := match e with OperatorError _ _ => True | _ => False end.

(** A call ends normally or with an [OperatorError], and the requests sent
    before stay on record. *)
Definition steady {A} (m : M (op_state (W := W)) A) : Prop :=
  ∀ s, raises operational (fst (m s)) ∧ os_sent s ⊆ os_sent (snd (m s)).

Lemma steady_ret {A} (a : A) : steady (mret a).
Proof. by intros s. Qed.

Lemma steady_bind {A B} (m : M _ A) (k : A → M _ B) : steady m → (∀ a, steady (k a)) → steady (mbind m k).
Proof.
  intros Hm Hk s. destruct (Hm s) as [Hr Hs]. unfold mbind. destruct (m s) as [[a|e] s']; cbn [fst snd] in *; [|done].
  destruct (Hk a s') as [Hr' Hs']. split; [done|set_solver].
Qed.

Lemma steady_apply v path body : steady (k8s_apply api v path body).
Proof.
  intros s. unfold k8s_apply, send, mbind, mlift. pose proof (Hjson (mk_request v path (Some body)) (os_world s)) as Hj.
  destruct (api _ _) as [a w]. cbn [fst snd os_sent] in *. split; [by destruct a|set_solver].
Qed.

Lemma steady_apply_or_create path body : steady (apply_or_create api path body).
Proof.
  intros s. unfold apply_or_create. destruct (steady_apply PATCH path body s) as [Hr Hs].
  destruct (k8s_apply api PATCH path body s) as [[v|e] s']; cbn [fst snd] in *; [done|].
  destruct e as [| | | | | | | | | | | |[st|] m]; try done. destruct (decide (st = 404)) as [->|Hst].
  - destruct (steady_bind (k8s_apply api POST (collection_of path) body) (λ _, mret ()) (steady_apply _ _ _) (λ _, steady_ret _) s')
      as [Hr' Hs']. split; [done|set_solver].
  - assert (∀ A (x y : A), match st with 404 => x | _ => y end = y) as Hm.
    { intros A x y. destruct st as [|p|]; try done. repeat (destruct p as [p|p|]; try done). }
    by rewrite Hm.
Qed.

Lemma steady_ensure path body : is_ok body = true → steady (ensure api cfg path body).
Proof.
  intros Hb. destruct body as [b|]; [|done]. unfold ensure, unless_dry. rewrite Hwet.
  apply steady_bind; [by intros s|]. intros a. apply steady_apply_or_create.
Qed.

Lemma steady_status n ns phase message : steady (update_status api now cfg n ns phase message).
Proof.
  intros s. unfold update_status, unless_dry. rewrite Hwet.
  destruct (steady_apply PATCH (status_path n ns) (status_body now phase message) s) as [Hr Hs].
  destruct (k8s_apply _ _ _ _ s) as [[v|e] s']; cbn [fst snd] in *; [done|]. by destruct e.
Qed.

Lemma ensure_sends path b (s : op_state (W := W)) :
  mk_request PATCH path (Some b) ∈ os_sent (snd (ensure api cfg path (Ok b) s)).
Proof.
  unfold ensure, mlift, mbind, unless_dry. rewrite Hwet. unfold apply_or_create.
  assert (mk_request PATCH path (Some b) ∈ os_sent (snd (k8s_apply api PATCH path b s))) as Hin.
  { unfold k8s_apply, send, mbind, mlift. destruct (api _ _) as [a w]. cbn [snd os_sent]. set_solver. }
  destruct (k8s_apply api PATCH path b s) as [[v|e] s']; cbn [snd] in *; [done|].
  destruct (steady_bind (k8s_apply api POST (collection_of path) b) (λ _, mret ()) (steady_apply _ _ _) (λ _, steady_ret _) s')
    as [_ Hs]. destruct e as [| | | | | | | | | | | |[st|] m]; try done.
  repeat case_match; try done; by apply Hs.
Qed.

(** The item is dealt with, whatever the server does. *)
Lemma item_attempted item c (s : op_state (W := W)) :
  describes item c → cluster_ok c →
  ∃ s' b, reconcile_item api container now cfg item s = (Ok (), s') ∧ os_sent s ⊆ os_sent s'
        ∧ configmap_body container (cl_name c) (cl_namespace c) (VDict (cl_spec c)) = Ok b
        ∧ mk_request PATCH (configmap_path (cl_name c) (cl_namespace c)) (Some b) ∈ os_sent s'.
Proof.
  intros (meta & Em & En & Es & Ep) Hc. destruct (bodies_ok container c Hc) as (b1 & b2 & b3 & E1 & E2 & E3 & _).
  unfold reconcile_item, mlift, mbind. rewrite Em, En, Es, Ep.
  assert (PyNum.truthy (VStr (cl_name c)) = true) as ->.
  { destruct Hc as [Hn _]. cbn. by rewrite bool_decide_false. }
  cbn [py_str]. set (n := cl_name c) in *. set (ns := cl_namespace c) in *. unfold reconcile. rewrite E1, E2, E3.
  pose proof (ensure_sends (configmap_path n ns) b1 s) as Hin.
  destruct (steady_ensure (configmap_path n ns) (Ok b1) eq_refl s) as [Hr Hs].
  set (rest := λ _ : unit, ensure api cfg (deployment_path n ns) (Ok b2) ;;; ensure api cfg (service_path n ns) (Ok b3) ;;;
    update_status api now cfg n ns "Ready" "Reconciled successfully").
  assert (∀ u, steady (rest u)) as Hrest.
  { intros u. apply steady_bind; [by apply steady_ensure|]. intros _. apply steady_bind; [by apply steady_ensure|].
    intros _. apply steady_status. }
  assert (∃ r s1, mbind (ensure api cfg (configmap_path n ns) (Ok b1)) rest s = (r, s1) ∧ raises operational r
    ∧ os_sent (snd (ensure api cfg (configmap_path n ns) (Ok b1) s)) ⊆ os_sent s1) as (r & s1 & Er & Hr1 & Hs1).
  { unfold mbind at 1. destruct (ensure api cfg _ (Ok b1) s) as [[u|e] s0]; cbn [fst snd] in *; [|by eauto].
    destruct (Hrest u s0) as [H1 H2]. destruct (rest u s0) as [r s1]. by exists r, s1. }
  rewrite Er. exists (match r with Ok _ => s1 | Raise e =>
    snd (update_status api now cfg n ns "Error" (match e with OperatorError _ m => m | _ => "" end) s1) end), b1.
  destruct r as [u|e]; [split_and!; [done|set_solver|done|set_solver]|].
  destruct e; try done. unfold mbind. destruct (steady_status n ns "Error" msg s1) as [Hr2 Hs2].
  destruct (update_status api now cfg n ns "Error" msg s1) as [[u2|e2] s2]; cbn [fst snd] in *;
    [|destruct e2; try done]; (split_and!; [done|set_solver|done|set_solver]).
Qed.

(** No failing request keeps the sweep from a cluster: it returns, and every
    listed cluster was worked on. *)
Lemma every_cluster_is_attempted items cs (s : op_state (W := W)) :
  Forall2 describes items cs → Forall cluster_ok cs →
  ∃ s', mfor items (reconcile_item api container now cfg) s = (Ok (), s') ∧ os_sent s ⊆ os_sent s'
      ∧ Forall (λ c, ∃ b, configmap_body container (cl_name c) (cl_namespace c) (VDict (cl_spec c)) = Ok b
                       ∧ mk_request PATCH (configmap_path (cl_name c) (cl_namespace c)) (Some b) ∈ os_sent s') cs.
Proof.
  intros Hd. revert s. induction Hd as [|item c items cs Hi Hd IH]; intros s Hc; [by exists s|].
  apply Forall_cons in Hc as [Hc Hcs]. destruct (item_attempted item c s Hi Hc) as (s1 & b & R1 & S1 & Eb & Hin).
  destruct (IH s1 Hcs) as (s2 & R2 & S2 & H2). exists s2. cbn [mfor]. unfold mbind. rewrite R1.
  split_and!; [exact R2|set_solver|]. constructor; [|done]. exists b. split; [done|set_solver].
Qed.
End Faults.

(** ** A server *)

(** A server that keeps the bodies it is sent, and lists the given document. *)
Definition keeping_server (listed : pyval) (r : request) (w : gmap string pyval) : answer * gmap string pyval :=
  match rq_verb r, rq_body r with
  | GET, _ => (Replied listed, w)
  | PATCH, Some b => match w !! rq_path r with Some _ => (Replied b, <[rq_path r := b]> w) | None => (Refused 404, w) end
  | POST, Some b =>
      match object_name b with
      | Some n => let path := (rq_path r ++ "/" ++ n)%string in
                  match w !! path with Some _ => (Refused 409, w) | None => (Replied b, <[path := b]> w) end
      | None => (Refused 422, w)
      end
  | DELETE, _ => match w !! rq_path r with Some b => (Replied b, delete (rq_path r) w) | None => (Refused 404, w) end
  | _, None => (Refused 400, w)
  end.

#[local] Instance keeping_laws listed : ApiLaws (keeping_server listed).
Proof.
  refine {| object := λ (w : gmap string pyval) p, w !! p; has := eq |}.
  - done.
  - intros path body w Hp. unfold keeping_server. cbn [rq_verb rq_body rq_path].
    destruct (w !! path) as [o|] eqn:E; [|done]. exists body, (<[path := body]> w), body.
    split_and!; [done|by rewrite lookup_insert_eq|done|]. intros p Hne. by rewrite lookup_insert_ne.
  - intros path body w Hp. unfold keeping_server. cbn [rq_verb rq_body rq_path]. rewrite Hp. by exists w.
  - intros collection name body w Hn _ Hp. unfold keeping_server. cbn [rq_verb rq_body rq_path]. rewrite Hn, Hp.
    exists body, (<[(collection ++ "/" ++ name)%string := body]> w), body.
    split_and!; [done|by rewrite lookup_insert_eq|done|]. intros p Hne. by rewrite lookup_insert_ne.
Defined.

#[local] Instance plain_repr : FloatRepr := λ _, "0.01".
Definition plain_container : pyval → string := λ _, "{}".
Definition wet_config : operator_config := mk_operator_config "https://kubernetes.default.svc" "" "" 30 300 10 false.

Definition item (name : string) (spec : pydict) : pyval :=
  VDict [(S_ "metadata", VDict [(S_ "name", S_ name); (S_ "namespace", S_ "ns")]); (S_ "spec", VDict spec)].
Definition listing (items : list pyval) : pyval := VDict [(S_ "items", VList items)].
Definition demo_items : list pyval := [item "a" [(S_ "replicas", VInt 3)]; item "b" []].
Definition demo_clusters : list cluster := [mk_cluster "a" "ns" [(S_ "replicas", VInt 3)]; mk_cluster "b" "ns" []].


(** ** What the model exhibits *)

(** The replicas of the first cluster are no number: the exception is not an
    [OperatorError], no status says so, and the second cluster is never looked
    at, in this sweep and in any other. *)
Example bad_spec_blocks_the_rest :
  let items := [item "a" [(S_ "replicas", S_ "many")]; item "b" []] in
  let '(r, s) := reconcile_all (keeping_server (listing items)) plain_container "now" wet_config (mk_op ∅ []) in
  r = Raise (ValueError "invalid literal for int() with base 10")
  ∧ map rq_path (os_sent s) = ["/apis/sketchlog.io/v1alpha1/sketchlogclusters"; "/api/v1/namespaces/ns/configmaps/a-config";
                               "/api/v1/namespaces/ns/configmaps"]%string
  ∧ os_world (snd (run_rounds (keeping_server (listing items)) plain_container "now" wet_config 3 (mk_op ∅ [])))
      !! configmap_path "b" "ns" = None.
Proof. vm_compute. split_and!; reflexivity. Qed.

(** Cleared specifications do the same. *)
Example null_spec_blocks_the_rest :
  fst (reconcile_all (keeping_server (listing [VDict [(S_ "metadata", VDict [(S_ "name", S_ "a")]); (S_ "spec", VNone)]]))
         plain_container "now" wet_config (mk_op ∅ [])) = Raise (AttributeError "object has no attribute 'get'").
Proof. vm_compute. reflexivity. Qed.

(** docs/kubernetes-operator.md documents the variables DRY_RUN and
    RECONCILE_INTERVAL; the command takes both from its arguments alone. *)
Example dry_run_variable_is_ignored `{FloatParser} :
  py_float_str "5" = Ok 5%float →
  let env k := if bool_decide (k = "DRY_RUN") then Some "true"%string
               else if bool_decide (k = "RECONCILE_INTERVAL") then Some "5"%string else None in
  res_map (λ c, (oc_dry_run c, oc_reconcile_interval c)) (operator_from_env env) = Ok (true, 5%float)
  ∧ res_map (λ c, (oc_dry_run c, oc_reconcile_interval c)) (main_config env default_args) = Ok (false, 30%float).
Proof.
  intros E env. unfold main_config. assert (operator_from_env env =
    Ok (mk_operator_config "https://kubernetes.default.svc" "" "" 5 300 10 true)) as ->.
  { unfold operator_from_env. change (env_get env "RECONCILE_INTERVAL" "30") with "5"%string. rewrite E. reflexivity. }
  by split.
Qed.
